(* ===== verification/_CoqProject ===== *)
-Q . S2P
Prelude.v
GoLang.v
Strings.v
Float.v
Duration.v
Numbers.v
Flag.v
Protocol.v
KvMessages.v
ClusterMessages.v
ClientMessages.v
Messages.v
MessageTypes.v
WalRecord.v
Os.v
WalWriter.v
WalWindow.v
Shard.v
Eviction.v
Store.v
Recovery.v
StoreSpec.v
Concurrency.v
Logs.v
StoreProps.v
ConcurrencyProps.v
Raft.v
RaftProps.v
RaftLive.v
Replication.v
ReplicationProps.v
ReplicaSessions.v
FollowerLoop.v
FrameStream.v
NodeConcurrency.v
Engine.v
Server.v
ServerProps.v
ServerSafe.v
ServerConcurrency.v
ServerLive.v
MemoryBytes.v
Config.v
Cli.v
CliProps.v
CliMain.v
RaftWire.v
Bench.v
Csv.v
LoadGen.v
LoadRun.v
LoadMain.v
Program.v
ProgramConcurrent.v
