(* ===== verification/Prelude.v ===== *)
(** * Keva: verification of a distributed key-value store

    Keva (the Go program under [src/]) is a key-value server.  A node keeps a sharded
    map in memory, behind it a write-ahead log on disk; clients talk to it over TCP in
    a binary protocol; several nodes elect a leader, whose writes are sent on to the
    others.  This library translates the program into executable definitions, one file
    per component, and proves what makes each component, and the whole, correct.

    ** How the parts fit together

    [main.go] reads the configuration, opens the store (which replays the log) and
    starts a node and the TCP server.  The server reads frames ([protocol]) from a
    connection.  Client commands go through the command table of [engine] to the node
    ([cluster/node.go]), which writes to its store and, while it leads, broadcasts the
    write to its followers; votes and heartbeats go to the election state
    ([cluster/raft.go]); a follower's join request hands its connection to the leader
    ([cluster/leader.go]).  The store ([storage/store]) appends to the log
    ([storage/wal]), picks a shard by hash, and lets the shard's eviction policy
    ([storage/eviction]) make room.  The command-line client ([cli]) asks any node for
    the topology and sends its commands to the leader or a follower.

    ** Files

    - [Prelude] (this file): machine integers as integers of [Z] with explicit wrap-around,
      list lemmas, the scope and the hint database.
    - [GoLang]: the part of Go the sources use: the outcomes of a call (value, error,
      panic) as a monad, errors and wrapping, slices with their bounds checks,
      [encoding/binary], [io.ReadFull] on a reader that ends with any error.
      [Strings], [Numbers]: [strings] and [strconv].  [Float]: [float64] arithmetic and
      printing.  [Duration]: [time.ParseDuration].  [Flag]: package [flag].  [Os]: files with handles, names, page cache
      and disk, faults at any call, and [bufio.Writer].
    - [Protocol], [KvMessages], [ClusterMessages], [ClientMessages], [Messages]
      ([src/protocol]): opcodes, registry, message and frame codec; one record with its
      [Encode] and [Decode] per message.  The class [Message] is the interface of the
      source, [MessageCodec] the law that each message implements; framing is proved
      against the class.  [Messages] is the sum of all messages and the registry;
      [MessageTypes] says which values are messages of the source.
    - [WalRecord], [WalWriter], [WalWindow], [Logs] ([src/storage/wal]): the record format
      and replay; appending in the modes [always] and [none], the flusher of mode
      [interval] as a step relation, compaction; [WalWindow] runs the flusher one call at
      a time, with a power failure at any moment.  The class [LogLaws] (in [Store]) is what the store
      relies on; [Logs] proves it for both kinds of log.
    - [Shard], [Eviction], [Store], [Recovery] ([src/storage/store], [src/storage/eviction]):
      shards, the three policies against the class [PolicyLaws], the operations of the
      store, recovery, the expiry sweep and the compaction snapshot.
    - [StoreSpec], [StoreProps]: the plain map that the store implements; the theorems
      on calls that come one after the other.
    - [Concurrency], [ConcurrencyProps]: any number of concurrent [Set], [Get] and
      [Delete] calls and the expiry sweeper on one store.  Each goroutine is a program
      counter that moves from one critical section (or access to the log) to the next;
      the shard locks are part of the state.
    - [Raft], [RaftProps], [RaftLive] ([src/cluster/raft.go]): the handlers as functions;
      the run loop, the vote goroutines and the callbacks as steps of a cluster whose
      messages may be lost, repeated and reordered.
    - [RaftWire]: the timers and the RPC helpers of [raft.go] on the network of [Cli], and
      a cluster of servers that exchange the bytes of these calls.
    - [Replication], [ReplicationProps], [ReplicaSessions] ([src/cluster/leader.go],
      [follower.go], [node.go]): the leader's table and broadcasts, the follower's loop, the
      node; sessions of a follower that comes and goes.  [FollowerLoop]: the loop of
      [RunFollower] while the leader changes.  [FrameStream]: what the two receive loops do
      with any bytes.  [NodeConcurrency]: requests that run at once on a leader, from
      their call on the store (the machine of [Concurrency]) to their broadcast.
    - [Engine], [Server], [ServerProps], [ServerSafe] ([src/engine], [src/server/tcp.go]):
      the handlers against the class [EngineStore] (the interface [engine.Store]), of
      which the node is an instance, a connection as a function from the bytes read to the
      bytes written, and [Start] over the connections that are accepted.
      [ServerConcurrency], [ServerLive]: the server with a goroutine per connection, on the
      machine of [NodeConcurrency]; what a client has read after any interleaving, and that
      its goroutine can always go on.
    - [MemoryBytes], [Config], [Program], [ProgramConcurrent] ([src/utils], [src/config],
      [src/main.go]): from the environment and the log to the node, and the clients it then
      serves, one after the other or at once.
    - [Cli], [CliProps], [CliMain] ([src/cli/cli.go]): the client's view of the cluster,
      the commands, and [main] from its arguments to the text on the terminal.
    - [Bench] ([src/bench/client]), [LoadGen], [LoadRun], [Csv], [LoadMain]
      ([src/bench/loadgen]): the persistent connection against a class [Network]; the
      coordinator and the workers as a machine that interleaves them; a run of it against
      servers; the CSV file; [main] from its arguments to the summary and the row it
      appends.

    ** What the theorems show

    - The program as a whole: from any environment and any complete log the program
      starts ([program_starts]) and answers client sessions, byte for byte, as a plain map
      that begins with the log's contents ([program_serves_sessions]).  With a goroutine per
      connection, and whatever else the node does meanwhile, all clients are answered from
      one atomic map, in order and byte for byte ([program_linearizable]), and none waits
      for ever ([clients_are_answered]).  A session typed
      into the command-line client prints, line by line, what the maps of the leader and
      of the followers answer ([cli_session_answered], and for all networks
      [cli_writes_go_to_leaders], [typed_commands]).  A server survives any bytes on any
      connections that have no frame on which a decoder panics ([server_safe]).
    - Protocol: what is written is read back, for any sequence of messages
      ([stream_roundtrip]); a truncated payload is an error ([truncated_payload_rejected]);
      exactly which byte strings make a decoder panic ([decode_panics_exactly]); whatever
      else is decoded is a well-formed message ([decoded_well_typed]).
    - Log: a complete log replays to its records ([replay_reads_back]); what survives a
      power failure in mode [always]; in mode [interval], a power failure at any moment
      leaves a prefix of the acknowledged records that lacks at most three batches
      ([interval_loss_bounded], reached in [interval_loss_reached]); order, batching and
      [Close] of that mode;
      every outcome of an append and of a compaction, with the cases that lose records.
    - Policies: the LRU list is the order of recency and evicts its end; sampling evicts
      the sampled key that expires first.
    - Store: the invariant (each key in its shard, byte counters exact, the policy's
      bookkeeping in step) under every sequence of operations; the memory bound; the
      refinement of a plain map; recovery after a restart and after a compaction; every
      outcome of [Set], [Get] and [Delete], with the exact condition under which a write
      is refused or evicts ([operation_outcomes]).
    - Concurrency: every interleaving of calls and sweeper is a run of an atomic map in
      which each call takes effect once between its start and its end
      ([store_linearizable]); the invariant and the memory bound hold at each step
      ([concurrent_invariant]); no state is stuck (lemma [calls_can_finish]); a restart finds
      what the map holds if no two writes of one key overlap ([concurrent_recovery]).
    - Election: at most one leader per term in every reachable state of a cluster of any
      size without restarts, and what a restart breaks; terms and votes only move
      forward; from every reachable state there is a way to one leader whom all follow
      ([election_completes]).  A call over the network is its handler called directly
      ([rpc_is_call]), and servers that exchange the frames of an election, with client
      traffic beside it, refine the model ([wire_elections_safe]).
    - Replication: a connected follower follows every acknowledged write
      ([replication_converges]); through any sequence of sessions it agrees with the leader
      except on the keys it missed ([follower_sessions]); when another
      follower is elected it follows that one and agrees with it on all that either leader
      acknowledged ([follower_across_leaders]); on any bytes the receive loops end, and the
      follower applies exactly the records among the frames ([follower_reads_stream]).
      When requests run at once on the leader and no two write one key at the same time,
      a follower that reads all it was sent answers as the leader does
      ([concurrent_replication]).
    - Load generator: no token and no request is lost or counted twice
      (lemma [load_accounted]); the summary and the CSV row state the totals of the workers,
      and the file reads back as the rows appended ([load_main_reports]).
    - Where the program does not do what it means to, an example shows the run
      ([rejected_write_reappears], [concurrent_sets_diverge], [torn_log_refuses_start],
      [compact_can_lose_appends], [restart_breaks_election_safety],
      [stale_drain_drops_new_connection], [join_before_callback_crashes],
      [standalone_cli_fails], [get_misses_present_key], [overlapping_writes_diverge]).

    ** Conventions

    Bytes are integers below 256, strings and byte slices lists of bytes.  A time is its
    number of nanoseconds since 1970, the clock ([now]) is an argument of each operation
    that reads it, and [UnixNano] cuts it to 64 bits.  The order in which Go iterates over
    a map is an argument too, [ord], and may be any permutation at any iteration.
    Fields and functions keep the names of the source, with the type in front where two
    would clash ([Node_Set]).  A part of a Go function that another definition needs (the
    code under a lock, a loop body) is a definition of its own.

    A critical section of a mutex is one step; what happens between critical sections is
    split where the order matters: the append and the memory update of a write, the
    snapshot and the swap of a compaction, the flusher, the callbacks of an election.
    The theorems of [Server], [CliMain] and [LoadRun] serve one request at a time; those
    of [Concurrency] interleave the calls inside the store, those of [NodeConcurrency]
    the requests on a node with their broadcasts, those of [ServerConcurrency] whole
    connections, with the role of the node and the state of its election free to change
    at any step.

    Loops that Go runs until something happens take fuel, and a result [None] is "out
    of fuel".  The fuel is enough: replaying a log takes at most one turn per byte and
    one more; an eviction loop one turn per entry; the receive loops of a follower and of
    the ack reader one turn per byte of the connection and one more; a client connection
    one turn per request, or per byte for arbitrary input; the terminal loop one turn per
    byte typed and one more.  [receive_loops_terminate], [server_safe], [cli_main_ends] and
    the lemmas on [Replay] and the eviction loops prove it; the theorems about these
    functions give results, not conditions on results.  A worker of the load generator
    retries for ever when no leader is found: its fuel bounds the attempts, and one is
    enough in [load_accounted].

    ** What is not modelled

    The operating system beyond [Os] (a rename is durable at once, reading a file does
    not fail half-way), and the Go scheduler other than as interleavings of the steps
    above.  [int64] byte counters of a shard are unbounded integers.  The Unicode tables
    for case conversion and the quoting of strings in messages are parameters.  Writes to
    a client's own connection succeed.  The text of [flag.Usage] and the moment of the stop
    signal of the load generator are given; sleeps and the progress messages of the
    command-line client are left out.  The histogram package of the load generator is a
    class with the calls the code makes of it.  Apart from this, the lines of the sources
    that no definition translates are imports, comments, the mutexes of the two registries
    and the [go] statements that start the goroutines modelled as steps. *)

From stdpp Require Export base tactics list numbers strings gmap countable relations.
From Stdlib Require Export ZArith Lia.


Declare Scope keva_scope.
Delimit Scope keva_scope with keva.
#[global] Open Scope Z_scope.
#[global] Open Scope keva_scope.

Create HintDb keva discriminated.

(** ** Machine integers

    Go's fixed-width integers are integers of [Z] kept in range by explicit
    wrap-around. *)

Definition u8 (z : Z) : Z := z `mod` 2 ^ 8.
Definition u16 (z : Z) : Z := z `mod` 2 ^ 16.
Definition u32 (z : Z) : Z := z `mod` 2 ^ 32.
Definition u64 (z : Z) : Z := z `mod` 2 ^ 64.
Definition i64 (z : Z) : Z := (z + 2 ^ 63) `mod` 2 ^ 64 - 2 ^ 63.

Lemma u16_small z : 0 ≤ z < 65536 → u16 z = z.
Proof. intros. by apply Z.mod_small. Qed.

Lemma u32_small z : 0 ≤ z < 2 ^ 32 → u32 z = z.
Proof. intros. by apply Z.mod_small. Qed.

Lemma u64_small z : 0 ≤ z < 2 ^ 64 → u64 z = z.
Proof. intros. by apply Z.mod_small. Qed.

Lemma u16_range z : 0 ≤ u16 z < 65536.
Proof. by apply Z.mod_pos_bound. Qed.

Lemma u32_range z : 0 ≤ u32 z < 2 ^ 32.
Proof. by apply Z.mod_pos_bound. Qed.

Lemma u64_range z : 0 ≤ u64 z < 2 ^ 64.
Proof. by apply Z.mod_pos_bound. Qed.

Lemma i64_range z : - 2 ^ 63 ≤ i64 z < 2 ^ 63.
Proof.
  unfold i64. pose proof (Z.mod_pos_bound (z + 2 ^ 63) (2 ^ 64)). lia.
Qed.

Lemma i64_small z : - 2 ^ 63 ≤ z < 2 ^ 63 → i64 z = z.
Proof. intros. unfold i64. rewrite Z.mod_small; lia. Qed.

Lemma i64_u64 z : i64 (u64 z) = i64 z.
Proof.
  unfold i64, u64. f_equal. rewrite Zplus_mod_idemp_l. done.
Qed.

(** [int64(uint64(x))] is the identity on an [int64]. *)
Lemma i64_u64_small z : - 2 ^ 63 ≤ z < 2 ^ 63 → i64 (u64 z) = z.
Proof. intros. rewrite i64_u64. by apply i64_small. Qed.

(** ** Lists *)

Section list_filter.
Context {A : Type}.
Implicit Types (P Q : A → Prop).

Lemma filter_ext_in P Q `{∀ x, Decision (P x)} `{∀ x, Decision (Q x)} (l : list A) :
  (∀ x, x ∈ l → P x ↔ Q x) → filter P l = filter Q l.
Proof.
  induction l as [|x l IH]; intros HPQ; [done|]. rewrite !filter_cons.
  rewrite IH by (intros; apply HPQ; by right).
  destruct (HPQ x) as [H1 H2]; [by left|]. repeat case_decide; tauto.
Qed.

Lemma filter_id_in P `{∀ x, Decision (P x)} (l : list A) :
  (∀ x, x ∈ l → P x) → filter P l = l.
Proof.
  induction l as [|x l IH]; intros HP; [done|].
  rewrite filter_cons_True by (apply HP; by left). f_equal. apply IH. intros. apply HP. by right.
Qed.

Lemma filter_none_in P `{∀ x, Decision (P x)} (l : list A) :
  (∀ x, x ∈ l → ¬ P x) → filter P l = [].
Proof.
  induction l as [|x l IH]; intros HP; [done|].
  rewrite filter_cons_False by (apply HP; by left). apply IH. intros. apply HP. by right.
Qed.
End list_filter.

Lemma filter_fmap_comm {A B} (f : A → B) (P : B → Prop)
    `{∀ x, Decision (P x)} (l : list A) :
  filter P (f <$> l) = f <$> filter (λ x, P (f x)) l.
Proof.
  induction l as [|x l IH]; [done|]. rewrite fmap_cons, !filter_cons, IH.
  by repeat case_decide.
Qed.
