(* ===== verification/GoLang.v ===== *)
(** * The part of Go the sources use

    Outcomes of Go code (a value, an error, a run-time panic), error values,
    byte slices with their bounds checks, [encoding/binary]'s big-endian
    accessors and [io.ReadFull].  Everything here is the language or its
    standard library; the program starts in [Protocol]. *)

From S2P Require Import Prelude.

(** ** Strings and byte slices

    A byte is an integer below 256; [[]byte] and [string] are lists of them
    (a Go string is an immutable byte sequence).  [make] gives slices whose
    capacity is their length, so every bounds check below is on the length. *)

Abbreviation gobytes := (list Z).
Abbreviation gostring := (list Z).

Definition len {A} (d : list A) : Z := Z.of_nat (length d).

(** A string literal of the source, as its bytes. *)
Definition str (s : string) : gostring :=
  (λ a, Z.of_nat (Ascii.nat_of_ascii a)) <$> String.list_ascii_of_string s.

Definition byte_ok (b : Z) : Prop := 0 ≤ b < 256.
Abbreviation bytes_ok := (Forall byte_ok).

(** ** Errors

    [errors.New] makes an error identified by its text (the sources' texts are
    distinct); [fmt.Errorf] with one or two [%w] verbs wraps others. *)

Inductive error :=
  | ErrorString (s : gostring)
  | WrapError (pre : gostring) (e : error) (post : gostring)
  | WrapErrors (e1 : error) (sep : gostring) (e2 : error).

#[export] Instance error_eq_dec : EqDecision error.
Proof. solve_decision. Defined.

Fixpoint Error (e : error) : gostring :=
  match e with
  | ErrorString s => s
  | WrapError pre e post => pre ++ Error e ++ post
  | WrapErrors e1 sep e2 => Error e1 ++ sep ++ Error e2
  end.

(** [errors.Is] looks through the tree of wrapped errors. *)
Fixpoint errors_Is (e target : error) : bool :=
  bool_decide (e = target) ||
  match e with
  | ErrorString _ => false
  | WrapError _ e _ => errors_Is e target
  | WrapErrors e1 _ e2 => errors_Is e1 target || errors_Is e2 target
  end.

Definition io_EOF : error := ErrorString (str "EOF").
Definition io_ErrUnexpectedEOF : error := ErrorString (str "unexpected EOF").

(** Two upper-case hexadecimal digits: the verb [%02X] on a byte. *)
Definition hex_digit (d : Z) : Z := if d <? 10 then 48 + d else 55 + d.
Definition hex2 (b : Z) : gostring := [hex_digit (b `div` 16); hex_digit (b `mod` 16)].

(** ** Outcomes *)

Inductive go (A : Type) : Type :=
  | Ok (a : A)
  | Err (e : error)
  | Panic.
Arguments Ok {A} a.
Arguments Err {A} e.
Arguments Panic {A}.

#[export] Instance go_ret : MRet go := @Ok.
#[export] Instance go_bind : MBind go := λ A B f m,
  match m with Ok a => f a | Err e => Err e | Panic => Panic end.

#[export] Instance go_eq_dec `{EqDecision A} : EqDecision (go A).
Proof. solve_decision. Defined.

(** A Go function that returns normally, with a value or with an error. *)
Definition returns {A} (m : go A) : Prop := m ≠ Panic.

(** A [for] loop over a slice whose body may return an error. *)
Fixpoint go_foldl {A B} (f : A → B → go A) (a : A) (l : list B) : go A :=
  match l with
  | [] => Ok a
  | x :: l => a ← f a x; go_foldl f a l
  end.

(** ** Slices *)

Definition make (n : Z) : gobytes := replicate (Z.to_nat n) 0.

(** [d[lo:hi]] *)
Definition slice (d : gobytes) (lo hi : Z) : go gobytes :=
  if (0 <=? lo) && (lo <=? hi) && (hi <=? len d)
  then Ok (take (Z.to_nat (hi - lo)) (drop (Z.to_nat lo) d))
  else Panic.

Notation "d .[ lo : hi ]" := (slice d lo hi)
  (at level 1, lo at level 99, hi at level 99, left associativity, format "d .[ lo  :  hi ]") : keva_scope.

(** [d[lo:]] *)
Definition slice_from (d : gobytes) (lo : Z) : go gobytes := slice d lo (len d).

(** [d[i]] *)
Definition index (d : gobytes) (i : Z) : go Z :=
  if 0 <=? i
  then match d !! Z.to_nat i with Some b => Ok b | None => Panic end
  else Panic.

(** Overwrite the bytes from offset [off] on with [src], as far as [d] goes. *)
Definition overwrite (d : gobytes) (off : nat) (src : gobytes) : gobytes :=
  take off d ++ take (length d - off) src ++ drop (off + length src) d.

(** [copy(d[off:], src)] *)
Definition copy_at (d : gobytes) (off : Z) (src : gobytes) : go gobytes :=
  if (0 <=? off) && (off <=? len d) then Ok (overwrite d (Z.to_nat off) src) else Panic.

(** [d[i] = b] *)
Definition set_index (d : gobytes) (i b : Z) : go gobytes :=
  if (0 <=? i) && (i <? len d) then Ok (overwrite d (Z.to_nat i) [b]) else Panic.

(** [dst := make([]byte, n); copy(dst, src)] *)
Definition make_copy (n : Z) (src : gobytes) : gobytes := overwrite (make n) 0 src.

(** ** encoding/binary, big endian *)

(** The [n] low bytes of [v], most significant first. *)
Fixpoint be (n : nat) (v : Z) : gobytes :=
  match n with
  | O => []
  | S n' => Z.land (Z.shiftr v (8 * Z.of_nat n')) 255 :: be n' v
  end.

Definition unbe (d : gobytes) : Z :=
  foldl (λ acc b, Z.lor (Z.shiftl acc 8) b) 0 d.

(** [binary.BigEndian.PutUintN(d[off:off+n], v)] for [N = 8 * n] *)
Definition put_uint (n : nat) (d : gobytes) (off v : Z) : go gobytes :=
  if (0 <=? off) && (off + Z.of_nat n <=? len d)
  then Ok (overwrite d (Z.to_nat off) (be n v)) else Panic.
Abbreviation PutUint16 := (put_uint 2).
Abbreviation PutUint32 := (put_uint 4).
Abbreviation PutUint64 := (put_uint 8).

(** [binary.BigEndian.UintN(b)]: panics on a slice shorter than [n]. *)
Definition get_uint (n : nat) (b : gobytes) : go Z :=
  if Z.of_nat n <=? len b then Ok (unbe (take n b)) else Panic.
Abbreviation Uint16 := (get_uint 2).
Abbreviation Uint32 := (get_uint 4).
Abbreviation Uint64 := (get_uint 8).

(** ** io.Reader and io.ReadFull

    A reader is the bytes still to come and the error that follows them:
    [io_EOF] for a file or a closed connection, another error for a broken
    one.  [ReadFull(r, buf)] with [n = len(buf)]. *)

Record reader := Reader { rd_data : gobytes; rd_end : error }.

Definition ReadFull (r : reader) (n : Z) : go gobytes * reader :=
  let n := Z.to_nat n in
  if bool_decide (n ≤ length (rd_data r))%nat
  then (Ok (take n (rd_data r)), Reader (drop n (rd_data r)) (rd_end r))
  else (Err (if bool_decide (rd_data r ≠ [] ∧ rd_end r = io_EOF)
             then io_ErrUnexpectedEOF else rd_end r),
        Reader [] (rd_end r)).

(** ** Facts *)

Lemma errors_Is_refl e : errors_Is e e = true.
Proof. destruct e; simpl; by rewrite bool_decide_true. Qed.

Lemma errors_Is_wrap pre e post t :
  errors_Is e t = true → errors_Is (WrapError pre e post) t = true.
Proof. intros H. simpl. by rewrite H, orb_true_r. Qed.

Lemma errors_Is_join e1 sep e2 t :
  errors_Is e1 t = true ∨ errors_Is e2 t = true → errors_Is (WrapErrors e1 sep e2) t = true.
Proof. intros [H|H]; simpl; rewrite H, ?orb_true_r; done. Qed.

#[export] Hint Resolve errors_Is_refl errors_Is_wrap errors_Is_join : keva.

Lemma len_app {A} (a b : list A) : len (a ++ b) = len a + len b.
Proof. unfold len. rewrite length_app. lia. Qed.

Lemma len_nonneg {A} (a : list A) : 0 ≤ len a.
Proof. unfold len. lia. Qed.

Lemma len_nil {A} : len (@nil A) = 0.
Proof. done. Qed.

#[export] Instance len_Permutation {A} : Proper (Permutation ==> eq) (@len A).
Proof. intros l1 l2 Hl. unfold len. by rewrite Hl. Qed.

Lemma len_cons {A} (x : A) l : len (x :: l) = 1 + len l.
Proof. unfold len. simpl length. lia. Qed.

Lemma length_be n v : length (be n v) = n.
Proof. induction n as [|n IH]; simpl; congruence. Qed.

Lemma len_be n v : len (be n v) = Z.of_nat n.
Proof. unfold len. by rewrite length_be. Qed.

Lemma len_make n : 0 ≤ n → len (make n) = n.
Proof. intros. unfold len, make. rewrite length_replicate. lia. Qed.

Lemma to_nat_len {A} (a : list A) : Z.to_nat (len a) = length a.
Proof. unfold len. lia. Qed.

Lemma len_take {A} n (a : list A) : len (take n a) = Z.min (Z.of_nat n) (len a).
Proof. unfold len. rewrite length_take. lia. Qed.

Lemma len_drop {A} n (a : list A) : len (drop n a) = Z.max 0 (len a - Z.of_nat n).
Proof. unfold len. rewrite length_drop. lia. Qed.

Lemma nat_lt_len {A} n (a : list A) : (n < length a)%nat → Z.of_nat n < len a.
Proof. unfold len. lia. Qed.

Create Rewrite HintDb len.
#[export] Hint Rewrite @len_app @len_nil @len_cons @len_take @len_drop len_be : len.

(** Normalise lengths and close the linear goals about offsets. *)
Ltac len_lia :=
  autorewrite with len in *;
  repeat match goal with
         | |- context [len ?l] => assert_fails (is_evar l);
             lazymatch goal with
             | _ : 0 ≤ len l |- _ => fail
             | _ => pose proof (len_nonneg l)
             end
         | _ : context [len ?l] |- _ =>
             lazymatch goal with
             | _ : 0 ≤ len l |- _ => fail
             | _ => pose proof (len_nonneg l)
             end
         end;
  lia.

Lemma length_overwrite d off src :
  (off ≤ length d)%nat → length (overwrite d off src) = length d.
Proof.
  intros. unfold overwrite.
  rewrite !length_app, !length_take, length_drop. lia.
Qed.

(** Writing at the frontier of a partly filled buffer. *)
Lemma overwrite_frontier (done : gobytes) (off : nat) bs (r : nat) :
  off = length done → (length bs ≤ r)%nat →
  overwrite (done ++ replicate r 0) off bs =
  (done ++ bs) ++ replicate (r - length bs) 0.
Proof.
  intros -> Hr. unfold overwrite.
  rewrite take_app_length, <-!app_assoc. f_equal.
  rewrite length_app, length_replicate.
  rewrite take_ge by lia. f_equal.
  rewrite drop_app_ge by lia.
  rewrite drop_replicate. f_equal. lia.
Qed.

Lemma overwrite_full n bs :
  n = len bs → make_copy n bs = bs.
Proof.
  intros ->. unfold make_copy, make. rewrite to_nat_len.
  pose proof (overwrite_frontier [] 0 bs (length bs)) as H. simpl in H.
  rewrite H by lia. replace (length bs - length bs)%nat with 0%nat by lia.
  simpl. by rewrite app_nil_r.
Qed.

Section frontier.
Context (done : gobytes) (r : Z).

Lemma put_uint_frontier n off v :
  off = len done → Z.of_nat n ≤ r →
  put_uint n (done ++ make r) off v = Ok ((done ++ be n v) ++ make (r - Z.of_nat n)).
Proof.
  intros -> Hr. unfold put_uint.
  rewrite len_app, len_make by lia.
  rewrite (proj2 (Z.leb_le 0 _)) by apply len_nonneg.
  rewrite (proj2 (Z.leb_le _ _)) by lia. simpl.
  rewrite to_nat_len. unfold make at 1.
  rewrite overwrite_frontier by (rewrite ?length_be; lia).
  unfold make. rewrite length_be. do 3 f_equal. lia.
Qed.

Lemma set_index_frontier off b :
  off = len done → 1 ≤ r →
  set_index (done ++ make r) off b = Ok ((done ++ [b]) ++ make (r - 1)).
Proof.
  intros -> Hr. unfold set_index.
  rewrite len_app, len_make by lia.
  rewrite (proj2 (Z.leb_le 0 _)) by apply len_nonneg.
  rewrite (proj2 (Z.ltb_lt _ _)) by lia. simpl.
  rewrite to_nat_len. unfold make at 1.
  rewrite overwrite_frontier by (simpl; lia).
  unfold make. simpl length. do 3 f_equal. lia.
Qed.

Lemma copy_at_frontier off src :
  off = len done → len src ≤ r →
  copy_at (done ++ make r) off src = Ok ((done ++ src) ++ make (r - len src)).
Proof.
  intros -> Hr. pose proof (len_nonneg src). unfold copy_at.
  rewrite len_app, len_make by lia.
  rewrite (proj2 (Z.leb_le 0 _)) by apply len_nonneg.
  rewrite (proj2 (Z.leb_le _ _)) by lia. simpl.
  rewrite to_nat_len. unfold make at 1.
  rewrite overwrite_frontier by (unfold len in *; lia).
  unfold make. do 3 f_equal. unfold len in *. lia.
Qed.

(** Leaving a zero byte in place is writing it. *)
Lemma skip_frontier n : 0 ≤ n ≤ r → done ++ make r = (done ++ make n) ++ make (r - n).
Proof.
  intros. unfold make. rewrite <-app_assoc, <-replicate_add. do 2 f_equal. lia.
Qed.

(** [if b { buf[off] = 0x01 }] *)
Lemma flag_frontier (b : bool) off :
  off = len done → 1 ≤ r →
  (if b then set_index (done ++ make r) off 1 else Ok (done ++ make r)) =
  Ok ((done ++ [Z.b2z b]) ++ make (r - 1)).
Proof.
  intros. destruct b; [by apply set_index_frontier|].
  by rewrite (skip_frontier 1) by lia.
Qed.
End frontier.

Lemma b2z_eqb b : (Z.b2z b =? 1) = b.
Proof. by destruct b. Qed.

Lemma make_nil n : n = 0 → make n = [].
Proof. by intros ->. Qed.

Ltac go_bind1 := cbn [mbind mret go_bind go_ret].

(** Run the writes of an encoder that fills a fresh buffer from left to right. *)
Ltac enc_start := match goal with |- context [make ?n] => change (make n) with ([] ++ make n) end.
Ltac enc_step :=
  first [ rewrite put_uint_frontier by len_lia
        | rewrite flag_frontier by len_lia
        | rewrite set_index_frontier by len_lia
        | rewrite copy_at_frontier by len_lia ]; go_bind1.
Ltac enc_end :=
  rewrite make_nil by len_lia;
  repeat rewrite ?app_nil_l, ?app_nil_r, <-?app_assoc; try done.
Ltac enc_run := enc_start; repeat enc_step; enc_end.

(** *** Big-endian numbers *)

Lemma be_unfold n v :
  be (S n) v = (v `div` 2 ^ (8 * Z.of_nat n)) `mod` 256 :: be n v.
Proof.
  simpl be. f_equal. rewrite Z.shiftr_div_pow2 by lia.
  by apply (Z.land_ones _ 8).
Qed.

Lemma be_byte_ok n v : bytes_ok (be n v).
Proof.
  induction n as [|n IH]; [constructor|].
  rewrite be_unfold. constructor; [|done].
  unfold byte_ok. by apply Z.mod_pos_bound.
Qed.

Lemma byte_testbit_high b n : byte_ok b → 8 ≤ n → Z.testbit b n = false.
Proof.
  unfold byte_ok. intros Hb Hn. destruct (decide (b = 0)) as [->|]; [apply Z.bits_0|].
  apply Z.bits_above_log2; [lia|]. apply Z.log2_lt_pow2; [lia|].
  apply Z.lt_le_trans with (2 ^ 8); [lia|]. apply Z.pow_le_mono_r; lia.
Qed.

(** On bytes, shifting in a byte is multiplying and adding. *)
Lemma lor_byte acc b :
  0 ≤ acc → byte_ok b → Z.lor (Z.shiftl acc 8) b = acc * 256 + b.
Proof.
  intros Ha Hb. rewrite Z.shiftl_mul_pow2 by lia. change (2 ^ 8) with 256.
  assert (Z.land (acc * 256) b = 0) as Hland.
  { apply Z.bits_inj'. intros n Hn. rewrite Z.land_spec, Z.bits_0.
    destruct (decide (n < 8)).
    - by rewrite (Z.mul_pow2_bits_low acc 8) by lia.
    - by rewrite (byte_testbit_high b), andb_false_r by (done || lia). }
  by rewrite <-Z.lxor_lor, Z.add_nocarry_lxor by done.
Qed.

Lemma foldl_unbe d : bytes_ok d → ∀ acc, 0 ≤ acc →
  foldl (λ acc b, Z.lor (Z.shiftl acc 8) b) acc d =
  acc * 256 ^ len d + unbe d.
Proof.
  unfold unbe. induction 1 as [|b d Hb Hd IH]; intros acc Hacc.
  { rewrite len_nil. simpl. lia. }
  rewrite len_cons. simpl foldl.
  rewrite (lor_byte acc), (lor_byte 0) by (done || lia).
  unfold byte_ok in Hb. rewrite (IH (acc * 256 + b)), (IH (0 * 256 + b)) by lia.
  rewrite Z.pow_add_r by (lia || apply len_nonneg). lia.
Qed.

Lemma unbe_cons b d : byte_ok b → bytes_ok d → unbe (b :: d) = b * 256 ^ len d + unbe d.
Proof.
  intros Hb Hd. unfold unbe at 1. cbn [foldl]. rewrite (lor_byte 0) by (done || lia).
  unfold byte_ok in Hb. rewrite foldl_unbe by (done || lia). lia.
Qed.

Lemma unbe_range d : bytes_ok d → 0 ≤ unbe d < 256 ^ len d.
Proof.
  induction 1 as [|b d Hb Hd IH]; [done|].
  rewrite unbe_cons by done. unfold byte_ok in Hb.
  rewrite len_cons, Z.pow_add_r by (lia || apply len_nonneg). nia.
Qed.

(** Reading back what [PutUintN] wrote: the value, cut to the width. *)
Lemma unbe_be n v : unbe (be n v) = v `mod` 256 ^ Z.of_nat n.
Proof.
  induction n as [|n IH]; [by rewrite Z.mod_1_r|].
  rewrite be_unfold, unbe_cons, IH, len_be.
  - replace (Z.of_nat (S n)) with (Z.of_nat n + 1) by lia.
    rewrite Z.pow_add_r by lia. change (256 ^ 1) with 256.
    assert (2 ^ (8 * Z.of_nat n) = 256 ^ Z.of_nat n) as ->
      by (rewrite Z.pow_mul_r by lia; done).
    rewrite Z.rem_mul_r by lia. lia.
  - unfold byte_ok. by apply Z.mod_pos_bound.
  - apply be_byte_ok.
Qed.

Lemma get_uint_be n v : 0 ≤ v < 256 ^ Z.of_nat n → get_uint n (be n v) = Ok v.
Proof.
  intros Hv. unfold get_uint. rewrite len_be, (proj2 (Z.leb_le _ _)) by lia.
  rewrite take_ge by (rewrite length_be; lia).
  by rewrite unbe_be, Z.mod_small.
Qed.

Lemma get_uint_mod n v : get_uint n (be n v) = Ok (v `mod` 256 ^ Z.of_nat n).
Proof.
  unfold get_uint. rewrite len_be, (proj2 (Z.leb_le _ _)) by lia.
  rewrite take_ge by (rewrite length_be; lia). by rewrite unbe_be.
Qed.

(** *** Slicing a concatenation *)

Lemma slice_app (a b c : gobytes) lo hi :
  lo = len a → hi = len a + len b → slice (a ++ b ++ c) lo hi = Ok b.
Proof.
  intros -> ->. unfold slice. pose proof (len_nonneg a). pose proof (len_nonneg b).
  pose proof (len_nonneg c). rewrite !len_app.
  rewrite !(proj2 (Z.leb_le _ _)) by lia. simpl.
  replace (len a + len b - len a) with (len b) by lia.
  by rewrite !to_nat_len, drop_app_length, take_app_length.
Qed.

Lemma slice_bounds d lo hi :
  0 ≤ lo → lo ≤ hi → hi ≤ len d →
  slice d lo hi = Ok (take (Z.to_nat (hi - lo)) (drop (Z.to_nat lo) d)).
Proof. intros. unfold slice. by rewrite !(proj2 (Z.leb_le _ _)) by lia. Qed.

Lemma slice_panics d lo hi : hi < lo → slice d lo hi = Panic.
Proof.
  intros. unfold slice. destruct (lo <=? hi) eqn:E; [lia|].
  by rewrite andb_false_r.
Qed.

Lemma index_app (a c : gobytes) b i : i = len a → index (a ++ b :: c) i = Ok b.
Proof.
  intros ->. unfold index. rewrite (proj2 (Z.leb_le _ _)) by apply len_nonneg.
  rewrite to_nat_len, lookup_app_r by lia. by rewrite Nat.sub_diag.
Qed.

Lemma index_bounds d i : 0 ≤ i < len d → ∃ b, index d i = Ok b ∧ d !! Z.to_nat i = Some b.
Proof.
  intros Hi. unfold index. rewrite (proj2 (Z.leb_le _ _)) by lia.
  destruct (lookup_lt_is_Some_2 d (Z.to_nat i)) as [b Hb]; [unfold len in Hi; lia|].
  exists b. by rewrite Hb.
Qed.

(** Stepwise forms, for a buffer written as a concatenation of fields. *)

Lemma slice_skip (a d : gobytes) lo hi :
  len a ≤ lo → slice (a ++ d) lo hi = slice d (lo - len a) (hi - len a).
Proof.
  intros Hlo. pose proof (len_nonneg a). unfold slice. rewrite len_app.
  replace (0 <=? lo - len a) with (0 <=? lo) by lia.
  replace (lo - len a <=? hi - len a) with (lo <=? hi) by lia.
  replace (hi - len a <=? len d) with (hi <=? len a + len d) by lia.
  destruct (_ && _); [|done]. f_equal.
  rewrite drop_app_ge by (unfold len in *; lia).
  f_equal; [|f_equal]; unfold len in *; lia.
Qed.

Lemma slice_here (b c : gobytes) lo hi :
  lo = 0 → hi = len b → slice (b ++ c) lo hi = Ok b.
Proof. intros -> ->. by apply (slice_app [] b c). Qed.

Lemma slice_all (b : gobytes) lo hi : lo = 0 → hi = len b → slice b lo hi = Ok b.
Proof. intros. rewrite <-(app_nil_r b) at 1. by apply slice_here. Qed.

Lemma index_skip (a d : gobytes) i : len a ≤ i → index (a ++ d) i = index d (i - len a).
Proof.
  intros Hi. pose proof (len_nonneg a). unfold index.
  replace (0 <=? i - len a) with (0 <=? i) by lia. destruct (0 <=? i) eqn:E; [|done].
  rewrite lookup_app_r by (unfold len in *; lia).
  replace (Z.to_nat i - length a)%nat with (Z.to_nat (i - len a)); [done|].
  unfold len in *. lia.
Qed.

Lemma slice_skip1 b (d : gobytes) lo hi :
  1 ≤ lo → slice (b :: d) lo hi = slice d (lo - 1) (hi - 1).
Proof. intros. by apply (slice_skip [b]). Qed.

Lemma index_skip1 b (d : gobytes) i : 1 ≤ i → index (b :: d) i = index d (i - 1).
Proof. intros. by apply (index_skip [b]). Qed.

Lemma index_here b (c : gobytes) i : i = 0 → index (b :: c) i = Ok b.
Proof. by intros ->. Qed.

Lemma get_uint2 v : 0 ≤ v < 65536 → Uint16 (be 2 v) = Ok v.
Proof. apply (get_uint_be 2). Qed.

Lemma get_uint4 v : 0 ≤ v < 2 ^ 32 → Uint32 (be 4 v) = Ok v.
Proof. apply (get_uint_be 4). Qed.

Lemma get_uint8 v : 0 ≤ v < 2 ^ 64 → Uint64 (be 8 v) = Ok v.
Proof. apply (get_uint_be 8). Qed.

Lemma ltb_false a b : b ≤ a → (a <? b) = false.
Proof. lia. Qed.

Lemma ltb_true a b : a < b → (a <? b) = true.
Proof. lia. Qed.

(** Decide the bounds tests, slices and reads of a buffer that is written as a
    concatenation of fields; [go_run] executes such code symbolically. *)
Ltac go_step :=
  match goal with
  | |- context [?a <? ?b] =>
      first [ rewrite (ltb_false a b) by len_lia | rewrite (ltb_true a b) by len_lia ]
  | |- context [slice _ _ _] =>
      first [ rewrite slice_here by len_lia | rewrite slice_all by len_lia
            | rewrite slice_skip by len_lia | rewrite slice_skip1 by len_lia ]
  | |- context [index _ _] =>
      first [ rewrite index_here by len_lia | rewrite index_skip by len_lia
            | rewrite index_skip1 by len_lia ]
  | |- context [get_uint 2 (be 2 _)] => rewrite get_uint2 by len_lia
  | |- context [get_uint 4 (be 4 _)] => rewrite get_uint4 by len_lia
  | |- context [get_uint 8 (be 8 _)] => rewrite get_uint8 by len_lia
  | |- context [u16 ?z] => rewrite (u16_small z) by len_lia
  | |- context [u32 ?z] => rewrite (u32_small z) by len_lia
  | |- context [make_copy _ _] => rewrite overwrite_full by len_lia
  | |- context [Z.b2z _ =? 1] => rewrite b2z_eqb
  end; go_bind1.
Ltac go_run := cbn [app mbind mret go_bind go_ret]; repeat go_step.

(** Split a prefix of a concatenation of fields at the end of its first field. *)
Lemma take_past (a b : gobytes) n :
  len a ≤ Z.of_nat n → take n (a ++ b) = a ++ take (n - Z.to_nat (len a)) b.
Proof. intros. rewrite to_nat_len. apply take_app_ge. unfold len in *. lia. Qed.
Lemma take_past1 b (d : gobytes) n : 1 ≤ Z.of_nat n → take n (b :: d) = b :: take (n - 1) d.
Proof. intros. by apply (take_past [b]). Qed.
Ltac take_run :=
  repeat (first [ rewrite take_past by len_lia | rewrite take_past1 by len_lia ];
          rewrite ?len_be).

(** *** Reading a field of arbitrary input *)

(** The big-endian number in the [n] bytes at offset [lo]. *)
Definition field (n : nat) (d : gobytes) (lo : Z) : Z := unbe (take n (drop (Z.to_nat lo) d)).

Lemma read_field n d lo hi :
  0 ≤ lo → hi = lo + Z.of_nat n → hi ≤ len d →
  (s ← slice d lo hi; get_uint n s) = Ok (field n d lo).
Proof.
  intros Hlo -> Hhi. rewrite slice_bounds by lia. go_bind1.
  replace (Z.to_nat (lo + Z.of_nat n - lo)) with n by lia.
  unfold get_uint, field.
  assert (len (take n (drop (Z.to_nat lo) d)) = Z.of_nat n) as -> by len_lia.
  rewrite Z.leb_refl, take_take, Nat.min_id. done.
Qed.

(** The same, in the middle of a computation. *)
Lemma read_field_bind {A} n d lo hi (k : Z → go A) :
  0 ≤ lo → hi = lo + Z.of_nat n → hi ≤ len d →
  (s ← slice d lo hi; v ← get_uint n s; k v) = k (field n d lo).
Proof.
  intros H1 H2 H3. pose proof (read_field n d lo hi H1 H2 H3) as E.
  destruct (slice d lo hi); cbn [mbind go_bind] in *; [by rewrite E|done..].
Qed.

Lemma field_range n d lo : bytes_ok d → 0 ≤ field n d lo < 256 ^ Z.of_nat n.
Proof.
  intros Hd. unfold field.
  assert (bytes_ok (take n (drop (Z.to_nat lo) d))) as Hok by (by apply Forall_take, Forall_drop).
  pose proof (unbe_range _ Hok) as Hr. autorewrite with len in Hr.
  pose proof (Z.pow_le_mono_r 256 (len (take n (drop (Z.to_nat lo) d))) (Z.of_nat n)).
  len_lia.
Qed.

Lemma slice_panic_iff d lo hi : slice d lo hi = Panic ↔ lo < 0 ∨ hi < lo ∨ len d < hi.
Proof.
  unfold slice. destruct (_ && _) eqn:E; split; try done; lia.
Qed.

Lemma slice_ok d lo hi : 0 ≤ lo ≤ hi → hi ≤ len d → ∃ s, slice d lo hi = Ok s ∧ len s = hi - lo.
Proof.
  intros. rewrite slice_bounds by lia. eexists. split; [done|]. len_lia.
Qed.

(** What a slice or an index that succeeded says. *)
Lemma slice_inv d lo hi s : slice d lo hi = Ok s →
  len s = hi - lo ∧ 0 ≤ lo ≤ hi ∧ hi ≤ len d ∧ (bytes_ok d → bytes_ok s).
Proof.
  unfold slice. destruct (_ && _) eqn:E; [|done]. intros [= <-]. split_and!; try len_lia.
  intros. by apply Forall_take, Forall_drop.
Qed.

Lemma index_inv d i b : index d i = Ok b → bytes_ok d → byte_ok b.
Proof.
  unfold index. destruct (0 <=? i); [|done]. destruct (d !! Z.to_nat i) eqn:E; [|done].
  intros [= <-] Hd. by eapply Forall_lookup_1 in Hd.
Qed.

(** Follow a decoder on arbitrary bytes: every access is behind a length test.
    [Hok] says the input is made of bytes. *)
Ltac no_panic_step Hok :=
  match goal with
  | |- context [if ?a <? ?b then _ else _] => destruct (a <? b) eqn:?; [done|]
  | |- context [slice ?d ?lo ?hi ≫= (λ s, get_uint ?n s ≫= _)] =>
      rewrite (read_field_bind n d lo hi) by lia; pose proof (field_range n d lo Hok)
  | |- context [slice ?d ?lo ?hi ≫= ?k] =>
      lazymatch k with (λ s, get_uint _ s ≫= _) => fail | _ => idtac end;
      destruct (slice_ok d lo hi) as (? & -> & _); [lia..|]; go_bind1
  | |- context [index ?d ?i] => destruct (index_bounds d i) as (? & -> & _); [lia|]; go_bind1
  end.
Ltac no_panic Hok := repeat no_panic_step Hok; try done.

(** *** io.ReadFull *)

Lemma ReadFull_app (a b : gobytes) e n :
  n = len a → ReadFull (Reader (a ++ b) e) n = (Ok a, Reader b e).
Proof.
  intros ->. unfold ReadFull. rewrite to_nat_len. simpl.
  rewrite bool_decide_true by (rewrite length_app; lia).
  by rewrite take_app_length, drop_app_length.
Qed.

Lemma ReadFull_eof n : 0 < n → ReadFull (Reader [] io_EOF) n = (Err io_EOF, Reader [] io_EOF).
Proof.
  intros. unfold ReadFull. rewrite bool_decide_false by (simpl; lia).
  rewrite bool_decide_false by (intros [Hne _]; by apply Hne). done.
Qed.

Lemma ReadFull_short (a : gobytes) n :
  a ≠ [] → len a < n →
  ReadFull (Reader a io_EOF) n = (Err io_ErrUnexpectedEOF, Reader [] io_EOF).
Proof.
  intros Ha Hn. unfold ReadFull. rewrite bool_decide_false by (unfold len in Hn; simpl; lia).
  by rewrite bool_decide_true.
Qed.

Lemma ReadFull_ok rd n d rd' :
  ReadFull rd n = (Ok d, rd') →
  d = take (Z.to_nat n) (rd_data rd) ∧ rd' = Reader (drop (Z.to_nat n) (rd_data rd)) (rd_end rd) ∧
  (Z.to_nat n ≤ length (rd_data rd))%nat.
Proof.
  unfold ReadFull. case_bool_decide; intros E; simplify_eq. done.
Qed.

Lemma get_uint_ok n b : Z.of_nat n ≤ len b → ∃ v, get_uint n b = Ok v.
Proof. intros. unfold get_uint. rewrite (proj2 (Z.leb_le _ _)) by done. eauto. Qed.

Lemma get_uint_nonneg n b v : get_uint n b = Ok v → bytes_ok b → 0 ≤ v.
Proof.
  unfold get_uint. destruct (_ <=? _); [|done]. intros [= <-] Hb.
  apply unbe_range. by apply Forall_take.
Qed.

Lemma ReadFull_err rd n e rd' :
  ReadFull rd n = (Err e, rd') → e = io_ErrUnexpectedEOF ∨ e = rd_end rd.
Proof.
  unfold ReadFull. case_bool_decide; intros E; simplify_eq. case_bool_decide; auto.
Qed.

Lemma ReadFull_no_panic rd n : (ReadFull rd n).1 ≠ Panic.
Proof.
  unfold ReadFull. by case_bool_decide.
Qed.

(** From here on these operations are used through their lemmas. *)
#[global] Opaque be unbe make make_copy slice index put_uint get_uint.
#[global] Opaque copy_at set_index overwrite str hex2 ReadFull.
#[global] Arguments len : simpl never.
#[global] Arguments slice_from : simpl never.
#[global] Arguments u16 : simpl never.
#[global] Arguments u32 : simpl never.
#[global] Arguments u64 : simpl never.
#[global] Arguments i64 : simpl never.
