(* ===== verification/Strings.v ===== *)
(** * Go's [strings] and [strconv], as far as the sources use them

    Strings are byte lists.  White space is matched by its UTF-8 encodings: their
    first bytes are never continuation bytes, so matching at every byte is the same
    as decoding runes first.  Letter case is written out for ASCII strings, as the
    library's fast path does; on other strings the Unicode tables are a parameter,
    and so is the quoting of error texts. *)

From S2P Require Import Prelude GoLang.

Class Unicode := {
  ToUpper_unicode : gostring → gostring;
  ToLower_unicode : gostring → gostring;
  Quote : gostring → gostring;
}.

(** A choice of the parameters to compute with. *)
Definition ascii_text : Unicode :=
  {| ToUpper_unicode s := s; ToLower_unicode s := s; Quote s := [34] ++ s ++ [34] |}.

(** ** strings *)

Definition is_ascii (s : gostring) : bool := forallb (λ c, c <? 128) s.
Definition upper_byte (c : Z) : Z := if (97 <=? c) && (c <=? 122) then c - 32 else c.
Definition lower_byte (c : Z) : Z := if (65 <=? c) && (c <=? 90) then c + 32 else c.

Definition ToUpper {U : Unicode} (s : gostring) : gostring :=
  if is_ascii s then upper_byte <$> s else ToUpper_unicode s.
Definition ToLower {U : Unicode} (s : gostring) : gostring :=
  if is_ascii s then lower_byte <$> s else ToLower_unicode s.

(** [unicode.IsSpace]: the ASCII ones, U+0085, U+00A0, U+1680, U+2000 to U+200A,
    U+2028, U+2029, U+202F, U+205F, U+3000. *)
Definition ascii_spaces : list Z := [9; 10; 11; 12; 13; 32].
Definition spaces : list gostring :=
  ((λ c, [c]) <$> ascii_spaces) ++
  [[0xC2; 0x85]; [0xC2; 0xA0]; [0xE1; 0x9A; 0x80]] ++
  ((λ i, [0xE2; 0x80; 0x80 + Z.of_nat i]) <$> seq 0 11) ++
  [[0xE2; 0x80; 0xA8]; [0xE2; 0x80; 0xA9]; [0xE2; 0x80; 0xAF]; [0xE2; 0x81; 0x9F]; [0xE3; 0x80; 0x80]].

Fixpoint strip_prefix (p s : gostring) : option gostring :=
  match p, s with
  | [], _ => Some s
  | a :: p, b :: s => if a =? b then strip_prefix p s else None
  | _ :: _, [] => None
  end.

Fixpoint strip_any (ps : list gostring) (s : gostring) : option gostring :=
  match ps with
  | [] => None
  | p :: ps => match strip_prefix p s with Some s => Some s | None => strip_any ps s end
  end.

Fixpoint strip_all (fuel : nat) (ps : list gostring) (s : gostring) : gostring :=
  match fuel with
  | O => s
  | S fuel => match strip_any ps s with Some s => strip_all fuel ps s | None => s end
  end.

Definition TrimLeftSpace (s : gostring) : gostring := strip_all (length s) spaces s.
Definition TrimRightSpace (s : gostring) : gostring :=
  reverse (strip_all (length s) (reverse <$> spaces) (reverse s)).
Definition TrimSpace (s : gostring) : gostring := TrimRightSpace (TrimLeftSpace s).

Definition HasSuffix (s suffix : gostring) : bool :=
  match strip_prefix (reverse suffix) (reverse s) with Some _ => true | None => false end.

(** [strings.Split] with a separator of one byte. *)
Fixpoint Split (s : gostring) (sep : Z) : list gostring :=
  match s with
  | [] => [[]]
  | c :: s =>
      if c =? sep then [] :: Split s sep
      else match Split s sep with
           | f :: fs => (c :: f) :: fs
           | [] => [[c]]
           end
  end.

(** [strings.Fields]: [cur] is the field being read. *)
Fixpoint fields_loop (fuel : nat) (s cur : gostring) : list gostring :=
  let emit l := match cur with [] => l | _ => cur :: l end in
  match fuel, s with
  | O, _ | _, [] => emit []
  | S fuel, c :: s' =>
      match strip_any spaces s with
      | Some rest => emit (fields_loop fuel rest [])
      | None => fields_loop fuel s' (cur ++ [c])
      end
  end.
Definition Fields (s : gostring) : list gostring := fields_loop (length s) s [].

Fixpoint Join (l : list gostring) (sep : gostring) : gostring :=
  match l with
  | [] => []
  | [x] => x
  | x :: l => x ++ sep ++ Join l sep
  end.

(** ** strconv *)

Definition ErrSyntax : error := ErrorString (str "invalid syntax").
Definition ErrRange : error := ErrorString (str "value out of range").

Definition NumError {U : Unicode} (fn num : gostring) (e : error) : error :=
  WrapError (str "strconv." ++ fn ++ str ": parsing " ++ Quote num ++ str ": ") e [].

(** The loop of [ParseUint] in base 10: [cutoff] is the smallest number that
    overflows a [uint64] when multiplied by ten. *)
Definition cutoff : Z := (2 ^ 64 - 1) `div` 10 + 1.
Fixpoint parse_digits (maxVal n : Z) (s : gostring) : go Z :=
  match s with
  | [] => Ok n
  | c :: s =>
      if negb ((48 <=? c) && (c <=? 57)) then Err ErrSyntax else
      if cutoff <=? n then Err ErrRange else
      let n1 := n * 10 + (c - 48) in
      if maxVal <? n1 then Err ErrRange else parse_digits maxVal n1 s
  end.

Definition ParseUint_raw (bitSize : Z) (s : gostring) : go Z :=
  match s with [] => Err ErrSyntax | _ => parse_digits (2 ^ bitSize - 1) 0 s end.

Definition num_result {U : Unicode} (fn s : gostring) (r : go Z) : go Z :=
  match r with Err e => Err (NumError fn s e) | r => r end.

Definition ParseUint {U : Unicode} (s : gostring) (bitSize : Z) : go Z :=
  num_result (str "ParseUint") s (ParseUint_raw bitSize s).

(** [ParseInt(s, 10, 64)]: after a sign, an unsigned number; one that is out of
    range for a [uint64] is also out of range for an [int64]. *)
Definition ParseInt_raw (s : gostring) : go Z :=
  let '(neg, digits) := match s with
                        | 43 :: s' => (false, s')
                        | 45 :: s' => (true, s')
                        | _ => (false, s)
                        end in
  un ← ParseUint_raw 64 digits;
  if neg then if 2 ^ 63 <? un then Err ErrRange else Ok (- un)
  else if 2 ^ 63 <=? un then Err ErrRange else Ok un.

Definition ParseInt {U : Unicode} (s : gostring) : go Z := num_result (str "ParseInt") s (ParseInt_raw s).
(** [int] has 64 bits; the fast path of [Atoi] gives the same answers. *)
Definition Atoi {U : Unicode} (s : gostring) : go Z := num_result (str "Atoi") s (ParseInt_raw s).

(** The verb [%d]. *)
Fixpoint digits_of (fuel : nat) (n : Z) (acc : gostring) : gostring :=
  match fuel with
  | O => acc
  | S fuel =>
      let acc := (48 + n `mod` 10) :: acc in
      if n <? 10 then acc else digits_of fuel (n `div` 10) acc
  end.
(** Twenty digits are enough for 64 bits. *)
Definition Itoa (n : Z) : gostring := if n <? 0 then 45 :: digits_of 20 (- n) [] else digits_of 20 n [].

(** ** White space *)

(** The bytes between space and the end of ASCII: neither white space nor a part of
    its encodings. *)
Definition solid (c : Z) : bool := (33 <=? c) && (c <? 128).

Definition starts_spaced (ps : list gostring) : bool :=
  forallb (λ p, match p with [] => false | c :: _ => negb (solid c) end) ps.

Lemma strip_any_solid ps c s : starts_spaced ps = true → solid c = true → strip_any ps (c :: s) = None.
Proof.
  intros Hps Hc. induction ps as [|p ps IH]; [done|].
  apply andb_true_iff in Hps as [Hp Hps]. destruct p as [|a p]; [done|]. simpl.
  destruct (Z.eqb_spec a c) as [->|]; [by rewrite Hc in Hp|]. by apply IH.
Qed.

Lemma strip_all_solid fuel ps c s :
  starts_spaced ps = true → solid c = true → strip_all fuel ps (c :: s) = c :: s.
Proof. intros. destruct fuel; [done|]. cbn [strip_all]. by rewrite strip_any_solid. Qed.

Lemma strip_all_spaces ps a fuel s :
  (∀ c s, c ∈ ascii_spaces → strip_any ps (c :: s) = Some s) →
  Forall (λ c, c ∈ ascii_spaces) a → (length a ≤ fuel)%nat →
  strip_all fuel ps (a ++ s) = strip_all (fuel - length a) ps s.
Proof.
  intros Hps Ha. revert fuel. induction Ha as [|c a Hc Ha IH]; intros fuel Hf; simpl in *.
  - by rewrite Nat.sub_0_r.
  - destruct fuel as [|fuel]; [lia|]. cbn [strip_all]. rewrite Hps by done. apply IH. lia.
Qed.

Lemma strip_space c s : c ∈ ascii_spaces → strip_any spaces (c :: s) = Some s.
Proof. unfold ascii_spaces. rewrite !elem_of_cons, elem_of_nil. intros H. naive_solver. Qed.

Lemma strip_space_back c s : c ∈ ascii_spaces → strip_any (reverse <$> spaces) (c :: s) = Some s.
Proof. unfold ascii_spaces. rewrite !elem_of_cons, elem_of_nil. intros H. naive_solver. Qed.

(** Trimming leaves what is between the outermost solid bytes. *)
Definition solid_ends (s : gostring) : Prop :=
  (∃ c s', s = c :: s' ∧ solid c = true) ∧ (∃ c s', s = s' ++ [c] ∧ solid c = true).

Lemma TrimSpace_solid a s b :
  Forall (λ c, c ∈ ascii_spaces) a → Forall (λ c, c ∈ ascii_spaces) b → solid_ends s →
  TrimSpace (a ++ s ++ b) = s.
Proof.
  intros Ha Hb [(c & s1 & Es & Hc) (d & s2 & Es' & Hd)].
  assert (TrimLeftSpace (a ++ s ++ b) = s ++ b) as E1.
  { unfold TrimLeftSpace. rewrite strip_all_spaces; [|apply strip_space|done|rewrite length_app; lia].
    rewrite Es. by apply strip_all_solid. }
  unfold TrimSpace. rewrite E1. unfold TrimRightSpace. rewrite reverse_app.
  rewrite strip_all_spaces; [|apply strip_space_back|by apply Forall_reverse|rewrite length_reverse, length_app; lia].
  rewrite Es', reverse_app. cbn [reverse rev_append]. cbn [app].
  rewrite strip_all_solid by done. rewrite reverse_cons, reverse_involutive. done.
Qed.

Lemma TrimSpace_id s : solid_ends s → TrimSpace s = s.
Proof. intros Hs. rewrite <-(app_nil_r s) at 1. by apply (TrimSpace_solid [] s []). Qed.

(** ** Decimal numbers *)

Definition digit (c : Z) : Prop := 48 ≤ c ≤ 57.
Definition value_from (n : Z) (s : gostring) : Z := foldl (λ n c, n * 10 + (c - 48)) n s.

Lemma value_from_mono n s : 0 ≤ n → Forall digit s → n ≤ value_from n s.
Proof.
  intros Hn Hs. revert n Hn. induction Hs as [|c s Hc Hs IH]; intros n Hn; cbn; [lia|].
  unfold digit in Hc. specialize (IH (n * 10 + (c - 48))). unfold value_from in *. lia.
Qed.

Lemma parse_digits_value maxVal n s :
  0 ≤ n → Forall digit s → value_from n s ≤ maxVal → maxVal < 2 ^ 64 →
  parse_digits maxVal n s = Ok (value_from n s).
Proof.
  intros Hn Hs. revert n Hn. induction Hs as [|c s Hc Hs IH]; intros n Hn Hv Hm; [done|].
  unfold digit in Hc. cbn [parse_digits]. cbn in Hv.
  pose proof (value_from_mono (n * 10 + (c - 48)) s ltac:(lia) Hs) as Hmono. unfold value_from in Hmono.
  rewrite (proj2 (Z.leb_le 48 c)), (proj2 (Z.leb_le c 57)) by lia. cbn [andb negb].
  assert (n < cutoff) by (unfold cutoff; change ((2 ^ 64 - 1) `div` 10) with 1844674407370955161; lia).
  rewrite (proj2 (Z.leb_gt cutoff n)) by done.
  rewrite ltb_false by lia.
  apply IH; [lia|done|done].
Qed.

Lemma digits_of_spec fuel n acc :
  0 ≤ n < 10 ^ Z.of_nat fuel → (0 < fuel)%nat →
  ∃ ds, digits_of fuel n acc = ds ++ acc ∧ ds ≠ [] ∧ Forall digit ds ∧
    ∀ m, value_from m ds = m * 10 ^ len ds + n.
Proof.
  revert n acc. induction fuel as [|fuel IH]; intros n acc Hn Hf; [lia|]. cbn [digits_of].
  pose proof (Z.mod_pos_bound n 10 ltac:(lia)).
  destruct (Z.ltb_spec n 10).
  - exists [48 + n `mod` 10]. rewrite Z.mod_small by lia. split_and!; [done|done| |].
    + apply Forall_singleton. unfold digit. lia.
    + intros m. unfold value_from. cbn [foldl]. rewrite len_cons, len_nil. change (10 ^ (1 + 0)) with 10. lia.
  - rewrite Nat2Z.inj_succ, Z.pow_succ_r in Hn by lia.
    assert (0 ≤ n `div` 10 < 10 ^ Z.of_nat fuel) as Hd.
    { split; [apply Z.div_pos; lia|apply Z.div_lt_upper_bound; lia]. }
    assert (0 < fuel)%nat by (destruct fuel; [cbn in Hd; pose proof (Z.div_le_mono 10 n 10); lia|lia]).
    destruct (IH (n `div` 10) ((48 + n `mod` 10) :: acc) Hd) as (ds & -> & Hne & Hds & Hv); [done|].
    exists (ds ++ [48 + n `mod` 10]). split_and!.
    + by rewrite <-app_assoc.
    + by destruct ds.
    + apply Forall_app. split; [done|]. apply Forall_singleton. unfold digit. lia.
    + intros m. unfold value_from. rewrite foldl_app. fold (value_from m ds). cbn [foldl].
      rewrite Hv, len_app, len_cons, len_nil, Z.pow_add_r by (pose proof (len_nonneg ds); lia).
      change (10 ^ (1 + 0)) with 10. pose proof (Z.div_mod n 10). nia.
Qed.

Lemma Itoa_digits n : 0 ≤ n < 2 ^ 64 → Itoa n ≠ [] ∧ Forall digit (Itoa n) ∧ value_from 0 (Itoa n) = n.
Proof.
  intros Hn. unfold Itoa. rewrite ltb_false by lia.
  destruct (digits_of_spec 20 n []) as (ds & -> & Hne & Hds & Hv).
  { split; [lia|]. eapply Z.lt_trans; [apply Hn|]. by vm_compute. }
  { lia. }
  rewrite app_nil_r. split_and!; [done|done|]. rewrite Hv. lia.
Qed.

Lemma ParseInt_Itoa {U : Unicode} n : 0 ≤ n < 2 ^ 63 → ParseInt (Itoa n) = Ok n.
Proof.
  intros Hn. destruct (Itoa_digits n) as (Hne & Hd & Hv); [lia|].
  unfold ParseInt, ParseInt_raw. destruct (Itoa n) as [|c s] eqn:E; [done|].
  assert (digit c) as Hc by (by apply Forall_cons in Hd as [? _]). unfold digit in Hc.
  assert ((match c with 43 => (false, s) | 45 => (true, s) | _ => (false, c :: s) end) = (false, c :: s)) as ->.
  { destruct c as [|c|c]; [done| |done]. do 6 (destruct c as [c|c|]; try done); lia. }
  cbn [ParseUint_raw]. rewrite parse_digits_value by (done || lia). rewrite Hv.
  cbn [mbind go_bind]. by rewrite (proj2 (Z.leb_gt (2 ^ 63) n)) by lia.
Qed.

Lemma ParseInt_range {U : Unicode} s n : ParseInt s = Ok n → - 2 ^ 63 ≤ n < 2 ^ 63.
Proof.
  unfold ParseInt, ParseInt_raw. destruct (match s with 43 :: _ => _ | _ => _ end) as [neg ds].
  assert (∀ m, ParseUint_raw 64 ds = Ok m → 0 ≤ m) as Hpos.
  { assert (∀ l k m, 0 ≤ k → parse_digits (2 ^ 64 - 1) k l = Ok m → 0 ≤ m) as Hp.
    { induction l as [|c l IH]; intros k m Hk; cbn [parse_digits]; [by intros [= <-]|].
      destruct (_ && _) eqn:Ec; [|done]. apply andb_true_iff in Ec as [?%Z.leb_le ?%Z.leb_le].
      cbn [negb]. repeat case_match; try done. apply IH. lia. }
    intros m. destruct ds; [done|]. cbn [ParseUint_raw]. by apply Hp. }
  destruct (ParseUint_raw 64 ds) as [m|e|]; cbn [mbind go_bind]; [|done..].
  specialize (Hpos m eq_refl). destruct neg; case_match eqn:Em; cbn; intros [= <-]; lia.
Qed.
