(* ===== verification/Float.v ===== *)
(** * Numbers of type [float64], as the load generator uses them

    IEEE 754 binary64 by the standard library's specification of floating-point numbers
    (SpecFloat: 53 bits of precision, exponents below 1024, rounding to nearest, ties to
    even): conversions, arithmetic, [time.Duration.Seconds] and the verb [%.nf]. *)

From Stdlib Require Import SpecFloat.
From S2P Require Import Prelude GoLang Strings.

Abbreviation float64 := spec_float.

Definition fadd : float64 → float64 → float64 := SFadd 53 1024.
Definition fmul : float64 → float64 → float64 := SFmul 53 1024.
Definition fdiv : float64 → float64 → float64 := SFdiv 53 1024.

(** [float64(n)] *)
Definition of_int (n : Z) : float64 := binary_normalize 53 1024 n 0 false.

(** The constant [m / 10^k]: the nearest number. *)
Definition of_decimal (m k : Z) : float64 := fdiv (of_int m) (of_int (10 ^ k)).

(** [int(f)]: towards zero.  What a number that does not fit becomes depends on the
    implementation; [other] stands for it. *)
Definition to_int (other : Z) (f : float64) : Z :=
  match f with
  | S754_zero _ => 0
  | S754_finite s m e =>
      let n := if 0 <=? e then Zpos m * 2 ^ e else Zpos m `div` 2 ^ (- e) in
      let n := if s then - n else n in
      if (- 2 ^ 63 <=? n) && (n <? 2 ^ 63) then n else other
  | S754_infinity _ | S754_nan => other
  end.

(** [d.Seconds()]: whole seconds and the rest, added. *)
Definition Seconds (d : Z) : float64 :=
  fadd (of_int (Z.quot d 1000000000)) (fdiv (of_int (Z.rem d 1000000000)) (of_int 1000000000)).

(** ** The verb [%.nf] *)

(** Rounded to even, as [strconv] does with the exact value. *)
Definition div_even (a b : Z) : Z :=
  let q := a `div` b in let r := a `mod` b in
  if 2 * r <? b then q else if b <? 2 * r then q + 1 else q + q `mod` 2.

(** [m * 2^e] in units of [10^-n]. *)
Definition scaled (n : nat) (m e : Z) : Z :=
  let p := 10 ^ Z.of_nat n in if 0 <=? e then m * p * 2 ^ e else div_even (m * p) (2 ^ (- e)).

(** Decimal digits of any size: a number has no more digits than bits. *)
Definition decimal (n : Z) : gostring := digits_of (S (Z.to_nat (Z.log2 n))) n [].

Definition pad_zeros (n : nat) (s : gostring) : gostring := replicate (n - length s) 48 ++ s.

Definition fixed_digits (n : nat) (t : Z) : gostring :=
  let p := 10 ^ Z.of_nat n in
  decimal (t `div` p) ++ (if bool_decide (n = 0%nat) then [] else str "." ++ pad_zeros n (decimal (t `mod` p))).

Definition Fixed (n : nat) (f : float64) : gostring :=
  match f with
  | S754_zero s => (if s then str "-" else []) ++ fixed_digits n 0
  | S754_finite s m e => (if s then str "-" else []) ++ fixed_digits n (scaled n (Zpos m) e)
  | S754_infinity s => if s then str "-Inf" else str "+Inf"
  | S754_nan => str "NaN"
  end.

Example Fixed_values :
  (Fixed 1 (of_decimal 5 1) = str "0.5" ∧ Fixed 1 (of_int 60) = str "60.0" ∧ Fixed 1 (of_decimal 25 2) = str "0.2") ∧
  (Fixed 1 (of_decimal 75 2) = str "0.8" ∧ Fixed 1 (of_decimal (-875) 3) = str "-0.9" ∧ Fixed 3 (of_decimal 7 3) = str "0.007") ∧
  Fixed 0 (Seconds 2500000000) = str "2" ∧ Fixed 1 (fdiv (of_int 1) (of_int 0)) = str "+Inf" ∧
  Fixed 1 (fdiv (of_int 0) (of_int 0)) = str "NaN" ∧ Fixed 1 (Seconds 12050000000) = str "12.1".
Proof. vm_compute. tauto. Qed.

(** ** What the digits mean *)

Lemma div_even_nearest a b : 0 < b → 2 * Z.abs (b * div_even a b - a) ≤ b.
Proof.
  intros Hb. unfold div_even. pose proof (Z.div_mod a b ltac:(lia)). pose proof (Z.mod_pos_bound a b Hb).
  pose proof (Z.mod_pos_bound (a `div` b) 2 ltac:(lia)).
  destruct (Z.ltb_spec (2 * a `mod` b) b); [lia|]. destruct (Z.ltb_spec b (2 * a `mod` b)); [lia|].
  assert ((a `div` b) `mod` 2 = 0 ∨ (a `div` b) `mod` 2 = 1) as [->| ->] by lia; lia.
Qed.
