(* ===== verification/Duration.v ===== *)
(** * [time.ParseDuration]

    A signed sequence of decimal numbers with units, such as [1h30m] or [1.5s], as
    nanoseconds.  The whole part of a number is an integer with overflow checks, the
    fraction is scaled in [float64] (Float.v).  An error names the text it is about, quoted. *)

From S2P Require Import Prelude GoLang Strings Float.

(** ** The numbers *)

Definition is_digit (c : Z) : bool := (48 <=? c) && (c <=? 57).

(** Digits of a [uint64], [None] beyond [2^63]. *)
Fixpoint leadingInt (x : Z) (s : gostring) : option (Z * gostring) :=
  match s with
  | c :: rest =>
      if is_digit c then
        if 2 ^ 63 `div` 10 <? x then None else
        let x := x * 10 + (c - 48) in
        if 2 ^ 63 <? x then None else leadingInt x rest
      else Some (x, s)
  | [] => Some (x, [])
  end.

(** Digits after the point, and the power of ten they are over; digits that no longer
    fit are skipped. *)
Fixpoint leadingFraction (x : Z) (scale : float64) (overflow : bool) (s : gostring) : Z * float64 * gostring :=
  match s with
  | c :: rest =>
      if is_digit c then
        if overflow || ((2 ^ 63 - 1) `div` 10 <? x) then leadingFraction x scale true rest else
        let y := x * 10 + (c - 48) in
        if 2 ^ 63 <? y then leadingFraction x scale true rest
        else leadingFraction y (fmul scale (of_int 10)) false rest
      else (x, scale, s)
  | [] => (x, scale, [])
  end.

(** A point and digits, if there is a point, and whether there is a digit. *)
Definition after_point (s : gostring) : Z * float64 * gostring * bool :=
  match s with
  | c :: rest =>
      if c =? 46 then
        let '(f, scale, rest') := leadingFraction 0 (of_int 1) false rest in (f, scale, rest', negb (len rest =? len rest'))
      else (0, of_int 1, s, false)
  | [] => (0, of_int 1, [], false)
  end.

(** The unit goes up to the next digit or point. *)
Fixpoint leadingUnit (s : gostring) : gostring * gostring :=
  match s with
  | c :: rest => if (c =? 46) || is_digit c then ([], s) else let '(u, rest) := leadingUnit rest in (c :: u, rest)
  | [] => ([], [])
  end.

(** Both signs for "micro" are accepted. *)
Definition unitMap : list (gostring * Z) :=
  [(str "ns", 1); (str "us", 1000); ([0xC2; 0xB5; 115], 1000); ([0xCE; 0xBC; 115], 1000);
   (str "ms", 1000000); (str "s", 1000000000); (str "m", 60000000000); (str "h", 3600000000000)].

Fixpoint lookup_unit (u : gostring) (m : list (gostring * Z)) : option Z :=
  match m with
  | [] => None
  | (name, unit) :: m => if bool_decide (u = name) then Some unit else lookup_unit u m
  end.

(** ** The text of an error *)

Definition hex_digit (n : Z) : Z := if n <? 10 then 48 + n else 87 + n.
Definition quote_byte (c : Z) : gostring :=
  if (128 <=? c) || (c <? 32) then str "\x" ++ [hex_digit (c `div` 16); hex_digit (c `mod` 16)]
  else if (c =? 34) || (c =? 92) then [92; c] else [c].
Definition duration_quote (s : gostring) : gostring := [34] ++ concat (quote_byte <$> s) ++ [34].

Definition err_duration (what : string) (orig : gostring) : error := ErrorString (str what ++ duration_quote orig).
Definition err_unit (u orig : gostring) : error :=
  ErrorString (str "time: unknown unit " ++ duration_quote u ++ str " in duration " ++ duration_quote orig).

(** ** The loop *)

(** One number with its unit: its nanoseconds and the rest of the text. *)
Definition parse_quantity (orig s : gostring) : go (Z * gostring) :=
  let invalid := Err (err_duration "time: invalid duration " orig) in
  match s with
  | [] => invalid
  | c :: _ =>
      if negb ((c =? 46) || is_digit c) then invalid else
      match leadingInt 0 s with
      | None => invalid
      | Some (v, s1) =>
          let pre := negb (len s =? len s1) in
          let '(f, scale, s2, post) := after_point s1 in
          if negb pre && negb post then invalid else
          let '(u, rest) := leadingUnit s2 in
          if bool_decide (u = []) then Err (err_duration "time: missing unit in duration " orig) else
          match lookup_unit u unitMap with
          | None => Err (err_unit u orig)
          | Some unit =>
              if 2 ^ 63 `div` unit <? v then invalid else
              let v := v * unit in
              if 0 <? f then
                let v := u64 (v + u64 (to_int 0 (fmul (of_int f) (fdiv (of_int unit) scale)))) in
                if 2 ^ 63 <? v then invalid else Ok (v, rest)
              else Ok (v, rest)
          end
      end
  end.

(** [None]: out of fuel. *)
Fixpoint duration_loop (fuel : nat) (orig : gostring) (d : Z) (s : gostring) : option (go Z) :=
  match s with
  | [] => Some (Ok d)
  | _ =>
      match fuel with
      | O => None
      | S fuel =>
          match parse_quantity orig s with
          | Ok (v, rest) =>
              let d := u64 (d + v) in
              if 2 ^ 63 <? d then Some (Err (err_duration "time: invalid duration " orig))
              else duration_loop fuel orig d rest
          | Err e => Some (Err e)
          | Panic => Some Panic
          end
      end
  end.

Definition split_sign (s : gostring) : bool * gostring :=
  match s with
  | c :: rest => if c =? 45 then (true, rest) else if c =? 43 then (false, rest) else (false, s)
  | [] => (false, [])
  end.

Definition ParseDuration (orig : gostring) : go Z :=
  let invalid := Err (err_duration "time: invalid duration " orig) in
  let '(neg, s) := split_sign orig in
  if bool_decide (s = str "0") then Ok 0 else
  if bool_decide (s = []) then invalid else
  match duration_loop (length s) orig 0 s with
  | Some (Ok d) => if neg then Ok (i64 (- d)) else if 2 ^ 63 - 1 <? d then invalid else Ok d
  | Some res => res
  | None => invalid
  end.

Example ParseDuration_values :
  (ParseDuration (str "15m") = Ok 900000000000 ∧ ParseDuration (str "1h30m") = Ok 5400000000000 ∧
   ParseDuration (str "-1.5s") = Ok (-1500000000) ∧ ParseDuration (str ".25us") = Ok 250) ∧
  (ParseDuration (str "1.00000000000000000000001h") = Ok 3600000000000 ∧ ParseDuration (str "+0") = Ok 0 ∧
   ParseDuration (str "0.3333333333333333333h") = Ok 1200000000000 ∧
   ParseDuration (str "0.830103483285477580700h") = Ok 2988372539827 ∧ ParseDuration (str "9223372036854775.807us") = Ok (2 ^ 63 - 1) ∧
   ParseDuration (str "2562047h48m") = Err (err_duration "time: invalid duration " (str "2562047h48m"))) ∧
  ParseDuration (str "10") = Err (ErrorString (str "time: missing unit in duration " ++ [34] ++ str "10" ++ [34])) ∧
  ParseDuration (str "1d") = Err (err_unit (str "d") (str "1d")) ∧
  ParseDuration [45; 46; 115] = Err (err_duration "time: invalid duration " (str "-.s")) ∧
  ParseDuration (str "-9223372036854775808ns") = Ok (- 2 ^ 63).
Proof. vm_compute. repeat split; reflexivity. Qed.

(** ** It ends *)

Lemma leadingInt_rest x s v rest : leadingInt x s = Some (v, rest) → (length rest ≤ length s)%nat.
Proof.
  revert x. induction s as [|c s IH]; intros x; cbn [leadingInt]; [by intros [= _ <-]|].
  destruct (is_digit c); [|by intros [= _ <-]]. repeat case_match; try done. intros E. apply IH in E. simpl. lia.
Qed.

Lemma leadingFraction_rest s : ∀ x scale o, (length (leadingFraction x scale o s).2 ≤ length s)%nat.
Proof.
  induction s as [|c s IH]; intros x scale o; cbn [leadingFraction]; [done|].
  destruct (is_digit c); [|done]. repeat case_match; simpl; by apply le_S.
Qed.

Lemma leadingUnit_split s : s = (leadingUnit s).1 ++ (leadingUnit s).2.
Proof.
  induction s as [|c s IH]; [done|]. cbn [leadingUnit]. destruct (_ || _); [done|].
  destruct (leadingUnit s) as [u rest]. cbn in *. by rewrite IH at 1.
Qed.

Lemma parse_quantity_rest orig s v rest : parse_quantity orig s = Ok (v, rest) → (length rest < length s)%nat.
Proof.
  unfold parse_quantity. destruct s as [|c s']; [done|]. set (s := c :: s') in *. destruct (negb _); [done|].
  destruct (leadingInt 0 s) as [[v0 s1]|] eqn:Ei; [|done]. apply leadingInt_rest in Ei.
  assert (length (after_point s1).1.2 ≤ length s1)%nat as Hp.
  { destruct s1 as [|x s1]; [done|]. unfold after_point. destruct (x =? 46); [|done].
    pose proof (leadingFraction_rest s1 0 (of_int 1) false) as Hl. destruct (leadingFraction _ _ _ _) as [[f scale] r].
    cbn in *. lia. }
  destruct (after_point s1) as [[[f scale] s2] post]. cbn in Hp. destruct (negb _ && _); [done|].
  pose proof (leadingUnit_split s2) as Hs. destruct (leadingUnit s2) as [u r]. cbn in Hs.
  case_bool_decide as Hu; [done|]. assert (length r < length s2)%nat by (rewrite Hs, length_app; destruct u; [done|simpl; lia]).
  repeat case_match; try done; intros [= _ <-]; lia.
Qed.

(** Each number has a unit: a turn per byte is enough. *)
Lemma duration_loop_ends fuel : ∀ orig d s, (length s ≤ fuel)%nat → is_Some (duration_loop fuel orig d s).
Proof.
  induction fuel as [|fuel IH]; intros orig d s Hl; destruct s as [|c s]; try (by eexists); [simpl in Hl; lia|].
  cbn [duration_loop]. destruct (parse_quantity orig (c :: s)) as [[v rest]|e|] eqn:E; [|by eexists..].
  apply parse_quantity_rest in E. destruct (_ <? _); [by eexists|]. apply IH. simpl in *. lia.
Qed.

(** ** What it returns *)

Lemma duration_loop_bounds fuel : ∀ orig d s d', 0 ≤ d ≤ 2 ^ 63 →
  duration_loop fuel orig d s = Some (Ok d') → 0 ≤ d' ≤ 2 ^ 63.
Proof.
  induction fuel as [|fuel IH]; intros orig d s d' Hd; destruct s as [|c s]; cbn [duration_loop]; try (by intros [= <-]).
  destruct (parse_quantity orig (c :: s)) as [[v rest]|e|]; [|done..].
  destruct (Z.ltb_spec (2 ^ 63) (u64 (d + v))); [done|]. apply IH. pose proof (u64_range (d + v)). lia.
Qed.

Lemma ParseDuration_range s d : ParseDuration s = Ok d → - 2 ^ 63 ≤ d < 2 ^ 63.
Proof.
  unfold ParseDuration. destruct (split_sign s) as [neg s'].
  case_bool_decide; [intros [= <-]; lia|]. case_bool_decide; [done|].
  destruct (duration_loop _ _ _ _) as [[x|e|]|] eqn:E; [|done..]. apply duration_loop_bounds in E; [|lia].
  destruct neg; [intros [= <-]; apply i64_range|]. destruct (Z.ltb_spec (2 ^ 63 - 1) x); [done|]. intros [= <-]. lia.
Qed.

(** ** Whole numbers with units *)

Lemma lookup_unit_in u m unit : lookup_unit u m = Some unit → (u, unit) ∈ m.
Proof.
  induction m as [|[name un] m IH]; cbn [lookup_unit]; [done|]. case_bool_decide as Hu; [intros [= <-]; subst u; by left|].
  intros E. right. by apply IH.
Qed.

Lemma unit_facts u unit : lookup_unit u unitMap = Some unit →
  0 < unit ∧ u ≠ [] ∧ Forall (λ c, (c =? 46) || is_digit c = false) u.
Proof.
  intros Hu%lookup_unit_in. revert u unit Hu.
  assert (Forall (λ p : gostring * Z, 0 < p.2 ∧ p.1 ≠ [] ∧ Forall (λ c, (c =? 46) || is_digit c = false) p.1) unitMap) as H
    by (refine (bool_decide_eq_true_1 _ _); vm_compute; reflexivity).
  intros u unit Hu. exact (proj1 (Forall_forall _ _) H (u, unit) Hu).
Qed.

Definition quantities_text (qs : list (Z * gostring)) : gostring := concat ((λ q, Itoa q.1 ++ q.2) <$> qs).
Definition quantity_ok (q : Z * gostring) : Prop := 0 ≤ q.1 ∧ is_Some (lookup_unit q.2 unitMap).
Definition quantity_ns (q : Z * gostring) : Z := q.1 * default 0 (lookup_unit q.2 unitMap).
Definition quantities_ns (qs : list (Z * gostring)) : Z := foldr (λ q n, quantity_ns q + n) 0 qs.

Definition ends_number (s : gostring) : Prop := match s with [] => True | c :: _ => is_digit c = false end.

Lemma leadingInt_digits ds rest : ∀ x, 0 ≤ x → Forall digit ds → value_from x ds ≤ 2 ^ 63 → ends_number rest →
  leadingInt x (ds ++ rest) = Some (value_from x ds, rest).
Proof.
  induction ds as [|c ds IH]; intros x Hx Hds Hv Hr.
  - destruct rest as [|c rest]; [done|]. cbn in *. by rewrite Hr.
  - apply Forall_cons in Hds as [Hc Hds]. unfold digit in Hc. cbn [app leadingInt].
    change (value_from x (c :: ds)) with (value_from (x * 10 + (c - 48)) ds) in *.
    pose proof (value_from_mono (x * 10 + (c - 48)) ds ltac:(lia) Hds).
    unfold is_digit. rewrite (proj2 (Z.leb_le 48 c)), (proj2 (Z.leb_le c 57)) by lia. cbn [andb].
    change (2 ^ 63 `div` 10) with 922337203685477580. rewrite ltb_false by lia.
    rewrite ltb_false by lia. apply IH; [lia|done..].
Qed.

Lemma leadingUnit_app u rest : Forall (λ c, (c =? 46) || is_digit c = false) u →
  (match rest with [] => True | c :: _ => (c =? 46) || is_digit c = true end) → leadingUnit (u ++ rest) = (u, rest).
Proof.
  intros Hu Hr. induction Hu as [|c u Hc Hu IH].
  - destruct rest as [|c rest]; [done|]. cbn [app leadingUnit]. by rewrite Hr.
  - cbn [app leadingUnit]. by rewrite Hc, IH.
Qed.

Lemma digit_is_digit c : digit c → is_digit c = true.
Proof. intros Hc. unfold digit, is_digit in *. apply andb_true_iff. split; apply Z.leb_le; lia. Qed.

Lemma Itoa_head n : 0 ≤ n < 2 ^ 64 → ∃ c ds, Itoa n = c :: ds ∧ is_digit c = true.
Proof.
  intros Hn. destruct (Itoa_digits n Hn) as (Hne & Hd & _). destruct (Itoa n) as [|c ds]; [done|].
  exists c, ds. split; [done|]. apply digit_is_digit. by inversion Hd.
Qed.

Lemma quantities_cons q qs : quantities_ns (q :: qs) = quantity_ns q + quantities_ns qs.
Proof. done. Qed.

Lemma quantity_ns_nonneg q : quantity_ok q → 0 ≤ quantity_ns q.
Proof.
  intros [Hq [unit Hu]]. unfold quantity_ns. rewrite Hu. simpl. apply unit_facts in Hu as [Hu _]. nia.
Qed.

Lemma quantities_ns_nonneg qs : Forall quantity_ok qs → 0 ≤ quantities_ns qs.
Proof. induction 1 as [|q qs Hq _ IH]; [done|]. rewrite quantities_cons. pose proof (quantity_ns_nonneg q Hq). lia. Qed.

Lemma quantity_small q : quantity_ok q → quantity_ns q < 2 ^ 63 → 0 ≤ q.1 < 2 ^ 63.
Proof.
  intros [Hq [unit Hu]]. unfold quantity_ns. rewrite Hu. simpl. apply unit_facts in Hu as [Hu _]. nia.
Qed.

Lemma quantities_head qs : Forall quantity_ok qs → quantities_ns qs < 2 ^ 63 →
  match quantities_text qs with [] => True | c :: _ => (c =? 46) || is_digit c = true end.
Proof.
  destruct qs as [|q qs]; [done|]. intros [Hq Hqs]%Forall_cons Hs. rewrite quantities_cons in Hs.
  pose proof (quantities_ns_nonneg qs Hqs). pose proof (quantity_small q Hq ltac:(lia)).
  destruct (Itoa_head q.1) as (c & ds & E & Hc); [lia|]. unfold quantities_text. cbn [fmap list_fmap concat].
  rewrite E. cbn. by rewrite Hc, orb_true_r.
Qed.

(** One of them, before text that begins another or ends. *)
Lemma parse_quantity_whole orig q rest :
  quantity_ok q → quantity_ns q < 2 ^ 63 →
  (match rest with [] => True | c :: _ => (c =? 46) || is_digit c = true end) →
  parse_quantity orig ((Itoa q.1 ++ q.2) ++ rest) = Ok (quantity_ns q, rest).
Proof.
  intros Hq Hs Hr. pose proof (quantity_small q Hq Hs) as Hn. destruct Hq as [_ [unit Hu]].
  destruct (unit_facts _ _ Hu) as (Hpos & Hne & Hall). destruct (Itoa_digits q.1) as (_ & Hd & Hv); [lia|].
  destruct (Itoa_head q.1) as (c & ds & E & Hc); [lia|]. rewrite <-app_assoc.
  assert (∃ x u, q.2 = x :: u ∧ is_digit x = false ∧ x ≠ 46) as (x & u & Ex & Hx1 & Hx2).
  { destruct q.2 as [|x u]; [done|]. exists x, u. apply Forall_inv in Hall. apply orb_false_iff in Hall as [?%Z.eqb_neq ?]. done. }
  unfold parse_quantity. rewrite E at 1. cbn [app]. rewrite Hc, orb_true_r. cbn [negb].
  rewrite leadingInt_digits by (done || lia || (rewrite Ex; done)). rewrite Hv.
  assert ((len (Itoa q.1 ++ q.2 ++ rest) =? len (q.2 ++ rest)) = false) as ->.
  { apply Z.eqb_neq. rewrite (len_app (Itoa q.1)), E, len_cons. pose proof (len_nonneg ds). lia. }
  assert (after_point (q.2 ++ rest) = (0, of_int 1, q.2 ++ rest, false)) as ->.
  { rewrite Ex. cbn [app after_point]. by rewrite (proj2 (Z.eqb_neq x 46)). }
  cbn [negb andb]. rewrite leadingUnit_app by done. rewrite bool_decide_eq_false_2 by done. rewrite Hu.
  assert (quantity_ns q = q.1 * unit) as Eq by (unfold quantity_ns; by rewrite Hu). rewrite Eq in *.
  rewrite ltb_false; [done|]. apply Z.div_le_lower_bound; lia.
Qed.

Lemma duration_loop_quantities fuel : ∀ orig d qs, 0 ≤ d → Forall quantity_ok qs → d + quantities_ns qs < 2 ^ 63 →
  (length qs ≤ fuel)%nat →
  duration_loop fuel orig d (quantities_text qs) = Some (Ok (d + quantities_ns qs)).
Proof.
  induction fuel as [|fuel IH]; intros orig d [|q qs] Hd Hqs Hs Hl; try (cbn; f_equal; f_equal; lia); [simpl in Hl; lia|].
  apply Forall_cons in Hqs as [Hq Hqs]. rewrite quantities_cons in *.
  pose proof (quantities_ns_nonneg qs Hqs). pose proof (quantity_ns_nonneg q Hq).
  pose proof (quantities_head qs Hqs ltac:(lia)) as Hh.
  pose proof (parse_quantity_whole orig q (quantities_text qs) Hq ltac:(lia) Hh) as E.
  destruct (Itoa_head q.1) as (c & ds & Ec & _); [pose proof (quantity_small q Hq); lia|].
  change (quantities_text (q :: qs)) with ((Itoa q.1 ++ q.2) ++ quantities_text qs).
  rewrite Ec in E |- *. cbn [app duration_loop] in E |- *. rewrite E.
  rewrite u64_small, ltb_false by lia. rewrite IH; [f_equal; f_equal; lia|lia|done|lia|simpl in Hl; lia].
Qed.

(** The sum of whole numbers of units is read back. *)
Lemma ParseDuration_quantities qs : qs ≠ [] → Forall quantity_ok qs → quantities_ns qs < 2 ^ 63 →
  ParseDuration (quantities_text qs) = Ok (quantities_ns qs).
Proof.
  intros Hne Hqs Hs.
  assert (length qs ≤ length (quantities_text qs))%nat as Hlen.
  { clear -Hqs. induction Hqs as [|q qs [_ [unit (_ & Hu & _)%unit_facts]] _ IH]; [done|].
    unfold quantities_text in *. cbn [fmap list_fmap concat]. rewrite !length_app. destruct q.2; [done|simpl in *; lia]. }
  destruct qs as [|q qs]; [done|]. pose proof (duration_loop_quantities _ (quantities_text (q :: qs)) 0 (q :: qs) ltac:(lia) Hqs ltac:(lia) Hlen) as E.
  apply Forall_cons in Hqs as [Hq Hqs]. pose proof (quantities_ns_nonneg qs Hqs). rewrite quantities_cons in Hs.
  destruct (Itoa_head q.1) as (c & ds & Ec & Hc); [pose proof (quantity_small q Hq); lia|].
  destruct Hq as [_ [unit (_ & Hu & _)%unit_facts]].
  assert (∃ x t, quantities_text (q :: qs) = c :: x :: t) as (x & t & Et).
  { unfold quantities_text. cbn [fmap list_fmap concat]. rewrite Ec. destruct ds as [|x ds]; [|by eexists _, _].
    destruct q.2 as [|x u]; [done|]. by eexists _, _. }
  assert (split_sign (quantities_text (q :: qs)) = (false, quantities_text (q :: qs))) as Esign.
  { rewrite Et. unfold is_digit in Hc. apply andb_true_iff in Hc as [H1%Z.leb_le H2%Z.leb_le]. cbn [split_sign].
    by rewrite (proj2 (Z.eqb_neq c 45)), (proj2 (Z.eqb_neq c 43)) by lia. }
  unfold ParseDuration. rewrite Esign, !bool_decide_eq_false_2 by (rewrite Et; done). rewrite E, Z.add_0_l.
  rewrite quantities_cons. by rewrite ltb_false by lia.
Qed.
