(* ===== verification/Numbers.v ===== *)
(** * More of [strconv]: the numbers of flags

    [ParseInt] with base 0 (the base is that of the prefix, digits may be separated by
    underscores) and [ParseFloat] (decimal and hexadecimal, infinities, not a number), as the
    package [flag] calls them.  A number is rounded once, from its exact value. *)

From Stdlib Require Import SpecFloat.
From S2P Require Import Prelude GoLang Strings Float Duration.

(** The library's [lower]: the bit of small letters set. *)
Definition lower (c : Z) : Z := Z.lor c 32.

(** ** Underscores *)

Inductive saw := SawStart | SawDigit | SawUnderscore | SawOther.
#[export] Instance saw_eq_dec : EqDecision saw.
Proof. solve_decision. Defined.

Definition hex_letter (c : Z) : bool := (97 <=? lower c) && (lower c <=? 102).

Fixpoint underscores_ok (hex : bool) (last : saw) (s : gostring) : bool :=
  match s with
  | [] => negb (bool_decide (last = SawUnderscore))
  | c :: s =>
      if is_digit c || (hex && hex_letter c) then underscores_ok hex SawDigit s
      else if c =? 95 then if bool_decide (last = SawDigit) then underscores_ok hex SawUnderscore s else false
      else if bool_decide (last = SawUnderscore) then false else underscores_ok hex SawOther s
  end.

(** An underscore stands between digits; a prefix counts as a digit. *)
Definition underscoreOK (s : gostring) : bool :=
  let s := match s with c :: rest => if (c =? 45) || (c =? 43) then rest else s | [] => [] end in
  match s with
  | z :: x :: rest =>
      if (z =? 48) && ((lower x =? 98) || (lower x =? 111) || (lower x =? 120)) then underscores_ok (lower x =? 120) SawDigit rest
      else underscores_ok false SawStart s
  | _ => underscores_ok false SawStart s
  end.

(** ** ParseInt(s, 0, 64) *)

Definition split_base (s : gostring) : Z * gostring :=
  match s with
  | z :: rest =>
      if z =? 48 then
        match rest with
        | x :: (_ :: _) as digits =>
            if lower x =? 98 then (2, digits) else if lower x =? 111 then (8, digits)
            else if lower x =? 120 then (16, digits) else (8, rest)
        | _ => (8, rest)
        end
      else (10, s)
  | [] => (10, [])
  end.

Definition digit_value (c : Z) : option Z :=
  if is_digit c then Some (c - 48)
  else if (97 <=? lower c) && (lower c <=? 122) then Some (lower c - 97 + 10) else None.

(** The loop: the number and whether an underscore was seen. *)
Fixpoint parse_based (base n : Z) (underscores : bool) (s : gostring) : go (Z * bool) :=
  match s with
  | [] => Ok (n, underscores)
  | c :: s =>
      if c =? 95 then parse_based base n true s else
      match digit_value c with
      | None => Err ErrSyntax
      | Some d =>
          if base <=? d then Err ErrSyntax else
          if (2 ^ 64 - 1) `div` base + 1 <=? n then Err ErrRange else
          let n := n * base + d in
          if 2 ^ 64 - 1 <? n then Err ErrRange else parse_based base n underscores s
      end
  end.

Definition ParseUint0_raw (s : gostring) : go Z :=
  if bool_decide (s = []) then Err ErrSyntax else
  let '(base, digits) := split_base s in
  '(n, underscores) ← parse_based base 0 false digits;
  if underscores && negb (underscoreOK s) then Err ErrSyntax else Ok n.

Definition ParseInt0_raw (s : gostring) : go Z :=
  let '(neg, digits) := split_sign s in
  un ← ParseUint0_raw digits;
  if neg then if 2 ^ 63 <? un then Err ErrRange else Ok (- un)
  else if 2 ^ 63 <=? un then Err ErrRange else Ok un.

Example ParseInt0_values :
  (ParseInt0_raw (str "5_000") = Ok 5000 ∧ ParseInt0_raw (str "-0x1F") = Ok (-31) ∧ ParseInt0_raw (str "017") = Ok 15 ∧
   ParseInt0_raw (str "0") = Ok 0 ∧ ParseInt0_raw (str "0b101") = Ok 5 ∧ ParseInt0_raw (str "0x_1") = Ok 1) ∧
  (ParseInt0_raw (str "08") = Err ErrSyntax ∧ ParseInt0_raw (str "1__0") = Err ErrSyntax ∧ ParseInt0_raw (str "") = Err ErrSyntax ∧
   ParseInt0_raw (str "0x") = Err ErrSyntax ∧ ParseInt0_raw (str "5k") = Err ErrSyntax ∧ ParseInt0_raw (str "_5") = Err ErrSyntax) ∧
  ParseInt0_raw (str "9223372036854775808") = Err ErrRange ∧ ParseInt0_raw (str "-9223372036854775808") = Ok (- 2 ^ 63).
Proof. vm_compute. repeat split; reflexivity. Qed.

(** ** ParseFloat(s, 64) *)

(** The quotient of two positive integers, rounded to nearest even. *)
Definition ratio (neg : bool) (a b : positive) : float64 := SFdiv 53 1024 (S754_finite neg a 0) (S754_finite false b 0).

(** [m * b^e] *)
Definition power_scaled (neg : bool) (m b e : Z) : float64 :=
  match m with
  | Zpos m => if 0 <=? e then ratio neg (Z.to_pos (Zpos m * b ^ e)) 1 else ratio neg m (Z.to_pos (b ^ (- e)))
  | _ => S754_zero neg
  end.

(** The digits read so far as a number, how many of them are after the point, and what
    has been seen: a point, a digit, an underscore. *)
Record mantissa := mkMantissa { m_value : Z; m_after : Z; m_dot : bool; m_digits : bool; m_underscores : bool }.

Definition add_digit (base d : Z) (m : mantissa) : mantissa :=
  mkMantissa (m_value m * base + d) (m_after m + (if m_dot m then 1 else 0)) (m_dot m) true (m_underscores m).

Fixpoint read_mantissa (base : Z) (m : mantissa) (s : gostring) : mantissa * gostring :=
  match s with
  | [] => (m, [])
  | c :: rest =>
      if c =? 95 then read_mantissa base (mkMantissa (m_value m) (m_after m) (m_dot m) (m_digits m) true) rest
      else if c =? 46 then
        if m_dot m then (m, s)
        else read_mantissa base (mkMantissa (m_value m) (m_after m) true (m_digits m) (m_underscores m)) rest
      else if is_digit c then read_mantissa base (add_digit base (c - 48) m) rest
      else if (base =? 16) && hex_letter c then read_mantissa base (add_digit base (lower c - 97 + 10) m) rest
      else (m, s)
  end.

(** The digits of an exponent; beyond 10000 they are not counted. *)
Fixpoint read_exponent (e : Z) (underscores : bool) (s : gostring) : Z * bool * gostring :=
  match s with
  | c :: rest =>
      if c =? 95 then read_exponent e true rest
      else if is_digit c then read_exponent (if e <? 10000 then e * 10 + (c - 48) else e) underscores rest
      else (e, underscores, s)
  | [] => (e, underscores, [])
  end.

(** The exponent, if there is one; [None]: there must be one, or it has no digit. *)
Definition read_exponent_part (hex : bool) (s : gostring) : option (Z * bool * gostring) :=
  match s with
  | c :: rest =>
      if lower c =? (if hex then 112 else 101) then
        let '(neg, rest) := split_sign rest in
        match rest with
        | d :: _ =>
            if is_digit d then
              let '(e, underscores, rest) := read_exponent 0 false rest in Some (if neg then - e else e, underscores, rest)
            else None
        | [] => None
        end
      else if hex then None else Some (0, false, s)
  | [] => if hex then None else Some (0, false, [])
  end.

Definition has_hex_prefix (s : gostring) : bool :=
  match s with z :: x :: _ :: _ => (z =? 48) && (lower x =? 120) | _ => false end.

Definition readFloat (s : gostring) : option float64 :=
  let '(neg, digits) := split_sign s in
  let hex := has_hex_prefix digits in
  let base := if hex then 16 else 10 in
  let '(m, rest) := read_mantissa base (mkMantissa 0 0 false false false) (if hex then drop 2 digits else digits) in
  if negb (m_digits m) then None else
  '(e, underscores, rest) ← read_exponent_part hex rest;
  if (m_underscores m || underscores) && negb (underscoreOK s) then None else
  if bool_decide (rest = []) then
    Some (if hex then power_scaled neg (m_value m) 2 (e - 4 * m_after m) else power_scaled neg (m_value m) 10 (e - m_after m))
  else None.

(** [special]: an infinity with or without sign, or not a number. *)
Definition special_float (s : gostring) : option float64 :=
  let '(neg, name) := split_sign s in
  let name := lower_byte <$> name in
  if bool_decide (name = str "inf") || bool_decide (name = str "infinity") then Some (S754_infinity neg)
  else if bool_decide (lower_byte <$> s = str "nan") then Some S754_nan else None.

Definition ParseFloat_raw (s : gostring) : go float64 :=
  match special_float s with
  | Some f => Ok f
  | None =>
      match readFloat s with
      | None => Err ErrSyntax
      | Some (S754_infinity _) => Err ErrRange
      | Some f => Ok f
      end
  end.

Example ParseFloat_values :
  (ParseFloat_raw (str "0.5") = Ok (of_decimal 5 1) ∧ ParseFloat_raw (str "8e-1") = Ok (of_decimal 8 1) ∧
   ParseFloat_raw (str "0x1p-2") = Ok (of_decimal 25 2) ∧ ParseFloat_raw (str "1_0.5") = Ok (of_decimal 105 1) ∧
   ParseFloat_raw (str "-0") = Ok (S754_zero true)) ∧
  (ParseFloat_raw (str "9007199254740993") = Ok (of_int 9007199254740992) ∧
   ParseFloat_raw (str "9007199254740993.000000000000000000001") = Ok (of_int 9007199254740994) ∧
   ParseFloat_raw (str "1.7976931348623158e308") = Ok (S754_finite false 9007199254740991 971) ∧
   ParseFloat_raw (str "1.7976931348623159e308") = Err ErrRange ∧
   ParseFloat_raw (str "2e-324") = Ok (S754_zero false) ∧ ParseFloat_raw (str "3e-324") = Ok (S754_finite false 1 (-1074))) ∧
  (ParseFloat_raw (str "-Inf") = Ok (S754_infinity true) ∧ ParseFloat_raw (str "nan") = Ok S754_nan ∧
   ParseFloat_raw (str "+nan") = Err ErrSyntax ∧ ParseFloat_raw (str "1.2.3") = Err ErrSyntax ∧
   ParseFloat_raw (str ".") = Err ErrSyntax ∧ ParseFloat_raw (str "1e") = Err ErrSyntax ∧ ParseFloat_raw (str "0x1") = Err ErrSyntax ∧
   ParseFloat_raw (str "") = Err ErrSyntax).
Proof. vm_compute. repeat split; reflexivity. Qed.

(** ** Decimal numbers are read back *)

Lemma digits_of_head fuel : ∀ n acc, 0 < n < 10 ^ Z.of_nat fuel →
  ∃ c ds, digits_of fuel n acc = c :: ds ∧ 49 ≤ c ≤ 57.
Proof.
  induction fuel as [|fuel IH]; intros n acc Hn; [simpl in Hn; lia|]. cbn [digits_of].
  destruct (Z.ltb_spec n 10).
  - rewrite Z.mod_small by lia. eexists _, _. split; [done|lia].
  - rewrite Nat2Z.inj_succ, Z.pow_succ_r in Hn by lia. apply IH.
    split; [apply Z.div_str_pos; lia|apply Z.div_lt_upper_bound; lia].
Qed.

Lemma parse_based_digits ds : ∀ n, 0 ≤ n → Forall digit ds → value_from n ds < 2 ^ 64 →
  parse_based 10 n false ds = Ok (value_from n ds, false).
Proof.
  induction ds as [|c ds IH]; intros n Hn Hds Hv; [done|]. apply Forall_cons in Hds as [Hc Hds].
  change (value_from n (c :: ds)) with (value_from (n * 10 + (c - 48)) ds) in *. cbn [parse_based].
  pose proof (digit_is_digit c Hc) as Hd. unfold digit in Hc.
  pose proof (value_from_mono (n * 10 + (c - 48)) ds ltac:(lia) Hds).
  rewrite (proj2 (Z.eqb_neq c 95)) by lia. unfold digit_value. rewrite Hd.
  rewrite (proj2 (Z.leb_gt 10 (c - 48))) by lia. change ((2 ^ 64 - 1) `div` 10 + 1) with 1844674407370955162.
  rewrite (proj2 (Z.leb_gt 1844674407370955162 n)) by lia. rewrite ltb_false by lia. apply IH; [lia|done..].
Qed.

(** What is printed in decimal is read with base 0: it has no prefix of another base. *)
Lemma ParseInt0_Itoa n : 0 ≤ n < 2 ^ 63 → ParseInt0_raw (Itoa n) = Ok n.
Proof.
  intros Hn. destruct (Z.eq_dec n 0) as [->|Hne]; [by vm_compute|].
  destruct (Itoa_digits n) as (_ & Hd & Hv); [lia|].
  assert (∃ c ds, Itoa n = c :: ds ∧ 49 ≤ c ≤ 57) as (c & ds & E & Hc).
  { unfold Itoa. rewrite ltb_false by lia. apply digits_of_head. split; [lia|].
    eapply Z.lt_trans; [apply Hn|]. by vm_compute. }
  unfold ParseInt0_raw, ParseUint0_raw. rewrite E in *. cbn [split_sign].
  rewrite (proj2 (Z.eqb_neq c 45)), (proj2 (Z.eqb_neq c 43)) by lia. cbn [split_base].
  rewrite (proj2 (Z.eqb_neq c 48)) by lia. rewrite bool_decide_eq_false_2 by done.
  rewrite parse_based_digits by (done || lia). rewrite Hv. cbn [mbind go_bind andb].
  by rewrite (proj2 (Z.leb_gt (2 ^ 63) n)) by lia.
Qed.
