(* ===== verification/Flag.v ===== *)
(** * Package [flag]: the arguments of a command line

    Flags with values of any type: a flag is its name and what [Set] does with the text
    of a value, on the settings of the program.  [Parse] reads arguments up to the first
    that is not a flag; the programs use [flag.CommandLine], which exits on an error with
    code 2, and with code 0 when help is asked for, after the text of [Usage]. *)

From S2P Require Import Prelude GoLang Strings Float Duration Numbers.

(** What [Set] reports of a number: [errParse], [errRange]. *)
Definition errParse : error := ErrorString (str "parse error").
Definition errRange : error := ErrorString (str "value out of range").

Definition numError (e : error) : error :=
  if bool_decide (e = ErrSyntax) then errParse else if bool_decide (e = ErrRange) then errRange else e.

Definition flag_number {A} (r : go A) : go A := match r with Err e => Err (numError e) | r => r end.

(** [Set] of the types the programs use. *)
Definition string_Set (v : gostring) : go gostring := Ok v.
Definition int_Set (v : gostring) : go Z := flag_number (ParseInt0_raw v).
Definition float64_Set (v : gostring) : go float64 := flag_number (ParseFloat_raw v).
Definition duration_Set (v : gostring) : go Z := match ParseDuration v with Err _ => Err errParse | r => r end.

Section parse.
Context {U : Unicode} {C : Type}.

Abbreviation FlagSet := (list (gostring * (gostring → C → go C))).

Fixpoint formal (fs : FlagSet) (name : gostring) : option (gostring → C → go C) :=
  match fs with
  | [] => None
  | (n, set) :: fs => if bool_decide (name = n) then Some set else formal fs name
  end.

Inductive parsed :=
  | Settings (c : C) (args : list gostring)   (* the rest of the arguments *)
  | ErrHelp
  | Failed (msg : gostring).

(** An argument that may be a flag: its name and, after [=], its value. *)
Inductive argument := NotFlag | Terminator | BadSyntax | Named (name : gostring) (value : option gostring).

(** [=] cannot be the first byte of a name. *)
Fixpoint split_value (name : gostring) : gostring * option gostring :=
  match name with
  | [] => ([], None)
  | c :: rest => if c =? 61 then ([], Some rest) else let '(n, v) := split_value rest in (c :: n, v)
  end.

Definition named (name : gostring) : argument :=
  match name with
  | [] => BadSyntax
  | c :: rest =>
      if (c =? 45) || (c =? 61) then BadSyntax
      else let '(n, v) := split_value rest in Named (c :: n) v
  end.

Definition classify (s : gostring) : argument :=
  match s with
  | c0 :: c1 :: rest =>
      if negb (c0 =? 45) then NotFlag
      else if c1 =? 45 then if bool_decide (rest = []) then Terminator else named rest
      else named (c1 :: rest)
  | _ => NotFlag
  end.

Definition invalid_value (value name : gostring) (e : error) : gostring :=
  str "invalid value " ++ Quote value ++ str " for flag -" ++ name ++ str ": " ++ Error e.

(** [parseOne], turn after turn. *)
Fixpoint parse (fs : FlagSet) (args : list gostring) (c : C) : go parsed :=
  match args with
  | [] => Ok (Settings c [])
  | s :: rest =>
      match classify s with
      | NotFlag => Ok (Settings c args)
      | Terminator => Ok (Settings c rest)
      | BadSyntax => Ok (Failed (str "bad flag syntax: " ++ s))
      | Named name value =>
          match formal fs name with
          | None =>
              if bool_decide (name = str "help") || bool_decide (name = str "h") then Ok ErrHelp
              else Ok (Failed (str "flag provided but not defined: -" ++ name))
          | Some set =>
              match value, rest with
              | Some v, _ =>
                  match set v c with
                  | Ok c => parse fs rest c
                  | Err e => Ok (Failed (invalid_value v name e))
                  | Panic => Panic
                  end
              | None, v :: rest =>
                  match set v c with
                  | Ok c => parse fs rest c
                  | Err e => Ok (Failed (invalid_value v name e))
                  | Panic => Panic
                  end
              | None, [] => Ok (Failed (str "flag needs an argument: -" ++ name))
              end
          end
      end
  end.

(** ** Flags as they are written *)

(** [-name=value], [--name=value], [-name value], [--name value]. *)
Record written := mkWritten { w_double : bool; w_equals : bool; w_name : gostring; w_value : gostring }.

Definition written_args (w : written) : list gostring :=
  let dashed := (if w_double w then [45; 45] else [45]) ++ w_name w in
  if w_equals w then [dashed ++ [61] ++ w_value w] else [dashed; w_value w].

Definition name_ok (name : gostring) : Prop := match name with [] => False | c :: _ => c ≠ 45 ∧ (61 ∉ name) end.

Lemma split_value_spec name : 61 ∉ name →
  split_value name = (name, None) ∧ ∀ v, split_value (name ++ [61] ++ v) = (name, Some v).
Proof.
  induction name as [|c name IH]; intros Hn; [done|]. apply not_elem_of_cons in Hn as [Hc Hn].
  destruct (IH Hn) as [E1 E2]. cbn [app split_value]. rewrite (proj2 (Z.eqb_neq c 61)) by congruence.
  rewrite E1. split; [done|]. intros v. specialize (E2 v). cbn [app] in E2. by rewrite E2.
Qed.

Lemma classify_written w : name_ok (w_name w) →
  classify (hd [] (written_args w)) = Named (w_name w) (if w_equals w then Some (w_value w) else None).
Proof.
  destruct w as [double equals [|c name] v]; [done|]. intros [Hc Hn]. cbn [w_name] in *.
  apply not_elem_of_cons in Hn as [Hc' Hn]. destruct (split_value_spec name Hn) as [E1 E2].
  assert (∀ t, named (c :: name ++ t) = let '(n, v) := split_value (name ++ t) in Named (c :: n) v) as Hnamed.
  { intros t. unfold named. by rewrite (proj2 (Z.eqb_neq c 45)), (proj2 (Z.eqb_neq c 61)) by congruence. }
  assert (∀ t, classify ((if double then [45; 45] else [45]) ++ c :: name ++ t) = named (c :: name ++ t)) as Hcl.
  { intros t. destruct double; cbn [app classify]; [done|]. by rewrite (proj2 (Z.eqb_neq c 45)) by done. }
  destruct equals; cbn [written_args hd w_double w_equals w_name w_value].
  - rewrite <-app_assoc. cbn [app] in *. rewrite (Hcl (61 :: v)), Hnamed. cbn [app] in E2. by rewrite E2.
  - specialize (Hcl []). specialize (Hnamed []). rewrite app_nil_r in *. by rewrite Hcl, Hnamed, E1.
Qed.

(** Settings that the flags are set in. *)
Definition set_flag (fs : FlagSet) (c : go C) (w : written) : go C :=
  c ← c; match formal fs (w_name w) with Some set => set (w_value w) c | None => Panic end.

(** Flags that are known, each with a value [Set] accepts, are all set, in order; then
    come the other arguments. *)
Lemma parse_written fs ws rest : ∀ c c',
  Forall (λ w, name_ok (w_name w)) ws → foldl (set_flag fs) (Ok c) ws = Ok c' →
  parse fs (concat (written_args <$> ws) ++ rest) c = parse fs rest c'.
Proof.
  induction ws as [|w ws IH]; intros c c' Hws E; [by injection E as ->|]. apply Forall_cons in Hws as [Hw Hws].
  cbn [foldl] in E. pose proof (classify_written w Hw) as Hc.
  assert (∀ r, (∀ x, r ≠ Ok x) → foldl (set_flag fs) r ws ≠ Ok c') as Hbad.
  { clear. induction ws as [|w ws IH]; intros r Hr E; [by eapply Hr|]. cbn [foldl] in E.
    destruct r as [x|e|]; [by eapply Hr|by apply (IH (Err e)) in E|by apply (IH Panic) in E]. }
  unfold set_flag in E at 2. cbn [mbind go_bind] in E.
  destruct (formal fs (w_name w)) as [set|] eqn:Ef; [|by apply Hbad in E].
  destruct (set (w_value w) c) as [c1|e|] eqn:Es; [|by apply Hbad in E..].
  cbn [fmap list_fmap concat]. rewrite <-app_assoc. rewrite <-(IH c1 c' Hws E).
  unfold written_args in *. destruct (w_equals w); cbn [hd app parse] in *; by rewrite Hc, Ef, Es.
Qed.
End parse.
Arguments parsed : clear implicits.
