(* ===== verification/Protocol.v ===== *)
(** * The protocol core (protocol/)

    [opcodes_table.go], [errors.go], [message.go] and [frame.go]: the opcode
    table, the decode errors, the [Message] interface with its registry, the
    message codec and the TCP framing.  The core is written against an
    interface, as in the source: the concrete messages live in [KvMessages],
    [ClusterMessages] and [ClientMessages], and [Messages] ties the knot. *)

From S2P Require Import Prelude GoLang.

(** ** opcodes_table.go *)

Definition OpGet : Z := 0x01.
Definition OpSet : Z := 0x02.
Definition OpDelete : Z := 0x03.
Definition OpGetResponse : Z := 0x04.
Definition OpSetResponse : Z := 0x05.
Definition OpDeleteResponse : Z := 0x06.
Definition OpTopologyRequest : Z := 0x10.
Definition OpTopologyResponse : Z := 0x11.
Definition OpReplicationSync : Z := 0x20.
Definition OpReplicationAck : Z := 0x21.
Definition OpReplicationJoin : Z := 0x22.
Definition OpHeartbeat : Z := 0x30.
Definition OpHeartbeatAck : Z := 0x31.
Definition OpVoteRequest : Z := 0x40.
Definition OpVoteResponse : Z := 0x41.
Definition OpError : Z := 0xFE.

(** ** errors.go: sentinels and error codes *)

Definition ErrUnknownOpCode : error := ErrorString (str "protocol: unknown opcode").
Definition ErrPayloadTooShort : error := ErrorString (str "protocol: payload too short").
Definition ErrFrameTooLarge : error := ErrorString (str "protocol: frame too large").
Definition ErrMalformedMessage : error := ErrorString (str "protocol: malformed message").

Definition ErrCodeNotLeader : Z := 1.
Definition ErrCodeKeyNotFound : Z := 2.
Definition ErrCodeInternal : Z := 3.
Definition ErrCodeBadRequest : Z := 4.
Definition ErrCodeTimeout : Z := 5.

(** ** message.go: the Message interface

    [Decode m data] is the method call on a receiver [m]: it returns the
    receiver as the method leaves it. *)

Class Message (M : Type) := {
  OpCode : M → Z;
  Encode : M → go gobytes;
  Decode : M → gobytes → go M;
}.

(** What a message type promises to the core: [Encode] always produces the
    documented layout; [Decode] of that layout, whatever bytes follow it, gives
    the message back; and a cut-off layout is reported as too short. *)
Class MessageCodec (M : Type) `{Message M} := {
  wire : M → gobytes;
  wf : M → Prop;
  Encode_wire m : Encode m = Ok (wire m);
  Decode_wire m0 m rest : OpCode m0 = OpCode m → wf m → Decode m0 (wire m ++ rest) = Ok m;
  Decode_truncated m0 m n :
    OpCode m0 = OpCode m → wf m → (n < length (wire m))%nat →
    Decode m0 (take n (wire m)) = Err ErrPayloadTooShort;
  OpCode_byte m : byte_ok (OpCode m);
}.

Section core.
Context {M : Type} `{Message M}.

(** The registry: opcode to the empty message its factory makes. *)
Definition Register (opcode : Z) (factory : M) (registry : gmap Z M) : go (gmap Z M) :=
  match registry !! opcode with
  | Some _ => Panic
  | None => Ok (<[opcode := factory]> registry)
  end.

Context (registry : gmap Z M).

Definition Lookup (opcode : Z) : option M := registry !! opcode.

Definition EncodeMessage (msg : M) : go gobytes :=
  match Encode msg with
  | Err e => Err (WrapError (str "protocol: encode error for opcode 0x" ++
                             hex2 (OpCode msg) ++ str ": ") e [])
  | Panic => Panic
  | Ok payload =>
      let wire := make (1 + len payload) in
      wire ← set_index wire 0 (OpCode msg);
      copy_at wire 1 payload
  end.

Definition DecodeMessage (data : gobytes) : go M :=
  if len data <? 1 then Err ErrPayloadTooShort else
  opcode ← index data 0;
  match Lookup opcode with
  | None => Err (WrapError [] ErrUnknownOpCode (str ": 0x" ++ hex2 opcode))
  | Some msg =>
      payload ← slice_from data 1;
      match Decode msg payload with
      | Err e => Err (WrapError (str "protocol: decode error for opcode 0x" ++
                                 hex2 opcode ++ str ": ") e [])
      | r => r
      end
  end.

(** ** frame.go *)

Definition frameHeaderSize : Z := 4.

Definition EncodeFrame (msg : M) : go gobytes :=
  wire ← EncodeMessage msg;
  let frame := make (frameHeaderSize + len wire) in
  frame ← PutUint32 frame 0 (u32 (len wire));
  copy_at frame frameHeaderSize wire.

(** [w.Write(frame)] appends to what the peer will read. *)
Definition WriteFrame (w : gobytes) (msg : M) : go gobytes :=
  frame ← EncodeFrame msg; Ok (w ++ frame).

Definition ReadFrame (r : reader) (maxLen : Z) : go M * reader :=
  match ReadFull r frameHeaderSize with
  | (Ok header, r) =>
      match Uint32 header with
      | Ok msgLen =>
          if (0 <? maxLen) && (maxLen <? msgLen) then (Err ErrFrameTooLarge, r) else
          match ReadFull r msgLen with
          | (Ok body, r) =>
              (match DecodeMessage body with
               | Err e => Err (WrapErrors ErrMalformedMessage (str ": ") e)
               | res => res
               end, r)
          | (Err e, r) => (Err e, r)
          | (Panic, r) => (Panic, r)
          end
      | Err e => (Err e, r)
      | Panic => (Panic, r)
      end
  | (Err e, r) => (Err e, r)
  | (Panic, r) => (Panic, r)
  end.

(** A receive loop: decode up to [n] frames, until one fails. *)
Fixpoint ReadFrames (n : nat) (r : reader) (maxLen : Z) : list M * reader :=
  match n with
  | O => ([], r)
  | S n' =>
      match ReadFrame r maxLen with
      | (Ok m, r) => let '(ms, r) := ReadFrames n' r maxLen in (m :: ms, r)
      | (_, r) => ([], r)
      end
  end.
End core.

(** The documented wire layout of a frame. *)
Definition frame_bytes `{MessageCodec M} (m : M) : gobytes :=
  be 4 (u32 (1 + len (wire m))) ++ OpCode m :: wire m.

(** A registry whose factories make messages of the opcode they are filed under. *)
Definition registry_ok `{Message M} (registry : gmap Z M) : Prop :=
  ∀ op m, registry !! op = Some m → OpCode m = op.

(** ** Facts about the core, for any implementation of the interface *)

(** The size test of [ReadFrame]. *)
Lemma limit_ok maxLen n : maxLen = 0 ∨ n ≤ maxLen → (0 <? maxLen) && (maxLen <? n) = false.
Proof. intros [->|?]; [done|]. apply andb_false_iff. right. lia. Qed.

Section facts.
Context `{MessageCodec M} (registry : gmap Z M).

Lemma EncodeMessage_wire (m : M) : EncodeMessage m = Ok (OpCode m :: wire m).
Proof. unfold EncodeMessage. rewrite Encode_wire. enc_run. Qed.

Lemma EncodeFrame_bytes (m : M) : EncodeFrame m = Ok (frame_bytes m).
Proof.
  unfold EncodeFrame, frameHeaderSize. rewrite EncodeMessage_wire. go_bind1.
  rewrite len_cons. enc_run.
Qed.

Lemma WriteFrame_bytes w (m : M) : WriteFrame w m = Ok (w ++ frame_bytes m).
Proof. unfold WriteFrame. by rewrite EncodeFrame_bytes. Qed.

Context (Hreg : registry_ok registry).

Lemma DecodeMessage_wire (m : M) rest :
  is_Some (registry !! OpCode m) → wf m →
  DecodeMessage registry (OpCode m :: wire m ++ rest) = Ok m.
Proof.
  intros [m0 Hm0] Hwf. unfold DecodeMessage, Lookup. go_run. rewrite Hm0.
  unfold slice_from. change (OpCode m :: wire m ++ rest) with ([OpCode m] ++ (wire m ++ rest)).
  go_run. rewrite Decode_wire by eauto. done.
Qed.

Lemma DecodeMessage_truncated (m : M) n :
  is_Some (registry !! OpCode m) → wf m → (n < length (wire m))%nat →
  ∃ e, DecodeMessage registry (OpCode m :: take n (wire m)) = Err e ∧
       errors_Is e ErrPayloadTooShort = true.
Proof.
  intros [m0 Hm0] Hwf Hn. unfold DecodeMessage, Lookup. go_run. rewrite Hm0.
  unfold slice_from. change (OpCode m :: ?d) with ([OpCode m] ++ d).
  go_run. rewrite Decode_truncated by eauto.
  eauto with keva.
Qed.

Lemma ReadFrame_frame (m : M) rest e maxLen :
  is_Some (registry !! OpCode m) → wf m → 1 + len (wire m) < 2 ^ 32 →
  maxLen = 0 ∨ 1 + len (wire m) ≤ maxLen →
  ReadFrame registry (Reader (frame_bytes m ++ rest) e) maxLen = (Ok m, Reader rest e).
Proof.
  intros Hin Hwf Hlen Hmax. pose proof (len_nonneg (wire m)).
  unfold ReadFrame, frame_bytes, frameHeaderSize. rewrite <-app_assoc.
  rewrite ReadFull_app by len_lia. go_run.
  rewrite limit_ok by done.
  rewrite app_comm_cons, ReadFull_app by len_lia.
  rewrite <-(app_nil_r (wire m)), DecodeMessage_wire by done. done.
Qed.

(** A receiver gets back exactly the messages written, in order, however many. *)
Lemma ReadFrames_stream (ms : list M) rest e maxLen n :
  Forall (λ m, is_Some (registry !! OpCode m) ∧ wf m ∧ 1 + len (wire m) < 2 ^ 32 ∧
               (maxLen = 0 ∨ 1 + len (wire m) ≤ maxLen)) ms →
  n = length ms →
  ReadFrames registry n (Reader (concat (frame_bytes <$> ms) ++ rest) e) maxLen =
  (ms, Reader rest e).
Proof.
  intros Hms ->. induction Hms as [|m ms (?&?&?&?) _ IH]; [done|].
  cbn [fmap list_fmap concat length ReadFrames]. rewrite <-app_assoc.
  rewrite ReadFrame_frame by done. simpl in IH. by rewrite IH.
Qed.

(** An oversized frame is refused on its header alone. *)
Lemma ReadFrame_too_large msgLen body e maxLen :
  0 ≤ msgLen < 2 ^ 32 → 0 < maxLen < msgLen →
  ReadFrame registry (Reader (be 4 msgLen ++ body) e) maxLen =
  (Err ErrFrameTooLarge, Reader body e).
Proof.
  intros ??. unfold ReadFrame, frameHeaderSize. rewrite ReadFull_app by len_lia. go_run.
  done.
Qed.

(** A complete frame that does not decode leaves the stream at the next frame. *)
Lemma ReadFrame_malformed body rest e err maxLen :
  len body < 2 ^ 32 → maxLen = 0 ∨ len body ≤ maxLen →
  DecodeMessage registry body = Err err →
  ReadFrame registry (Reader (be 4 (len body) ++ body ++ rest) e) maxLen =
  (Err (WrapErrors ErrMalformedMessage (str ": ") err), Reader rest e).
Proof.
  intros Hlen Hmax Herr. pose proof (len_nonneg body).
  unfold ReadFrame, frameHeaderSize. rewrite ReadFull_app by len_lia. go_run.
  rewrite limit_ok by done.
  rewrite ReadFull_app by len_lia. by rewrite Herr.
Qed.
End facts.

(** ** Proving that a message type implements the interface

    An encoder is run at the frontier of its buffer; a decoder on the layout;
    a truncated layout is cut inside the fixed-size header of [h] bytes or
    after it. *)

Create HintDb keva_unfold.

Ltac codec_encode f := intros m; destruct m; simpl; unfold f; autounfold with keva_unfold; simpl; enc_run.
Ltac codec_decode f :=
  simpl in *; unfold f; autounfold with keva_unfold;
  repeat first [rewrite <-app_assoc | rewrite <-app_comm_cons]; go_run; done.
Ltac codec_truncated f n h :=
  simpl in *; unfold f; autounfold with keva_unfold;
  destruct (decide (Z.of_nat n < h)); [go_run; done | take_run; go_run; done].

(** ** errors.go: ErrorMessage *)

Record ErrorMessage := mkErrorMessage { ErrorMessage_Code : Z; ErrorMessage_Message : gostring }.

Definition ErrorMessage_init : Z * ErrorMessage := (OpError, mkErrorMessage 0 []).

Definition ErrorMessage_Encode (e : ErrorMessage) : go gobytes :=
  let msgBytes := ErrorMessage_Message e in
  let buf := make (2 + 2 + len msgBytes) in
  buf ← PutUint16 buf 0 (ErrorMessage_Code e);
  buf ← PutUint16 buf 2 (u16 (len msgBytes));
  copy_at buf 4 msgBytes.

Definition ErrorMessage_Decode (e : ErrorMessage) (data : gobytes) : go ErrorMessage :=
  if len data <? 4 then Err ErrPayloadTooShort else
  h ← data.[0 : 2]; code ← Uint16 h;
  h ← data.[2 : 4]; msgLen ← Uint16 h;
  if len data <? 4 + msgLen then Err ErrPayloadTooShort else
  msg ← data.[4 : 4 + msgLen];
  Ok (mkErrorMessage code msg).

#[export] Instance ErrorMessage_Message_inst : Message ErrorMessage :=
  { OpCode _ := OpError; Encode := ErrorMessage_Encode; Decode := ErrorMessage_Decode }.

#[export] Program Instance ErrorMessage_Codec : MessageCodec ErrorMessage := {
  wire e := be 2 (ErrorMessage_Code e) ++ be 2 (u16 (len (ErrorMessage_Message e))) ++
            ErrorMessage_Message e;
  wf e := 0 ≤ ErrorMessage_Code e < 65536 ∧ len (ErrorMessage_Message e) < 65536;
}.
Next Obligation. codec_encode ErrorMessage_Encode. Qed.
Next Obligation. intros m0 [c msg] rest _ [??]. codec_decode ErrorMessage_Decode. Qed.
Next Obligation.
  intros m0 [c msg] n _ [??] Hn%nat_lt_len. codec_truncated ErrorMessage_Decode n 4.
Qed.
Next Obligation. done. Qed.

Lemma ErrorMessage_Decode_returns m data : bytes_ok data → returns (ErrorMessage_Decode m data).
Proof. intros Hok. unfold ErrorMessage_Decode, returns. no_panic Hok. Qed.
