(* ===== verification/KvMessages.v ===== *)
(** * Client messages (protocol/kv/)

    GET, SET and DEL requests and their responses: the structs, their [Encode]
    and [Decode] methods with the bounds checks and integer conversions of the
    source, and the proof that each implements the [MessageCodec] interface.
    Offsets such as [2+keyLen] are computed at the width Go gives them: a
    [uint16] sum wraps at 65536. *)

From S2P Require Import Prelude GoLang Protocol.

(** ** get_protocol_request.go *)

Record GetRequest := mkGetRequest { GetRequest_Key : gobytes }.

Definition GetRequest_init : Z * GetRequest := (OpGet, mkGetRequest []).

Definition GetRequest_Encode (g : GetRequest) : go gobytes :=
  let keyLen := len (GetRequest_Key g) in
  let buf := make (2 + keyLen) in
  buf ← PutUint16 buf 0 (u16 keyLen);
  copy_at buf 2 (GetRequest_Key g).

Definition GetRequest_Decode (g : GetRequest) (data : gobytes) : go GetRequest :=
  if len data <? 2 then Err ErrPayloadTooShort else
  h ← data.[0 : 2]; keyLen ← Uint16 h;
  if len data <? 2 + keyLen then Err ErrPayloadTooShort else
  src ← data.[2 : u16 (2 + keyLen)];
  Ok (mkGetRequest (make_copy keyLen src)).

(** ** get_protocol_response.go *)

Record GetResponse := mkGetResponse { GetResponse_Found : bool; GetResponse_Value : gobytes }.

Definition GetResponse_init : Z * GetResponse := (OpGetResponse, mkGetResponse false []).

Definition GetResponse_Encode (g : GetResponse) : go gobytes :=
  let valLen := len (GetResponse_Value g) in
  let buf := make (1 + 4 + valLen) in
  buf ← (if GetResponse_Found g then set_index buf 0 0x01 else Ok buf);
  buf ← PutUint32 buf 1 (u32 valLen);
  copy_at buf 5 (GetResponse_Value g).

Definition GetResponse_Decode (g : GetResponse) (data : gobytes) : go GetResponse :=
  if len data <? 5 then Err ErrPayloadTooShort else
  b ← index data 0;
  h ← data.[1 : 5]; valLen ← Uint32 h;
  if len data <? 5 + valLen then Err ErrPayloadTooShort else
  src ← data.[5 : u32 (5 + valLen)];
  Ok (mkGetResponse (b =? 0x01) (make_copy valLen src)).

(** ** set_protocol_request.go *)

Definition setHeaderSize : Z := 2 + 4 + 8.

Record SetRequest := mkSetRequest {
  SetRequest_Key : gobytes; SetRequest_Value : gobytes; SetRequest_TTL : Z }.

Definition SetRequest_init : Z * SetRequest := (OpSet, mkSetRequest [] [] 0).

Definition SetRequest_Encode (s : SetRequest) : go gobytes :=
  let keyLen := len (SetRequest_Key s) in
  let valLen := len (SetRequest_Value s) in
  let buf := make (setHeaderSize + keyLen + valLen) in
  buf ← PutUint16 buf 0 (u16 keyLen);
  buf ← PutUint32 buf 2 (u32 valLen);
  buf ← PutUint64 buf 6 (SetRequest_TTL s);
  buf ← copy_at buf 14 (SetRequest_Key s);
  copy_at buf (14 + keyLen) (SetRequest_Value s).

Definition SetRequest_Decode (s : SetRequest) (data : gobytes) : go SetRequest :=
  if len data <? setHeaderSize then Err ErrPayloadTooShort else
  h ← data.[0 : 2]; keyLen ← Uint16 h;
  h ← data.[2 : 6]; valLen ← Uint32 h;
  h ← data.[6 : 14]; ttl ← Uint64 h;
  if len data <? setHeaderSize + keyLen + valLen then Err ErrPayloadTooShort else
  ksrc ← data.[14 : u16 (14 + keyLen)];
  vsrc ← data.[u16 (14 + keyLen) : 14 + keyLen + valLen];
  Ok (mkSetRequest (make_copy keyLen ksrc) (make_copy valLen vsrc) ttl).

(** ** set_protocol_response.go *)

Record SetResponse := mkSetResponse { SetResponse_Success : bool; SetResponse_Message : gostring }.

Definition SetResponse_init : Z * SetResponse := (OpSetResponse, mkSetResponse false []).

Definition SetResponse_Encode (r : SetResponse) : go gobytes :=
  let msgBytes := SetResponse_Message r in
  let buf := make (1 + 2 + len msgBytes) in
  buf ← (if SetResponse_Success r then set_index buf 0 0x01 else Ok buf);
  buf ← PutUint16 buf 1 (u16 (len msgBytes));
  copy_at buf 3 msgBytes.

Definition SetResponse_Decode (r : SetResponse) (data : gobytes) : go SetResponse :=
  if len data <? 3 then Err ErrPayloadTooShort else
  b ← index data 0;
  h ← data.[1 : 3]; msgLen ← Uint16 h;
  if len data <? 3 + msgLen then Err ErrPayloadTooShort else
  msg ← data.[3 : u16 (3 + msgLen)];
  Ok (mkSetResponse (b =? 0x01) msg).

(** ** delete_protocol_request.go *)

Record DeleteRequest := mkDeleteRequest { DeleteRequest_Key : gobytes }.

Definition DeleteRequest_init : Z * DeleteRequest := (OpDelete, mkDeleteRequest []).

Definition DeleteRequest_Encode (d : DeleteRequest) : go gobytes :=
  let keyLen := len (DeleteRequest_Key d) in
  let buf := make (2 + keyLen) in
  buf ← PutUint16 buf 0 (u16 keyLen);
  copy_at buf 2 (DeleteRequest_Key d).

Definition DeleteRequest_Decode (d : DeleteRequest) (data : gobytes) : go DeleteRequest :=
  if len data <? 2 then Err ErrPayloadTooShort else
  h ← data.[0 : 2]; keyLen ← Uint16 h;
  if len data <? 2 + keyLen then Err ErrPayloadTooShort else
  src ← data.[2 : u16 (2 + keyLen)];
  Ok (mkDeleteRequest (make_copy keyLen src)).

(** ** delete_protocol_response.go *)

Record DeleteResponse := mkDeleteResponse {
  DeleteResponse_Success : bool; DeleteResponse_Message : gostring }.

Definition DeleteResponse_init : Z * DeleteResponse := (OpDeleteResponse, mkDeleteResponse false []).

Definition DeleteResponse_Encode (r : DeleteResponse) : go gobytes :=
  let msgBytes := DeleteResponse_Message r in
  let buf := make (1 + 2 + len msgBytes) in
  buf ← (if DeleteResponse_Success r then set_index buf 0 0x01 else Ok buf);
  buf ← PutUint16 buf 1 (u16 (len msgBytes));
  copy_at buf 3 msgBytes.

Definition DeleteResponse_Decode (r : DeleteResponse) (data : gobytes) : go DeleteResponse :=
  if len data <? 3 then Err ErrPayloadTooShort else
  b ← index data 0;
  h ← data.[1 : 3]; msgLen ← Uint16 h;
  if len data <? 3 + msgLen then Err ErrPayloadTooShort else
  msg ← data.[3 : u16 (3 + msgLen)];
  Ok (mkDeleteResponse (b =? 0x01) msg).

#[export] Instance GetRequest_Message : Message GetRequest :=
  { OpCode _ := OpGet; Encode := GetRequest_Encode; Decode := GetRequest_Decode }.
#[export] Instance GetResponse_Message_inst : Message GetResponse :=
  { OpCode _ := OpGetResponse; Encode := GetResponse_Encode; Decode := GetResponse_Decode }.
#[export] Instance SetRequest_Message : Message SetRequest :=
  { OpCode _ := OpSet; Encode := SetRequest_Encode; Decode := SetRequest_Decode }.
#[export] Instance SetResponse_Message_inst : Message SetResponse :=
  { OpCode _ := OpSetResponse; Encode := SetResponse_Encode; Decode := SetResponse_Decode }.
#[export] Instance DeleteRequest_Message : Message DeleteRequest :=
  { OpCode _ := OpDelete; Encode := DeleteRequest_Encode; Decode := DeleteRequest_Decode }.
#[export] Instance DeleteResponse_Message_inst : Message DeleteResponse :=
  { OpCode _ := OpDeleteResponse; Encode := DeleteResponse_Encode; Decode := DeleteResponse_Decode }.

(** ** The interface, discharged

    The layouts are the wire formats documented in the sources.  [wf] is what
    the decoder really needs: the [uint16] sums [2+keyLen] and the like must not
    wrap, so a key or message is a few bytes shorter than 65536. *)

#[export] Hint Unfold setHeaderSize : keva_unfold.

#[export] Program Instance GetRequest_Codec : MessageCodec GetRequest := {
  wire g := be 2 (u16 (len (GetRequest_Key g))) ++ GetRequest_Key g;
  wf g := 2 + len (GetRequest_Key g) < 65536;
}.
Next Obligation. codec_encode GetRequest_Encode. Qed.
Next Obligation. intros m0 [key] rest _ Hwf. codec_decode GetRequest_Decode. Qed.
Next Obligation.
  intros m0 [key] n _ Hwf Hn%nat_lt_len. codec_truncated GetRequest_Decode n 2.
Qed.
Next Obligation. done. Qed.

#[export] Program Instance GetResponse_Codec : MessageCodec GetResponse := {
  wire g := [Z.b2z (GetResponse_Found g)] ++ be 4 (u32 (len (GetResponse_Value g))) ++
            GetResponse_Value g;
  wf g := 5 + len (GetResponse_Value g) < 2 ^ 32;
}.
Next Obligation. codec_encode GetResponse_Encode. Qed.
Next Obligation. intros m0 [f v] rest _ Hwf. codec_decode GetResponse_Decode. Qed.
Next Obligation.
  intros m0 [f v] n _ Hwf Hn%nat_lt_len. codec_truncated GetResponse_Decode n 5.
Qed.
Next Obligation. done. Qed.

#[export] Program Instance SetRequest_Codec : MessageCodec SetRequest := {
  wire s := be 2 (u16 (len (SetRequest_Key s))) ++ be 4 (u32 (len (SetRequest_Value s))) ++
            be 8 (SetRequest_TTL s) ++ SetRequest_Key s ++ SetRequest_Value s;
  wf s := 14 + len (SetRequest_Key s) < 65536 ∧ len (SetRequest_Value s) < 2 ^ 32 ∧
          0 ≤ SetRequest_TTL s < 2 ^ 64;
}.
Next Obligation. codec_encode SetRequest_Encode. Qed.
Next Obligation. intros m0 [k v t] rest _ (?&?&?). codec_decode SetRequest_Decode. Qed.
Next Obligation.
  intros m0 [k v t] n _ (?&?&?) Hn%nat_lt_len. codec_truncated SetRequest_Decode n 14.
Qed.
Next Obligation. done. Qed.

#[export] Program Instance SetResponse_Codec : MessageCodec SetResponse := {
  wire r := [Z.b2z (SetResponse_Success r)] ++ be 2 (u16 (len (SetResponse_Message r))) ++
            SetResponse_Message r;
  wf r := 3 + len (SetResponse_Message r) < 65536;
}.
Next Obligation. codec_encode SetResponse_Encode. Qed.
Next Obligation. intros m0 [s msg] rest _ Hwf. codec_decode SetResponse_Decode. Qed.
Next Obligation.
  intros m0 [s msg] n _ Hwf Hn%nat_lt_len. codec_truncated SetResponse_Decode n 3.
Qed.
Next Obligation. done. Qed.

#[export] Program Instance DeleteRequest_Codec : MessageCodec DeleteRequest := {
  wire d := be 2 (u16 (len (DeleteRequest_Key d))) ++ DeleteRequest_Key d;
  wf d := 2 + len (DeleteRequest_Key d) < 65536;
}.
Next Obligation. codec_encode DeleteRequest_Encode. Qed.
Next Obligation. intros m0 [key] rest _ Hwf. codec_decode DeleteRequest_Decode. Qed.
Next Obligation.
  intros m0 [key] n _ Hwf Hn%nat_lt_len. codec_truncated DeleteRequest_Decode n 2.
Qed.
Next Obligation. done. Qed.

#[export] Program Instance DeleteResponse_Codec : MessageCodec DeleteResponse := {
  wire r := [Z.b2z (DeleteResponse_Success r)] ++ be 2 (u16 (len (DeleteResponse_Message r))) ++
            DeleteResponse_Message r;
  wf r := 3 + len (DeleteResponse_Message r) < 65536;
}.
Next Obligation. codec_encode DeleteResponse_Encode. Qed.
Next Obligation. intros m0 [s msg] rest _ Hwf. codec_decode DeleteResponse_Decode. Qed.
Next Obligation.
  intros m0 [s msg] n _ Hwf Hn%nat_lt_len. codec_truncated DeleteResponse_Decode n 3.
Qed.
Next Obligation. done. Qed.

(** ** When a decoder panics

    The second slice bound of these decoders is a [uint16] (or [uint32]) sum
    that can wrap to a value below the first one. *)

Lemma slice_wrap w data lo n :
  0 ≤ lo < 2 ^ w → 0 ≤ n < 2 ^ w → lo + n ≤ len data →
  2 ^ w ≤ lo + n ∧ slice data lo ((lo + n) `mod` 2 ^ w) = Panic ∨
  lo + n < 2 ^ w ∧ ∃ s, slice data lo ((lo + n) `mod` 2 ^ w) = Ok s.
Proof.
  intros Hlo Hn Hlen. destruct (decide (2 ^ w ≤ lo + n)); [left|right]; (split; [lia|]).
  - apply slice_panic_iff. right. left.
    rewrite <-(Z.mod_unique _ _ 1 (lo + n - 2 ^ w)); lia.
  - rewrite Z.mod_small by lia. destruct (slice_ok data lo (lo + n)) as (s & ? & _); eauto; lia.
Qed.

Lemma GetRequest_Decode_panic m data :
  bytes_ok data →
  GetRequest_Decode m data = Panic ↔
  2 ≤ len data ∧ 65534 ≤ field 2 data 0 ∧ 2 + field 2 data 0 ≤ len data.
Proof.
  intros Hok. pose proof (field_range 2 data 0 Hok). unfold GetRequest_Decode.
  destruct (len data <? 2) eqn:E1; [split; [done|lia]|]. rewrite read_field_bind by lia.
  destruct (len data <? 2 + field 2 data 0) eqn:E2; [split; [done|lia]|].
  destruct (slice_wrap 16 data 2 (field 2 data 0)) as [[? E]|[? [s E]]]; [lia..| |];
    unfold u16; rewrite E; split; (done || lia).
Qed.

Lemma DeleteRequest_Decode_panic m data :
  bytes_ok data →
  DeleteRequest_Decode m data = Panic ↔
  2 ≤ len data ∧ 65534 ≤ field 2 data 0 ∧ 2 + field 2 data 0 ≤ len data.
Proof.
  intros Hok. pose proof (field_range 2 data 0 Hok). unfold DeleteRequest_Decode.
  destruct (len data <? 2) eqn:E1; [split; [done|lia]|]. rewrite read_field_bind by lia.
  destruct (len data <? 2 + field 2 data 0) eqn:E2; [split; [done|lia]|].
  destruct (slice_wrap 16 data 2 (field 2 data 0)) as [[? E]|[? [s E]]]; [lia..| |];
    unfold u16; rewrite E; split; (done || lia).
Qed.

Lemma SetResponse_Decode_panic m data :
  bytes_ok data →
  SetResponse_Decode m data = Panic ↔
  3 ≤ len data ∧ 65533 ≤ field 2 data 1 ∧ 3 + field 2 data 1 ≤ len data.
Proof.
  intros Hok. pose proof (field_range 2 data 1 Hok). unfold SetResponse_Decode.
  destruct (len data <? 3) eqn:E1; [split; [done|lia]|].
  destruct (index_bounds data 0) as (b & -> & _); [lia|]. go_bind1. rewrite read_field_bind by lia.
  destruct (len data <? 3 + field 2 data 1) eqn:E2; [split; [done|lia]|].
  destruct (slice_wrap 16 data 3 (field 2 data 1)) as [[? E]|[? [s E]]]; [lia..| |];
    unfold u16; rewrite E; split; (done || lia).
Qed.

Lemma DeleteResponse_Decode_panic m data :
  bytes_ok data →
  DeleteResponse_Decode m data = Panic ↔
  3 ≤ len data ∧ 65533 ≤ field 2 data 1 ∧ 3 + field 2 data 1 ≤ len data.
Proof.
  intros Hok. pose proof (field_range 2 data 1 Hok). unfold DeleteResponse_Decode.
  destruct (len data <? 3) eqn:E1; [split; [done|lia]|].
  destruct (index_bounds data 0) as (b & -> & _); [lia|]. go_bind1. rewrite read_field_bind by lia.
  destruct (len data <? 3 + field 2 data 1) eqn:E2; [split; [done|lia]|].
  destruct (slice_wrap 16 data 3 (field 2 data 1)) as [[? E]|[? [s E]]]; [lia..| |];
    unfold u16; rewrite E; split; (done || lia).
Qed.

Lemma GetResponse_Decode_panic m data :
  bytes_ok data →
  GetResponse_Decode m data = Panic ↔
  5 ≤ len data ∧ 2 ^ 32 - 5 ≤ field 4 data 1 ∧ 5 + field 4 data 1 ≤ len data.
Proof.
  intros Hok. pose proof (field_range 4 data 1 Hok). unfold GetResponse_Decode.
  destruct (len data <? 5) eqn:E1; [split; [done|lia]|].
  destruct (index_bounds data 0) as (b & -> & _); [lia|]. go_bind1. rewrite read_field_bind by lia.
  destruct (len data <? 5 + field 4 data 1) eqn:E2; [split; [done|lia]|].
  destruct (slice_wrap 32 data 5 (field 4 data 1)) as [[? E]|[? [s E]]]; [lia..| |];
    unfold u32; rewrite E; split; (done || lia).
Qed.

Lemma SetRequest_Decode_panic m data :
  bytes_ok data →
  SetRequest_Decode m data = Panic ↔
  14 ≤ len data ∧ 65522 ≤ field 2 data 0 ∧ 14 + field 2 data 0 + field 4 data 2 ≤ len data.
Proof.
  intros Hok. pose proof (field_range 2 data 0 Hok). pose proof (field_range 4 data 2 Hok).
  unfold SetRequest_Decode, setHeaderSize.
  destruct (len data <? 2 + 4 + 8) eqn:E1; [split; [done|lia]|]. rewrite !read_field_bind by lia.
  destruct (len data <? 2 + 4 + 8 + _ + _) eqn:E2; [split; [done|lia]|].
  destruct (slice_wrap 16 data 14 (field 2 data 0)) as [[? E]|[? [s E]]]; [lia..| |];
    unfold u16; rewrite E; [split; (done || lia)|].
  go_bind1. rewrite Z.mod_small by lia.
  destruct (slice_ok data (14 + field 2 data 0) (14 + field 2 data 0 + field 4 data 2))
    as (v & -> & _); [lia..|].
  split; [done|lia].
Qed.
