(* ===== verification/ClusterMessages.v ===== *)
(** * Node-to-node messages (protocol/cluster/)

    Heartbeats, votes and replication: structs, [Encode]/[Decode] and the
    [MessageCodec] instances.  These decoders convert lengths to [int] before
    they add, so their offsets do not wrap. *)

From S2P Require Import Prelude GoLang Protocol.

(** ** heartbeat_protocol_request.go *)

Record Heartbeat := mkHeartbeat { Heartbeat_Term : Z; Heartbeat_LeaderID : gostring }.

Definition Heartbeat_init : Z * Heartbeat := (OpHeartbeat, mkHeartbeat 0 []).

Definition Heartbeat_Encode (h : Heartbeat) : go gobytes :=
  let idBytes := Heartbeat_LeaderID h in
  let buf := make (8 + 2 + len idBytes) in
  buf ← PutUint64 buf 0 (Heartbeat_Term h);
  buf ← PutUint16 buf 8 (u16 (len idBytes));
  copy_at buf 10 idBytes.

Definition Heartbeat_Decode (h : Heartbeat) (data : gobytes) : go Heartbeat :=
  if len data <? 10 then Err ErrPayloadTooShort else
  s ← data.[0 : 8]; term ← Uint64 s;
  s ← data.[8 : 10]; idLen ← Uint16 s;
  if len data <? 10 + idLen then Err ErrPayloadTooShort else
  id ← data.[10 : 10 + idLen];
  Ok (mkHeartbeat term id).

(** ** heartbeat_protocol_response.go *)

Record HeartbeatAck := mkHeartbeatAck { HeartbeatAck_Term : Z; HeartbeatAck_LastAppliedIndex : Z }.

Definition HeartbeatAck_init : Z * HeartbeatAck := (OpHeartbeatAck, mkHeartbeatAck 0 0).

Definition HeartbeatAck_Encode (h : HeartbeatAck) : go gobytes :=
  let buf := make 16 in
  buf ← PutUint64 buf 0 (HeartbeatAck_Term h);
  PutUint64 buf 8 (HeartbeatAck_LastAppliedIndex h).

Definition HeartbeatAck_Decode (h : HeartbeatAck) (data : gobytes) : go HeartbeatAck :=
  if len data <? 16 then Err ErrPayloadTooShort else
  s ← data.[0 : 8]; term ← Uint64 s;
  s ← data.[8 : 16]; idx ← Uint64 s;
  Ok (mkHeartbeatAck term idx).

(** ** vote_protocol_request.go *)

Record VoteRequest := mkVoteRequest {
  VoteRequest_Term : Z; VoteRequest_CandidateID : gostring; VoteRequest_LastLogIndex : Z }.

Definition VoteRequest_init : Z * VoteRequest := (OpVoteRequest, mkVoteRequest 0 [] 0).

Definition VoteRequest_Encode (v : VoteRequest) : go gobytes :=
  let idBytes := VoteRequest_CandidateID v in
  let buf := make (8 + 2 + len idBytes + 8) in
  buf ← PutUint64 buf 0 (VoteRequest_Term v);
  buf ← PutUint16 buf 8 (u16 (len idBytes));
  buf ← copy_at buf 10 idBytes;
  PutUint64 buf (10 + len idBytes) (VoteRequest_LastLogIndex v).

Definition VoteRequest_Decode (v : VoteRequest) (data : gobytes) : go VoteRequest :=
  if len data <? 10 then Err ErrPayloadTooShort else
  s ← data.[0 : 8]; term ← Uint64 s;
  s ← data.[8 : 10]; idLen ← Uint16 s;
  if len data <? 10 + idLen + 8 then Err ErrPayloadTooShort else
  id ← data.[10 : 10 + idLen];
  s ← data.[10 + idLen : 18 + idLen]; idx ← Uint64 s;
  Ok (mkVoteRequest term id idx).

(** ** vote_protocol_response.go *)

Record VoteResponse := mkVoteResponse { VoteResponse_Term : Z; VoteResponse_Granted : bool }.

Definition VoteResponse_init : Z * VoteResponse := (OpVoteResponse, mkVoteResponse 0 false).

Definition VoteResponse_Encode (v : VoteResponse) : go gobytes :=
  let buf := make 9 in
  buf ← PutUint64 buf 0 (VoteResponse_Term v);
  if VoteResponse_Granted v then set_index buf 8 0x01 else Ok buf.

Definition VoteResponse_Decode (v : VoteResponse) (data : gobytes) : go VoteResponse :=
  if len data <? 9 then Err ErrPayloadTooShort else
  s ← data.[0 : 8]; term ← Uint64 s;
  b ← index data 8;
  Ok (mkVoteResponse term (b =? 0x01)).

(** ** replication_join_protocol_request.go *)

Record ReplicationJoin := mkReplicationJoin { ReplicationJoin_NodeAddr : gostring }.

Definition ReplicationJoin_init : Z * ReplicationJoin := (OpReplicationJoin, mkReplicationJoin []).

Definition ReplicationJoin_Encode (r : ReplicationJoin) : go gobytes :=
  let addrBytes := ReplicationJoin_NodeAddr r in
  let buf := make (2 + len addrBytes) in
  buf ← PutUint16 buf 0 (u16 (len addrBytes));
  copy_at buf 2 addrBytes.

Definition ReplicationJoin_Decode (r : ReplicationJoin) (data : gobytes) : go ReplicationJoin :=
  if len data <? 2 then Err ErrPayloadTooShort else
  s ← data.[0 : 2]; addrLen ← Uint16 s;
  if len data <? 2 + addrLen then Err ErrPayloadTooShort else
  addr ← data.[2 : 2 + addrLen];
  Ok (mkReplicationJoin addr).

(** ** replication_sync_protocol_request.go *)

Definition replicationSyncHeaderSize : Z := 8 + 1 + 2 + 4 + 8.

Record ReplicationSync := mkReplicationSync {
  ReplicationSync_LogIndex : Z;
  ReplicationSync_Op : Z;
  ReplicationSync_Key : gobytes;
  ReplicationSync_Value : gobytes;
  ReplicationSync_ExpiresAt : Z }.

Definition ReplicationSync_init : Z * ReplicationSync := (OpReplicationSync, mkReplicationSync 0 0 [] [] 0).

Definition ReplicationSync_Encode (r : ReplicationSync) : go gobytes :=
  let keyLen := len (ReplicationSync_Key r) in
  let valLen := len (ReplicationSync_Value r) in
  let buf := make (replicationSyncHeaderSize + keyLen + valLen) in
  buf ← PutUint64 buf 0 (ReplicationSync_LogIndex r);
  buf ← set_index buf 8 (ReplicationSync_Op r);
  buf ← PutUint16 buf 9 (u16 keyLen);
  buf ← PutUint32 buf 11 (u32 valLen);
  buf ← PutUint64 buf 15 (ReplicationSync_ExpiresAt r);
  buf ← copy_at buf 23 (ReplicationSync_Key r);
  copy_at buf (23 + keyLen) (ReplicationSync_Value r).

Definition ReplicationSync_Decode (r : ReplicationSync) (data : gobytes) : go ReplicationSync :=
  if len data <? replicationSyncHeaderSize then Err ErrPayloadTooShort else
  s ← data.[0 : 8]; logIndex ← Uint64 s;
  op ← index data 8;
  s ← data.[9 : 11]; keyLen ← Uint16 s;
  s ← data.[11 : 15]; valLen ← Uint32 s;
  s ← data.[15 : 23]; expiresAt ← Uint64 s;
  if len data <? replicationSyncHeaderSize + keyLen + valLen then Err ErrPayloadTooShort else
  ksrc ← data.[23 : 23 + keyLen];
  vsrc ← data.[23 + keyLen : 23 + keyLen + valLen];
  Ok (mkReplicationSync logIndex op (make_copy keyLen ksrc) (make_copy valLen vsrc) expiresAt).

(** ** replication_sync_protocol_response.go *)

Record ReplicationAck := mkReplicationAck { ReplicationAck_LastAppliedIndex : Z }.

Definition ReplicationAck_init : Z * ReplicationAck := (OpReplicationAck, mkReplicationAck 0).

Definition ReplicationAck_Encode (r : ReplicationAck) : go gobytes :=
  let buf := make 8 in
  PutUint64 buf 0 (ReplicationAck_LastAppliedIndex r).

Definition ReplicationAck_Decode (r : ReplicationAck) (data : gobytes) : go ReplicationAck :=
  if len data <? 8 then Err ErrPayloadTooShort else
  s ← data.[0 : 8]; idx ← Uint64 s;
  Ok (mkReplicationAck idx).

#[export] Instance Heartbeat_Message : Message Heartbeat :=
  { OpCode _ := OpHeartbeat; Encode := Heartbeat_Encode; Decode := Heartbeat_Decode }.
#[export] Instance HeartbeatAck_Message : Message HeartbeatAck :=
  { OpCode _ := OpHeartbeatAck; Encode := HeartbeatAck_Encode; Decode := HeartbeatAck_Decode }.
#[export] Instance VoteRequest_Message : Message VoteRequest :=
  { OpCode _ := OpVoteRequest; Encode := VoteRequest_Encode; Decode := VoteRequest_Decode }.
#[export] Instance VoteResponse_Message : Message VoteResponse :=
  { OpCode _ := OpVoteResponse; Encode := VoteResponse_Encode; Decode := VoteResponse_Decode }.
#[export] Instance ReplicationJoin_Message : Message ReplicationJoin :=
  { OpCode _ := OpReplicationJoin; Encode := ReplicationJoin_Encode; Decode := ReplicationJoin_Decode }.
#[export] Instance ReplicationSync_Message : Message ReplicationSync :=
  { OpCode _ := OpReplicationSync; Encode := ReplicationSync_Encode; Decode := ReplicationSync_Decode }.
#[export] Instance ReplicationAck_Message : Message ReplicationAck :=
  { OpCode _ := OpReplicationAck; Encode := ReplicationAck_Encode; Decode := ReplicationAck_Decode }.

(** ** The interface, discharged *)

#[export] Hint Unfold replicationSyncHeaderSize : keva_unfold.

#[export] Program Instance Heartbeat_Codec : MessageCodec Heartbeat := {
  wire h := be 8 (Heartbeat_Term h) ++ be 2 (u16 (len (Heartbeat_LeaderID h))) ++ Heartbeat_LeaderID h;
  wf h := 0 ≤ Heartbeat_Term h < 2 ^ 64 ∧ len (Heartbeat_LeaderID h) < 65536;
}.
Next Obligation. codec_encode Heartbeat_Encode. Qed.
Next Obligation. intros m0 [t id] rest _ [??]. codec_decode Heartbeat_Decode. Qed.
Next Obligation. intros m0 [t id] n _ [??] Hn%nat_lt_len. codec_truncated Heartbeat_Decode n 10. Qed.
Next Obligation. done. Qed.

#[export] Program Instance HeartbeatAck_Codec : MessageCodec HeartbeatAck := {
  wire h := be 8 (HeartbeatAck_Term h) ++ be 8 (HeartbeatAck_LastAppliedIndex h);
  wf h := 0 ≤ HeartbeatAck_Term h < 2 ^ 64 ∧ 0 ≤ HeartbeatAck_LastAppliedIndex h < 2 ^ 64;
}.
Next Obligation. codec_encode HeartbeatAck_Encode. Qed.
Next Obligation. intros m0 [t i] rest _ [??]. codec_decode HeartbeatAck_Decode. Qed.
Next Obligation. intros m0 [t i] n _ [??] Hn%nat_lt_len. codec_truncated HeartbeatAck_Decode n 16. Qed.
Next Obligation. done. Qed.

#[export] Program Instance VoteRequest_Codec : MessageCodec VoteRequest := {
  wire v := be 8 (VoteRequest_Term v) ++ be 2 (u16 (len (VoteRequest_CandidateID v))) ++
            VoteRequest_CandidateID v ++ be 8 (VoteRequest_LastLogIndex v);
  wf v := 0 ≤ VoteRequest_Term v < 2 ^ 64 ∧ len (VoteRequest_CandidateID v) < 65536 ∧
          0 ≤ VoteRequest_LastLogIndex v < 2 ^ 64;
}.
Next Obligation. codec_encode VoteRequest_Encode. Qed.
Next Obligation. intros m0 [t id i] rest _ (?&?&?). codec_decode VoteRequest_Decode. Qed.
Next Obligation. intros m0 [t id i] n _ (?&?&?) Hn%nat_lt_len. codec_truncated VoteRequest_Decode n 10. Qed.
Next Obligation. done. Qed.

#[export] Program Instance VoteResponse_Codec : MessageCodec VoteResponse := {
  wire v := be 8 (VoteResponse_Term v) ++ [Z.b2z (VoteResponse_Granted v)];
  wf v := 0 ≤ VoteResponse_Term v < 2 ^ 64;
}.
Next Obligation. codec_encode VoteResponse_Encode. Qed.
Next Obligation. intros m0 [t g] rest _ ?. codec_decode VoteResponse_Decode. Qed.
Next Obligation. intros m0 [t g] n _ ? Hn%nat_lt_len. codec_truncated VoteResponse_Decode n 9. Qed.
Next Obligation. done. Qed.

#[export] Program Instance ReplicationJoin_Codec : MessageCodec ReplicationJoin := {
  wire r := be 2 (u16 (len (ReplicationJoin_NodeAddr r))) ++ ReplicationJoin_NodeAddr r;
  wf r := len (ReplicationJoin_NodeAddr r) < 65536;
}.
Next Obligation. codec_encode ReplicationJoin_Encode. Qed.
Next Obligation. intros m0 [a] rest _ ?. codec_decode ReplicationJoin_Decode. Qed.
Next Obligation. intros m0 [a] n _ ? Hn%nat_lt_len. codec_truncated ReplicationJoin_Decode n 2. Qed.
Next Obligation. done. Qed.

#[export] Program Instance ReplicationSync_Codec : MessageCodec ReplicationSync := {
  wire r := be 8 (ReplicationSync_LogIndex r) ++ [ReplicationSync_Op r] ++
            be 2 (u16 (len (ReplicationSync_Key r))) ++ be 4 (u32 (len (ReplicationSync_Value r))) ++
            be 8 (ReplicationSync_ExpiresAt r) ++ ReplicationSync_Key r ++ ReplicationSync_Value r;
  wf r := 0 ≤ ReplicationSync_LogIndex r < 2 ^ 64 ∧ len (ReplicationSync_Key r) < 65536 ∧
          len (ReplicationSync_Value r) < 2 ^ 32 ∧ 0 ≤ ReplicationSync_ExpiresAt r < 2 ^ 64;
}.
Next Obligation. codec_encode ReplicationSync_Encode. Qed.
Next Obligation. intros m0 [i o k v x] rest _ (?&?&?&?). codec_decode ReplicationSync_Decode. Qed.
Next Obligation.
  intros m0 [i o k v x] n _ (?&?&?&?) Hn%nat_lt_len. codec_truncated ReplicationSync_Decode n 23.
Qed.
Next Obligation. done. Qed.

#[export] Program Instance ReplicationAck_Codec : MessageCodec ReplicationAck := {
  wire r := be 8 (ReplicationAck_LastAppliedIndex r);
  wf r := 0 ≤ ReplicationAck_LastAppliedIndex r < 2 ^ 64;
}.
Next Obligation. codec_encode ReplicationAck_Encode. Qed.
Next Obligation. intros m0 [i] rest _ ?. codec_decode ReplicationAck_Decode. Qed.
Next Obligation. intros m0 [i] n _ ? Hn%nat_lt_len. codec_truncated ReplicationAck_Decode n 8. Qed.
Next Obligation. done. Qed.

(** ** No input makes these decoders panic *)

Lemma Heartbeat_Decode_returns m data : bytes_ok data → returns (Heartbeat_Decode m data).
Proof. intros Hok. unfold Heartbeat_Decode, returns. no_panic Hok. Qed.

Lemma HeartbeatAck_Decode_returns m data : bytes_ok data → returns (HeartbeatAck_Decode m data).
Proof. intros Hok. unfold HeartbeatAck_Decode, returns. no_panic Hok. Qed.

Lemma VoteRequest_Decode_returns m data : bytes_ok data → returns (VoteRequest_Decode m data).
Proof. intros Hok. unfold VoteRequest_Decode, returns. no_panic Hok. Qed.

Lemma VoteResponse_Decode_returns m data : bytes_ok data → returns (VoteResponse_Decode m data).
Proof. intros Hok. unfold VoteResponse_Decode, returns. no_panic Hok. Qed.

Lemma ReplicationJoin_Decode_returns m data : bytes_ok data → returns (ReplicationJoin_Decode m data).
Proof. intros Hok. unfold ReplicationJoin_Decode, returns. no_panic Hok. Qed.

Lemma ReplicationSync_Decode_returns m data : bytes_ok data → returns (ReplicationSync_Decode m data).
Proof. intros Hok. unfold ReplicationSync_Decode, replicationSyncHeaderSize, returns. no_panic Hok. Qed.

Lemma ReplicationAck_Decode_returns m data : bytes_ok data → returns (ReplicationAck_Decode m data).
Proof. intros Hok. unfold ReplicationAck_Decode, returns. no_panic Hok. Qed.
