(* ===== verification/ClientMessages.v ===== *)
(** * Topology discovery (protocol/client/)

    [TopologyRequest] has an empty payload; [TopologyResponse] carries a list of
    nodes, encoded and decoded by loops over a running offset. *)

From S2P Require Import Prelude GoLang Protocol.

(** ** topology_protocol_request.go *)

Record TopologyRequest := mkTopologyRequest { }.

Definition TopologyRequest_init : Z * TopologyRequest := (OpTopologyRequest, mkTopologyRequest).

Definition TopologyRequest_Encode (t : TopologyRequest) : go gobytes := Ok [].
Definition TopologyRequest_Decode (t : TopologyRequest) (data : gobytes) : go TopologyRequest := Ok t.

(** ** topology_protocol_response.go *)

Definition TopologyRoleFollower : Z := 0x00.
Definition TopologyRoleLeader : Z := 0x01.

Record NodeInfo := mkNodeInfo {
  NodeInfo_Address : gostring; NodeInfo_Role : Z; NodeInfo_NodeID : gostring }.

Record TopologyResponse := mkTopologyResponse {
  TopologyResponse_LeaderAddr : gostring; TopologyResponse_Nodes : list NodeInfo }.

Definition TopologyResponse_init : Z * TopologyResponse := (OpTopologyResponse, mkTopologyResponse [] []).

Definition node_size (n : NodeInfo) : Z :=
  2 + len (NodeInfo_Address n) + 1 + 2 + len (NodeInfo_NodeID n).

(** One turn of the loop that writes the nodes: the buffer and the offset. *)
Definition encode_node (st : gobytes * Z) (n : NodeInfo) : go (gobytes * Z) :=
  let '(buf, offset) := st in
  let addrBytes := NodeInfo_Address n in
  let idBytes := NodeInfo_NodeID n in
  buf ← PutUint16 buf offset (u16 (len addrBytes));
  let offset := offset + 2 in
  buf ← copy_at buf offset addrBytes;
  let offset := offset + len addrBytes in
  buf ← set_index buf offset (NodeInfo_Role n);
  let offset := offset + 1 in
  buf ← PutUint16 buf offset (u16 (len idBytes));
  let offset := offset + 2 in
  buf ← copy_at buf offset idBytes;
  Ok (buf, offset + len idBytes).

Definition TopologyResponse_Encode (t : TopologyResponse) : go gobytes :=
  let leaderBytes := TopologyResponse_LeaderAddr t in
  let size := foldl (λ size n, size + node_size n) (2 + len leaderBytes + 2)
                    (TopologyResponse_Nodes t) in
  let buf := make size in
  let offset := 0 in
  buf ← PutUint16 buf offset (u16 (len leaderBytes));
  let offset := offset + 2 in
  buf ← copy_at buf offset leaderBytes;
  let offset := offset + len leaderBytes in
  buf ← PutUint16 buf offset (u16 (len (TopologyResponse_Nodes t)));
  let offset := offset + 2 in
  st ← go_foldl encode_node (buf, offset) (TopologyResponse_Nodes t);
  Ok (st.1).

(** One turn of the loop that reads the nodes. *)
Definition decode_node (data : gobytes) (offset : Z) : go (NodeInfo * Z) :=
  if len data <? offset + 2 then Err ErrPayloadTooShort else
  s ← data.[offset : offset + 2]; addrLen ← Uint16 s;
  let offset := offset + 2 in
  if len data <? offset + addrLen then Err ErrPayloadTooShort else
  addr ← data.[offset : offset + addrLen];
  let offset := offset + addrLen in
  if len data <? offset + 1 then Err ErrPayloadTooShort else
  role ← index data offset;
  let offset := offset + 1 in
  if len data <? offset + 2 then Err ErrPayloadTooShort else
  s ← data.[offset : offset + 2]; idLen ← Uint16 s;
  let offset := offset + 2 in
  if len data <? offset + idLen then Err ErrPayloadTooShort else
  nodeID ← data.[offset : offset + idLen];
  Ok (mkNodeInfo addr role nodeID, offset + idLen).

(** [for i := 0; i < nodeCount; i++] *)
Fixpoint decode_nodes (count : nat) (data : gobytes) (offset : Z) : go (list NodeInfo) :=
  match count with
  | O => Ok []
  | S count' =>
      r ← decode_node data offset;
      ns ← decode_nodes count' data r.2;
      Ok (r.1 :: ns)
  end.

Definition TopologyResponse_Decode (t : TopologyResponse) (data : gobytes) : go TopologyResponse :=
  if len data <? 4 then Err ErrPayloadTooShort else
  let offset := 0 in
  s ← data.[offset : offset + 2]; leaderLen ← Uint16 s;
  let offset := offset + 2 in
  if len data <? offset + leaderLen then Err ErrPayloadTooShort else
  leader ← data.[offset : offset + leaderLen];
  let offset := offset + leaderLen in
  if len data <? offset + 2 then Err ErrPayloadTooShort else
  s ← data.[offset : offset + 2]; nodeCount ← Uint16 s;
  let offset := offset + 2 in
  nodes ← decode_nodes (Z.to_nat nodeCount) data offset;
  Ok (mkTopologyResponse leader nodes).

#[export] Instance TopologyRequest_Message : Message TopologyRequest :=
  { OpCode _ := OpTopologyRequest; Encode := TopologyRequest_Encode; Decode := TopologyRequest_Decode }.
#[export] Instance TopologyResponse_Message : Message TopologyResponse :=
  { OpCode _ := OpTopologyResponse; Encode := TopologyResponse_Encode; Decode := TopologyResponse_Decode }.

(** ** The interface, discharged *)

#[export] Program Instance TopologyRequest_Codec : MessageCodec TopologyRequest := {
  wire t := [];
  wf t := True;
}.
Next Obligation. done. Qed.
Next Obligation. by intros [] []. Qed.
Next Obligation. intros m0 m n _ _ Hn. simpl in Hn. lia. Qed.
Next Obligation. done. Qed.

Definition node_wire (n : NodeInfo) : gobytes :=
  be 2 (u16 (len (NodeInfo_Address n))) ++ NodeInfo_Address n ++ [NodeInfo_Role n] ++
  be 2 (u16 (len (NodeInfo_NodeID n))) ++ NodeInfo_NodeID n.

Definition node_wf (n : NodeInfo) : Prop :=
  len (NodeInfo_Address n) < 65536 ∧ len (NodeInfo_NodeID n) < 65536.

Definition nodes_wire (ns : list NodeInfo) : gobytes := concat (node_wire <$> ns).

Lemma len_node_wire n : len (node_wire n) = node_size n.
Proof. unfold node_wire, node_size. len_lia. Qed.
#[export] Hint Rewrite len_node_wire : len.

Lemma node_size_pos n : 5 ≤ node_size n.
Proof. unfold node_size. len_lia. Qed.

Lemma nodes_wire_cons n ns : nodes_wire (n :: ns) = node_wire n ++ nodes_wire ns.
Proof. done. Qed.

Lemma nodes_size_foldl ns : ∀ z, foldl (λ size n, size + node_size n) z ns = z + len (nodes_wire ns).
Proof.
  induction ns as [|n ns IH]; intros z; [change (nodes_wire []) with (@nil Z); cbn [foldl]; len_lia|].
  cbn [foldl]. rewrite IH, nodes_wire_cons. len_lia.
Qed.

Lemma encode_node_frontier pre r n :
  node_size n ≤ r →
  encode_node (pre ++ make r, len pre) n =
  Ok ((pre ++ node_wire n) ++ make (r - node_size n), len (pre ++ node_wire n)).
Proof.
  unfold node_size. intros Hr. unfold encode_node. repeat enc_step.
  apply (f_equal Ok), pair_equal_spec. unfold node_wire. split; [|len_lia].
  rewrite <-!app_assoc. repeat apply (f_equal2 app); try done. f_equal. lia.
Qed.

Lemma encode_nodes_frontier ns : ∀ pre r,
  len (nodes_wire ns) ≤ r →
  go_foldl encode_node (pre ++ make r, len pre) ns =
  Ok ((pre ++ nodes_wire ns) ++ make (r - len (nodes_wire ns)), len (pre ++ nodes_wire ns)).
Proof.
  induction ns as [|n ns IH]; intros pre r Hr.
  { change (nodes_wire []) with (@nil Z). by rewrite len_nil, app_nil_r, Z.sub_0_r. }
  rewrite nodes_wire_cons in *. cbn [go_foldl].
  pose proof (node_size_pos n). pose proof (len_nonneg (nodes_wire ns)).
  rewrite encode_node_frontier by len_lia. go_bind1.
  rewrite IH by len_lia. apply (f_equal Ok), pair_equal_spec.
  rewrite <-!app_assoc. split; [|done].
  repeat apply (f_equal2 app); try done. f_equal. len_lia.
Qed.

Lemma decode_node_here pre n rest off :
  node_wf n → off = len pre →
  decode_node (pre ++ node_wire n ++ rest) off = Ok (n, off + node_size n).
Proof.
  intros [??] ->. unfold node_wire. destruct n as [a r i]; simpl in *.
  repeat first [rewrite <-app_assoc | rewrite <-app_comm_cons].
  unfold decode_node. go_run.
  apply (f_equal Ok), pair_equal_spec. split; [done|]. unfold node_size. simpl. len_lia.
Qed.

Lemma decode_nodes_here ns : ∀ pre rest off,
  Forall node_wf ns → off = len pre →
  decode_nodes (length ns) (pre ++ nodes_wire ns ++ rest) off = Ok ns.
Proof.
  induction ns as [|n ns IH]; intros pre rest off Hwf ->; [done|].
  apply Forall_cons in Hwf as [??]. rewrite nodes_wire_cons. cbn [length decode_nodes].
  rewrite <-app_assoc, decode_node_here by done. go_bind1. cbn [fst snd].
  rewrite (app_assoc pre), IH by (len_lia || done). done.
Qed.

(** A node entry that is cut off anywhere is reported as too short. *)
Lemma decode_node_cut pre n off k :
  node_wf n → off = len pre → Z.of_nat k < node_size n →
  decode_node (pre ++ take k (node_wire n)) off = Err ErrPayloadTooShort.
Proof.
  intros [??] -> Hk. destruct n as [a r i]; unfold node_size, node_wire in *; simpl in *.
  unfold decode_node.
  destruct (decide (Z.of_nat k < 2)); [go_run; done|]. take_run.
  destruct (decide (Z.of_nat k < 2 + len a)); [go_run; done|]. take_run.
  destruct (decide (Z.of_nat k < 2 + len a + 1)); [go_run; done|]. take_run.
  destruct (decide (Z.of_nat k < 2 + len a + 1 + 2)); [go_run; done|]. take_run.
  go_run. done.
Qed.

Lemma decode_nodes_cut ns : ∀ pre off k,
  Forall node_wf ns → off = len pre → Z.of_nat k < len (nodes_wire ns) →
  decode_nodes (length ns) (pre ++ take k (nodes_wire ns)) off = Err ErrPayloadTooShort.
Proof.
  induction ns as [|n ns IH]; intros pre off k Hwf -> Hk.
  { change (nodes_wire []) with (@nil Z) in Hk. len_lia. }
  apply Forall_cons in Hwf as [??]. rewrite nodes_wire_cons in *. cbn [length decode_nodes].
  destruct (decide (Z.of_nat k < node_size n)).
  - rewrite take_app_le by (pose proof (len_node_wire n); unfold len in *; lia).
    by rewrite decode_node_cut.
  - rewrite take_past by len_lia. rewrite decode_node_here by done. go_bind1. cbn [fst snd].
    rewrite app_assoc, IH by (done || len_lia). done.
Qed.

#[export] Program Instance TopologyResponse_Codec : MessageCodec TopologyResponse := {
  wire t := be 2 (u16 (len (TopologyResponse_LeaderAddr t))) ++ TopologyResponse_LeaderAddr t ++
            be 2 (u16 (len (TopologyResponse_Nodes t))) ++ nodes_wire (TopologyResponse_Nodes t);
  wf t := len (TopologyResponse_LeaderAddr t) < 65536 ∧ len (TopologyResponse_Nodes t) < 65536 ∧
          Forall node_wf (TopologyResponse_Nodes t);
}.
Next Obligation.
  intros [l ns]. simpl. unfold TopologyResponse_Encode. simpl.
  rewrite nodes_size_foldl. enc_start. repeat enc_step.
  match goal with |- context [go_foldl _ (?pre ++ make ?r, ?off)] =>
    replace off with (len pre) by len_lia end.
  rewrite encode_nodes_frontier by len_lia. go_bind1. cbn [fst]. enc_end.
Qed.
Next Obligation.
  intros m0 [l ns] rest _ (?&?&?). simpl in *. unfold TopologyResponse_Decode.
  repeat rewrite <-app_assoc. go_run. rewrite to_nat_len.
  match goal with |- context [decode_nodes _ (?a ++ ?b ++ ?c ++ ?d ++ ?e)] =>
    replace (a ++ b ++ c ++ d ++ e) with ((a ++ b ++ c) ++ d ++ e) by (by rewrite <-!app_assoc) end.
  rewrite decode_nodes_here by (done || len_lia). done.
Qed.
Next Obligation.
  intros m0 [l ns] n _ (?&?&?) Hn%nat_lt_len. simpl in *. unfold TopologyResponse_Decode.
  destruct (decide (Z.of_nat n < 4)); [go_run; done|]. rewrite take_past by len_lia. rewrite len_be.
  destruct (decide (Z.of_nat n < 2 + len l)); [go_run; done|]. rewrite take_past by len_lia.
  destruct (decide (Z.of_nat n < 2 + len l + 2)); [go_run; done|]. rewrite take_past by len_lia.
  go_run. rewrite to_nat_len.
  match goal with |- context [decode_nodes _ (?a ++ ?b ++ ?c ++ ?d)] =>
    replace (a ++ b ++ c ++ d) with ((a ++ b ++ c) ++ d) by (by rewrite <-!app_assoc) end.
  rewrite decode_nodes_cut by (done || len_lia). done.
Qed.
Next Obligation. done. Qed.

(** ** No input makes these decoders panic *)

Lemma decode_node_returns data off :
  bytes_ok data → 0 ≤ off →
  returns (decode_node data off) ∧ ∀ n off', decode_node data off = Ok (n, off') → 0 ≤ off'.
Proof.
  intros Hok Hoff. unfold decode_node, returns.
  repeat no_panic_step Hok. split; [done|]. intros n off' [= <- <-]. lia.
Qed.

Lemma decode_nodes_returns count data : ∀ off,
  bytes_ok data → 0 ≤ off → returns (decode_nodes count data off).
Proof.
  induction count as [|count IH]; intros off Hok Hoff; [done|]. simpl.
  destruct (decode_node_returns data off Hok Hoff) as [Hret Hoff'].
  unfold returns in *. destruct (decode_node data off) as [[n off']| |]; [|done..]. go_bind1.
  specialize (IH off' Hok (Hoff' _ _ eq_refl)). simpl.
  by destruct (decode_nodes count data off').
Qed.

Lemma TopologyResponse_Decode_returns m data :
  bytes_ok data → returns (TopologyResponse_Decode m data).
Proof.
  intros Hok. unfold TopologyResponse_Decode. unfold returns. repeat no_panic_step Hok.
  pose proof (decode_nodes_returns (Z.to_nat (field 2 data (0 + 2 + field 2 data 0))) data
    (0 + 2 + field 2 data 0 + 2) Hok ltac:(lia)) as Hret.
  unfold returns in Hret. by destruct (decode_nodes _ _ _).
Qed.
