(* ===== verification/Messages.v ===== *)
(** * The message universe

    The sum of the sixteen message types the server binary links in, the
    registry their [init] functions build, and the theorems about what travels
    on the wire. *)

From S2P Require Import Prelude GoLang Protocol KvMessages ClusterMessages ClientMessages.

Inductive Msg :=
  | MGetRequest (m : GetRequest)
  | MSetRequest (m : SetRequest)
  | MDeleteRequest (m : DeleteRequest)
  | MGetResponse (m : GetResponse)
  | MSetResponse (m : SetResponse)
  | MDeleteResponse (m : DeleteResponse)
  | MTopologyRequest (m : TopologyRequest)
  | MTopologyResponse (m : TopologyResponse)
  | MReplicationSync (m : ReplicationSync)
  | MReplicationAck (m : ReplicationAck)
  | MReplicationJoin (m : ReplicationJoin)
  | MHeartbeat (m : Heartbeat)
  | MHeartbeatAck (m : HeartbeatAck)
  | MVoteRequest (m : VoteRequest)
  | MVoteResponse (m : VoteResponse)
  | MErrorMessage (m : ErrorMessage).

(** Method calls through the interface value. *)
Definition Msg_OpCode (m : Msg) : Z :=
  match m with
  | MGetRequest m => OpCode m
  | MSetRequest m => OpCode m
  | MDeleteRequest m => OpCode m
  | MGetResponse m => OpCode m
  | MSetResponse m => OpCode m
  | MDeleteResponse m => OpCode m
  | MTopologyRequest m => OpCode m
  | MTopologyResponse m => OpCode m
  | MReplicationSync m => OpCode m
  | MReplicationAck m => OpCode m
  | MReplicationJoin m => OpCode m
  | MHeartbeat m => OpCode m
  | MHeartbeatAck m => OpCode m
  | MVoteRequest m => OpCode m
  | MVoteResponse m => OpCode m
  | MErrorMessage m => OpCode m
  end.

Definition Msg_Encode (m : Msg) : go gobytes :=
  match m with
  | MGetRequest m => Encode m
  | MSetRequest m => Encode m
  | MDeleteRequest m => Encode m
  | MGetResponse m => Encode m
  | MSetResponse m => Encode m
  | MDeleteResponse m => Encode m
  | MTopologyRequest m => Encode m
  | MTopologyResponse m => Encode m
  | MReplicationSync m => Encode m
  | MReplicationAck m => Encode m
  | MReplicationJoin m => Encode m
  | MHeartbeat m => Encode m
  | MHeartbeatAck m => Encode m
  | MVoteRequest m => Encode m
  | MVoteResponse m => Encode m
  | MErrorMessage m => Encode m
  end.

Definition Msg_Decode (m : Msg) (data : gobytes) : go Msg :=
  match m with
  | MGetRequest m => m ← Decode m data; Ok (MGetRequest m)
  | MSetRequest m => m ← Decode m data; Ok (MSetRequest m)
  | MDeleteRequest m => m ← Decode m data; Ok (MDeleteRequest m)
  | MGetResponse m => m ← Decode m data; Ok (MGetResponse m)
  | MSetResponse m => m ← Decode m data; Ok (MSetResponse m)
  | MDeleteResponse m => m ← Decode m data; Ok (MDeleteResponse m)
  | MTopologyRequest m => m ← Decode m data; Ok (MTopologyRequest m)
  | MTopologyResponse m => m ← Decode m data; Ok (MTopologyResponse m)
  | MReplicationSync m => m ← Decode m data; Ok (MReplicationSync m)
  | MReplicationAck m => m ← Decode m data; Ok (MReplicationAck m)
  | MReplicationJoin m => m ← Decode m data; Ok (MReplicationJoin m)
  | MHeartbeat m => m ← Decode m data; Ok (MHeartbeat m)
  | MHeartbeatAck m => m ← Decode m data; Ok (MHeartbeatAck m)
  | MVoteRequest m => m ← Decode m data; Ok (MVoteRequest m)
  | MVoteResponse m => m ← Decode m data; Ok (MVoteResponse m)
  | MErrorMessage m => m ← Decode m data; Ok (MErrorMessage m)
  end.

#[export] Instance Msg_Message : Message Msg :=
  { OpCode := Msg_OpCode; Encode := Msg_Encode; Decode := Msg_Decode }.

Definition Msg_wire (m : Msg) : gobytes :=
  match m with
  | MGetRequest m => wire m
  | MSetRequest m => wire m
  | MDeleteRequest m => wire m
  | MGetResponse m => wire m
  | MSetResponse m => wire m
  | MDeleteResponse m => wire m
  | MTopologyRequest m => wire m
  | MTopologyResponse m => wire m
  | MReplicationSync m => wire m
  | MReplicationAck m => wire m
  | MReplicationJoin m => wire m
  | MHeartbeat m => wire m
  | MHeartbeatAck m => wire m
  | MVoteRequest m => wire m
  | MVoteResponse m => wire m
  | MErrorMessage m => wire m
  end.

Definition Msg_wf (m : Msg) : Prop :=
  match m with
  | MGetRequest m => wf m
  | MSetRequest m => wf m
  | MDeleteRequest m => wf m
  | MGetResponse m => wf m
  | MSetResponse m => wf m
  | MDeleteResponse m => wf m
  | MTopologyRequest m => wf m
  | MTopologyResponse m => wf m
  | MReplicationSync m => wf m
  | MReplicationAck m => wf m
  | MReplicationJoin m => wf m
  | MHeartbeat m => wf m
  | MHeartbeatAck m => wf m
  | MVoteRequest m => wf m
  | MVoteResponse m => wf m
  | MErrorMessage m => wf m
  end.

(** The [init] functions of the packages, in turn: each registers its own type. *)
Definition registered {M} (f : M → Msg) (r : Z * M) : Z * Msg := (r.1, f r.2).

Definition registrations : list (Z * Msg) := [
  registered MGetRequest GetRequest_init;
  registered MSetRequest SetRequest_init;
  registered MDeleteRequest DeleteRequest_init;
  registered MGetResponse GetResponse_init;
  registered MSetResponse SetResponse_init;
  registered MDeleteResponse DeleteResponse_init;
  registered MTopologyRequest TopologyRequest_init;
  registered MTopologyResponse TopologyResponse_init;
  registered MReplicationSync ReplicationSync_init;
  registered MReplicationAck ReplicationAck_init;
  registered MReplicationJoin ReplicationJoin_init;
  registered MHeartbeat Heartbeat_init;
  registered MHeartbeatAck HeartbeatAck_init;
  registered MVoteRequest VoteRequest_init;
  registered MVoteResponse VoteResponse_init;
  registered MErrorMessage ErrorMessage_init
].

Definition init : go (gmap Z Msg) :=
  go_foldl (λ reg '(op, m), Register op m reg) ∅ registrations.

Definition registry : gmap Z Msg :=
  match init with Ok reg => reg | _ => ∅ end.

(** ** The sum implements the interface *)

Ltac msg_cbn :=
  cbn [OpCode Encode Decode Msg_Message Msg_OpCode Msg_Encode Msg_Decode Msg_wire Msg_wf] in *.

#[export] Program Instance Msg_Codec : MessageCodec Msg := { wire := Msg_wire; wf := Msg_wf }.
Next Obligation. intros m; destruct m; msg_cbn; apply Encode_wire. Qed.
Next Obligation.
  intros m0 m rest Hop Hwf. destruct m0, m; try discriminate Hop; msg_cbn;
    (rewrite Decode_wire by done); done.
Qed.
Next Obligation.
  intros m0 m n Hop Hwf Hn. destruct m0, m; try discriminate Hop; msg_cbn;
    (rewrite Decode_truncated by done); done.
Qed.
Next Obligation. intros m; destruct m; msg_cbn; apply OpCode_byte. Qed.

(** The sixteen opcodes are pairwise distinct, so no [init] panics. *)
Lemma init_ok : init = Ok registry.
Proof. vm_compute. reflexivity. Qed.

Lemma registry_lookup (m : Msg) : ∃ m0, registry !! OpCode m = Some m0 ∧ OpCode m0 = OpCode m.
Proof.
  destruct m;
    match goal with |- ∃ m0, ?l = _ ∧ _ =>
      let v := eval vm_compute in l in
      match v with Some ?m0 => exists m0; split; [vm_compute; reflexivity | done] end
    end.
Qed.

Lemma registry_complete (m : Msg) : is_Some (registry !! OpCode m).
Proof. destruct (registry_lookup m) as (m0 & ? & _). eauto. Qed.

Lemma registry_is_ok : registry_ok registry.
Proof.
  assert (Forall (λ '(op, m), OpCode m = op) (map_to_list registry)) as H
    by (vm_compute; repeat constructor).
  intros op m Hm. rewrite Forall_forall in H.
  apply (H (op, m)). by apply elem_of_map_to_list.
Qed.

(** ** Writing and reading a connection *)

Definition sendable (maxLen : Z) (m : Msg) : Prop :=
  Msg_wf m ∧ 1 + len (Msg_wire m) < 2 ^ 32 ∧ (maxLen = 0 ∨ 1 + len (Msg_wire m) ≤ maxLen).

Lemma WriteFrames_bytes (ms : list Msg) : ∀ w,
  go_foldl WriteFrame w ms = Ok (w ++ concat (frame_bytes <$> ms)).
Proof.
  induction ms as [|m ms IH]; intros w; [by rewrite app_nil_r|].
  cbn [go_foldl fmap list_fmap concat].
  rewrite WriteFrame_bytes. go_bind1. by rewrite IH, <-app_assoc.
Qed.

Definition example_stream : list Msg := [
  MSetRequest (mkSetRequest (str "user:1") (str "hello world") 12345);
  MGetRequest (mkGetRequest (str "user:1"));
  MTopologyResponse (mkTopologyResponse (str "localhost:7001")
    [mkNodeInfo (str "localhost:7001") 1 (str "localhost:7001");
     mkNodeInfo (str "localhost:7002") 0 (str "localhost:7002")]);
  MReplicationSync (mkReplicationSync 7 1 (str "k") (str "v") 999) ].

Lemma example_stream_sendable : Forall (sendable 10485760) example_stream.
Proof.
  repeat constructor; try done; try (right; done); repeat (apply Forall_cons; split; [done|]); done.
Qed.

(** The payload cut-offs that make a decoder's [uint16] (or [uint32]) slice
    bound wrap around: see [data[2:2+keyLen]] in [get_protocol_request.go] and
    its siblings. *)
Definition decode_overflows (data : gobytes) : bool :=
  match data with
  | [] => false
  | op :: p =>
      ((op =? OpGet) || (op =? OpDelete)) && (2 <=? len p) &&
        (65534 <=? field 2 p 0) && (2 + field 2 p 0 <=? len p) ||
      (op =? OpSet) && (14 <=? len p) &&
        (65522 <=? field 2 p 0) && (14 + field 2 p 0 + field 4 p 2 <=? len p) ||
      (op =? OpGetResponse) && (5 <=? len p) &&
        (2 ^ 32 - 5 <=? field 4 p 1) && (5 + field 4 p 1 <=? len p) ||
      ((op =? OpSetResponse) || (op =? OpDeleteResponse)) && (3 <=? len p) &&
        (65533 <=? field 2 p 1) && (3 + field 2 p 1 <=? len p)
  end.

Lemma bind_panic {A B} (m : go A) (f : A → B) :
  (x ← m; Ok (f x)) = Panic ↔ m = Panic.
Proof. by destruct m. Qed.

Lemma Msg_Decode_panic m p :
  bytes_ok p → Msg_Decode m p = Panic ↔ decode_overflows (Msg_OpCode m :: p) = true.
Proof.
  intros Hok. destruct m as [m|m|m|m|m|m|m|m|m|m|m|m|m|m|m|m];
    cbn [Msg_Decode]; rewrite bind_panic; unfold decode_overflows;
    cbv [Msg_OpCode OpCode GetRequest_Message SetRequest_Message DeleteRequest_Message
      GetResponse_Message_inst SetResponse_Message_inst DeleteResponse_Message_inst
      TopologyRequest_Message TopologyResponse_Message ReplicationSync_Message
      ReplicationAck_Message ReplicationJoin_Message Heartbeat_Message HeartbeatAck_Message
      VoteRequest_Message VoteResponse_Message ErrorMessage_Message_inst
      OpGet OpSet OpDelete OpGetResponse OpSetResponse OpDeleteResponse OpTopologyRequest
      OpTopologyResponse OpReplicationSync OpReplicationAck OpReplicationJoin OpHeartbeat
      OpHeartbeatAck OpVoteRequest OpVoteResponse OpError].
  - etransitivity; [exact (GetRequest_Decode_panic m p Hok)|lia].
  - etransitivity; [exact (SetRequest_Decode_panic m p Hok)|lia].
  - etransitivity; [exact (DeleteRequest_Decode_panic m p Hok)|lia].
  - etransitivity; [exact (GetResponse_Decode_panic m p Hok)|lia].
  - etransitivity; [exact (SetResponse_Decode_panic m p Hok)|lia].
  - etransitivity; [exact (DeleteResponse_Decode_panic m p Hok)|lia].
  - split; [done|lia].
  - split; [intros E; by destruct (TopologyResponse_Decode_returns m p Hok)|lia].
  - split; [intros E; by destruct (ReplicationSync_Decode_returns m p Hok)|lia].
  - split; [intros E; by destruct (ReplicationAck_Decode_returns m p Hok)|lia].
  - split; [intros E; by destruct (ReplicationJoin_Decode_returns m p Hok)|lia].
  - split; [intros E; by destruct (Heartbeat_Decode_returns m p Hok)|lia].
  - split; [intros E; by destruct (HeartbeatAck_Decode_returns m p Hok)|lia].
  - split; [intros E; by destruct (VoteRequest_Decode_returns m p Hok)|lia].
  - split; [intros E; by destruct (VoteResponse_Decode_returns m p Hok)|lia].
  - split; [intros E; by destruct (ErrorMessage_Decode_returns m p Hok)|lia].
Qed.

(** An opcode outside the table is not one whose decoder can overflow. *)
Lemma decode_overflows_registered op p :
  registry !! op = None → decode_overflows (op :: p) = false.
Proof.
  intros Hnone. unfold decode_overflows.
  assert (∀ m : Msg, op ≠ OpCode m) as Hne.
  { intros m ->. destruct (registry_complete m) as [? E]. congruence. }
  rewrite !(proj2 (Z.eqb_neq op _)); [done|..].
  - apply (Hne (MDeleteResponse (mkDeleteResponse false []))).
  - apply (Hne (MSetResponse (mkSetResponse false []))).
  - apply (Hne (MGetResponse (mkGetResponse false []))).
  - apply (Hne (MSetRequest (mkSetRequest [] [] 0))).
  - apply (Hne (MDeleteRequest (mkDeleteRequest []))).
  - apply (Hne (MGetRequest (mkGetRequest []))).
Qed.

Lemma DecodeMessage_panic data :
  bytes_ok data → DecodeMessage registry data = Panic ↔ decode_overflows data = true.
Proof.
  intros Hok. unfold DecodeMessage. destruct data as [|op p]; [done|].
  apply Forall_cons in Hok as [_ Hok]. unfold Lookup, slice_from.
  rewrite ltb_false by len_lia. go_run.
  destruct (registry !! op) as [m|] eqn:E.
  - rewrite <-(registry_is_ok op m E).
    etransitivity; [|apply (Msg_Decode_panic m p Hok)].
    change (Decode m p) with (Msg_Decode m p). by destruct (Msg_Decode m p).
  - rewrite decode_overflows_registered by done. done.
Qed.

(** ** Theorems *)

(** C6.  A connection carries messages faithfully: whatever messages are written
    with [WriteFrame], one after the other, a receive loop of [ReadFrame] with a
    sufficient size limit returns exactly those messages, in order, and leaves
    the reader at the first byte after them.  [sendable] bounds the fields to
    what their length prefixes can carry. *)
Theorem stream_roundtrip (ms : list Msg) (rest : gobytes) (e : error) (maxLen : Z) :
  Forall (sendable maxLen) ms →
  ∃ w, go_foldl WriteFrame [] ms = Ok w ∧
       ReadFrames registry (length ms) (Reader (w ++ rest) e) maxLen = (ms, Reader rest e).
Proof.
  intros Hms. eexists. split; [apply WriteFrames_bytes|]. simpl.
  apply ReadFrames_stream; [apply registry_is_ok| |done].
  eapply Forall_impl; [exact Hms|]. intros m (?&?&?). eauto using registry_complete.
Qed.

Lemma stream_roundtrip_witness :
  ∃ w, go_foldl WriteFrame [] example_stream = Ok w ∧
       ReadFrames registry 4 (Reader (w ++ [9]) io_EOF) 10485760 = (example_stream, Reader [9] io_EOF).
Proof. exact (stream_roundtrip example_stream [9] io_EOF 10485760 example_stream_sendable). Defined.

(** C34.  A message whose payload is cut off anywhere is rejected: every proper
    prefix of the payload that keeps the opcode decodes to an error that
    [errors.Is] recognises as [ErrPayloadTooShort], never to a message and never
    to a panic. *)
Theorem truncated_payload_rejected (m : Msg) (n : nat) :
  Msg_wf m → (n < length (Msg_wire m))%nat →
  ∃ payload e, Encode m = Ok payload ∧
    DecodeMessage registry (OpCode m :: take n payload) = Err e ∧
    errors_Is e ErrPayloadTooShort = true.
Proof.
  intros Hwf Hn. exists (Msg_wire m).
  destruct (DecodeMessage_truncated registry registry_is_ok m n) as (e & ? & ?);
    [apply registry_complete|done..|].
  exists e. split; [exact (Encode_wire m)|done].
Qed.

Lemma truncated_payload_rejected_witness :
  ∃ payload e, Encode (MSetRequest (mkSetRequest [1] [2] 3)) = Ok payload ∧
    DecodeMessage registry (OpCode (MSetRequest (mkSetRequest [1] [2] 3)) :: take 15 payload) = Err e ∧
    errors_Is e ErrPayloadTooShort = true.
Proof.
  apply (truncated_payload_rejected (MSetRequest (mkSetRequest [1] [2] 3)) 15).
  - vm_compute. repeat split; discriminate.
  - vm_compute. lia.
Defined.

(** C35.  Exactly which inputs crash the decoder.  [DecodeMessage] panics on a byte
    string if and only if it is one of six requests or responses whose declared
    key or message length is so close to the maximum that the [uint16] (or
    [uint32]) slice bound wraps around while the payload is as long as declared;
    on every other input it returns a message or an error. *)
Theorem decode_panics_exactly (data : gobytes) :
  bytes_ok data → DecodeMessage registry data = Panic ↔ decode_overflows data = true.
Proof. apply DecodeMessage_panic. Qed.

Lemma decode_panics_exactly_witness :
  DecodeMessage registry [1; 0; 1; 107] = Panic ↔ decode_overflows [1; 0; 1; 107] = true.
Proof. apply (decode_panics_exactly [1; 0; 1; 107]). repeat constructor; done. Defined.

(** A GET whose key is 65534 or 65535 bytes long is encoded without an error
    into a frame that every server limit of at least 65538 bytes lets through,
    and reading that frame panics, where [protocol.txt] promises that a decoder
    never panics. *)
Lemma get_long_key_panics (key rest : gobytes) (e : error) (maxLen : Z) :
  65534 ≤ len key ≤ 65535 → maxLen = 0 ∨ 65538 ≤ maxLen →
  ∃ frame, EncodeFrame (MGetRequest (mkGetRequest key)) = Ok frame ∧
    ∃ r, ReadFrame registry (Reader (frame ++ rest) e) maxLen = (Panic, r).
Proof.
  intros Hk Hmax. eexists. split; [apply EncodeFrame_bytes|]. eexists.
  unfold ReadFrame, frame_bytes, frameHeaderSize. rewrite <-app_assoc.
  change (wire (MGetRequest (mkGetRequest key))) with (be 2 (u16 (len key)) ++ key).
  rewrite ReadFull_app by len_lia. go_run.
  rewrite limit_ok by (destruct Hmax; [by left|right; len_lia]).
  rewrite app_comm_cons, ReadFull_app by len_lia.
  unfold DecodeMessage, Lookup, slice_from. go_run.
  change (registry !! OpCode (MGetRequest (mkGetRequest key))) with (Some (MGetRequest (mkGetRequest []))).
  cbn [Decode Msg_Message Msg_Decode].
  change (Decode (mkGetRequest []) ?d) with (GetRequest_Decode (mkGetRequest []) d).
  unfold GetRequest_Decode. go_run.
  rewrite slice_panics; [done|]. unfold u16. rewrite <-(Z.mod_unique _ _ 1 (len key - 65534)); lia.
Qed.
