(* ===== verification/MessageTypes.v ===== *)
(** * What a decoder can produce

    A message that comes out of [DecodeMessage] is well typed: every integer is in
    the range of its Go type, every string is made of bytes, every length fits its
    prefix.  So it can be encoded again without loss, and the encoding is no longer
    than the bytes it came from. *)

From S2P Require Import Prelude GoLang Protocol KvMessages ClusterMessages ClientMessages Messages.

(** ** Reading a decoder backwards *)

Lemma make_copy_full n src : n = len src → make_copy n src = src.
Proof. intros ->. apply overwrite_full. done. Qed.

(** A bound [lo + n] cut to [w] bits that is not below [lo] has not wrapped. *)
Lemma no_wrap w lo n : 0 ≤ lo < 2 ^ w → 0 ≤ n < 2 ^ w → lo ≤ (lo + n) `mod` 2 ^ w →
  (lo + n) `mod` 2 ^ w = lo + n ∧ lo + n < 2 ^ w.
Proof.
  intros Hlo Hn Hle. destruct (decide (lo + n < 2 ^ w)); [by rewrite Z.mod_small by lia|].
  rewrite <-(Z.mod_unique _ _ 1 (lo + n - 2 ^ w)) in Hle; lia.
Qed.

Ltac decoded_step Hok H :=
  match type of H with
  | (if ?a <? ?b then _ else _) = Ok _ =>
      let E := fresh "Elen" in destruct (a <? b) eqn:E; [discriminate H|]
  | context [slice ?d ?lo ?hi ≫= (λ s, get_uint ?n s ≫= _)] =>
      rewrite (read_field_bind n d lo hi) in H by lia; pose proof (field_range n d lo Hok)
  | context [slice ?d ?lo ?hi] =>
      let E := fresh "Eslice" in destruct (slice d lo hi) eqn:E; [|discriminate H..];
      cbn [mbind go_bind] in H; apply slice_inv in E as (? & ? & ? & ?)
  | context [index ?d ?i] =>
      let E := fresh "Eindex" in destruct (index d i) eqn:E; [|discriminate H..];
      cbn [mbind go_bind] in H; apply index_inv in E; [|exact Hok]
  end.
Ltac decoded Hok H := repeat decoded_step Hok H.

(** ** Typing *)

Definition uint64_ok (z : Z) : Prop := 0 ≤ z < 2 ^ 64.
Definition uint16_ok (z : Z) : Prop := 0 ≤ z < 65536.

Definition node_typed (n : NodeInfo) : Prop :=
  bytes_ok (NodeInfo_Address n) ∧ byte_ok (NodeInfo_Role n) ∧ bytes_ok (NodeInfo_NodeID n).

(** Every field is a value of its Go type. *)
Definition Msg_typed (m : Msg) : Prop :=
  match m with
  | MGetRequest m => bytes_ok (GetRequest_Key m)
  | MSetRequest m => bytes_ok (SetRequest_Key m) ∧ bytes_ok (SetRequest_Value m) ∧ uint64_ok (SetRequest_TTL m)
  | MDeleteRequest m => bytes_ok (DeleteRequest_Key m)
  | MGetResponse m => bytes_ok (GetResponse_Value m)
  | MSetResponse m => bytes_ok (SetResponse_Message m)
  | MDeleteResponse m => bytes_ok (DeleteResponse_Message m)
  | MTopologyRequest _ => True
  | MTopologyResponse m => bytes_ok (TopologyResponse_LeaderAddr m) ∧ Forall node_typed (TopologyResponse_Nodes m)
  | MReplicationSync m =>
      uint64_ok (ReplicationSync_LogIndex m) ∧ byte_ok (ReplicationSync_Op m) ∧
      bytes_ok (ReplicationSync_Key m) ∧ bytes_ok (ReplicationSync_Value m) ∧ uint64_ok (ReplicationSync_ExpiresAt m)
  | MReplicationAck m => uint64_ok (ReplicationAck_LastAppliedIndex m)
  | MReplicationJoin m => bytes_ok (ReplicationJoin_NodeAddr m)
  | MHeartbeat m => uint64_ok (Heartbeat_Term m) ∧ bytes_ok (Heartbeat_LeaderID m)
  | MHeartbeatAck m => uint64_ok (HeartbeatAck_Term m) ∧ uint64_ok (HeartbeatAck_LastAppliedIndex m)
  | MVoteRequest m =>
      uint64_ok (VoteRequest_Term m) ∧ bytes_ok (VoteRequest_CandidateID m) ∧ uint64_ok (VoteRequest_LastLogIndex m)
  | MVoteResponse m => uint64_ok (VoteResponse_Term m)
  | MErrorMessage m => uint16_ok (ErrorMessage_Code m) ∧ bytes_ok (ErrorMessage_Message m)
  end.

(** What decoding [d] promises of its result. *)
Definition good_result (d : gobytes) (m : Msg) : Prop :=
  Msg_wf m ∧ Msg_typed m ∧ len (Msg_wire m) ≤ len d.

Ltac decoded_end H :=
  injection H as <-; unfold good_result, Msg_wf, Msg_typed, Msg_wire, uint64_ok, uint16_ok; simpl;
  split_and!; first [lia | assumption | by auto | len_lia].

Lemma GetRequest_decoded m0 d m : bytes_ok d → GetRequest_Decode m0 d = Ok m → good_result d (MGetRequest m).
Proof.
  intros Hok H. unfold GetRequest_Decode in H. decoded Hok H. unfold u16 in *.
  destruct (no_wrap 16 2 (field 2 d 0)) as [E1 E2]; [lia..|]. rewrite make_copy_full in H by lia. decoded_end H.
Qed.

Lemma DeleteRequest_decoded m0 d m : bytes_ok d → DeleteRequest_Decode m0 d = Ok m → good_result d (MDeleteRequest m).
Proof.
  intros Hok H. unfold DeleteRequest_Decode in H. decoded Hok H. unfold u16 in *.
  destruct (no_wrap 16 2 (field 2 d 0)) as [E1 E2]; [lia..|]. rewrite make_copy_full in H by lia. decoded_end H.
Qed.

Lemma SetRequest_decoded m0 d m : bytes_ok d → SetRequest_Decode m0 d = Ok m → good_result d (MSetRequest m).
Proof.
  intros Hok H. unfold SetRequest_Decode, setHeaderSize in H. decoded Hok H. unfold u16 in *.
  destruct (no_wrap 16 14 (field 2 d 0)) as [E1 E2]; [lia..|]. rewrite !make_copy_full in H by lia. decoded_end H.
Qed.

Lemma GetResponse_decoded m0 d m : bytes_ok d → GetResponse_Decode m0 d = Ok m → good_result d (MGetResponse m).
Proof.
  intros Hok H. unfold GetResponse_Decode in H. decoded Hok H. unfold u32 in *.
  destruct (no_wrap 32 5 (field 4 d 1)) as [E1 E2]; [lia..|]. rewrite make_copy_full in H by lia. decoded_end H.
Qed.

Lemma SetResponse_decoded m0 d m : bytes_ok d → SetResponse_Decode m0 d = Ok m → good_result d (MSetResponse m).
Proof.
  intros Hok H. unfold SetResponse_Decode in H. decoded Hok H. unfold u16 in *.
  destruct (no_wrap 16 3 (field 2 d 1)) as [E1 E2]; [lia..|]. decoded_end H.
Qed.

Lemma DeleteResponse_decoded m0 d m : bytes_ok d → DeleteResponse_Decode m0 d = Ok m → good_result d (MDeleteResponse m).
Proof.
  intros Hok H. unfold DeleteResponse_Decode in H. decoded Hok H. unfold u16 in *.
  destruct (no_wrap 16 3 (field 2 d 1)) as [E1 E2]; [lia..|]. decoded_end H.
Qed.

Lemma ErrorMessage_decoded m0 d m : bytes_ok d → ErrorMessage_Decode m0 d = Ok m → good_result d (MErrorMessage m).
Proof. intros Hok H. unfold ErrorMessage_Decode in H. decoded Hok H. decoded_end H. Qed.

Lemma Heartbeat_decoded m0 d m : bytes_ok d → Heartbeat_Decode m0 d = Ok m → good_result d (MHeartbeat m).
Proof. intros Hok H. unfold Heartbeat_Decode in H. decoded Hok H. decoded_end H. Qed.

Lemma HeartbeatAck_decoded m0 d m : bytes_ok d → HeartbeatAck_Decode m0 d = Ok m → good_result d (MHeartbeatAck m).
Proof. intros Hok H. unfold HeartbeatAck_Decode in H. decoded Hok H. decoded_end H. Qed.

Lemma VoteRequest_decoded m0 d m : bytes_ok d → VoteRequest_Decode m0 d = Ok m → good_result d (MVoteRequest m).
Proof. intros Hok H. unfold VoteRequest_Decode in H. decoded Hok H. decoded_end H. Qed.

Lemma VoteResponse_decoded m0 d m : bytes_ok d → VoteResponse_Decode m0 d = Ok m → good_result d (MVoteResponse m).
Proof. intros Hok H. unfold VoteResponse_Decode in H. decoded Hok H. decoded_end H. Qed.

Lemma ReplicationJoin_decoded m0 d m : bytes_ok d → ReplicationJoin_Decode m0 d = Ok m → good_result d (MReplicationJoin m).
Proof. intros Hok H. unfold ReplicationJoin_Decode in H. decoded Hok H. decoded_end H. Qed.

Lemma ReplicationAck_decoded m0 d m : bytes_ok d → ReplicationAck_Decode m0 d = Ok m → good_result d (MReplicationAck m).
Proof. intros Hok H. unfold ReplicationAck_Decode in H. decoded Hok H. decoded_end H. Qed.

Lemma ReplicationSync_decoded m0 d m : bytes_ok d → ReplicationSync_Decode m0 d = Ok m → good_result d (MReplicationSync m).
Proof.
  intros Hok H. unfold ReplicationSync_Decode, replicationSyncHeaderSize in H. decoded Hok H.
  rewrite !make_copy_full in H by lia. decoded_end H.
Qed.

(** One node entry, and the loop over them. *)
Lemma decode_node_decoded d off n off' : bytes_ok d → 0 ≤ off → decode_node d off = Ok (n, off') →
  node_wf n ∧ node_typed n ∧ off' = off + node_size n ∧ off' ≤ len d.
Proof.
  intros Hok Hoff H. unfold decode_node in H. decoded Hok H. injection H as <- <-.
  unfold node_wf, node_typed, node_size. simpl. split_and!; first [lia | assumption | by auto].
Qed.

Lemma decode_nodes_decoded count d : ∀ off ns, bytes_ok d → 0 ≤ off ≤ len d → decode_nodes count d off = Ok ns →
  length ns = count ∧ Forall node_wf ns ∧ Forall node_typed ns ∧ off + len (nodes_wire ns) ≤ len d.
Proof.
  induction count as [|count IH]; intros off ns Hok Hoff; simpl.
  { intros [= <-]. change (nodes_wire []) with (@nil Z). split_and!; [done|by constructor..|len_lia]. }
  destruct (decode_node d off) as [[n off']| |] eqn:En; [|discriminate..]. go_bind1. cbn [fst snd].
  destruct (decode_nodes count d off') as [ns'| |] eqn:Es; [|discriminate..]. go_bind1. intros [= <-].
  destruct (decode_node_decoded d off n off' Hok ltac:(lia) En) as (? & ? & -> & ?).
  pose proof (node_size_pos n).
  destruct (IH (off + node_size n) ns' Hok ltac:(lia) Es) as (? & ? & ? & ?). rewrite nodes_wire_cons.
  split_and!; [simpl; lia|by constructor..|len_lia].
Qed.

Lemma TopologyResponse_decoded m0 d m :
  bytes_ok d → TopologyResponse_Decode m0 d = Ok m → good_result d (MTopologyResponse m).
Proof.
  intros Hok H. unfold TopologyResponse_Decode in H. decoded Hok H.
  destruct (decode_nodes _ _ _) as [ns| |] eqn:En; [|discriminate H..]. cbn [mbind go_bind] in H.
  apply decode_nodes_decoded in En as (Hl & Hwf & Ht & Hlen); [|done|lia]. injection H as <-.
  assert (len ns < 65536) by (unfold len; lia).
  unfold good_result, Msg_wf, Msg_typed, Msg_wire. simpl. split_and!; first [lia | done | by auto | len_lia].
Qed.

(** ** Every message *)

Lemma Msg_Decode_decoded m0 d m : bytes_ok d → Msg_Decode m0 d = Ok m → good_result d m ∧ Msg_OpCode m = Msg_OpCode m0.
Proof.
  intros Hok. destruct m0 as [m0|m0|m0|m0|m0|m0|m0|m0|m0|m0|m0|m0|m0|m0|m0|m0]; cbn [Msg_Decode];
    (match goal with |- context [Decode m0 d] => destruct (Decode m0 d) as [m1| |] eqn:E; [|discriminate..] end);
    go_bind1; intros [= <-]; (split; [|done]).
  - by eapply GetRequest_decoded.
  - by eapply SetRequest_decoded.
  - by eapply DeleteRequest_decoded.
  - by eapply GetResponse_decoded.
  - by eapply SetResponse_decoded.
  - by eapply DeleteResponse_decoded.
  - split_and!; [done..|]. simpl. rewrite len_nil. apply len_nonneg.
  - by eapply TopologyResponse_decoded.
  - by eapply ReplicationSync_decoded.
  - by eapply ReplicationAck_decoded.
  - by eapply ReplicationJoin_decoded.
  - by eapply Heartbeat_decoded.
  - by eapply HeartbeatAck_decoded.
  - by eapply VoteRequest_decoded.
  - by eapply VoteResponse_decoded.
  - by eapply ErrorMessage_decoded.
Qed.

Lemma DecodeMessage_decoded d m : bytes_ok d → DecodeMessage registry d = Ok m →
  Msg_wf m ∧ Msg_typed m ∧ 1 + len (Msg_wire m) ≤ len d ∧ hd_error d = Some (Msg_OpCode m).
Proof.
  intros Hok. unfold DecodeMessage. destruct d as [|op p]; [done|]. rewrite ltb_false by len_lia. go_run.
  unfold Lookup. destruct (registry !! op) as [m0|] eqn:E0; [|done]. unfold slice_from.
  change (op :: p) with ([op] ++ p). go_run. apply Forall_cons in Hok as [_ Hok].
  change (Decode m0 p) with (Msg_Decode m0 p). destruct (Msg_Decode m0 p) as [m1| |] eqn:E; [|done..].
  intros [= <-]. destruct (Msg_Decode_decoded m0 p m1 Hok E) as ((?&?&?) & Eop).
  rewrite (registry_is_ok _ _ E0 : Msg_OpCode m0 = op) in Eop. split_and!; [done|done|len_lia|by rewrite Eop].
Qed.

(** C19.  Type soundness of decoding: whatever bytes arrive, a message that
    [DecodeMessage] returns has every field in the range of its Go type and every
    length within its prefix; encoding it again gives bytes that are not longer than
    the ones received, start with the same opcode and decode to the same message. *)
Theorem decoded_well_typed (d : gobytes) (m : Msg) :
  bytes_ok d → DecodeMessage registry d = Ok m →
  Msg_typed m ∧ Msg_wf m ∧
  ∃ w, EncodeMessage m = Ok w ∧ len w ≤ len d ∧ hd_error w = hd_error d ∧ DecodeMessage registry w = Ok m.
Proof.
  intros Hok H. destruct (DecodeMessage_decoded d m Hok H) as (Hwf & Ht & Hlen & Hop).
  split_and!; [done..|]. exists (OpCode m :: wire m). split_and!.
  - apply EncodeMessage_wire.
  - rewrite len_cons. exact Hlen.
  - by rewrite Hop.
  - rewrite <-(app_nil_r (wire m)). apply DecodeMessage_wire; [apply registry_is_ok|apply registry_complete|done].
Qed.

(** A reply whose flag byte is not 0 or 1, and that has bytes to spare. *)
Lemma decoded_well_typed_witness :
  let m := MSetResponse (mkSetResponse false [111; 107]) in
  Msg_typed m ∧ Msg_wf m ∧
  ∃ w, EncodeMessage m = Ok w ∧ len w ≤ len [5; 7; 0; 2; 111; 107; 9] ∧ hd_error w = hd_error [5; 7; 0; 2; 111; 107; 9] ∧
       DecodeMessage registry w = Ok m.
Proof.
  apply (decoded_well_typed [5; 7; 0; 2; 111; 107; 9] (MSetResponse (mkSetResponse false [111; 107]))).
  - repeat constructor; done.
  - vm_compute. reflexivity.
Defined.
