(* ===== verification/WalRecord.v ===== *)
(** * The log format (storage/wal/wal_record.go, wal_replay.go)

    One record of the write-ahead log as bytes, reading it back, and replaying a
    whole log file.  A point in time ([time.Time]) is its number of nanoseconds
    since the Unix epoch, an unbounded integer; [UnixNano] cuts it to an
    [int64]. *)

From S2P Require Import Prelude GoLang.

(** ** time *)

Definition UnixNano (t : Z) : Z := i64 t.
(** [time.Unix(0, ns)] *)
Definition time_Unix0 (ns : Z) : Z := ns.
(** [time.Time{}], the first instant of year 1. *)
Definition zeroTime : Z := - 62135596800 * 1000000000.

(** ** wal_record.go *)

Module wal.

Definition OpSet : Z := 1.
Definition OpDelete : Z := 2.

Definition recordHeaderSize : Z := 1 + 2 + 4 + 8.

Record Record := mkRecord { Op : Z; Key : gostring; Value : gobytes; ExpiresAt : Z }.

Definition encode (r : Record) : go gobytes :=
  let buf := make (recordHeaderSize + len (Key r) + len (Value r)) in
  buf ← set_index buf 0 (Op r);
  buf ← PutUint16 buf 1 (u16 (len (Key r)));
  buf ← PutUint32 buf 3 (u32 (len (Value r)));
  buf ← (if Op r =? OpSet then PutUint64 buf 7 (u64 (UnixNano (ExpiresAt r))) else Ok buf);
  buf ← copy_at buf recordHeaderSize (Key r);
  copy_at buf (recordHeaderSize + len (Key r)) (Value r).

Definition unexpectedEOF (err : error) : error :=
  if bool_decide (err = io_EOF) then io_ErrUnexpectedEOF else err.

Definition readRecord (r : reader) : go Record * reader :=
  match ReadFull r recordHeaderSize with
  | (Ok header, r) =>
      match (op ← index header 0;
             s ← header.[1 : 3]; keyLen ← Uint16 s;
             s ← header.[3 : 7]; valLen ← Uint32 s;
             s ← header.[7 : 15]; expiresAt ← Uint64 s;
             Ok (op, keyLen, valLen, expiresAt)) with
      | Ok (op, keyLen, valLen, expiresAt) =>
          match ReadFull r keyLen with
          | (Ok key, r) =>
              match (if op =? OpSet then ReadFull r valLen else (Ok [], r)) with
              | (Ok value, r) => (Ok (mkRecord op key value (time_Unix0 (i64 expiresAt))), r)
              | (Err e, r) => (Err (unexpectedEOF e), r)
              | (Panic, r) => (Panic, r)
              end
          | (Err e, r) => (Err (unexpectedEOF e), r)
          | (Panic, r) => (Panic, r)
          end
      | Err e => (Err e, r)
      | Panic => (Panic, r)
      end
  | (Err e, r) => (Err e, r)
  | (Panic, r) => (Panic, r)
  end.

(** ** wal_replay.go *)

(** What [os.Open] finds at a path. *)
Inductive file_at := Missing | OpenError (e : error) | Contents (d : gobytes).

(** The [for] loop; [apply] is the callback, acting on the caller's state.  [None]
    would mean that [fuel] turns were not enough. *)
Fixpoint replay_loop {S} (fuel : nat) (apply : S → Record → S) (r : reader) (s : S)
  : option (go () * S) :=
  match fuel with
  | O => None
  | S fuel' =>
      match readRecord r with
      | (Ok rec, r) => replay_loop fuel' apply r (apply s rec)
      | (Err e, r) => Some (if bool_decide (e = io_EOF) then Ok () else Err e, s)
      | (Panic, r) => Some (Panic, s)
      end
  end.

Definition Replay {S} (f : file_at) (apply : S → Record → S) (s : S) : option (go () * S) :=
  match f with
  | Missing => Some (Ok (), s)
  | OpenError e => Some (Err e, s)
  | Contents d => replay_loop (Datatypes.S (length d)) apply (Reader d io_EOF) s
  end.

End wal.

(** ** The layout, and what reading it back gives *)

Definition record_bytes (r : wal.Record) : gobytes :=
  [wal.Op r] ++ be 2 (u16 (len (wal.Key r))) ++ be 4 (u32 (len (wal.Value r))) ++
  be 8 (if wal.Op r =? wal.OpSet then u64 (UnixNano (wal.ExpiresAt r)) else 0) ++
  wal.Key r ++ wal.Value r.

(** The records the program appends: a Set, or a Delete without a value, with
    lengths that fit their fields. *)
Definition record_ok (r : wal.Record) : Prop :=
  len (wal.Key r) < 65536 ∧ len (wal.Value r) < 2 ^ 32 ∧
  (wal.Op r = wal.OpSet ∨ wal.Op r = wal.OpDelete ∧ wal.Value r = []).

(** The record as the log gives it back: a Set's expiry cut to an [int64] of
    nanoseconds, a Delete's set to the epoch. *)
Definition stored (r : wal.Record) : wal.Record :=
  wal.mkRecord (wal.Op r) (wal.Key r) (wal.Value r)
    (if wal.Op r =? wal.OpSet then UnixNano (wal.ExpiresAt r) else 0).

Definition log_bytes (rs : list wal.Record) : gobytes := concat (record_bytes <$> rs).

Lemma make8 : make 8 = be 8 0.
Proof. vm_compute. reflexivity. Qed.

Lemma encode_bytes r : wal.encode r = Ok (record_bytes r).
Proof.
  unfold wal.encode, record_bytes, wal.recordHeaderSize. enc_start. do 3 enc_step.
  destruct (wal.Op r =? wal.OpSet);
    [|go_bind1; rewrite (skip_frontier _ _ 8), make8 by len_lia].
  all: repeat enc_step; enc_end.
Qed.

Lemma len_record_bytes r : len (record_bytes r) = 15 + len (wal.Key r) + len (wal.Value r).
Proof. unfold record_bytes. len_lia. Qed.

(** The header of a record, and the rest of it. *)
Definition record_header (r : wal.Record) : gobytes :=
  [wal.Op r] ++ be 2 (u16 (len (wal.Key r))) ++ be 4 (u32 (len (wal.Value r))) ++
  be 8 (if wal.Op r =? wal.OpSet then u64 (UnixNano (wal.ExpiresAt r)) else 0).

Lemma record_bytes_split r : record_bytes r = record_header r ++ wal.Key r ++ wal.Value r.
Proof. unfold record_bytes, record_header. by rewrite <-!app_assoc. Qed.

Lemma len_record_header r : len (record_header r) = 15.
Proof. unfold record_header. len_lia. Qed.

(** Reading on after the header of a good record. *)
Lemma readRecord_header r d e :
  record_ok r →
  wal.readRecord (Reader (record_header r ++ d) e) =
  match ReadFull (Reader d e) (len (wal.Key r)) with
  | (Ok key, rd) =>
      match (if wal.Op r =? wal.OpSet then ReadFull rd (len (wal.Value r)) else (Ok [], rd)) with
      | (Ok value, rd) =>
          (Ok (wal.mkRecord (wal.Op r) key value (wal.ExpiresAt (stored r))), rd)
      | (Err e, rd) => (Err (wal.unexpectedEOF e), rd)
      | (Panic, rd) => (Panic, rd)
      end
  | (Err e, rd) => (Err (wal.unexpectedEOF e), rd)
  | (Panic, rd) => (Panic, rd)
  end.
Proof.
  intros (?&?&Hop). pose proof (i64_range (wal.ExpiresAt r)).
  pose proof (u64_range (UnixNano (wal.ExpiresAt r))).
  unfold wal.readRecord, wal.recordHeaderSize.
  rewrite ReadFull_app by (rewrite len_record_header; lia). unfold record_header.
  assert (0 ≤ (if wal.Op r =? wal.OpSet then u64 (UnixNano (wal.ExpiresAt r)) else 0) < 2 ^ 64)
    by (destruct (_ =? _); lia).
  go_run. unfold stored, UnixNano, time_Unix0. simpl.
  destruct (wal.Op r =? wal.OpSet); [|done].
  by rewrite i64_u64_small by apply i64_range.
Qed.

Lemma readRecord_bytes r rest e :
  record_ok r → wal.readRecord (Reader (record_bytes r ++ rest) e) = (Ok (stored r), Reader rest e).
Proof.
  intros Hok. rewrite record_bytes_split, <-!app_assoc, readRecord_header by done.
  rewrite ReadFull_app by done. destruct Hok as (_&_&[Hop|[Hop Hv]]); unfold stored; rewrite Hop; simpl.
  - by rewrite ReadFull_app.
  - by rewrite Hv.
Qed.

(** A record that is cut off part-way is an unexpected end of file. *)
Lemma readRecord_cut r n :
  record_ok r → (0 < n)%nat → Z.of_nat n < len (record_bytes r) →
  wal.readRecord (Reader (take n (record_bytes r)) io_EOF) =
  (Err io_ErrUnexpectedEOF, Reader [] io_EOF).
Proof.
  intros Hok Hn0 Hn. rewrite record_bytes_split in *. pose proof (len_record_header r) as Hh.
  destruct (decide (Z.of_nat n < 15)).
  { unfold wal.readRecord, wal.recordHeaderSize. rewrite ReadFull_short; [done| |len_lia].
    intros E. apply (f_equal len) in E. revert E. len_lia. }
  rewrite take_past, readRecord_header by (done || lia). autorewrite with len in Hn.
  destruct (decide (Z.of_nat n < 15 + len (wal.Key r))) as [Hk|Hk].
  { destruct (decide (Z.of_nat n = 15)) as [E|].
    - replace (n - Z.to_nat (len (record_header r)))%nat with 0%nat by lia. simpl.
      rewrite ReadFull_eof by len_lia. done.
    - rewrite ReadFull_short; [done| |len_lia].
      intros E. apply (f_equal len) in E. revert E. len_lia. }
  rewrite take_past, ReadFull_app by (done || lia).
  destruct Hok as (_&_&[Hop|[_ Hv]]); [rewrite Hop; simpl|rewrite Hv in *; len_lia].
  destruct (decide (Z.of_nat n = 15 + len (wal.Key r))) as [E|].
  - replace (_ - _ - _)%nat with 0%nat by len_lia. simpl. rewrite ReadFull_eof by len_lia. done.
  - rewrite ReadFull_short; [done| |len_lia].
    intros E. apply (f_equal len) in E. revert E. len_lia.
Qed.

(** ** Replaying a log *)

Lemma readRecord_eof : wal.readRecord (Reader [] io_EOF) = (Err io_EOF, Reader [] io_EOF).
Proof. unfold wal.readRecord, wal.recordHeaderSize. by rewrite ReadFull_eof by lia. Qed.

Section replay.
Context {S : Type} (apply : S → wal.Record → S).

Lemma replay_loop_records rs : ∀ fuel rest s,
  Forall record_ok rs → (length rs ≤ fuel)%nat →
  wal.replay_loop fuel apply (Reader (log_bytes rs ++ rest) io_EOF) s =
  wal.replay_loop (fuel - length rs) apply (Reader rest io_EOF)
    (foldl apply s (stored <$> rs)).
Proof.
  induction rs as [|r rs IH]; intros fuel rest s Hok Hfuel.
  { cbn [length]. by rewrite Nat.sub_0_r. }
  apply Forall_cons in Hok as [??]. destruct fuel as [|fuel]; cbn [length] in *; [lia|].
  unfold log_bytes. cbn [fmap list_fmap concat wal.replay_loop foldl].
  rewrite <-app_assoc, readRecord_bytes by done. apply IH; [done|lia].
Qed.

Lemma length_log_bytes rs : (length rs ≤ length (log_bytes rs))%nat.
Proof.
  induction rs as [|r rs IH]; [done|].
  change (log_bytes (r :: rs)) with (record_bytes r ++ log_bytes rs).
  rewrite length_app. cbn [length]. pose proof (len_record_bytes r) as E. unfold len in E. lia.
Qed.

(** Replay of a complete log applies every record, oldest first. *)
Lemma Replay_complete rs s :
  Forall record_ok rs →
  wal.Replay (wal.Contents (log_bytes rs)) apply s =
  Some (Ok (), foldl apply s (stored <$> rs)).
Proof.
  intros Hok. unfold wal.Replay. rewrite <-(app_nil_r (log_bytes rs)) at 2.
  pose proof (length_log_bytes rs). rewrite replay_loop_records by (done || lia).
  destruct (_ - _)%nat eqn:E; [lia|]. cbn [wal.replay_loop]. rewrite readRecord_eof.
  by rewrite bool_decide_true.
Qed.

(** A log whose last record is cut off: the records before it are applied, then
    replay fails. *)
Lemma Replay_torn rs r n s :
  Forall record_ok rs → record_ok r → (0 < n)%nat → Z.of_nat n < len (record_bytes r) →
  wal.Replay (wal.Contents (log_bytes rs ++ take n (record_bytes r))) apply s =
  Some (Err io_ErrUnexpectedEOF, foldl apply s (stored <$> rs)).
Proof.
  intros Hok Hr Hn0 Hn. unfold wal.Replay. pose proof (length_log_bytes rs).
  rewrite length_app, replay_loop_records by (done || lia).
  destruct (_ - _)%nat eqn:E; [lia|]. cbn [wal.replay_loop]. rewrite readRecord_cut by done.
  by rewrite bool_decide_false.
Qed.
End replay.

(** ** Replay of arbitrary bytes *)

(** What the header's accessors do on fifteen bytes, whatever they are. *)
Lemma header_fields header :
  len header = 15 →
  ∃ op, (op ← index header 0;
         s ← header.[1 : 3]; keyLen ← Uint16 s;
         s ← header.[3 : 7]; valLen ← Uint32 s;
         s ← header.[7 : 15]; expiresAt ← Uint64 s;
         Ok (op, keyLen, valLen, expiresAt)) =
        Ok (op, field 2 header 1, field 4 header 3, field 8 header 7).
Proof.
  intros Hlen. destruct (index_bounds header 0) as (op & -> & _); [lia|]. go_bind1.
  exists op. by rewrite !read_field_bind by lia.
Qed.

Lemma readRecord_progress rd :
  (wal.readRecord rd).1 ≠ Panic ∧
  ∀ rec, (wal.readRecord rd).1 = Ok rec →
    (length (rd_data (wal.readRecord rd).2) < length (rd_data rd))%nat.
Proof.
  unfold wal.readRecord.
  pose proof (ReadFull_no_panic rd wal.recordHeaderSize) as Hp.
  destruct (ReadFull rd wal.recordHeaderSize) as [[header| |] rd1] eqn:E1; [|done..]. clear Hp.
  apply ReadFull_ok in E1 as (-> & -> & Hlen). unfold wal.recordHeaderSize in *.
  destruct (header_fields (take (Z.to_nat (1 + 2 + 4 + 8)) (rd_data rd))) as [op ->];
    [unfold len; rewrite length_take; lia|].
  generalize (field 2 (take (Z.to_nat (1 + 2 + 4 + 8)) (rd_data rd)) 1) as keyLen,
    (field 4 (take (Z.to_nat (1 + 2 + 4 + 8)) (rd_data rd)) 3) as valLen. intros keyLen valLen.
  match goal with |- context [ReadFull ?r keyLen] =>
    pose proof (ReadFull_no_panic r keyLen) as Hp; destruct (ReadFull r keyLen) as [[key| |] rd2] eqn:E2
  end; [|done..]. clear Hp. apply ReadFull_ok in E2 as (-> & -> & _). cbn [rd_data].
  destruct (op =? wal.OpSet).
  - match goal with |- context [ReadFull ?r valLen] =>
      pose proof (ReadFull_no_panic r valLen) as Hp; destruct (ReadFull r valLen) as [[val| |] rd3] eqn:E3
    end; [|done..]. apply ReadFull_ok in E3 as (-> & -> & _). cbn [fst snd rd_data].
    split; [done|]. intros rec _. rewrite !length_drop. lia.
  - cbn [fst snd rd_data]. split; [done|]. intros rec _. rewrite !length_drop. lia.
Qed.

Lemma replay_loop_total {S} (apply : S → wal.Record → S) fuel : ∀ rd s,
  (length (rd_data rd) < fuel)%nat →
  ∃ res s', wal.replay_loop fuel apply rd s = Some (res, s') ∧ res ≠ Panic.
Proof.
  induction fuel as [|fuel IH]; intros rd s Hfuel; [lia|]. cbn [wal.replay_loop].
  destruct (readRecord_progress rd) as [Hp Hlt].
  destruct (wal.readRecord rd) as [[rec|e|] rd']; simpl in *; [| |done].
  - apply IH. specialize (Hlt rec eq_refl). lia.
  - eexists _, _. split; [done|]. by case_bool_decide.
Qed.

Lemma Replay_total {S} (f : wal.file_at) (apply : S → wal.Record → S) s :
  ∃ res s', wal.Replay f apply s = Some (res, s') ∧ res ≠ Panic.
Proof.
  destruct f; unfold wal.Replay; [eauto..|]. apply replay_loop_total. cbn [rd_data]. lia.
Qed.

(** ** The properties of the format *)

Lemma encodings rs ds :
  Forall2 (λ r d, wal.encode r = Ok d) rs ds → concat ds = log_bytes rs.
Proof.
  induction 1 as [|r d rs ds E _ IH]; [done|]. rewrite encode_bytes in E. simplify_eq.
  unfold log_bytes in *. simpl. by rewrite IH.
Qed.

(** C22.  Records written back to back are read back by [Replay], all of them, in
    order and unchanged, up to the two fields the format does not carry in full: a
    Set's expiry becomes an [int64] of nanoseconds, a Delete's the epoch. *)
Theorem replay_reads_back {S} (apply : S → wal.Record → S) rs ds s :
  Forall record_ok rs → Forall2 (λ r d, wal.encode r = Ok d) rs ds →
  wal.Replay (wal.Contents (concat ds)) apply s = Some (Ok (), foldl apply s (stored <$> rs)).
Proof. intros Hok ->%encodings. by apply Replay_complete. Qed.

Definition example_records : list wal.Record :=
  [wal.mkRecord wal.OpSet [107] [1; 2; 3] 5000000000; wal.mkRecord wal.OpDelete [107] [] zeroTime].

Lemma replay_reads_back_witness :
  wal.Replay (wal.Contents (concat (record_bytes <$> example_records))) (λ l r, l ++ [r]) [] =
  Some (Ok (), foldl (λ l r, l ++ [r]) [] (stored <$> example_records)).
Proof.
  apply (replay_reads_back (λ l r, l ++ [r]) example_records (record_bytes <$> example_records) []).
  - apply Forall_cons; split; [|apply Forall_singleton]; (split_and!; [vm_compute; reflexivity..|]);
      vm_compute; auto.
  - apply Forall2_cons; split; [apply encode_bytes|]. apply Forall2_cons; split; [apply encode_bytes|].
    apply Forall2_nil. exact I.
Defined.
