(* ===== verification/Os.v ===== *)
(** * Files (the part of [os] and [bufio] the log uses)

    A small model of a file system: names refer to files, open handles refer to
    files (and keep doing so when the name is given to another file), a write
    reaches the file at once and the disk at the next [Sync].  Any call may fail:
    the world carries the faults still to come, one entry per call, and a call
    that finds no entry succeeds. *)

From S2P Require Import Prelude GoLang.

(** [cached] is what a reader of the running system sees, [durable] what a power
    failure cannot take back. *)
Record file := mkFile { cached : gobytes; durable : gobytes }.

(** The error a call fails with; a failing [Write] may have written some bytes. *)
Record fault := mkFault { fault_error : error; fault_written : nat }.

Record World := mkWorld {
  names : gmap gostring nat;
  files : gmap nat file;
  handles : gmap nat nat;
  fresh : nat;
  faults : list (option fault);
}.

Definition os_ErrNotExist : error := ErrorString (str "file does not exist").
Definition os_ErrClosed : error := ErrorString (str "file already closed").

(** ** Code that uses the file system *)

Definition io (A : Type) : Type := World → go A * World.

#[export] Instance io_ret : MRet io := λ A a w, (Ok a, w).
#[export] Instance io_bind : MBind io := λ A B f m w,
  match m w with
  | (Ok a, w) => f a w
  | (Err e, w) => (Err e, w)
  | (Panic, w) => (Panic, w)
  end.

(** Pure code in a file operation. *)
Definition lift {A} (m : go A) : io A := λ w, (m, w).
Definition fail {A} (e : error) : io A := λ w, (Err e, w).

(** [if err != nil { handler }] *)
Definition catch {A} (m : io A) (h : error → io A) : io A := λ w,
  match m w with
  | (Err e, w) => h e w
  | r => r
  end.

(** A call whose error is not looked at. *)
Definition ignore (m : io ()) : io () := catch m (λ _, mret ()).

Fixpoint io_each {A} (f : A → io ()) (l : list A) : io () :=
  match l with
  | [] => mret ()
  | x :: l => _ ← f x; io_each f l
  end.

(** The fault of this call, if it has one. *)
Definition next_fault (w : World) : option fault * World :=
  match faults w with
  | [] => (None, w)
  | f :: fs => (f, mkWorld (names w) (files w) (handles w) (fresh w) fs)
  end.

Definition with_fault {A} (k : World → go A * World) : io A := λ w,
  match next_fault w with
  | (Some f, w) => (Err (fault_error f), w)
  | (None, w) => k w
  end.

(** A new handle on the file [i]. *)
Definition new_handle (i : nat) : World → go nat * World := λ w,
  (Ok (fresh w), mkWorld (names w) (files w) (<[fresh w := i]> (handles w)) (S (fresh w)) (faults w)).

(** The file a name refers to, made when there is none. *)
Definition create (name : gostring) (w : World) : nat * World :=
  match names w !! name with
  | Some i => (i, w)
  | None => (fresh w, mkWorld (<[name := fresh w]> (names w)) (<[fresh w := mkFile [] []]> (files w))
                        (handles w) (S (fresh w)) (faults w))
  end.

Definition set_file (i : nat) (f : file) (w : World) : World :=
  mkWorld (names w) (<[i := f]> (files w)) (handles w) (fresh w) (faults w).

(** [os.OpenFile(name, os.O_APPEND|os.O_CREATE|os.O_RDWR, 0644)] *)
Definition OpenAppend (name : gostring) : io nat :=
  with_fault (λ w, let '(i, w) := create name w in new_handle i w).

(** [os.OpenFile(name, os.O_CREATE|os.O_WRONLY|os.O_TRUNC, 0644)] *)
Definition OpenTrunc (name : gostring) : io nat :=
  with_fault (λ w, let '(i, w) := create name w in
                   let dur := default [] (durable <$> files w !! i) in
                   new_handle i (set_file i (mkFile [] dur) w)).

(** The file behind an open handle. *)
Definition handle_file (h : nat) (w : World) : option (nat * file) :=
  i ← handles w !! h; f ← files w !! i; Some (i, f).

(** [file.Write(b)]: both ways of opening a file write at its end. *)
Definition file_Write (h : nat) (b : gobytes) : io () := λ w,
  match handle_file h w with
  | None => (Err os_ErrClosed, w)
  | Some (i, f) =>
      match next_fault w with
      | (Some ft, w) =>
          (Err (fault_error ft), set_file i (mkFile (cached f ++ take (fault_written ft) b) (durable f)) w)
      | (None, w) => (Ok (), set_file i (mkFile (cached f ++ b) (durable f)) w)
      end
  end.

(** [file.Sync()] *)
Definition file_Sync (h : nat) : io () := λ w,
  match handle_file h w with
  | None => (Err os_ErrClosed, w)
  | Some (i, f) => with_fault (λ w, (Ok (), set_file i (mkFile (cached f) (cached f)) w)) w
  end.

(** [file.Close()]: the handle is gone even when an error is reported. *)
Definition file_Close (h : nat) : io () := λ w,
  match handles w !! h with
  | None => (Err os_ErrClosed, w)
  | Some _ =>
      with_fault (λ w, (Ok (), w))
        (mkWorld (names w) (files w) (delete h (handles w)) (fresh w) (faults w))
  end.

(** [os.Rename(from, to)] *)
Definition os_Rename (from to : gostring) : io () :=
  with_fault (λ w,
    match names w !! from with
    | None => (Err os_ErrNotExist, w)
    | Some i => (Ok (), mkWorld (<[to := i]> (delete from (names w))) (files w) (handles w) (fresh w) (faults w))
    end).

(** [os.Remove(name)] *)
Definition os_Remove (name : gostring) : io () :=
  with_fault (λ w,
    match names w !! name with
    | None => (Err os_ErrNotExist, w)
    | Some i => (Ok (), mkWorld (delete name (names w)) (files w) (handles w) (fresh w) (faults w))
    end).

(** ** bufio.Writer

    The bytes buffered so far and the error that made the writer give up. *)

Record bufio := mkBufio { buffered : gobytes; bufio_err : option error }.

Definition defaultBufSize : Z := 4096.
Definition NewWriter : bufio := mkBufio [] None.

(** Hand bytes to the file, remembering an error. *)
Definition bufio_out (h : nat) (d : gobytes) (rest : gobytes) : World → bufio * World := λ w,
  match file_Write h d w with
  | (Ok _, w) => (mkBufio rest None, w)
  | (Err e, w) => (mkBufio d (Some e), w)
  | (Panic, w) => (mkBufio d None, w)
  end.

(** [buf.Write(p)]: bytes that do not fit fill the buffer, which is written out;
    what is left is buffered, or written directly when it is larger than a
    buffer. *)
Definition bufio_Write (h : nat) (b : bufio) (p : gobytes) (w : World) : bufio * World :=
  match bufio_err b with
  | Some _ => (b, w)
  | None =>
      let room := defaultBufSize - len (buffered b) in
      if len p <=? room then (mkBufio (buffered b ++ p) None, w)
      else if bool_decide (buffered b = []) then bufio_out h p [] w
      else
        let '(b', w) := bufio_out h (buffered b ++ take (Z.to_nat room) p) [] w in
        let rest := drop (Z.to_nat room) p in
        match bufio_err b' with
        | Some _ => (b', w)
        | None => if len rest <=? defaultBufSize then (mkBufio rest None, w)
                  else bufio_out h rest [] w
        end
  end.

(** [buf.Flush()] *)
Definition bufio_Flush (h : nat) (b : bufio) (w : World) : bufio * World :=
  match bufio_err b with
  | Some _ => (b, w)
  | None => if bool_decide (buffered b = []) then (b, w) else bufio_out h (buffered b) [] w
  end.

(** ** Reading a file by name, and power failure *)

Definition read_name (name : gostring) (w : World) : option gobytes :=
  i ← names w !! name; cached <$> files w !! i.

Definition read_durable (name : gostring) (w : World) : option gobytes :=
  i ← names w !! name; durable <$> files w !! i.

(** What a power failure may leave of a file: the durable bytes are there, of the
    bytes written since any number. *)
Definition survives (f : file) (d : gobytes) : Prop :=
  durable f `prefix_of` d ∧ d `prefix_of` cached f.
