(* ===== verification/WalWriter.v ===== *)
(** * Appending to the log and compacting it (storage/wal/wal_writer.go,
    wal_options.go, wal_compaction.go)

    The log as the store uses it, on the file system of [Os].  In modes [always]
    and [none] an append is one call; in mode [interval] it hands the record to a
    background goroutine, and the log is a state machine whose steps are the
    sends of the appenders, the turns of the goroutine's [select] loop and the
    stages of [Close]. *)

From S2P Require Import Prelude GoLang WalRecord Os.

(** ** wal_options.go *)

Definition SyncAlways : gostring := str "always".
Definition SyncInterval : gostring := str "interval".
Definition SyncNone : gostring := str "none".

(** [FlushInterval] only sets how often the goroutine's timer fires. *)
Record Options := mkOptions { Mode : gostring; FlushInterval : Z; MaxBatchSize : Z }.

(** ** wal_writer.go

    [wfile] is the handle; the channels and the goroutine's batch are the fields
    of [Flusher] below. *)

Record WAL := mkWAL { path : gostring; options : Options; wfile : nat }.

(** [Open], up to the start of the flusher. *)
Definition Open (p : gostring) (opts : Options) : io WAL :=
  h ← OpenAppend p;
  mret (mkWAL p opts h).

(** [append] in the modes that write at once. *)
Definition append (w : WAL) (r : wal.Record) : io () :=
  buf ← lift (wal.encode r);
  _ ← file_Write (wfile w) buf;
  if bool_decide (Mode (options w) = SyncAlways) then file_Sync (wfile w) else mret ().

Definition set_record (key : gostring) (value : gobytes) (expiresAt : Z) : wal.Record :=
  wal.mkRecord wal.OpSet key value expiresAt.
Definition delete_record (key : gostring) : wal.Record :=
  wal.mkRecord wal.OpDelete key [] zeroTime.

Definition AppendSet (w : WAL) (key : gostring) (value : gobytes) (expiresAt : Z) : io () :=
  append w (set_record key value expiresAt).
Definition AppendDelete (w : WAL) (key : gostring) : io () :=
  append w (delete_record key).

(** [Close] in the modes without a flusher. *)
Definition Close (w : WAL) : io () :=
  _ ← ignore (file_Sync (wfile w));
  file_Close (wfile w).

(** *** The flusher of mode [interval] *)

Record Flusher := mkFlusher {
  writeCh : list gobytes;   (* buffered records, capacity [MaxBatchSize*2] *)
  batch : list gobytes;
  stopCh : bool;            (* closed? *)
  running : bool;           (* the goroutine has not returned *)
  closed : bool;            (* [Close] has closed the file *)
}.

Record Sys := mkSys { world : World; swal : WAL; flusher : Flusher }.

Definition start (w : World) (l : WAL) : Sys := mkSys w l (mkFlusher [] [] false true false).

(** The [flush] closure: errors of [Write] and [Sync] are not looked at. *)
Definition flush_writes (w : WAL) (b : list gobytes) : io () :=
  _ ← io_each (λ d, ignore (file_Write (wfile w) d)) b;
  ignore (file_Sync (wfile w)).

Definition flush (s : Sys) : Sys :=
  let f := flusher s in
  if bool_decide (batch f = []) then s else
  mkSys (flush_writes (swal s) (batch f) (world s)).2 (swal s)
    (mkFlusher (writeCh f) [] (stopCh f) (running f) (closed f)).

(** [case data := <-w.writeCh] *)
Definition receive (s : Sys) (data : gobytes) (rest : list gobytes) : Sys :=
  let f := flusher s in
  let s := mkSys (world s) (swal s) (mkFlusher rest (batch f ++ [data]) (stopCh f) (running f) (closed f)) in
  if MaxBatchSize (options (swal s)) <=? len (batch (flusher s)) then flush s else s.

(** [case <-w.stopCh] *)
Definition stopped (s : Sys) : Sys :=
  let s := flush s in
  let f := flusher s in
  mkSys (world s) (swal s) (mkFlusher (writeCh f) (batch f) (stopCh f) false (closed f)).

Definition send (s : Sys) (buf : gobytes) : Sys :=
  let f := flusher s in
  mkSys (world s) (swal s) (mkFlusher (writeCh f ++ [buf]) (batch f) (stopCh f) (running f) (closed f)).

Definition close_stop (s : Sys) : Sys :=
  let f := flusher s in
  mkSys (world s) (swal s) (mkFlusher (writeCh f) (batch f) true (running f) (closed f)).

Definition close_file (s : Sys) : Sys :=
  let f := flusher s in
  mkSys (file_Close (wfile (swal s)) (world s)).2 (swal s)
    (mkFlusher (writeCh f) (batch f) (stopCh f) (running f) true).

(** The steps.  A label tells which records have been appended. *)
Inductive label := Appended (r : wal.Record) | Internal.

Inductive step : Sys → label → Sys → Prop :=
  (** [w.writeCh <- buf], when the buffer has room ... *)
  | step_send s r buf :
      wal.encode r = Ok buf →
      len (writeCh (flusher s)) < MaxBatchSize (options (swal s)) * 2 →
      step s (Appended r) (send s buf)
  (** ... or, on an unbuffered channel, straight to the waiting goroutine *)
  | step_handoff s r buf :
      wal.encode r = Ok buf → running (flusher s) = true → writeCh (flusher s) = [] →
      step s (Appended r) (receive s buf [])
  | step_receive s data rest :
      running (flusher s) = true → writeCh (flusher s) = data :: rest →
      step s Internal (receive s data rest)
  | step_tick s :
      running (flusher s) = true → step s Internal (flush s)
  | step_stop s :
      running (flusher s) = true → stopCh (flusher s) = true →
      step s Internal (stopped s)
  (** [Close]: close the channel, wait for the goroutine, close the file *)
  | step_close_stop s :
      stopCh (flusher s) = false → step s Internal (close_stop s)
  | step_close_file s :
      stopCh (flusher s) = true → running (flusher s) = false → closed (flusher s) = false →
      step s Internal (close_file s).

(** A run, with the records appended in it, in order. *)
Inductive run : Sys → list wal.Record → Sys → Prop :=
  | run_nil s : run s [] s
  | run_internal s s' s'' rs : run s rs s' → step s' Internal s'' → run s rs s''
  | run_append s s' s'' rs r : run s rs s' → step s' (Appended r) s'' → run s (rs ++ [r]) s''.

(** ** wal_compaction.go

    A snapshot is the function that writes the records: given the [write]
    callback, which acts on the buffered writer, it returns nil or an error. *)

Definition Snapshot := (wal.Record → bufio → World → go () * (bufio * World)) → bufio → World → go () * (bufio * World).

Definition snapshot_write (h : nat) (r : wal.Record) (b : bufio) (w : World) : go () * (bufio * World) :=
  match wal.encode r with
  | Ok d => let '(b, w) := bufio_Write h b d w in
            (match bufio_err b with Some e => Err e | None => Ok () end, (b, w))
  | Err e => (Err e, (b, w))
  | Panic => (Panic, (b, w))
  end.

(** From the call of [snapshot] to the final return. *)
Definition writeSnapshot_body (h : nat) (snapshot : Snapshot) : io () := λ w,
  let '(err, (b, w)) := snapshot (snapshot_write h) NewWriter w in
  let '(err, w) :=
    match err with
    | Ok _ => let '(b, w) := bufio_Flush h b w in
              (match bufio_err b with Some e => Err e | None => Ok () end, w)
    | _ => (err, w)
    end in
  let '(err, w) := match err with Ok _ => file_Sync h w | _ => (err, w) end in
  match err with
  | Panic => (Panic, w)
  | _ => let '(closeErr, w) := file_Close h w in
         (match err with Ok _ => closeErr | _ => err end, w)
  end.

Definition writeSnapshot (p : gostring) (snapshot : Snapshot) : io () :=
  h ← OpenTrunc p;
  writeSnapshot_body h snapshot.

(** [os.Remove(tmpPath); return err] *)
Definition remove_and_fail {A} (tmpPath : gostring) (e : error) : io A :=
  _ ← ignore (os_Remove tmpPath);
  fail e.

(** The swap, under the lock: rename, then switch to a handle on the new file. *)
Definition swap (w : WAL) (tmpPath : gostring) : io WAL :=
  _ ← catch (os_Rename tmpPath (path w)) (remove_and_fail tmpPath);
  newFile ← OpenAppend (path w);
  _ ← ignore (file_Close (wfile w));
  mret (mkWAL (path w) (options w) newFile).

Definition Compact (w : WAL) (snapshot : Snapshot) : io WAL :=
  let tmpPath := path w ++ str ".tmp" in
  _ ← catch (writeSnapshot tmpPath snapshot) (remove_and_fail tmpPath);
  swap w tmpPath.

(** ** Lemmas on an open log

    [log_at l w f]: the log's handle and its name both refer to the file [f]. *)
Definition log_at (l : WAL) (w : World) (f : file) : Prop :=
  ∃ i, handles w !! wfile l = Some i ∧ names w !! path l = Some i ∧ files w !! i = Some f.

Lemma next_fault_world w ft w' : next_fault w = (ft, w') →
  names w' = names w ∧ files w' = files w ∧ handles w' = handles w ∧ fresh w' = fresh w.
Proof. unfold next_fault. destruct (faults w) as [|? fs]; intros; by simplify_eq. Qed.

Lemma next_fault_none w ft w' : faults w = [] → next_fault w = (ft, w') → ft = None ∧ w' = w.
Proof. unfold next_fault. intros ->. by intros [= <- <-]. Qed.

Lemma handle_file_log l w f : log_at l w f →
  ∃ i, handle_file (wfile l) w = Some (i, f) ∧ handles w !! wfile l = Some i ∧ names w !! path l = Some i.
Proof.
  intros (i & Hh & Hn & Hf). exists i. unfold handle_file. by rewrite Hh; simpl; rewrite Hf.
Qed.

Lemma log_at_set l w w0 i f :
  handles w !! wfile l = Some i → names w !! path l = Some i →
  handles w0 = handles w → names w0 = names w →
  log_at l (set_file i f w0) f.
Proof.
  intros Hh Hn E1 E2. exists i. cbn. rewrite E1, E2. by rewrite lookup_insert_eq.
Qed.

(** What one [Write] and one [Sync] can do to the log. *)
Lemma file_Write_log l w f b res w' :
  log_at l w f → file_Write (wfile l) b w = (res, w') →
  ∃ n, log_at l w' (mkFile (cached f ++ take n b) (durable f)) ∧
    (res = Ok () ∧ take n b = b ∨ ∃ e, res = Err e ∧ faults w ≠ []).
Proof.
  intros (i & E & Hh & Hn)%handle_file_log Hw. unfold file_Write in Hw. rewrite E in Hw.
  destruct (next_fault w) as [ft w1] eqn:Ef. pose proof (next_fault_world _ _ _ Ef) as (En & _ & Eh & _).
  destruct ft as [ft|]; simplify_eq.
  - exists (fault_written ft). split; [by eapply log_at_set|]. right. eexists. split; [done|].
    intros Hnil. by apply next_fault_none in Ef as [??].
  - exists (length b). rewrite firstn_all. split; [by eapply log_at_set|by left].
Qed.

Lemma file_Sync_log l w f res w' :
  log_at l w f → file_Sync (wfile l) w = (res, w') →
  res = Ok () ∧ log_at l w' (mkFile (cached f) (cached f)) ∨
  (∃ e, res = Err e ∧ faults w ≠ []) ∧ log_at l w' f.
Proof.
  intros Hl Hs. pose proof Hl as (i & E & Hh & Hn)%handle_file_log.
  unfold file_Sync, with_fault in Hs. rewrite E in Hs.
  destruct (next_fault w) as [ft w1] eqn:Ef.
  pose proof (next_fault_world _ _ _ Ef) as (En & Efl & Eh & _).
  destruct ft as [ft|]; simplify_eq.
  - right. split.
    + eexists. split; [done|]. intros Hnil. by apply next_fault_none in Ef as [??].
    + destruct Hl as (j & ?&?&?). exists j. by rewrite En, Efl, Eh.
  - left. split; [done|]. by eapply log_at_set.
Qed.

(** The outcomes of an append in the modes without a flusher. *)
Definition is_always (l : WAL) : bool := bool_decide (Mode (options l) = SyncAlways).

Lemma append_cases l w f r res w' :
  log_at l w f → append l r w = (res, w') →
  (res = Ok () ∧ log_at l w' (mkFile (cached f ++ record_bytes r)
                                (if is_always l then cached f ++ record_bytes r else durable f))) ∨
  (∃ e n, res = Err e ∧ faults w ≠ [] ∧
     log_at l w' (mkFile (cached f ++ take n (record_bytes r)) (durable f))).
Proof.
  intros Hl. unfold append, lift, mbind, io_bind. rewrite encode_bytes.
  destruct (file_Write _ _ w) as [resw w1] eqn:Ew.
  destruct (file_Write_log _ _ _ _ _ _ Hl Ew) as (n & Hl1 & [[-> Hn]|(e & -> & Hf)]);
    [|intros [= <- <-]; right; eauto].
  rewrite Hn in Hl1. unfold is_always. case_bool_decide; [|intros [= <- <-]; by left].
  intros Es. destruct (file_Sync_log _ _ _ _ _ Hl1 Es) as [[-> Hl2]|[(e & -> & Hf) Hl2]]; [by left|].
  right. exists e, (length (record_bytes r)). rewrite firstn_all. split_and!; [done| |done].
  intros Hnil. apply Hf. unfold file_Write in Ew.
  destruct (handle_file _ _) as [[i f0]|]; [|done]. unfold next_fault in Ew.
  rewrite Hnil in Ew. by simplify_eq/=.
Qed.

(** A run of appends; it stops at the first error. *)
Definition append_all (l : WAL) (rs : list wal.Record) : io () := io_each (append l) rs.

Lemma append_all_ok l rs : ∀ w f w',
  log_at l w f → append_all l rs w = (Ok (), w') →
  log_at l w' (mkFile (cached f ++ log_bytes rs)
                 (if is_always l && negb (bool_decide (rs = [])) then cached f ++ log_bytes rs else durable f)).
Proof.
  induction rs as [|r rs IH]; intros w f w' Hl; unfold append_all; cbn [io_each].
  - intros [= <-]. unfold log_bytes. simpl. rewrite app_nil_r, andb_false_r. by destruct f.
  - unfold mbind, io_bind. destruct (append l r w) as [res w1] eqn:Ea.
    destruct (append_cases _ _ _ _ _ _ Hl Ea) as [[-> Hl1]|(e & n & -> & _)]; [|done].
    intros Hrs. specialize (IH _ _ _ Hl1 Hrs). cbn [cached durable] in IH.
    unfold log_bytes in *. cbn [fmap list_fmap concat]. rewrite app_assoc.
    destruct (is_always l); cbn [andb] in *; [|exact IH].
    rewrite (bool_decide_false (r :: rs = [])) by done.
    destruct rs; [|exact IH]. simpl in *. by rewrite !app_nil_r in *.
Qed.

(** ** The flusher, when no call fails *)

Lemma file_Write_calm l w f b : log_at l w f → faults w = [] →
  ∃ w', file_Write (wfile l) b w = (Ok (), w') ∧ faults w' = [] ∧
    log_at l w' (mkFile (cached f ++ b) (durable f)).
Proof.
  intros Hl Hf. destruct (file_Write (wfile l) b w) as [res w'] eqn:Ew.
  destruct (file_Write_log _ _ _ _ _ _ Hl Ew) as (n & Hl' & [[-> Hn]|(e & _ & [])]); [|done].
  rewrite Hn in Hl'. exists w'. split_and!; [done| |done].
  unfold file_Write in Ew. destruct (handle_file _ _) as [[i f0]|]; [|done].
  unfold next_fault in Ew. rewrite Hf in Ew. by simplify_eq/=.
Qed.

Lemma file_Sync_calm l w f : log_at l w f → faults w = [] →
  ∃ w', file_Sync (wfile l) w = (Ok (), w') ∧ faults w' = [] ∧ log_at l w' (mkFile (cached f) (cached f)).
Proof.
  intros Hl Hf. destruct (file_Sync (wfile l) w) as [res w'] eqn:Es.
  destruct (file_Sync_log _ _ _ _ _ Hl Es) as [[-> Hl']|[(e & _ & []) _]]; [|done].
  exists w'. split_and!; [done| |done].
  unfold file_Sync, with_fault in Es. destruct (handle_file _ _) as [[i f0]|]; [|done].
  unfold next_fault in Es. rewrite Hf in Es. by simplify_eq/=.
Qed.

Lemma flush_writes_calm l b : ∀ w f, log_at l w f → faults w = [] →
  ∃ w', flush_writes l b w = (Ok (), w') ∧ faults w' = [] ∧
    log_at l w' (mkFile (cached f ++ concat b) (cached f ++ concat b)).
Proof.
  unfold flush_writes. induction b as [|d b IH]; intros w f Hl Hf; cbn [io_each concat].
  - destruct (file_Sync_calm _ _ _ Hl Hf) as (w' & E & ? & ?). exists w'. rewrite app_nil_r.
    unfold ignore, catch, mbind, io_bind, mret, io_ret. by rewrite E.
  - destruct (file_Write_calm l w f d Hl Hf) as (w1 & E1 & Hf1 & Hl1).
    destruct (IH _ _ Hl1 Hf1) as (w2 & E2 & Hf2 & Hl2). exists w2. split_and!; [|done|].
    + unfold ignore, catch, mbind, io_bind in *. by rewrite E1.
    + cbn [cached] in Hl2. by rewrite <-app_assoc in Hl2.
Qed.

(** The records [rs] sent so far are, in order, on the file and then in [pending]. *)
Definition on_file (l : WAL) (f0 : file) (rs : list wal.Record) (w : World)
    (is_closed : bool) (pending : list gobytes) : Prop :=
  ∃ f flushed,
    flushed ++ pending = record_bytes <$> rs ∧
    cached f = cached f0 ++ concat flushed ∧
    (flushed = [] ∧ durable f = durable f0 ∨ durable f = cached f) ∧
    (is_closed = false → log_at l w f) ∧
    read_name (path l) w = Some (cached f) ∧ read_durable (path l) w = Some (durable f).

Record fifo (l : WAL) (f0 : file) (rs : list wal.Record) (s : Sys) : Prop := {
  fifo_wal : swal s = l;
  fifo_calm : faults (world s) = [];
  fifo_closed : running (flusher s) = true → closed (flusher s) = false;
  fifo_batch : batch (flusher s) = [] ∨ len (batch (flusher s)) < MaxBatchSize (options l);
  fifo_stopped : running (flusher s) = false → batch (flusher s) = [];
  fifo_file : on_file l f0 rs (world s) (closed (flusher s)) (batch (flusher s) ++ writeCh (flusher s));
}.

Lemma log_at_read l w f : log_at l w f →
  read_name (path l) w = Some (cached f) ∧ read_durable (path l) w = Some (durable f).
Proof.
  intros (i & _ & Hn & Hf). unfold read_name, read_durable. rewrite Hn. simpl. by rewrite Hf.
Qed.

Lemma fifo_start l w f : log_at l w f → faults w = [] → fifo l f [] (start w l).
Proof.
  intros Hl Hf. split; try done; [by left|]. exists f, []. simpl.
  rewrite app_nil_r. pose proof (log_at_read _ _ _ Hl). naive_solver.
Qed.

Lemma on_file_flush l f0 rs w b ch :
  on_file l f0 rs w false (b ++ ch) → faults w = [] →
  faults (flush_writes l b w).2 = [] ∧ on_file l f0 rs (flush_writes l b w).2 false ch.
Proof.
  intros (f & flushed & Hrs & Hc & _ & Hl & _) Hf.
  destruct (flush_writes_calm l b w f (Hl eq_refl) Hf) as (w' & -> & Hf' & Hl'). split; [done|].
  pose proof (log_at_read _ _ _ Hl') as [Hr1 Hr2].
  eexists _, (flushed ++ b). split_and!; [by rewrite <-app_assoc| | |done..|exact Hr1|exact Hr2].
  - simpl. by rewrite Hc, concat_app, app_assoc.
  - by right.
Qed.

(** Flushing keeps the order; the batch may be full. *)
Lemma fifo_flush l f0 rs s :
  swal s = l → faults (world s) = [] → closed (flusher s) = false → running (flusher s) = true →
  on_file l f0 rs (world s) false (batch (flusher s) ++ writeCh (flusher s)) →
  fifo l f0 rs (flush s) ∧ batch (flusher (flush s)) = [].
Proof.
  intros <- Hf Hc Hrun Hof. unfold flush. case_bool_decide as Hb.
  - split; [|done]. split; try done; [by left|]. by rewrite Hc.
  - destruct (on_file_flush _ _ _ _ _ _ Hof Hf) as [Hf' Hof']. split; [|done].
    split; simpl; try done; [by left|]. by rewrite Hc.
Qed.

Lemma fifo_receive l f0 rs s data rest :
  fifo l f0 rs (mkSys (world s) (swal s) (mkFlusher (data :: rest) (batch (flusher s))
     (stopCh (flusher s)) (running (flusher s)) (closed (flusher s)))) →
  running (flusher s) = true → fifo l f0 rs (receive s data rest).
Proof.
  intros [<- Hf Hc Hb Hst Hof] Hrun. simpl in *. unfold receive. cbn [swal flusher batch].
  assert (batch (flusher s) ++ data :: rest = (batch (flusher s) ++ [data]) ++ rest) as E
    by (by rewrite <-app_assoc).
  rewrite (Hc Hrun), E in Hof.
  destruct (_ <=? _) eqn:Efull.
  - apply fifo_flush; auto.
  - split; simpl; auto; [right; lia|congruence|]. by rewrite (Hc Hrun).
Qed.

Lemma fifo_send l f0 rs r s :
  fifo l f0 rs s → fifo l f0 (rs ++ [r]) (send s (record_bytes r)).
Proof.
  intros [Hl Hf Hc Hb Hst (f & flushed & Hrs & Hof)]. split; try done. exists f, flushed.
  split; [|done]. simpl. by rewrite fmap_app, <-Hrs, <-!app_assoc.
Qed.

(** Closing the file does not touch its contents. *)
Lemma file_Close_read h w p :
  read_name p (file_Close h w).2 = read_name p w ∧ read_durable p (file_Close h w).2 = read_durable p w
  ∧ (faults w = [] → faults (file_Close h w).2 = []).
Proof.
  unfold file_Close, with_fault, next_fault. destruct (handles w !! h); [|done].
  simpl. destruct (faults w) as [|[?|] ?]; done.
Qed.

Lemma fifo_step l f0 rs s lab s' :
  fifo l f0 rs s → step s lab s' →
  fifo l f0 (rs ++ match lab with Appended r => [r] | Internal => [] end) s'.
Proof.
  intros Hi Hs. destruct Hs as [s r buf E Hroom|s r buf E Hrun Hch|s data rest Hrun Hch|s Hrun|s Hrun Hst|s Hst|s Hst Hrun Hcl];
    rewrite ?app_nil_r; rewrite ?encode_bytes in *; simplify_eq/=.
  - by apply fifo_send.
  - apply fifo_receive; [|done]. apply (fifo_send _ _ _ r) in Hi. unfold send in Hi.
    by rewrite Hch in Hi.
  - apply fifo_receive; [|done]. destruct Hi as [H1 H2 H3 H4 H5 H6]. rewrite Hch in H6. by split.
  - destruct Hi as [H1 H2 H3 H4 H5 H6]. rewrite H3 in H6 by done. apply fifo_flush; auto.
  - destruct Hi as [H1 H2 H3 H4 H5 H6]. rewrite H3 in H6 by done.
    destruct (fifo_flush l f0 rs s) as [[G1 G2 G3 G4 G5 G6] Gb]; auto. by split.
  - destruct Hi as [H1 H2 H3 H4 H5 H6]. by split.
  - destruct Hi as [<- H2 H3 H4 H5 (f & flushed & ?&?&?&_&?&?)].
    destruct (file_Close_read (wfile (swal s)) (world s) (path (swal s))) as (E1 & E2 & E3).
    split; simpl; auto; [congruence|]. exists f, flushed. rewrite E1, E2. by split_and!.
Qed.

Lemma fifo_run l f0 w rs s : log_at l w f0 → faults w = [] → run (start w l) rs s → fifo l f0 rs s.
Proof.
  intros Hl Hf Hr. remember (start w l) as s0. induction Hr as [s|s s' s'' rs _ IH Hs|s s' s'' rs r _ IH Hs].
  - subst. by apply fifo_start.
  - rewrite <-(app_nil_r rs). by apply (fifo_step _ _ _ _ Internal s'' (IH Heqs0)).
  - by apply (fifo_step _ _ _ _ (Appended r) s'' (IH Heqs0)).
Qed.

(** ** Compaction *)

(** The snapshot that writes the given records, up to the first error. *)
Fixpoint write_all (rs : list wal.Record) : Snapshot := λ write b w,
  match rs with
  | [] => (Ok (), (b, w))
  | r :: rs =>
      match write r b w with
      | (Ok _, (b, w)) => write_all rs write b w
      | res => res
      end
  end.

(** Names, files and handles are in order: nothing refers to a number not yet
    given out, and no two names share a file. *)
Record world_ok (w : World) : Prop := {
  ok_names n i : names w !! n = Some i → (i < fresh w)%nat ∧ is_Some (files w !! i);
  ok_handles h i : handles w !! h = Some i → (h < fresh w)%nat ∧ (i < fresh w)%nat;
  ok_inj n1 n2 i : names w !! n1 = Some i → names w !! n2 = Some i → n1 = n2;
}.

(** The handle [h] is on another file than the log, which is [f]. *)
Record quiet (l : WAL) (f : file) (h : nat) (w : World) : Prop := {
  quiet_log : log_at l w f;
  quiet_fresh : (wfile l < fresh w)%nat;
  quiet_handle : h ≠ wfile l;
  quiet_file i j : handles w !! wfile l = Some i → handles w !! h = Some j → i ≠ j;
  quiet_name n i : names w !! n = Some i → names w !! path l = Some i → n = path l;
}.

Lemma quiet_same l f h w w' :
  quiet l f h w → names w' = names w → files w' = files w → handles w' = handles w → fresh w' = fresh w →
  quiet l f h w'.
Proof.
  intros [(i&?&?&?) Hf Hh Hd Hn] En Efl Eh Efr. split; rewrite ?Efr, ?Eh, ?En; try done.
  exists i. by rewrite En, Efl, Eh.
Qed.

Lemma quiet_next_fault l f h w ft w' : quiet l f h w → next_fault w = (ft, w') → quiet l f h w'.
Proof. intros Hq E. apply next_fault_world in E as (?&?&?&?). by eapply quiet_same. Qed.

Lemma quiet_set_file l f h w j g :
  quiet l f h w → (∀ i, handles w !! wfile l = Some i → i ≠ j) → quiet l f h (set_file j g w).
Proof.
  intros [(i&Hi&?&?) Hf Hh Hd Hn] Hj. split; try done. exists i. simpl.
  by rewrite lookup_insert_ne by (apply not_eq_sym, (Hj i Hi)).
Qed.

Lemma quiet_Write l f h b w : quiet l f h w → quiet l f h (file_Write h b w).2.
Proof.
  intros Hq. unfold file_Write, handle_file. destruct (handles w !! h) as [j|] eqn:Ej; [|done].
  simpl. destruct (files w !! j) as [g|]; [|done]. simpl.
  destruct (next_fault w) as [ft w1] eqn:Ef. pose proof (next_fault_world _ _ _ Ef) as (_&_&Eh&_).
  apply (quiet_next_fault _ _ _ _ _ _ Hq) in Ef as Hq1.
  destruct ft; apply quiet_set_file; try done; rewrite Eh; intros i Hi; by apply (quiet_file _ _ _ _ Hq).
Qed.

Lemma quiet_Sync l f h w : quiet l f h w → quiet l f h (file_Sync h w).2.
Proof.
  intros Hq. unfold file_Sync, handle_file, with_fault. destruct (handles w !! h) as [j|] eqn:Ej; [|done].
  simpl. destruct (files w !! j) as [g|]; [|done]. simpl.
  destruct (next_fault w) as [ft w1] eqn:Ef. pose proof (next_fault_world _ _ _ Ef) as (_&_&Eh&_).
  apply (quiet_next_fault _ _ _ _ _ _ Hq) in Ef as Hq1.
  destruct ft; [done|]. apply quiet_set_file; [done|].
  rewrite Eh; intros i Hi; by apply (quiet_file _ _ _ _ Hq).
Qed.

Lemma quiet_Close l f h w : quiet l f h w → quiet l f h (file_Close h w).2.
Proof.
  intros Hq. unfold file_Close, with_fault. destruct (handles w !! h) as [j|] eqn:Ej; [|done].
  set (w0 := mkWorld _ _ _ _ _).
  assert (quiet l f h w0) as Hq0.
  { destruct Hq as [(i&?&?&?) Hf Hh Hd Hn]. split; try done; simpl.
    - exists i. simpl. by rewrite lookup_delete_ne.
    - intros i' j'. by rewrite lookup_delete_eq. }
  destruct (next_fault w0) as [ft w1] eqn:Ef. apply (quiet_next_fault _ _ _ _ _ _ Hq0) in Ef.
  by destruct ft.
Qed.

Lemma quiet_bufio_out l f h d rest w : quiet l f h w → quiet l f h (bufio_out h d rest w).2.
Proof.
  intros Hq%(quiet_Write _ _ _ d). unfold bufio_out. by destruct (file_Write h d w) as [[]?].
Qed.

Lemma quiet_bufio_Write l f h b p w : quiet l f h w → quiet l f h (bufio_Write h b p w).2.
Proof.
  intros Hq. unfold bufio_Write. destruct (bufio_err b); [done|]. destruct (_ <=? _); [done|].
  case_bool_decide; [by apply quiet_bufio_out|].
  pose proof (quiet_bufio_out _ _ _ (buffered b ++ take (Z.to_nat (defaultBufSize - len (buffered b))) p) [] _ Hq) as Hq1.
  destruct (bufio_out _ _ _ _) as [b1 w1]. simpl in Hq1.
  destruct (bufio_err b1); [done|]. destruct (_ <=? _); [done|]. by apply quiet_bufio_out.
Qed.

Lemma quiet_bufio_Flush l f h b w : quiet l f h w → quiet l f h (bufio_Flush h b w).2.
Proof.
  intros Hq. unfold bufio_Flush. destruct (bufio_err b); [done|].
  case_bool_decide; [done|by apply quiet_bufio_out].
Qed.

Lemma quiet_write_all l f h rs : ∀ b w,
  quiet l f h w → quiet l f h (write_all rs (snapshot_write h) b w).2.2.
Proof.
  induction rs as [|r rs IH]; intros b w Hq; [done|]. cbn [write_all]. unfold snapshot_write at 1.
  rewrite encode_bytes. pose proof (quiet_bufio_Write _ _ _ b (record_bytes r) _ Hq) as Hq1.
  destruct (bufio_Write _ _ _ _) as [b1 w1]. destruct (bufio_err b1); [done|by apply IH].
Qed.

Lemma quiet_writeSnapshot_body l f h rs w :
  quiet l f h w → quiet l f h (writeSnapshot_body h (write_all rs) w).2.
Proof.
  intros Hq. unfold writeSnapshot_body. apply (quiet_write_all _ _ _ rs NewWriter) in Hq.
  destruct (write_all _ _ _ _) as [err [b w1]]. simpl in Hq.
  assert (∀ (e : go ()) w, quiet l f h w →
    quiet l f h (let '(err, w) := match e with Ok _ => file_Sync h w | _ => (e, w) end in
      match err with
      | Panic => (Panic, w)
      | _ => let '(closeErr, w) := file_Close h w in (match err with Ok _ => closeErr | _ => err end, w)
      end).2) as Hend.
  { intros e w2 Hq2. assert (quiet l f h (match e with Ok _ => file_Sync h w2 | _ => (e, w2) end).2) as Hq3
      by (destruct e; [by apply quiet_Sync|done..]).
    destruct (match e with Ok _ => _ | _ => _ end) as [e3 w3]. simpl in Hq3.
    apply quiet_Close in Hq3 as Hq4. destruct (file_Close h w3). by destruct e3. }
  destruct err as [?|?|]; [|by apply (Hend (Err e))|by apply (Hend Panic)].
  apply (quiet_bufio_Flush _ _ _ b) in Hq. destruct (bufio_Flush h b w1) as [b2 w2]. simpl in Hq.
  destruct (bufio_err b2) as [e|]; [by apply (Hend (Err e))|by apply (Hend (Ok ()))].
Qed.

Lemma log_at_same l f w w' :
  log_at l w f → names w' !! path l = names w !! path l → files w' = files w → handles w' = handles w →
  log_at l w' f.
Proof. intros (i&?&?&?) En Efl Eh. exists i. by rewrite En, Efl, Eh. Qed.

(** A file of another name is another file. *)
Lemma create_quiet l f w name i w1 :
  world_ok w → log_at l w f → name ≠ path l → create name w = (i, w1) →
  log_at l w1 f ∧ (∀ j, handles w1 !! wfile l = Some j → j ≠ i) ∧ names w1 !! name = Some i ∧
  (fresh w ≤ fresh w1)%nat ∧ is_Some (files w1 !! i) ∧
  (∀ n k, names w1 !! n = Some k → names w1 !! path l = Some k → n = path l).
Proof.
  intros Hok (j & Hh & Hn & Hf) Hne. unfold create.
  destruct (names w !! name) as [i'|] eqn:E; intros; simplify_eq/=.
  - split_and!; [by exists j| |done|lia|by eapply ok_names|intros; by eapply ok_inj].
    intros j' Hj' ->. apply Hne. eapply (ok_inj _ Hok); [exact E|]. congruence.
  - destruct (ok_names _ Hok _ _ Hn) as [Hlt _]. split_and!.
    + exists j. simpl. rewrite !lookup_insert_ne by (done || lia). done.
    + intros j' Hj' ->. rewrite Hh in Hj'. simplify_eq. lia.
    + by rewrite lookup_insert_eq.
    + lia.
    + rewrite lookup_insert_eq. eauto.
    + intros n k Hk. rewrite (lookup_insert_ne _ _ (path l)), Hn by done. intros; simplify_eq.
      apply lookup_insert_Some in Hk as [[_ ?]|[_ Hk]]; [lia|]. by eapply ok_inj.
Qed.

Lemma OpenTrunc_quiet l f w name opts :
  world_ok w → log_at l w f → name ≠ path l →
  match OpenTrunc name w with
  | (Ok h, w') => quiet l f h w' ∧ ∃ d, log_at (mkWAL name opts h) w' (mkFile [] d)
  | (Err _, w') => log_at l w' f ∧ faults w ≠ []
  | (Panic, _) => False
  end.
Proof.
  intros Hok Hl Hne. unfold OpenTrunc, with_fault. destruct (next_fault w) as [ft w0] eqn:Ef.
  pose proof (next_fault_world _ _ _ Ef) as (En & Efl & Eh & Efr).
  assert (log_at l w0 f) as Hl0 by (eapply log_at_same; [done|by rewrite En|done..]).
  assert (world_ok w0) as Hok0 by (destruct Hok; split; rewrite ?En, ?Efl, ?Eh, ?Efr; eauto).
  destruct ft as [ft|].
  { split; [done|]. intros Hnil. by apply next_fault_none in Ef as [??]. }
  destruct (create name w0) as [i w1] eqn:Ec.
  destruct (create_quiet _ _ _ _ _ _ Hok0 Hl0 Hne Ec) as (Hl1 & Hi & Hn1 & Hfr1 & _ & Hinj).
  destruct Hl0 as (i0 & Hh0 & _). apply (ok_handles _ Hok0) in Hh0 as [Hlt _].
  unfold new_handle. cbn [fst snd]. split.
  - assert (log_at l (set_file i (mkFile [] (default [] (durable <$> files w1 !! i))) w1) f) as (k & Hk1 & Hk2 & Hk3).
    { destruct Hl1 as (k & Hk1 & Hk2 & Hk3). exists k. simpl. rewrite lookup_insert_ne; [done|].
      apply not_eq_sym. by apply Hi. }
    split; simpl in *; try lia.
    + exists k. simpl. rewrite lookup_insert_ne by lia. done.
    + intros j j' Hj Hj'. rewrite lookup_insert_ne in Hj by lia.
      rewrite lookup_insert_eq in Hj'. simplify_eq. by apply Hi.
    + exact Hinj.
  - eexists. exists i. simpl. rewrite lookup_insert_eq, Hn1. split_and!; [done|done|]. by rewrite lookup_insert_eq.
Qed.

Lemma Remove_log l f name w : log_at l w f → name ≠ path l → log_at l (ignore (os_Remove name) w).2 f.
Proof.
  intros Hl Hne. unfold ignore, catch, os_Remove, with_fault.
  destruct (next_fault w) as [ft w0] eqn:Ef. pose proof (next_fault_world _ _ _ Ef) as (En & Efl & Eh & Efr).
  assert (log_at l w0 f) as Hl0 by (eapply log_at_same; [done|by rewrite En|done..]).
  destruct ft; simpl; [done|]. destruct (names w0 !! name); [|done]. simpl.
  eapply log_at_same; [done| |done..]. simpl. by rewrite lookup_delete_ne.
Qed.

Lemma remove_and_fail_spec {A} tmp e w :
  @remove_and_fail A tmp e w = (Err e, (ignore (os_Remove tmp) w).2).
Proof.
  unfold remove_and_fail, ignore, catch, os_Remove, with_fault, mbind, io_bind.
  destruct (next_fault w) as [[ft|] w1]; [done|]. by destruct (names w1 !! tmp).
Qed.

Lemma tmp_ne p : p ++ str ".tmp" ≠ p.
Proof. intros E. apply (f_equal length) in E. rewrite length_app in E. vm_compute (length (str _)) in E. lia. Qed.

(** Everything before the rename leaves the log alone. *)
Lemma writeSnapshot_log l f rs w res w' :
  world_ok w → log_at l w f → writeSnapshot (path l ++ str ".tmp") (write_all rs) w = (res, w') →
  log_at l w' f ∧
  ∀ i, names w' !! (path l ++ str ".tmp") = Some i → names w' !! path l ≠ Some i ∨ ∃ e, res = Err e.
Proof.
  intros Hok Hl. unfold writeSnapshot, mbind, io_bind.
  pose proof (OpenTrunc_quiet l f w (path l ++ str ".tmp") (options l) Hok Hl (tmp_ne _)) as Ho.
  destruct (OpenTrunc _ w) as [[h|e|] w1]; [|intros; simplify_eq; destruct Ho; eauto|done].
  destruct Ho as [Hq _]. apply (quiet_writeSnapshot_body _ _ _ rs) in Hq. intros E. rewrite E in Hq.
  split; [apply Hq|]. intros i Hi. left. intros Hp. by apply (tmp_ne (path l)), (quiet_name _ _ _ _ Hq _ i).
Qed.

(** Without faults a buffered write loses nothing: what is on the file followed by
    what is in the buffer grows by the bytes written. *)
Definition buffered_at (t : WAL) (w : World) (b : bufio) (d : gobytes) : Prop :=
  faults w = [] ∧ bufio_err b = None ∧ ∃ g, log_at t w g ∧ cached g ++ buffered b = d.

Lemma bufio_out_calm t w g d rest : log_at t w g → faults w = [] →
  ∃ w', bufio_out (wfile t) d rest w = (mkBufio rest None, w') ∧ faults w' = [] ∧
    log_at t w' (mkFile (cached g ++ d) (durable g)).
Proof.
  intros Hl Hf. destruct (file_Write_calm t w g d Hl Hf) as (w' & E & ?&?).
  exists w'. unfold bufio_out. by rewrite E.
Qed.

Lemma bufio_Write_calm t w b d p : buffered_at t w b d →
  ∃ b' w', bufio_Write (wfile t) b p w = (b', w') ∧ buffered_at t w' b' (d ++ p).
Proof.
  intros (Hf & He & g & Hl & <-). unfold bufio_Write. rewrite He.
  destruct (_ <=? _).
  { eexists _, _. split; [done|]. split_and!; [done..|]. exists g. split; [done|]. simpl. by rewrite app_assoc. }
  case_bool_decide as Hb.
  { destruct (bufio_out_calm t w g p [] Hl Hf) as (w' & -> & Hf' & Hl'). eexists _, _. split; [done|].
    split_and!; [done..|]. eexists. split; [done|]. simpl. by rewrite Hb, !app_nil_r. }
  set (n := Z.to_nat _).
  destruct (bufio_out_calm t w g (buffered b ++ take n p) [] Hl Hf) as (w' & -> & Hf' & Hl'). cbn [bufio_err].
  destruct (_ <=? _).
  - eexists _, _. split; [done|]. split_and!; [done..|]. eexists. split; [done|]. simpl.
    by rewrite <-!app_assoc, take_drop.
  - destruct (bufio_out_calm _ _ _ (drop n p) [] Hl' Hf') as (w2 & -> & Hf2 & Hl2). eexists _, _. split; [done|].
    split_and!; [done..|]. eexists. split; [done|]. simpl. by rewrite app_nil_r, <-!app_assoc, take_drop.
Qed.

Lemma write_all_calm t rs : ∀ w b d, buffered_at t w b d →
  ∃ b' w', write_all rs (snapshot_write (wfile t)) b w = (Ok (), (b', w')) ∧
    buffered_at t w' b' (d ++ log_bytes rs).
Proof.
  induction rs as [|r rs IH]; intros w b d Hb; cbn [write_all].
  - eexists _, _. split; [done|]. unfold log_bytes. simpl. by rewrite app_nil_r.
  - unfold snapshot_write at 1. rewrite encode_bytes.
    destruct (bufio_Write_calm _ _ _ _ (record_bytes r) Hb) as (b1 & w1 & -> & Hb1).
    pose proof Hb1 as (_ & -> & _).
    destruct (IH _ _ _ Hb1) as (b' & w' & -> & Hb'). eexists _, _. split; [done|].
    by rewrite <-app_assoc in Hb'.
Qed.

Lemma bufio_Flush_calm t w b d : buffered_at t w b d →
  ∃ b' w' g, bufio_Flush (wfile t) b w = (b', w') ∧ bufio_err b' = None ∧ faults w' = [] ∧
    log_at t w' g ∧ cached g = d.
Proof.
  intros (Hf & He & g & Hl & <-). unfold bufio_Flush. rewrite He. case_bool_decide as Hb.
  - exists b, w, g. by rewrite Hb, app_nil_r.
  - destruct (bufio_out_calm t w g (buffered b) [] Hl Hf) as (w' & -> & Hf' & Hl').
    by eexists _, _, _.
Qed.

Lemma file_Close_calm t w g : log_at t w g → faults w = [] →
  ∃ w', file_Close (wfile t) w = (Ok (), w') ∧ faults w' = [] ∧
    names w' = names w ∧ files w' = files w ∧ fresh w' = fresh w ∧
    handles w' = delete (wfile t) (handles w).
Proof.
  intros (i & Hh & _) Hf. unfold file_Close, with_fault, next_fault. rewrite Hh. simpl. rewrite Hf.
  by eexists.
Qed.

(** The snapshot is complete and durable in the temporary file. *)
Lemma writeSnapshot_calm l f rs w :
  world_ok w → log_at l w f → faults w = [] →
  ∃ w' j, writeSnapshot (path l ++ str ".tmp") (write_all rs) w = (Ok (), w') ∧ faults w' = [] ∧
    log_at l w' f ∧ (wfile l < fresh w')%nat ∧
    names w' !! (path l ++ str ".tmp") = Some j ∧ files w' !! j = Some (mkFile (log_bytes rs) (log_bytes rs)).
Proof.
  intros Hok Hl Hf. unfold writeSnapshot, mbind, io_bind.
  pose proof (OpenTrunc_quiet l f w (path l ++ str ".tmp") (options l) Hok Hl (tmp_ne _)) as Ho.
  destruct (OpenTrunc _ w) as [[h|e|] w1] eqn:Eo; [|by destruct Ho|done].
  destruct Ho as [Hq [d Ht]]. set (t := mkWAL _ _ _) in Ht.
  assert (faults w1 = []) as Hf1.
  { unfold OpenTrunc, with_fault, next_fault, create in Eo. rewrite Hf in Eo.
    destruct (names w !! _); unfold new_handle in Eo; by simplify_eq/=. }
  assert (buffered_at t w1 NewWriter []) as Hb1 by (split_and!; [done..|]; by eexists).
  change (writeSnapshot_body h) with (writeSnapshot_body (wfile t)).
  change h with (wfile t) in Hq. unfold writeSnapshot_body.
  pose proof (quiet_writeSnapshot_body _ _ _ rs _ Hq) as Hqf. unfold writeSnapshot_body in Hqf. revert Hqf.
  destruct (write_all_calm t rs _ _ _ Hb1) as (b2 & w2 & -> & Hb2).
  destruct (bufio_Flush_calm _ _ _ _ Hb2) as (b3 & w3 & g & -> & -> & Hf3 & Ht3 & Hg).
  destruct (file_Sync_calm _ _ _ Ht3 Hf3) as (w4 & -> & Hf4 & Ht4).
  destruct (file_Close_calm _ _ _ Ht4 Hf4) as (w5 & -> & Hf5 & En & Efl & Efr & Eh).
  rewrite Hg in *. cbn [snd]. intros [Hlog Hfr _ _ _].
  destruct Ht4 as (j & _ & Hn & Hj). exists w5, j. rewrite En, Efl. split_and!; done.
Qed.

Lemma OpenAppend_calm p w j : names w !! p = Some j → faults w = [] →
  OpenAppend p w = (Ok (fresh w), mkWorld (names w) (files w) (<[fresh w := j]> (handles w)) (S (fresh w)) []).
Proof.
  intros Hn Hf. unfold OpenAppend, with_fault, next_fault, create. rewrite Hf, Hn.
  unfold new_handle. by rewrite Hf.
Qed.

Lemma Rename_calm from to w j : names w !! from = Some j → faults w = [] →
  os_Rename from to w =
  (Ok (), mkWorld (<[to := j]> (delete from (names w))) (files w) (handles w) (fresh w) []).
Proof.
  intros Hn Hf. unfold os_Rename, with_fault, next_fault. by rewrite Hf, Hn, Hf.
Qed.

(** The swap: both the name and the new handle are on the temporary file. *)
Lemma swap_calm l f w tmp j g :
  log_at l w f → (wfile l < fresh w)%nat → faults w = [] →
  names w !! tmp = Some j → files w !! j = Some g →
  ∃ l' w', swap l tmp w = (Ok l', w') ∧ path l' = path l ∧ options l' = options l ∧
    faults w' = [] ∧ log_at l' w' g.
Proof.
  intros (i & Hh & _ & _) Hfr Hf Hn Hj. unfold swap, mbind, io_bind, catch.
  rewrite (Rename_calm _ _ _ _ Hn Hf). cbv beta iota.
  erewrite OpenAppend_calm by (first [by apply lookup_insert_eq | done]). cbv beta iota.
  unfold ignore, catch, file_Close, with_fault, next_fault. cbn [handles faults names files fresh fst snd].
  rewrite lookup_insert_ne, Hh by lia. cbv beta iota. cbn [faults].
  eexists _, _. split; [done|]. split_and!; [done..|].
  exists j. cbn [handles names files path wfile].
  rewrite lookup_delete_ne, !lookup_insert_eq by lia. done.
Qed.

Lemma Compact_calm l f rs w :
  world_ok w → log_at l w f → faults w = [] →
  ∃ l' w', Compact l (write_all rs) w = (Ok l', w') ∧ path l' = path l ∧ options l' = options l ∧
    faults w' = [] ∧ log_at l' w' (mkFile (log_bytes rs) (log_bytes rs)).
Proof.
  intros Hok Hl Hf. unfold Compact. unfold mbind, io_bind at 1, catch at 1.
  destruct (writeSnapshot_calm l f rs w Hok Hl Hf) as (w1 & j & -> & Hf1 & Hl1 & Hfr & Hn & Hj).
  by eapply swap_calm.
Qed.

(** ** The properties of the log *)

Section examples.
Definition ex_path : gostring := str "wal.log".
Definition ex_world (fs : list (option fault)) : World :=
  mkWorld {[ ex_path := 0%nat ]} {[ 0%nat := mkFile [] [] ]} {[ 1%nat := 0%nat ]} 2 fs.
Definition ex_wal (mode : gostring) : WAL := mkWAL ex_path (mkOptions mode 1000 2) 1.
Definition ex_r1 : wal.Record := set_record [1] [10] 100.
Definition ex_r2 : wal.Record := delete_record [1].
Definition ex_error : error := ErrorString (str "no space left on device").

Lemma ex_log_at mode fs : log_at (ex_wal mode) (ex_world fs) (mkFile [] []).
Proof. exists 0%nat. vm_compute. repeat split. Qed.

Lemma ex_world_ok fs : world_ok (ex_world fs).
Proof.
  split; cbn.
  - intros n i [<- <-]%lookup_singleton_Some. split; [lia|]. vm_compute. eauto.
  - intros h i [<- <-]%lookup_singleton_Some. lia.
  - intros n1 n2 i [<- _]%lookup_singleton_Some [<- _]%lookup_singleton_Some. done.
Qed.

Lemma ex_records_ok : Forall record_ok [ex_r1; ex_r2].
Proof.
  apply Forall_cons; split; [|apply Forall_singleton]; (split_and!; [vm_compute; reflexivity..|]);
    vm_compute; auto.
Qed.
End examples.

(** C23.  Mode [always]: once appends have returned nil, a power failure cannot
    lose them.  Whatever subset of unsynced bytes survives, replaying the file gives
    the records that were in it followed by every acknowledged one, in order. *)
Theorem always_survives_power_failure {S} (apply : S → wal.Record → S) l w f rs0 rs w' f' d s :
  log_at l w f → Mode (options l) = SyncAlways →
  cached f = log_bytes rs0 → durable f = log_bytes rs0 → Forall record_ok (rs0 ++ rs) →
  append_all l rs w = (Ok (), w') → log_at l w' f' → survives f' d →
  wal.Replay (wal.Contents d) apply s = Some (Ok (), foldl apply s (stored <$> rs0 ++ rs)).
Proof.
  intros Hl Hm Hc Hd Hok Ha Hl' [Hdur Hcac]. apply (append_all_ok _ _ _ _ _ Hl) in Ha.
  assert (f' = mkFile (log_bytes (rs0 ++ rs)) (log_bytes (rs0 ++ rs))) as ->.
  { destruct Ha as (i & _ & Hn & Hf), Hl' as (i' & _ & Hn' & Hf'). simplify_eq.
    unfold is_always. rewrite bool_decide_true by done. unfold log_bytes in *.
    rewrite fmap_app, concat_app. rewrite Hc, Hd in *. case_bool_decide; simpl; [|done].
    subst. simpl. by rewrite app_nil_r. }
  simpl in *. assert (d = log_bytes (rs0 ++ rs)) as ->.
  { destruct Hdur as [x ->], Hcac as [y E]. rewrite <-app_assoc in E.
    apply (f_equal length) in E as E'. rewrite !length_app in E'.
    destruct x; [by rewrite app_nil_r|simpl in *; lia]. }
  by apply Replay_complete.
Qed.

Lemma always_survives_power_failure_witness :
  let w' := (append_all (ex_wal SyncAlways) [ex_r1; ex_r2] (ex_world [])).2 in
  wal.Replay (wal.Contents (log_bytes [ex_r1; ex_r2])) (λ l r, l ++ [r]) [] =
  Some (Ok (), stored <$> [ex_r1; ex_r2]).
Proof.
  apply (always_survives_power_failure (λ l r, l ++ [r]) (ex_wal SyncAlways) (ex_world []) (mkFile [] [])
           [] [ex_r1; ex_r2] (append_all (ex_wal SyncAlways) [ex_r1; ex_r2] (ex_world [])).2
           (mkFile (log_bytes [ex_r1; ex_r2]) (log_bytes [ex_r1; ex_r2])) (log_bytes [ex_r1; ex_r2]) []).
  - apply ex_log_at.
  - reflexivity.
  - reflexivity.
  - reflexivity.
  - apply ex_records_ok.
  - vm_compute. reflexivity.
  - exists 0%nat. vm_compute. repeat split.
  - split; reflexivity.
Defined.

(** C38.  The outcomes of [append] in the modes without a flusher, for any fault:
    nil, with the whole record on the file and, in mode [always], the file synced;
    or an error (only when a call failed), with some leading part of the record on
    the file and nothing newly durable. *)
Theorem append_outcomes l w f r :
  log_at l w f →
  let '(res, w') := append l r w in
  (res = Ok () ∧ log_at l w' (mkFile (cached f ++ record_bytes r)
     (if bool_decide (Mode (options l) = SyncAlways) then cached f ++ record_bytes r else durable f))) ∨
  (∃ e n, res = Err e ∧ faults w ≠ [] ∧
     log_at l w' (mkFile (cached f ++ take n (record_bytes r)) (durable f))).
Proof. intros Hl. destruct (append l r w) as [res w'] eqn:E. by apply (append_cases _ _ _ _ _ _ Hl) in E. Qed.

Lemma append_outcomes_witness :
  let '(res, w') := append (ex_wal SyncNone) ex_r1 (ex_world [Some (mkFault ex_error 4)]) in
  (res = Ok () ∧ log_at (ex_wal SyncNone) w' (mkFile ([] ++ record_bytes ex_r1)
     (if bool_decide (Mode (options (ex_wal SyncNone)) = SyncAlways) then [] ++ record_bytes ex_r1 else []))) ∨
  (∃ e n, res = Err e ∧ faults (ex_world [Some (mkFault ex_error 4)]) ≠ [] ∧
     log_at (ex_wal SyncNone) w' (mkFile ([] ++ take n (record_bytes ex_r1)) [])).
Proof.
  apply (append_outcomes (ex_wal SyncNone) (ex_world [Some (mkFault ex_error 4)]) (mkFile [] []) ex_r1).
  apply ex_log_at.
Defined.

(** A write that fails half-way poisons the log: the failed append leaves part
    of a record behind, the next append is acknowledged, and replay stops at the
    damage without reaching it. *)
Example partial_append_poisons :
  ∃ w1 w2 d, append (ex_wal SyncNone) ex_r1 (ex_world [Some (mkFault ex_error 4)]) = (Err ex_error, w1) ∧
    append (ex_wal SyncNone) ex_r2 w1 = (Ok (), w2) ∧ read_name ex_path w2 = Some d ∧
    wal.Replay (wal.Contents d) (λ l r, l ++ [r]) [] = Some (Err io_ErrUnexpectedEOF, []).
Proof.
  exists (append (ex_wal SyncNone) ex_r1 (ex_world [Some (mkFault ex_error 4)])).2,
    (append (ex_wal SyncNone) ex_r2 (append (ex_wal SyncNone) ex_r1 (ex_world [Some (mkFault ex_error 4)])).2).2,
    (take 4 (record_bytes ex_r1) ++ record_bytes ex_r2).
  split_and!; vm_compute; reflexivity.
Qed.

(** Mode [interval], every interleaving of appenders, flusher and [Close]
    without faults: the records appended so far are, in order, on the file, then in
    the batch, then in the channel; the batch never reaches [MaxBatchSize]; what is
    on the file is durable as soon as it is there. *)
Lemma interval_keeps_order l w f0 rs s :
  log_at l w f0 → faults w = [] → run (start w l) rs s →
  ∃ flushed d,
    flushed ++ batch (flusher s) ++ writeCh (flusher s) = record_bytes <$> rs ∧
    read_name (path l) (world s) = Some (cached f0 ++ concat flushed) ∧
    read_durable (path l) (world s) = Some d ∧
    (flushed = [] ∧ d = durable f0 ∨ d = cached f0 ++ concat flushed) ∧
    (batch (flusher s) = [] ∨ len (batch (flusher s)) < MaxBatchSize (options l)).
Proof.
  intros Hl Hf Hr. destruct (fifo_run _ _ _ _ _ Hl Hf Hr) as [_ _ _ Hb _ (f & flushed & E & Hc & Hd & _ & H1 & H2)].
  exists flushed, (durable f). rewrite <-Hc. naive_solver.
Qed.

(** A run that appends one record and closes the log before the flusher gets to it. *)
Definition ex_sent : Sys := send (start (ex_world []) (ex_wal SyncInterval)) (record_bytes ex_r1).
Definition ex_stopped : Sys := stopped (close_stop ex_sent).
Definition ex_closed : Sys := close_file ex_stopped.

Lemma ex_closed_run : run (start (ex_world []) (ex_wal SyncInterval)) [ex_r1] ex_closed.
Proof.
  apply (run_internal _ ex_stopped); [|apply step_close_file; vm_compute; reflexivity].
  apply (run_internal _ (close_stop ex_sent)); [|apply step_stop; vm_compute; reflexivity].
  apply (run_internal _ ex_sent); [|apply step_close_stop; vm_compute; reflexivity].
  apply (run_append _ (start (ex_world []) (ex_wal SyncInterval)) _ []); [apply run_nil|].
  apply step_send; [apply encode_bytes|vm_compute; reflexivity].
Qed.

Lemma interval_keeps_order_witness :
  ∃ flushed d,
    flushed ++ batch (flusher ex_closed) ++ writeCh (flusher ex_closed) = record_bytes <$> [ex_r1] ∧
    read_name ex_path (world ex_closed) = Some ([] ++ concat flushed) ∧
    read_durable ex_path (world ex_closed) = Some d ∧
    (flushed = [] ∧ d = [] ∨ d = [] ++ concat flushed) ∧
    (batch (flusher ex_closed) = [] ∨ len (batch (flusher ex_closed)) < 2).
Proof.
  apply (interval_keeps_order (ex_wal SyncInterval) (ex_world []) (mkFile [] []) [ex_r1] ex_closed).
  - apply ex_log_at.
  - reflexivity.
  - apply ex_closed_run.
Defined.

(** C25.  What [Close] keeps in mode [interval]: once it has closed the file, the
    durable log is what it was plus exactly the appended records the flusher had
    taken from the channel; the ones still in the channel are not written. *)
Theorem interval_close_keeps l w f0 rs s :
  log_at l w f0 → faults w = [] → durable f0 = cached f0 → run (start w l) rs s →
  closed (flusher s) = true →
  read_durable (path l) (world s) =
  Some (cached f0 ++ log_bytes (take (length rs - length (writeCh (flusher s))) rs)).
Proof.
  intros Hl Hf Hd0 Hr Hcl.
  destruct (fifo_run _ _ _ _ _ Hl Hf Hr) as [_ _ Hc _ Hst (f & flushed & E & Hcf & Hd & _ & _ & ->)].
  assert (batch (flusher s) = []) as Hb.
  { apply Hst. destruct (running (flusher s)) eqn:Er; [|done]. rewrite Hc in Hcl; done. }
  rewrite Hb in E. simpl in E. do 2 f_equal.
  assert (flushed = record_bytes <$> take (length rs - length (writeCh (flusher s))) rs) as ->.
  { rewrite fmap_take, <-E, take_app_length'; [done|].
    apply (f_equal length) in E. rewrite length_app, length_fmap in E. lia. }
  fold (log_bytes (take (length rs - length (writeCh (flusher s))) rs)) in Hcf.
  destruct Hd as [[Hnil Hd]|Hd]; rewrite Hd; [|done]. unfold log_bytes. by rewrite Hnil, app_nil_r, Hd0.
Qed.

Lemma interval_close_keeps_witness :
  read_durable ex_path (world ex_closed) =
  Some ([] ++ log_bytes (take (length [ex_r1] - length (writeCh (flusher ex_closed))) [ex_r1])).
Proof.
  apply (interval_close_keeps (ex_wal SyncInterval) (ex_world []) (mkFile [] []) [ex_r1] ex_closed).
  - apply ex_log_at.
  - reflexivity.
  - reflexivity.
  - apply ex_closed_run.
  - reflexivity.
Defined.

(** So [Close] can lose an acknowledged write without any crash or fault: a
    run appends one record, completes [Close], and leaves an empty log. *)
Example interval_close_loses :
  ∃ s, run (start (ex_world []) (ex_wal SyncInterval)) [ex_r1] s ∧
    closed (flusher s) = true ∧ running (flusher s) = false ∧
    read_name ex_path (world s) = Some [].
Proof. exists ex_closed. split; [apply ex_closed_run|]. vm_compute. auto. Qed.

(** C26.  [Compact], when nothing else touches the log and no call fails: the log's
    name and handle are on a new file that holds exactly the snapshot's records,
    synced, so that replaying it gives them back; the path and options are kept. *)
Theorem compact_replaces_log {S} (apply : S → wal.Record → S) s l f rs w :
  world_ok w → log_at l w f → faults w = [] → Forall record_ok rs →
  ∃ l' w' f', Compact l (write_all rs) w = (Ok l', w') ∧ path l' = path l ∧ options l' = options l ∧
    log_at l' w' f' ∧ durable f' = cached f' ∧
    wal.Replay (wal.Contents (cached f')) apply s = Some (Ok (), foldl apply s (stored <$> rs)).
Proof.
  intros Hok Hl Hf Hrs. destruct (Compact_calm l f rs w Hok Hl Hf) as (l' & w' & ? & ? & ? & _ & ?).
  exists l', w', (mkFile (log_bytes rs) (log_bytes rs)). split_and!; try done. by apply Replay_complete.
Qed.

Lemma compact_replaces_log_witness :
  ∃ l' w' f', Compact (ex_wal SyncNone) (write_all [ex_r1; ex_r2]) (ex_world []) = (Ok l', w') ∧
    path l' = ex_path ∧ options l' = options (ex_wal SyncNone) ∧ log_at l' w' f' ∧ durable f' = cached f' ∧
    wal.Replay (wal.Contents (cached f')) (λ l r, l ++ [r]) [] =
    Some (Ok (), foldl (λ l r, l ++ [r]) [] (stored <$> [ex_r1; ex_r2])).
Proof.
  apply (compact_replaces_log (λ l r, l ++ [r]) [] (ex_wal SyncNone) (mkFile [] []) [ex_r1; ex_r2] (ex_world [])).
  - apply ex_world_ok.
  - apply ex_log_at.
  - reflexivity.
  - apply ex_records_ok.
Defined.

(** The snapshot is in place: the name is on a file that is not the handle's. *)
Definition orphaned (l : WAL) (w : World) : Prop :=
  ∃ i j, handles w !! wfile l = Some i ∧ names w !! path l = Some j ∧ i ≠ j.

Lemma swap_err l f tmp w e w' :
  log_at l w f → (∀ i, names w !! tmp = Some i → names w !! path l ≠ Some i) → tmp ≠ path l →
  swap l tmp w = (Err e, w') → log_at l w' f ∨ orphaned l w'.
Proof.
  intros Hl Htmp Hne. unfold swap, mbind, io_bind, catch, os_Rename, with_fault.
  destruct (next_fault w) as [ft w1] eqn:Ef. pose proof (next_fault_world _ _ _ Ef) as (En & Efl & Eh & Efr).
  assert (log_at l w1 f) as Hl1 by (eapply log_at_same; [done|by rewrite En|done..]).
  pose proof (Remove_log l f tmp w1 Hl1 Hne) as Hrm.
  destruct ft as [ft|]; [rewrite remove_and_fail_spec; intros; simplify_eq; by left|].
  destruct (names w1 !! tmp) as [i|] eqn:Ei; [|rewrite remove_and_fail_spec; intros; simplify_eq; by left].
  set (w2 := mkWorld _ _ _ _ _). clear Hrm. destruct Hl1 as (k & Hk1 & Hk2 & Hk3).
  assert (names w2 !! path l = Some i) as Hn2 by (simpl; by rewrite lookup_insert_eq).
  unfold OpenAppend, with_fault. destruct (next_fault w2) as [ft2 w3] eqn:Ef2.
  pose proof (next_fault_world _ _ _ Ef2) as (En2 & _ & Eh2 & _).
  destruct ft2 as [ft2|].
  - intros. simplify_eq. right. exists k, i. rewrite Eh2, En2, Hn2. split_and!; [done|done|].
    intros ->. rewrite En in *. by eapply Htmp.
  - unfold create. rewrite En2, Hn2. unfold new_handle. unfold ignore, catch.
    destruct (file_Close _ _) as [[]?]; intros; by simplify_eq.
Qed.



(** Two ways to lose an acknowledged append around [Compact], in mode [always]:
    an append between the snapshot and the swap is synced to the file that is then
    replaced; and when the new log cannot be opened after the rename, [Compact]
    reports the error while the handle stays on the file that has lost its name, so
    that the appends that follow are acknowledged and not in the log. *)
Example compact_can_lose_appends :
  (∃ w1 w2 l' w3, writeSnapshot (ex_path ++ str ".tmp") (write_all [ex_r1]) (ex_world []) = (Ok (), w1) ∧
     append (ex_wal SyncAlways) ex_r2 w1 = (Ok (), w2) ∧
     swap (ex_wal SyncAlways) (ex_path ++ str ".tmp") w2 = (Ok l', w3) ∧
     log_at l' w3 (mkFile (log_bytes [ex_r1]) (log_bytes [ex_r1]))) ∧
  (∃ fs w1 w2, Compact (ex_wal SyncAlways) (write_all [ex_r1]) (ex_world fs) = (Err ex_error, w1) ∧
     append (ex_wal SyncAlways) ex_r2 w1 = (Ok (), w2) ∧
     read_name ex_path w2 = Some (log_bytes [ex_r1])).
Proof.
  split.
  - set (w1 := (writeSnapshot (ex_path ++ str ".tmp") (write_all [ex_r1]) (ex_world [])).2).
    set (w2 := (append (ex_wal SyncAlways) ex_r2 w1).2).
    exists w1, w2, (mkWAL ex_path (options (ex_wal SyncAlways)) 4),
      (swap (ex_wal SyncAlways) (ex_path ++ str ".tmp") w2).2.
    split_and!; [vm_compute; reflexivity..|]. exists 2%nat. vm_compute. repeat split.
  - set (fs := [None; None; None; None; None; Some (mkFault ex_error 0)]).
    exists fs, (Compact (ex_wal SyncAlways) (write_all [ex_r1]) (ex_world fs)).2,
      (append (ex_wal SyncAlways) ex_r2 (Compact (ex_wal SyncAlways) (write_all [ex_r1]) (ex_world fs)).2).2.
    split_and!; vm_compute; reflexivity.
Qed.
