(* ===== verification/WalWindow.v ===== *)
(** * What mode [interval] can lose (storage/wal/wal_writer.go)

    In WalWriter.v a flush is one step.  In the program it is a write per record and a
    [Sync], and appenders go on filling the channel meanwhile.  Here every call on the
    file is a step of its own; the machine of WalWriter.v is an abstraction of this one,
    and what a power failure can take, at any point, is bounded by the sizes of the
    channel and of the batch. *)

From S2P Require Import Prelude GoLang WalRecord Os WalWriter.

(** ** The flusher, a call at a time *)

(** [flushing]: the records of the batch still to be written, when the goroutine is
    inside [flush]; [returning]: it was called in the case of [stopCh]. *)
Record FSys := mkFSys { sys : Sys; flushing : option (list gobytes); returning : bool }.

Definition fstart (w : World) (l : WAL) : FSys := mkFSys (start w l) None false.

Definition with_flusher (s : Sys) (f : Flusher) : Sys := mkSys (world s) (swal s) f.
Definition with_world (s : Sys) (w : World) : Sys := mkSys w (swal s) (flusher s).

(** The first lines of [flush]. *)
Definition enter_flush (s : Sys) (ret : bool) : FSys :=
  let f := flusher s in
  if bool_decide (batch f = []) then
    mkFSys (if ret then with_flusher s (mkFlusher (writeCh f) [] (stopCh f) false (closed f)) else s) None false
  else mkFSys s (Some (batch f)) ret.

(** [batch = append(batch, data)] and the test that follows. *)
Definition take_in (s : Sys) (data : gobytes) (rest : list gobytes) : FSys :=
  let f := flusher s in
  let s := with_flusher s (mkFlusher rest (batch f ++ [data]) (stopCh f) (running f) (closed f)) in
  if MaxBatchSize (options (swal s)) <=? len (batch (flusher s)) then enter_flush s false else mkFSys s None false.

Definition write_one (s : Sys) (d : gobytes) : Sys :=
  with_world s (ignore (file_Write (wfile (swal s)) d) (world s)).2.

(** [w.file.Sync()], [w.mu.Unlock()], [batch = batch[:0]], and the [return]. *)
Definition leave_flush (s : Sys) (ret : bool) : Sys :=
  let f := flusher s in
  mkSys (ignore (file_Sync (wfile (swal s))) (world s)).2 (swal s)
    (mkFlusher (writeCh f) [] (stopCh f) (if ret then false else running f) (closed f)).

Inductive fstep : FSys → label → FSys → Prop :=
  | f_send s fl ret r buf :
      wal.encode r = Ok buf → len (writeCh (flusher s)) < MaxBatchSize (options (swal s)) * 2 →
      fstep (mkFSys s fl ret) (Appended r) (mkFSys (send s buf) fl ret)
  | f_handoff s r buf :
      wal.encode r = Ok buf → running (flusher s) = true → writeCh (flusher s) = [] →
      fstep (mkFSys s None false) (Appended r) (take_in s buf [])
  | f_receive s data rest :
      running (flusher s) = true → writeCh (flusher s) = data :: rest →
      fstep (mkFSys s None false) Internal (take_in s data rest)
  | f_tick s : running (flusher s) = true → fstep (mkFSys s None false) Internal (enter_flush s false)
  | f_stop s : running (flusher s) = true → stopCh (flusher s) = true →
      fstep (mkFSys s None false) Internal (enter_flush s true)
  | f_write s d rest ret : fstep (mkFSys s (Some (d :: rest)) ret) Internal (mkFSys (write_one s d) (Some rest) ret)
  | f_sync s ret : fstep (mkFSys s (Some []) ret) Internal (mkFSys (leave_flush s ret) None false)
  | f_close_stop s fl ret : stopCh (flusher s) = false →
      fstep (mkFSys s fl ret) Internal (mkFSys (close_stop s) fl ret)
  | f_close_file s fl ret :
      stopCh (flusher s) = true → running (flusher s) = false → closed (flusher s) = false →
      fstep (mkFSys s fl ret) Internal (mkFSys (close_file s) fl ret).

Inductive frun : FSys → list wal.Record → FSys → Prop :=
  | frun_nil s : frun s [] s
  | frun_internal s s' s'' rs : frun s rs s' → fstep s' Internal s'' → frun s rs s''
  | frun_append s s' s'' rs r : frun s rs s' → fstep s' (Appended r) s'' → frun s (rs ++ [r]) s''.

(** ** The machine of WalWriter.v

    The state when the flush under way has ended. *)
Definition finish (s : FSys) : Sys :=
  match flushing s with
  | None => sys s
  | Some rest =>
      let f := flusher (sys s) in
      mkSys (flush_writes (swal (sys s)) rest (world (sys s))).2 (swal (sys s))
        (mkFlusher (writeCh f) [] (stopCh f) (if returning s then false else running f) (closed f))
  end.

(** The goroutine is inside [flush] only while it runs. *)
Definition flushing_ok (s : FSys) : Prop :=
  (is_Some (flushing s) → running (flusher (sys s)) = true) ∧ (flushing s = None → returning s = false).

Lemma flush_writes_cons l d b w :
  (flush_writes l (d :: b) w).2 = (flush_writes l b (ignore (file_Write (wfile l) d) w).2).2.
Proof.
  unfold flush_writes. cbn [io_each]. unfold ignore, catch, mbind, io_bind, mret, io_ret.
  destruct (file_Write (wfile l) d w) as [[[]|e|] w1] eqn:E; cbn [snd]; [done|done|].
  exfalso. unfold file_Write in E. destruct (handle_file _ _) as [[]|]; [|done].
  destruct (next_fault w) as [[]?]; done.
Qed.

Lemma finish_send s fl ret buf : finish (mkFSys (send s buf) fl ret) = send (finish (mkFSys s fl ret)) buf.
Proof. by destruct fl. Qed.

Lemma finish_close_stop s fl ret : finish (mkFSys (close_stop s) fl ret) = close_stop (finish (mkFSys s fl ret)).
Proof. by destruct fl. Qed.

Lemma finish_enter s ret : running (flusher s) = true →
  finish (enter_flush s ret) = if ret then stopped s else flush s.
Proof.
  intros Hrun. unfold enter_flush, stopped, flush. case_bool_decide as Hb.
  - unfold finish. cbn [flushing sys]. destruct ret; [|done]. unfold with_flusher. by rewrite Hb.
  - unfold finish. cbn [flushing sys returning]. destruct ret; done.
Qed.

Lemma finish_take s data rest : running (flusher s) = true → finish (take_in s data rest) = receive s data rest.
Proof.
  intros Hrun. unfold take_in, receive, with_flusher. cbn [swal flusher batch].
  destruct (_ <=? _); [|done]. by rewrite finish_enter.
Qed.

Lemma take_in_ok s data rest : running (flusher s) = true → flushing_ok (take_in s data rest).
Proof.
  intros Hrun. unfold take_in, enter_flush, flushing_ok. destruct (_ <=? _); [|split; [intros []|]; done].
  case_bool_decide; cbn [flushing sys returning]; (split; [|done]); [intros []|]; done.
Qed.

Lemma enter_flush_ok s ret : running (flusher s) = true → flushing_ok (enter_flush s ret).
Proof. intros Hrun. unfold enter_flush, flushing_ok. case_bool_decide; cbn; (split; [|done]); [intros []|]; done. Qed.

(** Every step is one step of the machine of WalWriter.v, or none. *)
Lemma fstep_simulates s lab s' : flushing_ok s → fstep s lab s' →
  flushing_ok s' ∧ (lab = Internal ∧ finish s' = finish s ∨ step (finish s) lab (finish s')).
Proof.
  intros [Hrun Hret] Hs. destruct Hs as [s fl ret r buf E Hroom|s r buf E Hr Hch|s data rest Hr Hch|s Hr|s Hr Hst|s d rest ret
    |s ret|s fl ret Hst|s fl ret Hst Hr Hcl]; cbn [flushing sys returning] in *.
  - split; [by split|]. right. rewrite finish_send. apply step_send; [done|by destruct fl].
  - split; [by apply take_in_ok|]. right. rewrite finish_take by done. by apply step_handoff.
  - split; [by apply take_in_ok|]. right. rewrite finish_take by done. by apply step_receive.
  - split; [by apply enter_flush_ok|]. right. rewrite finish_enter by done. by apply step_tick.
  - split; [by apply enter_flush_ok|]. right. rewrite finish_enter by done. by apply step_stop.
  - split; [split; [|done]; intros _; apply Hrun; eauto|]. left. split; [done|].
    unfold finish. cbn [flushing sys returning]. by rewrite flush_writes_cons.
  - split; [split; [intros []|]; done|]. left. split; [done|]. unfold finish. cbn [flushing sys returning]. done.
  - split; [by split|]. right. rewrite finish_close_stop. apply step_close_stop. by destruct fl.
  - split; [by split|]. right. destruct fl as [rest|]; [rewrite Hrun in Hr by eauto; done|].
    unfold finish. cbn [flushing sys]. by apply step_close_file.
Qed.

Lemma frun_simulates w l rs s : frun (fstart w l) rs s → flushing_ok s ∧ run (start w l) rs (finish s).
Proof.
  remember (fstart w l) as s0. induction 1 as [s|s s' s'' rs _ IH Hs|s s' s'' rs r _ IH Hs].
  - subst. split; [by split; [intros []|]|apply run_nil].
  - destruct (IH Heqs0) as [Hok Hrun]. destruct (fstep_simulates _ _ _ Hok Hs) as [Hok' [[_ ->]|Hst]]; [done|].
    split; [done|]. by eapply run_internal.
  - destruct (IH Heqs0) as [Hok Hrun]. destruct (fstep_simulates _ _ _ Hok Hs) as [Hok' [[? _]|Hst]]; [done|].
    split; [done|]. by eapply run_append.
Qed.

(** ** The window *)

Section window.
Context (l : WAL) (f0 : file).
Context (Hmax : 0 < MaxBatchSize (options l)) (Hdur : durable f0 = cached f0).

Definition in_flush (s : FSys) : bool := match flushing s with Some _ => true | None => false end.

(** Of the records appended, the [flushed] ones are durable, those in [written] are in
    the file, the others in the batch and the channel. *)
Definition on_disk (rs : list wal.Record) (s : FSys) : Prop :=
  ∃ f flushed written,
    flushed ++ batch (flusher (sys s)) ++ writeCh (flusher (sys s)) = record_bytes <$> rs ∧
    cached f = cached f0 ++ concat (flushed ++ written) ∧ durable f = cached f0 ++ concat flushed ∧
    (closed (flusher (sys s)) = false → log_at l (world (sys s)) f) ∧
    read_name (path l) (world (sys s)) = Some (cached f) ∧ read_durable (path l) (world (sys s)) = Some (durable f) ∧
    match flushing s with Some rest => written ++ rest = batch (flusher (sys s)) | None => written = [] end.

Record window (rs : list wal.Record) (s : FSys) : Prop := {
  wn_wal : swal (sys s) = l;
  wn_calm : faults (world (sys s)) = [];
  wn_ok : flushing_ok s;
  wn_closed : running (flusher (sys s)) = true → closed (flusher (sys s)) = false;
  wn_channel : len (writeCh (flusher (sys s))) ≤ MaxBatchSize (options l) * 2;
  wn_batch : len (batch (flusher (sys s))) < MaxBatchSize (options l) + (if in_flush s then 1 else 0);
  wn_disk : on_disk rs s;
}.

Lemma window_start w : log_at l w f0 → faults w = [] → window [] (fstart w l).
Proof.
  intros Hl Hf. split; simpl; try done; [unfold len; simpl; lia..|].
  exists f0, [], []. simpl. rewrite app_nil_r. pose proof (log_at_read _ _ _ Hl). naive_solver.
Qed.

(** A step that leaves the file alone. *)
Lemma window_same rs rs' s s' x :
  window rs s → swal (sys s') = swal (sys s) → world (sys s') = world (sys s) →
  closed (flusher (sys s')) = closed (flusher (sys s)) → flushing_ok s' →
  (running (flusher (sys s')) = true → running (flusher (sys s)) = true) →
  len (writeCh (flusher (sys s'))) ≤ MaxBatchSize (options l) * 2 →
  len (batch (flusher (sys s'))) < MaxBatchSize (options l) + (if in_flush s' then 1 else 0) →
  batch (flusher (sys s')) ++ writeCh (flusher (sys s')) = (batch (flusher (sys s)) ++ writeCh (flusher (sys s))) ++ x →
  record_bytes <$> rs' = (record_bytes <$> rs) ++ x →
  (flushing s' = flushing s ∧ batch (flusher (sys s')) = batch (flusher (sys s)) ∨
   flushing s = None ∧ (flushing s' = None ∨ flushing s' = Some (batch (flusher (sys s'))))) →
  window rs' s'.
Proof.
  intros [H1 H2 H3 H4 H5 H6 (f & fl & wr & D1 & D2 & D3 & D4 & D5 & D6 & D7)] E1 E2 E3 Hok Hr Hch Hb Hq Hrs Hph.
  split; try done; rewrite ?E1, ?E2; [done|done|rewrite E3; auto|].
  exists f, fl, (if in_flush s' then wr else []). rewrite E2, E3. split_and!; try done.
  - by rewrite Hrs, <-D1, Hq, !app_assoc.
  - unfold in_flush. destruct Hph as [[-> _]|[Hn _]]; [destruct (flushing s); [done|by subst]|].
    rewrite Hn in D7. subst wr. by destruct (flushing s').
  - unfold in_flush. destruct Hph as [[-> ->]|[Hn [->| ->]]]; [by destruct (flushing s)|done|].
    rewrite Hn in D7. by subst wr.
Qed.

Lemma window_enter rs s ret :
  window rs (mkFSys s None false) → running (flusher s) = true → window rs (enter_flush s ret).
Proof.
  intros Hw Hr. pose proof (enter_flush_ok s ret Hr) as Hok. pose proof (wn_channel _ _ Hw) as Hch.
  pose proof (wn_batch _ _ Hw) as Hb. unfold enter_flush in *. simpl in Hch, Hb.
  case_bool_decide as Hnil.
  - destruct ret; [|done]. eapply window_same with (x := []); try done; simpl; rewrite ?app_nil_r, ?Hnil; auto.
    unfold len. simpl. lia.
  - eapply window_same with (x := []); try done; simpl; rewrite ?app_nil_r; auto. lia.
Qed.

Lemma window_take rs rs' s data rest x :
  window rs (mkFSys s None false) → running (flusher s) = true →
  len rest ≤ MaxBatchSize (options l) * 2 → data :: rest = writeCh (flusher s) ++ x →
  record_bytes <$> rs' = (record_bytes <$> rs) ++ x → window rs' (take_in s data rest).
Proof.
  intros Hw Hr Hch Hx Hrs. pose proof (take_in_ok s data rest Hr) as Hok. pose proof (wn_batch _ _ Hw) as Hb.
  pose proof (wn_wal _ _ Hw) as Hl. simpl in Hb, Hl. unfold take_in, with_flusher, enter_flush in *.
  cbn [swal flusher batch writeCh stopCh running closed] in *.
  assert (batch (flusher s) ++ [data] ≠ []) as Hne by (by destruct (batch (flusher s))).
  rewrite (bool_decide_false _ Hne) in *.
  assert ((batch (flusher s) ++ [data]) ++ rest = (batch (flusher s) ++ writeCh (flusher s)) ++ x) as E
    by (rewrite <-!app_assoc; simpl; by rewrite Hx).
  rewrite Hl in *. destruct (_ <=? _) eqn:Ef; eapply window_same with (x := x); try done; cbn [sys flusher batch flushing in_flush];
    auto; revert Hb Ef; unfold in_flush; cbn [flushing]; len_lia.
Qed.

Lemma window_step rs s lab s' :
  window rs s → fstep s lab s' → window (rs ++ match lab with Appended r => [r] | Internal => [] end) s'.
Proof.
  intros Hw Hs. pose proof Hw as [H1 H2 H3 H4 H5 H6 (f & fl & wr & D1 & D2 & D3 & D4 & D5 & D6 & D7)].
  pose proof (proj1 (fstep_simulates _ _ _ H3 Hs)) as Hok.
  destruct Hs as [s fl' ret r buf E Hroom|s r buf E Hr Hch|s data rest Hr Hch|s Hr|s Hr Hst|s d rest ret
    |s ret|s fl' ret Hst|s fl' ret Hst Hr Hcl]; rewrite ?app_nil_r; rewrite ?encode_bytes in *; simplify_eq/=;
    unfold write_one, leave_flush, close_file, with_world; rewrite ?H1 in *.
  - eapply window_same with (x := [record_bytes r]); try done; simpl; [revert Hroom; len_lia|by rewrite app_assoc|by rewrite fmap_app|auto].
  - eapply window_take with (x := [record_bytes r]); try done; [unfold len; simpl; lia|by rewrite Hch|by rewrite fmap_app].
  - eapply window_take with (x := []); rewrite ?app_nil_r; try done. rewrite Hch in H5. revert H5. len_lia.
  - by apply window_enter.
  - by apply window_enter.
  - assert (closed (flusher s) = false) as Hc by (apply H4, H3; eauto).
    destruct (file_Write_calm l (world s) f d (D4 Hc) H2) as (w' & Ew & Hf' & Hl').
    assert ((ignore (file_Write (wfile l) d) (world s)).2 = w') as Ei by (unfold ignore, catch; by rewrite Ew).
    split; simpl; rewrite ?Ei; try done. pose proof (log_at_read _ _ _ Hl') as [? ?].
    eexists _, fl, (wr ++ [d]). simpl. split_and!; [done| | |done|done|done|by rewrite <-D7, <-app_assoc].
    + simpl. rewrite D2, !concat_app. simpl. by rewrite app_nil_r, !app_assoc.
    + done.
  - assert (closed (flusher s) = false) as Hc by (apply H4, H3; eauto). rewrite app_nil_r in D7. subst wr.
    destruct (file_Sync_calm l (world s) f (D4 Hc) H2) as (w' & Ew & Hf' & Hl').
    assert ((ignore (file_Sync (wfile l)) (world s)).2 = w') as Ei by (unfold ignore, catch; by rewrite Ew).
    split; simpl; rewrite ?Ei; try done; [unfold len; simpl; lia|].
    pose proof (log_at_read _ _ _ Hl') as [? ?].
    exists (mkFile (cached f) (cached f)), (fl ++ batch (flusher s)), []. simpl. rewrite app_nil_r. split_and!; try done.
    by rewrite <-app_assoc.
  - eapply window_same with (x := []); try done; simpl; rewrite ?app_nil_r; auto.
  - destruct (file_Close_read (wfile l) (world s) (path l)) as (E1 & E2 & E3).
    split; simpl; auto; [congruence|]. exists f, fl, wr. simpl. rewrite E1, E2. by split_and!.
Qed.

Lemma window_run w rs s : log_at l w f0 → faults w = [] → frun (fstart w l) rs s → window rs s.
Proof.
  intros Hl Hf Hr. remember (fstart w l) as s0. induction Hr as [s|s s' s'' rs _ IH Hs|s s' s'' rs r _ IH Hs].
  - subst. by apply window_start.
  - rewrite <-(app_nil_r rs). by apply (window_step _ _ Internal s'' (IH Heqs0)).
  - by apply (window_step _ _ (Appended r) s'' (IH Heqs0)).
Qed.
End window.

(** ** Claims *)

(** A part of a log: whole records and the beginning of the next. *)
Lemma log_prefix rs : ∀ d, d `prefix_of` log_bytes rs →
  ∃ rs1 rs2, rs = rs1 ++ rs2 ∧
    (d = log_bytes rs1 ∨ ∃ r n, r ∈ rs2 ∧ (0 < n)%nat ∧ Z.of_nat n < len (record_bytes r) ∧
                               d = log_bytes rs1 ++ take n (record_bytes r)).
Proof.
  induction rs as [|r rs IH]; intros d Hd.
  { exists [], []. split; [done|]. left. by apply prefix_nil_inv in Hd. }
  change (log_bytes (r :: rs)) with (record_bytes r ++ log_bytes rs) in Hd. destruct Hd as [x E].
  destruct (decide (length (record_bytes r) ≤ length d)%nat) as [Hle|Hlt].
  - assert (record_bytes r `prefix_of` d) as [y ->].
    { destruct (prefix_weak_total (record_bytes r) d (record_bytes r ++ log_bytes rs)) as [?|Hp]; [by eexists|by eexists|done|].
      apply prefix_length_eq in Hp; [by subst|lia]. }
    rewrite <-app_assoc in E. apply app_inv_head in E. destruct (IH y) as (rs1 & rs2 & -> & Hy); [by eexists|].
    exists (r :: rs1), rs2. split; [done|]. change (log_bytes (r :: rs1)) with (record_bytes r ++ log_bytes rs1).
    destruct Hy as [->|(r' & n & Hr & Hn & Hl & ->)]; [by left|]. right. exists r', n. by rewrite app_assoc.
  - exists [], (r :: rs). split; [done|]. destruct d as [|b d]; [by left|]. right. exists r, (length (b :: d)).
    split_and!; [by left|simpl; lia|unfold len; lia|]. simpl (log_bytes []).
    apply (f_equal (take (length (b :: d)))) in E. rewrite take_app_length in E.
    rewrite take_app_le in E by lia. by rewrite E.
Qed.

(** C24.  What a power failure can take in mode [interval], at any point of any run
    of appenders, flusher (a call on the file at a time) and [Close] in which no call
    fails: the log that is left holds, after the records that were there, the first of
    the acknowledged ones, and at most [3 * MaxBatchSize] are missing.  Replay applies
    exactly those; it fails only at a record cut off in the middle of a flush. *)
Theorem interval_loss_bounded {S} (apply : S → wal.Record → S) st l w f0 rs0 rs s cur dur d :
  log_at l w f0 → faults w = [] → 0 < MaxBatchSize (options l) →
  cached f0 = log_bytes rs0 → durable f0 = log_bytes rs0 → Forall record_ok (rs0 ++ rs) →
  frun (fstart w l) rs s →
  read_name (path l) (world (sys s)) = Some cur → read_durable (path l) (world (sys s)) = Some dur →
  survives (mkFile cur dur) d →
  ∃ kept lost res, rs = kept ++ lost ∧ len lost ≤ 3 * MaxBatchSize (options l) ∧
    wal.Replay (wal.Contents d) apply st = Some (res, foldl apply st (stored <$> rs0 ++ kept)) ∧
    (res = Ok () ∨ res = Err io_ErrUnexpectedEOF ∧ in_flush s = true).
Proof.
  intros Hl Hf Hmax Hc Hd Hok Hrun Hcur Hdur [Hp1 Hp2]. cbn [cached durable] in Hp1, Hp2.
  assert (durable f0 = cached f0) as Hsame by (by rewrite Hc, Hd).
  destruct (window_run l f0 Hmax Hsame w rs s Hl Hf Hrun) as [_ _ _ _ Hch Hb (f & fl & wr & D1 & D2 & D3 & _ & D5 & D6 & D7)].
  rewrite Hcur in D5. rewrite Hdur in D6. simplify_eq.
  symmetry in D1. apply fmap_app_inv in D1 as (rf & rest & -> & Hrest & ->).
  assert (∃ rw rr, rest = rw ++ rr ∧ wr = record_bytes <$> rw ∧ (in_flush s = false → rw = [])) as (rw & rr & -> & -> & Hw).
  { unfold in_flush. destruct (flushing s) as [fr|]; [|by exists [], rest; subst].
    rewrite <-D7, <-app_assoc in Hrest. symmetry in Hrest. apply fmap_app_inv in Hrest as (rw & rr & -> & _ & ->). by exists rw, rr. }
  assert (len (rw ++ rr) ≤ 3 * MaxBatchSize (options l)) as Hlen.
  { apply (f_equal len) in Hrest. unfold len in *. rewrite length_fmap, length_app in Hrest. destruct (in_flush s); lia. }
  rewrite Hc, concat_app in D2. rewrite Hc in D3. fold (log_bytes rf) in D2, D3. fold (log_bytes rw) in D2.
  rewrite D2 in Hp2. rewrite D3 in Hp1. destruct Hp1 as [x ->]. rewrite !app_assoc in Hp2. apply prefix_app_inv in Hp2.
  destruct (log_prefix rw x Hp2) as (r1 & r2 & -> & Hx).
  assert (log_bytes rs0 ++ log_bytes rf ++ log_bytes r1 = log_bytes (rs0 ++ rf ++ r1)) as Hlog
    by (unfold log_bytes; by rewrite !fmap_app, !concat_app).
  assert (Forall record_ok (rs0 ++ rf ++ r1) ∧ Forall record_ok r2) as [Hok1 Hok2].
  { rewrite !Forall_app in *. naive_solver. }
  exists (rf ++ r1), (r2 ++ rr). destruct Hx as [->|(r & n & Hr & Hn & Hn' & ->)].
  - exists (Ok ()). split_and!; [by rewrite !app_assoc|revert Hlen; len_lia| |by left].
    rewrite <-app_assoc, Hlog. by rewrite Replay_complete.
  - exists (Err io_ErrUnexpectedEOF). split_and!; [by rewrite !app_assoc|revert Hlen; len_lia| |right].
    + rewrite app_assoc, <-(app_assoc (log_bytes rs0)), Hlog, Replay_torn; try done.
      rewrite Forall_forall in Hok2. by apply Hok2.
    + split; [done|]. destruct (in_flush s); [done|]. specialize (Hw eq_refl). apply app_nil in Hw as [_ ->]. by apply elem_of_nil in Hr.
Qed.

(** The worst case: the batch is full and not yet synced, and the channel has filled up
    behind it. *)
Definition ex_taken : FSys := take_in (send (start (ex_world []) (ex_wal SyncInterval)) (record_bytes ex_r1)) (record_bytes ex_r1) [].
Definition ex_full : FSys := take_in (send (sys ex_taken) (record_bytes ex_r2)) (record_bytes ex_r2) [].
Definition ex_more (n : nat) : FSys :=
  mkFSys (Nat.iter n (λ s, send s (record_bytes ex_r1)) (sys ex_full)) (Some [record_bytes ex_r1; record_bytes ex_r2]) false.
Definition ex_torn : FSys :=
  mkFSys (write_one (sys (ex_more 4)) (record_bytes ex_r1)) (Some [record_bytes ex_r2]) false.
Definition ex_appended : list wal.Record := [ex_r1; ex_r2; ex_r1; ex_r1; ex_r1; ex_r1].

Lemma ex_more_run : frun (fstart (ex_world []) (ex_wal SyncInterval)) ex_appended (ex_more 4).
Proof.
  assert (frun (fstart (ex_world []) (ex_wal SyncInterval)) [ex_r1; ex_r2] (ex_more 0)) as H0.
  { assert (ex_more 0 = ex_full) as -> by (vm_compute; reflexivity).
    assert (ex_taken = mkFSys (sys ex_taken) None false) as Et by (vm_compute; reflexivity).
    apply (frun_internal _ (mkFSys (send (sys ex_taken) (record_bytes ex_r2)) None false));
      [|apply f_receive; vm_compute; reflexivity].
    apply (frun_append _ ex_taken _ [ex_r1] ex_r2);
      [|rewrite Et; apply f_send; [apply encode_bytes|vm_compute; reflexivity]].
    apply (frun_internal _ (mkFSys (send (start (ex_world []) (ex_wal SyncInterval)) (record_bytes ex_r1)) None false));
      [|apply f_receive; vm_compute; reflexivity].
    apply (frun_append _ (fstart (ex_world []) (ex_wal SyncInterval)) _ [] ex_r1); [apply frun_nil|].
    apply f_send; [apply encode_bytes|vm_compute; reflexivity]. }
  assert (∀ n rs, (n < 4)%nat → frun (fstart (ex_world []) (ex_wal SyncInterval)) rs (ex_more n) →
    frun (fstart (ex_world []) (ex_wal SyncInterval)) (rs ++ [ex_r1]) (ex_more (S n))) as Hnext.
  { intros n rs Hn Hr. apply (frun_append _ (ex_more n)); [done|]. apply f_send; [apply encode_bytes|].
    do 4 (destruct n as [|n]; [vm_compute; reflexivity|]). lia. }
  apply (Hnext 3%nat [ex_r1; ex_r2; ex_r1; ex_r1; ex_r1]); [lia|].
  apply (Hnext 2%nat [ex_r1; ex_r2; ex_r1; ex_r1]); [lia|].
  apply (Hnext 1%nat [ex_r1; ex_r2; ex_r1]); [lia|].
  apply (Hnext 0%nat [ex_r1; ex_r2]); [lia|done].
Qed.

(** The bound is reached: six records are acknowledged, nothing of them is on the disk. *)
Example interval_loss_reached :
  frun (fstart (ex_world []) (ex_wal SyncInterval)) ex_appended (ex_more 4) ∧
  read_name ex_path (world (sys (ex_more 4))) = Some [] ∧
  len ex_appended = 3 * MaxBatchSize (options (ex_wal SyncInterval)).
Proof. split; [apply ex_more_run|]. vm_compute. auto. Qed.

Lemma interval_loss_bounded_witness :
  ∃ kept lost res, ex_appended = kept ++ lost ∧ len lost ≤ 3 * 2 ∧
    wal.Replay (wal.Contents (take 5 (record_bytes ex_r1))) (λ l r, l ++ [r]) [] =
      Some (res, foldl (λ l r, l ++ [r]) [] (stored <$> [] ++ kept)) ∧
    (res = Ok () ∨ res = Err io_ErrUnexpectedEOF ∧ in_flush ex_torn = true).
Proof.
  apply (interval_loss_bounded (λ l r, l ++ [r]) [] (ex_wal SyncInterval) (ex_world []) (mkFile [] []) [] ex_appended ex_torn
    (record_bytes ex_r1) [] (take 5 (record_bytes ex_r1))).
  - apply ex_log_at.
  - reflexivity.
  - reflexivity.
  - reflexivity.
  - reflexivity.
  - repeat (apply Forall_cons; split; [vm_compute; auto|]). apply Forall_nil. exact I.
  - apply (frun_internal _ (ex_more 4)); [apply ex_more_run|apply f_write].
  - vm_compute. reflexivity.
  - vm_compute. reflexivity.
  - split; [apply prefix_nil|apply prefix_take].
Defined.
