(* ===== verification/Shard.v ===== *)
(** * One shard of the store (storage/store/shard.go)

    The record kept per key, the shard's hash map with its byte counter and
    budget, and the view of it an eviction policy gets
    ([storage/eviction/shard_view.go]).  The lock is not part of the state: each
    operation below runs while the caller holds it.

    Lengths of values in memory are far below [2^63], so the shard's [int64]
    counters are kept as unbounded integers. *)

From S2P Require Import Prelude GoLang.

Abbreviation key := gostring.

Record Record := mkRecord { value : gobytes; createdAt : Z; expiredAt : Z }.

(** The shard without its policy, which [Store] adds. *)
Record Shard := mkShard { data : gmap key Record; bytes : Z; budget : Z }.

(** [int64(len(key) + len(rec.value))] *)
Definition entry_size (k : key) (r : Record) : Z := len k + len (value r).

Definition Bytes (s : Shard) : Z := bytes s.
Definition Budget (s : Shard) : Z := budget s.
Definition Len (s : Shard) : Z := Z.of_nat (size (data s)).

(** Go does not specify the order in which [range] visits a map, and two loops
    over the same map may differ: an order gives, for the [n]-th loop, the entries
    of a map as a list. *)
Definition order := nat → gmap key Record → list (key * Record).
Definition order_ok (ord : order) : Prop := ∀ n m, ord n m ≡ₚ map_to_list m.

(** [for key, rec := range s.data { if !fn(key, rec.expiredAt) { return } }]; [fn]
    acts on the variables it captures, [A]. *)
Fixpoint range_loop {A} (fn : A → key → Z → A * bool) (a : A) (l : list (key * Record)) : A :=
  match l with
  | [] => a
  | (k, r) :: l =>
      let '(a, continue) := fn a k (expiredAt r) in
      if continue then range_loop fn a l else a
  end.

Definition Range {A} (ord : list (key * Record)) (fn : A → key → Z → A * bool) (a : A) : A :=
  range_loop fn a ord.

Definition Evict (s : Shard) (k : key) : Shard :=
  match data s !! k with
  | Some rec => mkShard (delete k (data s)) (bytes s - entry_size k rec) (budget s)
  | None => s
  end.

(** ** The byte counter

    [bytes] is meant to be the sum of the sizes of the entries. *)

Definition sum_sizes (m : gmap key Record) : Z :=
  map_fold (λ k r acc, entry_size k r + acc) 0 m.

Definition shard_ok (s : Shard) : Prop := bytes s = sum_sizes (data s).

Lemma entry_size_nonneg k r : 0 ≤ entry_size k r.
Proof. unfold entry_size. len_lia. Qed.

Lemma sum_sizes_empty : sum_sizes ∅ = 0.
Proof. apply map_fold_empty. Qed.

Lemma sum_sizes_insert m k r :
  m !! k = None → sum_sizes (<[k:=r]> m) = entry_size k r + sum_sizes m.
Proof.
  intros. unfold sum_sizes. rewrite map_fold_insert_L; [done| |done].
  intros. lia.
Qed.

Lemma sum_sizes_delete m k r :
  m !! k = Some r → sum_sizes m = entry_size k r + sum_sizes (delete k m).
Proof.
  intros. rewrite <-(insert_delete_id m k r) at 1 by done.
  by rewrite sum_sizes_insert by apply lookup_delete_eq.
Qed.

Lemma sum_sizes_nonneg m : 0 ≤ sum_sizes m.
Proof.
  induction m as [|k r m ? IH] using map_ind; [by rewrite sum_sizes_empty|].
  rewrite sum_sizes_insert by done. pose proof (entry_size_nonneg k r). lia.
Qed.

(** The order in which the entries are added does not matter. *)
Lemma sum_sizes_perm m l :
  l ≡ₚ map_to_list m → foldl (λ acc '(k, r), acc + entry_size k r) 0 l = sum_sizes m.
Proof.
  intros Hl. unfold sum_sizes. rewrite map_fold_foldr.
  assert (∀ l a, foldl (λ acc '(k, r), acc + entry_size k r) a l =
                 a + foldr (uncurry (λ k r acc, entry_size k r + acc)) 0 l) as E.
  { clear. induction l as [|[k r] l IH]; intros a; simpl; [lia|]. rewrite IH. lia. }
  rewrite E, Z.add_0_l. clear E. revert Hl. generalize (map_to_list m) as l'. intros l' Hl.
  induction Hl as [|[k r] l1 l2 _ IH|[k1 r1] [k2 r2] l|l1 l2 l3 _ IH1 _ IH2]; simpl in *; lia.
Qed.

Lemma Evict_data s k : data (Evict s k) = delete k (data s).
Proof.
  unfold Evict. destruct (data s !! k) eqn:E; [done|]. by rewrite delete_id.
Qed.

Lemma Evict_budget s k : budget (Evict s k) = budget s.
Proof. unfold Evict. by destruct (data s !! k). Qed.

Lemma Evict_ok s k : shard_ok s → shard_ok (Evict s k).
Proof.
  unfold shard_ok, Evict. intros Hs. destruct (data s !! k) as [r|] eqn:E; [|done].
  simpl. rewrite Hs, (sum_sizes_delete _ _ _ E). lia.
Qed.
#[export] Hint Resolve Evict_ok : keva.

Lemma Evict_len s k r : data s !! k = Some r → Len (Evict s k) = Len s - 1.
Proof.
  intros E. unfold Len. rewrite Evict_data, map_size_delete_Some by eauto.
  assert (size (data s) ≠ 0%nat) by (eapply map_size_ne_0_lookup_2; eauto). lia.
Qed.
