(* ===== verification/Eviction.v ===== *)
(** * Eviction policies (storage/eviction/)

    The [Policy] interface with its call contract, its three implementations
    ([NoEvict], [SamplingEvict], [LRUEvict]) and what each promises the store. *)

From S2P Require Import Prelude GoLang Shard.

(** ** eviction_policy.go: the interface

    A policy is a state [P] with a hook before and after each write, read and
    delete.  [BeforeWrite] may evict from the shard and answers whether the write
    may proceed; [ord] is the order of its loops over the map. *)

Class Policy (P : Type) := {
  BeforeWrite : order → P → Shard → key → Z → bool * P * Shard;
  AfterWrite : P → key → P;
  BeforeRead : P → key → P;
  AfterRead : P → key → P;
  BeforeDelete : P → key → P;
  AfterDelete : P → key → P;
}.

(** ** no_evict_policy.go *)

Inductive NoEvict := mkNoEvict.

Definition NoEvict_BeforeWrite (p : NoEvict) (s : Shard) (needed : Z) : bool :=
  if Budget s =? 0 then true else Bytes s + needed <=? Budget s.

#[export] Instance NoEvict_Policy : Policy NoEvict := {
  BeforeWrite _ p s _ needed := (NoEvict_BeforeWrite p s needed, p, s);
  AfterWrite p _ := p; BeforeRead p _ := p; AfterRead p _ := p;
  BeforeDelete p _ := p; AfterDelete p _ := p;
}.

(** ** sampling_evict_policy.go *)

Inductive SamplingEvict := mkSamplingEvict.

Definition sampleN : Z := 5.

(** The variables [evictSoonestOfSample] captures in its callback. *)
Record sample := mkSample { victim : key; victimExpiry : Z; count : Z }.

Definition sample_fn (a : sample) (k : key) (expiresAt : Z) : sample * bool :=
  let a := if (count a =? 0) || (expiresAt <? victimExpiry a)
           then mkSample k expiresAt (count a) else a in
  let a := mkSample (victim a) (victimExpiry a) (count a + 1) in
  (a, count a <? sampleN).

Definition evictSoonestOfSample (entries : list (key * Record)) (s : Shard) : Shard :=
  let a := Range entries sample_fn (mkSample [] 0 0) in
  if count a =? 0 then s else Evict s (victim a).

(** [for s.Bytes()+needed > s.Budget() && s.Len() > 0]; [None] if [fuel] turns are
    not enough. *)
Fixpoint sampling_loop (fuel : nat) (ord : order) (s : Shard) (needed : Z) : option Shard :=
  if (Budget s <? Bytes s + needed) && (0 <? Len s) then
    match fuel with
    | O => None
    | S fuel' => sampling_loop fuel' ord (evictSoonestOfSample (ord fuel (data s)) s) needed
    end
  else Some s.

Definition SamplingEvict_BeforeWrite (ord : order) (s : Shard) (needed : Z) : Shard :=
  if Budget s =? 0 then s else
  default s (sampling_loop (size (data s)) ord s needed).

#[export] Instance SamplingEvict_Policy : Policy SamplingEvict := {
  BeforeWrite ord p s _ needed := (true, p, SamplingEvict_BeforeWrite ord s needed);
  AfterWrite p _ := p; BeforeRead p _ := p; AfterRead p _ := p;
  BeforeDelete p _ := p; AfterDelete p _ := p;
}.

(** ** lru_evict_policy.go

    [container/list]: a list of elements, front first, each with an identity (its
    address) and a value; [elems] maps a key to the identity of its element. *)

Record LRUEvict := mkLRUEvict {
  lru_order : list (nat * key);
  elems : gmap key nat;
  next_elem : nat;
}.

Definition NewLRUEvict : LRUEvict := mkLRUEvict [] ∅ 0.

(** [l.Remove(e)] *)
Definition list_Remove (l : list (nat * key)) (e : nat) : list (nat * key) :=
  filter (λ '(i, _), i ≠ e) l.

(** [l.MoveToFront(e)] *)
Definition list_MoveToFront (l : list (nat * key)) (e : nat) : list (nat * key) :=
  filter (λ '(i, _), i = e) l ++ list_Remove l e.

Definition forget (p : LRUEvict) (k : key) : LRUEvict :=
  match elems p !! k with
  | Some e => mkLRUEvict (list_Remove (lru_order p) e) (delete k (elems p)) (next_elem p)
  | None => p
  end.

(** [for s.Bytes()+needed > s.Budget() && p.order.Len() > 0] *)
Fixpoint lru_loop (fuel : nat) (p : LRUEvict) (s : Shard) (needed : Z) : option (LRUEvict * Shard) :=
  if Budget s <? Bytes s + needed then
    match last (lru_order p) with
    | None => Some (p, s)
    | Some (_, victim) =>
        match fuel with
        | O => None
        | S fuel' => lru_loop fuel' (forget p victim) (Evict s victim) needed
        end
    end
  else Some (p, s).

Definition LRUEvict_BeforeWrite (p : LRUEvict) (s : Shard) (k : key) (needed : Z) : LRUEvict * Shard :=
  let p := forget p k in
  if Budget s =? 0 then (p, s) else
  default (p, s) (lru_loop (length (lru_order p)) p s needed).

Definition LRUEvict_AfterWrite (p : LRUEvict) (k : key) : LRUEvict :=
  mkLRUEvict ((next_elem p, k) :: lru_order p) (<[k := next_elem p]> (elems p)) (S (next_elem p)).

Definition LRUEvict_AfterRead (p : LRUEvict) (k : key) : LRUEvict :=
  match elems p !! k with
  | Some e => mkLRUEvict (list_MoveToFront (lru_order p) e) (elems p) (next_elem p)
  | None => p
  end.

#[export] Instance LRUEvict_Policy : Policy LRUEvict := {
  BeforeWrite _ p s k needed := let '(p, s) := LRUEvict_BeforeWrite p s k needed in (true, p, s);
  AfterWrite := LRUEvict_AfterWrite; BeforeRead p _ := p; AfterRead := LRUEvict_AfterRead;
  BeforeDelete p _ := p; AfterDelete := forget;
}.

(** ** policy_names.go

    [ByName] picks the constructor; a dynamic policy value is one of the three. *)

Definition NameNoEvict : gostring := str "noevict".
Definition NameRelaxed : gostring := str "relaxed".
Definition NameStrict : gostring := str "strict".

Inductive AnyPolicy :=
  | PNoEvict (p : NoEvict)
  | PSampling (p : SamplingEvict)
  | PLRU (p : LRUEvict).

Definition ByName (name : gostring) : AnyPolicy :=
  if bool_decide (name = NameRelaxed) then PSampling mkSamplingEvict
  else if bool_decide (name = NameStrict) then PLRU NewLRUEvict
  else PNoEvict mkNoEvict.

(** The start of [NewKVStore]: no factory means the one of [NoEvict]. *)
Definition new_policy (factory : option AnyPolicy) : AnyPolicy := default (ByName NameNoEvict) factory.

Definition any_hook (f : ∀ P, Policy P → P → key → P) (p : AnyPolicy) (k : key) : AnyPolicy :=
  match p with
  | PNoEvict p => PNoEvict (f _ _ p k)
  | PSampling p => PSampling (f _ _ p k)
  | PLRU p => PLRU (f _ _ p k)
  end.

#[export] Instance AnyPolicy_Policy : Policy AnyPolicy := {
  BeforeWrite ord p s k needed :=
    match p with
    | PNoEvict p => let '(ok, p, s) := BeforeWrite ord p s k needed in (ok, PNoEvict p, s)
    | PSampling p => let '(ok, p, s) := BeforeWrite ord p s k needed in (ok, PSampling p, s)
    | PLRU p => let '(ok, p, s) := BeforeWrite ord p s k needed in (ok, PLRU p, s)
    end;
  AfterWrite := any_hook (λ P _, AfterWrite);
  BeforeRead := any_hook (λ P _, BeforeRead);
  AfterRead := any_hook (λ P _, AfterRead);
  BeforeDelete := any_hook (λ P _, BeforeDelete);
  AfterDelete := any_hook (λ P _, AfterDelete);
}.

(** ** What the store relies on

    [pol_inv p K]: the policy's bookkeeping is in step with a shard that holds the
    keys [K].  At [BeforeWrite] the entry being replaced is out of the shard but
    may still be known to the policy. *)
Class PolicyLaws (P : Type) `{Policy P} := {
  pol_inv : P → gset key → Prop;
  BeforeWrite_law ord p s k needed K ok p' s' :
    order_ok ord → shard_ok s → data s !! k = None →
    K ∖ {[k]} = dom (data s) → pol_inv p K →
    BeforeWrite ord p s k needed = (ok, p', s') →
    if ok then
      pol_inv p' (dom (data s')) ∧ data s' ⊆ data s ∧ shard_ok s' ∧ budget s' = budget s ∧
      (budget s = 0 ∨ bytes s' + needed ≤ budget s ∨ data s' = ∅)
    else s' = s ∧ pol_inv p' K;
  BeforeWrite_unlimited ord p s k needed :
    budget s = 0 → ∃ p', BeforeWrite ord p s k needed = (true, p', s);
  AfterWrite_law p k K : pol_inv p K → k ∉ K → pol_inv (AfterWrite p k) ({[k]} ∪ K);
  BeforeRead_law p k K : pol_inv p K → pol_inv (BeforeRead p k) K;
  AfterRead_law p k K : pol_inv p K → pol_inv (AfterRead p k) K;
  BeforeDelete_law p k K : pol_inv p K → pol_inv (BeforeDelete p k) K;
  AfterDelete_law p k K : pol_inv p K → pol_inv (AfterDelete p k) (K ∖ {[k]});
}.

#[export] Program Instance NoEvict_Laws : PolicyLaws NoEvict := { pol_inv _ _ := True }.
Next Obligation.
  intros ord p s k needed K ok p' s' _ Hs _ _ _ E. simpl in E. simplify_eq.
  unfold NoEvict_BeforeWrite, Budget, Bytes.
  destruct (budget s' =? 0) eqn:E0; [|destruct (_ <=? _) eqn:E1]; [| |done];
    (split_and!; [done|done|done|done|lia]).
Qed.
Next Obligation.
  intros ord p s k needed Hb. simpl. unfold NoEvict_BeforeWrite, Budget. rewrite Hb. eauto.
Qed.
Solve All Obligations with done.

(** ** SamplingEvict *)

(** After visiting the entries [seen], the victim is one of them that expires
    soonest. *)
Definition sample_inv (a : sample) (seen : list (key * Record)) : Prop :=
  count a = Z.of_nat (length seen) ∧
  (seen ≠ [] → ∃ r, (victim a, r) ∈ seen ∧ expiredAt r = victimExpiry a ∧
                    ∀ k' r', (k', r') ∈ seen → expiredAt r ≤ expiredAt r').

Lemma sample_fn_inv a seen k r :
  sample_inv a seen → sample_inv (sample_fn a k (expiredAt r)).1 (seen ++ [(k, r)]).
Proof.
  intros [Hc Hv]. unfold sample_fn, sample_inv. rewrite length_app. simpl.
  destruct (count a =? 0) eqn:E0; simpl.
  - destruct seen; simpl in *; [|lia]. split; [lia|]. intros _. exists r.
    split_and!; [set_solver|done|]. intros k' r' Hin%list_elem_of_singleton. naive_solver lia.
  - destruct Hv as (r0 & Hin & He & Hmin); [by intros ->; simpl in *; lia|].
    destruct (expiredAt r <? victimExpiry a) eqn:E1; simpl; (split; [lia|]); intros _.
    + exists r. split_and!; [set_solver|done|].
      intros k' r' [Hin'|Hin'%list_elem_of_singleton]%elem_of_app;
        [specialize (Hmin _ _ Hin'); lia|naive_solver lia].
    + exists r0. split_and!; [set_solver|done|].
      intros k' r' [Hin'|Hin'%list_elem_of_singleton]%elem_of_app; [eauto|].
      simplify_eq. lia.
Qed.

Lemma range_sample l : ∀ a seen,
  sample_inv a seen → (length seen < 5)%nat →
  sample_inv (range_loop sample_fn a l) (take 5 (seen ++ l)).
Proof.
  induction l as [|[k r] l IH]; intros a seen Ha Hlen; cbn [range_loop].
  { by rewrite app_nil_r, take_ge by lia. }
  pose proof (sample_fn_inv a seen k r Ha) as Ha'.
  replace (seen ++ (k, r) :: l) with ((seen ++ [(k, r)]) ++ l) by (by rewrite <-app_assoc).
  destruct (sample_fn a k (expiredAt r)) as [a' b] eqn:E. simpl in Ha'.
  assert (b = (count a' <? sampleN)) as -> by (unfold sample_fn in E; by simplify_eq/=).
  destruct Ha' as [Hc Hv]. rewrite length_app in Hc. unfold sampleN. simpl in Hc.
  destruct (count a' <? 5) eqn:E5.
  - apply IH; [split; [rewrite length_app; simpl; lia|done]|rewrite length_app; simpl; lia].
  - rewrite take_app_le by (rewrite length_app; simpl; lia).
    rewrite take_ge by (rewrite length_app; simpl; lia).
    split; [rewrite length_app; simpl; lia|done].
Qed.

(** One round evicts a key that expires soonest among the first five visited. *)
Lemma evictSoonest_spec l s :
  l ≡ₚ map_to_list (data s) → data s ≠ ∅ →
  ∃ k r, data s !! k = Some r ∧ (k, r) ∈ take 5 l ∧
    (∀ k' r', (k', r') ∈ take 5 l → expiredAt r ≤ expiredAt r') ∧
    evictSoonestOfSample l s = Evict s k.
Proof.
  intros Hl Hne. unfold evictSoonestOfSample, Range.
  destruct (range_sample l (mkSample [] 0 0) []) as [Hc Hv]; [done|simpl; lia|].
  rewrite app_nil_l in *.
  assert (take 5 l ≠ []) as Hne5.
  { destruct l; [|done]. apply Permutation_nil_l in Hl. by apply symmetry, map_to_list_empty_iff in Hl. }
  destruct (Hv Hne5) as (r & Hin & _ & Hmin).
  eexists _, r. split_and!; [|exact Hin|exact Hmin|].
  - apply elem_of_map_to_list. rewrite <-Hl. by apply elem_of_take in Hin as (?&?%list_elem_of_lookup_2&_).
  - rewrite Hc. destruct (take 5 l); [done|]. simpl. done.
Qed.

Lemma sampling_loop_spec ord needed fuel : ∀ s,
  order_ok ord → shard_ok s → (size (data s) ≤ fuel)%nat →
  ∃ s', sampling_loop fuel ord s needed = Some s' ∧
    data s' ⊆ data s ∧ shard_ok s' ∧ budget s' = budget s ∧
    (bytes s' + needed ≤ budget s ∨ data s' = ∅).
Proof.
  induction fuel as [|fuel IH]; intros s Hord Hs Hsize; cbn [sampling_loop];
    unfold Budget, Bytes, Len;
    (destruct (_ && _) eqn:E; [apply andb_true_iff in E as [E1 E2]|
       exists s; split_and!; [done..|];
       apply andb_false_iff in E as [E|E]; [left; lia|right; apply map_size_empty_iff; lia]]).
  { lia. }
  destruct (evictSoonest_spec (ord (S fuel) (data s)) s) as (k & r & Hk & _ & _ & ->);
    [apply Hord|intros H0; by rewrite H0, map_size_empty in E2|].
  destruct (IH (Evict s k)) as (s' & -> & Hsub & Hok' & Hb & Hroom); [done|by apply Evict_ok|..].
  { pose proof (Evict_len s k r Hk) as E. unfold Len in E. lia. }
  exists s'. rewrite Evict_budget in *. split_and!; [done| |done..].
  etrans; [exact Hsub|]. rewrite Evict_data. apply delete_subseteq.
Qed.

#[export] Program Instance SamplingEvict_Laws : PolicyLaws SamplingEvict := { pol_inv _ _ := True }.
Next Obligation.
  intros ord p s k needed K ok p' s' Hord Hs _ _ _ E. simpl in E. simplify_eq.
  unfold SamplingEvict_BeforeWrite, Budget.
  destruct (budget s =? 0) eqn:E0; [split_and!; auto with lia|].
  destruct (sampling_loop_spec ord needed (size (data s)) s) as (s' & -> & ?&?&?&?); [done..|].
  simpl. split_and!; auto.
Qed.
Next Obligation.
  intros ord p s k needed Hb. simpl. unfold SamplingEvict_BeforeWrite, Budget. rewrite Hb. eauto.
Qed.
Solve All Obligations with done.

(** ** LRUEvict

    The list and the map agree: each element of the list has an identity of its
    own, below the next fresh one, and [elems] finds exactly the elements of the
    list.  So the list's keys, most recent first, are the abstract state of the
    policy. *)

Record lru_ok (p : LRUEvict) (K : gset key) : Prop := {
  lru_nodup : NoDup (lru_order p).*1;
  lru_elems k e : elems p !! k = Some e ↔ (e, k) ∈ lru_order p;
  lru_fresh e k : (e, k) ∈ lru_order p → (e < next_elem p)%nat;
  lru_dom : dom (elems p) = K;
}.

Definition lru_keys (p : LRUEvict) : list key := (lru_order p).*2.

Section lru.
Context (p : LRUEvict) (K : gset key) (Hp : lru_ok p K).

Lemma lru_keys_in k : k ∈ lru_keys p ↔ k ∈ K.
Proof.
  rewrite <-(lru_dom _ _ Hp), elem_of_dom. unfold lru_keys. rewrite list_elem_of_fmap. split.
  - intros ([e k'] & -> & Hin). exists e. by apply (lru_elems _ _ Hp).
  - intros [e He]. exists (e, k). split; [done|]. by apply (lru_elems _ _ Hp).
Qed.

Lemma lru_same_key e1 e2 k : (e1, k) ∈ lru_order p → (e2, k) ∈ lru_order p → e1 = e2.
Proof.
  intros H1%(lru_elems _ _ Hp) H2%(lru_elems _ _ Hp). congruence.
Qed.

Lemma lru_same_elem e k1 k2 : (e, k1) ∈ lru_order p → (e, k2) ∈ lru_order p → k1 = k2.
Proof.
  intros [i Hi]%list_elem_of_lookup [j Hj]%list_elem_of_lookup.
  assert (i = j) as ->.
  { eapply (NoDup_lookup _ i j e); [apply (lru_nodup _ _ Hp)|..];
      rewrite list_lookup_fmap; [by rewrite Hi|by rewrite Hj]. }
  congruence.
Qed.

Lemma lru_keys_nodup : NoDup (lru_keys p).
Proof.
  apply NoDup_fmap_2_strong; [|by eapply NoDup_fmap_1, lru_nodup].
  intros [e1 k1] [e2 k2] H1 H2 ?. simpl in *. subst. f_equal. eauto using lru_same_key.
Qed.

(** [forget] removes one key from the recency list. *)
Lemma forget_order k : lru_order (forget p k) = filter (λ '(_, k'), k' ≠ k) (lru_order p).
Proof.
  unfold forget. destruct (elems p !! k) as [e|] eqn:E; simpl; [unfold list_Remove|].
  - apply (lru_elems _ _ Hp) in E. apply filter_ext_in. intros [e' k'] Hin.
    split; intros Hne ->; apply Hne; eauto using lru_same_key, lru_same_elem.
  - symmetry. apply filter_id_in. intros [e' k'] Hin ->.
    apply (lru_elems _ _ Hp) in Hin. congruence.
Qed.

Lemma forget_keys k : lru_keys (forget p k) = filter (λ k', k' ≠ k) (lru_keys p).
Proof.
  unfold lru_keys. rewrite forget_order, filter_fmap_comm. f_equal.
  apply filter_ext_in. by intros [e' k'].
Qed.

Lemma forget_ok k : lru_ok (forget p k) (K ∖ {[k]}).
Proof.
  assert (elems (forget p k) = delete k (elems p)) as Hel.
  { unfold forget. destruct (elems p !! k) eqn:E; [done|]. by rewrite delete_id. }
  assert (next_elem (forget p k) = next_elem p) as Hn by (unfold forget; by case_match).
  split; rewrite ?Hel, ?Hn, ?forget_order.
  - eapply sublist_NoDup; [apply (lru_nodup _ _ Hp)|]. apply fmap_sublist, sublist_filter.
  - intros k' e. rewrite lookup_delete_Some, list_elem_of_filter, (lru_elems _ _ Hp). naive_solver.
  - intros e k' [_ Hin]%list_elem_of_filter. by eapply lru_fresh.
  - by rewrite dom_delete_L, (lru_dom _ _ Hp).
Qed.

Lemma LRU_AfterWrite_ok k : k ∉ K → lru_ok (LRUEvict_AfterWrite p k) ({[k]} ∪ K).
Proof.
  intros Hk. split; simpl.
  - apply NoDup_cons. split; [|apply (lru_nodup _ _ Hp)].
    intros ([e k'] & Heq & Hin)%list_elem_of_fmap. simpl in Heq. subst.
    apply (lru_fresh _ _ Hp) in Hin. lia.
  - intros k' e. rewrite elem_of_cons, <-(lru_elems _ _ Hp), lookup_insert_Some. split.
    + naive_solver.
    + intros [[= <- <-]|He]; [by left|]. right. split; [|done]. intros <-.
      apply Hk. rewrite <-(lru_dom _ _ Hp). apply elem_of_dom. eauto.
  - intros e k' [[= -> ->]|Hin]%elem_of_cons; [lia|]. apply (lru_fresh _ _ Hp) in Hin. lia.
  - by rewrite dom_insert_L, (lru_dom _ _ Hp).
Qed.

(** A read moves the key to the front and keeps the rest in order. *)
Lemma LRU_AfterRead_ok k : lru_ok (LRUEvict_AfterRead p k) K.
Proof.
  unfold LRUEvict_AfterRead. destruct (elems p !! k) as [e|] eqn:E; [|done].
  assert (list_MoveToFront (lru_order p) e ≡ₚ lru_order p) as Hperm.
  { unfold list_MoveToFront, list_Remove.
    etrans; [|apply (filter_app_complement (λ '(i, _), i = e))].
    f_equiv. apply reflexive_eq, filter_ext_in. by intros [i k']. }
  destruct Hp as [H1 H2 H3 H4]. split; simpl; [|intros; by rewrite Hperm|intros ??; by rewrite Hperm; apply H3|done].
  eapply NoDup_Permutation_proper; [|exact H1]. by rewrite Hperm.
Qed.

Lemma LRU_AfterRead_keys k :
  k ∈ K → lru_keys (LRUEvict_AfterRead p k) = k :: filter (λ k', k' ≠ k) (lru_keys p).
Proof.
  intros Hk. rewrite <-(lru_dom _ _ Hp) in Hk. apply elem_of_dom in Hk as [e He].
  assert ((e, k) ∈ lru_order p) as Hin by (by apply (lru_elems _ _ Hp)).
  unfold lru_keys, LRUEvict_AfterRead. rewrite He. cbn [lru_order]. unfold list_MoveToFront.
  rewrite fmap_app. rewrite <-forget_keys. unfold lru_keys, forget. rewrite He. cbn [lru_order].
  change (k :: ?l) with ([k] ++ l). f_equal.
  assert (∀ l : list (nat * key), NoDup l.*1 → (e, k) ∈ l → filter (λ '(i, _), i = e) l = [(e, k)]) as Hf.
  { clear. induction l as [|[e' k'] l IH]; intros Hnd Hin; [by apply not_elem_of_nil in Hin|].
    apply NoDup_cons in Hnd as [Hn Hnd]. rewrite filter_cons.
    apply elem_of_cons in Hin as [[= <- <-]|Hin]; case_decide; try done.
    - f_equal. apply filter_none_in. intros [i k''] Hi ->. apply Hn.
      apply list_elem_of_fmap. by exists (e, k'').
    - subst e'. destruct Hn. apply list_elem_of_fmap. by exists (e, k).
    - by apply IH. }
  by rewrite Hf by (done || apply (lru_nodup _ _ Hp)).
Qed.
End lru.

(** The entries of a map whose keys are in a list. *)
Definition restrict (m : gmap key Record) (ks : list key) : gmap key Record :=
  filter (λ '(k, _), k ∈ ks) m.

Lemma restrict_lookup m ks k r : restrict m ks !! k = Some r ↔ m !! k = Some r ∧ k ∈ ks.
Proof. unfold restrict. by rewrite map_lookup_filter_Some. Qed.

Lemma restrict_all m ks : (∀ k, k ∈ dom m → k ∈ ks) → restrict m ks = m.
Proof.
  intros Hall. apply map_eq. intros k. apply option_eq. intros r. rewrite restrict_lookup.
  split; [naive_solver|]. intros Hk. split; [done|]. apply Hall, elem_of_dom. eauto.
Qed.

Lemma restrict_delete m v ks : v ∉ ks → restrict (delete v m) ks = restrict m ks.
Proof.
  intros Hv. apply map_eq. intros k. apply option_eq. intros r. rewrite !restrict_lookup.
  rewrite lookup_delete_Some. split; [naive_solver|]. intros [? Hk].
  split_and!; [|done..]. by intros ->.
Qed.

Lemma restrict_nil m : restrict m [] = ∅.
Proof.
  apply map_empty. intros k. apply eq_None_not_Some. intros [r Hr].
  apply restrict_lookup in Hr as [_ Hr]. by apply not_elem_of_nil in Hr.
Qed.

(** The eviction loop keeps the longest most-recent prefix of the recency list that
    leaves room for the new entry. *)
Definition lru_trimmed (ks : list key) (m : gmap key Record) (needed budget : Z) (n : nat) : Prop :=
  (n ≤ length ks)%nat ∧
  (n = 0%nat ∨ sum_sizes (restrict m (take n ks)) + needed ≤ budget) ∧
  ((n < length ks)%nat → budget < sum_sizes (restrict m (take (S n) ks)) + needed).

(** Forgetting the key at the back of the list. *)
Lemma forget_last p K l e v :
  lru_ok p K → lru_order p = l ++ [(e, v)] →
  lru_keys p = (l.*2) ++ [v] ∧ (v ∉ l.*2) ∧ (lru_keys (forget p v) = l.*2) ∧
  (length (lru_order (forget p v)) ≤ length l)%nat.
Proof.
  intros Hp Hl. assert (lru_keys p = l.*2 ++ [v]) as Hks by (unfold lru_keys; by rewrite Hl, fmap_app).
  pose proof (lru_keys_nodup p _ Hp) as Hnd. rewrite Hks in Hnd. apply NoDup_app in Hnd as (_ & Hv & _).
  assert (v ∉ l.*2) as Hvl by (intros Hin; apply (Hv v Hin); by left).
  split_and!; [done|done| |].
  - rewrite (forget_keys p _ Hp), Hks, filter_app, filter_id_in, filter_none_in, app_nil_r; [done|..].
    + intros k Hk%list_elem_of_singleton. by intros [].
    + intros k Hk ->. done.
  - rewrite (forget_order p _ Hp), Hl, filter_app, length_app.
    rewrite (filter_none_in _ [(e, v)]) by (intros ? ->%list_elem_of_singleton; by intros []).
    pose proof (length_filter (λ '(_, k'), k' ≠ v) l). simpl. lia.
Qed.

Lemma lru_loop_spec needed fuel : ∀ p s,
  lru_ok p (dom (data s)) → shard_ok s → (length (lru_order p) ≤ fuel)%nat →
  ∃ n p' s', lru_loop fuel p s needed = Some (p', s') ∧
    lru_trimmed (lru_keys p) (data s) needed (budget s) n ∧
    lru_keys p' = take n (lru_keys p) ∧ data s' = restrict (data s) (take n (lru_keys p)) ∧
    lru_ok p' (dom (data s')) ∧ shard_ok s' ∧ budget s' = budget s.
Proof.
  induction fuel as [|fuel IH]; intros p s Hp Hs Hfuel; cbn [lru_loop]; unfold Budget, Bytes.
  all: assert (restrict (data s) (lru_keys p) = data s) as Hall
    by (apply restrict_all; intros k; by rewrite (lru_keys_in p _ Hp)).
  all: destruct (budget s <? bytes s + needed) eqn:E;
    [|exists (length (lru_keys p)), p, s; unfold lru_trimmed;
      rewrite take_ge, Hall by lia; rewrite <-Hs; split_and!; try done; lia].
  all: destruct (last (lru_order p)) as [[e v]|] eqn:Hl.
  2,4: apply last_None in Hl; exists 0%nat, p, s; unfold lru_trimmed, lru_keys in *; rewrite Hl in *;
      simpl in *; split_and!; auto with lia.
  { apply last_Some in Hl as [l Hl]. rewrite Hl, length_app in Hfuel. simpl in Hfuel. lia. }
  apply last_Some in Hl as [l Hl].
  destruct (forget_last p _ l e v Hp Hl) as (Hks & Hvl & Hfk & Hlen).
  destruct (IH (forget p v) (Evict s v)) as (n & p' & s' & -> & Htr & Hk' & Hd' & Hp' & Hs' & Hb');
    [rewrite Evict_data, dom_delete_L; by apply forget_ok|by apply Evict_ok|..].
  { rewrite Hl, length_app in Hfuel. simpl in Hfuel. lia. }
  rewrite Hfk, Evict_data, Evict_budget in *. destruct Htr as (Hn & Hroom & Hmin).
  assert (∀ i, restrict (delete v (data s)) (take i l.*2) = restrict (data s) (take i (lru_keys p))
               ∨ (length l.*2 < i)%nat) as Hre.
  { intros i. destruct (decide (i ≤ length l.*2)%nat); [left|right; lia].
    rewrite Hks, take_app_le by done. apply restrict_delete.
    intros Hin. apply Hvl. by eapply subseteq_take. }
  exists n, p', s'. split_and!; [done| |..].
  - unfold lru_trimmed. split_and!; [rewrite Hks, length_app; simpl; lia| |].
    + destruct (Hre n) as [<-|]; [done|lia].
    + intros _. destruct (decide (n < length l.*2)%nat) as [Hlt|].
      * destruct (Hre (S n)) as [<-|]; [by apply Hmin|lia].
      * rewrite take_ge, Hall by (rewrite Hks, length_app; simpl; lia). rewrite <-Hs. lia.
  - by rewrite Hk', Hks, take_app_le by done.
  - rewrite Hd'. destruct (Hre n) as [<-|]; [done|lia].
  - done.
  - done.
  - done.
Qed.

Lemma LRUEvict_BeforeWrite_spec p s k needed K :
  lru_ok p K → K ∖ {[k]} = dom (data s) → shard_ok s → budget s ≠ 0 →
  ∃ n p' s', LRUEvict_BeforeWrite p s k needed = (p', s') ∧
    lru_trimmed (filter (λ k', k' ≠ k) (lru_keys p)) (data s) needed (budget s) n ∧
    lru_keys p' = take n (filter (λ k', k' ≠ k) (lru_keys p)) ∧
    data s' = restrict (data s) (lru_keys p') ∧
    lru_ok p' (dom (data s')) ∧ shard_ok s' ∧ budget s' = budget s.
Proof.
  intros Hp HK Hs Hb. unfold LRUEvict_BeforeWrite, Budget.
  destruct (budget s =? 0) eqn:E0; [lia|].
  pose proof (forget_ok p K Hp k) as Hf. rewrite HK in Hf.
  destruct (lru_loop_spec needed _ _ s Hf Hs (le_n _)) as (n & p' & s' & -> & H1 & H2 & H3 & H4).
  rewrite (forget_keys p K Hp) in *. exists n, p', s'. rewrite H2. naive_solver.
Qed.

#[export] Program Instance LRUEvict_Laws : PolicyLaws LRUEvict := { pol_inv := lru_ok }.
Next Obligation.
  intros ord p s k needed K ok p' s' _ Hs _ HK Hp E. cbn in E.
  destruct (LRUEvict_BeforeWrite p s k needed) as [p1 s1] eqn:E1. simplify_eq.
  destruct (decide (budget s = 0)) as [H0|H0].
  - unfold LRUEvict_BeforeWrite, Budget in E1. rewrite H0 in E1. simpl in E1. simplify_eq.
    split_and!; [|done|done|done|by left]. rewrite <-HK. by apply forget_ok.
  - destruct (LRUEvict_BeforeWrite_spec p s k needed K) as (n & p2 & s2 & E2 & Htr & Hk & Hd & ? & Hs2 & ?);
      [done..|]. rewrite E1 in E2. simplify_eq. split_and!; [done| |done|done|].
    + rewrite Hd. apply map_filter_subseteq.
    + destruct Htr as (_ & [->|Hroom] & _).
      * rewrite Hk in Hd. right; right. by rewrite Hd, take_0, restrict_nil.
      * right; left. by rewrite Hs2, Hd, Hk.
Qed.
Next Obligation.
  intros ord p s k needed Hb. simpl. unfold LRUEvict_BeforeWrite, Budget. rewrite Hb. eauto.
Qed.
Next Obligation. intros. by apply LRU_AfterWrite_ok. Qed.
Next Obligation. done. Qed.
Next Obligation. intros. by apply LRU_AfterRead_ok. Qed.
Next Obligation. done. Qed.
Next Obligation. intros. by apply forget_ok. Qed.

(** A policy picked at run time keeps the laws of its implementation. *)
Definition any_inv (p : AnyPolicy) (K : gset key) : Prop :=
  match p with
  | PNoEvict p => pol_inv p K
  | PSampling p => pol_inv p K
  | PLRU p => pol_inv p K
  end.

#[export] Program Instance AnyPolicy_Laws : PolicyLaws AnyPolicy := { pol_inv := any_inv }.
Next Obligation.
  intros ord [p|p|p] s k needed K ok p' s' Hord Hs Hk HK Hp E; cbn [BeforeWrite AnyPolicy_Policy] in E;
    destruct (BeforeWrite ord p s k needed) as [[ok' p1] s1] eqn:E1; simplify_eq;
    pose proof (BeforeWrite_law _ _ _ _ _ _ _ _ _ Hord Hs Hk HK Hp E1) as Hlaw; by destruct ok.
Qed.
Next Obligation.
  intros ord [p|p|p] s k needed Hb; cbn [BeforeWrite AnyPolicy_Policy];
    destruct (BeforeWrite_unlimited ord p s k needed Hb) as [p' ->]; eauto.
Qed.
Next Obligation. intros [p|p|p] k K; [apply (AfterWrite_law p)..]. Qed.
Next Obligation. intros [p|p|p] k K; [apply (BeforeRead_law p)..]. Qed.
Next Obligation. intros [p|p|p] k K; [apply (AfterRead_law p)..]. Qed.
Next Obligation. intros [p|p|p] k K; [apply (BeforeDelete_law p)..]. Qed.
Next Obligation. intros [p|p|p] k K; [apply (AfterDelete_law p)..]. Qed.

(** No policy evicts for a write that fits; for one that does not, [NoEvict] refuses it
    and the others let it through. *)
Lemma BeforeWrite_fits ord (p : AnyPolicy) s k needed :
  budget s = 0 ∨ bytes s + needed ≤ budget s → ∃ p', BeforeWrite ord p s k needed = (true, p', s).
Proof.
  intros [Hb|Hb]; [by apply BeforeWrite_unlimited|].
  assert ((Budget s <? Bytes s + needed) = false) as E by (unfold Budget, Bytes; lia).
  destruct p as [p|p|p]; cbn [BeforeWrite AnyPolicy_Policy NoEvict_Policy SamplingEvict_Policy LRUEvict_Policy].
  - unfold NoEvict_BeforeWrite, Budget, Bytes. replace (_ <=? _) with true by lia.
    exists (PNoEvict p). by destruct (_ =? 0).
  - unfold SamplingEvict_BeforeWrite. exists (PSampling p). destruct (_ =? 0); [done|].
    by destruct (size (data s)); cbn [sampling_loop]; rewrite E.
  - unfold LRUEvict_BeforeWrite. destruct (_ =? 0); [eauto|].
    by destruct (length _); cbn [lru_loop]; rewrite E; eexists.
Qed.

Lemma BeforeWrite_full ord (p : AnyPolicy) s k needed :
  budget s ≠ 0 → budget s < bytes s + needed →
  (BeforeWrite ord p s k needed).1.1 = match p with PNoEvict _ => false | _ => true end.
Proof.
  intros H0 Hb. destruct p as [p|p|p]; cbn [BeforeWrite AnyPolicy_Policy NoEvict_Policy SamplingEvict_Policy LRUEvict_Policy]; cbn.
  - unfold NoEvict_BeforeWrite, Budget, Bytes. replace (_ =? 0) with false by lia. lia.
  - done.
  - by destruct (LRUEvict_BeforeWrite _ _ _ _).
Qed.

Lemma NewLRUEvict_ok : lru_ok NewLRUEvict ∅.
Proof. split; [constructor|set_solver|set_solver|done]. Qed.

Lemma ByName_inv name : pol_inv (ByName name) ∅.
Proof. unfold ByName. repeat case_bool_decide; simpl; [done| |done]. apply NewLRUEvict_ok. Qed.

(** ** The properties of the two evicting policies *)

Definition example_shard : Shard :=
  mkShard {[ [1] := mkRecord [0;0] 0 30; [2] := mkRecord [0;0] 0 10; [3] := mkRecord [0] 0 20 ]} 8 9.

Definition example_lru : LRUEvict :=
  mkLRUEvict [(2%nat, [3]); (0%nat, [1]); (1%nat, [2])] {[ [1] := 0%nat; [2] := 1%nat; [3] := 2%nat ]} 3.

Lemma example_shard_ok : shard_ok example_shard.
Proof. vm_compute. reflexivity. Qed.

Lemma example_lru_ok : lru_ok example_lru {[ [1]; [2]; [3] ]}.
Proof.
  split.
  - repeat constructor; set_solver.
  - intros k e. cbn. rewrite !lookup_insert_Some, lookup_singleton_Some, !elem_of_cons, elem_of_nil.
    naive_solver.
  - intros e k. cbn. rewrite !elem_of_cons, elem_of_nil. naive_solver lia.
  - cbn. rewrite !dom_insert_L, dom_singleton_L. set_solver.
Qed.

(** C31.  [LRUEvict.BeforeWrite] on a shard with a budget terminates and keeps
    exactly the longest most-recently-used prefix of the keys (the key being
    written left out) that leaves room for the new entry, or nothing: the evicted
    keys are the shortest least-recently-used suffix that makes the write fit, the
    shard holds the kept keys with their old values, and the list, the element map
    and the byte counter stay in step with the shard. *)
Theorem lru_evicts_least_recent p s k needed K :
  lru_ok p K → K ∖ {[k]} = dom (data s) → shard_ok s → budget s ≠ 0 →
  ∃ n p' s', LRUEvict_BeforeWrite p s k needed = (p', s') ∧
    lru_trimmed (filter (λ k', k' ≠ k) (lru_keys p)) (data s) needed (budget s) n ∧
    lru_keys p' = take n (filter (λ k', k' ≠ k) (lru_keys p)) ∧
    data s' = restrict (data s) (lru_keys p') ∧
    lru_ok p' (dom (data s')) ∧ shard_ok s' ∧ budget s' = budget s.
Proof. apply LRUEvict_BeforeWrite_spec. Qed.

Lemma lru_evicts_least_recent_witness :
  ∃ n p' s', LRUEvict_BeforeWrite example_lru example_shard [9] 4 = (p', s') ∧
    lru_trimmed (filter (λ k', k' ≠ [9]) (lru_keys example_lru)) (data example_shard) 4 9 n ∧
    lru_keys p' = take n (filter (λ k', k' ≠ [9]) (lru_keys example_lru)) ∧
    data s' = restrict (data example_shard) (lru_keys p') ∧
    lru_ok p' (dom (data s')) ∧ shard_ok s' ∧ budget s' = 9.
Proof.
  apply (lru_evicts_least_recent example_lru example_shard [9] 4 {[ [1]; [2]; [3] ]}).
  - apply example_lru_ok.
  - vm_compute. reflexivity.
  - apply example_shard_ok.
  - vm_compute. discriminate.
Defined.

(** On the example, [LRUEvict] drops the least recently used key [2] and no other. *)
Example lru_example :
  (lru_keys (LRUEvict_BeforeWrite example_lru example_shard [9] 4).1,
   bytes (LRUEvict_BeforeWrite example_lru example_shard [9] 4).2) = ([[3]; [1]], 5).
Proof. vm_compute. reflexivity. Qed.

(** The hooks the store calls on a shard's policy, and the recency list they
    stand for. *)
Inductive access := Wrote (k : key) | Read (k : key) | Deleted (k : key).

Definition lru_access (p : LRUEvict) (a : access) : LRUEvict :=
  match a with
  | Wrote k => LRUEvict_AfterWrite (LRUEvict_BeforeWrite p (mkShard ∅ 0 0) k 0).1 k
  | Read k => LRUEvict_AfterRead p k
  | Deleted k => forget p k
  end.

Definition recency (l : list key) (a : access) : list key :=
  let without k := filter (λ k', k' ≠ k) l in
  match a with
  | Wrote k => k :: without k
  | Read k => if bool_decide (k ∈ l) then k :: without k else l
  | Deleted k => without k
  end.

Lemma lru_access_spec p K a : lru_ok p K →
  lru_keys (lru_access p a) = recency (lru_keys p) a ∧ ∃ K', lru_ok (lru_access p a) K'.
Proof.
  intros Hp. destruct a as [k|k|k]; simpl.
  - unfold LRUEvict_BeforeWrite; simpl. split.
    + rewrite <-(forget_keys p K Hp). done.
    + eexists. apply LRU_AfterWrite_ok; [by apply forget_ok|]. set_solver.
  - split; [|eexists; by apply LRU_AfterRead_ok].
    case_bool_decide as Hk; rewrite (lru_keys_in p K Hp) in Hk; [by eapply LRU_AfterRead_keys|].
    unfold LRUEvict_AfterRead. rewrite <-(lru_dom _ _ Hp) in Hk.
    apply not_elem_of_dom in Hk. by rewrite Hk.
  - split; [by eapply forget_keys|eexists; by apply forget_ok].
Qed.

(** C30.  Without a budget, the linked list and element map of [LRUEvict] refine
    the recency list: after any sequence of writes, reads and deletes the keys are
    in order of last use, each once, reads of unknown keys changing nothing. *)
Theorem lru_refines_recency accesses :
  lru_keys (foldl lru_access NewLRUEvict accesses) = foldl recency [] accesses ∧
  NoDup (foldl recency [] accesses).
Proof.
  assert (∀ p K, lru_ok p K →
    lru_keys (foldl lru_access p accesses) = foldl recency (lru_keys p) accesses ∧
    ∃ K', lru_ok (foldl lru_access p accesses) K') as H.
  { induction accesses as [|a l IH]; intros p K Hp; simpl; [eauto|].
    destruct (lru_access_spec p K a Hp) as (<- & K' & Hp'). eauto. }
  destruct (H _ _ NewLRUEvict_ok) as (Hk & K' & Hok). split; [done|].
  change (lru_keys NewLRUEvict) with (@nil key) in Hk. rewrite <-Hk. by eapply lru_keys_nodup.
Qed.

(** One round of [SamplingEvict]: the shard is over budget, at most five entries
    are looked at, and one that expires soonest among them is evicted. *)
Definition sampling_round (needed : Z) (s s' : Shard) : Prop :=
  budget s < bytes s + needed ∧
  ∃ visited k r, visited ⊆+ map_to_list (data s) ∧
    length visited = Nat.min 5 (size (data s)) ∧ (k, r) ∈ visited ∧
    (∀ k' r', (k', r') ∈ visited → expiredAt r ≤ expiredAt r') ∧ s' = Evict s k.

Lemma evictSoonest_round needed l s :
  l ≡ₚ map_to_list (data s) → data s ≠ ∅ → budget s < bytes s + needed →
  sampling_round needed s (evictSoonestOfSample l s).
Proof.
  intros Hl Hne Hover. destruct (evictSoonest_spec l s Hl Hne) as (k & r & _ & Hin & Hmin & ->).
  split; [done|]. exists (take 5 l), k, r. split_and!; [| |done..].
  - rewrite <-Hl. apply sublist_submseteq, sublist_take.
  - by rewrite length_take, Hl, length_map_to_list.
Qed.

Lemma sampling_loop_rounds ord needed fuel : ∀ s s',
  order_ok ord → sampling_loop fuel ord s needed = Some s' → rtc (sampling_round needed) s s'.
Proof.
  induction fuel as [|fuel IH]; intros s s' Hord; cbn [sampling_loop]; unfold Budget, Bytes, Len;
    (destruct (_ && _) eqn:E; [apply andb_true_iff in E as [E1 E2]|by intros [= ->]]); [done|].
  intros Hrun. eapply rtc_l; [|by apply (IH _ _ Hord Hrun)].
  apply evictSoonest_round; [apply Hord| |lia].
  intros H0. by rewrite H0, map_size_empty in E2.
Qed.

(** C32.  [SamplingEvict.BeforeWrite] on a shard with a budget, whatever the order
    in which Go visits the map: it terminates, evicts only while the new entry does
    not fit, each time the soonest to expire of a sample of [min 5 Len] entries, and
    ends with the entry fitting or with an empty shard; the counter stays exact. *)
Theorem sampling_evicts_soonest ord s needed :
  order_ok ord → shard_ok s → budget s ≠ 0 →
  let s' := SamplingEvict_BeforeWrite ord s needed in
  rtc (sampling_round needed) s s' ∧ shard_ok s' ∧ budget s' = budget s ∧
  (bytes s' + needed ≤ budget s ∨ data s' = ∅).
Proof.
  intros Hord Hs Hb. unfold SamplingEvict_BeforeWrite, Budget.
  destruct (budget s =? 0) eqn:E0; [lia|].
  destruct (sampling_loop_spec ord needed (size (data s)) s) as (s' & E & ?&?&?&?); [done..|].
  rewrite E. simpl. split_and!; [by eapply sampling_loop_rounds|done..].
Qed.

Lemma sampling_evicts_soonest_witness :
  let s' := SamplingEvict_BeforeWrite (λ _ m, map_to_list m) example_shard 6 in
  rtc (sampling_round 6) example_shard s' ∧ shard_ok s' ∧ budget s' = 9 ∧
  (bytes s' + 6 ≤ 9 ∨ data s' = ∅).
Proof.
  apply (sampling_evicts_soonest (λ _ m, map_to_list m) example_shard 6).
  - intros n m. reflexivity.
  - apply example_shard_ok.
  - vm_compute. discriminate.
Defined.

Example sampling_example :
  data (SamplingEvict_BeforeWrite (λ _ m, map_to_list m) example_shard 6)
  = {[ [1] := mkRecord [0;0] 0 30 ]}.
Proof. vm_compute. reflexivity. Qed.
