(* ===== verification/Store.v ===== *)
(** * The store (storage/store/kv_store.go, kv_store_util.go, errors.go)

    Sharding by FNV-1a, the operations on keys, recovery from the log, the TTL
    sweep and compaction.  A shard here is the map of [Shard] with its policy.
    The clock is an argument of each operation that reads it, [now]. *)

From S2P Require Import Prelude GoLang WalRecord Os WalWriter Shard Eviction.

(** ** What the store needs of the log

    [log_append] is [wal.append]; [logged w rs] says that the log [w] stands for
    the records [rs], oldest first, on file or still to be written. *)

Class Log (W : Type) := log_append : wal.Record → W → go () * W.
#[global] Arguments log_append {W _} r w : simpl never.

Class LogLaws (W : Type) `{Log W} := {
  logged : W → list wal.Record → Prop;
  log_append_law r w rs : logged w rs →
    match log_append r w with
    | (Ok _, w') => logged w' (rs ++ [r])
    | _ => True
    end;
  log_append_returns r w : returns (log_append r w).1;
}.

(** ** errors.go *)

Definition ErrKeyNotFound : error := ErrorString (str "key not found").
Definition ErrMemoryFull : error :=
  ErrorString (str "memory limit reached: write rejected (noevict policy)").

(** ** hash/fnv: New32a *)

Definition fnv_offset32 : Z := 2166136261.
Definition fnv_prime32 : Z := 16777619.
Definition fnv_Sum32a (d : gobytes) : Z :=
  foldl (λ h b, u32 (Z.lxor h b * fnv_prime32)) fnv_offset32 d.

(** ** kv_store.go *)

Section store.
Context {P : Type} {PP : Policy P} {W : Type} {LW : Log W}.

(** [NewEviction] makes a shard's policy. *)
Record StoreOptions := mkStoreOptions {
  ShardCount : Z; DefaultTTL : Z; MaxMemoryBytes : Z; NewEviction : P }.

Record KVStore := mkKVStore {
  shards : list (Shard * P); kwal : W; shardCount : Z; defaultTTL : Z }.

Definition with_shard (kv : KVStore) (i : nat) (sp : Shard * P) : KVStore :=
  mkKVStore (<[i := sp]> (shards kv)) (kwal kv) (shardCount kv) (defaultTTL kv).
Definition with_wal (kv : KVStore) (w : W) : KVStore :=
  mkKVStore (shards kv) w (shardCount kv) (defaultTTL kv).
Definition with_shards (kv : KVStore) (l : list (Shard * P)) : KVStore :=
  mkKVStore l (kwal kv) (shardCount kv) (defaultTTL kv).

(** [kv.shards[h.Sum32()%kv.shardCount]]: the shard and its index; a remainder by
    zero and an index out of range panic. *)
Definition shard_index (count : Z) (k : key) : nat := Z.to_nat (fnv_Sum32a k `mod` count).

Definition getShard (count : Z) (l : list (Shard * P)) (k : key) : go (nat * (Shard * P)) :=
  if count =? 0 then Panic else
  match l !! shard_index count k with
  | Some sp => Ok (shard_index count k, sp)
  | None => Panic
  end.

(** An operation on the shard of a key, in a store that is passed along. *)
Definition on_shard {A} (kv : KVStore) (k : key) (f : Shard * P → go A * (Shard * P)) : go A * KVStore :=
  match getShard (shardCount kv) (shards kv) k with
  | Ok (i, sp) => let '(res, sp) := f sp in (res, with_shard kv i sp)
  | Err e => (Err e, kv)
  | Panic => (Panic, kv)
  end.

(** *** Writes *)

(** The part of [SetWithExpiry] under the shard's lock, in two steps: up to the
    policy's verdict, with the old entry put back on a rejection, and the update. *)
Definition set_make_room (ord : order) (key : key) (newSize : Z) (sp : Shard * P) : bool * (Shard * P) :=
  let '(shard, policy) := sp in
  let old := data shard !! key in
  let shard :=
    match old with
    | Some old => mkShard (delete key (data shard)) (bytes shard - (len key + len (value old))) (budget shard)
    | None => shard
    end in
  let '(ok, policy, shard) := BeforeWrite ord policy shard key newSize in
  if negb ok then
    (false,
     (match old with
      | Some old => mkShard (<[key := old]> (data shard)) (bytes shard + (len key + len (value old))) (budget shard)
      | None => shard
      end, policy))
  else (true, (shard, policy)).

Definition set_store (key : key) (valCopy : gobytes) (newSize expiredAt now : Z) (sp : Shard * P) : Shard * P :=
  let '(shard, policy) := sp in
  (mkShard (<[key := mkRecord valCopy now expiredAt]> (data shard)) (bytes shard + newSize) (budget shard),
   AfterWrite policy key).

Definition set_locked (ord : order) (key : key) (valCopy : gobytes) (newSize expiredAt now : Z)
    (sp : Shard * P) : go () * (Shard * P) :=
  let '(ok, sp) := set_make_room ord key newSize sp in
  if negb ok then (Err ErrMemoryFull, sp)
  else (Ok (), set_store key valCopy newSize expiredAt now sp).

(** [SetWithExpiry] in two parts: the append, and the update of memory. *)
Definition set_memory (ord : order) (kv : KVStore) (key : key) (value : gobytes) (expiredAt now : Z)
    : go () * KVStore :=
  let valCopy := make_copy (len value) value in
  let newSize := len key + len value in
  on_shard kv key (set_locked ord key valCopy newSize expiredAt now).

Definition SetWithExpiry (ord : order) (kv : KVStore) (key : key) (value : gobytes) (expiredAt now : Z)
    : go () * KVStore :=
  match log_append (set_record key value expiredAt) (kwal kv) with
  | (Err err, w) => (Err err, with_wal kv w)
  | (Panic, w) => (Panic, with_wal kv w)
  | (Ok _, w) => set_memory ord (with_wal kv w) key value expiredAt now
  end.

(** [time.Now().Add(kv.defaultTTL)] *)
Definition Set_ (ord : order) (kv : KVStore) (key : key) (value : gobytes) (now : Z) : go () * KVStore :=
  SetWithExpiry ord kv key value (now + defaultTTL kv) now.

(** *** Reads *)

Definition get_shard (key : key) (now : Z) (sp : Shard * P) : go gobytes * (Shard * P) :=
  let '(shard, policy) := sp in
  let policy := BeforeRead policy key in
  match data shard !! key with
  | Some record =>
      if expiredAt record <? now then (Err ErrKeyNotFound, (shard, policy))
      else let valCopy := make_copy (len (value record)) (value record) in
           (Ok valCopy, (shard, AfterRead policy key))
  | None => (Err ErrKeyNotFound, (shard, policy))
  end.

Definition Get (kv : KVStore) (key : key) (now : Z) : go gobytes * KVStore :=
  on_shard kv key (get_shard key now).

(** *** Deletes *)

(** The removal of an entry, in [Delete] and in the sweeper. *)
Definition remove_entry (key : key) (rec : Record) (sp : Shard * P) : Shard * P :=
  let '(shard, policy) := sp in
  let policy := BeforeDelete policy key in
  let shard := mkShard (delete key (data shard)) (bytes shard - (len key + len (value rec))) (budget shard) in
  (shard, AfterDelete policy key).

Definition delete_locked (key : key) (sp : Shard * P) : go () * (Shard * P) :=
  match data sp.1 !! key with
  | None => (Err ErrKeyNotFound, sp)
  | Some rec => (Ok (), remove_entry key rec sp)
  end.

Definition Delete (kv : KVStore) (key : key) : go () * KVStore :=
  match log_append (delete_record key) (kwal kv) with
  | (Err err, w) => (Err err, with_wal kv w)
  | (Panic, w) => (Panic, with_wal kv w)
  | (Ok _, w) => on_shard (with_wal kv w) key (delete_locked key)
  end.

(** ** kv_store_util.go *)

(** *** Recovery *)

(** The callback of [wal.Replay]; a panic of [getShard] ends the replay. *)
Definition apply_record (count now : Z) (st : go (list (Shard * P))) (r : wal.Record) : go (list (Shard * P)) :=
  l ← st;
  '(i, (shard, policy)) ← getShard count l (wal.Key r);
  let put d := <[i := (mkShard d (bytes shard) (budget shard), policy)]> l in
  Ok (if wal.Op r =? wal.OpSet then
        if now <? wal.ExpiresAt r
        then put (<[wal.Key r := mkRecord (wal.Value r) now (wal.ExpiresAt r)]> (data shard))
        else put (delete (wal.Key r) (data shard))
      else if wal.Op r =? wal.OpDelete then put (delete (wal.Key r) (data shard))
      else l).

(** The loop that syncs a shard's byte counter and policy with its map; [entries]
    is the map in the order of the loop. *)
Definition sync_shard (entries : list (key * Record)) (sp : Shard * P) : Shard * P :=
  foldl (λ '(shard, policy) '(k, rec),
           (mkShard (data shard) (bytes shard + (len k + len (value rec))) (budget shard), AfterWrite policy k))
    sp entries.

Definition recover (ord : nat → order) (file : wal.file_at) (count : Z) (l : list (Shard * P)) (now : Z)
    : go (list (Shard * P)) :=
  match wal.Replay file (apply_record count now) (Ok l) with
  | Some (Ok _, st) => l ← st; Ok (imap (λ i sp, sync_shard (ord i 0%nat (data sp.1)) sp) l)
  | Some (Err e, st) => _ ← st; Err e
  | Some (Panic, _) | None => Panic
  end.

(** The empty shards. *)
Definition new_shards (opts : StoreOptions) : go (list (Shard * P)) :=
  budget ← (if 0 <? MaxMemoryBytes opts then
              if ShardCount opts =? 0 then Panic else Ok (Z.quot (MaxMemoryBytes opts) (ShardCount opts))
            else Ok 0);
  if ShardCount opts <? 0 then Panic else
  Ok (replicate (Z.to_nat (ShardCount opts)) (mkShard ∅ 0 budget, NewEviction opts)).

(** [NewKVStore], given what is at [walPath] and the outcome of [wal.Open]. *)
Definition NewKVStore (ord : nat → order) (file : wal.file_at) (open : go W) (opts : StoreOptions) (now : Z)
    : go KVStore :=
  l ← new_shards opts;
  l ← recover ord file (u32 (ShardCount opts)) l now;
  w ← open;
  Ok (mkKVStore l w (u32 (ShardCount opts)) (DefaultTTL opts)).

(** *** TTL expiry *)

Definition ttlSweepInterval : Z := 60 * 1000000000.

(** One tick of the sweeper, on one shard and on all. *)
Definition sweep_shard (now : Z) (entries : list (key * Record)) (sp : Shard * P) : Shard * P :=
  foldl (λ sp '(k, rec), if expiredAt rec <? now then remove_entry k rec sp else sp) sp entries.

Definition sweep (ord : nat → order) (kv : KVStore) (now : Z) : KVStore :=
  with_shards kv (imap (λ i sp, sweep_shard now (ord i 0%nat (data sp.1)) sp) (shards kv)).

(** *** Compaction *)

(** The records the snapshot function writes, shard by shard. *)
Definition shard_records (now : Z) (entries : list (key * Record)) : list wal.Record :=
  (λ '(k, rec), set_record k (value rec) (expiredAt rec)) <$>
    filter (λ '(_, rec), ¬ (expiredAt rec < now)) entries.

Definition snapshot_records (ord : nat → order) (kv : KVStore) (now : Z) : list wal.Record :=
  concat (imap (λ i sp, shard_records now (ord i 0%nat (data sp.1))) (shards kv)).

End store.
Arguments StoreOptions : clear implicits.
Arguments KVStore : clear implicits.

(** ** The invariant of the store *)

Section invariant.
Context {P : Type} {PP : Policy P} {PL : PolicyLaws P} {W : Type} {LW : Log W}.
Implicit Types (kv : KVStore P W) (sp : Shard * P).

(** The byte counter is exact and the policy knows exactly the shard's keys. *)
Definition shard_inv (sp : Shard * P) : Prop :=
  shard_ok sp.1 ∧ pol_inv sp.2 (dom (data sp.1)).

(** Every key is in the shard its hash picks. *)
Record shards_ok (count : Z) (l : list (Shard * P)) : Prop := {
  so_count : 0 < count;
  so_len : length l = Z.to_nat count;
  so_shard i sp : l !! i = Some sp → shard_inv sp;
  so_home i sp k : l !! i = Some sp → k ∈ dom (data sp.1) → shard_index count k = i;
}.

Definition store_ok (kv : KVStore P W) : Prop := shards_ok (shardCount kv) (shards kv).

(** What the store holds for a key. *)
Definition view_of (count : Z) (l : list (Shard * P)) (k : key) : option Record :=
  sp ← l !! shard_index count k; data sp.1 !! k.

Definition view (kv : KVStore P W) (k : key) : option Record := view_of (shardCount kv) (shards kv) k.

Lemma shard_index_lt count k : 0 < count → (shard_index count k < Z.to_nat count)%nat.
Proof. intros. unfold shard_index. pose proof (Z.mod_pos_bound (fnv_Sum32a k) count). lia. Qed.

Lemma getShard_ok count l k :
  0 < count → length l = Z.to_nat count →
  ∃ sp, l !! shard_index count k = Some sp ∧ getShard count l k = Ok (shard_index count k, sp).
Proof.
  intros Hc Hl. destruct (lookup_lt_is_Some_2 l (shard_index count k)) as [sp Hsp].
  { rewrite Hl. by apply shard_index_lt. }
  exists sp. split; [done|]. unfold getShard. rewrite (proj2 (Z.eqb_neq count 0)) by lia. by rewrite Hsp.
Qed.

Lemma on_shard_ok {A} kv k (f : Shard * P → go A * (Shard * P)) :
  store_ok kv →
  ∃ sp, shards kv !! shard_index (shardCount kv) k = Some sp ∧ shard_inv sp ∧
    view kv k = data sp.1 !! k ∧
    on_shard kv k f = ((f sp).1, with_shard kv (shard_index (shardCount kv) k) (f sp).2).
Proof.
  intros Hok. destruct (getShard_ok (shardCount kv) (shards kv) k) as (sp & Hsp & E);
    [apply Hok..|]. exists sp. split_and!; [done|by eapply so_shard| |].
  - unfold view, view_of. by rewrite Hsp.
  - unfold on_shard. rewrite E. by destruct (f sp).
Qed.

Lemma view_insert count l i sp k :
  (i < length l)%nat →
  view_of count (<[i := sp]> l) k =
  if decide (shard_index count k = i) then data sp.1 !! k else view_of count l k.
Proof.
  intros Hi. unfold view_of. case_decide; subst.
  - by rewrite list_lookup_insert_eq.
  - by rewrite list_lookup_insert_ne.
Qed.

(** Replacing the shard of [k] by one with the same keys, [k] aside. *)
Lemma shards_ok_insert count l k sp sp' :
  shards_ok count l → l !! shard_index count k = Some sp → shard_inv sp' →
  dom (data sp'.1) ⊆ {[k]} ∪ dom (data sp.1) →
  shards_ok count (<[shard_index count k := sp']> l).
Proof.
  intros [H1 H2 H3 H4] Hsp Hinv Hdom. split; [done|by rewrite length_insert|..].
  - intros i sp0 [(<- & <- & _)|[_ Hi]]%list_lookup_insert_Some; eauto.
  - intros i sp0 k' [(<- & <- & _)|[_ Hi]]%list_lookup_insert_Some Hk'; [|eauto].
    apply Hdom in Hk'. apply elem_of_union in Hk' as [->%elem_of_singleton|Hk']; [done|eauto].
Qed.

Lemma make_copy_id (v : gobytes) : make_copy (len v) v = v.
Proof. by apply overwrite_full. Qed.

(** Making room on a good shard: the policy refuses, and nothing has changed, or
    the key and what the policy evicted are gone. *)
(** An overwrite takes the old entry out as an eviction does. *)
Lemma taken_out s k :
  match data s !! k with
  | Some old => mkShard (delete k (data s)) (bytes s - (len k + len (value old))) (budget s)
  | None => s
  end = Evict s k.
Proof. unfold Evict, entry_size. by destruct (data s !! k). Qed.

Lemma set_make_room_spec ord k n sp :
  order_ok ord → shard_inv sp →
  match set_make_room ord k n sp with
  | (true, sp') =>
      shard_inv sp' ∧ budget sp'.1 = budget sp.1 ∧ data sp'.1 ⊆ delete k (data sp.1) ∧ data sp'.1 !! k = None ∧
      (budget sp.1 = 0 ∨ bytes sp'.1 + n ≤ budget sp.1 ∨ data sp'.1 = ∅)
  | (false, sp') => sp'.1 = sp.1 ∧ shard_inv sp'
  end.
Proof.
  intros Hord. destruct sp as [s p]. intros [Hs Hp]. cbn [fst snd] in *. unfold set_make_room.
  rewrite (taken_out s k).
  destruct (BeforeWrite ord p (Evict s k) k n) as [[ok p1] s2] eqn:E.
  pose proof (BeforeWrite_law _ _ _ _ _ (dom (data s)) _ _ _ Hord (Evict_ok s k Hs)
    ltac:(by rewrite Evict_data, lookup_delete_eq) ltac:(by rewrite Evict_data, dom_delete_L) Hp E) as Hlaw.
  destruct ok; cbn [negb].
  - destruct Hlaw as (Hp2 & Hsub & Hs2 & Hb2 & Hroom).
    rewrite Evict_data, Evict_budget in *. split_and!; [by split|done|done| |naive_solver].
    apply eq_None_not_Some. intros [r Hr]. eapply lookup_weaken in Hr; [|done].
    by rewrite lookup_delete_eq in Hr.
  - destruct Hlaw as [-> Hp2]. unfold Evict. split.
    + destruct (data s !! k) as [o|] eqn:Eo; [|by destruct s]. unfold entry_size. simpl.
      rewrite insert_delete_id by done. destruct s; simpl. f_equal. lia.
    + split; simpl; destruct (data s !! k) as [o|] eqn:Eo; simpl; try done.
      * unfold shard_ok, entry_size in *. simpl. rewrite insert_delete_id by done. lia.
      * by rewrite insert_delete_id.
Qed.

Lemma set_store_spec k v exp now sp :
  shard_inv sp → data sp.1 !! k = None →
  shard_inv (set_store k v (len k + len v) exp now sp).
Proof.
  destruct sp as [s p]. intros [Hs Hp] Hk. split; simpl in *.
  - unfold shard_ok in *. simpl. rewrite sum_sizes_insert by done. unfold entry_size. simpl. lia.
  - rewrite dom_insert_L. apply AfterWrite_law; [done|]. by apply not_elem_of_dom.
Qed.

Lemma set_store_data k v n exp now sp :
  data (set_store k v n exp now sp).1 = <[k := mkRecord v now exp]> (data sp.1).
Proof. by destruct sp. Qed.

Lemma set_store_bytes k v n exp now sp :
  bytes (set_store k v n exp now sp).1 = bytes sp.1 + n ∧ budget (set_store k v n exp now sp).1 = budget sp.1.
Proof. by destruct sp. Qed.

(** [set_locked] on a good shard, both branches. *)
Lemma set_locked_spec ord k v exp now sp :
  order_ok ord → shard_inv sp →
  match set_locked ord k v (len k + len v) exp now sp with
  | (Ok _, sp') =>
      shard_inv sp' ∧ budget sp'.1 = budget sp.1 ∧
      ∃ d, d ⊆ delete k (data sp.1) ∧ data sp'.1 = <[k := mkRecord v now exp]> d ∧
        (budget sp.1 = 0 ∨ bytes sp'.1 ≤ budget sp.1 ∨ d = ∅)
  | (Err e, sp') => e = ErrMemoryFull ∧ sp'.1 = sp.1 ∧ shard_inv sp'
  | (Panic, _) => False
  end.
Proof.
  intros Hord Hsp. unfold set_locked. pose proof (set_make_room_spec ord k (len k + len v) sp Hord Hsp) as Hm.
  destruct (set_make_room _ _ _ _) as [[] sp1]; cbn [negb]; [|done].
  destruct Hm as (Hinv & Hb & Hsub & Hk & Hroom).
  destruct (set_store_bytes k v (len k + len v) exp now sp1) as [-> ->].
  split_and!; [by apply set_store_spec|done|].
  exists (data sp1.1). split_and!; [done|by rewrite set_store_data|done].
Qed.

(** Without a budget nothing is evicted and nothing rejected. *)
Lemma set_make_room_unlimited ord k n sp :
  budget sp.1 = 0 →
  ∃ sp', set_make_room ord k n sp = (true, sp') ∧ data sp'.1 = delete k (data sp.1).
Proof.
  destruct sp as [s p]. cbn [fst]. intros Hb. unfold set_make_room.
  set (s1 := match data s !! k with Some _ => _ | None => _ end).
  destruct (BeforeWrite_unlimited ord p s1 k n) as [p' ->];
    [subst s1; by destruct (data s !! k)|].
  cbn [negb]. eexists. split; [done|]. subst s1. simpl. destruct (data s !! k) eqn:E; [done|].
  by rewrite delete_id.
Qed.

Lemma set_locked_unlimited ord k v n exp now sp :
  budget sp.1 = 0 →
  ∃ sp', set_locked ord k v n exp now sp = (Ok (), sp') ∧
    data sp'.1 = <[k := mkRecord v now exp]> (data sp.1).
Proof.
  intros Hb. unfold set_locked. destruct (set_make_room_unlimited ord k n sp Hb) as (sp1 & -> & Hd).
  cbn [negb]. eexists. split; [done|]. rewrite set_store_data, Hd. by rewrite insert_delete_eq.
Qed.

Lemma remove_entry_spec k r sp :
  shard_inv sp → data sp.1 !! k = Some r →
  shard_inv (remove_entry k r sp) ∧ data (remove_entry k r sp).1 = delete k (data sp.1) ∧
  budget (remove_entry k r sp).1 = budget sp.1.
Proof.
  destruct sp as [s p]. intros [Hs Hp] Hk. simpl in *. split_and!; [|done..]. split; simpl.
  - unfold shard_ok in *. simpl. rewrite (sum_sizes_delete _ _ _ Hk) in Hs. unfold entry_size in *. lia.
  - rewrite dom_delete_L. by apply AfterDelete_law, BeforeDelete_law.
Qed.

(** An operation that changes the shard of [k] only. *)
Lemma on_shard_view kv k sp sp' k' :
  store_ok kv → shards kv !! shard_index (shardCount kv) k = Some sp →
  view (with_shard kv (shard_index (shardCount kv) k) sp') k' =
  if decide (shard_index (shardCount kv) k' = shard_index (shardCount kv) k)
  then data sp'.1 !! k' else view kv k'.
Proof. intros Hok Hsp. apply view_insert. by eapply lookup_lt_Some. Qed.

Lemma view_same_shard kv k sp k' :
  shards kv !! shard_index (shardCount kv) k = Some sp →
  shard_index (shardCount kv) k' = shard_index (shardCount kv) k →
  view kv k' = data sp.1 !! k'.
Proof. intros Hsp E. unfold view, view_of. by rewrite E, Hsp. Qed.

Lemma store_ok_wal kv w : store_ok kv → store_ok (with_wal kv w).
Proof. done. Qed.

Lemma view_wal kv w k : view (with_wal kv w) k = view kv k.
Proof. done. Qed.

(** ** The operations on the view of the store *)

Lemma set_memory_spec ord kv k v exp now res kv' :
  store_ok kv → order_ok ord → set_memory ord kv k v exp now = (res, kv') →
  store_ok kv' ∧ kwal kv' = kwal kv ∧ defaultTTL kv' = defaultTTL kv ∧ shardCount kv' = shardCount kv ∧
  match res with
  | Ok _ =>
      view kv' k = Some (mkRecord v now exp) ∧
      ∀ k', k' ≠ k → view kv' k' = view kv k' ∨
        view kv' k' = None ∧ shard_index (shardCount kv) k' = shard_index (shardCount kv) k ∧
        ∃ sp, shards kv !! shard_index (shardCount kv) k = Some sp ∧ budget sp.1 ≠ 0
  | Err e => e = ErrMemoryFull ∧ ∀ k', view kv' k' = view kv k'
  | Panic => False
  end.
Proof.
  intros Hok Hord. unfold set_memory. rewrite make_copy_id.
  destruct (on_shard_ok kv k (set_locked ord k v (len k + len v) exp now) Hok) as (sp & Hsp & Hinv & _ & ->).
  pose proof (set_locked_spec ord k v exp now sp Hord Hinv) as Hs.
  pose proof (set_locked_unlimited ord k v (len k + len v) exp now sp) as Hu.
  destruct (set_locked ord k v (len k + len v) exp now sp) as [[[]|e|] sp']; [| |done];
    intros E; simplify_eq/=.
  - destruct Hs as (Hinv' & Hb & d & Hd & Hdata & _).
    assert (data sp'.1 !! k = Some (mkRecord v now exp)) as Hk by (by rewrite Hdata, lookup_insert_eq).
    assert (dom d ⊆ dom (data sp.1)) as Hdd.
    { etrans; [by apply subseteq_dom|]. by apply subseteq_dom, delete_subseteq. }
    split; [|split_and!; [done..| |]].
    + eapply shards_ok_insert; [done|done|done|]. rewrite Hdata, dom_insert_L. set_solver.
    + rewrite (on_shard_view _ _ _ _ _ Hok Hsp). by rewrite decide_True.
    + intros k' Hne. rewrite (on_shard_view _ _ _ _ _ Hok Hsp). case_decide as Hi; [|by left].
      rewrite (view_same_shard _ _ _ _ Hsp Hi). destruct (decide (budget sp.1 = 0)) as [H0|H0].
      * destruct (Hu H0) as (? & ? & E'). simplify_eq. left. by rewrite E', lookup_insert_ne.
      * rewrite Hdata, lookup_insert_ne by done. destruct (d !! k') as [r|] eqn:Er; [left|right; eauto].
        eapply lookup_weaken in Er; [|exact Hd]. by rewrite lookup_delete_ne in Er.
  - destruct Hs as (-> & Hs & Hinv'). split; [|split_and!; [done..|]].
    + eapply shards_ok_insert; [done|done|done|]. rewrite Hs. set_solver.
    + intros k'. rewrite (on_shard_view _ _ _ _ _ Hok Hsp). case_decide as Hi; [|done].
      by rewrite (view_same_shard _ _ _ _ Hsp Hi), Hs.
Qed.

Lemma Get_spec kv k now res kv' :
  store_ok kv → Get kv k now = (res, kv') →
  store_ok kv' ∧ kwal kv' = kwal kv ∧ shardCount kv' = shardCount kv ∧ defaultTTL kv' = defaultTTL kv ∧
  (∀ k', view kv' k' = view kv k') ∧
  res = match view kv k with
        | Some r => if expiredAt r <? now then Err ErrKeyNotFound else Ok (value r)
        | None => Err ErrKeyNotFound
        end.
Proof.
  intros Hok. unfold Get. destruct (on_shard_ok kv k (get_shard k now) Hok) as ([s p] & Hsp & [Hs Hp] & Hv & ->).
  rewrite Hv. cbn [fst snd] in *. destruct (get_shard k now (s, p)) as [res0 [s0 p0]] eqn:Eg.
  intros E. cbn [fst snd] in E. simplify_eq.
  assert (s0 = s ∧ pol_inv p0 (dom (data s)) ∧
          res = match data s !! k with
                | Some r => if expiredAt r <? now then Err ErrKeyNotFound else Ok (value r)
                | None => Err ErrKeyNotFound
                end) as (-> & Hp0 & ->).
  { unfold get_shard in Eg. destruct (data s !! k) as [r|]; [destruct (_ <? _)|];
      rewrite ?make_copy_id in Eg; simplify_eq; auto using BeforeRead_law, AfterRead_law. }
  split_and!; [|done..| |done].
  - by eapply shards_ok_insert; [done|done|split|set_solver].
  - intros k'. rewrite (on_shard_view _ _ _ _ _ Hok Hsp). case_decide as Hi; [|done].
    by rewrite (view_same_shard _ _ _ _ Hsp Hi).
Qed.

Lemma delete_memory_spec kv k res kv' :
  store_ok kv → on_shard kv k (delete_locked k) = (res, kv') →
  store_ok kv' ∧ kwal kv' = kwal kv ∧ shardCount kv' = shardCount kv ∧ defaultTTL kv' = defaultTTL kv ∧
  (∀ k', view kv' k' = if decide (k' = k) then None else view kv k') ∧
  res = match view kv k with Some _ => Ok () | None => Err ErrKeyNotFound end.
Proof.
  intros Hok. destruct (on_shard_ok kv k (delete_locked k) Hok) as (sp & Hsp & Hinv & Hv & ->).
  intros E. injection E as Er Ekv. subst kv' res. rewrite Hv.
  assert (shard_inv (delete_locked k sp).2 ∧ data (delete_locked k sp).2.1 = delete k (data sp.1)) as [E1 E2].
  { unfold delete_locked. destruct (data sp.1 !! k) as [r|] eqn:Ek; simpl.
    - by destruct (remove_entry_spec k r sp) as (?&?&?).
    - by rewrite delete_id. }
  split_and!; [|done..| |].
  - eapply shards_ok_insert; [done..|]. rewrite E2. set_solver.
  - intros k'. rewrite (on_shard_view _ _ _ _ _ Hok Hsp). case_decide as Hi.
    + rewrite E2, (view_same_shard _ _ _ _ Hsp Hi). case_decide; [subst; by rewrite lookup_delete_eq|].
      by rewrite lookup_delete_ne.
    + case_decide; [by subst|done].
  - unfold delete_locked. by destruct (data sp.1 !! k).
Qed.
End invariant.
