(* ===== verification/Recovery.v ===== *)
(** * Start-up, expiry and compaction of the store

    The background work of [storage/store/kv_store_util.go] against the view of the
    store that [Store] defines: the TTL sweep, recovery from the log, and what
    compaction writes. *)

From S2P Require Import Prelude GoLang WalRecord Os WalWriter Shard Eviction Store.

Definition orders_ok (ord : nat → order) : Prop := ∀ i, order_ok (ord i).

Lemma elem_of_concat {A} (x : A) (ls : list (list A)) : x ∈ concat ls ↔ ∃ l, x ∈ l ∧ l ∈ ls.
Proof.
  induction ls as [|l ls IH]; simpl; [split; [by intros ?%not_elem_of_nil|intros (?&_&?%not_elem_of_nil); done]|].
  rewrite elem_of_app, IH. set_solver.
Qed.

Section background.
Context {P : Type} {PP : Policy P} {PL : PolicyLaws P} {W : Type} {LW : Log W}.
Implicit Types (kv : KVStore P W) (sp : Shard * P) (l : list (Shard * P)).

(** ** A map visited in some order *)

Lemma visited_nodup (es : list (key * Record)) (m : gmap key Record) : es ≡ₚ map_to_list m → NoDup es.*1.
Proof. intros ->. apply NoDup_fst_map_to_list. Qed.

Lemma visited_elem (es : list (key * Record)) (m : gmap key Record) k r :
  es ≡ₚ map_to_list m → (k, r) ∈ es ↔ m !! k = Some r.
Proof. intros ->. apply elem_of_map_to_list. Qed.

Lemma visited_key (es : list (key * Record)) (m : gmap key Record) k :
  es ≡ₚ map_to_list m → k ∈ es.*1 ↔ k ∈ dom m.
Proof.
  intros Hes. rewrite elem_of_dom, list_elem_of_fmap. split.
  - intros ([k' r] & -> & Hin). exists r. by apply (visited_elem es m).
  - intros [r Hr]. exists (k, r). split; [done|]. by apply (visited_elem es m).
Qed.

(** ** The sweep *)

Lemma sweep_shard_aux now es : ∀ sp,
  shard_inv sp → NoDup es.*1 → (∀ k r, (k, r) ∈ es → data sp.1 !! k = Some r) →
  shard_inv (sweep_shard now es sp) ∧ budget (sweep_shard now es sp).1 = budget sp.1 ∧
  ∀ k r, data (sweep_shard now es sp).1 !! k = Some r ↔
    data sp.1 !! k = Some r ∧ (k ∈ es.*1 → now ≤ expiredAt r).
Proof.
  induction es as [|[k0 r0] es IH]; intros sp Hinv Hnd Hes; cbn [sweep_shard foldl].
  { split_and!; [done|done|]. intros k r. split; [|naive_solver]. intros ?. split; [done|].
    by intros ?%not_elem_of_nil. }
  apply NoDup_cons in Hnd as [Hk0 Hnd].
  assert (data sp.1 !! k0 = Some r0) as Hr0 by (apply Hes; by left).
  destruct (expiredAt r0 <? now) eqn:E.
  - destruct (remove_entry_spec k0 r0 sp Hinv Hr0) as (Hinv' & Hd & Hb).
    destruct (IH (remove_entry k0 r0 sp)) as (H1 & H2 & H3); [done|done| |].
    { intros k r Hin. rewrite Hd, lookup_delete_ne; [apply Hes; by right|].
      intros <-. apply Hk0. apply list_elem_of_fmap. by exists (k0, r). }
    fold (sweep_shard now es (remove_entry k0 r0 sp)). split_and!; [done|by rewrite H2|].
    intros k r. rewrite H3, Hd, lookup_delete_Some. simpl. rewrite elem_of_cons. split.
    + intros [[Hne ?] ?]. split; [done|]. intros [->|?]; [done|auto].
    + intros [Hk Himp]. split_and!; [|done|auto]. intros <-.
      rewrite Hr0 in Hk. simplify_eq. specialize (Himp (or_introl eq_refl)). lia.
  - destruct (IH sp) as (H1 & H2 & H3); [done|done| |].
    { intros k r Hin. apply Hes. by right. }
    fold (sweep_shard now es sp). split_and!; [done|done|].
    intros k r. rewrite H3. simpl. rewrite elem_of_cons. split; [|naive_solver].
    intros [Hk ?]. split; [done|]. intros [->|?]; [|auto]. rewrite Hr0 in Hk. simplify_eq. lia.
Qed.

Lemma sweep_shard_spec now es sp :
  shard_inv sp → es ≡ₚ map_to_list (data sp.1) →
  shard_inv (sweep_shard now es sp) ∧ budget (sweep_shard now es sp).1 = budget sp.1 ∧
  ∀ k r, data (sweep_shard now es sp).1 !! k = Some r ↔ data sp.1 !! k = Some r ∧ now ≤ expiredAt r.
Proof.
  intros Hinv Hes. destruct (sweep_shard_aux now es sp Hinv) as (H1 & H2 & H3).
  - by eapply visited_nodup.
  - intros k r. by apply visited_elem.
  - split_and!; [done..|]. intros k r. rewrite H3, (visited_key es _ _ Hes), elem_of_dom. naive_solver.
Qed.

(** A change of every shard that adds no key keeps the invariant. *)
Lemma shards_ok_imap count l (f : nat → Shard * P → Shard * P) :
  shards_ok count l →
  (∀ i sp, l !! i = Some sp → shard_inv (f i sp) ∧ dom (data (f i sp).1) ⊆ dom (data sp.1)) →
  shards_ok count (imap f l).
Proof.
  intros [H1 H2 H3 H4] Hf. split; [done|by rewrite length_imap|..].
  - intros i sp. rewrite list_lookup_imap. intros (sp0 & Hi & ->)%fmap_Some. by apply Hf.
  - intros i sp k. rewrite list_lookup_imap. intros (sp0 & Hi & ->)%fmap_Some Hk.
    eapply H4; [done|]. by apply (Hf i sp0).
Qed.

Lemma view_imap count l (f : nat → Shard * P → Shard * P) k :
  view_of count (imap f l) k =
  sp ← l !! shard_index count k; data (f (shard_index count k) sp).1 !! k.
Proof. unfold view_of. rewrite list_lookup_imap. by destruct (l !! _). Qed.

Lemma sweep_view ord kv now :
  store_ok kv → orders_ok ord →
  store_ok (sweep ord kv now) ∧
  ∀ k r, view (sweep ord kv now) k = Some r ↔ view kv k = Some r ∧ now ≤ expiredAt r.
Proof.
  intros Hok Hord. unfold sweep, store_ok, view. simpl. split.
  - apply shards_ok_imap; [done|]. intros i sp Hi.
    destruct (sweep_shard_spec now (ord i 0%nat (data sp.1)) sp) as (? & _ & Hd);
      [by eapply so_shard|apply Hord|].
    split; [done|]. intros k [r Hr]%elem_of_dom. apply Hd in Hr as [Hr _]. apply elem_of_dom. eauto.
  - intros k r. rewrite view_imap. unfold view_of.
    destruct (shards kv !! _) as [sp|] eqn:Hi; simpl; [|naive_solver].
    apply sweep_shard_spec; [by eapply so_shard|apply Hord].
Qed.

(** ** Recovery

    What a log means: its records applied to a map. *)

Definition replay_one (now : Z) (m : gmap key Record) (r : wal.Record) : gmap key Record :=
  if wal.Op r =? wal.OpSet then
    if now <? wal.ExpiresAt r then <[wal.Key r := mkRecord (wal.Value r) now (wal.ExpiresAt r)]> m
    else delete (wal.Key r) m
  else if wal.Op r =? wal.OpDelete then delete (wal.Key r) m
  else m.

Definition replayed (now : Z) (rs : list wal.Record) : gmap key Record :=
  foldl (replay_one now) ∅ rs.

(** Shards while the log is replayed: the counters are still zero and the policies
    know nothing. *)
Record loading (count : Z) (l : list (Shard * P)) (m : gmap key Record) : Prop := {
  ld_count : 0 < count;
  ld_len : length l = Z.to_nat count;
  ld_fresh i sp : l !! i = Some sp → bytes sp.1 = 0 ∧ pol_inv sp.2 ∅;
  ld_home i sp k : l !! i = Some sp → k ∈ dom (data sp.1) → shard_index count k = i;
  ld_view k : view_of count l k = m !! k;
}.

Lemma loading_put count l m k s p d m' :
  loading count l m → l !! shard_index count k = Some (s, p) →
  dom d ⊆ {[k]} ∪ dom (data s) →
  (∀ k', shard_index count k' = shard_index count k → d !! k' = m' !! k') →
  (∀ k', k' ≠ k → m' !! k' = m !! k') →
  loading count (<[shard_index count k := (mkShard d (bytes s) (budget s), p)]> l) m'.
Proof.
  intros [H1 H2 H3 H4 H5] Hi Hdom Hd Hm. split; [done|by rewrite length_insert|..].
  - intros i sp [(<- & <- & _)|[_ Hl]]%list_lookup_insert_Some; [|eauto]. by apply (H3 _ _ Hi).
  - intros i sp k' [(<- & <- & _)|[_ Hl]]%list_lookup_insert_Some Hk'; [|eauto].
    apply Hdom, elem_of_union in Hk' as [->%elem_of_singleton|Hk']; [done|].
    by apply (H4 _ _ _ Hi).
  - intros k'. rewrite view_insert by (by eapply lookup_lt_Some). case_decide as E; simpl; [auto|].
    rewrite H5. symmetry. apply Hm. by intros ->.
Qed.

Lemma apply_record_loading count now l m r :
  loading count l m →
  ∃ l', apply_record count now (Ok l) r = Ok l' ∧ loading count l' (replay_one now m r).
Proof.
  intros Hl. destruct (getShard_ok count l (wal.Key r)) as ([s p] & Hsp & E); [apply Hl..|].
  unfold apply_record. go_bind1. rewrite E. eexists. split; [done|].
  assert (∀ k', shard_index count k' = shard_index count (wal.Key r) → data s !! k' = m !! k') as Hv.
  { intros k' Hk'. rewrite <-(ld_view _ _ _ Hl). unfold view_of. by rewrite Hk', Hsp. }
  unfold replay_one. destruct (_ =? wal.OpSet); [destruct (_ <? _)|destruct (_ =? wal.OpDelete); [|done]].
  - eapply loading_put; [done|done|rewrite dom_insert_L; set_solver|..].
    + intros k' Hk'. destruct (decide (k' = wal.Key r)) as [->|]; [by rewrite !lookup_insert_eq|].
      rewrite !lookup_insert_ne by done. auto.
    + intros k' Hne. by rewrite lookup_insert_ne.
  - eapply loading_put; [done|done|set_solver|..].
    + intros k' Hk'. destruct (decide (k' = wal.Key r)) as [->|]; [by rewrite !lookup_delete_eq|].
      rewrite !lookup_delete_ne by done. auto.
    + intros k' Hne. by rewrite lookup_delete_ne.
  - eapply loading_put; [done|done|set_solver|..].
    + intros k' Hk'. destruct (decide (k' = wal.Key r)) as [->|]; [by rewrite !lookup_delete_eq|].
      rewrite !lookup_delete_ne by done. auto.
    + intros k' Hne. by rewrite lookup_delete_ne.
Qed.

Lemma apply_records_loading count now rs : ∀ l m,
  loading count l m →
  ∃ l', foldl (apply_record count now) (Ok l) rs = Ok l' ∧
    loading count l' (foldl (replay_one now) m rs).
Proof.
  induction rs as [|r rs IH]; intros l m Hl; cbn [foldl]; [eauto|].
  destruct (apply_record_loading count now l m r Hl) as (l1 & -> & Hl1). by apply IH.
Qed.

(** Replaying leaves the budgets alone. *)
Lemma apply_record_budget count now l r l' : apply_record count now (Ok l) r = Ok l' →
  ∀ i sp', l' !! i = Some sp' → ∃ sp, l !! i = Some sp ∧ budget sp'.1 = budget sp.1.
Proof.
  unfold apply_record. go_bind1. unfold getShard. destruct (count =? 0); [done|].
  destruct (l !! shard_index count (wal.Key r)) as [[s p]|] eqn:E; [|done]. go_bind1.
  intros [= <-] i sp'.
  assert (∀ d sp', <[shard_index count (wal.Key r) := (mkShard d (bytes s) (budget s), p)]> l !! i = Some sp' →
    ∃ sp, l !! i = Some sp ∧ budget sp'.1 = budget sp.1) as Hput.
  { intros d sp0 [(<- & <- & _)|[_ Hl]]%list_lookup_insert_Some; eauto. }
  repeat case_match; eauto.
Qed.

Lemma apply_records_budget count now rs : ∀ l l', foldl (apply_record count now) (Ok l) rs = Ok l' →
  ∀ i sp', l' !! i = Some sp' → ∃ sp, l !! i = Some sp ∧ budget sp'.1 = budget sp.1.
Proof.
  induction rs as [|r rs IH]; intros l l'; cbn [foldl]; [intros [= <-]; eauto|].
  destruct (apply_record count now (Ok l) r) as [l1|e|] eqn:E.
  - intros Hf i sp' Hi. destruct (IH _ _ Hf _ _ Hi) as (sp1 & Hi1 & ->).
    by apply (apply_record_budget _ _ _ _ _ E).
  - intros Hf. exfalso. clear -Hf. induction rs; [done|]. by apply IHrs.
  - intros Hf. exfalso. clear -Hf. induction rs; [done|]. by apply IHrs.
Qed.

(** The final loop makes the counter exact and tells the policy every key. *)
Lemma sync_shard_aux es : ∀ s p K,
  pol_inv p K → NoDup es.*1 → (∀ k, k ∈ es.*1 → k ∉ K) →
  let sp' := sync_shard es (s, p) in
  data sp'.1 = data s ∧ budget sp'.1 = budget s ∧
  bytes sp'.1 = foldl (λ acc '(k, r), acc + entry_size k r) (bytes s) es ∧
  pol_inv sp'.2 (list_to_set es.*1 ∪ K).
Proof.
  induction es as [|[k r] es IH]; intros s p K Hp Hnd Hdis.
  { simpl. by rewrite union_empty_l_L. }
  rewrite fmap_cons in Hnd. cbn [fst] in Hnd.
  apply NoDup_cons in Hnd as [Hk Hnd].
  destruct (IH (mkShard (data s) (bytes s + (len k + len (value r))) (budget s)) (AfterWrite p k) ({[k]} ∪ K))
    as (H1 & H2 & H3 & H4); [apply AfterWrite_law; [done|]; apply Hdis; by left|done|set_solver|].
  split_and!; [done..|]. rewrite fmap_cons, list_to_set_cons.
  match type of H4 with pol_inv _ ?X =>
    match goal with |- pol_inv _ ?Y => replace Y with X by set_solver end end. done.
Qed.

Lemma sync_shard_spec es sp :
  es ≡ₚ map_to_list (data sp.1) → bytes sp.1 = 0 → pol_inv sp.2 ∅ →
  shard_inv (sync_shard es sp) ∧ data (sync_shard es sp).1 = data sp.1 ∧
  budget (sync_shard es sp).1 = budget sp.1.
Proof.
  destruct sp as [s p]. simpl. intros Hes Hb Hp.
  destruct (sync_shard_aux es s p ∅ Hp) as (H1 & H2 & H3 & H4); [by eapply visited_nodup|set_solver|].
  split_and!; [|done..]. split.
  - unfold shard_ok. rewrite H1, H3, Hb. by apply sum_sizes_perm.
  - rewrite H1. replace (dom (data s)) with (list_to_set (fst <$> es) ∪ ∅ : gset key); [done|].
    apply set_eq. intros k. rewrite union_empty_r_L, elem_of_list_to_set. by apply visited_key.
Qed.

Lemma synced_ok ord count l m :
  orders_ok ord → loading count l m →
  let l' := imap (λ i sp, sync_shard (ord i 0%nat (data sp.1)) sp) l in
  shards_ok count l' ∧ (∀ k, view_of count l' k = m !! k) ∧
  (∀ i sp', l' !! i = Some sp' → ∃ sp, l !! i = Some sp ∧ budget sp'.1 = budget sp.1).
Proof.
  intros Hord [H1 H2 H3 H4 H5].
  assert (∀ i sp, l !! i = Some sp →
    shard_inv (sync_shard (ord i 0%nat (data sp.1)) sp) ∧
    data (sync_shard (ord i 0%nat (data sp.1)) sp).1 = data sp.1 ∧
    budget (sync_shard (ord i 0%nat (data sp.1)) sp).1 = budget sp.1) as Hsync.
  { intros i sp Hi. apply sync_shard_spec; [apply Hord|by eapply H3..]. }
  split_and!; [split|..].
  - done.
  - by rewrite length_imap.
  - intros i sp. rewrite list_lookup_imap. intros (sp0 & Hi & ->)%fmap_Some. by apply Hsync.
  - intros i sp k. rewrite list_lookup_imap. intros (sp0 & Hi & ->)%fmap_Some.
    destruct (Hsync _ _ Hi) as (_ & -> & _). eauto.
  - intros k. rewrite view_imap, <-H5. unfold view_of. destruct (l !! _) as [sp|] eqn:Hi; [|done].
    simpl. by destruct (Hsync _ _ Hi) as (_ & -> & _).
  - intros i sp'. rewrite list_lookup_imap. intros (sp0 & Hi & ->)%fmap_Some.
    exists sp0. split; [done|]. by apply Hsync.
Qed.

Lemma new_shards_loading (opts : StoreOptions P) :
  0 < ShardCount opts → pol_inv (NewEviction opts) ∅ →
  ∃ l, new_shards opts = Ok l ∧ loading (ShardCount opts) l ∅ ∧
    (∀ i sp, l !! i = Some sp → budget sp.1 = if 0 <? MaxMemoryBytes opts
       then Z.quot (MaxMemoryBytes opts) (ShardCount opts) else 0).
Proof.
  intros Hc Hp. unfold new_shards.
  rewrite (proj2 (Z.eqb_neq (ShardCount opts) 0)) by lia. rewrite (proj2 (Z.ltb_ge (ShardCount opts) 0)) by lia.
  exists (replicate (Z.to_nat (ShardCount opts))
    (mkShard ∅ 0 (if 0 <? MaxMemoryBytes opts then Z.quot (MaxMemoryBytes opts) (ShardCount opts) else 0),
     NewEviction opts)).
  split; [by destruct (0 <? _)|]. split; [split|].
  - done.
  - by rewrite length_replicate.
  - intros i sp [-> _]%lookup_replicate_1. done.
  - intros i sp k [-> _]%lookup_replicate_1. set_solver.
  - intros k. unfold view_of. destruct (replicate _ _ !! _) as [sp|] eqn:E; [|done].
    apply lookup_replicate_1 in E as [-> _]. done.
  - intros i sp [-> _]%lookup_replicate_1. done.
Qed.

(** A file that holds the records [rs]. *)
Definition holds (file : wal.file_at) (rs : list wal.Record) : Prop :=
  file = wal.Missing ∧ rs = [] ∨ file = wal.Contents (log_bytes rs) ∧ Forall record_ok rs.

Lemma holds_replay {S} file rs (apply : S → wal.Record → S) s :
  holds file rs → wal.Replay file apply s = Some (Ok (), foldl apply s (stored <$> rs)).
Proof. intros [[-> ->]|[-> Hrs]]; [done|]. by apply Replay_complete. Qed.

Lemma NewKVStore_spec ord file rs (w : W) (opts : StoreOptions P) now :
  orders_ok ord → 0 < ShardCount opts < 2 ^ 32 → pol_inv (NewEviction opts) ∅ → holds file rs →
  ∃ kv, NewKVStore ord file (Ok w) opts now = Ok kv ∧
    store_ok kv ∧ kwal kv = w ∧ shardCount kv = ShardCount opts ∧ defaultTTL kv = DefaultTTL opts ∧
    (∀ k, view kv k = replayed now (stored <$> rs) !! k) ∧
    (∀ i sp, shards kv !! i = Some sp → budget sp.1 = if 0 <? MaxMemoryBytes opts
       then Z.quot (MaxMemoryBytes opts) (ShardCount opts) else 0).
Proof.
  intros Hord Hc Hp Hrs. unfold NewKVStore.
  destruct (new_shards_loading opts) as (l & -> & Hl & Hb); [lia|done|]. go_bind1.
  rewrite u32_small by lia. unfold recover. rewrite (holds_replay file rs) by done.
  destruct (apply_records_loading (ShardCount opts) now (stored <$> rs) l ∅ Hl) as (l' & Hfold & Hl').
  rewrite Hfold. go_bind1. destruct (synced_ok ord _ _ _ Hord Hl') as (Hok & Hv & Hb').
  eexists. split; [done|]. split_and!; [exact Hok|done..|exact Hv|].
  intros i sp Hi. destruct (Hb' i sp Hi) as (sp0 & Hi0 & ->).
  destruct (apply_records_budget _ _ _ _ _ Hfold i sp0 Hi0) as (sp1 & Hi1 & ->). by apply (Hb i).
Qed.

(** A log that cannot be replayed stops the start. *)
Lemma NewKVStore_replay_error ord rs r n (w : go W) (opts : StoreOptions P) now :
  0 < ShardCount opts < 2 ^ 32 → pol_inv (NewEviction opts) ∅ →
  Forall record_ok rs → record_ok r → (0 < n)%nat → Z.of_nat n < len (record_bytes r) →
  NewKVStore ord (wal.Contents (log_bytes rs ++ take n (record_bytes r))) w opts now = Err io_ErrUnexpectedEOF.
Proof.
  intros Hc Hp Hrs Hr Hn Hlt. unfold NewKVStore.
  destruct (new_shards_loading opts) as (l & -> & Hl & _); [lia|done|]. go_bind1.
  rewrite u32_small by lia. unfold recover. rewrite Replay_torn by done.
  destruct (apply_records_loading (ShardCount opts) now (stored <$> rs) l ∅ Hl) as (l' & -> & _). done.
Qed.

(** ** Compaction *)

(** What a restart at [now] makes of a record in memory. *)
Definition restamp (now : Z) (r : Record) : option Record :=
  if now <? expiredAt r then Some (mkRecord (value r) now (expiredAt r)) else None.

Lemma restamp_Some now r r' :
  restamp now r = Some r' ↔ now < expiredAt r ∧ r' = mkRecord (value r) now (expiredAt r).
Proof. unfold restamp. destruct (_ <? _) eqn:E; split; intros; try naive_solver lia. Qed.

(** The snapshot holds one record per live key. *)
Lemma snapshot_records_in ord kv t x :
  store_ok kv → orders_ok ord →
  x ∈ snapshot_records ord kv t ↔
  ∃ k rec, view kv k = Some rec ∧ t ≤ expiredAt rec ∧ x = set_record k (value rec) (expiredAt rec).
Proof.
  intros Hok Hord. unfold snapshot_records, shard_records. rewrite elem_of_concat. split.
  - intros (rs & Hx & [i Hi]%list_elem_of_lookup). rewrite list_lookup_imap in Hi.
    apply fmap_Some in Hi as (sp & Hi & ->).
    apply list_elem_of_fmap in Hx as ([k rec] & -> & [Hexp Hin]%list_elem_of_filter).
    apply (visited_elem _ (data sp.1)) in Hin; [|apply Hord]. exists k, rec. split_and!; [|lia|done].
    unfold view, view_of. erewrite (so_home _ _ Hok i sp k); [|done|apply elem_of_dom; eauto].
    by rewrite Hi.
  - intros (k & rec & Hv & Hexp & ->). unfold view, view_of in Hv.
    destruct (shards kv !! _) as [sp|] eqn:Hi; [|done]. simpl in Hv.
    eexists. split; [|apply list_elem_of_lookup; eexists; rewrite list_lookup_imap, Hi; done].
    apply list_elem_of_fmap. exists (k, rec). split; [done|]. apply list_elem_of_filter. split; [lia|].
    by apply (visited_elem _ (data sp.1)); [apply Hord|].
Qed.

(** Replaying Set records that agree on each key. *)
Lemma replayed_functional now rs :
  (∀ x, x ∈ rs → wal.Op x = wal.OpSet) →
  (∀ x y, x ∈ rs → y ∈ rs → wal.Key x = wal.Key y → x = y) →
  ∀ k r, replayed now rs !! k = Some r ↔
    ∃ x, x ∈ rs ∧ wal.Key x = k ∧ now < wal.ExpiresAt x ∧ r = mkRecord (wal.Value x) now (wal.ExpiresAt x).
Proof.
  unfold replayed. induction rs as [|x rs IH] using rev_ind; intros Hop Hfun k r.
  { simpl. rewrite lookup_empty. split; [done|]. intros (x & Hx & _). by apply not_elem_of_nil in Hx. }
  rewrite foldl_app. cbn [foldl]. unfold replay_one at 1.
  assert (x ∈ rs ++ [x]) as Hx by (apply elem_of_app; right; by left).
  assert (∀ y, y ∈ rs → y ∈ rs ++ [x]) as Hrs by (intros; apply elem_of_app; by left).
  rewrite (Hop x Hx). cbn.
  assert (∀ k r, foldl (replay_one now) ∅ rs !! k = Some r ↔
    ∃ y, y ∈ rs ∧ wal.Key y = k ∧ now < wal.ExpiresAt y ∧ r = mkRecord (wal.Value y) now (wal.ExpiresAt y)) as IH'.
  { apply IH; eauto. }
  clear IH. destruct (decide (wal.Key x = k)) as [<-|Hne].
  - assert (∀ y, y ∈ rs ++ [x] → wal.Key y = wal.Key x → y = x) as Hxx by eauto.
    destruct (now <? wal.ExpiresAt x) eqn:E; [rewrite lookup_insert_eq|rewrite lookup_delete_eq]; split.
    + intros [= <-]. exists x. split_and!; [done|done|lia|done].
    + intros (y & Hy & Hk & _ & ->). by rewrite (Hxx y Hy Hk).
    + done.
    + intros (y & Hy & Hk & Hlt & ->). rewrite (Hxx y Hy Hk) in Hlt. lia.
  - assert ((if now <? wal.ExpiresAt x
             then <[wal.Key x:=mkRecord (wal.Value x) now (wal.ExpiresAt x)]> (foldl (replay_one now) ∅ rs)
             else delete (wal.Key x) (foldl (replay_one now) ∅ rs)) !! k = foldl (replay_one now) ∅ rs !! k) as ->.
    { destruct (_ <? _); [by rewrite lookup_insert_ne|by rewrite lookup_delete_ne]. }
    rewrite IH'. split; intros (y & Hy & Hk & ?); exists y; [eauto|].
    apply elem_of_app in Hy as [Hy|Hy%list_elem_of_singleton]; [eauto|by subst].
Qed.

(** A log compacted at [t] and replayed later gives back what memory held. *)
Lemma snapshot_replayed ord kv t now k :
  store_ok kv → orders_ok ord → t ≤ now →
  (∀ k r, view kv k = Some r → - 2 ^ 63 ≤ expiredAt r < 2 ^ 63) →
  replayed now (stored <$> snapshot_records ord kv t) !! k = view kv k ≫= restamp now.
Proof.
  intros Hok Hord Ht Hexp.
  assert (stored <$> snapshot_records ord kv t = snapshot_records ord kv t) as ->.
  { rewrite <-(list_fmap_id (snapshot_records ord kv t)) at 2. apply list_fmap_ext. intros i x Hx%list_elem_of_lookup_2.
    apply snapshot_records_in in Hx as (k0 & rec & Hv & _ & ->); [|done..].
    unfold stored, UnixNano. simpl. rewrite i64_small; [done|]. by eapply Hexp. }
  apply option_eq. intros r. rewrite replayed_functional.
  - rewrite bind_Some. setoid_rewrite restamp_Some. split.
    + intros (x & (k0 & rec & Hv & _ & ->)%snapshot_records_in & <- & Hlt & ->); [|done..]. simpl in *. eauto.
    + intros (rec & Hv & Hlt & ->). exists (set_record k (value rec) (expiredAt rec)). split_and!; [|done..].
      apply snapshot_records_in; [done..|]. exists k, rec. split_and!; [done|lia|done].
  - intros x (k0 & rec & _ & _ & ->)%snapshot_records_in; done.
  - intros x y (k1 & r1 & Hv1 & _ & ->)%snapshot_records_in (k2 & r2 & Hv2 & _ & ->)%snapshot_records_in; [|done..].
    simpl. intros ->. by simplify_eq.
Qed.
End background.
