(* ===== verification/StoreSpec.v ===== *)
(** * What the store promises

    The abstract store is a plain map from keys to records.  This file runs
    sequences of operations on both, proves that the sharded store refines the map,
    that memory stays within budget, and that recovery from the log gives back what
    the operations left. *)

From S2P Require Import Prelude GoLang WalRecord Os WalWriter Shard Eviction Store Recovery.

(** ** Operations and their abstract meaning *)

Inductive op :=
  | OSet (k : key) (v : gobytes) (exp : Z)
  | OGet (k : key)
  | ODelete (k : key)
  | OSweep.

Inductive result :=
  | RUnit (r : go ())
  | RValue (r : go gobytes)
  | RNone.

Definition read_record (now : Z) (r : option Record) : go gobytes :=
  match r with
  | Some r => if expiredAt r <? now then Err ErrKeyNotFound else Ok (value r)
  | None => Err ErrKeyNotFound
  end.

Definition spec_op (m : gmap key Record) (o : op) (now : Z) : result * gmap key Record :=
  match o with
  | OSet k v exp => (RUnit (Ok ()), <[k := mkRecord v now exp]> m)
  | OGet k => (RValue (read_record now (m !! k)), m)
  | ODelete k => (RUnit (match m !! k with Some _ => Ok () | None => Err ErrKeyNotFound end), delete k m)
  | OSweep => (RNone, filter (λ '(_, r), now ≤ expiredAt r) m)
  end.

Definition op_record (o : op) : list wal.Record :=
  match o with
  | OSet k v exp => [set_record k v exp]
  | ODelete k => [delete_record k]
  | OGet _ | OSweep => []
  end.

(** The runs of the abstract store: a write may also fail in the log, which leaves
    the map as it was. *)
Inductive spec_run : gmap key Record → list (op * Z) → list result → gmap key Record → Prop :=
  | spec_nil m : spec_run m [] [] m
  | spec_step m o now r m1 os rs m2 :
      spec_op m o now = (r, m1) → spec_run m1 os rs m2 → spec_run m ((o, now) :: os) (r :: rs) m2
  | spec_log_error m o now e os rs m2 :
      op_record o ≠ [] → spec_run m os rs m2 → spec_run m ((o, now) :: os) (RUnit (Err e) :: rs) m2.

Section spec.
Context {P : Type} {PP : Policy P} {PL : PolicyLaws P} {W : Type} {LW : Log W} {LL : LogLaws W}.
Context (ord : nat → order) (Hord : orders_ok ord).
Implicit Types (kv : KVStore P W) (sp : Shard * P).

Definition run_op (kv : KVStore P W) (o : op) (now : Z) : result * KVStore P W :=
  match o with
  | OSet k v exp => let '(r, kv) := SetWithExpiry (ord 0%nat) kv k v exp now in (RUnit r, kv)
  | OGet k => let '(r, kv) := Get kv k now in (RValue r, kv)
  | ODelete k => let '(r, kv) := Delete kv k in (RUnit r, kv)
  | OSweep => (RNone, sweep ord kv now)
  end.

Fixpoint run_ops (kv : KVStore P W) (os : list (op * Z)) : list result * KVStore P W :=
  match os with
  | [] => ([], kv)
  | (o, now) :: os =>
      let '(r, kv) := run_op kv o now in
      let '(rs, kv) := run_ops kv os in (r :: rs, kv)
  end.

(** ** Properties of every shard *)

Definition all_shards (Q : Shard → Prop) (kv : KVStore P W) : Prop :=
  ∀ i sp, shards kv !! i = Some sp → Q sp.1.

Lemma all_shards_on {A} Q kv k (f : Shard * P → go A * (Shard * P)) :
  store_ok kv → (∀ sp, shard_inv sp → Q sp.1 → Q (f sp).2.1) →
  all_shards Q kv → all_shards Q (on_shard kv k f).2.
Proof.
  intros Hok Hf HQ. destruct (on_shard_ok kv k f Hok) as (sp & Hsp & Hinv & _ & ->).
  intros i sp'. simpl. intros [(<- & <- & _)|[_ Hi]]%list_lookup_insert_Some; eauto.
Qed.

(** What every operation does to one shard. *)
Record shard_stable (Q : Shard → Prop) : Prop := {
  st_set k v exp now sp sp' res : shard_inv sp → Q sp.1 →
    set_locked (ord 0%nat) k v (len k + len v) exp now sp = (res, sp') → Q sp'.1;
  st_evict k s : shard_ok s → Q s → Q (Evict s k);
}.

Lemma remove_entry_Evict k r sp : data sp.1 !! k = Some r → (remove_entry k r sp).1 = Evict sp.1 k.
Proof. destruct sp as [s p]. simpl. unfold Evict, entry_size. by intros ->. Qed.

Lemma sweep_shard_stable Q now es : shard_stable Q → ∀ sp,
  shard_inv sp → NoDup es.*1 → (∀ k r, (k, r) ∈ es → data sp.1 !! k = Some r) →
  Q sp.1 → Q (sweep_shard now es sp).1.
Proof.
  intros HQ. induction es as [|[k0 r0] es IH]; intros sp Hinv Hnd Hes Hq; [done|].
  rewrite fmap_cons in Hnd. apply NoDup_cons in Hnd as [Hk0 Hnd]. cbn [fst] in Hk0.
  assert (data sp.1 !! k0 = Some r0) as Hr0 by (apply Hes; by left).
  unfold sweep_shard. cbn [foldl]. destruct (expiredAt r0 <? now).
  - destruct (remove_entry_spec k0 r0 sp Hinv Hr0) as (Hinv' & Hd & _).
    apply IH; [done|done| |].
    + intros k r Hin. rewrite Hd, lookup_delete_ne; [apply Hes; by right|].
      intros <-. apply Hk0. apply list_elem_of_fmap. by exists (k0, r).
    + rewrite remove_entry_Evict by done. apply (st_evict _ HQ); [apply Hinv|done].
  - apply IH; [done..| |done]. intros k r Hin. apply Hes. by right.
Qed.

Lemma run_op_stable Q kv o now : shard_stable Q → store_ok kv → all_shards Q kv →
  all_shards Q (run_op kv o now).2.
Proof.
  intros HQ Hok Hall. destruct o as [k v exp|k|k|]; simpl.
  - unfold SetWithExpiry. destruct (log_append _ _) as [[[]|e|] w]; [|done..].
    unfold set_memory. rewrite make_copy_id.
    pose proof (all_shards_on Q (with_wal kv w) k
      (set_locked (ord 0%nat) k v (len k + len v) exp now) Hok) as Ha.
    destruct (on_shard _ _ _) as [r kv']. apply Ha; [|done].
    intros sp Hinv Hq. destruct (set_locked _ _ _ _ _ _ sp) as [res sp'] eqn:E. by eapply st_set.
  - unfold Get. pose proof (all_shards_on Q kv k (get_shard k now) Hok) as Ha.
    destruct (on_shard _ _ _) as [r kv']. apply Ha; [|done].
    intros [s p] _ Hq. unfold get_shard. destruct (data s !! k); [destruct (_ <? _)|]; done.
  - unfold Delete. destruct (log_append _ _) as [[[]|e|] w]; [|done..].
    pose proof (all_shards_on Q (with_wal kv w) k (delete_locked k) Hok) as Ha.
    destruct (on_shard _ _ _) as [r kv']. apply Ha; [|done].
    intros sp Hinv Hq. unfold delete_locked. destruct (data sp.1 !! k) eqn:E; [|done]. simpl.
    rewrite remove_entry_Evict by done. apply (st_evict _ HQ); [apply Hinv|done].
  - intros i sp'. simpl. rewrite list_lookup_imap. intros (sp & Hi & ->)%fmap_Some.
    assert (shard_inv sp) as Hinv by (by eapply so_shard).
    apply sweep_shard_stable; [done|done| | |by eapply Hall].
    + eapply visited_nodup, Hord.
    + intros k r. apply visited_elem, Hord.
Qed.

(** ** Every operation keeps the invariant *)

Lemma run_op_ok kv o now : store_ok kv → store_ok (run_op kv o now).2.
Proof.
  intros Hok. destruct o as [k v exp|k|k|]; simpl.
  - unfold SetWithExpiry. destruct (log_append _ _) as [[[]|e|] w]; [|done..].
    destruct (set_memory _ _ _ _ _ _) as [r kv'] eqn:E. by eapply set_memory_spec in E as [? _].
  - destruct (Get _ _ _) as [r kv'] eqn:E. by eapply Get_spec in E as [? _].
  - unfold Delete. destruct (log_append _ _) as [[[]|e|] w]; [|done..].
    destruct (on_shard _ _ _) as [r kv'] eqn:E. by eapply delete_memory_spec in E as [? _].
  - by apply sweep_view.
Qed.

Lemma run_ops_ok os : ∀ kv, store_ok kv → store_ok (run_ops kv os).2.
Proof.
  induction os as [|[o now] os IH]; intros kv Hok; simpl; [done|].
  apply (run_op_ok _ o now) in Hok. destruct (run_op kv o now) as [r kv1]. simpl in Hok.
  apply IH in Hok. by destruct (run_ops kv1 os).
Qed.

Lemma run_ops_stable Q os : shard_stable Q → ∀ kv, store_ok kv → all_shards Q kv →
  all_shards Q (run_ops kv os).2.
Proof.
  intros HQ. induction os as [|[o now] os IH]; intros kv Hok Hall; simpl; [done|].
  pose proof (run_op_ok kv o now Hok) as Hok1. pose proof (run_op_stable Q kv o now HQ Hok Hall) as Hall1.
  destruct (run_op kv o now) as [r kv1]. simpl in *.
  specialize (IH kv1 Hok1 Hall1). by destruct (run_ops kv1 os).
Qed.

Lemma budget_stable (Q : Z → Prop) : shard_stable (λ s, Q (budget s)).
Proof.
  split.
  - intros k v exp now sp sp' res Hinv Hb E.
    pose proof (set_locked_spec (ord 0%nat) k v exp now sp (Hord 0%nat) Hinv) as Hs. rewrite E in Hs.
    destruct res; [destruct Hs as (_ & -> & _)|destruct Hs as (_ & -> & _)|]; done.
  - intros k s _. by rewrite Evict_budget.
Qed.

(** ** Memory *)

(** Within budget, unless a single entry is larger than the whole budget. *)
Definition within (s : Shard) : Prop :=
  0 ≤ budget s ∧ (budget s = 0 ∨ bytes s ≤ budget s ∨ size (data s) = 1%nat).

Lemma within_stable : shard_stable within.
Proof.
  split.
  - intros k v exp now sp sp' res Hinv [H0 Hw] E.
    pose proof (set_locked_spec (ord 0%nat) k v exp now sp (Hord 0%nat) Hinv) as Hs. rewrite E in Hs.
    destruct res as [[]|e|]; [|by destruct Hs as (_ & -> & _)|done].
    destruct Hs as (_ & Hb & d & _ & Hd & Hroom). unfold within. rewrite Hb. split; [done|].
    destruct Hroom as [?|[?|Hnil]]; [auto..|]. right; right. by rewrite Hd, Hnil, insert_empty, map_size_singleton.
  - intros k s Hs [H0 Hw]. unfold within. rewrite Evict_budget. split; [done|].
    destruct Hw as [?|[Hle|H1]]; [by left|..].
    + right; left. unfold Evict. destruct (data s !! k) as [r|]; [|done]. simpl.
      pose proof (entry_size_nonneg k r). lia.
    + unfold Evict. destruct (data s !! k) as [r|] eqn:Er; [|auto]. simpl. right; left.
      assert (delete k (data s) = ∅) as Hnil.
      { apply map_size_empty_inv. rewrite map_size_delete_Some by eauto. lia. }
      unfold shard_ok in Hs. rewrite Hs, (sum_sizes_delete _ _ _ Er), Hnil, sum_sizes_empty. lia.
Qed.

(** ** Simulation by the abstract store, when there is no budget *)

Definition unlimited (kv : KVStore P W) : Prop := all_shards (λ s, budget s = 0) kv.

Record simulates (m : gmap key Record) (kv : KVStore P W) : Prop := {
  sim_ok : store_ok kv;
  sim_unlimited : unlimited kv;
  sim_view k : view kv k = m !! k;
}.

Lemma unlimited_shard kv k sp :
  unlimited kv → shards kv !! shard_index (shardCount kv) k = Some sp → budget sp.1 = 0.
Proof. intros Hu Hi. by apply (Hu _ _ Hi). Qed.

Lemma simulates_view kv kv' m m' o now :
  simulates m kv → (run_op kv o now).2 = kv' → (∀ k, view kv' k = m' !! k) → simulates m' kv'.
Proof.
  intros [Hok Hu _] <- Hv. split; [by apply run_op_ok| |done].
  apply run_op_stable; [apply (budget_stable (λ b, b = 0))|done|done].
Qed.

(** Without a limit the policies accept every write. *)
Lemma set_memory_unlimited kv k v exp now r kv' :
  store_ok kv → unlimited kv → set_memory (ord 0%nat) kv k v exp now = (r, kv') → r = Ok ().
Proof.
  intros Hok Hu Em. unfold set_memory in Em.
  match type of Em with on_shard ?kv0 ?k0 ?f = _ =>
    destruct (on_shard_ok kv0 k0 f Hok) as (sp & Hsp & _ & _ & Eo); rewrite Eo in Em end.
  match type of Em with context [set_locked ?a ?b ?c ?d ?e ?f sp] =>
    destruct (set_locked_unlimited a b c d e f sp) as (sp' & Es & _); [|rewrite Es in Em] end;
  [by eapply unlimited_shard in Hsp|]. simpl in Em. by simplify_eq.
Qed.

(** One operation: the map's result and effect, unless the log failed. *)
Lemma run_op_simulates kv m o now r kv' :
  simulates m kv → run_op kv o now = (r, kv') →
  (∃ m', spec_op m o now = (r, m') ∧ simulates m' kv' ∧
     (∀ rs, logged (kwal kv) rs → logged (kwal kv') (rs ++ op_record o))) ∨
  (∃ e, op_record o ≠ [] ∧ r = RUnit (Err e) ∧ simulates m kv').
Proof.
  intros Hsim E. pose proof Hsim as [Hok Hu Hv].
  assert (∀ m', (∀ k, view kv' k = m' !! k) → simulates m' kv') as Hgo
    by (intros; eapply simulates_view; [done|by rewrite E|done]).
  destruct o as [k v exp|k|k|]; simpl in E.
  - unfold SetWithExpiry in E. pose proof (log_append_returns (set_record k v exp) (kwal kv)) as Hnp.
    pose proof (log_append_law (set_record k v exp) (kwal kv)) as Hlaw.
    destruct (log_append _ _) as [[[]|e|] w]; [| |done].
    2: { simplify_eq. right. eexists. split_and!; [done|done|by apply Hgo]. }
    destruct (set_memory _ _ _ _ _ _) as [r1 kv1] eqn:Em. simplify_eq.
    pose proof (set_memory_unlimited (with_wal kv w) k v exp now r1 kv' Hok Hu Em) as ->.
    apply (set_memory_spec _ (with_wal kv w) _ _ _ _ _ _ Hok (Hord 0%nat)) in Em as (_ & Ew & _ & _ & Hk & Hother).
    left. eexists. split_and!; [done| |by intros; rewrite Ew; apply Hlaw].
    apply Hgo. intros k'. destruct (decide (k' = k)) as [->|Hne]; [by rewrite lookup_insert_eq|].
    rewrite lookup_insert_ne, <-Hv by done.
    destruct (Hother k' Hne) as [->|(_ & _ & sp & Hsp & Hb)]; [done|].
    by apply unlimited_shard in Hsp.
  - destruct (Get kv k now) as [r1 kv1] eqn:Eg. simplify_eq. left.
    apply (Get_spec _ _ _ _ _ Hok) in Eg as (_ & Ew & _ & _ & Hview & ->).
    exists m. split_and!.
    + simpl. rewrite Hv. done.
    + apply Hgo. intros k'. by rewrite Hview.
    + intros rs. rewrite Ew. simpl. by rewrite app_nil_r.
  - unfold Delete in E. pose proof (log_append_returns (delete_record k) (kwal kv)) as Hnp.
    pose proof (log_append_law (delete_record k) (kwal kv)) as Hlaw.
    destruct (log_append _ _) as [[[]|e|] w]; [| |done].
    2: { simplify_eq. right. eexists. split_and!; [done|done|by apply Hgo]. }
    destruct (on_shard _ _ _) as [r1 kv1] eqn:Em. simplify_eq.
    apply delete_memory_spec in Em as (_ & Ew & _ & _ & Hview & ->); [|done].
    left. eexists. split_and!; [|apply Hgo|by intros; rewrite Ew; apply Hlaw].
    + simpl. rewrite view_wal, Hv. done.
    + intros k'. rewrite Hview, view_wal, Hv. case_decide; [subst; by rewrite lookup_delete_eq|].
      by rewrite lookup_delete_ne.
  - simplify_eq. left. eexists. split_and!; [done| |intros rs; by rewrite app_nil_r].
    apply Hgo. intros k. destruct (sweep_view ord kv now Hok Hord) as [_ Hsv].
    apply option_eq. intros r0. rewrite Hsv, Hv, map_lookup_filter_Some. done.
Qed.

Lemma run_ops_simulates os : ∀ kv m rs kv',
  simulates m kv → run_ops kv os = (rs, kv') → ∃ m', spec_run m os rs m' ∧ simulates m' kv'.
Proof.
  induction os as [|[o now] os IH]; intros kv m rs kv' Hsim; simpl.
  { intros [= <- <-]. exists m. split; [constructor|done]. }
  destruct (run_op kv o now) as [r kv1] eqn:E1. destruct (run_ops kv1 os) as [rs1 kv2] eqn:E2.
  intros [= <- <-]. destruct (run_op_simulates _ _ _ _ _ _ Hsim E1) as [(m1 & Hs & Hsim1 & _)|(e & Ho & -> & Hsim1)];
    destruct (IH _ _ _ _ Hsim1 E2) as (m' & Hrun & Hsim'); exists m'; split; try done.
  - by eapply spec_step.
  - by apply spec_log_error.
Qed.

(** ** What the log holds after a run in which it never failed *)

Fixpoint log_accepts (kv : KVStore P W) (os : list (op * Z)) : Prop :=
  match os with
  | [] => True
  | (o, now) :: os =>
      Forall (λ r, (log_append r (kwal kv)).1 = Ok ()) (op_record o) ∧ log_accepts (run_op kv o now).2 os
  end.

Definition spec_ops (m : gmap key Record) (os : list (op * Z)) : gmap key Record :=
  foldl (λ m '(o, now), (spec_op m o now).2) m os.

Definition op_records (os : list (op * Z)) : list wal.Record := concat ((λ '(o, _), op_record o) <$> os).

Lemma run_op_accepted kv m o now r kv' :
  simulates m kv → Forall (λ r, (log_append r (kwal kv)).1 = Ok ()) (op_record o) →
  run_op kv o now = (r, kv') →
  r = (spec_op m o now).1 ∧ simulates (spec_op m o now).2 kv' ∧
  ∀ rs, logged (kwal kv) rs → logged (kwal kv') (rs ++ op_record o).
Proof.
  intros Hsim Hacc E.
  destruct (run_op_simulates _ _ _ _ _ _ Hsim E) as [(m1 & Hs & Hsim1 & Hlog)|(e & Ho & -> & Hsim1)].
  { by rewrite Hs. }
  destruct o as [k v exp|k|k|]; simpl in *; [| done | | done]; apply Forall_cons in Hacc as [Hacc _].
  - unfold SetWithExpiry in E. destruct (log_append _ _) as [lr w] eqn:El. simpl in Hacc. subst lr.
    destruct (set_memory _ _ _ _ _ _) as [r1 kv1] eqn:Em. simplify_eq.
    unfold set_memory in Em. pose proof Hsim as [Hok Hu _].
    match type of Em with on_shard ?kv0 ?k0 ?f = _ =>
      destruct (on_shard_ok kv0 k0 f Hok) as (sp & Hsp & _ & _ & Eo); rewrite Eo in Em end.
    match type of Em with context [set_locked ?a ?b ?c ?d ?e ?f sp] =>
      destruct (set_locked_unlimited a b c d e f sp) as (sp' & Es & _); [|rewrite Es in Em] end;
    [by eapply unlimited_shard in Hsp|]. done.
  - unfold Delete in E. destruct (log_append _ _) as [lr w] eqn:El. simpl in Hacc. subst lr.
    destruct (on_shard _ _ _) as [r1 kv1] eqn:Em. simplify_eq.
    pose proof Hsim as [Hok Hu Hv]. pose proof Em as Em'.
    apply delete_memory_spec in Em' as (_ & Ew & _ & _ & Hview & Hres); [|done]. rewrite view_wal, Hv in Hres.
    split_and!.
    + by rewrite Hres.
    + destruct (m !! k) eqn:Em1; [done|]. by rewrite delete_id.
    + intros rs Hl. rewrite Ew. pose proof (log_append_law (delete_record k) (kwal kv) rs Hl) as Hlaw.
      by rewrite El in Hlaw.
Qed.

Lemma run_ops_accepted os : ∀ kv m rs0 res kv',
  simulates m kv → logged (kwal kv) rs0 → log_accepts kv os → run_ops kv os = (res, kv') →
  simulates (spec_ops m os) kv' ∧ logged (kwal kv') (rs0 ++ op_records os).
Proof.
  induction os as [|[o now] os IH]; intros kv m rs0 res kv' Hsim Hlog; simpl.
  { intros _ [= <- <-]. unfold op_records. simpl. by rewrite app_nil_r. }
  intros [Hacc Hrest]. destruct (run_op kv o now) as [r kv1] eqn:E1.
  destruct (run_ops kv1 os) as [rs1 kv2] eqn:E2. intros [= <- <-].
  destruct (run_op_accepted _ _ _ _ _ _ Hsim Hacc E1) as (_ & Hsim1 & Hlog1).
  destruct (IH _ _ _ _ _ Hsim1 (Hlog1 _ Hlog) Hrest E2) as [Hs Hl]. split; [done|].
  unfold op_records in *. cbn [fmap list_fmap concat]. by rewrite app_assoc.
Qed.
End spec.

(** ** Replaying later

    What a restart keeps of a map. *)
Definition survivors (now : Z) (m : gmap key Record) : gmap key Record := omap (restamp now) m.

Lemma survivors_lookup now m k : survivors now m !! k = m !! k ≫= restamp now.
Proof. apply lookup_omap. Qed.

Lemma survivors_insert now m k r :
  survivors now (<[k := r]> m) =
  if now <? expiredAt r then <[k := mkRecord (value r) now (expiredAt r)]> (survivors now m)
  else delete k (survivors now m).
Proof.
  apply map_eq. intros k'. rewrite survivors_lookup. destruct (decide (k' = k)) as [->|Hne].
  - rewrite lookup_insert_eq. simpl. unfold restamp.
    destruct (_ <? _); [by rewrite lookup_insert_eq|by rewrite lookup_delete_eq].
  - rewrite lookup_insert_ne by done. rewrite <-survivors_lookup.
    destruct (_ <? _); [by rewrite lookup_insert_ne|by rewrite lookup_delete_ne].
Qed.

Lemma survivors_delete now m k : survivors now (delete k m) = delete k (survivors now m).
Proof. apply omap_delete. Qed.

Lemma replay_one_later now0 now m r :
  now0 ≤ now → survivors now (replay_one now0 m r) = replay_one now (survivors now m) r.
Proof.
  intros Hle. unfold replay_one. destruct (_ =? wal.OpSet); [|destruct (_ =? wal.OpDelete);
    [apply survivors_delete|done]].
  destruct (now0 <? wal.ExpiresAt r) eqn:E0.
  - by rewrite survivors_insert.
  - rewrite survivors_delete. destruct (now <? wal.ExpiresAt r) eqn:E1; [lia|done].
Qed.

Lemma replayed_later now0 now rs :
  now0 ≤ now → replayed now rs = survivors now (replayed now0 rs).
Proof.
  intros Hle. unfold replayed. assert (∀ m, foldl (replay_one now) (survivors now m) rs =
    survivors now (foldl (replay_one now0) m rs)) as H.
  { induction rs as [|r rs IH]; intros m; [done|]. cbn [foldl]. by rewrite <-(replay_one_later now0). }
  by rewrite <-H.
Qed.

(** The operations the program can log: lengths in range, an expiry that fits the
    log, and the clock before [now]. *)
Definition op_ok (now : Z) (x : op * Z) : Prop :=
  x.2 ≤ now ∧
  match x.1 with
  | OSet k v exp => len k < 65536 ∧ len v < 2 ^ 32 ∧ - 2 ^ 63 ≤ exp < 2 ^ 63
  | ODelete k => len k < 65536
  | OGet _ | OSweep => True
  end.

Lemma op_records_ok now os : Forall (op_ok now) os → Forall record_ok (op_records os).
Proof.
  induction 1 as [|[o t] os [_ Ho] _ IH]; [constructor|]. unfold op_records. cbn [fmap list_fmap concat].
  apply Forall_app. split; [|done]. destruct o; simpl in *; [|constructor| |constructor].
  - apply Forall_singleton. destruct Ho as (?&?&_). split_and!; [done..|by left].
  - apply Forall_singleton. split_and!; [done|len_lia|by right].
Qed.

(** An operation on the map is its record on the survivors. *)
Lemma spec_op_survivors now m o t :
  op_ok now (o, t) →
  survivors now (spec_op m o t).2 = foldl (replay_one now) (survivors now m) (stored <$> op_record o).
Proof.
  intros [Ht Ho]. destruct o as [k v exp|k|k|]; simpl in *.
  - destruct Ho as (_ & _ & Hexp). rewrite survivors_insert. unfold replay_one, stored, UnixNano. simpl.
    by rewrite i64_small.
  - done.
  - rewrite survivors_delete. done.
  - apply map_eq. intros k. rewrite !survivors_lookup. apply option_eq. intros r.
    rewrite !bind_Some. setoid_rewrite map_lookup_filter_Some. setoid_rewrite restamp_Some. split.
    + naive_solver.
    + intros (r0 & Hk & Hlt & ->). exists r0. split_and!; [done|lia|done..].
Qed.

Lemma spec_ops_survivors now os : Forall (op_ok now) os → ∀ m,
  survivors now (spec_ops m os) = foldl (replay_one now) (survivors now m) (stored <$> op_records os).
Proof.
  induction 1 as [|[o t] os Ho _ IH]; intros m; [done|].
  unfold op_records, spec_ops in *. cbn [fmap list_fmap concat foldl].
  rewrite fmap_app, foldl_app, <-(spec_op_survivors now m o t) by done. apply IH.
Qed.
