(* ===== verification/Concurrency.v ===== *)
(** * Calls on the store that run at the same time (storage/store, storage/eviction)

    Each connection of the server has its own goroutine, and the sweeper is another:
    their calls on the store interleave.  Here every goroutine advances one atomic
    step at a time: an append to the log (under the log's mutex), a look-up under a
    shard's read lock, a step under a shard's write lock that uses the policy's own
    mutex once.  What holds no lock ([BeforeRead], the expiry check, [AfterRead]) is a
    step too, and may fall between any two steps of the others, also inside a write
    that holds the shard's lock.

    The store is compared with an atomic one: a map on which each call takes effect
    at one instant between its invocation and its return. *)

From S2P Require Import Prelude GoLang WalRecord Os WalWriter Shard Eviction Store Recovery StoreSpec.

Abbreviation tid := nat.

(** ** Calls and where they stand *)

Inductive call :=
  | CSet (k : key) (v : gobytes) (exp : Z)
  | CGet (k : key)
  | CDelete (k : key).

Inductive pc :=
  | PSetLog (k : key) (v : gobytes) (exp : Z)      (* before [AppendSet] *)
  | PSetLock (k : key) (v : gobytes) (exp : Z)     (* before [shard.mu.Lock] *)
  | PSetStore (k : key) (v : gobytes) (exp : Z)    (* [BeforeWrite] has made room; holds the lock *)
  | PGetBefore (k : key)
  | PGetLookup (k : key)                           (* before [shard.mu.RLock] *)
  | PGetExpiry (k : key) (r : option Record)       (* after [RUnlock] *)
  | PGetAfter (k : key) (v : gobytes)
  | PDeleteLog (k : key)
  | PDeleteLock (k : key)
  | PDone (r : result).

(** The sweeper's goroutine: between ticks; before locking shard [i]; in the loop
    over a shard it has locked, [entries] still to be visited. *)
Inductive sweeper :=
  | SIdle
  | SShard (now : Z) (i : nat)
  | SEntries (now : Z) (i : nat) (entries : list (key * Record)).

Definition first_pc (c : call) : pc :=
  match c with
  | CSet k v exp => PSetLog k v exp
  | CGet k => PGetBefore k
  | CDelete k => PDeleteLog k
  end.

Section concurrent.
Context {P : Type} {PP : Policy P} {W : Type} {LW : Log W}.
Context (ord : nat → order).

(** [c_locks] has the shards whose write lock is held, with the holder ([None] is
    the sweeper); [c_loops] counts the loops over maps, each of which has its own
    order. *)
Record conf := mkConf {
  c_store : KVStore P W; c_now : Z; c_locks : gmap nat (option tid);
  c_calls : gmap tid pc; c_sweeper : sweeper; c_loops : nat }.

Definition start (kv : KVStore P W) (now : Z) : conf := mkConf kv now ∅ ∅ SIdle 0.

Definition with_store (c : conf) (kv : KVStore P W) : conf :=
  mkConf kv (c_now c) (c_locks c) (c_calls c) (c_sweeper c) (c_loops c).
Definition with_locks (c : conf) (l : gmap nat (option tid)) : conf :=
  mkConf (c_store c) (c_now c) l (c_calls c) (c_sweeper c) (c_loops c).
Definition goto (t : tid) (p : pc) (c : conf) : conf :=
  mkConf (c_store c) (c_now c) (c_locks c) (<[t := p]> (c_calls c)) (c_sweeper c) (c_loops c).
Definition with_sweeper (c : conf) (s : sweeper) : conf :=
  mkConf (c_store c) (c_now c) (c_locks c) (c_calls c) s (c_loops c).
Definition count_loop (c : conf) : conf :=
  mkConf (c_store c) (c_now c) (c_locks c) (c_calls c) (c_sweeper c) (S (c_loops c)).

(** [shard := kv.getShard(key)] and what is done with it; a panic of [getShard] is
    the call's result. *)
Definition at_shard (c : conf) (t : tid) (k : key) (panic : result)
    (f : nat → Shard * P → option conf) : option conf :=
  match getShard (shardCount (c_store c)) (shards (c_store c)) k with
  | Ok (i, sp) => f i sp
  | Err _ | Panic => Some (goto t (PDone panic) c)
  end.

(** One step of the goroutine of [t]; [None] while it waits for a lock. *)
Definition run_call (c : conf) (t : tid) (p : pc) : option conf :=
  let kv := c_store c in
  match p with
  | PSetLog k v exp =>
      let '(res, w) := log_append (set_record k v exp) (kwal kv) in
      Some (goto t (match res with
                    | Ok _ => PSetLock k v exp
                    | Err err => PDone (RUnit (Err err))
                    | Panic => PDone (RUnit Panic)
                    end) (with_store c (with_wal kv w)))
  | PSetLock k v exp =>
      at_shard c t k (RUnit Panic) (λ i sp,
        match c_locks c !! i with
        | Some _ => None
        | None =>
            let '(ok, sp) := set_make_room (ord (c_loops c)) k (len k + len v) sp in
            let c := count_loop (with_store c (with_shard kv i sp)) in
            Some (if ok then goto t (PSetStore k v exp) (with_locks c (<[i := Some t]> (c_locks c)))
                  else goto t (PDone (RUnit (Err ErrMemoryFull))) c)
        end)
  | PSetStore k v exp =>
      at_shard c t k (RUnit Panic) (λ i sp,
        let valCopy := make_copy (len v) v in
        let c := with_store c (with_shard kv i (set_store k valCopy (len k + len v) exp (c_now c) sp)) in
        Some (goto t (PDone (RUnit (Ok ()))) (with_locks c (delete i (c_locks c)))))
  | PGetBefore k =>
      at_shard c t k (RValue Panic) (λ i '(s, p),
        Some (goto t (PGetLookup k) (with_store c (with_shard kv i (s, BeforeRead p k)))))
  | PGetLookup k =>
      at_shard c t k (RValue Panic) (λ i sp,
        match c_locks c !! i with
        | Some _ => None
        | None => Some (goto t (PGetExpiry k (data sp.1 !! k)) c)
        end)
  | PGetExpiry k r =>
      Some (goto t (match r with
                    | Some record =>
                        if expiredAt record <? c_now c then PDone (RValue (Err ErrKeyNotFound))
                        else PGetAfter k (make_copy (len (value record)) (value record))
                    | None => PDone (RValue (Err ErrKeyNotFound))
                    end) c)
  | PGetAfter k v =>
      at_shard c t k (RValue Panic) (λ i '(s, p),
        Some (goto t (PDone (RValue (Ok v))) (with_store c (with_shard kv i (s, AfterRead p k)))))
  | PDeleteLog k =>
      let '(res, w) := log_append (delete_record k) (kwal kv) in
      Some (goto t (match res with
                    | Ok _ => PDeleteLock k
                    | Err err => PDone (RUnit (Err err))
                    | Panic => PDone (RUnit Panic)
                    end) (with_store c (with_wal kv w)))
  | PDeleteLock k =>
      at_shard c t k (RUnit Panic) (λ i sp,
        match c_locks c !! i with
        | Some _ => None
        | None =>
            let '(res, sp) := delete_locked k sp in
            Some (goto t (PDone (RUnit res)) (with_store c (with_shard kv i sp)))
        end)
  | PDone _ => None
  end.

(** One step of the sweeper. *)
Definition run_sweeper (c : conf) : option conf :=
  let kv := c_store c in
  match c_sweeper c with
  | SIdle => None
  | SShard now i =>
      match shards kv !! i with
      | None => Some (with_sweeper c SIdle)
      | Some sp =>
          match c_locks c !! i with
          | Some _ => None
          | None =>
              Some (with_sweeper (count_loop (with_locks c (<[i := None]> (c_locks c))))
                      (SEntries now i (ord (c_loops c) 0%nat (data sp.1))))
          end
      end
  | SEntries now i [] => Some (with_sweeper (with_locks c (delete i (c_locks c))) (SShard now (S i)))
  | SEntries now i ((k, rec) :: entries) =>
      let c := with_sweeper c (SEntries now i entries) in
      Some (if expiredAt rec <? now then
              match shards kv !! i with
              | Some sp => with_store c (with_shard kv i (remove_entry k rec sp))
              | None => c
              end
            else c)
  end.

(** What a schedule may do next, and what a client sees of it. *)
Inductive action :=
  | Invoke (t : tid) (c : call)
  | Run (t : tid)
  | Return (t : tid)
  | Tick (now : Z)
  | StartSweep
  | RunSweeper.

Inductive event :=
  | EInvoke (t : tid) (c : call)
  | EReturn (t : tid) (r : result)
  | ETick (now : Z).

Definition step (c : conf) (a : action) : option (list event * conf) :=
  match a with
  | Invoke t cl =>
      match c_calls c !! t with
      | None => Some ([EInvoke t cl], goto t (first_pc cl) c)
      | Some _ => None
      end
  | Run t => p ← c_calls c !! t; c' ← run_call c t p; Some ([], c')
  | Return t =>
      match c_calls c !! t with
      | Some (PDone r) =>
          Some ([EReturn t r],
                mkConf (c_store c) (c_now c) (c_locks c) (delete t (c_calls c)) (c_sweeper c) (c_loops c))
      | _ => None
      end
  | Tick now =>
      if c_now c <=? now
      then Some ([ETick now], mkConf (c_store c) now (c_locks c) (c_calls c) (c_sweeper c) (c_loops c))
      else None
  | StartSweep =>
      match c_sweeper c with
      | SIdle => Some ([], with_sweeper c (SShard (c_now c) 0))
      | _ => None
      end
  | RunSweeper => c' ← run_sweeper c; Some ([], c')
  end.

Fixpoint run (c : conf) (acts : list action) : option (list event * conf) :=
  match acts with
  | [] => Some ([], c)
  | a :: acts =>
      '(es, c) ← step c a;
      '(es', c) ← run c acts;
      Some (es ++ es', c)
  end.
End concurrent.
Arguments conf : clear implicits.

(** ** The atomic store

    Between its invocation and its return, each call takes effect once.  A [Get]
    reads the map at that instant and judges the expiry by the clock at a later one.
    A write may fail in the log.  With a memory limit a write may be refused, and
    entries may disappear; an entry that has expired may disappear at any time. *)

Inductive status :=
  | Called (c : call)
  | Reading (r : option Record)
  | Answered (r : result).

Record astate := mkAState { a_map : gmap key Record; a_now : Z; a_calls : gmap tid status }.

Definition a_set (a : astate) (t : tid) (s : status) (m : gmap key Record) : astate :=
  mkAState m (a_now a) (<[t := s]> (a_calls a)).

Section atomic.
Context (limited : Prop).

Inductive astep : astate → list event → astate → Prop :=
  | a_invoke a t c : a_calls a !! t = None →
      astep a [EInvoke t c] (a_set a t (Called c) (a_map a))
  | a_return a t r : a_calls a !! t = Some (Answered r) →
      astep a [EReturn t r] (mkAState (a_map a) (a_now a) (delete t (a_calls a)))
  | a_tick a now : a_now a ≤ now → astep a [ETick now] (mkAState (a_map a) now (a_calls a))
  | a_do_set a t k v exp : a_calls a !! t = Some (Called (CSet k v exp)) →
      astep a [] (a_set a t (Answered (RUnit (Ok ()))) (<[k := mkRecord v (a_now a) exp]> (a_map a)))
  | a_refuse a t k v exp : limited → a_calls a !! t = Some (Called (CSet k v exp)) →
      astep a [] (a_set a t (Answered (RUnit (Err ErrMemoryFull))) (a_map a))
  | a_read a t k : a_calls a !! t = Some (Called (CGet k)) →
      astep a [] (a_set a t (Reading (a_map a !! k)) (a_map a))
  | a_judge a t r : a_calls a !! t = Some (Reading r) →
      astep a [] (a_set a t (Answered (RValue (read_record (a_now a) r))) (a_map a))
  | a_do_delete a t k : a_calls a !! t = Some (Called (CDelete k)) →
      astep a [] (a_set a t
        (Answered (RUnit (match a_map a !! k with Some _ => Ok () | None => Err ErrKeyNotFound end)))
        (delete k (a_map a)))
  | a_log_error a t c e : a_calls a !! t = Some (Called c) → (∀ k, c ≠ CGet k) →
      astep a [] (a_set a t (Answered (RUnit (Err e))) (a_map a))
  | a_evict a m : limited → m ⊆ a_map a → astep a [] (mkAState m (a_now a) (a_calls a))
  | a_expire a k r : a_map a !! k = Some r → expiredAt r < a_now a →
      astep a [] (mkAState (delete k (a_map a)) (a_now a) (a_calls a)).

Inductive asteps : astate → list event → astate → Prop :=
  | asteps_nil a : asteps a [] a
  | asteps_cons a es1 a1 es2 a2 : astep a es1 a1 → asteps a1 es2 a2 → asteps a (es1 ++ es2) a2.

Lemma asteps_one a es a' : astep a es a' → asteps a es a'.
Proof. intros. rewrite <-(app_nil_r es). eapply asteps_cons; [done|constructor]. Qed.

Lemma asteps_app a es1 a1 es2 a2 : asteps a es1 a1 → asteps a1 es2 a2 → asteps a (es1 ++ es2) a2.
Proof.
  induction 1 as [|a es1 a1' es1' a1'' H1 _ IH]; intros H2; [done|].
  rewrite <-app_assoc. eapply asteps_cons; [done|by apply IH].
Qed.
End atomic.

(** ** The invariant of the interleaved store *)

Section good.
Context {P : Type} {PP : Policy P} {PL : PolicyLaws P} {W : Type} {LW : Log W} {LL : LogLaws W}.
Context (ord : nat → order) (Hord : orders_ok ord).
Implicit Types (c : conf P W) (kv : KVStore P W) (t : tid) (p : pc) (sp : Shard * P).

Definition home c (k : key) : nat := shard_index (shardCount (c_store c)) k.

(** Room for an entry of [n] bytes, as far as the policies make it. *)
Definition room (s : Shard) (n : Z) : Prop := budget s = 0 ∨ bytes s + n ≤ budget s ∨ data s = ∅.

(** A [Set] between its two steps under the lock: it holds the lock, its key is out
    and there is room for the new entry. *)
Definition pc_ok c t p : Prop :=
  match p with
  | PSetStore k v _ =>
      c_locks c !! home c k = Some (Some t) ∧
      ∃ sp, shards (c_store c) !! home c k = Some sp ∧ data sp.1 !! k = None ∧ room sp.1 (len k + len v)
  | _ => True
  end.

(** The sweeper in its loop over a shard holds the lock, and what it has still to
    visit is there. *)
Definition sweeper_ok c : Prop :=
  match c_sweeper c with
  | SIdle => True
  | SShard now _ => now ≤ c_now c
  | SEntries now i es =>
      now ≤ c_now c ∧ c_locks c !! i = Some None ∧ NoDup es.*1 ∧
      ∃ sp, shards (c_store c) !! i = Some sp ∧ ∀ k r, (k, r) ∈ es → data sp.1 !! k = Some r
  end.

(** A lock is held by a call that will give it back, or by the sweeper's loop. *)
Definition lock_ok c : Prop := ∀ i o, c_locks c !! i = Some o →
  match o with
  | Some t => ∃ k v exp, c_calls c !! t = Some (PSetStore k v exp) ∧ home c k = i
  | None => ∃ now es, c_sweeper c = SEntries now i es
  end.

Record good c : Prop := {
  g_store : store_ok (c_store c);
  g_calls t p : c_calls c !! t = Some p → pc_ok c t p;
  g_sweeper : sweeper_ok c;
  g_locks : lock_ok c;
}.

(** [c'] is [c] with shard [i] and its lock changed. *)
Record at_most i c c' : Prop := {
  am_count : shardCount (c_store c') = shardCount (c_store c);
  am_shards j : j ≠ i → shards (c_store c') !! j = shards (c_store c) !! j;
  am_locks j : j ≠ i → c_locks c' !! j = c_locks c !! j;
}.

Lemma pc_ok_frame i c c' t p :
  at_most i c c' → c_locks c !! i ≠ Some (Some t) → pc_ok c t p → pc_ok c' t p.
Proof.
  intros [H1 H2 H3] Hi. destruct p; try done. unfold pc_ok, home. rewrite H1. intros [Hl Hsp].
  destruct (decide (shard_index (shardCount (c_store c)) k = i)) as [<-|Hne]; [done|].
  by rewrite H2, H3.
Qed.

Lemma sweeper_ok_frame i c c' :
  at_most i c c' → c_locks c !! i ≠ Some None → c_now c ≤ c_now c' → c_sweeper c' = c_sweeper c →
  sweeper_ok c → sweeper_ok c'.
Proof.
  intros [H1 H2 H3] Hi Hnow E. unfold sweeper_ok. rewrite E. destruct (c_sweeper c) as [|now j|now j es]; [done|lia|].
  destruct (decide (j = i)) as [->|Hne]; [naive_solver|]. rewrite H2, H3 by done. intros (?&?&?&?). split_and!; auto; lia.
Qed.

(** A step of [t] on shard [i], which nobody else holds. *)
Lemma good_step i c c' t p' :
  good c → at_most i c c' →
  (c_locks c !! i = None ∨ c_locks c !! i = Some (Some t)) →
  store_ok (c_store c') → c_calls c' = <[t := p']> (c_calls c) → c_sweeper c' = c_sweeper c →
  c_now c' = c_now c → pc_ok c' t p' → (∀ k v exp, c_calls c !! t = Some (PSetStore k v exp) → home c k = i) →
  (c_locks c' !! i = None ∨ c_locks c' !! i = Some (Some t) ∧ ∃ k v exp, p' = PSetStore k v exp ∧ home c k = i) →
  good c'.
Proof.
  intros [H1 H2 H3 H4] Ham Hi Hok Hcalls Hsw Hnow Hpc Hmine Hlock. split; [done|..].
  - intros t' p. rewrite Hcalls, lookup_insert_Some. intros [[<- <-]|[Hne Ht']]; [done|].
    eapply pc_ok_frame; [done| |by apply H2]. naive_solver.
  - eapply sweeper_ok_frame; [done| |lia|done|done]. naive_solver.
  - intros j o Hj. destruct (decide (j = i)) as [->|Hne].
    + destruct Hlock as [Hl|(Hl & k & v & exp & -> & Hh)]; rewrite Hj in Hl; simplify_eq.
      exists k, v, exp. rewrite Hcalls, lookup_insert_eq. unfold home. by rewrite (am_count _ _ _ Ham).
    + rewrite (am_locks _ _ _ Ham _ Hne) in Hj. apply H4 in Hj. rewrite Hsw. destruct o as [t'|]; [|done].
      destruct Hj as (k & v & exp & Ht' & Hh). exists k, v, exp. rewrite Hcalls. unfold home.
      rewrite (am_count _ _ _ Ham). split; [|done]. rewrite lookup_insert_ne; [done|].
      intros ->. apply Hmine in Ht'. naive_solver.
Qed.

(** Nothing but policies and the log changes. *)
Record same_data c c' : Prop := {
  sd_count : shardCount (c_store c') = shardCount (c_store c);
  sd_shards j : fst <$> shards (c_store c') !! j = fst <$> shards (c_store c) !! j;
  sd_locks : c_locks c' = c_locks c;
}.

Definition storing p : bool := match p with PSetStore _ _ _ => true | _ => false end.

Lemma same_data_lookup c c' i sp : same_data c c' → shards (c_store c) !! i = Some sp →
  ∃ sp', shards (c_store c') !! i = Some sp' ∧ sp'.1 = sp.1.
Proof.
  intros Hsd Hi. pose proof (sd_shards _ _ Hsd i) as E. rewrite Hi in E.
  destruct (shards (c_store c') !! i) as [sp'|]; simplify_eq/=. eauto.
Qed.

Lemma same_data_view c c' k : same_data c c' → view (c_store c') k = view (c_store c) k.
Proof.
  intros [Hc Hs _]. unfold view, view_of. rewrite Hc.
  specialize (Hs (shard_index (shardCount (c_store c)) k)).
  destruct (shards (c_store c) !! _) as [?|], (shards (c_store c') !! _) as [?|]; simplify_eq/=; congruence.
Qed.

Lemma good_same c c' t p p' :
  good c → same_data c c' → store_ok (c_store c') → c_calls c !! t = Some p → storing p = false →
  c_calls c' = <[t := p']> (c_calls c) → storing p' = false → c_sweeper c' = c_sweeper c → c_now c' = c_now c →
  good c'.
Proof.
  intros [H1 H2 H3 H4] Hsd Hok Ht Hp Hcalls Hp' Hsw Hnow. pose proof Hsd as [Hc _ Hl]. split; [done|..].
  - intros t' q. rewrite Hcalls, lookup_insert_Some. intros [[<- <-]|[Hne Ht']]; [by destruct p'|].
    apply H2 in Ht'. destruct q; try done. unfold pc_ok, home. rewrite Hl, Hc.
    destruct Ht' as (? & sp & Hsp & ?). split; [done|].
    destruct (same_data_lookup _ _ _ _ Hsd Hsp) as (sp' & Hsp' & E). exists sp'. by rewrite E.
  - unfold sweeper_ok in *. rewrite Hsw, Hnow, Hl. destruct (c_sweeper c); [done..|].
    destruct H3 as (?&?&?&sp&Hsp&?). split_and!; [done..|].
    destruct (same_data_lookup _ _ _ _ Hsd Hsp) as (sp' & Hsp' & E). exists sp'. by rewrite E.
  - intros i o. rewrite Hl, Hsw. intros Hi%H4. destruct o as [t'|]; [|done].
    destruct Hi as (k & v & exp & Ht' & Hh). exists k, v, exp. unfold home. rewrite Hcalls, Hc.
    split; [|done]. rewrite lookup_insert_ne; [done|]. intros ->. by simplify_eq.
Qed.

(** ** The simulation *)

Context (limited : Prop).

(** What a client could see of a call that stands at [p]. *)
Definition matches p (s : status) : Prop :=
  match p with
  | PSetLog k v exp | PSetLock k v exp | PSetStore k v exp => s = Called (CSet k v exp)
  | PGetBefore k | PGetLookup k => s = Called (CGet k)
  | PGetExpiry _ r => s = Reading r
  | PGetAfter _ v => s = Answered (RValue (Ok v))
  | PDeleteLog k | PDeleteLock k => s = Called (CDelete k)
  | PDone r => s = Answered r
  end.

(** The key is out of its shard, until the [Set] that holds the lock puts it back. *)
Definition held c (k : key) : Prop := ∃ t v exp, c_calls c !! t = Some (PSetStore k v exp).

Record sim c (a : astate) : Prop := {
  s_good : good c;
  s_budget : unlimited (c_store c) ∨ limited;
  s_now : a_now a = c_now c;
  s_map k : held c k ∨ view (c_store c) k = a_map a !! k;
  s_calls t : option_Forall2 matches (c_calls c !! t) (a_calls a !! t);
}.

Lemma sim_status c a t p : sim c a → c_calls c !! t = Some p → ∃ s, a_calls a !! t = Some s ∧ matches p s.
Proof. intros Hs Ht. pose proof (s_calls _ _ Hs t) as E. rewrite Ht in E. inversion E; eauto. Qed.

Lemma matches_insert c a t p' s' :
  (∀ t, option_Forall2 matches (c_calls c !! t) (a_calls a !! t)) → matches p' s' →
  ∀ t', option_Forall2 matches (<[t := p']> (c_calls c) !! t') (<[t := s']> (a_calls a) !! t').
Proof.
  intros Hm Hp t'. destruct (decide (t = t')) as [->|Hne].
  - rewrite !lookup_insert_eq. by constructor.
  - by rewrite !lookup_insert_ne.
Qed.

Lemma a_set_id a t s : a_calls a !! t = Some s → a_set a t s (a_map a) = a.
Proof. destruct a. unfold a_set. simpl. intros. by rewrite insert_id. Qed.

(** A step of [t] that changes neither data nor locks. *)
Lemma sim_same c c' a t p p' s' :
  sim c a → same_data c c' → store_ok (c_store c') → c_calls c !! t = Some p → storing p = false →
  c_calls c' = <[t := p']> (c_calls c) → storing p' = false → c_sweeper c' = c_sweeper c → c_now c' = c_now c →
  matches p' s' → sim c' (a_set a t s' (a_map a)).
Proof.
  intros Hs Hsd Hok Ht Hp Hcalls Hp' Hsw Hnow Hm. split.
  - by eapply good_same; [apply Hs|..].
  - destruct (s_budget _ _ Hs) as [Hu|?]; [left|by right]. intros i sp Hi.
    pose proof (sd_shards _ _ Hsd i) as E. rewrite Hi in E.
    destruct (shards (c_store c) !! i) as [sp0|] eqn:E0; simplify_eq/=. rewrite E. by apply (Hu i).
  - simpl. rewrite Hnow. apply Hs.
  - intros k. rewrite (same_data_view _ _ _ Hsd). destruct (s_map _ _ Hs k) as [(t' & v & exp & Hh)|?]; [left|by right].
    exists t', v, exp. rewrite Hcalls, lookup_insert_ne; [done|]. intros ->. by simplify_eq.
  - rewrite Hcalls. apply matches_insert; [apply Hs|done].
Qed.

(** The same step with nothing to show for it. *)
Lemma sim_same_silent c c' a t p p' :
  sim c a → same_data c c' → store_ok (c_store c') → c_calls c !! t = Some p → storing p = false →
  c_calls c' = <[t := p']> (c_calls c) → storing p' = false → c_sweeper c' = c_sweeper c → c_now c' = c_now c →
  (∀ s, matches p s → matches p' s) → ∃ a', asteps limited a [] a' ∧ sim c' a'.
Proof.
  intros Hs ? ? Ht ? ? ? ? ? Hm. destruct (sim_status _ _ _ _ Hs Ht) as (s & Ha & Hp).
  exists a. split; [constructor|]. rewrite <-(a_set_id a t s Ha). eapply sim_same; eauto.
Qed.

Lemma at_shard_ok c k :
  good c → ∃ sp, shards (c_store c) !! home c k = Some sp ∧ shard_inv sp ∧
    ∀ t panic (f : nat → Shard * P → option (conf P W)), at_shard c t k panic f = f (home c k) sp.
Proof.
  intros [Hok _ _ _]. destruct (getShard_ok (shardCount (c_store c)) (shards (c_store c)) k) as (sp & Hsp & E);
    [apply Hok..|]. exists sp. split_and!; [done|by eapply so_shard|]. intros. unfold at_shard. by rewrite E.
Qed.

Lemma store_ok_shard kv k sp sp' :
  store_ok kv → shards kv !! shard_index (shardCount kv) k = Some sp → shard_inv sp' →
  dom (data sp'.1) ⊆ {[k]} ∪ dom (data sp.1) → store_ok (with_shard kv (shard_index (shardCount kv) k) sp').
Proof. intros. by eapply shards_ok_insert. Qed.

(** A policy hook outside the lock. *)
Lemma policy_same_data c t k s pol pol' p' :
  shards (c_store c) !! home c k = Some (s, pol) →
  same_data c (goto t p' (with_store c (with_shard (c_store c) (home c k) (s, pol')))).
Proof.
  intros Hi. split; [done| |done]. intros j. simpl. destruct (decide (j = home c k)) as [->|Hne].
  - rewrite list_lookup_insert_eq, Hi by (by eapply lookup_lt_Some). done.
  - by rewrite list_lookup_insert_ne.
Qed.

Lemma policy_store_ok c k s pol pol' :
  good c → shards (c_store c) !! home c k = Some (s, pol) → pol_inv pol' (dom (data s)) →
  store_ok (with_shard (c_store c) (home c k) (s, pol')).
Proof.
  intros [Hok _ _ _] Hi Hp. eapply store_ok_shard; [done|done| |set_solver].
  split; [|done]. by eapply so_shard in Hi as [? _].
Qed.

Lemma unlimited_step kv i sp : unlimited kv → budget sp.1 = 0 → unlimited (with_shard kv i sp).
Proof. intros Hu Hb j sp'. simpl. intros [(_ & <- & _)|[_ Hj]]%list_lookup_insert_Some; [done|by eapply Hu]. Qed.

Lemma unlocked_not_held c k k' : good c → c_locks c !! home c k = None → home c k' = home c k → ¬ held c k'.
Proof.
  intros Hg Hl Hh (t & v & exp & Ht). apply Hg in Ht as [Hl' _]. rewrite Hh in Hl'. congruence.
Qed.

(** The view after a change of the shard of [k], by shard. *)
Lemma view_with_shard c k sp sp' k' : good c → shards (c_store c) !! home c k = Some sp →
  view (with_shard (c_store c) (home c k) sp') k' =
  if decide (home c k' = home c k) then data sp'.1 !! k' else view (c_store c) k'.
Proof. intros Hg Hsp. by eapply on_shard_view; [apply Hg|]. Qed.

Lemma view_home c k sp k' : shards (c_store c) !! home c k = Some sp → home c k' = home c k →
  view (c_store c) k' = data sp.1 !! k'.
Proof. intros. by eapply view_same_shard. Qed.

Lemma at_most_shard c t i sp' p' l : (∀ j, j ≠ i → l !! j = c_locks c !! j) →
  at_most i c (goto t p' (with_locks (with_store c (with_shard (c_store c) i sp')) l)).
Proof. intros Hl. split; [done| |done]. intros j Hj. simpl. by rewrite list_lookup_insert_ne. Qed.

Lemma held_goto c t p p' k : c_calls c !! t = Some p → storing p = false → held c k →
  ∃ t' v exp, <[t := p']> (c_calls c) !! t' = Some (PSetStore k v exp).
Proof.
  intros Ht Hp (t' & v & exp & Ht'). exists t', v, exp. rewrite lookup_insert_ne; [done|].
  intros ->. by simplify_eq.
Qed.

(** *** The steps of a [Set] under the lock *)

(** Room made: the key, and what the policy evicted, are gone from the shard. *)
Definition made_room c t k v exp sp' : conf P W :=
  goto t (PSetStore k v exp) (with_locks (count_loop (with_store c (with_shard (c_store c) (home c k) sp')))
    (<[home c k := Some t]> (c_locks c))).

Lemma made_room_good c t k v exp sp sp' :
  good c → c_calls c !! t = Some (PSetLock k v exp) → c_locks c !! home c k = None →
  shards (c_store c) !! home c k = Some sp → shard_inv sp' → data sp'.1 ⊆ delete k (data sp.1) →
  data sp'.1 !! k = None → room sp'.1 (len k + len v) → good (made_room c t k v exp sp').
Proof.
  intros Hg Ht Hl Hsp Hinv' Hsub Hk Hr.
  eapply (good_step (home c k) c _ t); [done|split; simpl; [done| |]|by left| |done..| | |].
  - intros j Hj. by rewrite list_lookup_insert_ne.
  - intros j Hj. by rewrite lookup_insert_ne.
  - eapply store_ok_shard; [apply Hg|done|done|]. apply subseteq_dom in Hsub. set_solver.
  - split; [apply lookup_insert_eq|]. exists sp'. split_and!; [|done|done].
    apply list_lookup_insert_eq. by eapply lookup_lt_Some.
  - intros k' v' exp'. by rewrite Ht.
  - right. simpl. rewrite lookup_insert_eq. eauto 10.
Qed.

(** The map that goes with it: the same, but for the evicted keys. *)
Lemma made_room_sim c a m t k v exp sp sp' :
  sim c a → c_calls c !! t = Some (PSetLock k v exp) → shards (c_store c) !! home c k = Some sp →
  good (made_room c t k v exp sp') → unlimited (with_shard (c_store c) (home c k) sp') ∨ limited →
  (∀ k', k' ≠ k → home c k' = home c k → data sp'.1 !! k' = m !! k') →
  (∀ k', home c k' ≠ home c k → m !! k' = a_map a !! k') →
  sim (made_room c t k v exp sp') (mkAState m (a_now a) (a_calls a)).
Proof.
  intros Hs Ht Hsp Hg' Hu Hin Hout. destruct (sim_status _ _ _ _ Hs Ht) as (st & Ha & Hm).
  split; [done|done|apply Hs| |].
  - intros k'. simpl. destruct (decide (k' = k)) as [->|Hne].
    { left. exists t, v, exp. apply lookup_insert_eq. }
    rewrite (view_with_shard c k sp) by (done || apply Hs). case_decide as Hh; [right; by apply Hin|].
    rewrite Hout by done. destruct (s_map _ _ Hs k') as [Hheld|?]; [left|by right].
    by apply (held_goto c t (PSetLock k v exp)).
  - intros t'. simpl. rewrite <-(insert_id (a_calls a) t _ Ha). apply matches_insert; [apply Hs|done].
Qed.

Lemma unheld_data c a k sp k' :
  sim c a → c_locks c !! home c k = None → shards (c_store c) !! home c k = Some sp →
  home c k' = home c k → data sp.1 !! k' = a_map a !! k'.
Proof.
  intros Hs Hl Hsp Hh. destruct (s_map _ _ Hs k') as [Hheld|<-]; [|by rewrite (view_home c k sp)].
  apply (unlocked_not_held c k k') in Hheld; [done|apply Hs|done|done].
Qed.

Lemma sim_made_room c a t k v exp sp sp' :
  sim c a → c_calls c !! t = Some (PSetLock k v exp) → c_locks c !! home c k = None →
  shards (c_store c) !! home c k = Some sp →
  set_make_room (ord (c_loops c)) k (len k + len v) sp = (true, sp') →
  ∃ a', asteps limited a [] a' ∧ sim (made_room c t k v exp sp') a'.
Proof.
  intros Hs Ht Hl Hsp E. pose proof (s_good _ _ Hs) as Hg.
  assert (shard_inv sp) as Hinv by (by eapply so_shard; [apply Hg|]).
  pose proof (set_make_room_spec (ord (c_loops c)) k (len k + len v) sp (Hord _) Hinv) as Hroom.
  rewrite E in Hroom. destruct Hroom as (Hinv' & Hb & Hsub & Hk & Hr). rewrite <-Hb in Hr.
  pose proof (made_room_good c t k v exp sp sp' Hg Ht Hl Hsp Hinv' Hsub Hk Hr) as Hg'.
  destruct (s_budget _ _ Hs) as [Hu|Hlim].
  - exists a. split; [constructor|]. assert (budget sp.1 = 0) as Hb0 by (by eapply unlimited_shard).
    destruct (set_make_room_unlimited (ord (c_loops c)) k (len k + len v) sp Hb0) as (sp2 & E2 & Hd2).
    rewrite E in E2. injection E2 as <-. destruct a as [m now calls].
    eapply (made_room_sim c (mkAState m now calls) m); [done..| | |done].
    + left. apply unlimited_step; [done|by rewrite Hb].
    + intros k' Hne Hh. rewrite Hd2, lookup_delete_ne by done. by apply (unheld_data c _ k sp k' Hs).
  - eexists (mkAState _ (a_now a) (a_calls a)). split.
    { apply asteps_one, a_evict; [done|].
      apply (map_filter_subseteq (λ '(k', _), home c k' ≠ home c k ∨ k' = k ∨ is_Some (data sp'.1 !! k'))). }
    eapply made_room_sim; [done..|by right| |].
    + intros k' Hne Hh. apply option_eq. intros r. rewrite map_lookup_filter_Some.
      rewrite <-(unheld_data c a k sp k') by done. split.
      * intros Hr'. split; [|naive_solver]. eapply lookup_weaken in Hr'; [|exact Hsub].
        by rewrite lookup_delete_ne in Hr'.
      * intros [Hr' [?|[?|[r' Hr2]]]]; [done..|]. rewrite Hr2. eapply lookup_weaken in Hr2; [|exact Hsub].
        rewrite lookup_delete_ne in Hr2 by done. congruence.
    + intros k' Hh. apply option_eq. intros r. rewrite map_lookup_filter_Some. naive_solver.
Qed.

(** A change of the shard of [k] that [t] completes its call with, the lock (which
    it may have held) free afterwards. *)
Lemma sim_finish c a t p k r sp sp' m :
  sim c a → c_calls c !! t = Some p →
  (if storing p then ∃ v exp, p = PSetStore k v exp else c_locks c !! home c k = None) →
  shards (c_store c) !! home c k = Some sp → shard_inv sp' →
  dom (data sp'.1) ⊆ {[k]} ∪ dom (data sp.1) → budget sp'.1 = budget sp.1 →
  (∀ k', k' ≠ k → data sp'.1 !! k' = data sp.1 !! k' ∧ m !! k' = a_map a !! k') → m !! k = data sp'.1 !! k →
  sim (goto t (PDone r) (with_locks (with_store c (with_shard (c_store c) (home c k) sp')) (delete (home c k) (c_locks c))))
      (a_set a t (Answered r) m).
Proof.
  intros Hs Ht Hlock Hsp Hinv' Hdom Hb Hother Hk. pose proof (s_good _ _ Hs) as Hg.
  assert (c_locks c !! home c k = None ∨ c_locks c !! home c k = Some (Some t)) as Hl.
  { destruct p; simpl in *; try (by left). right. destruct Hlock as (? & ? & [= -> -> ->]). by apply Hg in Ht as [? _]. }
  split.
  - eapply (good_step (home c k) c _ t); [done| |done| |done..| |].
    + apply (at_most_shard c t (home c k) sp' (PDone r)). intros j Hj. by rewrite lookup_delete_ne.
    + by eapply store_ok_shard; [apply Hg|..].
    + intros k' v exp. rewrite Ht. intros [= ->]. simpl in Hlock. naive_solver.
    + left. apply lookup_delete_eq.
  - destruct (s_budget _ _ Hs) as [Hu|?]; [left|by right]. apply unlimited_step; [done|].
    rewrite Hb. by eapply unlimited_shard.
  - apply Hs.
  - intros k'. cbn [c_store goto with_locks with_store].
    rewrite (view_with_shard c k sp) by done. cbn [a_map a_set].
    destruct (decide (k' = k)) as [->|Hne]; [right; by rewrite decide_True|].
    destruct (Hother k' Hne) as [E1 E2]. rewrite E2, E1.
    assert (view (c_store c) k' = if decide (home c k' = home c k) then data sp.1 !! k' else view (c_store c) k') as <-.
    { case_decide; [by apply (view_home c k)|done]. }
    destruct (s_map _ _ Hs k') as [(t' & v & exp & Ht')|?]; [left|by right].
    exists t', v, exp. simpl. rewrite lookup_insert_ne; [done|]. intros <-.
    rewrite Ht in Ht'. simplify_eq/=. naive_solver.
  - simpl. apply matches_insert; [apply Hs|done].
Qed.

(** *** Every step of a call *)

Lemma sim_append c a t p p' r :
  sim c a → c_calls c !! t = Some p →
  match p with PSetLog _ _ _ | PDeleteLog _ => True | _ => False end → storing p' = false →
  (∀ s, matches p s → matches p' s) →
  let '(res, w) := log_append r (kwal (c_store c)) in
  ∃ a', asteps limited a [] a' ∧
    sim (goto t (match res with
                 | Ok _ => p'
                 | Err err => PDone (RUnit (Err err))
                 | Panic => PDone (RUnit Panic)
                 end) (with_store c (with_wal (c_store c) w))) a'.
Proof.
  intros Hs Ht Hp Hp' Hm. pose proof (s_good _ _ Hs) as Hg.
  destruct (sim_status _ _ _ _ Hs Ht) as (st & Ha & Hst).
  pose proof (log_append_returns r (kwal (c_store c))) as Hret.
  destruct (log_append _ _) as [[[]|e|] w]; [| |done].
  - eapply sim_same_silent; try done; [apply Hg|by destruct p].
  - exists (a_set a t (Answered (RUnit (Err e))) (a_map a)). split.
    + eapply asteps_one. destruct p; simpl in *; subst; try done; by eapply a_log_error.
    + eapply sim_same; try done; [apply Hg|by destruct p].
Qed.

Lemma sim_refused c a t k v exp sp sp' :
  sim c a → c_calls c !! t = Some (PSetLock k v exp) → shards (c_store c) !! home c k = Some sp →
  set_make_room (ord (c_loops c)) k (len k + len v) sp = (false, sp') →
  ∃ a', asteps limited a [] a' ∧
    sim (goto t (PDone (RUnit (Err ErrMemoryFull))) (count_loop (with_store c (with_shard (c_store c) (home c k) sp')))) a'.
Proof.
  intros Hs Ht Hsp E. pose proof (s_good _ _ Hs) as Hg.
  destruct (sim_status _ _ _ _ Hs Ht) as (st & Ha & Hst). simpl in Hst. subst st.
  assert (shard_inv sp) as Hinv by (by eapply so_shard; [apply Hg|]).
  pose proof (set_make_room_spec (ord (c_loops c)) k (len k + len v) sp (Hord _) Hinv) as Hroom.
  rewrite E in Hroom. destruct sp as [s pol], sp' as [s' pol'], Hroom as [Es Hinv']. simpl in Es. subst s'.
  destruct (s_budget _ _ Hs) as [Hu|Hlim].
  { exfalso. destruct (set_make_room_unlimited (ord (c_loops c)) k (len k + len v) (s, pol)) as (? & E2 & _);
      [by eapply (unlimited_shard (c_store c))|]. by rewrite E in E2. }
  exists (a_set a t (Answered (RUnit (Err ErrMemoryFull))) (a_map a)). split; [by eapply asteps_one, a_refuse|].
  pose proof (policy_same_data c t k s pol pol' (PDone (RUnit (Err ErrMemoryFull))) Hsp) as [? ? ?].
  eapply sim_same; try done. eapply policy_store_ok; [done..|apply Hinv'].
Qed.

(** A policy hook outside the lock, in a [Get]. *)
Lemma sim_hook c a t p p' k s pol pol' :
  sim c a → c_calls c !! t = Some p → storing p = false → storing p' = false →
  (∀ st, matches p st → matches p' st) →
  shards (c_store c) !! home c k = Some (s, pol) → pol_inv pol' (dom (data s)) →
  ∃ a', asteps limited a [] a' ∧ sim (goto t p' (with_store c (with_shard (c_store c) (home c k) (s, pol')))) a'.
Proof.
  intros Hs Ht Hp Hp' Hm Hsp Hpol. eapply sim_same_silent; try done.
  - by eapply policy_same_data.
  - eapply policy_store_ok; [apply Hs|done..].
Qed.

Lemma sim_lookup c a t k sp :
  sim c a → c_calls c !! t = Some (PGetLookup k) → c_locks c !! home c k = None →
  shards (c_store c) !! home c k = Some sp →
  ∃ a', asteps limited a [] a' ∧ sim (goto t (PGetExpiry k (data sp.1 !! k)) c) a'.
Proof.
  intros Hs Ht Hl Hsp. destruct (sim_status _ _ _ _ Hs Ht) as (st & Ha & Hst). simpl in Hst. subst st.
  exists (a_set a t (Reading (a_map a !! k)) (a_map a)). split; [by apply asteps_one, a_read|].
  eapply sim_same; try done; [apply Hs|]. simpl. by rewrite (unheld_data c a k sp).
Qed.

Lemma sim_expiry c a t k r :
  sim c a → c_calls c !! t = Some (PGetExpiry k r) →
  ∃ a', asteps limited a [] a' ∧
    sim (goto t (match r with
                 | Some record =>
                     if expiredAt record <? c_now c then PDone (RValue (Err ErrKeyNotFound))
                     else PGetAfter k (make_copy (len (value record)) (value record))
                 | None => PDone (RValue (Err ErrKeyNotFound))
                 end) c) a'.
Proof.
  intros Hs Ht. destruct (sim_status _ _ _ _ Hs Ht) as (st & Ha & Hst). simpl in Hst. subst st.
  exists (a_set a t (Answered (RValue (read_record (a_now a) r))) (a_map a)). split; [by apply asteps_one, a_judge|].
  rewrite (s_now _ _ Hs).
  eapply sim_same; try done; [apply Hs|..]; destruct r as [r|]; simpl; try done;
    destruct (_ <? _); simpl; try done. by rewrite make_copy_id.
Qed.

(** The second step of a [Set] under the lock. *)
Lemma sim_store c a t k v exp sp :
  sim c a → c_calls c !! t = Some (PSetStore k v exp) → shards (c_store c) !! home c k = Some sp →
  ∃ a', asteps limited a [] a' ∧
    sim (goto t (PDone (RUnit (Ok ()))) (with_locks (with_store c (with_shard (c_store c) (home c k)
           (set_store k (make_copy (len v) v) (len k + len v) exp (c_now c) sp))) (delete (home c k) (c_locks c)))) a'.
Proof.
  intros Hs Ht Hsp. destruct (sim_status _ _ _ _ Hs Ht) as (st & Ha & Hst). simpl in Hst. subst st.
  pose proof (s_good _ _ Hs) as Hg. pose proof (g_calls _ Hg _ _ Ht) as (_ & sp0 & Hsp0 & Hk & _). simplify_eq.
  exists (a_set a t (Answered (RUnit (Ok ()))) (<[k := mkRecord v (a_now a) exp]> (a_map a))).
  split; [by eapply asteps_one, a_do_set|]. rewrite make_copy_id.
  eapply sim_finish; [done|done|simpl; eauto|done|apply set_store_spec|..].
  - by eapply so_shard; [apply Hg|].
  - done.
  - rewrite set_store_data. set_solver.
  - apply set_store_bytes.
  - intros k' Hne. by rewrite set_store_data, !lookup_insert_ne.
  - by rewrite set_store_data, !lookup_insert_eq, (s_now _ _ Hs).
Qed.

Lemma goto_unlocked c t p i : c_locks c !! i = None →
  goto t p (with_locks c (delete i (c_locks c))) = goto t p c.
Proof. intros. unfold goto, with_locks. simpl. by rewrite delete_id. Qed.

Lemma sim_delete c a t k sp :
  sim c a → c_calls c !! t = Some (PDeleteLock k) → c_locks c !! home c k = None →
  shards (c_store c) !! home c k = Some sp →
  ∃ a', asteps limited a [] a' ∧
    sim (goto t (PDone (RUnit (delete_locked k sp).1))
           (with_store c (with_shard (c_store c) (home c k) (delete_locked k sp).2))) a'.
Proof.
  intros Hs Ht Hl Hsp. destruct (sim_status _ _ _ _ Hs Ht) as (st & Ha & Hst). simpl in Hst. subst st.
  eexists. split; [by apply asteps_one, a_do_delete|].
  rewrite <-(unheld_data c a k sp k) by done. rewrite <-(goto_unlocked _ _ _ (home c k)) by done.
  assert (shard_inv sp) as Hinv by (by eapply so_shard; [apply Hs|]).
  unfold delete_locked. destruct (data sp.1 !! k) as [rec|] eqn:Ek; simpl.
  - destruct (remove_entry_spec k rec sp Hinv Ek) as (Hinv' & Hd & Hb).
    eapply sim_finish; [done|done|done|done|done| |done| |]; rewrite ?Hd; [set_solver| |].
    + intros k' Hne. by rewrite !lookup_delete_ne.
    + by rewrite !lookup_delete_eq.
  - eapply sim_finish; [done|done|done|done|done|set_solver|done| |].
    + intros k' Hne. by rewrite !lookup_delete_ne.
    + by rewrite lookup_delete_eq.
Qed.

Lemma sim_call c a t p c' :
  sim c a → c_calls c !! t = Some p → run_call ord c t p = Some c' →
  ∃ a', asteps limited a [] a' ∧ sim c' a'.
Proof.
  intros Hs Ht. pose proof (s_good _ _ Hs) as Hg.
  destruct p as [k v exp|k v exp|k v exp|k|k|k r|k v|k|k|r]; unfold run_call.
  - pose proof (sim_append c a t _ (PSetLock k v exp) (set_record k v exp) Hs Ht I eq_refl) as Hgo.
    destruct (log_append _ _) as [res w]. intros [= <-]. by apply Hgo.
  - destruct (at_shard_ok c k Hg) as (sp & Hsp & _ & ->). destruct (c_locks c !! home c k) eqn:El; [done|].
    destruct (set_make_room _ _ _ _) as [[] sp'] eqn:Er; intros [= <-]; [by eapply sim_made_room|by eapply sim_refused].
  - destruct (at_shard_ok c k Hg) as (sp & Hsp & _ & ->). intros [= <-]. by apply sim_store.
  - destruct (at_shard_ok c k Hg) as ([s pol] & Hsp & [_ Hpol] & ->). intros [= <-].
    by eapply sim_hook; [..|apply BeforeRead_law].
  - destruct (at_shard_ok c k Hg) as (sp & Hsp & _ & ->). destruct (c_locks c !! home c k) eqn:El; [done|].
    intros [= <-]. by apply sim_lookup.
  - intros [= <-]. by apply sim_expiry.
  - destruct (at_shard_ok c k Hg) as ([s pol] & Hsp & [_ Hpol] & ->). intros [= <-].
    by eapply sim_hook; [..|apply AfterRead_law].
  - pose proof (sim_append c a t _ (PDeleteLock k) (delete_record k) Hs Ht I eq_refl) as Hgo.
    destruct (log_append _ _) as [res w]. intros [= <-]. by apply Hgo.
  - destruct (at_shard_ok c k Hg) as (sp & Hsp & _ & ->). destruct (c_locks c !! home c k) eqn:El; [done|].
    pose proof (sim_delete c a t k sp Hs Ht El Hsp) as Hgo.
    destruct (delete_locked k sp) as [res sp']. intros [= <-]. apply Hgo.
  - done.
Qed.

(** *** The steps of the sweeper *)

Lemma good_sweep i c c' :
  good c → at_most i c c' → (c_locks c !! i = None ∨ c_locks c !! i = Some None) →
  store_ok (c_store c') → c_calls c' = c_calls c → sweeper_ok c' →
  (∀ now j es, c_sweeper c = SEntries now j es → j = i) →
  (c_locks c' !! i = None ∨ c_locks c' !! i = Some None ∧ ∃ now es, c_sweeper c' = SEntries now i es) →
  good c'.
Proof.
  intros [H1 H2 H3 H4] Ham Hi Hok Hcalls Hsw Hmine Hlock. split; [done| |done|].
  - intros t p. rewrite Hcalls. intros Ht. eapply pc_ok_frame; [done| |by apply H2]. naive_solver.
  - intros j o Hj. destruct (decide (j = i)) as [->|Hne].
    + destruct Hlock as [Hl|[Hl ?]]; rewrite Hj in Hl; simplify_eq. done.
    + rewrite (am_locks _ _ _ Ham _ Hne) in Hj. apply H4 in Hj. unfold home. rewrite Hcalls, (am_count _ _ _ Ham).
      destruct o; [done|]. destruct Hj as (now & es & Hj). apply Hmine in Hj. by subst.
Qed.

Lemma sim_sweeper_same c c' a :
  sim c a → good c' → c_store c' = c_store c → c_calls c' = c_calls c → c_now c' = c_now c →
  ∃ a', asteps limited a [] a' ∧ sim c' a'.
Proof.
  intros Hs Hg Hst Hcalls Hnow. exists a. split; [constructor|]. split; [done|..].
  - rewrite Hst. apply Hs.
  - rewrite Hnow. apply Hs.
  - intros k. rewrite Hst. unfold held. rewrite Hcalls. apply Hs.
  - rewrite Hcalls. apply Hs.
Qed.

(** The entry is taken out while the sweeper holds the lock. *)
Lemma sim_swept c a now i k r es sp :
  sim c a → c_sweeper c = SEntries now i ((k, r) :: es) → expiredAt r < now →
  shards (c_store c) !! i = Some sp →
  ∃ a', asteps limited a [] a' ∧
    sim (with_store (with_sweeper c (SEntries now i es)) (with_shard (c_store c) i (remove_entry k r sp))) a'.
Proof.
  intros Hs Hsw Hexp Hsp. pose proof (s_good _ _ Hs) as Hg. pose proof (g_sweeper _ Hg) as Hok.
  unfold sweeper_ok in Hok. rewrite Hsw in Hok. destruct Hok as (Hnow & Hl & Hnd & sp0 & Hsp0 & Hes). simplify_eq.
  rewrite fmap_cons in Hnd. apply NoDup_cons in Hnd as [Hnin Hnd].
  assert (data sp.1 !! k = Some r) as Hk by (apply Hes; by left).
  assert (home c k = i) as Hh.
  { eapply so_home; [apply Hg|done|]. by apply elem_of_dom_2 in Hk. }
  destruct (remove_entry_spec k r sp) as (Hinv' & Hd & Hb); [by eapply so_shard; [apply Hg|]|done|]. subst i.
  exists (mkAState (delete k (a_map a)) (a_now a) (a_calls a)). split.
  { apply asteps_one, (a_expire _ a k r); [|rewrite (s_now _ _ Hs); lia].
    destruct (s_map _ _ Hs k) as [(t & v & exp & Ht)|<-]; [|by rewrite (view_home c k sp)].
    apply Hg in Ht as [Hl' _]. congruence. }
  split; [|..|apply Hs].
  - eapply (good_sweep (home c k) c); [done| |by right| |done| |by rewrite Hsw; naive_solver|by right; eauto].
    + split; [done| |done]. intros j Hj. simpl. by rewrite list_lookup_insert_ne.
    + eapply store_ok_shard; [apply Hg|done|done|]. rewrite Hd. set_solver.
    + unfold sweeper_ok. simpl. split_and!; [done..|]. exists (remove_entry k r sp).
      split; [apply list_lookup_insert_eq; by eapply lookup_lt_Some|].
      intros k' r' Hin. rewrite Hd, lookup_delete_ne; [apply Hes; by right|].
      intros <-. apply Hnin. apply list_elem_of_fmap. by exists (k, r').
  - destruct (s_budget _ _ Hs) as [Hu|?]; [left|by right]. apply unlimited_step; [done|].
    rewrite Hb. by eapply unlimited_shard.
  - apply Hs.
  - intros k'. cbn [c_store with_store a_map]. rewrite (view_with_shard c k sp) by done. rewrite Hd.
    destruct (s_map _ _ Hs k') as [?|E]; [by left|right].
    destruct (decide (k' = k)) as [->|Hne]; [by rewrite decide_True, !lookup_delete_eq|].
    rewrite !lookup_delete_ne, <-E by done. case_decide; [by rewrite (view_home c k sp)|done].
Qed.

Lemma sim_sweeper c a c' :
  sim c a → run_sweeper ord c = Some c' → ∃ a', asteps limited a [] a' ∧ sim c' a'.
Proof.
  intros Hs. pose proof (s_good _ _ Hs) as Hg. pose proof (g_sweeper _ Hg) as Hok.
  unfold run_sweeper, sweeper_ok in *. destruct (c_sweeper c) as [|now i|now i [|[k r] es]] eqn:Hsw; [done|..].
  - destruct (shards (c_store c) !! i) as [sp|] eqn:Hsp; [|].
    + destruct (c_locks c !! i) eqn:El; [done|]. intros [= <-]. eapply sim_sweeper_same; try done.
      eapply (good_sweep i c); [done| |by left|apply Hg|done| |by rewrite Hsw|].
      * split; [done|done|]. intros j Hj. simpl. by rewrite lookup_insert_ne.
      * unfold sweeper_ok. simpl. split_and!; [done|apply lookup_insert_eq|eapply visited_nodup, Hord|].
        exists sp. split; [done|]. intros k r. apply visited_elem, Hord.
      * right. simpl. rewrite lookup_insert_eq. eauto.
    + intros [= <-]. eapply sim_sweeper_same; try done. destruct Hg as [H1 H2 H3 H4]. split; try done.
      intros j o Hj. apply H4 in Hj. destruct o; [done|]. rewrite Hsw in Hj. naive_solver.
  - destruct Hok as (Hnow & Hl & _). intros [= <-]. eapply sim_sweeper_same; try done.
    eapply (good_sweep i c); [done| |by right|apply Hg|done|done| |left; apply lookup_delete_eq].
    + split; [done|done|]. intros j Hj. simpl. by rewrite lookup_delete_ne.
    + rewrite Hsw. naive_solver.
  - destruct Hok as (Hnow & Hl & Hnd & sp & Hsp & Hes). rewrite Hsp. destruct (expiredAt r <? now) eqn:Eexp; intros [= <-].
    { eapply sim_swept; [done|done|lia|done]. }
    eapply sim_sweeper_same; try done. rewrite fmap_cons in Hnd. apply NoDup_cons in Hnd as [_ Hnd].
    eapply (good_sweep i c); [done|done|by right|apply Hg|done| |by rewrite Hsw; naive_solver|right; simpl; eauto].
    unfold sweeper_ok. simpl. split_and!; [done..|]. exists sp. split; [done|]. intros k' r' Hin. apply Hes. by right.
Qed.

(** *** Every step, and every run *)

Lemma good_goto c t (q0 : option pc) p' : good c → c_calls c !! t = q0 → (∀ q, q0 = Some q → storing q = false) →
  storing p' = false → good (goto t p' c).
Proof.
  intros [H1 H2 H3 H4] Ht Hp Hp'. split; [done| |done|].
  - intros t' q. simpl. rewrite lookup_insert_Some. intros [[<- <-]|[Hne Ht']]; [by destruct p'|by apply H2].
  - intros i o Hi. apply H4 in Hi. destruct o as [t'|]; [|done]. destruct Hi as (k & v & exp & Ht' & Hh).
    exists k, v, exp. split; [|done]. simpl. rewrite lookup_insert_ne; [done|]. intros ->.
    rewrite Ht in Ht'. by apply Hp in Ht'.
Qed.

Lemma sim_invoke c a t cl : sim c a → c_calls c !! t = None →
  ∃ a', asteps limited a [EInvoke t cl] a' ∧ sim (goto t (first_pc cl) c) a'.
Proof.
  intros Hs Ht. pose proof (s_calls _ _ Hs t) as Hm. rewrite Ht in Hm. inversion Hm as [|Ha]; subst.
  exists (a_set a t (Called cl) (a_map a)). split; [by apply asteps_one, a_invoke|]. split.
  - eapply good_goto; [apply Hs|done|done|by destruct cl].
  - apply Hs.
  - apply Hs.
  - intros k. destruct (s_map _ _ Hs k) as [(t' & v & exp & Ht')|?]; [left|by right].
    exists t', v, exp. simpl. rewrite lookup_insert_ne; [done|]. intros ->. by rewrite Ht in Ht'.
  - apply matches_insert; [apply Hs|by destruct cl].
Qed.

Lemma sim_return c a t r : sim c a → c_calls c !! t = Some (PDone r) →
  ∃ a', asteps limited a [EReturn t r] a' ∧
    sim (mkConf (c_store c) (c_now c) (c_locks c) (delete t (c_calls c)) (c_sweeper c) (c_loops c)) a'.
Proof.
  intros Hs Ht. destruct (sim_status _ _ _ _ Hs Ht) as (st & Ha & Hst). simpl in Hst. subst st.
  eexists. split; [by apply asteps_one, a_return|]. pose proof (s_good _ _ Hs) as [H1 H2 H3 H4]. split.
  - split; [done| |done|].
    + intros t' q. simpl. rewrite lookup_delete_Some. intros [_ Ht']. by apply H2.
    + intros i o Hi. apply H4 in Hi. destruct o as [t'|]; [|done]. destruct Hi as (k & v & exp & Ht' & Hh).
      exists k, v, exp. split; [|done]. simpl. rewrite lookup_delete_ne; [done|]. intros ->. congruence.
  - apply Hs.
  - apply Hs.
  - intros k. destruct (s_map _ _ Hs k) as [(t' & v & exp & Ht')|?]; [left|by right].
    exists t', v, exp. simpl. rewrite lookup_delete_ne; [done|]. intros ->. congruence.
  - intros t'. simpl. destruct (decide (t = t')) as [->|Hne].
    + rewrite !lookup_delete_eq. constructor.
    + rewrite !lookup_delete_ne by done. apply Hs.
Qed.

Lemma sim_tick c a now : sim c a → c_now c ≤ now →
  ∃ a', asteps limited a [ETick now] a' ∧
    sim (mkConf (c_store c) now (c_locks c) (c_calls c) (c_sweeper c) (c_loops c)) a'.
Proof.
  intros Hs Hnow. eexists. split; [apply asteps_one, a_tick; rewrite (s_now _ _ Hs); done|].
  pose proof (s_good _ _ Hs) as [H1 H2 H3 H4]. split; [|apply Hs|done|apply Hs|apply Hs].
  split; [done|done| |done]. unfold sweeper_ok in *. simpl.
  destruct (c_sweeper c); [done|lia|]. destruct H3 as (?&?&?&?). split_and!; [lia|done..].
Qed.

Lemma sim_step c a act es c' :
  sim c a → step ord c act = Some (es, c') → ∃ a', asteps limited a es a' ∧ sim c' a'.
Proof.
  intros Hs. destruct act as [t cl|t|t|now| |]; simpl.
  - destruct (c_calls c !! t) eqn:Ht; [done|]. intros [= <- <-]. by apply sim_invoke.
  - destruct (c_calls c !! t) as [p|] eqn:Ht; [|done]. simpl. destruct (run_call ord c t p) eqn:E; [|done].
    intros [= <- <-]. by eapply sim_call.
  - destruct (c_calls c !! t) as [[]|] eqn:Ht; try done. intros [= <- <-]. by apply sim_return.
  - destruct (c_now c <=? now) eqn:E; [|done]. intros [= <- <-]. apply sim_tick; [done|lia].
  - destruct (c_sweeper c) eqn:Hsw; try done. intros [= <- <-]. eapply sim_sweeper_same; try done.
    pose proof (s_good _ _ Hs) as [H1 H2 H3 H4].
    split; try done; [unfold sweeper_ok; simpl; lia|].
    intros i o Hi. apply H4 in Hi. destruct o; [done|]. rewrite Hsw in Hi. naive_solver.
  - destruct (run_sweeper ord c) eqn:E; [|done]. intros [= <- <-]. by eapply sim_sweeper.
Qed.

Lemma sim_run acts : ∀ c a es c',
  sim c a → run ord c acts = Some (es, c') → ∃ a', asteps limited a es a' ∧ sim c' a'.
Proof.
  induction acts as [|act acts IH]; intros c a es c' Hs; simpl.
  { intros [= <- <-]. exists a. split; [constructor|done]. }
  destruct (step ord c act) as [[es1 c1]|] eqn:E1; [|done]. simpl.
  destruct (run ord c1 acts) as [[es2 c2]|] eqn:E2; [|done]. simpl. intros [= <- <-].
  destruct (sim_step _ _ _ _ _ Hs E1) as (a1 & H1 & Hs1).
  destruct (IH _ _ _ _ Hs1 E2) as (a2 & H2 & Hs2). exists a2. split; [by eapply asteps_app|done].
Qed.

Lemma sim_start kv now m : store_ok kv → unlimited kv ∨ limited → (∀ k, view kv k = m !! k) →
  sim (start kv now) (mkAState m now ∅).
Proof.
  intros Hok Hu Hv. split; [|done|done|by right|].
  - split; [done|..]; [intros t p; simpl; by rewrite lookup_empty|done|intros i o; simpl; by rewrite lookup_empty].
  - intros t. simpl. rewrite !lookup_empty. constructor.
Qed.
End good.
