(* ===== verification/Logs.v ===== *)
(** * The two kinds of log behind the store's interface

    [WalWriter]'s log meets what [Store] asks of a log: in modes [always] and
    [none] with the file system at hand, in mode [interval] with the flusher. *)

From S2P Require Import Prelude GoLang WalRecord Os WalWriter Store.

(** ** Modes [always] and [none] *)

Record FileLog := mkFileLog { fl_wal : WAL; fl_world : World }.

#[export] Instance FileLog_Log : Log FileLog := λ r fl,
  let '(res, w) := append (fl_wal fl) r (fl_world fl) in (res, mkFileLog (fl_wal fl) w).

Lemma file_Write_returns h b w : returns (file_Write h b w).1.
Proof.
  unfold file_Write. destruct (handle_file h w) as [[i f]|]; [|done].
  by destruct (next_fault w) as [[?|] ?].
Qed.

Lemma file_Sync_returns h w : returns (file_Sync h w).1.
Proof.
  unfold file_Sync, with_fault. destruct (handle_file h w) as [[i f]|]; [|done].
  by destruct (next_fault w) as [[?|] ?].
Qed.

Lemma append_returns l r w : returns (append l r w).1.
Proof.
  unfold append, lift, mbind, io_bind. rewrite encode_bytes.
  pose proof (file_Write_returns (wfile l) (record_bytes r) w) as Hw.
  destruct (file_Write _ _ w) as [[]?]; [|done..]. case_bool_decide; [|done]. apply file_Sync_returns.
Qed.

#[export] Program Instance FileLog_Laws : LogLaws FileLog := {
  logged fl rs := ∃ f, log_at (fl_wal fl) (fl_world fl) f ∧ cached f = log_bytes rs }.
Next Obligation.
  intros r [l w] rs (f & Hl & Hc). simpl in *. unfold log_append, FileLog_Log. simpl.
  destruct (append l r w) as [res w'] eqn:E.
  destruct (append_cases _ _ _ _ _ _ Hl E) as [[-> Hl']|(e & n & -> & _)]; [|done].
  eexists. split; [done|]. simpl. unfold log_bytes in *. rewrite fmap_app, concat_app, Hc. simpl.
  by rewrite app_nil_r.
Qed.
Next Obligation.
  intros r [l w]. unfold log_append, FileLog_Log. simpl.
  pose proof (append_returns l r w). by destruct (append l r w).
Qed.

(** ** Mode [interval]

    [w.writeCh <- buf]: when the channel is full the sender waits, and the flusher
    takes a record first; on an unbuffered channel it takes this one. *)
Definition interval_append (r : wal.Record) (s : Sys) : go () * Sys :=
  match wal.encode r with
  | Ok buf =>
      (Ok (),
       if len (writeCh (flusher s)) <? MaxBatchSize (options (swal s)) * 2 then send s buf
       else match writeCh (flusher s) with
            | [] => receive s buf []
            | data :: rest => send (receive s data rest) buf
            end)
  | Err e => (Err e, s)
  | Panic => (Panic, s)
  end.

#[export] Instance Sys_Log : Log Sys := interval_append.

Lemma receive_fields s data rest :
  running (flusher (receive s data rest)) = running (flusher s) ∧
  writeCh (flusher (receive s data rest)) = rest ∧ swal (receive s data rest) = swal s.
Proof.
  unfold receive, flush. cbn [flusher batch swal]. destruct (_ <=? _); [|done]. by case_bool_decide.
Qed.

(** The wait is made of steps of the state machine. *)
Lemma interval_append_run r s :
  running (flusher s) = true → len (writeCh (flusher s)) ≤ Z.max 0 (MaxBatchSize (options (swal s)) * 2) →
  ∃ s', interval_append r s = (Ok (), s') ∧ run s [r] s' ∧ running (flusher s') = true ∧
    swal s' = swal s ∧ len (writeCh (flusher s')) ≤ Z.max 0 (MaxBatchSize (options (swal s)) * 2).
Proof.
  intros Hrun Hcap. unfold interval_append. rewrite encode_bytes. eexists. split; [done|].
  destruct (_ <? _) eqn:E; [|destruct (writeCh (flusher s)) as [|data rest] eqn:Ech].
  - split_and!; [|done|done|simpl; len_lia].
    apply (run_append s s _ []); [constructor|]. apply step_send; [apply encode_bytes|lia].
  - destruct (receive_fields s (record_bytes r) []) as (-> & -> & ->).
    split_and!; [|done|done|len_lia].
    apply (run_append s s _ []); [constructor|]. apply step_handoff; [apply encode_bytes|done..].
  - destruct (receive_fields s data rest) as (E1 & E2 & E3).
    revert Hcap E. rewrite len_cons. intros Hcap E.
    split_and!; [|simpl; by rewrite E1|done|simpl; rewrite E2; len_lia].
    apply (run_append s (receive s data rest) _ []).
    + apply (run_internal s s); [constructor|]. by apply step_receive.
    + apply step_send; [apply encode_bytes|]. rewrite E2, E3. pose proof (len_nonneg rest). lia.
Qed.

Lemma run_fifo l f0 rs0 s rs s' : fifo l f0 rs0 s → run s rs s' → fifo l f0 (rs0 ++ rs) s'.
Proof.
  intros Hf Hr. induction Hr as [s|s s' s'' rs _ IH Hs|s s' s'' rs r _ IH Hs].
  - by rewrite app_nil_r.
  - rewrite <-(app_nil_r (rs0 ++ rs)). by apply (fifo_step _ _ _ _ Internal s'' (IH Hf)).
  - rewrite app_assoc. by apply (fifo_step _ _ _ _ (Appended r) s'' (IH Hf)).
Qed.

#[export] Program Instance Sys_Laws : LogLaws Sys := {
  logged s rs := ∃ l f0 rs0 rs1, rs = rs0 ++ rs1 ∧ cached f0 = log_bytes rs0 ∧ fifo l f0 rs1 s ∧
    running (flusher s) = true ∧ len (writeCh (flusher s)) ≤ Z.max 0 (MaxBatchSize (options l) * 2) }.
Next Obligation.
  intros r s rs (l & f0 & rs0 & rs1 & -> & Hc & Hf & Hrun & Hcap).
  rewrite <-(fifo_wal _ _ _ _ Hf) in Hcap.
  destruct (interval_append_run r s Hrun Hcap) as (s' & E & Hr & Hrun' & Ew & Hcap').
  unfold log_append, Sys_Log. rewrite E. rewrite (fifo_wal _ _ _ _ Hf) in Hcap'.
  exists l, f0, rs0, (rs1 ++ [r]). split_and!; [by rewrite app_assoc|done|by eapply run_fifo|done|done].
Qed.
Next Obligation.
  intros r s. unfold log_append, Sys_Log, interval_append. by rewrite encode_bytes.
Qed.
