(* ===== verification/StoreProps.v ===== *)
(** * The properties of the store

    For the store as the program builds it: a policy picked by name, and a log that
    keeps the interface of [Store]; compaction and the concrete runs use the log of
    modes [always] and [none]. *)

From S2P Require Import Prelude GoLang WalRecord Os WalWriter Shard Eviction.
From S2P Require Import Store Recovery StoreSpec Logs.

(** ** [KVStore.Compact] and [KVStore.Close] on a file log *)

Definition KVStore_Compact {P} (ord : nat → order) (kv : KVStore P FileLog) (now : Z)
    : go () * KVStore P FileLog :=
  let fl := kwal kv in
  match Compact (fl_wal fl) (write_all (snapshot_records ord kv now)) (fl_world fl) with
  | (Ok l, w) => (Ok (), with_wal kv (mkFileLog l w))
  | (Err e, w) => (Err e, with_wal kv (mkFileLog (fl_wal fl) w))
  | (Panic, w) => (Panic, with_wal kv (mkFileLog (fl_wal fl) w))
  end.

Definition KVStore_Close {P} (kv : KVStore P FileLog) : go () * KVStore P FileLog :=
  let '(res, w) := Close (fl_wal (kwal kv)) (fl_world (kwal kv)) in
  (res, with_wal kv (mkFileLog (fl_wal (kwal kv)) w)).

(** ** A store to try things on *)

Definition any_order : nat → order := λ _ _ m, map_to_list m.

Lemma any_order_ok : orders_ok any_order.
Proof. intros i n m. reflexivity. Qed.

Definition ex_log : FileLog := mkFileLog (ex_wal SyncAlways) (ex_world []).

Lemma ex_logged : logged ex_log [].
Proof. exists (mkFile [] []). split; [apply ex_log_at|reflexivity]. Qed.

Definition ex_opts (name : gostring) (maxMemory : Z) : StoreOptions AnyPolicy :=
  mkStoreOptions 2 1000 maxMemory (ByName name).

Definition or_else {A} (d : A) (m : go A) : A := match m with Ok a => a | _ => d end.

Definition ex_store (name : gostring) (maxMemory : Z) : KVStore AnyPolicy FileLog :=
  or_else (mkKVStore [] ex_log 0 0) (NewKVStore any_order wal.Missing (Ok ex_log) (ex_opts name maxMemory) 0).

Lemma ex_store_ok name maxMemory : store_ok (ex_store name maxMemory).
Proof.
  destruct (NewKVStore_spec any_order wal.Missing [] ex_log (ex_opts name maxMemory) 0) as (kv & E & Hok & _).
  - apply any_order_ok.
  - split; reflexivity.
  - apply ByName_inv.
  - by left.
  - unfold ex_store. by rewrite E.
Qed.

Section claims.
Context {W : Type} {LW : Log W} {LL : LogLaws W}.

(** A store built by [NewKVStore] from any complete log, with any of the
    policies, keeps its invariant under every sequence of sets, gets, deletes and
    sweeps, with or without log errors: each key is in the shard its hash picks, the
    byte counter of each shard is the sum of its entries' sizes, and the policy's
    bookkeeping lists exactly the shard's keys. *)
Lemma store_invariant ord file rs (w : W) name count ttl maxMemory now os :
  orders_ok ord → 0 < count < 2 ^ 32 → holds file rs →
  ∃ kv, NewKVStore ord file (Ok w) (mkStoreOptions count ttl maxMemory (ByName name)) now = Ok kv ∧
    store_ok (run_ops ord kv os).2.
Proof.
  intros Hord Hc Hf.
  destruct (NewKVStore_spec ord file rs w (mkStoreOptions count ttl maxMemory (ByName name)) now)
    as (kv & E & Hok & _); [done..|apply ByName_inv|done|].
  exists kv. split; [done|]. by apply run_ops_ok.
Qed.

(** An empty store is within its budget. *)
Lemma empty_within (kv : KVStore AnyPolicy W) count maxMemory :
  store_ok kv → 0 < count → 0 ≤ maxMemory → (∀ k, view kv k = None) →
  (∀ i sp, shards kv !! i = Some sp → budget sp.1 = if 0 <? maxMemory then maxMemory ÷ count else 0) →
  ∀ i sp, shards kv !! i = Some sp → budget sp.1 = maxMemory ÷ count ∧ within sp.1.
Proof.
  intros Hok Hc Hm Hview Hb i sp Hi. assert (budget sp.1 = maxMemory ÷ count) as Hbi.
  { rewrite (Hb i sp Hi). destruct (0 <? maxMemory) eqn:E0; [done|].
    replace maxMemory with 0 by lia. by rewrite Z.quot_0_l by lia. }
  assert (data sp.1 = ∅) as Hd.
  { apply map_eq. intros k. rewrite lookup_empty. apply eq_None_not_Some. intros [r Hr].
    assert (shard_index (shardCount kv) k = i) as <- by (eapply so_home; [done..|apply elem_of_dom; eauto]).
    specialize (Hview k). unfold view, view_of in Hview. rewrite Hi in Hview. simpl in Hview. congruence. }
  split; [done|]. split; [rewrite Hbi; apply Z.quot_pos; lia|].
  right; left. destruct (so_shard _ _ Hok _ _ Hi) as [Hs _]. unfold shard_ok in Hs.
  rewrite Hs, Hd, sum_sizes_empty, Hbi. apply Z.quot_pos; lia.
Qed.

(** Memory: in a store that started empty, after any operations, each shard's
    counter is exact and within the shard's budget, unless the shard has no budget
    (total zero, or smaller than the number of shards) or holds a single entry that
    is larger than the whole budget. *)
Lemma memory_bounded ord (w : W) name count ttl maxMemory now os :
  orders_ok ord → 0 < count < 2 ^ 32 → 0 ≤ maxMemory →
  ∃ kv, NewKVStore ord wal.Missing (Ok w) (mkStoreOptions count ttl maxMemory (ByName name)) now = Ok kv ∧
    ∀ i s p, shards (run_ops ord kv os).2 !! i = Some (s, p) →
      budget s = maxMemory ÷ count ∧ bytes s = sum_sizes (data s) ∧
      (maxMemory < count ∨ bytes s ≤ maxMemory ÷ count ∨ size (data s) = 1%nat).
Proof.
  intros Hord Hc Hm.
  destruct (NewKVStore_spec ord wal.Missing [] w (mkStoreOptions count ttl maxMemory (ByName name)) now)
    as (kv & E & Hok & _ & Hcount & _ & Hview & Hb); [done..|apply ByName_inv|by left|].
  exists kv. split; [done|]. simpl in *.
  pose proof (empty_within kv count maxMemory Hok (proj1 Hc) Hm Hview Hb) as H0.
  intros i s p Hi. pose proof (run_ops_ok ord Hord os kv Hok) as Hok'.
  assert (budget s = maxMemory ÷ count) as Hbs.
  { apply (run_ops_stable ord Hord (λ s, budget s = maxMemory ÷ count) os
      (budget_stable ord Hord (λ b, b = maxMemory ÷ count)) kv Hok) in Hi; [done|].
    intros j sp Hj. by apply (H0 j). }
  assert (within s) as [_ Hw].
  { apply (run_ops_stable ord Hord within os (within_stable ord Hord) kv Hok) in Hi; [done|].
    intros j sp Hj. by apply (H0 j). }
  split_and!; [done|by destruct (so_shard _ _ Hok' _ _ Hi)|].
  rewrite Hbs in Hw. destruct Hw as [H1|H1]; [left|right; done].
  apply Z.quot_small_iff in H1; lia.
Qed.


(** C20.  Recovery: run any operations, in a store without a memory limit that
    started from some log, such that the log accepted every write; then restart from
    what the log holds, at any later time.  The restarted store holds exactly the
    keys the old one held that have not expired, with the same values and expiries. *)
Theorem recovery_restores ord file rs0 (w w' : W) name count ttl now0 now os :
  orders_ok ord → 0 < count < 2 ^ 32 → holds file rs0 → Forall record_ok rs0 → logged w rs0 →
  now0 ≤ now → Forall (op_ok now) os →
  let opts := mkStoreOptions count ttl 0 (ByName name) in
  ∃ kv, NewKVStore ord file (Ok w) opts now0 = Ok kv ∧
    (log_accepts ord kv os →
     ∃ rs kv2, logged (kwal (run_ops ord kv os).2) rs ∧
       NewKVStore ord (wal.Contents (log_bytes rs)) (Ok w') opts now = Ok kv2 ∧
       ∀ k, view kv2 k = view (run_ops ord kv os).2 k ≫= restamp now).
Proof.
  intros Hord Hc Hf Hrs0 Hlog Hnow Hops opts.
  destruct (NewKVStore_spec ord file rs0 w opts now0) as (kv & E & Hok & Hw & _ & _ & Hview & Hb);
    [done..|apply ByName_inv|done|].
  exists kv. split; [done|]. intros Hacc. destruct (run_ops ord kv os) as [res kv1] eqn:Er.
  destruct (run_ops_accepted ord Hord os kv (replayed now0 (stored <$> rs0)) rs0 res kv1) as [Hsim Hl];
    [split; [exact Hok|intros i sp Hi; by apply (Hb i sp)|exact Hview]|by rewrite Hw|done|done|].
  assert (Forall record_ok (rs0 ++ op_records os)) as Hall
    by (apply Forall_app; split; [done|by eapply op_records_ok]).
  destruct (NewKVStore_spec ord (wal.Contents (log_bytes (rs0 ++ op_records os))) (rs0 ++ op_records os)
    w' opts now) as (kv2 & E2 & _ & _ & _ & _ & Hview2 & _); [done..|apply ByName_inv|by right|].
  exists (rs0 ++ op_records os), kv2. split_and!; [done|done|]. intros k. simpl.
  rewrite Hview2, (sim_view _ _ Hsim), <-survivors_lookup, (spec_ops_survivors now os Hops).
  rewrite <-(replayed_later now0 now) by done. unfold replayed. by rewrite fmap_app, foldl_app.
Qed.

(** An entry for [k] of [n] bytes fits in the shard, beside the other keys. *)
Definition fits_shard (s : Shard) (k : key) (n : Z) : Prop :=
  budget s = 0 ∨ sum_sizes (delete k (data s)) + n ≤ budget s.

#[export] Instance fits_shard_dec s k n : Decision (fits_shard s k n).
Proof. unfold fits_shard. apply _. Defined.

(** Which writes memory takes, and when the other keys stay. *)
Lemma set_memory_room ord (kv : KVStore AnyPolicy W) k v exp now sp :
  store_ok kv → shards kv !! shard_index (shardCount kv) k = Some sp →
  let '(res, kv') := set_memory ord kv k v exp now in
  if decide (fits_shard sp.1 k (len k + len v)) then res = Ok () ∧ ∀ k', k' ≠ k → view kv' k' = view kv k'
  else res = match sp.2 with PNoEvict _ => Err ErrMemoryFull | _ => Ok () end.
Proof.
  intros Hok Hsp. unfold set_memory. rewrite make_copy_id.
  destruct (on_shard_ok kv k (set_locked ord k v (len k + len v) exp now) Hok) as (sp1 & Hsp1 & [Hs _] & _ & ->).
  rewrite Hsp in Hsp1. injection Hsp1 as <-. destruct sp as [s p]. cbn [fst snd] in *.
  pose proof (Evict_ok s k Hs) as He. unfold shard_ok in He. rewrite Evict_data in He.
  unfold set_locked, set_make_room. rewrite (taken_out s k).
  destruct (decide (fits_shard s k (len k + len v))) as [Hf|Hf]; unfold fits_shard in Hf; rewrite <-He in Hf.
  - destruct (BeforeWrite_fits ord p (Evict s k) k (len k + len v)) as [p' ->]; [by rewrite Evict_budget|].
    cbn [negb set_store]. split; [done|]. intros k' Hne. rewrite (on_shard_view _ _ _ _ _ Hok Hsp).
    case_decide as Hi; [|done]. simpl.
    by rewrite Evict_data, lookup_insert_ne, lookup_delete_ne, (view_same_shard _ _ _ _ Hsp Hi) by done.
  - pose proof (BeforeWrite_full ord p (Evict s k) k (len k + len v)) as Hfull. rewrite Evict_budget in Hfull.
    destruct (BeforeWrite _ _ _ _ _) as [[ok p'] s']. cbn in Hfull. rewrite Hfull by lia. by destruct p.
Qed.

(** C33.  The outcomes of the operations, errors included.  [SetWithExpiry]: if the log
    refuses the record, its error and no change; if the policy refuses the write,
    [ErrMemoryFull] and no change in memory; otherwise nil, the key has the new value and
    expiry, and any other key is as before unless it was evicted from the same shard of a
    limited store.  When the entry fits in its shard beside the other keys (the old value of
    its own key not counted), it is stored and nothing is evicted, whatever the policy; when
    it does not fit, [NoEvict] refuses it, and the other policies store it.
    [Get] answers the value of a key that is present and not past its
    expiry, [ErrKeyNotFound] otherwise, and changes nothing but the policy's bookkeeping.
    [Delete], when the log accepts the record, removes the key and no other, and reports
    whether it was there. *)
Theorem operation_outcomes ord (kv : KVStore AnyPolicy W) k v exp now :
  orders_ok ord → store_ok kv →
  (let '(res, kv') := SetWithExpiry (ord 0%nat) kv k v exp now in
   let '(lres, w) := log_append (set_record k v exp) (kwal kv) in
   store_ok kv' ∧ kwal kv' = w ∧
   match lres, res with
   | Ok _, Ok _ =>
       view kv' k = Some (mkRecord v now exp) ∧
       ∀ k', k' ≠ k → view kv' k' = view kv k' ∨
         view kv' k' = None ∧ shard_index (shardCount kv) k' = shard_index (shardCount kv) k ∧
         ∃ sp, shards kv !! shard_index (shardCount kv) k = Some sp ∧ budget sp.1 ≠ 0
   | Ok _, Err e => e = ErrMemoryFull ∧ ∀ k', view kv' k' = view kv k'
   | Err e, _ => res = Err e ∧ ∀ k', view kv' k' = view kv k'
   | _, _ => False
   end ∧
   (lres = Ok () → ∀ sp, shards kv !! shard_index (shardCount kv) k = Some sp →
    if decide (fits_shard sp.1 k (len k + len v)) then res = Ok () ∧ ∀ k', k' ≠ k → view kv' k' = view kv k'
    else res = match sp.2 with PNoEvict _ => Err ErrMemoryFull | _ => Ok () end)) ∧
  (let '(res, kv') := Get kv k now in
   store_ok kv' ∧ kwal kv' = kwal kv ∧ (∀ k', view kv' k' = view kv k') ∧
   res = read_record now (view kv k)) ∧
  (let '(res, kv') := Delete kv k in
   let '(lres, w) := log_append (delete_record k) (kwal kv) in
   store_ok kv' ∧ kwal kv' = w ∧
   match lres with
   | Ok _ => (∀ k', view kv' k' = if decide (k' = k) then None else view kv k') ∧
             res = match view kv k with Some _ => Ok () | None => Err ErrKeyNotFound end
   | Err e => res = Err e ∧ ∀ k', view kv' k' = view kv k'
   | Panic => False
   end).
Proof.
  intros Hord Hok. split_and!.
  - unfold SetWithExpiry. pose proof (log_append_returns (set_record k v exp) (kwal kv)) as Hnp.
    destruct (log_append _ _) as [[[]|e|] w]; [|done|done].
    pose proof (λ sp, set_memory_room (ord 0%nat) (with_wal kv w) k v exp now sp Hok) as Hroom.
    destruct (set_memory _ _ _ _ _ _) as [res kv'] eqn:E.
    apply (set_memory_spec _ (with_wal kv w)) in E as (Hok' & Hw & _ & _ & Hres); [|done|apply Hord].
    split_and!; [done|done| |by intros _]. destruct res; done.
  - destruct (Get kv k now) as [res kv'] eqn:E. apply Get_spec in E as (?&?&_&_&?&?); [|done]. done.
  - unfold Delete. pose proof (log_append_returns (delete_record k) (kwal kv)) as Hnp.
    destruct (log_append _ _) as [[[]|e|] w]; [|done|done].
    destruct (on_shard _ _ _) as [res kv'] eqn:E.
    apply delete_memory_spec in E as (?&?&_&_&?&?); done.
Qed.
End claims.

Definition ex_ops : list (op * Z) :=
  [(OSet (str "a") [1] 100, 1); (OSet (str "b") [2;2] 50, 2); (OGet (str "a"), 3); (ODelete (str "a"), 4);
   (OSet (str "a") [3] 200, 5); (OSweep, 60)].

Lemma store_invariant_witness :
  ∃ kv, NewKVStore any_order wal.Missing (Ok ex_log) (mkStoreOptions 2 1000 7 (ByName NameStrict)) 0 = Ok kv ∧
    store_ok (run_ops any_order kv ex_ops).2.
Proof.
  apply (store_invariant any_order wal.Missing [] ex_log NameStrict 2 1000 7 0 ex_ops).
  - apply any_order_ok.
  - split; reflexivity.
  - left. split; reflexivity.
Defined.

Lemma memory_bounded_witness :
  ∃ kv, NewKVStore any_order wal.Missing (Ok ex_log) (mkStoreOptions 2 1000 7 (ByName NameStrict)) 0 = Ok kv ∧
    ∀ i s p, shards (run_ops any_order kv ex_ops).2 !! i = Some (s, p) →
      budget s = 7 ÷ 2 ∧ bytes s = sum_sizes (data s) ∧
      (7 < 2 ∨ bytes s ≤ 7 ÷ 2 ∨ size (data s) = 1%nat).
Proof.
  apply (memory_bounded any_order ex_log NameStrict 2 1000 7 0 ex_ops).
  - apply any_order_ok.
  - split; reflexivity.
  - discriminate.
Defined.


Lemma recovery_restores_witness :
  ∃ kv, NewKVStore any_order wal.Missing (Ok ex_log) (mkStoreOptions 2 1000 0 (ByName NameStrict)) 0 = Ok kv ∧
    (log_accepts any_order kv ex_ops →
     ∃ rs kv2, logged (kwal (run_ops any_order kv ex_ops).2) rs ∧
       NewKVStore any_order (wal.Contents (log_bytes rs)) (Ok ex_log) (mkStoreOptions 2 1000 0 (ByName NameStrict)) 99 = Ok kv2 ∧
       ∀ k, view kv2 k = view (run_ops any_order kv ex_ops).2 k ≫= restamp 99).
Proof.
  apply (recovery_restores any_order wal.Missing [] ex_log ex_log NameStrict 2 1000 0 99 ex_ops).
  - apply any_order_ok.
  - split; reflexivity.
  - left. split; reflexivity.
  - constructor.
  - apply ex_logged.
  - discriminate.
  - repeat (apply Forall_cons; split; [vm_compute; intuition discriminate|]). apply Forall_nil. exact I.
Defined.

(** The log of the example accepts all of it. *)
Example ex_accepted : log_accepts any_order (ex_store NameStrict 0) ex_ops.
Proof.
  unfold ex_ops. cbn [log_accepts op_record].
  split_and!; try (apply Forall_nil; exact I); try (apply Forall_singleton; vm_compute; reflexivity). exact I.
Qed.

Lemma operation_outcomes_witness :
  let kv := ex_store NameStrict 7 in
  (let '(res, kv') := SetWithExpiry (any_order 0%nat) kv (str "a") [1] 100 1 in
   let '(lres, w) := log_append (set_record (str "a") [1] 100) (kwal kv) in
   store_ok kv' ∧ kwal kv' = w ∧
   match lres, res with
   | Ok _, Ok _ =>
       view kv' (str "a") = Some (mkRecord [1] 1 100) ∧
       ∀ k', k' ≠ str "a" → view kv' k' = view kv k' ∨
         view kv' k' = None ∧ shard_index (shardCount kv) k' = shard_index (shardCount kv) (str "a") ∧
         ∃ sp, shards kv !! shard_index (shardCount kv) (str "a") = Some sp ∧ budget sp.1 ≠ 0
   | Ok _, Err e => e = ErrMemoryFull ∧ ∀ k', view kv' k' = view kv k'
   | Err e, _ => res = Err e ∧ ∀ k', view kv' k' = view kv k'
   | _, _ => False
   end ∧
   (lres = Ok () → ∀ sp, shards kv !! shard_index (shardCount kv) (str "a") = Some sp →
    if decide (fits_shard sp.1 (str "a") 2) then res = Ok () ∧ ∀ k', k' ≠ str "a" → view kv' k' = view kv k'
    else res = match sp.2 with PNoEvict _ => Err ErrMemoryFull | _ => Ok () end)) ∧
  (let '(res, kv') := Get kv (str "a") 1 in
   store_ok kv' ∧ kwal kv' = kwal kv ∧ (∀ k', view kv' k' = view kv k') ∧
   res = read_record 1 (view kv (str "a"))).
Proof.
  destruct (operation_outcomes any_order (ex_store NameStrict 7) (str "a") [1] 100 1) as (H1 & H2 & _).
  - apply any_order_ok.
  - apply ex_store_ok.
  - exact (conj H1 H2).
Defined.

(** ** Compaction and recovery *)

(** A world with one file is in order. *)
Lemma world_ok_one p i f h n :
  (i < n)%nat → (h < n)%nat → world_ok (mkWorld {[ p := i ]} {[ i := f ]} {[ h := i ]} n []).
Proof.
  intros. split; cbn.
  - intros n0 j [<- <-]%lookup_singleton_Some. rewrite lookup_singleton_eq. eauto.
  - intros h0 j [<- <-]%lookup_singleton_Some. lia.
  - intros n1 n2 j [<- _]%lookup_singleton_Some [<- _]%lookup_singleton_Some. done.
Qed.

(** An entry the log can hold. *)
Definition entry_ok (k : key) (r : Record) : Prop :=
  len k < 65536 ∧ len (value r) < 2 ^ 32 ∧ - 2 ^ 63 ≤ expiredAt r < 2 ^ 63.

(** C21.  [KVStore.Compact] at time [t], with no fault and nothing running beside it:
    memory is unchanged, and a restart from the compacted log at any later time gives
    exactly the entries in memory that have not expired by then, whatever history the
    log had before. *)
Theorem compaction_preserves ord (kv : KVStore AnyPolicy FileLog) f t now name count ttl maxMemory :
  orders_ok ord → store_ok kv → 0 < count < 2 ^ 32 → t ≤ now →
  (∀ k r, view kv k = Some r → entry_ok k r) →
  world_ok (fl_world (kwal kv)) → faults (fl_world (kwal kv)) = [] →
  log_at (fl_wal (kwal kv)) (fl_world (kwal kv)) f →
  ∃ kv' rs, KVStore_Compact ord kv t = (Ok (), kv') ∧ shards kv' = shards kv ∧ logged (kwal kv') rs ∧
    ∃ kv2, NewKVStore ord (wal.Contents (log_bytes rs)) (Ok (kwal kv'))
             (mkStoreOptions count ttl maxMemory (ByName name)) now = Ok kv2 ∧
      ∀ k, view kv2 k = view kv k ≫= restamp now.
Proof.
  intros Hord Hok Hc Ht Hent Hw Hf Hl. set (rs := snapshot_records ord kv t).
  destruct (Compact_calm _ _ rs _ Hw Hl Hf) as (l' & w' & E & _ & _ & _ & Hl').
  assert (Forall record_ok rs) as Hrs.
  { apply Forall_forall. intros x (k & r & Hv & _ & ->)%snapshot_records_in; [|done..].
    apply Hent in Hv as (?&?&_). split_and!; [done..|by left]. }
  destruct (NewKVStore_spec ord (wal.Contents (log_bytes rs)) rs (mkFileLog l' w')
    (mkStoreOptions count ttl maxMemory (ByName name)) now) as (kv2 & E2 & _ & _ & _ & _ & Hview & _);
    [done..|apply ByName_inv|by right|].
  exists (with_wal kv (mkFileLog l' w')), rs. split_and!; [|done|by eexists|].
  - unfold KVStore_Compact. fold rs. by rewrite E.
  - exists kv2. split; [done|]. intros k. rewrite Hview. apply snapshot_replayed; [done..|].
    intros k0 r Hv. by apply Hent in Hv as (_&_&?).
Qed.

Definition ex_filled : KVStore AnyPolicy FileLog := (run_ops any_order (ex_store NameStrict 0) (take 2 ex_ops)).2.

Lemma ex_store_sim name : simulates ∅ (ex_store name 0).
Proof.
  destruct (NewKVStore_spec any_order wal.Missing [] ex_log (ex_opts name 0) 0)
    as (kv & E & Hok & _ & _ & _ & Hview & Hb); [apply any_order_ok|done|apply ByName_inv|by left|].
  unfold ex_store. rewrite E. split; [exact Hok| |exact Hview]. intros i sp Hi. by apply (Hb i sp).
Qed.

Lemma ex_filled_view k r : view ex_filled k = Some r → entry_ok k r.
Proof.
  unfold ex_filled. destruct (run_ops any_order (ex_store NameStrict 0) (take 2 ex_ops)) as [res kv] eqn:E.
  destruct (run_ops_accepted any_order any_order_ok (take 2 ex_ops) (ex_store NameStrict 0) ∅ [] res kv)
    as [[_ _ Hv] _]; [apply ex_store_sim|apply ex_logged| |done|].
  { cbn [take ex_ops log_accepts op_record]. split_and!; [| |exact I]; apply Forall_singleton; vm_compute; reflexivity. }
  simpl. rewrite Hv. unfold spec_ops, ex_ops. cbn [take foldl spec_op fst snd].
  rewrite !lookup_insert_Some, lookup_empty.
  intros [[<- <-]|[_ [[<- <-]|[_ ?]]]]; [| |done]; vm_compute; intuition discriminate.
Qed.

Lemma compaction_preserves_witness :
  ∃ kv' rs, KVStore_Compact any_order ex_filled 10 = (Ok (), kv') ∧ shards kv' = shards ex_filled ∧
    logged (kwal kv') rs ∧
    ∃ kv2, NewKVStore any_order (wal.Contents (log_bytes rs)) (Ok (kwal kv'))
             (mkStoreOptions 4 1000 0 (ByName NameNoEvict)) 60 = Ok kv2 ∧
      ∀ k, view kv2 k = view ex_filled k ≫= restamp 60.
Proof.
  apply (compaction_preserves any_order ex_filled
           (mkFile (log_bytes (op_records (take 2 ex_ops))) (log_bytes (op_records (take 2 ex_ops))))
           10 60 NameNoEvict 4 1000 0).
  - apply any_order_ok.
  - apply run_ops_ok; [apply any_order_ok|apply ex_store_ok].
  - split; reflexivity.
  - discriminate.
  - apply ex_filled_view.
  - assert (fl_world (kwal ex_filled) = mkWorld {[ ex_path := 0%nat ]}
      {[ 0%nat := mkFile (log_bytes (op_records (take 2 ex_ops))) (log_bytes (op_records (take 2 ex_ops))) ]}
      {[ 1%nat := 0%nat ]} 2 []) as -> by (vm_compute; reflexivity).
    apply world_ok_one; lia.
  - vm_compute. reflexivity.
  - exists 0%nat. vm_compute. repeat split.
Defined.

(** ** Where the log and memory part *)

(** A log that ends inside a record, as a power failure during an append leaves
    it, stops the server from starting: [NewKVStore] reports the error of the replay,
    whatever complete records come before. *)
Lemma torn_log_refuses_start {W} ord rs r n (open : go W) name count ttl maxMemory now :
  0 < count < 2 ^ 32 → Forall record_ok rs → record_ok r → (0 < n < length (record_bytes r))%nat →
  NewKVStore ord (wal.Contents (log_bytes rs ++ take n (record_bytes r))) open
    (mkStoreOptions count ttl maxMemory (ByName name)) now = Err io_ErrUnexpectedEOF.
Proof.
  intros Hc Hrs Hr [Hn Hlt]. apply NewKVStore_replay_error; [done|apply ByName_inv|done..|].
  unfold len. lia.
Qed.

Lemma torn_log_refuses_start_witness :
  NewKVStore any_order (wal.Contents (log_bytes [ex_r1] ++ take 16 (record_bytes ex_r1))) (Ok ex_log)
    (mkStoreOptions 2 1000 0 (ByName NameStrict)) 0 = Err io_ErrUnexpectedEOF.
Proof.
  apply (torn_log_refuses_start any_order [ex_r1] ex_r1 16 (Ok ex_log) NameStrict 2 1000 0 0).
  - split; reflexivity.
  - apply Forall_singleton. eapply Forall_inv, ex_records_ok.
  - eapply Forall_inv, ex_records_ok.
  - vm_compute. lia.
Defined.

(** A write that was refused comes back: with the [noevict] policy a set that
    does not fit is answered [ErrMemoryFull], but its record is already in the log,
    so after a restart the key is there, over the budget. *)
Example rejected_write_reappears :
  ∃ kv d kv2, SetWithExpiry (any_order 0%nat) (ex_store NameNoEvict 4) (str "k") [1;2;3;4;5] 100 1
                = (Err ErrMemoryFull, kv) ∧
    (Get kv (str "k") 2).1 = Err ErrKeyNotFound ∧
    read_name ex_path (fl_world (kwal kv)) = Some d ∧
    NewKVStore any_order (wal.Contents d) (Ok ex_log) (ex_opts NameNoEvict 4) 3 = Ok kv2 ∧
    (Get kv2 (str "k") 4).1 = Ok [1;2;3;4;5].
Proof.
  set (kv := (SetWithExpiry (any_order 0%nat) (ex_store NameNoEvict 4) (str "k") [1;2;3;4;5] 100 1).2).
  set (d := log_bytes [set_record (str "k") [1;2;3;4;5] 100]).
  exists kv, d, (or_else kv (NewKVStore any_order (wal.Contents d) (Ok ex_log) (ex_opts NameNoEvict 4) 3)).
  split_and!; vm_compute; reflexivity.
Qed.

(** Two sets of one key that run at the same time can reach the log in one
    order and memory in the other, since only the second part holds the shard's lock:
    both are acknowledged, readers see one value, a restart gives the other. *)
Example concurrent_sets_diverge :
  let kv := ex_store NameNoEvict 0 in
  let k := str "k" in
  ∃ w1 w2 kv1 kv2 d kv3,
    log_append (set_record k [1] 100) (kwal kv) = (Ok (), w1) ∧
    log_append (set_record k [2] 100) w1 = (Ok (), w2) ∧
    set_memory (any_order 0%nat) (with_wal kv w2) k [2] 100 1 = (Ok (), kv1) ∧
    set_memory (any_order 0%nat) kv1 k [1] 100 1 = (Ok (), kv2) ∧
    (Get kv2 k 2).1 = Ok [1] ∧
    read_name ex_path (fl_world (kwal kv2)) = Some d ∧
    NewKVStore any_order (wal.Contents d) (Ok ex_log) (ex_opts NameNoEvict 0) 3 = Ok kv3 ∧
    (Get kv3 k 4).1 = Ok [2].
Proof.
  intros kv k. set (w1 := (log_append (set_record k [1] 100) (kwal kv)).2).
  set (w2 := (log_append (set_record k [2] 100) w1).2).
  set (kv1 := (set_memory (any_order 0%nat) (with_wal kv w2) k [2] 100 1).2).
  set (kv2 := (set_memory (any_order 0%nat) kv1 k [1] 100 1).2).
  set (d := log_bytes [set_record k [1] 100; set_record k [2] 100]).
  exists w1, w2, kv1, kv2, d, (or_else kv (NewKVStore any_order (wal.Contents d) (Ok ex_log) (ex_opts NameNoEvict 0) 3)).
  split_and!; vm_compute; reflexivity.
Qed.
