(* ===== verification/ConcurrencyProps.v ===== *)
(** * What holds of calls that run at the same time

    The theorems about [Concurrency]: the store is linearizable, keeps its invariant
    and its memory bound at every instant, never blocks a call for good, and its log
    agrees with memory as long as no two writes of one key overlap. *)

From S2P Require Import Prelude GoLang WalRecord Os WalWriter Shard.
From S2P Require Import Eviction Store Recovery StoreSpec Concurrency Logs StoreProps.

(** ** Memory at every instant *)

Section memory.
Context {P : Type} {PP : Policy P} {PL : PolicyLaws P} {W : Type} {LW : Log W} {LL : LogLaws W}.
Context (ord : nat → order) (Hord : orders_ok ord).
Implicit Types (c : conf P W) (sp : Shard * P).

Definition bounded (b : Z) (s : Shard) : Prop := budget s = b ∧ within s.

Lemma bounded_insert b kv i sp :
  all_shards (P:=P) (W:=W) (bounded b) kv → bounded b sp.1 → all_shards (bounded b) (with_shard kv i sp).
Proof. intros Ha Hb j sp'. simpl. intros [(_ & <- & _)|[_ Hj]]%list_lookup_insert_Some; [done|by eapply Ha]. Qed.

Lemma bounded_make_room b j k n sp sp' ok :
  0 ≤ n → shard_inv sp → bounded b sp.1 → set_make_room (ord j) k n sp = (ok, sp') → bounded b sp'.1.
Proof.
  intros Hn Hinv [Hb Hw] E. pose proof (set_make_room_spec (ord j) k n sp (Hord j) Hinv) as Hs. rewrite E in Hs.
  destruct ok; [|by destruct Hs as [-> _]]. destruct Hs as ([Hs _] & Hb' & _ & _ & Hr).
  unfold bounded, within in *. rewrite Hb'. split; [done|]. destruct Hw as [H0 _]. split; [done|].
  destruct Hr as [?|[?|Hnil]]; [by left|right; left; lia|].
  right; left. unfold shard_ok in Hs. by rewrite Hs, Hnil, sum_sizes_empty.
Qed.

Lemma bounded_store b k v exp now sp :
  room sp.1 (len k + len v) → bounded b sp.1 →
  bounded b (set_store k v (len k + len v) exp now sp).1.
Proof.
  intros Hr [Hb [H0 Hw]]. destruct (set_store_bytes k v (len k + len v) exp now sp) as [E1 E2].
  unfold bounded, within. rewrite E1, E2. split_and!; [done|done|].
  destruct Hr as [?|[?|Hnil]]; [by left|right; left; lia|]. right; right.
  by rewrite set_store_data, Hnil, insert_empty, map_size_singleton.
Qed.

Lemma bounded_remove b k r sp :
  shard_inv sp → data sp.1 !! k = Some r → bounded b sp.1 → bounded b (remove_entry k r sp).1.
Proof.
  intros [Hs _] Hk [Hb Hw]. rewrite remove_entry_Evict by done. split; [by rewrite Evict_budget|].
  by apply (st_evict _ _ (within_stable ord Hord)).
Qed.

Lemma bounded_call b c t p c' :
  good c → c_calls c !! t = Some p → run_call ord c t p = Some c' →
  all_shards (bounded b) (c_store c) → all_shards (bounded b) (c_store c').
Proof.
  intros Hg Ht E Hb.
  assert (∀ k sp, shards (c_store c) !! home c k = Some sp → bounded b sp.1) as Hat by (intros k sp; apply Hb).
  destruct p as [k v exp|k v exp|k v exp|k|k|k r|k v|k|k|r]; unfold run_call in E;
    try (destruct (at_shard_ok c k Hg) as (sp & Hsp & Hinv & Heq); rewrite Heq in E; clear Heq).
  - by destruct (log_append _ _) as [[]?]; simplify_eq.
  - destruct (c_locks c !! _); [done|]. destruct (set_make_room _ _ _ _) as [ok sp'] eqn:Er.
    assert (bounded b sp'.1) by (eapply bounded_make_room; [|done|by eapply Hat|done]; len_lia).
    destruct ok; simplify_eq; by apply bounded_insert.
  - simplify_eq. apply bounded_insert; [done|]. rewrite make_copy_id.
    apply (g_calls _ Hg) in Ht as (_ & sp0 & Hsp0 & _ & Hr). simplify_eq.
    apply bounded_store; [done|by eapply Hat].
  - destruct sp as [s pol]. simplify_eq. apply bounded_insert; [done|by apply (Hat k (s, pol))].
  - destruct (c_locks c !! _); [done|]. by simplify_eq.
  - by simplify_eq.
  - destruct sp as [s pol]. simplify_eq. apply bounded_insert; [done|by apply (Hat k (s, pol))].
  - by destruct (log_append _ _) as [[]?]; simplify_eq.
  - destruct (c_locks c !! _); [done|]. unfold delete_locked in E.
    destruct (data sp.1 !! k) as [rec|] eqn:Ek; simplify_eq; apply bounded_insert; try done.
    + apply bounded_remove; [done|done|by eapply Hat].
    + by eapply Hat.
  - done.
Qed.

Lemma bounded_step b c a act es c' :
  sim (True : Prop) c a → step ord c act = Some (es, c') →
  all_shards (bounded b) (c_store c) → all_shards (bounded b) (c_store c').
Proof.
  intros Hs E Hb. pose proof (s_good _ _ _ Hs) as Hg. destruct act as [t cl|t|t|now| |]; simpl in E.
  - by destruct (c_calls c !! t); simplify_eq.
  - destruct (c_calls c !! t) as [p|] eqn:Ht; [|done]. simpl in E.
    destruct (run_call ord c t p) eqn:Er; simplify_eq/=. by eapply bounded_call.
  - by destruct (c_calls c !! t) as [[]|]; simplify_eq.
  - by destruct (_ <=? _); simplify_eq.
  - by destruct (c_sweeper c); simplify_eq.
  - pose proof (g_sweeper _ Hg) as Hok. unfold run_sweeper, sweeper_ok in *.
    destruct (c_sweeper c) as [|now i|now i [|[k r] l]]; [done| | |].
    + by destruct (shards _ !! i); [destruct (c_locks c !! i)|]; simplify_eq/=.
    + by simplify_eq/=.
    + destruct Hok as (_ & _ & _ & sp & Hsp & Hes). rewrite Hsp in E.
      destruct (_ <? _); simplify_eq/=; [|done]. apply bounded_insert; [done|].
      apply bounded_remove; [by eapply so_shard; [apply Hg|]|apply Hes; by left|by eapply Hb].
Qed.

Lemma bounded_run b acts : ∀ c a es c',
  sim (True : Prop) c a → run ord c acts = Some (es, c') →
  all_shards (bounded b) (c_store c) → all_shards (bounded b) (c_store c').
Proof.
  induction acts as [|act acts IH]; intros c a es c' Hs; simpl.
  { by intros [= <- <-]. }
  destruct (step ord c act) as [[es1 c1]|] eqn:E1; [|done]. simpl.
  destruct (run ord c1 acts) as [[es2 c2]|] eqn:E2; [|done]. simpl. intros [= <- <-] Hb.
  destruct (sim_step ord Hord _ _ _ _ _ _ Hs E1) as (a1 & _ & Hs1).
  eapply IH; [done|done|]. by apply (bounded_step b c a act es1 c1).
Qed.
End memory.

(** ** No call waits for ever *)

Section progress.
Context {P : Type} {PP : Policy P} {PL : PolicyLaws P} {W : Type} {LW : Log W} {LL : LogLaws W}.
Context (ord : nat → order) (Hord : orders_ok ord).
Implicit Types (c : conf P W) (t : tid).

(** Steps of goroutines that are already under way. *)
Definition internal (a : action) : bool :=
  match a with Run _ | RunSweeper | Return _ => true | Invoke _ _ | Tick _ | StartSweep => false end.

Definition finishes c t : Prop :=
  ∃ acts r c', Forall internal acts ∧ run ord c acts = Some ([EReturn t r], c').

Abbreviation live c := (∃ a, sim True c a).

Lemma run_app acts1 acts2 c :
  run ord c (acts1 ++ acts2) =
  '(es1, c1) ← run ord c acts1; '(es2, c2) ← run ord c1 acts2; Some (es1 ++ es2, c2).
Proof.
  revert c. induction acts1 as [|act acts1 IH]; intros c; simpl.
  { by destruct (run ord c acts2) as [[]|]. }
  destruct (step ord c act) as [[es c1]|]; [|done]. simpl. rewrite IH.
  destruct (run ord c1 acts1) as [[es1 c2]|]; [|done]. simpl.
  destruct (run ord c2 acts2) as [[es2 c3]|]; [|done]. simpl. by rewrite app_assoc.
Qed.

Lemma finishes_run c acts c' t :
  Forall internal acts → run ord c acts = Some ([], c') → finishes c' t → finishes c t.
Proof.
  intros Hi E (acts' & r & c2 & Hi' & E'). exists (acts ++ acts'), r, c2.
  split; [by apply Forall_app|]. rewrite run_app, E. simpl. by rewrite E'.
Qed.

Lemma run_one c act c' : step ord c act = Some ([], c') → run ord c [act] = Some ([], c').
Proof. simpl. by intros ->. Qed.

Lemma live_step c act es c' : live c → step ord c act = Some (es, c') → live c'.
Proof. intros [a Ha] E. destruct (sim_step ord Hord _ _ _ _ _ _ Ha E) as (a' & _ & ?). by exists a'. Qed.

Lemma step_run c t p c' : c_calls c !! t = Some p → run_call ord c t p = Some c' → step ord c (Run t) = Some ([], c').
Proof. intros Ht E. simpl. rewrite Ht. simpl. by rewrite E. Qed.

(** The sweeper gets through the rest of its shard. *)
Lemma sweeper_unlocks i es : ∀ c now,
  live c → c_sweeper c = SEntries now i es →
  ∃ acts c', Forall internal acts ∧ run ord c acts = Some ([], c') ∧ live c' ∧
    c_locks c' !! i = None ∧ c_calls c' = c_calls c ∧
    shardCount (c_store c') = shardCount (c_store c).
Proof.
  induction es as [|[k r] es IH]; intros c now Hl Hsw.
  - assert (step ord c RunSweeper = Some ([], with_sweeper (with_locks c (delete i (c_locks c))) (SShard now (S i)))) as E
      by (simpl; unfold run_sweeper; by rewrite Hsw).
    eexists [RunSweeper], _. split_and!; [by repeat constructor|by apply run_one|by eapply live_step| |done|done].
    apply lookup_delete_eq.
  - assert (∃ c1, step ord c RunSweeper = Some ([], c1) ∧ c_sweeper c1 = SEntries now i es ∧
              c_calls c1 = c_calls c ∧ shardCount (c_store c1) = shardCount (c_store c)) as (c1 & E & Hsw1 & Hc1 & Hn1).
    { simpl. unfold run_sweeper. rewrite Hsw. eexists. split; [done|].
      destruct (_ <? _); [|done]. by destruct (shards _ !! i). }
    destruct (IH c1 now) as (acts & c' & Hi & Hr & Hl' & Hlock & Hc & Hn); [by eapply live_step|done|].
    exists (RunSweeper :: acts), c'. split_and!; [by constructor| |done|done|congruence..].
    cbn [run]. rewrite E. cbn. by rewrite Hr.
Qed.

(** Whoever holds the lock of a shard gives it back. *)
Lemma lock_freed c i : live c →
  ∃ acts c', Forall internal acts ∧ run ord c acts = Some ([], c') ∧ live c' ∧ c_locks c' !! i = None ∧
    shardCount (c_store c') = shardCount (c_store c) ∧
    ∀ t p, c_calls c !! t = Some p → storing p = false → c_calls c' !! t = Some p.
Proof.
  intros Hl. pose proof Hl as [a Ha]. pose proof (s_good _ _ _ Ha) as Hg.
  destruct (c_locks c !! i) as [[t|]|] eqn:El; [| |by exists [], c].
  - pose proof (g_locks _ Hg _ _ El) as (k & v & exp & Ht & <-).
    destruct (at_shard_ok c k Hg) as (sp & Hsp & _ & E).
    eassert (step ord c (Run t) = Some ([], _)) as Es.
    { eapply step_run; [done|]. unfold run_call. by rewrite E. }
    eexists [Run t], _. split_and!; [by repeat constructor|by apply run_one|by eapply live_step| | |].
    + apply lookup_delete_eq.
    + done.
    + intros t' p Ht' Hp. simpl. rewrite lookup_insert_ne; [done|]. intros ->. by simplify_eq.
  - pose proof (g_locks _ Hg _ _ El) as (now & es & Hsw).
    destruct (sweeper_unlocks i es c now Hl Hsw) as (acts & c' & ?&?&?&?&Hc&?). exists acts, c'.
    split_and!; [done..|]. intros t p. by rewrite Hc.
Qed.

Lemma done_finishes c t r : c_calls c !! t = Some (PDone r) → finishes c t.
Proof.
  intros Ht. eexists [Return t], r, _. split; [by repeat constructor|]. simpl. by rewrite Ht.
Qed.

Lemma run_finishes c t p c' :
  c_calls c !! t = Some p → run_call ord c t p = Some c' → finishes c' t → finishes c t.
Proof.
  intros Ht E. eapply (finishes_run c [Run t]); [by repeat constructor|]. by eapply run_one, step_run.
Qed.

(** A call that needs its shard's lock gets it. *)
Lemma locked_finishes c t p k :
  live c → c_calls c !! t = Some p → storing p = false →
  (∀ c, live c → c_calls c !! t = Some p → c_locks c !! home c k = None → finishes c t) → finishes c t.
Proof.
  intros Hl Ht Hp Hgo. destruct (lock_freed c (home c k) Hl) as (acts & c' & Hi & Hr & Hl' & Hlock & Hn & Hkeep).
  eapply finishes_run; [done|done|]. apply Hgo; [done|by apply Hkeep|]. unfold home. by rewrite Hn.
Qed.

Lemma live_run c t p c' : live c → c_calls c !! t = Some p → run_call ord c t p = Some c' → live c'.
Proof. intros Hl Ht E. by eapply live_step, step_run. Qed.

Lemma goto_lookup c t p : c_calls (goto t p c) !! t = Some p.
Proof. apply lookup_insert_eq. Qed.

Lemma set_finishes c t k v exp : live c → c_calls c !! t = Some (PSetLock k v exp) → finishes c t.
Proof.
  intros Hl Ht. eapply (locked_finishes c t _ k); [done|done|done|]. clear c Hl Ht. intros c Hl Ht Hlock.
  pose proof Hl as [a Ha]. destruct (at_shard_ok c k (s_good _ _ _ Ha)) as (sp & Hsp & _ & E).
  destruct (run_call ord c t (PSetLock k v exp)) as [c1|] eqn:E1; pose proof E1 as E2;
    unfold run_call in E2; rewrite E, Hlock in E2; destruct (set_make_room _ _ _ _) as [[] sp']; simplify_eq;
    (eapply run_finishes; [done|done|]).
  - eapply live_run in E1; [|done..]. destruct E1 as [a1 Ha1].
    match type of Ha1 with sim _ ?x _ => set (c1 := x) in * end.
    destruct (at_shard_ok c1 k (s_good _ _ _ Ha1)) as (sp1 & Hsp1 & _ & E1).
    eapply (run_finishes c1 t (PSetStore k v exp)); [apply goto_lookup|unfold run_call; by rewrite E1|].
    eapply done_finishes, goto_lookup.
  - eapply done_finishes, goto_lookup.
Qed.

Lemma after_finishes c t k v : good c → c_calls c !! t = Some (PGetAfter k v) → finishes c t.
Proof.
  intros Hg Ht. destruct (at_shard_ok c k Hg) as ([s pol] & _ & _ & E).
  eapply run_finishes; [done|unfold run_call; by rewrite E|]. eapply done_finishes, goto_lookup.
Qed.

Lemma expiry_finishes c t k r : good c → c_calls c !! t = Some (PGetExpiry k r) → finishes c t.
Proof.
  intros Hg Ht. eapply run_finishes; [done|done|].
  destruct r as [r|]; [destruct (_ <? _)|]; try (eapply done_finishes, goto_lookup).
  eapply after_finishes; [|apply goto_lookup]. eapply good_goto; [done|done|by intros ? [= <-]|done].
Qed.

Lemma get_finishes c t k : live c → c_calls c !! t = Some (PGetLookup k) → finishes c t.
Proof.
  intros Hl Ht. eapply (locked_finishes c t _ k); [done|done|done|]. clear c Hl Ht. intros c [a Ha] Ht Hlock.
  destruct (at_shard_ok c k (s_good _ _ _ Ha)) as (sp & _ & _ & E).
  eapply run_finishes; [done|unfold run_call; by rewrite E, Hlock|].
  eapply expiry_finishes; [|apply goto_lookup]. eapply good_goto; [apply Ha|done|by intros ? [= <-]|done].
Qed.

Lemma delete_finishes c t k : live c → c_calls c !! t = Some (PDeleteLock k) → finishes c t.
Proof.
  intros Hl Ht. eapply (locked_finishes c t _ k); [done|done|done|]. clear c Hl Ht. intros c [a Ha] Ht Hlock.
  destruct (at_shard_ok c k (s_good _ _ _ Ha)) as (sp & _ & _ & E).
  destruct (delete_locked k sp) as [res sp'] eqn:Ed.
  eapply run_finishes; [done|unfold run_call; by rewrite E, Hlock, Ed|]. eapply done_finishes, goto_lookup.
Qed.

Lemma pending_finishes c t p : live c → c_calls c !! t = Some p → finishes c t.
Proof.
  intros Hl Ht. pose proof Hl as [a Ha]. pose proof (s_good _ _ _ Ha) as Hg.
  assert (∀ c1, run_call ord c t p = Some c1 → live c1) as Hlive by (intros; by eapply live_run).
  destruct p as [k v exp|k v exp|k v exp|k|k|k r|k v|k|k|r];
    eauto using set_finishes, get_finishes, delete_finishes, expiry_finishes, after_finishes, done_finishes;
    try (destruct (at_shard_ok c k Hg) as ([s pol] & Hsp & _ & E)).
  - unfold run_call in Hlive. destruct (log_append _ _) as [lr w] eqn:El.
    eapply run_finishes; [done|unfold run_call; by rewrite El|]. specialize (Hlive _ eq_refl).
    destruct lr; try (eapply done_finishes, goto_lookup). eapply set_finishes; [done|apply goto_lookup].
  - eapply run_finishes; [done|unfold run_call; by rewrite E|]. eapply done_finishes, goto_lookup.
  - unfold run_call in Hlive. rewrite E in Hlive.
    eapply run_finishes; [done|unfold run_call; by rewrite E|].
    eapply get_finishes; [by apply Hlive|apply goto_lookup].
  - unfold run_call in Hlive. destruct (log_append _ _) as [lr w] eqn:El.
    eapply run_finishes; [done|unfold run_call; by rewrite El|]. specialize (Hlive _ eq_refl).
    destruct lr; try (eapply done_finishes, goto_lookup). eapply delete_finishes; [done|apply goto_lookup].
Qed.

Lemma live_after acts : ∀ c es c', live c → run ord c acts = Some (es, c') → live c'.
Proof. intros c es c' [a Ha] E. destruct (sim_run ord Hord _ acts _ _ _ _ Ha E) as (a' & _ & ?). by exists a'. Qed.
End progress.

(** ** The log and memory *)

Section durable.
Context {P : Type} {PP : Policy P} {PL : PolicyLaws P} {W : Type} {LW : Log W} {LL : LogLaws W}.
Context (ord : nat → order) (Hord : orders_ok ord).
Implicit Types (c : conf P W) (t : tid) (p : pc) (rs : list wal.Record).

(** The key a call is writing, the record it is about to append, and, once it has
    been appended, what it stands for. *)
Definition write_key p : option key :=
  match p with
  | PSetLog k _ _ | PSetLock k _ _ | PSetStore k _ _ | PDeleteLog k | PDeleteLock k => Some k
  | _ => None
  end.

Definition next_record p : option wal.Record :=
  match p with
  | PSetLog k v exp => Some (set_record k v exp)
  | PDeleteLog k => Some (delete_record k)
  | _ => None
  end.

Definition log_effect p : option (key * option Record) :=
  match p with
  | PSetLock k v exp | PSetStore k v exp => Some (k, Some (mkRecord v 0 exp))
  | PDeleteLock k => Some (k, None)
  | _ => None
  end.

(** No two writes of one key overlap; the log takes what is to be appended. *)
Definition exclusive c : Prop := ∀ t1 t2 p1 p2 k,
  c_calls c !! t1 = Some p1 → c_calls c !! t2 = Some p2 →
  write_key p1 = Some k → write_key p2 = Some k → t1 = t2.

Definition accepting c : Prop := ∀ t p r,
  c_calls c !! t = Some p → next_record p = Some r → (log_append r (kwal (c_store c))).1 = Ok ().

(** A property of every state of a run. *)
Fixpoint along (Q : conf P W → Prop) c (acts : list action) : Prop :=
  Q c ∧ match acts with
        | [] => True
        | a :: acts => match step ord c a with Some (_, c') => along Q c' acts | None => True end
        end.

(** Lengths and expiries that a log record can hold. *)
Definition call_ok (cl : call) : Prop :=
  match cl with
  | CSet k v exp => len k < 65536 ∧ len v < 2 ^ 32 ∧ - 2 ^ 63 ≤ exp < 2 ^ 63
  | CDelete k => len k < 65536
  | CGet _ => True
  end.

Definition action_ok (a : action) : Prop := match a with Invoke _ cl => call_ok cl | _ => True end.

Definition fits p : Prop :=
  match p with
  | PSetLog k v exp => call_ok (CSet k v exp)
  | PDeleteLog k => call_ok (CDelete k)
  | _ => True
  end.

(** Replayed at time [T], the log gives for each key what memory holds, or what the
    write under way will put there. *)
Record agrees (T : Z) c rs : Prop := {
  ag_logged : logged (kwal (c_store c)) rs;
  ag_ok : Forall record_ok rs;
  ag_fits t p : c_calls c !! t = Some p → fits p;
  ag_pending t p k e : c_calls c !! t = Some p → log_effect p = Some (k, e) →
    replayed T (stored <$> rs) !! k = e ≫= restamp T;
  ag_settled k : (∀ t p e, c_calls c !! t = Some p → log_effect p ≠ Some (k, e)) →
    replayed T (stored <$> rs) !! k = view (c_store c) k ≫= restamp T;
}.

(** What a step of a call does to memory, without a memory limit. *)
Lemma run_call_view c t p c' k' :
  good c → unlimited (c_store c) → c_calls c !! t = Some p → run_call ord c t p = Some c' →
  view (c_store c') k' =
    match p with
    | PSetLock k _ _ | PDeleteLock k => if decide (k' = k) then None else view (c_store c) k'
    | PSetStore k v exp => if decide (k' = k) then Some (mkRecord v (c_now c) exp) else view (c_store c) k'
    | _ => view (c_store c) k'
    end.
Proof.
  intros Hg Hu Ht E.
  destruct p as [k v exp|k v exp|k v exp|k|k|k r|k v|k|k|r]; unfold run_call in E;
    try (destruct (at_shard_ok c k Hg) as (sp & Hsp & Hinv & Heq); rewrite Heq in E; clear Heq).
  - by destruct (log_append _ _) as [[]?]; simplify_eq.
  - destruct (c_locks c !! _); [done|].
    destruct (set_make_room_unlimited (ord (c_loops c)) k (len k + len v) sp) as (sp' & Er & Hd);
      [by eapply unlimited_shard|]. rewrite Er in E. simplify_eq. simpl. rewrite (view_with_shard c k sp), Hd by done.
    repeat case_decide; subst; rewrite ?lookup_delete_eq, ?lookup_delete_ne by done; try done. by rewrite (view_home c k sp).
  - simplify_eq. simpl. rewrite make_copy_id, (view_with_shard c k sp), set_store_data by done.
    repeat case_decide; subst; rewrite ?lookup_insert_eq, ?lookup_insert_ne by done; try done. by rewrite (view_home c k sp).
  - destruct sp as [s pol]. simplify_eq. by eapply same_data_view, policy_same_data.
  - destruct (c_locks c !! _); [done|]. by simplify_eq.
  - by simplify_eq.
  - destruct sp as [s pol]. simplify_eq. by eapply same_data_view, policy_same_data.
  - by destruct (log_append _ _) as [[]?]; simplify_eq.
  - destruct (c_locks c !! _); [done|]. destruct (delete_locked k sp) as [res sp'] eqn:Ed. simplify_eq. simpl.
    assert (data sp'.1 = delete k (data sp.1)) as Hd.
    { unfold delete_locked in Ed. destruct (data sp.1 !! k) eqn:Ek; simplify_eq; [by apply remove_entry_spec|by rewrite delete_id]. }
    rewrite (view_with_shard c k sp), Hd by done.
    repeat case_decide; subst; rewrite ?lookup_delete_eq, ?lookup_delete_ne by done; try done. by rewrite (view_home c k sp).
  - done.
Qed.

(** Where the call stands afterwards. *)
Lemma run_call_next c t p c' :
  good c → unlimited (c_store c) → accepting c → c_calls c !! t = Some p → run_call ord c t p = Some c' →
  ∃ p', c_calls c' = <[t := p']> (c_calls c) ∧ fits p' ∧ c_now c' = c_now c ∧
    log_effect p' = match p with
                    | PSetLog k v exp | PSetLock k v exp => Some (k, Some (mkRecord v 0 exp))
                    | PDeleteLog k => Some (k, None)
                    | _ => None
                    end ∧
    kwal (c_store c') = match next_record p with
                        | Some r => (log_append r (kwal (c_store c))).2
                        | None => kwal (c_store c)
                        end.
Proof.
  intros Hg Hu Hacc Ht E. pose proof (Hacc t p) as Hlog.
  destruct p as [k v exp|k v exp|k v exp|k|k|k r|k v|k|k|r]; unfold run_call in E;
    try (destruct (at_shard_ok c k Hg) as (sp & Hsp & Hinv & Heq); rewrite Heq in E; clear Heq).
  - specialize (Hlog _ Ht eq_refl). simpl. destruct (log_append _ _) as [res w]. simpl in Hlog. subst res.
    simplify_eq. by eexists.
  - destruct (c_locks c !! _); [done|].
    destruct (set_make_room_unlimited (ord (c_loops c)) k (len k + len v) sp) as (sp' & Er & Hd);
      [by eapply unlimited_shard|]. rewrite Er in E. simplify_eq. by eexists.
  - simplify_eq. by eexists.
  - destruct sp. simplify_eq. by eexists.
  - destruct (c_locks c !! _); [done|]. simplify_eq. by eexists.
  - simplify_eq. destruct r as [r|]; [destruct (_ <? _)|]; by eexists.
  - destruct sp. simplify_eq. by eexists.
  - specialize (Hlog _ Ht eq_refl). simpl. destruct (log_append _ _) as [res w]. simpl in Hlog. subst res.
    simplify_eq. by eexists.
  - destruct (c_locks c !! _); [done|]. destruct (delete_locked k sp). simplify_eq. by eexists.
  - done.
Qed.

(** The record of a call in the replayed log. *)
Lemma replayed_snoc T rs r k : record_ok r →
  (∃ v exp, r = set_record k v exp ∧ - 2 ^ 63 ≤ exp < 2 ^ 63) ∨ r = delete_record k →
  (∀ k', k' ≠ k → replayed T (stored <$> (rs ++ [r])) !! k' = replayed T (stored <$> rs) !! k') ∧
  replayed T (stored <$> (rs ++ [r])) !! k =
    (if wal.Op r =? wal.OpSet then Some (mkRecord (wal.Value r) 0 (wal.ExpiresAt r)) else None) ≫= restamp T.
Proof.
  intros _ Hr. rewrite fmap_app. unfold replayed. rewrite foldl_app. cbn [fmap list_fmap foldl].
  destruct Hr as [(v & exp & -> & Hexp)| ->]; unfold replay_one, stored, UnixNano; simpl; rewrite ?i64_small by done.
  - unfold restamp. simpl. destruct (T <? exp).
    + split; [|by rewrite lookup_insert_eq]. intros k' Hne. by rewrite lookup_insert_ne.
    + split; [|by rewrite lookup_delete_eq]. intros k' Hne. by rewrite lookup_delete_ne.
  - split; [|by rewrite lookup_delete_eq]. intros k' Hne. by rewrite lookup_delete_ne.
Qed.

Lemma fits_record p r k : fits p → next_record p = Some r → write_key p = Some k →
  record_ok r ∧ ((∃ v exp, r = set_record k v exp ∧ - 2 ^ 63 ≤ exp < 2 ^ 63) ∨ r = delete_record k).
Proof.
  destruct p; simpl; try done; intros Hf [= <-] [= <-].
  - destruct Hf as (?&?&?). split; [|by left; eauto]. split_and!; [done..|by left].
  - split; [|by right]. split_and!; [done|len_lia|by right].
Qed.

Lemma logged_append c r rs w :
  logged (kwal (c_store c)) rs → (log_append r (kwal (c_store c))).1 = Ok () →
  (log_append r (kwal (c_store c))).2 = w → logged w (rs ++ [r]).
Proof.
  intros Hl Hr <-. pose proof (log_append_law r _ _ Hl) as Hlaw.
  destruct (log_append r _) as [res w]. simpl in Hr. by subst res.
Qed.

(** A step that appends. *)
Lemma agrees_append T c t p r c' rs :
  good c → unlimited (c_store c) → accepting c → exclusive c → agrees T c rs →
  c_calls c !! t = Some p → next_record p = Some r → run_call ord c t p = Some c' →
  agrees T c' (rs ++ [r]).
Proof.
  intros Hg Hu Hacc Hex [H1 H2 H3 H4 H5] Ht Hr E.
  destruct (run_call_next c t p c' Hg Hu Hacc Ht E) as (p' & Hcalls & Hfits & _ & Heff & Hw). rewrite Hr in Hw.
  assert (∃ k, write_key p = Some k) as [k Hk] by (destruct p; simplify_eq/=; eauto).
  destruct (fits_record p r k (H3 _ _ Ht) Hr Hk) as [Hrok Hshape].
  destruct (replayed_snoc T rs r k Hrok Hshape) as [Hother Hmine].
  assert (∃ e, log_effect p' = Some (k, e) ∧ replayed T (stored <$> (rs ++ [r])) !! k = e ≫= restamp T) as (e & He & Hrep).
  { rewrite Heff, Hmine. destruct p; simplify_eq/=; eauto. }
  split.
  - eapply logged_append; [done|by eapply Hacc|done].
  - apply Forall_app. split; [done|by apply Forall_singleton].
  - intros t' q. rewrite Hcalls, lookup_insert_Some. intros [[<- <-]|[_ Hq]]; [done|by eapply H3].
  - intros t' q k' e'. rewrite Hcalls, lookup_insert_Some. intros [[<- <-]|[Hne Hq]] Heff'; [by simplify_eq|].
    rewrite Hother; [by eapply H4|]. intros ->. apply Hne. eapply (Hex t t' p q k); [done..|].
    by destruct q; simplify_eq/=.
  - intros k' Hnone. destruct (decide (k' = k)) as [->|Hne].
    { destruct (Hnone t p' e); [by rewrite Hcalls, lookup_insert_eq|done]. }
    rewrite Hother, (run_call_view c t p c' k' Hg Hu Ht E) by done.
    rewrite H5; [by destruct p|]. intros t' q e' Hq Heq. destruct (decide (t' = t)) as [->|Hnt].
    + simplify_eq. by destruct p.
    + by apply (Hnone t' q e'); [rewrite Hcalls, lookup_insert_ne|].
Qed.

(** A step that does not. *)
Lemma agrees_apply T c t p c' rs :
  good c → unlimited (c_store c) → accepting c → exclusive c → agrees T c rs →
  c_calls c !! t = Some p → next_record p = None → run_call ord c t p = Some c' →
  agrees T c' rs.
Proof.
  intros Hg Hu Hacc Hex [H1 H2 H3 H4 H5] Ht Hr E.
  destruct (run_call_next c t p c' Hg Hu Hacc Ht E) as (p' & Hcalls & Hfits & _ & Heff & Hw). rewrite Hr in Hw.
  split; [by rewrite Hw|done|..].
  - intros t' q. rewrite Hcalls, lookup_insert_Some. intros [[<- <-]|[_ Hq]]; [done|by eapply H3].
  - intros t' q k' e'. rewrite Hcalls, lookup_insert_Some. intros [[<- <-]|[Hne Hq]] Heff'; [|by eapply H4].
    rewrite Heff in Heff'. destruct p; simplify_eq/=. by rewrite (H4 _ _ _ _ Ht eq_refl).
  - intros k' Hnone. rewrite (run_call_view c t p c' k' Hg Hu Ht E). clear E.
    assert (∀ t' q e, t' ≠ t → c_calls c !! t' = Some q → log_effect q ≠ Some (k', e)) as Hnone'.
    { intros t' q e Hnt Hq. apply (Hnone t' q e). by rewrite Hcalls, lookup_insert_ne. }
    assert (∀ e, log_effect p' ≠ Some (k', e)) as Hp' by (intros e; apply (Hnone t); by rewrite Hcalls, lookup_insert_eq).
    assert ((∀ e, log_effect p ≠ Some (k', e)) → replayed T (stored <$> rs) !! k' = view (c_store c) k' ≫= restamp T) as Hold.
    { intros Hp. apply H5. intros t' q e Hq. destruct (decide (t' = t)) as [->|?]; [simplify_eq; apply Hp|by apply (Hnone' t')]. }
    destruct p; simpl in *; try (by apply Hold); try done.
    + case_decide as Hk; [subst|]; [|apply Hold; intros e Heq; congruence]. by destruct (Hp' (Some (mkRecord v 0 exp))).
    + case_decide as Hk; [subst; rewrite (H4 t _ _ _ Ht eq_refl); done|apply Hold; intros e Heq; congruence].
    + case_decide as Hk; [subst; rewrite (H4 t _ _ _ Ht eq_refl); done|apply Hold; intros e Heq; congruence].
Qed.

(** Calls may start and return, and the sweeper may take expired entries. *)
Lemma agrees_frame T c c' rs :
  agrees T c rs → kwal (c_store c') = kwal (c_store c) →
  (∀ t p, c_calls c' !! t = Some p → c_calls c !! t = Some p ∨ fits p ∧ log_effect p = None) →
  (∀ t p, c_calls c !! t = Some p → c_calls c' !! t = Some p ∨ log_effect p = None) →
  (∀ k, view (c_store c') k ≫= restamp T = view (c_store c) k ≫= restamp T) →
  agrees T c' rs.
Proof.
  intros [H1 H2 H3 H4 H5] Hw Hnew Hold Hv. split; [by rewrite Hw|done|..].
  - intros t p Ht. destruct (Hnew t p Ht) as [?|[? _]]; eauto.
  - intros t p k e Ht He. destruct (Hnew t p Ht) as [?|[_ ?]]; [eauto|congruence].
  - intros k Hnone. rewrite Hv. apply H5. intros t p e Ht. destruct (Hold t p Ht) as [?|?]; [eauto|congruence].
Qed.

Lemma agrees_sweeper T c a c' rs :
  sim False c a → agrees T c rs → c_now c ≤ T → run_sweeper ord c = Some c' → agrees T c' rs.
Proof.
  intros Hs Hag Hnow E. pose proof (s_good _ _ _ Hs) as Hg. pose proof (g_sweeper _ Hg) as Hok.
  unfold run_sweeper, sweeper_ok in *. destruct (c_sweeper c) as [|now i|now i [|[k r] l]]; [done|..].
  - destruct (shards _ !! i); [destruct (c_locks c !! i)|]; simplify_eq/=; eapply agrees_frame; eauto.
  - simplify_eq/=. eapply agrees_frame; eauto.
  - destruct Hok as (Hle & _ & _ & sp & Hsp & Hes). rewrite Hsp in E.
    assert (data sp.1 !! k = Some r) as Hk by (apply Hes; by left).
    destruct (expiredAt r <? now) eqn:Eexp; simplify_eq/=; [|by eapply agrees_frame; eauto].
    eapply agrees_frame; [done|done|eauto..|]. intros k'. simpl.
    assert (home c k = i) as <- by (eapply so_home; [apply Hg|done|by apply elem_of_dom_2 in Hk]).
    destruct (remove_entry_spec k r sp) as (_ & Hd & _); [by eapply so_shard; [apply Hg|]|done|].
    rewrite (view_with_shard c k sp), Hd by done. case_decide as Hh; [|done].
    rewrite (view_home c k sp) by done. destruct (decide (k' = k)) as [->|Hne]; [|by rewrite lookup_delete_ne].
    rewrite lookup_delete_eq, Hk. simpl. unfold restamp. destruct (T <? expiredAt r) eqn:?; [lia|done].
Qed.

Lemma agrees_step T c a act es c' rs :
  sim False c a → agrees T c rs → accepting c → exclusive c → c_now c ≤ T → action_ok act →
  step ord c act = Some (es, c') → ∃ rs', agrees T c' rs'.
Proof.
  intros Hs Hag Hacc Hex Hnow Hact E. pose proof (s_good _ _ _ Hs) as Hg.
  assert (unlimited (c_store c)) as Hu by (by destruct (s_budget _ _ _ Hs)).
  destruct act as [t cl|t|t|now| |]; simpl in E.
  - destruct (c_calls c !! t) eqn:Ht; simplify_eq. exists rs. eapply agrees_frame; [done|done|..|done].
    + intros t' p. simpl. rewrite lookup_insert_Some. intros [[<- <-]|[_ ?]]; [right; by destruct cl|by left].
    + intros t' p Ht'. left. simpl. rewrite lookup_insert_ne; [done|]. congruence.
  - destruct (c_calls c !! t) as [p|] eqn:Ht; [|done]. simpl in E.
    destruct (run_call ord c t p) eqn:Er; simplify_eq/=. destruct (next_record p) as [r|] eqn:En.
    + exists (rs ++ [r]). by eapply agrees_append.
    + exists rs. by eapply agrees_apply.
  - destruct (c_calls c !! t) as [[]|] eqn:Ht; simplify_eq. exists rs. eapply agrees_frame; [done|done|..|done].
    + intros t' p. simpl. rewrite lookup_delete_Some. intros [_ ?]. by left.
    + intros t' p Ht'. simpl. destruct (decide (t = t')) as [<-|Hne]; [right; by simplify_eq|left].
      by rewrite lookup_delete_ne.
  - destruct (_ <=? _); simplify_eq. exists rs. eapply agrees_frame; eauto.
  - destruct (c_sweeper c); simplify_eq. exists rs. eapply agrees_frame; eauto.
  - destruct (run_sweeper ord c) eqn:Er; simplify_eq/=. exists rs. by eapply agrees_sweeper.
Qed.

Lemma step_now c act es c' : step ord c act = Some (es, c') → c_now c ≤ c_now c'.
Proof.
  destruct act as [t cl|t|t|now| |]; simpl.
  - by destruct (c_calls c !! t); intros; simplify_eq.
  - destruct (c_calls c !! t) as [p|]; [|done]. simpl. destruct (run_call ord c t p) as [c1|] eqn:E; [|done].
    intros [= <- <-]. enough (c_now c1 = c_now c) as -> by done.
    destruct p; unfold run_call, at_shard in E; repeat case_match; by simplify_eq/=.
  - by destruct (c_calls c !! t) as [[]|]; intros; simplify_eq.
  - destruct (_ <=? _) eqn:E; intros; simplify_eq/=. lia.
  - by destruct (c_sweeper c); intros; simplify_eq.
  - destruct (run_sweeper ord c) as [c1|] eqn:E; [|done]. intros [= <- <-].
    enough (c_now c1 = c_now c) as -> by done. unfold run_sweeper in E. repeat case_match; by simplify_eq/=.
Qed.

Lemma run_now acts : ∀ c es c', run ord c acts = Some (es, c') → c_now c ≤ c_now c'.
Proof.
  induction acts as [|act acts IH]; intros c es c'; simpl; [by intros [= <- <-]|].
  destruct (step ord c act) as [[es1 c1]|] eqn:E1; [|done]. simpl.
  destruct (run ord c1 acts) as [[es2 c2]|] eqn:E2; [|done]. intros [= <- <-].
  etrans; [by eapply step_now|by eapply IH].
Qed.

Lemma agrees_run T acts : ∀ c a es c' rs,
  sim False c a → agrees T c rs → along (λ c, accepting c ∧ exclusive c) c acts → Forall action_ok acts →
  run ord c acts = Some (es, c') → c_now c' ≤ T → ∃ rs', agrees T c' rs'.
Proof.
  induction acts as [|act acts IH]; intros c a es c' rs Hs Hag Hal Hacts E HT.
  { simpl in E. simplify_eq. eauto. }
  pose proof (run_now _ _ _ _ E) as Hnow. simpl in E, Hal. apply Forall_cons in Hacts as [Ha Hacts].
  destruct Hal as [[Hacc Hex] Hal], (step ord c act) as [[es1 c1]|] eqn:E1; [|done]. simpl in E.
  destruct (run ord c1 acts) as [[es2 c2]|] eqn:E2; simplify_eq/=.
  destruct (sim_step ord Hord _ _ _ _ _ _ Hs E1) as (a1 & _ & Hs1).
  destruct (agrees_step T c a act es1 c1 rs) as [rs1 Hag1]; [done..|lia|done|done|]. by eapply IH.
Qed.
End durable.

(** ** Claims *)

Section claims.
Context {W : Type} {LW : Log W} {LL : LogLaws W}.

(** A run of calls, each in its own goroutine, and of the sweeper, on a store that
    [NewKVStore] has opened. *)
Definition opened ord file (w : W) name count ttl maxMemory now (kv : KVStore AnyPolicy W) : Prop :=
  NewKVStore ord file (Ok w) (mkStoreOptions count ttl maxMemory (ByName name)) now = Ok kv.

Lemma opened_spec ord file rs (w : W) name count ttl maxMemory now kv :
  orders_ok ord → 0 < count < 2 ^ 32 → holds file rs → opened ord file w name count ttl maxMemory now kv →
  store_ok kv ∧ kwal kv = w ∧ (∀ k, view kv k = replayed now (stored <$> rs) !! k) ∧
  ∀ i sp, shards kv !! i = Some sp → budget sp.1 = if 0 <? maxMemory then maxMemory ÷ count else 0.
Proof.
  intros Hord Hc Hf E.
  destruct (NewKVStore_spec ord file rs w (mkStoreOptions count ttl maxMemory (ByName name)) now)
    as (kv' & E' & Hok & Hw & _ & _ & Hview & Hb); [done..|apply ByName_inv|done|].
  unfold opened in E. rewrite E' in E. simplify_eq. split_and!; [done..|exact Hb].
Qed.

Lemma opened_sim ord file rs (w : W) name count ttl maxMemory now kv :
  orders_ok ord → 0 < count < 2 ^ 32 → holds file rs → opened ord file w name count ttl maxMemory now kv →
  sim (0 < maxMemory) (start kv now) (mkAState (replayed now (stored <$> rs)) now ∅).
Proof.
  intros Hord Hc Hf E. destruct (opened_spec _ _ _ _ _ _ _ _ _ _ Hord Hc Hf E) as (Hok & _ & Hv & Hb).
  apply sim_start; [done| |done]. destruct (0 <? maxMemory) eqn:E0; [right; lia|left].
  intros i sp Hi. by apply (Hb i).
Qed.


(** C14.  The invariant and the memory bound at every instant: at every point of every
    interleaving of calls and sweeps on a store opened from any complete log, also in
    the middle of a write and between a read and its [AfterRead], each key is in the
    shard its hash picks, each byte counter is exact and the policy's bookkeeping lists
    the shard's keys; and if the store started empty, a shard is within its budget
    unless it has none or holds a single larger entry. *)
Theorem concurrent_invariant ord file rs (w : W) name count ttl maxMemory now kv acts es c :
  orders_ok ord → 0 < count < 2 ^ 32 → 0 ≤ maxMemory → holds file rs →
  opened ord file w name count ttl maxMemory now kv →
  run ord (start kv now) acts = Some (es, c) →
  store_ok (c_store c) ∧
  (file = wal.Missing → ∀ i s p, shards (c_store c) !! i = Some (s, p) →
     budget s = maxMemory ÷ count ∧ bytes s = sum_sizes (data s) ∧
     (maxMemory < count ∨ bytes s ≤ maxMemory ÷ count ∨ size (data s) = 1%nat)).
Proof.
  intros Hord Hc Hm Hf Ho E.
  destruct (opened_spec _ _ _ _ _ _ _ _ _ _ Hord Hc Hf Ho) as (Hok & _ & Hv & Hb).
  assert (sim True (start kv now) (mkAState (replayed now (stored <$> rs)) now ∅)) as Hs
    by (apply sim_start; auto).
  destruct (sim_run ord Hord _ _ _ _ _ _ Hs E) as (a & _ & Hsim). pose proof (s_good _ _ _ Hsim) as Hg.
  split; [apply Hg|]. intros -> i s p Hi. destruct Hf as [[_ ->]|[? _]]; [|done].
  assert (all_shards (bounded (maxMemory ÷ count)) (c_store c)) as Hall.
  { apply (bounded_run ord Hord (maxMemory ÷ count) acts _ _ _ _ Hs E). intros j sp Hj.
    by apply (empty_within kv count maxMemory Hok (proj1 Hc) Hm Hv Hb j sp). }
  destruct (Hall i (s, p) Hi) as [Hbs [_ Hw]]. simpl in *.
  split_and!; [done|by destruct (so_shard _ _ (g_store _ Hg) _ _ Hi)|].
  rewrite Hbs in Hw. destruct Hw as [H1|H1]; [left|right; done]. apply Z.quot_small_iff in H1; lia.
Qed.

(** No call blocks for good: at any point of any interleaving, if a call is under
    way then the goroutines that are running can bring it to its return, without any
    new call and without the clock moving on. *)
Lemma calls_can_finish ord file rs (w : W) name count ttl maxMemory now kv acts es c t p :
  orders_ok ord → 0 < count < 2 ^ 32 → holds file rs → opened ord file w name count ttl maxMemory now kv →
  run ord (start kv now) acts = Some (es, c) → c_calls c !! t = Some p →
  ∃ acts' r c', Forall internal acts' ∧ run ord c acts' = Some ([EReturn t r], c').
Proof.
  intros Hord Hc Hf Ho E Ht. destruct (opened_spec _ _ _ _ _ _ _ _ _ _ Hord Hc Hf Ho) as (Hok & _ & Hv & _).
  assert (∃ a, sim True (start kv now) a) as Hl by (eexists; apply sim_start; auto).
  eapply pending_finishes; [done| |done]. by eapply live_after.
Qed.

(** C13.  Recovery after concurrent use: run any interleaving of calls and sweeps on a
    store without a memory limit, in which the log takes every record and no two
    writes of the same key overlap, until no write is under way; then restart from
    what the log holds, at any later time.  The restarted store holds exactly the keys
    the old one held that have not expired, with the same values and expiries. *)
Theorem concurrent_recovery ord file rs0 (w w' : W) name count ttl now0 now kv acts es c :
  orders_ok ord → 0 < count < 2 ^ 32 → holds file rs0 → Forall record_ok rs0 → logged w rs0 →
  opened ord file w name count ttl 0 now0 kv → run ord (start kv now0) acts = Some (es, c) →
  along ord (λ c, accepting c ∧ exclusive c) (start kv now0) acts → Forall action_ok acts →
  (∀ t p, c_calls c !! t = Some p → write_key p = None) → c_now c ≤ now →
  ∃ rs kv2, logged (kwal (c_store c)) rs ∧
    opened ord (wal.Contents (log_bytes rs)) w' name count ttl 0 now kv2 ∧
    ∀ k, view kv2 k = view (c_store c) k ≫= restamp now.
Proof.
  intros Hord Hc Hf Hrs0 Hlog Ho E Hal Hacts Hquiet Hnow.
  destruct (opened_spec _ _ _ _ _ _ _ _ _ _ Hord Hc Hf Ho) as (Hok & Hw & Hv & Hb).
  assert (sim False (start kv now0) (mkAState (replayed now0 (stored <$> rs0)) now0 ∅)) as Hs.
  { apply sim_start; [done| |done]. left. intros i sp Hi. by apply (Hb i). }
  pose proof (run_now _ _ _ _ _ E) as Hle. simpl in Hle.
  assert (agrees now (start kv now0) rs0) as Hag.
  { split; [simpl; by rewrite Hw|done|intros t p; simpl; by rewrite lookup_empty..|].
    intros k _. simpl. rewrite Hv, <-survivors_lookup, <-(replayed_later now0 now) by lia. done. }
  destruct (agrees_run ord Hord now acts _ _ _ _ _ Hs Hag Hal Hacts E Hnow) as [rs [H1 H2 _ _ H5]].
  destruct (NewKVStore_spec ord (wal.Contents (log_bytes rs)) rs w' (mkStoreOptions count ttl 0 (ByName name)) now)
    as (kv2 & E2 & _ & _ & _ & _ & Hview2 & _); [done..|apply ByName_inv|by right|].
  exists rs, kv2. split_and!; [done|done|]. intros k. rewrite Hview2. apply H5.
  intros t p e Ht He. apply Hquiet in Ht. by destruct p.
Qed.
End claims.

(** ** An example run

    A [Set] and a [Get] of one key, interleaved: the [Get] looks up after the [Set] has
    stored, a [Delete] removes the key before the [Get] reports the read to the policy;
    then another [Set], and a sweep after its entry has expired. *)

Definition ex_actions : list action :=
  [Invoke 1 (CSet (str "a") [1] 100); Run 1; Invoke 2 (CGet (str "a")); Run 1; Run 2; Run 1; Run 2; Tick 2;
   Invoke 3 (CDelete (str "a")); Return 1; Run 2; Run 3; Run 3; Run 2; Return 2; Return 3;
   Invoke 1 (CSet (str "b") [2] 50); Run 1; Run 1; Run 1; Return 1; Tick 60; StartSweep;
   RunSweeper; RunSweeper; RunSweeper; RunSweeper; RunSweeper; RunSweeper].

Definition ex_run (name : gostring) (maxMemory : Z) : list event * conf AnyPolicy FileLog :=
  default ([], start (ex_store name maxMemory) 0) (run any_order (start (ex_store name maxMemory) 0) ex_actions).

Example ex_run_events : (ex_run NameStrict 0).1 =
  [EInvoke 1 (CSet (str "a") [1] 100); EInvoke 2 (CGet (str "a")); ETick 2; EInvoke 3 (CDelete (str "a"));
   EReturn 1 (RUnit (Ok ())); EReturn 2 (RValue (Ok [1])); EReturn 3 (RUnit (Ok ()));
   EInvoke 1 (CSet (str "b") [2] 50); EReturn 1 (RUnit (Ok ())); ETick 60].
Proof. vm_compute. reflexivity. Qed.

Lemma ex_run_runs name maxMemory : name = NameStrict ∨ name = NameRelaxed →
  maxMemory = 0 ∨ maxMemory = 7 →
  run any_order (start (ex_store name maxMemory) 0) ex_actions = Some (ex_run name maxMemory).
Proof. intros [-> | ->] [-> | ->]; vm_compute; reflexivity. Qed.


Lemma concurrent_invariant_witness :
  store_ok (c_store (ex_run NameRelaxed 7).2) ∧
  (wal.Missing = wal.Missing → ∀ i s p, shards (c_store (ex_run NameRelaxed 7).2) !! i = Some (s, p) →
     budget s = 7 ÷ 2 ∧ bytes s = sum_sizes (data s) ∧ (7 < 2 ∨ bytes s ≤ 7 ÷ 2 ∨ size (data s) = 1%nat)).
Proof.
  apply (concurrent_invariant any_order wal.Missing [] ex_log NameRelaxed 2 1000 7 0 (ex_store NameRelaxed 7)
    ex_actions (ex_run NameRelaxed 7).1).
  - apply any_order_ok.
  - split; reflexivity.
  - discriminate.
  - left. split; reflexivity.
  - vm_compute. reflexivity.
  - rewrite <-surjective_pairing. apply ex_run_runs; auto.
Defined.

(** The run stopped where the [Set] holds the lock and the [Get] waits. *)
Definition ex_waiting : list event * conf AnyPolicy FileLog :=
  default ([], start (ex_store NameStrict 0) 0) (run any_order (start (ex_store NameStrict 0) 0) (take 5 ex_actions)).

Lemma calls_can_finish_witness :
  step any_order ex_waiting.2 (Run 2) = None ∧
  ∃ acts' r c', Forall internal acts' ∧ run any_order ex_waiting.2 acts' = Some ([EReturn 2%nat r], c').
Proof.
  split; [vm_compute; reflexivity|].
  apply (calls_can_finish any_order wal.Missing [] ex_log NameStrict 2 1000 0 0 (ex_store NameStrict 0)
    (take 5 ex_actions) ex_waiting.1 ex_waiting.2 2 (PGetLookup (str "a"))).
  - apply any_order_ok.
  - split; reflexivity.
  - left. split; reflexivity.
  - vm_compute. reflexivity.
  - vm_compute. reflexivity.
  - vm_compute. reflexivity.
Defined.

(** Whether the hypotheses on a run hold can be computed. *)
Section decide.
Context {P : Type} {PP : Policy P} {W : Type} {LW : Log W}.
Implicit Types (c : conf P W).

Definition good_run_b c : bool :=
  bool_decide (map_Forall (λ t1 p1, map_Forall (λ t2 p2,
    write_key p1 = None ∨ write_key p1 ≠ write_key p2 ∨ t1 = t2) (c_calls c)) (c_calls c)) &&
  forallb (λ '(_, p), match next_record p with
                      | Some r => match (log_append r (kwal (c_store c))).1 with Ok _ => true | _ => false end
                      | None => true
                      end) (map_to_list (c_calls c)).

Lemma good_run_b_spec c : good_run_b c = true → accepting c ∧ exclusive c.
Proof.
  intros [He Ha]%andb_true_iff. apply bool_decide_eq_true_1 in He. split.
  - intros t p r Ht Hr. rewrite forallb_forall in Ha. specialize (Ha (t, p)). simpl in Ha. rewrite Hr in Ha.
    assert (In (t, p) (map_to_list (c_calls c))) as Hin by (by apply list_elem_of_In, elem_of_map_to_list).
    specialize (Ha Hin). by destruct (log_append r _) as [[[]| |] ?].
  - intros t1 t2 p1 p2 k H1 H2 Hk1 Hk2. destruct (He t1 p1 H1 t2 p2 H2) as [?|[?|?]]; congruence.
Qed.

Fixpoint along_b (ord : nat → order) c (acts : list action) : bool :=
  good_run_b c && match acts with
                  | [] => true
                  | a :: acts => match step ord c a with Some (_, c') => along_b ord c' acts | None => true end
                  end.

Lemma along_b_spec ord acts : ∀ c, along_b ord c acts = true → along ord (λ c, accepting c ∧ exclusive c) c acts.
Proof.
  induction acts as [|a acts IH]; intros c; simpl; intros [Hg Hr]%andb_true_iff;
    (split; [by apply good_run_b_spec|]); [done|].
  destruct (step ord c a) as [[es c']|]; [by apply IH|done].
Qed.
End decide.

Lemma concurrent_recovery_witness :
  ∃ rs kv2, logged (kwal (c_store (ex_run NameStrict 0).2)) rs ∧
    opened any_order (wal.Contents (log_bytes rs)) ex_log NameStrict 2 1000 0 60 kv2 ∧
    ∀ k, view kv2 k = view (c_store (ex_run NameStrict 0).2) k ≫= restamp 60.
Proof.
  apply (concurrent_recovery any_order wal.Missing [] ex_log ex_log NameStrict 2 1000 0 60 (ex_store NameStrict 0)
    ex_actions (ex_run NameStrict 0).1).
  - apply any_order_ok.
  - split; reflexivity.
  - left. split; reflexivity.
  - constructor.
  - apply ex_logged.
  - vm_compute. reflexivity.
  - rewrite <-surjective_pairing. apply ex_run_runs; auto.
  - apply along_b_spec. vm_compute. reflexivity.
  - unfold ex_actions. repeat (apply Forall_cons; split; [vm_compute; intuition discriminate|]). apply Forall_nil. exact I.
  - assert (c_calls (ex_run NameStrict 0).2 = ∅) as -> by (vm_compute; reflexivity).
    intros t p H. rewrite lookup_empty in H. discriminate.
  - vm_compute. discriminate.
Defined.

(** The clock is read after the look-up: a [Get] can answer "not found" for a key that
    was there, unexpired, at every instant of the call.  Here the entry that expires at
    10 is replaced by one that expires at 100 before the [Get] reads the clock at 11. *)
Example get_misses_present_key :
  let acts := [Invoke 1 (CSet (str "a") [1] 10); Run 1; Run 1; Run 1; Return 1;
               Invoke 2 (CGet (str "a")); Run 2; Run 2;
               Invoke 1 (CSet (str "a") [2] 100); Run 1; Run 1; Run 1; Return 1;
               Tick 11; Run 2; Return 2] in
  fst <$> run any_order (start (ex_store NameNoEvict 0) 0) acts =
  Some [EInvoke 1 (CSet (str "a") [1] 10); EReturn 1 (RUnit (Ok ())); EInvoke 2 (CGet (str "a"));
        EInvoke 1 (CSet (str "a") [2] 100); EReturn 1 (RUnit (Ok ())); ETick 11;
        EReturn 2 (RValue (Err ErrKeyNotFound))].
Proof. vm_compute. reflexivity. Qed.
