(* ===== verification/Raft.v ===== *)
(** * Leader election (cluster/raft.go, and the role callbacks of cluster/node.go)

    [RaftState] with the handlers the server calls, and the [run] goroutine as a
    program counter.  A handler or loop body is atomic where the code holds [mu];
    what it does after unlocking (callbacks, the signal on [heartbeatCh], the reply)
    is a list of actions that run later, in any interleaving.  A cluster is a map of
    nodes and the messages sent so far: a message may arrive late, out of order,
    many times or never. *)

From S2P Require Import Prelude GoLang.

Abbreviation addr := gostring.

Inductive Role := RoleFollower | RoleCandidate | RoleLeader.
#[export] Instance Role_eq_dec : EqDecision Role.
Proof. solve_decision. Defined.

(** [heartbeatCh] has a buffer of one: full or not. *)
Record RaftState := mkRaft {
  nodeAddr : addr; peers : list addr;
  currentTerm : Z; votedFor : addr; role : Role; leaderAddr : addr;
  heartbeatCh : bool;
}.

Definition NewRaftState (self : addr) (ps : list addr) : RaftState :=
  mkRaft self ps 0 [] RoleFollower [] false.

Definition set_term (r : RaftState) (t : Z) (v : addr) : RaftState :=
  mkRaft (nodeAddr r) (peers r) t v (role r) (leaderAddr r) (heartbeatCh r).
Definition set_role (r : RaftState) (x : Role) : RaftState :=
  mkRaft (nodeAddr r) (peers r) (currentTerm r) (votedFor r) x (leaderAddr r) (heartbeatCh r).
Definition set_leader (r : RaftState) (l : addr) : RaftState :=
  mkRaft (nodeAddr r) (peers r) (currentTerm r) (votedFor r) (role r) l (heartbeatCh r).
Definition set_heartbeat (r : RaftState) (b : bool) : RaftState :=
  mkRaft (nodeAddr r) (peers r) (currentTerm r) (votedFor r) (role r) (leaderAddr r) b.

(** The getters: each a critical section of its own.  [GetPeers] copies the slice. *)
Definition GetLeaderAddr (r : RaftState) : addr := leaderAddr r.
Definition GetTerm (r : RaftState) : Z := currentTerm r.
Definition GetPeers (r : RaftState) : list addr := peers r.

Definition is_leader (r : RaftState) : bool := bool_decide (role r = RoleLeader).

(** ** Messages and deferred actions *)

(** A reply carries the term of the request it answers: it arrives on the
    connection the request was sent on. *)
Inductive msg :=
  | VoteReq (from to : addr) (term : Z)
  | VoteResp (from to : addr) (reqTerm : Z) (granted : bool) (term : Z)
  | HeartbeatReq (from to : addr) (term : Z).

Inductive action :=
  | OnFollower            (* r.onFollower() *)
  | Signal                (* select { case r.heartbeatCh <- struct{}{}: default: } *)
  | Send (m : msg).

(** ** Handlers called by the server *)

Definition HandleHeartbeat (r : RaftState) (term : Z) (leaderID : addr) : RaftState * list action :=
  if term <? currentTerm r then (r, []) else
  let wasLeader := is_leader r in
  let r := if currentTerm r <? term then set_term r term [] else r in
  let r := set_leader r leaderID in
  let r := set_role r RoleFollower in
  (r, (if wasLeader then [OnFollower] else []) ++ [Signal]).

Definition HandleVoteRequest (r : RaftState) (term : Z) (candidateID : addr)
    : RaftState * (bool * Z) * list action :=
  if term <? currentTerm r then (r, (false, currentTerm r), []) else
  if is_leader r && (term =? currentTerm r) then (r, (false, currentTerm r), []) else
  let wasLeader := is_leader r in
  let r := if currentTerm r <? term then set_role (set_term r term []) RoleFollower else r in
  if bool_decide (votedFor r = []) || bool_decide (votedFor r = candidateID) then
    let r := set_term r (currentTerm r) candidateID in
    (r, (true, currentTerm r), (if wasLeader then [OnFollower] else []) ++ [Signal])
  else (r, (false, currentTerm r), []).

(** ** The run loop *)

Definition otherPeers (r : RaftState) : list addr := filter (λ p, p ≠ nodeAddr r) (peers r).

(** One election: the local variables of [runCandidate].  [pending] are the peers
    whose goroutine has not finished. *)
Record election := mkElection { el_term : Z; votes : Z; pending : list addr }.
#[export] Instance election_eq_dec : EqDecision election.
Proof. solve_decision. Defined.

(** Where the goroutine is: about to read the role, waiting in [runFollower]'s
    select, at the start of [runCandidate], in its select, about to call
    [onLeader], at the top of [runLeader]'s loop, in its select. *)
Inductive pc :=
  | Top | FollowerWait | CandidateStart | CandidateWait (e : election)
  | CallOnLeader | LeaderTop | LeaderWait (term : Z).
#[export] Instance pc_eq_dec : EqDecision pc.
Proof. solve_decision. Defined.

Definition run_dispatch (r : RaftState) : pc :=
  match role r with
  | RoleFollower => FollowerWait
  | RoleCandidate => CandidateStart
  | RoleLeader => LeaderTop
  end.

Definition candidate_start (r : RaftState) : RaftState * election * list msg :=
  let r := set_term r (u64 (currentTerm r + 1)) (nodeAddr r) in
  let others := otherPeers r in
  (r, mkElection (currentTerm r) 1 others,
   (λ p, VoteReq (nodeAddr r) p (currentTerm r)) <$> others).

(** The end of [requestVoteRPC]: step down if the peer has a higher term. *)
Definition vote_reply (r : RaftState) (term : Z) : RaftState :=
  if currentTerm r <? term then set_term (set_role r RoleFollower) term [] else r.

(** One goroutine of [p] is done. *)
Fixpoint remove_one (p : addr) (l : list addr) : list addr :=
  match l with
  | [] => []
  | q :: l => if bool_decide (q = p) then l else q :: remove_one p l
  end.

Definition count_vote (e : election) (p : addr) (granted : bool) : election :=
  mkElection (el_term e) (votes e + (if granted then 1 else 0)) (remove_one p (pending e)).

Definition quorum (r : RaftState) : Z := Z.quot (len (peers r)) 2 + 1.

(** After the select of [runCandidate]. *)
Definition tally (r : RaftState) (e : election) : RaftState * pc :=
  if negb (bool_decide (role r = RoleCandidate)) || negb (currentTerm r =? el_term e) then (r, Top) else
  if quorum r <=? votes e
  then (set_leader (set_role r RoleLeader) (nodeAddr r), CallOnLeader)
  else (set_role r RoleFollower, Top).

(** ** A node and a cluster *)

(** [leading] is [Node.leader != nil]; [tasks] are the goroutines that still have
    something to do after unlocking. *)
Record node := mkNode { raft : RaftState; at_ : pc; leading : bool; tasks : list (list action) }.

Definition new_node (self : addr) (ps : list addr) : node := mkNode (NewRaftState self ps) Top false [].

Definition with_raft (n : node) (r : RaftState) : node := mkNode r (at_ n) (leading n) (tasks n).
Definition with_pc (n : node) (r : RaftState) (p : pc) : node := mkNode r p (leading n) (tasks n).
Definition add_task (n : node) (t : list action) : node := mkNode (raft n) (at_ n) (leading n) (tasks n ++ [t]).

(** An action of a goroutine: what it does to the node, and what it sends.
    [becomeFollower] clears the leader. *)
Definition do_action (n : node) (a : action) : node * list msg :=
  match a with
  | OnFollower => (mkNode (raft n) (at_ n) false (tasks n), [])
  | Signal => (with_raft n (set_heartbeat (raft n) true), [])
  | Send m => (n, [m])
  end.

(** The votes cast and the elections won so far are recorded beside the program. *)
Record cluster := mkCluster {
  nodes : gmap addr node;
  msgs : list msg;
  cast : list (addr * Z * addr);
  won : list (Z * addr);
}.

Definition upd (c : cluster) (a : addr) (n : node) (ms : list msg) : cluster :=
  mkCluster (<[a := n]> (nodes c)) (msgs c ++ ms) (cast c) (won c).
Definition record_vote (c : cluster) (v : list (addr * Z * addr)) : cluster :=
  mkCluster (nodes c) (msgs c) (cast c ++ v) (won c).
Definition record_win (c : cluster) (v : list (Z * addr)) : cluster :=
  mkCluster (nodes c) (msgs c) (cast c) (won c ++ v).

Definition init (ps : list addr) : cluster :=
  mkCluster (list_to_map ((λ a, (a, new_node a ps)) <$> ps)) [] [] [].

Inductive step (c : cluster) : cluster → Prop :=
  (** the server hands a message to its handler *)
  | s_heartbeat a n from term r acts :
      nodes c !! a = Some n → HeartbeatReq from a term ∈ msgs c →
      HandleHeartbeat (raft n) term from = (r, acts) →
      step c (upd c a (add_task (with_raft n r) acts) [])
  | s_vote_req a n from term r granted t acts :
      nodes c !! a = Some n → VoteReq from a term ∈ msgs c →
      HandleVoteRequest (raft n) term from = (r, (granted, t), acts) →
      step c (record_vote (upd c a (add_task (with_raft n r) (acts ++ [Send (VoteResp a from term granted t)])) [])
                (if granted then [(a, term, from)] else []))
  (** a goroutine's next action after unlocking *)
  | s_task a n i act acts n' ms :
      nodes c !! a = Some n → tasks n !! i = Some (act :: acts) →
      do_action (mkNode (raft n) (at_ n) (leading n) (<[i := acts]> (tasks n))) act = (n', ms) →
      step c (upd c a n' ms)
  (** the run loop *)
  | s_dispatch a n :
      nodes c !! a = Some n → at_ n = Top →
      step c (upd c a (with_pc n (raft n) (run_dispatch (raft n))) [])
  | s_follower_heartbeat a n :
      nodes c !! a = Some n → at_ n = FollowerWait → heartbeatCh (raft n) = true →
      step c (upd c a (with_pc n (set_heartbeat (raft n) false) Top) [])
  | s_follower_timeout a n :
      nodes c !! a = Some n → at_ n = FollowerWait →
      step c (upd c a (with_pc n (set_role (raft n) RoleCandidate) Top) [])
  | s_candidate_start a n r e ms :
      nodes c !! a = Some n → at_ n = CandidateStart → candidate_start (raft n) = (r, e, ms) →
      step c (record_vote (upd c a (with_pc n r (CandidateWait e)) ms) [(a, el_term e, a)])
  (** a reply to this election, or to an earlier one whose select is over *)
  | s_vote_reply a n e from granted t :
      nodes c !! a = Some n → at_ n = CandidateWait e → from ∈ pending e →
      VoteResp from a (el_term e) granted t ∈ msgs c →
      step c (upd c a (with_pc n (vote_reply (raft n) t) (CandidateWait (count_vote e from granted))) [])
  | s_vote_failed a n e from :
      nodes c !! a = Some n → at_ n = CandidateWait e → from ∈ pending e →
      step c (upd c a (with_pc n (raft n) (CandidateWait (count_vote e from false))) [])
  | s_late_reply a n from reqTerm granted t :
      nodes c !! a = Some n → VoteResp from a reqTerm granted t ∈ msgs c →
      step c (upd c a (with_raft n (vote_reply (raft n) t)) [])
  | s_candidate_heartbeat a n e :
      nodes c !! a = Some n → at_ n = CandidateWait e → heartbeatCh (raft n) = true →
      step c (upd c a (with_pc n (set_role (set_heartbeat (raft n) false) RoleFollower) Top) [])
  (** all goroutines done, or time out *)
  | s_tally a n e r p :
      nodes c !! a = Some n → at_ n = CandidateWait e → tally (raft n) e = (r, p) →
      step c (record_win (upd c a (with_pc n r p) [])
                (if bool_decide (p = CallOnLeader) then [(el_term e, a)] else []))
  (** [onLeader]: [becomeLeader] makes a new leader *)
  | s_on_leader a n :
      nodes c !! a = Some n → at_ n = CallOnLeader →
      step c (upd c a (mkNode (raft n) Top true (tasks n)) [])
  | s_leader_top a n :
      nodes c !! a = Some n → at_ n = LeaderTop →
      step c (upd c a (with_pc n (raft n)
        (if is_leader (raft n) then LeaderWait (currentTerm (raft n)) else Top)) [])
  | s_leader_tick a n term :
      nodes c !! a = Some n → at_ n = LeaderWait term →
      step c (upd c a (with_pc n (raft n) LeaderTop)
        ((λ p, HeartbeatReq a p term) <$> otherPeers (raft n)))
  | s_leader_heartbeat a n term :
      nodes c !! a = Some n → at_ n = LeaderWait term → heartbeatCh (raft n) = true →
      step c (upd c a (with_pc n (set_heartbeat (raft n) false)
        (if is_leader (raft n) then LeaderTop else Top)) []).

(** ** Handlers: terms and votes only move forward *)

(** From [r] to [r'], the vote [v] having been cast for its term. *)
Record advances (r r' : RaftState) (v : option (Z * addr)) : Prop := {
  adv_addr : nodeAddr r' = nodeAddr r;
  adv_peers : peers r' = peers r;
  adv_term : currentTerm r ≤ currentTerm r';
  adv_vote : currentTerm r' = currentTerm r → votedFor r ≠ [] → votedFor r' = votedFor r;
  adv_cast t x : v = Some (t, x) → currentTerm r' = t ∧ votedFor r' = x;
  adv_lead : role r' = RoleLeader → role r = RoleLeader ∧ currentTerm r' = currentTerm r;
}.

Ltac raft_cases :=
  repeat first
    [ case_bool_decide
    | match goal with
      | |- context [if ?b then _ else _] => destruct b eqn:?
      | H : context [if ?b then _ else _] |- _ => destruct b eqn:?
      end ].

Lemma HandleHeartbeat_advances r term from r' acts :
  HandleHeartbeat r term from = (r', acts) → advances r r' None.
Proof.
  unfold HandleHeartbeat. intros E. raft_cases; simplify_eq; split; simpl; try done; try lia; naive_solver lia.
Qed.

Lemma HandleVoteRequest_advances r term from r' granted t acts :
  HandleVoteRequest r term from = (r', (granted, t), acts) →
  advances r r' (if granted then Some (term, from) else None) ∧ t = currentTerm r'.
Proof.
  unfold HandleVoteRequest, is_leader. intros E. raft_cases; simplify_eq; split; try done; split; simpl in *; try done; try lia;
    try naive_solver lia.
Qed.

(** ** The invariant of elections *)

(** A majority of the peers has voted for [x] in term [t]. *)
Definition majority (ps : list addr) (votes : list (addr * Z * addr)) (t : Z) (x : addr) : Prop :=
  ∃ Q, NoDup Q ∧ (∀ q, q ∈ Q → q ∈ ps ∧ (q, t, x) ∈ votes) ∧ Z.quot (len ps) 2 + 1 ≤ len Q.

(** The counter of an election is the candidate and the peers that voted for it. *)
Definition election_ok (ps : list addr) (vs : list (addr * Z * addr)) (a : addr) (e : election) : Prop :=
  ∃ gs, votes e = 1 + len gs ∧ NoDup (a :: gs ++ pending e) ∧
    (∀ q, q ∈ a :: gs ++ pending e → q ∈ ps) ∧ (∀ q, q ∈ a :: gs → (q, el_term e, a) ∈ vs).

Definition msg_ok (vs : list (addr * Z * addr)) (ws : list (Z * addr)) (m : msg) : Prop :=
  match m with
  | VoteReq from _ _ => from ≠ []
  | VoteResp from to reqTerm granted _ => granted = true → (from, reqTerm, to) ∈ vs
  | HeartbeatReq from _ term => (term, from) ∈ ws
  end.

Definition leader_pc (p : pc) : Prop :=
  match p with Top | CallOnLeader | LeaderTop | LeaderWait _ => True | _ => False end.

(** A node against the votes cast and the elections won. *)
Record node_ok (ps : list addr) (vs : list (addr * Z * addr)) (ws : list (Z * addr))
    (a : addr) (n : node) : Prop := {
  n_addr : nodeAddr (raft n) = a;
  n_peers : peers (raft n) = ps;
  n_in : a ∈ ps;
  n_cast t x : (a, t, x) ∈ vs →
    t ≤ currentTerm (raft n) ∧ (t = currentTerm (raft n) → votedFor (raft n) = x);
  n_leader : role (raft n) = RoleLeader → (currentTerm (raft n), a) ∈ ws ∧ leader_pc (at_ n);
  n_elect e : at_ n = CandidateWait e → election_ok ps vs a e;
  n_wait t : at_ n = LeaderWait t → (t, a) ∈ ws;
  n_tasks acts m : acts ∈ tasks n → Send m ∈ acts → msg_ok vs ws m;
}.

Record inv (ps : list addr) (c : cluster) : Prop := {
  i_nodes a n : nodes c !! a = Some n → node_ok ps (cast c) (won c) a n;
  i_cast a t x : (a, t, x) ∈ cast c → x ≠ [];
  i_unique a t x y : (a, t, x) ∈ cast c → (a, t, y) ∈ cast c → x = y;
  i_msgs m : m ∈ msgs c → msg_ok (cast c) (won c) m;
  i_won t x : (t, x) ∈ won c → majority ps (cast c) t x;
}.

(** More votes and wins break nothing. *)
Lemma msg_ok_mono vs ws vs' ws' m : msg_ok vs ws m → msg_ok (vs ++ vs') (ws ++ ws') m.
Proof. destruct m; simpl; [done|..]; intros; apply elem_of_app; left; auto. Qed.

Lemma election_ok_mono ps vs vs' a e : election_ok ps vs a e → election_ok ps (vs ++ vs') a e.
Proof.
  intros (gs & ?&?&?&Hv). exists gs. split_and!; [done..|]. intros q Hq. apply elem_of_app. left. auto.
Qed.

Lemma majority_mono ps vs vs' t x : majority ps vs t x → majority ps (vs ++ vs') t x.
Proof.
  intros (Q & ? & HQ & ?). exists Q. split_and!; [done| |done].
  intros q [? ?]%HQ. split; [done|]. apply elem_of_app. by left.
Qed.

(** A change of node [a], with new messages, votes and wins. *)
Definition change (c : cluster) (a : addr) (n : node) (ms : list msg)
    (vs : list (addr * Z * addr)) (ws : list (Z * addr)) : cluster :=
  mkCluster (<[a := n]> (nodes c)) (msgs c ++ ms) (cast c ++ vs) (won c ++ ws).

Lemma change_upd c a n ms : upd c a n ms = change c a n ms [] [].
Proof. unfold upd, change. by rewrite !app_nil_r. Qed.

Lemma change_vote c a n ms vs : record_vote (upd c a n ms) vs = change c a n ms vs [].
Proof. unfold record_vote, upd, change. simpl. by rewrite !app_nil_r. Qed.

Lemma change_win c a n ms ws : record_win (upd c a n ms) ws = change c a n ms [] ws.
Proof. unfold record_win, upd, change. simpl. by rewrite !app_nil_r. Qed.

(** The invariant from the changed node alone: a vote it casts is its vote in its
    current term. *)
Lemma inv_change ps c a n n' ms vs ws :
  inv ps c → nodes c !! a = Some n →
  node_ok ps (cast c ++ vs) (won c ++ ws) a n' →
  currentTerm (raft n) ≤ currentTerm (raft n') →
  (currentTerm (raft n') = currentTerm (raft n) → votedFor (raft n) ≠ [] →
     votedFor (raft n') = votedFor (raft n)) →
  (∀ b t x, (b, t, x) ∈ vs → b = a ∧ t = currentTerm (raft n') ∧ x = votedFor (raft n') ∧ x ≠ []) →
  (∀ m, m ∈ ms → msg_ok (cast c ++ vs) (won c ++ ws) m) →
  (∀ t x, (t, x) ∈ ws → majority ps (cast c ++ vs) t x) →
  inv ps (change c a n' ms vs ws).
Proof.
  intros [I1 I2 I3 I4 I5] Hn Hok' Hterm Hvote Hvs Hms Hws.
  assert (∀ t x y, (a, t, x) ∈ cast c → (a, t, y) ∈ vs → x = y) as Hnew.
  { intros t x y Hx (_ & -> & -> & _)%Hvs.
    destruct (n_cast _ _ _ _ _ (I1 _ _ Hn) _ _ Hx) as [Hle Heq].
    assert (currentTerm (raft n') = currentTerm (raft n)) as E by lia.
    specialize (Heq E). apply I2 in Hx. rewrite Hvote by congruence. done. }
  split; simpl.
  - intros b nb [[<- <-]|[Hne Hb]]%lookup_insert_Some; [done|].
    destruct (I1 _ _ Hb) as [H1 H2 H3 H4 H5 H6 H7 H8]. split; try done.
    + intros t x [Hx|Hx]%elem_of_app; [by apply H4|]. by apply Hvs in Hx as [-> _].
    + intros Hl. destruct (H5 Hl). split; [apply elem_of_app; by left|done].
    + intros e He. by apply election_ok_mono, H6.
    + intros t Ht. apply elem_of_app. left. by apply H7.
    + intros acts m Ha Hm. by eapply msg_ok_mono, H8.
  - intros b t x [Hx|Hx]%elem_of_app; [by eapply I2|]. by apply Hvs in Hx as (_&_&_&?).
  - intros b t x y [Hx|Hx]%elem_of_app [Hy|Hy]%elem_of_app.
    + by eapply I3.
    + pose proof Hy as (-> & _)%Hvs. by eapply Hnew.
    + pose proof Hx as (-> & _)%Hvs. symmetry. by eapply Hnew.
    + apply Hvs in Hx as (_&_&->&_), Hy as (_&_&->&_). done.
  - intros m [Hm|Hm]%elem_of_app; [by apply msg_ok_mono, I4|by apply Hms].
  - intros t x [Hx|Hx]%elem_of_app; [by apply majority_mono, I5|by apply Hws].
Qed.

(** ** Every step keeps it *)

Definition pc_ok (ps : list addr) (vs : list (addr * Z * addr)) (ws : list (Z * addr)) (a : addr)
    (r : RaftState) (p : pc) : Prop :=
  (role r = RoleLeader → leader_pc p) ∧
  match p with
  | CandidateWait e => election_ok ps vs a e
  | LeaderWait t => (t, a) ∈ ws
  | _ => True
  end.

Definition cast_of (a : addr) (v : option (Z * addr)) : list (addr * Z * addr) :=
  match v with Some (t, x) => [(a, t, x)] | None => [] end.

Lemma cast_of_in a v b t x : (b, t, x) ∈ cast_of a v → b = a ∧ v = Some (t, x).
Proof.
  destruct v as [[??]|]; simpl; [|by intros ?%not_elem_of_nil].
  intros ?%list_elem_of_singleton. naive_solver.
Qed.

(** Where the loop stays where it is. *)
Lemma pc_ok_stay ps vs ws vs' ws' a n r' v :
  node_ok ps vs ws a n → advances (raft n) r' v → pc_ok ps (vs ++ vs') (ws ++ ws') a r' (at_ n).
Proof.
  intros [H1 H2 H3 H4 H5 H6 H7 H8] [A1 A2 A3 A4 A5 A6]. split.
  - intros Hl. by apply H5, A6.
  - destruct (at_ n) eqn:E; try done; [by apply election_ok_mono, H6|apply elem_of_app; left; by apply H7].
Qed.

(** A step of one node whose term and vote move forward. *)
Lemma inv_advance ps c a n n' v ms :
  inv ps c → nodes c !! a = Some n → advances (raft n) (raft n') v →
  (∀ t x, v = Some (t, x) → x ≠ []) →
  pc_ok ps (cast c ++ cast_of a v) (won c) a (raft n') (at_ n') →
  (∀ acts m, acts ∈ tasks n' → Send m ∈ acts → msg_ok (cast c ++ cast_of a v) (won c) m) →
  (∀ m, m ∈ ms → msg_ok (cast c ++ cast_of a v) (won c) m) →
  inv ps (change c a n' ms (cast_of a v) []).
Proof.
  intros Hi Hn [A1 A2 A3 A4 A5 A6] Hv [Hpc1 Hpc2] Htasks Hms.
  pose proof (i_nodes _ _ Hi _ _ Hn) as [H1 H2 H3 H4 H5 H6 H7 H8].
  apply (inv_change ps c a n); rewrite ?app_nil_r; try done.
  - split.
    + by rewrite A1.
    + by rewrite A2.
    + done.
    + intros t x [Hx|Hx]%elem_of_app.
      * destruct (H4 _ _ Hx) as [Hle Heq]. split; [lia|]. intros ->.
        assert (currentTerm (raft n') = currentTerm (raft n)) as E by lia.
        specialize (Heq E). apply (i_cast _ _ Hi) in Hx. rewrite A4 by congruence. done.
      * apply cast_of_in in Hx as [_ Hx]. destruct (A5 _ _ Hx) as [-> ->]. split; [lia|done].
    + intros Hl. destruct (A6 Hl) as [Hl' ->]. split; [by apply H5|by apply Hpc1].
    + intros e He. by rewrite He in Hpc2.
    + intros t Ht. by rewrite Ht in Hpc2.
    + done.
  - intros b t x [-> Hx]%cast_of_in. destruct (A5 _ _ Hx) as [-> ->]. split_and!; try done. by eapply Hv.
  - intros t x ?%not_elem_of_nil. done.
Qed.

Lemma advances_refl r : advances r r None.
Proof. by split. Qed.

Lemma HandleHeartbeat_acts r term from r' acts m :
  HandleHeartbeat r term from = (r', acts) → Send m ∉ acts.
Proof.
  unfold HandleHeartbeat. intros E. raft_cases; simplify_eq; simpl; rewrite ?elem_of_cons, ?elem_of_nil; naive_solver.
Qed.

Lemma HandleVoteRequest_acts r term from r' g acts m :
  HandleVoteRequest r term from = (r', g, acts) → Send m ∉ acts.
Proof.
  unfold HandleVoteRequest. intros E. raft_cases; simplify_eq; simpl; rewrite ?elem_of_cons, ?elem_of_nil; naive_solver.
Qed.

Lemma vote_reply_advances r t : advances r (vote_reply r t) None.
Proof. unfold vote_reply. destruct (_ <? _) eqn:E; split; simpl; try done; try lia; naive_solver lia. Qed.

Lemma set_heartbeat_advances r b : advances r (set_heartbeat r b) None.
Proof. by split. Qed.

Lemma set_role_advances r x : x ≠ RoleLeader → advances r (set_role r x) None.
Proof. by split. Qed.

Lemma advances_trans r1 r2 r3 : advances r1 r2 None → advances r2 r3 None → advances r1 r3 None.
Proof.
  intros [A1 A2 A3 A4 A5 A6] [B1 B2 B3 B4 B5 B6]. split; try done; try congruence; try lia.
  - intros E Hv. assert (currentTerm r2 = currentTerm r1) as E2 by lia.
    rewrite B4; [by apply A4|lia|]. by rewrite A4.
  - intros Hl. destruct (B6 Hl) as [Hl2 E2]. destruct (A6 Hl2). split; [done|lia].
Qed.

(** Counting one more goroutine. *)
Lemma remove_one_perm p l : p ∈ l → p :: remove_one p l ≡ₚ l.
Proof.
  induction l as [|q l IH]; simpl; [by intros ?%not_elem_of_nil|].
  intros [->|Hp]%elem_of_cons; [by rewrite bool_decide_true|].
  case_bool_decide; [by subst|]. etrans; [apply perm_swap|]. by rewrite IH.
Qed.

Lemma count_vote_ok ps vs a e p granted :
  election_ok ps vs a e → p ∈ pending e → (granted = true → (p, el_term e, a) ∈ vs) →
  election_ok ps vs a (count_vote e p granted).
Proof.
  intros (gs & Hc & Hnd & Hin & Hv) Hp Hg. pose proof (remove_one_perm _ _ Hp) as Hperm.
  destruct granted.
  - exists (gs ++ [p]).
    assert (a :: (gs ++ [p]) ++ remove_one p (pending e) ≡ₚ a :: gs ++ pending e) as Hp'.
    { rewrite <-app_assoc. simpl. by rewrite Hperm. }
    split_and!; simpl.
    + rewrite Hc. len_lia.
    + by rewrite Hp'.
    + intros q. rewrite Hp'. apply Hin.
    + intros q. rewrite elem_of_cons, elem_of_app, list_elem_of_singleton. intros [->|[Hq| ->]].
      * apply Hv. by left.
      * apply Hv. by right.
      * by apply Hg.
  - exists gs. split_and!; simpl; [lia| | |done].
    + apply NoDup_cons in Hnd as [Ha Hnd]. apply NoDup_app in Hnd as (Hg1 & Hd & Hpd).
      rewrite <-Hperm in Hpd. apply NoDup_cons in Hpd as [_ Hpd].
      apply NoDup_cons. split.
      * intros [Hq|Hq]%elem_of_app; apply Ha, elem_of_app; [by left|right].
        rewrite <-Hperm. by right.
      * apply NoDup_app. split_and!; [done| |done]. intros q Hq1 Hq2. apply (Hd q Hq1).
        rewrite <-Hperm. by right.
    + intros q [->|[Hq|Hq]%elem_of_app]%elem_of_cons; apply Hin; [by left|right; apply elem_of_app; by left|].
      right. apply elem_of_app. right. rewrite <-Hperm. by right.
Qed.

(** Terms have not reached the last one of a [uint64]. *)
Definition terms_small (c : cluster) : Prop :=
  ∀ a n, nodes c !! a = Some n → 0 ≤ currentTerm (raft n) < 2 ^ 64 - 1.

Lemma candidate_start_ok ps vs ws a n r e ms :
  node_ok ps vs ws a n → NoDup ps → 0 ≤ currentTerm (raft n) < 2 ^ 64 - 1 → role (raft n) ≠ RoleLeader →
  candidate_start (raft n) = (r, e, ms) →
  advances (raft n) r (Some (el_term e, a)) ∧ el_term e = currentTerm r ∧
  election_ok ps (vs ++ [(a, el_term e, a)]) a e ∧ (∀ m, m ∈ ms → ∃ p, m = VoteReq a p (el_term e)).
Proof.
  intros [H1 H2 H3 H4 H5 H6 H7 H8] Hps Ht Hr. unfold candidate_start. intros [= <- <- <-]. simpl.
  rewrite u64_small by lia. unfold otherPeers. simpl. rewrite H1, H2. split_and!; [split| | |]; simpl; try done; try lia.
  - by intros t x [= <- <-].
  - exists []. simpl. split_and!.
    + done.
    + apply NoDup_cons. split; [|by apply NoDup_filter]. rewrite list_elem_of_filter. naive_solver.
    + intros q [->|[_ Hq]%list_elem_of_filter]%elem_of_cons; done.
    + intros q ->%list_elem_of_singleton. apply elem_of_app. right. by left.
  - intros m (p & -> & _)%list_elem_of_fmap. eauto.
Qed.

Lemma tally_ok ps vs ws a n e r p :
  node_ok ps vs ws a n → at_ n = CandidateWait e → tally (raft n) e = (r, p) →
  nodeAddr r = a ∧ peers r = ps ∧ currentTerm r = currentTerm (raft n) ∧ votedFor r = votedFor (raft n) ∧
  (p = CallOnLeader ∧ role r = RoleLeader ∧ currentTerm r = el_term e ∧ majority ps vs (el_term e) a ∨
   p = Top ∧ role r ≠ RoleLeader).
Proof.
  intros [H1 H2 H3 H4 H5 H6 H7 H8] He. unfold tally. intros E.
  assert (role (raft n) ≠ RoleLeader) as Hnl.
  { intros Hl. destruct (H5 Hl) as [_ Hp]. by rewrite He in Hp. }
  destruct (_ || _) eqn:Eb; [injection E as <- <-; split_and!; auto|].
  apply orb_false_iff in Eb as [Er Et]. destruct (quorum (raft n) <=? votes e) eqn:Eq;
    injection E as <- <-; simpl; split_and!; try done.
  - left. split_and!; [done|done|lia|]. destruct (H6 e He) as (gs & Hc & Hnd & Hin & Hv).
    exists (a :: gs). split_and!.
    + change (a :: gs ++ pending e) with ((a :: gs) ++ pending e) in Hnd. by apply NoDup_app in Hnd as [? _].
    + intros q Hq. split; [|by apply Hv]. apply Hin. change (a :: gs ++ pending e) with ((a :: gs) ++ pending e).
      apply elem_of_app. by left.
    + unfold quorum in Eq. rewrite H2 in Eq. rewrite len_cons. lia.
  - by right.
Qed.

Ltac inv_tasks Hok := intros ?acts ?m ?Ha ?Hm; rewrite ?app_nil_r; by eapply (n_tasks _ _ _ _ _ Hok).

Lemma inv_stay ps c a n n' ms v :
  inv ps c → nodes c !! a = Some n → advances (raft n) (raft n') v → (∀ t x, v = Some (t, x) → x ≠ []) →
  at_ n' = at_ n →
  (∀ acts m, acts ∈ tasks n' → Send m ∈ acts → msg_ok (cast c ++ cast_of a v) (won c) m) →
  (∀ m, m ∈ ms → msg_ok (cast c ++ cast_of a v) (won c) m) →
  inv ps (change c a n' ms (cast_of a v) []).
Proof.
  intros Hi Hn Ha Hv Hpc Ht Hm. eapply inv_advance; [done..| |done|done]. rewrite Hpc.
  rewrite <-(app_nil_r (won c)). eapply pc_ok_stay; [by eapply i_nodes|done].
Qed.

(** A step of the run loop that casts no vote and sends nothing new. *)
Lemma inv_loop ps c a n r p ms :
  inv ps c → nodes c !! a = Some n → advances (raft n) r None →
  pc_ok ps (cast c) (won c) a r p → (∀ m, m ∈ ms → msg_ok (cast c) (won c) m) →
  inv ps (upd c a (with_pc n r p) ms).
Proof.
  intros Hi Hn Ha Hp Hm. rewrite change_upd.
  apply (inv_advance ps c a n (with_pc n r p) None ms); simpl; rewrite ?app_nil_r; try done.
  intros acts m. by apply (n_tasks _ _ _ _ _ (i_nodes _ _ Hi _ _ Hn)).
Qed.

Lemma not_leader_at ps vs ws a n : node_ok ps vs ws a n → ¬ leader_pc (at_ n) → role (raft n) ≠ RoleLeader.
Proof. intros Hok Hp Hl. by apply (n_leader _ _ _ _ _ Hok) in Hl as [_ ?]. Qed.

Lemma no_new_msg c (m : msg) : m ∈ [] → msg_ok (cast c) (won c) m.
Proof. by intros ?%not_elem_of_nil. Qed.
#[local] Hint Resolve no_new_msg : keva.

(** The handlers and the goroutines they leave. *)
Lemma inv_handlers ps c a n r acts v :
  inv ps c → nodes c !! a = Some n → advances (raft n) r v → (∀ t x, v = Some (t, x) → x ≠ []) →
  (∀ m, Send m ∈ acts → msg_ok (cast c ++ cast_of a v) (won c) m) →
  inv ps (change c a (add_task (with_raft n r) acts) [] (cast_of a v) []).
Proof.
  intros Hi Hn Ha Hv Hacts. apply (inv_stay ps c a n); try done.
  - simpl. intros acts' m [Hin| ->%list_elem_of_singleton]%elem_of_app Hm; [|by apply Hacts].
    rewrite <-(app_nil_r (won c)). apply msg_ok_mono.
    by apply (n_tasks _ _ _ _ _ (i_nodes _ _ Hi _ _ Hn) acts').
  - intros m ?%not_elem_of_nil. done.
Qed.

Lemma inv_task ps c a n i act acts n' ms :
  inv ps c → nodes c !! a = Some n → tasks n !! i = Some (act :: acts) →
  do_action (mkNode (raft n) (at_ n) (leading n) (<[i := acts]> (tasks n))) act = (n', ms) →
  inv ps (upd c a n' ms).
Proof.
  intros Hi Hn Ht Hdo. pose proof (i_nodes _ _ Hi _ _ Hn) as Hok.
  assert (tasks n' = <[i := acts]> (tasks n) ∧ at_ n' = at_ n ∧ advances (raft n) (raft n') None ∧
          (∀ m, m ∈ ms → act = Send m)) as (E1 & E2 & E3 & E4).
  { destruct act; simpl in Hdo; simplify_eq; simpl; (split_and!; [done|done|by split|]); intros m0 Hm0.
    - by apply not_elem_of_nil in Hm0.
    - by apply not_elem_of_nil in Hm0.
    - by apply list_elem_of_singleton in Hm0 as ->. }
  rewrite change_upd. apply (inv_stay ps c a n n' ms None); simpl; rewrite ?app_nil_r; try done.
  - rewrite E1. intros acts' m [j Hj]%list_elem_of_lookup Hm.
    apply list_lookup_insert_Some in Hj as [(-> & <- & _)|[_ Hj]].
    + eapply (n_tasks _ _ _ _ _ Hok); [by eapply list_elem_of_lookup_2|by right].
    + eapply (n_tasks _ _ _ _ _ Hok); [by eapply list_elem_of_lookup_2|done].
  - intros m ->%E4. eapply (n_tasks _ _ _ _ _ Hok); [by eapply list_elem_of_lookup_2|by left].
Qed.

(** An election is won. *)
Lemma inv_tally ps c a n e r p :
  inv ps c → nodes c !! a = Some n → at_ n = CandidateWait e → tally (raft n) e = (r, p) →
  inv ps (record_win (upd c a (with_pc n r p) []) (if bool_decide (p = CallOnLeader) then [(el_term e, a)] else [])).
Proof.
  intros Hi Hn He Ht. pose proof (i_nodes _ _ Hi _ _ Hn) as Hok. rewrite change_win.
  destruct (tally_ok _ _ _ _ _ _ _ _ Hok He Ht) as (T1 & T2 & T3 & T4 & T5).
  pose proof Hok as [H1 H2 H3 H4 H5 H6 H7 H8].
  apply (inv_change ps c a n); rewrite ?app_nil_r; try done.
  - split; simpl; try done.
    + intros t x Hx. rewrite T3, T4. by apply H4.
    + intros Hl. destruct T5 as [(-> & _ & -> & _)|(-> & ?)]; [|done].
      rewrite bool_decide_true by done. split; [|done]. apply elem_of_app. right. by left.
    + intros e' ->. naive_solver.
    + intros t ->. naive_solver.
    + intros acts m Ha Hm. rewrite <-(app_nil_r (cast c)). eapply msg_ok_mono, H8; done.
  - simpl. lia.
  - intros b t x ?%not_elem_of_nil. done.
  - intros m ?%not_elem_of_nil. done.
  - intros t x. case_bool_decide as E; [|by intros ?%not_elem_of_nil].
    intros [= -> ->]%list_elem_of_singleton. naive_solver.
Qed.

(** A vote request is handled: the vote, if granted, is recorded, and the reply says so. *)
Lemma inv_vote_request ps c a n from term r granted t acts :
  inv ps c → nodes c !! a = Some n → VoteReq from a term ∈ msgs c →
  HandleVoteRequest (raft n) term from = (r, (granted, t), acts) →
  inv ps (record_vote (upd c a (add_task (with_raft n r) (acts ++ [Send (VoteResp a from term granted t)])) [])
            (if granted then [(a, term, from)] else [])).
Proof.
  intros Hi Hn Hm Hh.
  destruct (HandleVoteRequest_advances _ _ _ _ _ _ _ Hh) as [Ha _]. rewrite change_vote.
  pose proof (i_msgs _ _ Hi _ Hm) as Hfrom. simpl in Hfrom.
  assert ((if granted then [(a, term, from)] else []) = cast_of a (if granted then Some (term, from) else None))
    as -> by (by destruct granted).
  apply (inv_handlers ps c a n r); [done..| |].
  - destruct granted; naive_solver.
  - intros m [Hin|[= ->]%list_elem_of_singleton]%elem_of_app.
    + by apply (HandleVoteRequest_acts _ _ _ _ _ _ m) in Hh.
    + simpl. intros ->. apply elem_of_app. right. by left.
Qed.

(** A candidate starts an election with its own vote. *)
Lemma inv_candidate_start ps c a n r e ms :
  NoDup ps → [] ∉ ps → inv ps c → terms_small c → nodes c !! a = Some n → at_ n = CandidateStart →
  candidate_start (raft n) = (r, e, ms) →
  inv ps (record_vote (upd c a (with_pc n r (CandidateWait e)) ms) [(a, el_term e, a)]).
Proof.
  intros Hps Hne Hi Hsmall Hn Hpc Hc. pose proof (i_nodes _ _ Hi _ _ Hn) as Hnode.
  assert (role (raft n) ≠ RoleLeader) as Hnl by (eapply not_leader_at; [done|rewrite Hpc; by intros []]).
  destruct (candidate_start_ok _ _ _ _ _ _ _ _ Hnode Hps (Hsmall _ _ Hn) Hnl Hc) as (Ha & Et & He & Hms).
  rewrite change_vote. assert (a ≠ []) as Ha0 by (intros ->; by apply Hne, (n_in _ _ _ _ _ Hnode)).
  apply (inv_advance ps c a n (with_pc n r (CandidateWait e)) (Some (el_term e, a)) ms); try done.
  - naive_solver.
  - split; simpl; [|done]. intros Hl. by apply (adv_lead _ _ _ Ha) in Hl as [? _].
  - simpl. intros acts m Hin Hs. rewrite <-(app_nil_r (won c)). apply msg_ok_mono.
    by eapply (n_tasks _ _ _ _ _ Hnode).
  - intros m [p ->]%Hms. done.
Qed.

Lemma inv_step ps c c' : NoDup ps → [] ∉ ps → inv ps c → terms_small c → step c c' → inv ps c'.
Proof.
  intros Hps Hne Hi Hsmall Hstep.
  assert (∀ a n, nodes c !! a = Some n → node_ok ps (cast c) (won c) a n) as Hok by apply Hi.
  destruct Hstep as [a n from term r acts Hn Hm Hh|a n from term r granted t acts Hn Hm Hh
    |a n i act acts n' ms Hn Ht Hdo|a n Hn Hpc|a n Hn Hpc Hhb|a n Hn Hpc|a n r e ms Hn Hpc Hc
    |a n e from granted t Hn Hpc Hp Hm|a n e from Hn Hpc Hp|a n from rt granted t Hn Hm
    |a n e Hn Hpc Hhb|a n e r p Hn Hpc Ht|a n Hn Hpc|a n Hn Hpc|a n term Hn Hpc|a n term Hn Hpc Hhb];
    pose proof (Hok _ _ Hn) as Hnode.
  - rewrite change_upd. apply (inv_handlers ps c a n r acts None); [done..| |done|].
    + by eapply HandleHeartbeat_advances.
    + intros m Hin. by apply (HandleHeartbeat_acts _ _ _ _ _ m) in Hh.
  - by apply (inv_vote_request ps c a n).
  - by eapply inv_task.
  - apply inv_loop; auto using advances_refl with keva. unfold run_dispatch.
    split; destruct (role (raft n)) eqn:Er; done.
  - apply inv_loop; auto using set_heartbeat_advances with keva. by split.
  - apply inv_loop; auto using set_role_advances with keva. by split.
  - by apply (inv_candidate_start ps c a n).
  - apply inv_loop; auto using vote_reply_advances with keva. split.
    + intros Hl. apply (adv_lead _ _ _ (vote_reply_advances _ _)) in Hl as [Hl _].
      by apply (n_leader _ _ _ _ _ Hnode) in Hl as [_ Hl]; rewrite Hpc in Hl.
    + apply count_vote_ok; [by apply (n_elect _ _ _ _ _ Hnode)|done|]. by apply (i_msgs _ _ Hi) in Hm.
  - apply inv_loop; auto using advances_refl with keva. split.
    + intros Hl. by apply (n_leader _ _ _ _ _ Hnode) in Hl as [_ Hl]; rewrite Hpc in Hl.
    + by apply count_vote_ok; [by apply (n_elect _ _ _ _ _ Hnode)|done|].
  - rewrite change_upd. apply (inv_stay ps c a n _ [] None); simpl; rewrite ?app_nil_r;
      try done; auto using vote_reply_advances with keva. intros acts m. by apply (n_tasks _ _ _ _ _ Hnode).
  - apply inv_loop; auto with keva; [|by split].
    apply (advances_trans _ (set_heartbeat (raft n) false)); [apply set_heartbeat_advances|by apply set_role_advances].
  - by apply inv_tally.
  - rewrite change_upd. apply (inv_advance ps c a n _ None []); simpl; rewrite ?app_nil_r;
      try done; auto using advances_refl with keva. intros acts m. by apply (n_tasks _ _ _ _ _ Hnode).
  - apply inv_loop; auto using advances_refl with keva. unfold is_leader. case_bool_decide as El; split; simpl; try done.
    by apply (n_leader _ _ _ _ _ Hnode).
  - apply inv_loop; auto using advances_refl with keva; [by split|].
    intros m (p & -> & _)%list_elem_of_fmap. simpl. by apply (n_wait _ _ _ _ _ Hnode).
  - apply inv_loop; auto using set_heartbeat_advances with keva. unfold is_leader. case_bool_decide; by split.
Qed.

(** ** Reachable clusters *)

Inductive reachable (ps : list addr) : cluster → Prop :=
  | r_init : reachable ps (init ps)
  | r_step c c' : reachable ps c → terms_small c → step c c' → reachable ps c'.

Lemma init_node ps a n : nodes (init ps) !! a = Some n → n = new_node a ps ∧ a ∈ ps.
Proof.
  intros H%elem_of_list_to_map_2. apply list_elem_of_fmap in H as (b & [= -> ->] & Hb). done.
Qed.

Lemma inv_init ps : inv ps (init ps).
Proof.
  split; simpl.
  - intros a n [-> Ha]%init_node. split; simpl; try done.
    + intros t x ?%not_elem_of_nil. done.
    + intros acts m ?%not_elem_of_nil. done.
  - intros a t x ?%not_elem_of_nil. done.
  - intros a t x y ?%not_elem_of_nil. done.
  - intros m ?%not_elem_of_nil. done.
  - intros t x ?%not_elem_of_nil. done.
Qed.

Lemma inv_reachable ps c : NoDup ps → [] ∉ ps → reachable ps c → inv ps c.
Proof. intros Hps Hne. induction 1; [apply inv_init|by eapply inv_step]. Qed.

(** Two majorities of the same peers share a voter. *)
Lemma majority_overlap ps vs t x y :
  majority ps vs t x → majority ps vs t y → ∃ q, (q, t, x) ∈ vs ∧ (q, t, y) ∈ vs.
Proof.
  intros (Q1 & Hnd1 & HQ1 & Hl1) (Q2 & Hnd2 & HQ2 & Hl2).
  destruct (decide (Exists (λ q, q ∈ Q2) Q1)) as [(q & Hq1 & Hq2)%Exists_exists|Hdis].
  { exists q. split; [by apply HQ1|by apply HQ2]. }
  assert (Q1 ++ Q2 ⊆+ ps) as Hsub.
  { apply NoDup_submseteq.
    - apply NoDup_app. split_and!; [done| |done]. intros q Hq1 Hq2. apply Hdis, Exists_exists. eauto.
    - intros q [Hq|Hq]%elem_of_app; [by apply HQ1|by apply HQ2]. }
  apply submseteq_length in Hsub. rewrite length_app in Hsub. unfold len in *.
  rewrite Z.quot_div_nonneg in * by lia.
  pose proof (Z.div_mod (Z.of_nat (length ps)) 2). pose proof (Z.mod_pos_bound (Z.of_nat (length ps)) 2). lia.
Qed.

(** So one node wins a term, and one leads it. *)
Lemma won_unique ps c t x y : inv ps c → (t, x) ∈ won c → (t, y) ∈ won c → x = y.
Proof.
  intros Hi Hx Hy. destruct (majority_overlap ps (cast c) t x y) as (q & ?&?); [by apply (i_won _ _ Hi)..|].
  by eapply (i_unique _ _ Hi).
Qed.

Lemma leader_unique ps c a b n m : inv ps c → nodes c !! a = Some n → nodes c !! b = Some m →
  role (raft n) = RoleLeader → role (raft m) = RoleLeader → currentTerm (raft n) = currentTerm (raft m) → a = b.
Proof.
  intros Hi Ha Hb Hla Hlb Et.
  apply (n_leader _ _ _ _ _ (i_nodes _ _ Hi _ _ Ha)) in Hla as [Hwa _].
  apply (n_leader _ _ _ _ _ (i_nodes _ _ Hi _ _ Hb)) in Hlb as [Hwb _].
  rewrite Et in Hwa. by eapply won_unique.
Qed.

(** ** Running the steps

    A choice names a step; [do_step] takes it when it is enabled. *)

Inductive choice :=
  | CHeartbeat (a from : addr) (term : Z) | CVoteReq (a from : addr) (term : Z) | CTask (a : addr) (i : nat)
  | CDispatch (a : addr) | CFollowerHb (a : addr) | CTimeout (a : addr) | CStart (a : addr)
  | CReply (a from : addr) (granted : bool) (t : Z) | CTally (a : addr) | COnLeader (a : addr)
  | CLeaderTop (a : addr) | CTick (a : addr).

#[export] Instance msg_eq_dec : EqDecision msg.
Proof. solve_decision. Defined.

Definition do_step (ch : choice) (c : cluster) : option cluster :=
  match ch with
  | CHeartbeat a from term =>
      n ← nodes c !! a; guard (HeartbeatReq from a term ∈ msgs c);;
      let '(r, acts) := HandleHeartbeat (raft n) term from in
      Some (upd c a (add_task (with_raft n r) acts) [])
  | CVoteReq a from term =>
      n ← nodes c !! a; guard (VoteReq from a term ∈ msgs c);;
      let '(r, (granted, t), acts) := HandleVoteRequest (raft n) term from in
      Some (record_vote (upd c a (add_task (with_raft n r) (acts ++ [Send (VoteResp a from term granted t)])) [])
              (if granted then [(a, term, from)] else []))
  | CTask a i =>
      n ← nodes c !! a; l ← tasks n !! i;
      match l with
      | act :: acts =>
          let '(n', ms) := do_action (mkNode (raft n) (at_ n) (leading n) (<[i := acts]> (tasks n))) act in
          Some (upd c a n' ms)
      | [] => None
      end
  | CDispatch a =>
      n ← nodes c !! a; guard (at_ n = Top);; Some (upd c a (with_pc n (raft n) (run_dispatch (raft n))) [])
  | CFollowerHb a =>
      n ← nodes c !! a; guard (at_ n = FollowerWait);; guard (heartbeatCh (raft n) = true);;
      Some (upd c a (with_pc n (set_heartbeat (raft n) false) Top) [])
  | CTimeout a =>
      n ← nodes c !! a; guard (at_ n = FollowerWait);;
      Some (upd c a (with_pc n (set_role (raft n) RoleCandidate) Top) [])
  | CStart a =>
      n ← nodes c !! a; guard (at_ n = CandidateStart);;
      let '(r, e, ms) := candidate_start (raft n) in
      Some (record_vote (upd c a (with_pc n r (CandidateWait e)) ms) [(a, el_term e, a)])
  | CReply a from granted t =>
      n ← nodes c !! a;
      match at_ n with
      | CandidateWait e =>
          guard (from ∈ pending e);; guard (VoteResp from a (el_term e) granted t ∈ msgs c);;
          Some (upd c a (with_pc n (vote_reply (raft n) t) (CandidateWait (count_vote e from granted))) [])
      | _ => None
      end
  | CTally a =>
      n ← nodes c !! a;
      match at_ n with
      | CandidateWait e =>
          let '(r, p) := tally (raft n) e in
          Some (record_win (upd c a (with_pc n r p) []) (if bool_decide (p = CallOnLeader) then [(el_term e, a)] else []))
      | _ => None
      end
  | COnLeader a =>
      n ← nodes c !! a; guard (at_ n = CallOnLeader);; Some (upd c a (mkNode (raft n) Top true (tasks n)) [])
  | CLeaderTop a =>
      n ← nodes c !! a; guard (at_ n = LeaderTop);;
      Some (upd c a (with_pc n (raft n) (if is_leader (raft n) then LeaderWait (currentTerm (raft n)) else Top)) [])
  | CTick a =>
      n ← nodes c !! a;
      match at_ n with
      | LeaderWait term =>
          Some (upd c a (with_pc n (raft n) LeaderTop) ((λ p, HeartbeatReq a p term) <$> otherPeers (raft n)))
      | _ => None
      end
  end.

Lemma do_step_sound ch c c' : do_step ch c = Some c' → step c c'.
Proof.
  destruct ch; cbn [do_step]; intros (n & Hn & H)%bind_Some.
  - simplify_option_eq. destruct (HandleHeartbeat _ _ _) eqn:E. simplify_eq. by eapply s_heartbeat.
  - simplify_option_eq. destruct (HandleVoteRequest _ _ _) as [[? [??]] ?] eqn:E. simplify_eq. by eapply s_vote_req.
  - apply bind_Some in H as ([|act acts] & Ht & H); [done|].
    destruct (do_action _ _) eqn:E. simplify_eq. by eapply s_task.
  - simplify_option_eq. by eapply s_dispatch.
  - simplify_option_eq. by eapply s_follower_heartbeat.
  - simplify_option_eq. by eapply s_follower_timeout.
  - simplify_option_eq. by eapply s_candidate_start.
  - destruct (at_ n) eqn:E; simplify_option_eq. by eapply s_vote_reply.
  - destruct (at_ n) eqn:E; [done..| |done|done|done]. destruct (tally _ _) eqn:Et. simplify_eq. by eapply s_tally.
  - simplify_option_eq. by eapply s_on_leader.
  - apply bind_Some in H as (Hpc & _ & H). simplify_eq. by eapply s_leader_top.
  - destruct (at_ n) eqn:E; simplify_eq. by eapply s_leader_tick.
Qed.

Definition terms_smallb (c : cluster) : bool :=
  forallb (λ '(_, n), (0 <=? currentTerm (raft n)) && (currentTerm (raft n) <? 2 ^ 64 - 1)) (map_to_list (nodes c)).

Lemma terms_smallb_sound c : terms_smallb c = true → terms_small c.
Proof.
  unfold terms_smallb. rewrite forallb_forall. intros H a n Hn%elem_of_map_to_list%list_elem_of_In.
  apply H in Hn. apply andb_true_iff in Hn. lia.
Qed.

(** A run of choices, through clusters with small terms. *)
Fixpoint do_steps (chs : list choice) (c : cluster) : option cluster :=
  match chs with
  | [] => Some c
  | ch :: chs => if terms_smallb c then c' ← do_step ch c; do_steps chs c' else None
  end.

Lemma do_steps_reachable ps chs : ∀ c c', reachable ps c → do_steps chs c = Some c' → reachable ps c'.
Proof.
  induction chs as [|ch chs IH]; intros c c' Hr; simpl; [by intros [= <-]|].
  destruct (terms_smallb c) eqn:Et; [|done]. intros (c1 & H1 & H2)%bind_Some.
  eapply IH; [|exact H2]. eapply r_step; [done|by apply terms_smallb_sound|by eapply do_step_sound].
Qed.
