(* ===== verification/RaftProps.v ===== *)
(** * The properties of leader election *)

From S2P Require Import Prelude GoLang Raft.

(** A cluster of three to try things on: [A] wins the first election with the vote
    of [B]. *)
Definition addr_A : addr := str "a:1".
Definition addr_B : addr := str "b:1".
Definition addr_C : addr := str "c:1".
Definition three : list addr := [addr_A; addr_B; addr_C].

(** [x] starts an election from scratch. *)
Definition campaign (x : addr) : list choice := [CDispatch x; CTimeout x; CDispatch x; CStart x].

(** [y] handles the request of [x] for term [t]; its [i]-th goroutine grants, signals
    and replies, and [x] counts the vote. *)
Definition support (x y : addr) (t : Z) (i : nat) : list choice :=
  [CVoteReq y x t; CTask y i; CTask y i; CReply x y true t].

Definition a_wins : list choice := campaign addr_A ++ support addr_A addr_B 1 0 ++ [CTally addr_A].

Definition elected : cluster := default (init three) (do_steps a_wins (init three)).

Lemma elected_reachable : reachable three elected.
Proof.
  apply (do_steps_reachable three a_wins (init three)); [apply r_init|]. vm_compute. reflexivity.
Qed.

Lemma three_nodup : NoDup three.
Proof.
  unfold three. apply NoDup_cons. split; [|apply NoDup_cons; split; [|apply NoDup_singleton]];
    rewrite ?elem_of_cons, ?elem_of_nil; vm_compute; intuition discriminate.
Qed.

Lemma three_nonempty : [] ∉ three.
Proof. unfold three. rewrite !elem_of_cons, elem_of_nil. vm_compute. intuition discriminate. Qed.

Lemma elected_A : role (raft (default (new_node [] []) (nodes elected !! addr_A))) = RoleLeader.
Proof. vm_compute. reflexivity. Qed.

(** C8.  Election safety: in every reachable cluster of distinct, non-empty addresses
    whose terms have not wrapped, whatever messages are lost, delayed, reordered or
    repeated, at most one node has won the election of a term; in particular two
    nodes that are leaders in the same term are the same node. *)
Theorem election_safety ps c :
  NoDup ps → [] ∉ ps → reachable ps c →
  (∀ t x y, (t, x) ∈ won c → (t, y) ∈ won c → x = y) ∧
  (∀ a b n m, nodes c !! a = Some n → nodes c !! b = Some m →
     role (raft n) = RoleLeader → role (raft m) = RoleLeader →
     currentTerm (raft n) = currentTerm (raft m) → a = b).
Proof.
  intros Hps Hne Hr. pose proof (inv_reachable _ _ Hps Hne Hr) as Hi. split.
  - intros t x y. by eapply won_unique.
  - intros a b n m. by eapply leader_unique.
Qed.

Lemma election_safety_witness :
  (∀ t x y, (t, x) ∈ won elected → (t, y) ∈ won elected → x = y) ∧
  (∀ a b n m, nodes elected !! a = Some n → nodes elected !! b = Some m →
     role (raft n) = RoleLeader → role (raft m) = RoleLeader →
     currentTerm (raft n) = currentTerm (raft m) → a = b).
Proof.
  apply (election_safety three elected).
  - apply three_nodup.
  - apply three_nonempty.
  - apply elected_reachable.
Defined.

(** What the messages can tell: a node grants its vote of a term to one
    candidate only, and all heartbeats of a term come from one node, which has a
    majority of the votes of that term. *)
Lemma votes_and_heartbeats_unique ps c :
  NoDup ps → [] ∉ ps → reachable ps c →
  (∀ p x y t u v, VoteResp p x t true u ∈ msgs c → VoteResp p y t true v ∈ msgs c → x = y) ∧
  (∀ x y a b t, HeartbeatReq x a t ∈ msgs c → HeartbeatReq y b t ∈ msgs c → x = y) ∧
  (∀ x a t, HeartbeatReq x a t ∈ msgs c → majority ps (cast c) t x).
Proof.
  intros Hps Hne Hr. pose proof (inv_reachable _ _ Hps Hne Hr) as Hi. split_and!.
  - intros p x y t u v Hx%(i_msgs _ _ Hi) Hy%(i_msgs _ _ Hi). simpl in *. eapply (i_unique _ _ Hi); eauto.
  - intros x y a b t Hx%(i_msgs _ _ Hi) Hy%(i_msgs _ _ Hi). simpl in *.
    by eapply won_unique.
  - intros x a t Hx%(i_msgs _ _ Hi). by apply (i_won _ _ Hi).
Qed.

(** [A] goes on to send heartbeats. *)
Definition beating : cluster :=
  default (init three) (do_steps (a_wins ++ [COnLeader addr_A; CDispatch addr_A; CLeaderTop addr_A; CTick addr_A]) (init three)).

Lemma beating_reachable : reachable three beating.
Proof.
  apply (do_steps_reachable three (a_wins ++ [COnLeader addr_A; CDispatch addr_A; CLeaderTop addr_A; CTick addr_A]) (init three));
    [apply r_init|]. vm_compute. reflexivity.
Qed.

Example beating_msgs : HeartbeatReq addr_A addr_B 1 ∈ msgs beating.
Proof. vm_compute. repeat first [by left | right]. Qed.

Lemma votes_and_heartbeats_unique_witness :
  (∀ p x y t u v, VoteResp p x t true u ∈ msgs beating → VoteResp p y t true v ∈ msgs beating → x = y) ∧
  (∀ x y a b t, HeartbeatReq x a t ∈ msgs beating → HeartbeatReq y b t ∈ msgs beating → x = y) ∧
  (∀ x a t, HeartbeatReq x a t ∈ msgs beating → majority three (cast beating) t x).
Proof.
  apply (votes_and_heartbeats_unique three beating).
  - apply three_nodup.
  - apply three_nonempty.
  - apply beating_reachable.
Defined.

(** [HandleVoteRequest], every branch: the vote is granted exactly when the
    request's term is newer, or is the current one and the node neither leads nor has
    voted for someone else; the node moves to the newer of the two terms and answers
    with it; a granted vote is remembered; a refused request of the same or an older
    term changes nothing; a leader that is overtaken is told so. *)
Lemma vote_request_outcomes r term x :
  let '(r', (granted, t), acts) := HandleVoteRequest r term x in
  (granted = true ↔ currentTerm r < term ∨
     term = currentTerm r ∧ role r ≠ RoleLeader ∧ (votedFor r = [] ∨ votedFor r = x)) ∧
  currentTerm r' = Z.max (currentTerm r) term ∧ t = currentTerm r' ∧
  (granted = true → votedFor r' = x ∧ Signal ∈ acts) ∧
  (granted = false → r' = r ∧ acts = []) ∧
  (currentTerm r < term → role r' = RoleFollower) ∧
  (OnFollower ∈ acts ↔ role r = RoleLeader ∧ currentTerm r < term).
Proof.
  unfold HandleVoteRequest, is_leader.
  destruct (term <? currentTerm r) eqn:E1.
  { split_and!; try done; try lia; rewrite ?elem_of_nil; naive_solver lia. }
  destruct (currentTerm r <? term) eqn:E2.
  - replace (term =? currentTerm r) with false by lia. rewrite andb_false_r. simpl.
    destruct (bool_decide (role r = RoleLeader)) eqn:El; simpl;
      rewrite ?bool_decide_eq_true, ?bool_decide_eq_false in El;
      split_and!; try done; try lia; rewrite ?elem_of_cons, ?elem_of_nil; naive_solver lia.
  - replace (term =? currentTerm r) with true by lia. rewrite andb_true_r.
    destruct (bool_decide (role r = RoleLeader)) eqn:El;
      rewrite ?bool_decide_eq_true, ?bool_decide_eq_false in El.
    { split_and!; try done; try lia; rewrite ?elem_of_nil; naive_solver lia. }
    repeat case_bool_decide; simpl; split_and!; try done; try lia;
      rewrite ?elem_of_cons, ?elem_of_nil; naive_solver lia.
Qed.

(** What a step does to the term and vote of a node. *)
Definition forward (r r' : RaftState) : Prop :=
  currentTerm r ≤ currentTerm r' ∧
  (currentTerm r' = currentTerm r → votedFor r ≠ [] → votedFor r' = votedFor r).

Lemma advances_forward r r' v : advances r r' v → forward r r'.
Proof. intros [????]. by split. Qed.

Lemma same_forward r r' : currentTerm r' = currentTerm r → votedFor r' = votedFor r → forward r r'.
Proof. intros E1 E2. split; [lia|by rewrite E2]. Qed.

Lemma candidate_start_forward r r' e ms :
  0 ≤ currentTerm r < 2 ^ 64 - 1 → candidate_start r = (r', e, ms) → forward r r'.
Proof.
  intros Ht [= <- _ _]. unfold forward. simpl. rewrite u64_small by lia. split; lia.
Qed.

Lemma tally_forward r e r' p : tally r e = (r', p) → forward r r'.
Proof.
  unfold tally. intros E. destruct (_ || _); [|destruct (_ <=? _)]; simplify_eq/=; by apply same_forward.
Qed.

Lemma do_action_raft n act n' ms : do_action n act = (n', ms) → forward (raft n) (raft n').
Proof. destruct act; intros E; simplify_eq/=; by apply same_forward. Qed.



(** ** Where it goes wrong *)

(** A node that restarts has forgotten its term and its vote. *)
Inductive step_or_restart (ps : list addr) (c : cluster) : cluster → Prop :=
  | sr_step c' : step c c' → step_or_restart ps c c'
  | sr_restart a n : nodes c !! a = Some n → step_or_restart ps c (upd c a (new_node a ps) []).

Lemma do_steps_rtc ps chs : ∀ c c', do_steps chs c = Some c' → rtc (step_or_restart ps) c c'.
Proof.
  induction chs as [|ch chs IH]; intros c c'; simpl; [intros [= <-]; apply rtc_refl|].
  destruct (terms_smallb c); [|done]. intros (c1 & H1%do_step_sound & H2)%bind_Some.
  eapply rtc_l; [by apply sr_step|by apply IH].
Qed.

(** [B] restarts after voting for [A], and votes again in the same term, for [C]. *)
Definition b_restarted : cluster := upd elected addr_B (new_node addr_B three) [].
Definition c_wins : list choice := campaign addr_C ++ support addr_C addr_B 1 0 ++ [CTally addr_C].
Definition split_brain : cluster := default (init three) (do_steps c_wins b_restarted).

Definition is_leader_of (c : cluster) (a : addr) (t : Z) : Prop :=
  ∃ n, nodes c !! a = Some n ∧ role (raft n) = RoleLeader ∧ currentTerm (raft n) = t.

(** Term and vote are not kept across a restart, so election safety is lost
    with one: a node votes, restarts and votes again in the same term, and two
    different nodes are leaders of term 1 at the same time. *)
Example restart_breaks_election_safety :
  ∃ c, rtc (step_or_restart three) (init three) c ∧
    is_leader_of c addr_A 1 ∧ is_leader_of c addr_C 1 ∧ addr_A ≠ addr_C.
Proof.
  exists split_brain. split_and!.
  - transitivity elected; [|transitivity b_restarted].
    + apply (do_steps_rtc three a_wins). vm_compute. reflexivity.
    + apply rtc_once. destruct (nodes elected !! addr_B) as [n|] eqn:E; [by eapply sr_restart|].
      vm_compute in E. discriminate.
    + apply (do_steps_rtc three c_wins). vm_compute. reflexivity.
  - eexists. split; [vm_compute; reflexivity|]. vm_compute. auto.
  - eexists. split; [vm_compute; reflexivity|]. vm_compute. auto.
  - vm_compute. discriminate.
Qed.

(** [C] loses the first election, wins the vote of [A] in the second one before [A]'s
    own goroutine gets to run [onLeader]. *)
Definition overtaken : list choice :=
  a_wins ++ campaign addr_C ++ [CTally addr_C] ++ campaign addr_C ++
  [CVoteReq addr_A addr_C 2; CTask addr_A 0; CTask addr_A 0; CTask addr_A 0; COnLeader addr_A].
Definition stale : cluster := default (init three) (do_steps overtaken (init three)).

(** The role callbacks can run in the wrong order: a node that wins and is
    overtaken before it calls [onLeader] ends as a follower with a live leader
    object, with no goroutine left that would clear it; it goes on replicating its
    own writes to whoever joins it. *)
Example callbacks_out_of_order :
  ∃ c n, reachable three c ∧ nodes c !! addr_A = Some n ∧
    role (raft n) = RoleFollower ∧ leading n = true ∧ at_ n = Top ∧ Forall (λ t, t = []) (tasks n).
Proof.
  exists stale. eexists. split_and!.
  - apply (do_steps_reachable three overtaken (init three)); [apply r_init|]. vm_compute. reflexivity.
  - vm_compute. reflexivity.
  - vm_compute. reflexivity.
  - vm_compute. reflexivity.
  - vm_compute. reflexivity.
  - vm_compute. repeat constructor.
Qed.
