(* ===== verification/RaftLive.v ===== *)
(** * Elections come to an end

    From every reachable cluster, whatever state its nodes are in, there is a
    continuation in which one node leads and all others follow it in the same term:
    no mixture of stale leaders, abandoned candidates and old messages is a dead
    end. *)

From S2P Require Import Prelude GoLang Raft RaftProps.

(** ** Continuations *)

(** Terms are in [0..T]. *)
Definition terms_le (T : Z) (c : cluster) : Prop :=
  ∀ a n, nodes c !! a = Some n → 0 ≤ currentTerm (raft n) ≤ T.

Definition small_step (c c' : cluster) : Prop := terms_small c ∧ step c c'.

(** [c] can go on to a state with [Q]. *)
Definition can (c : cluster) (Q : cluster → Prop) : Prop := ∃ c', rtc small_step c c' ∧ Q c'.

Lemma can_now c (Q : cluster → Prop) : Q c → can c Q.
Proof. intros HQ. exists c. split; [apply rtc_refl|done]. Qed.

Lemma can_bind c (Q R : cluster → Prop) : can c Q → (∀ c', Q c' → can c' R) → can c R.
Proof. intros (c1 & H1 & HQ) HR. destruct (HR c1 HQ) as (c2 & H2 & ?). exists c2. split; [by etrans|done]. Qed.

Lemma can_step T c c' Q : terms_le T c → T < 2 ^ 64 - 1 → step c c' → can c' Q → can c Q.
Proof.
  intros Ht HT Hs (c2 & H2 & HQ). exists c2. split; [|done]. eapply rtc_l; [|done].
  split; [|done]. intros a n Hn. apply Ht in Hn. lia.
Qed.

Lemma small_step_reachable ps c c' : reachable ps c → rtc small_step c c' → reachable ps c'.
Proof. intros Hr Hs. induction Hs as [|c c1 c2 [Ht Hs] _ IH]; [done|]. apply IH. by eapply r_step. Qed.

Lemma small_step_rtc c c' : rtc small_step c c' → rtc step c c'.
Proof. apply rtc_subrel. by intros ?? [_ ?]. Qed.

(** ** Facts about reachable clusters *)

Lemma reachable_node ps c a : reachable ps c → a ∈ ps → ∃ n, nodes c !! a = Some n.
Proof.
  intros Hr Ha. induction Hr as [|c c' _ [n Hn] _ Hs].
  - destruct (nodes (init ps) !! a) as [n|] eqn:E; [eauto|].
    apply not_elem_of_list_to_map_2 in E. exfalso. apply E. rewrite <-list_fmap_compose. simpl.
    apply list_elem_of_fmap. eauto.
  - destruct Hs; simpl; match goal with |- context [<[?b := _]> (nodes c) !! a] =>
      destruct (decide (a = b)) as [->|?]; [rewrite lookup_insert_eq|rewrite lookup_insert_ne by done]; eauto end.
Qed.

(** A leader takes itself for the leader. *)
Definition leads_self (r : RaftState) : Prop := role r = RoleLeader → leaderAddr r = nodeAddr r.

Lemma leads_self_init a ps : leads_self (NewRaftState a ps).
Proof. done. Qed.

Lemma HandleHeartbeat_self r t l : leads_self r → leads_self (HandleHeartbeat r t l).1.
Proof. unfold HandleHeartbeat, leads_self. by destruct (_ <? _). Qed.

Lemma HandleVoteRequest_self r t x : leads_self r → leads_self (HandleVoteRequest r t x).1.1.
Proof. unfold HandleVoteRequest, leads_self. raft_cases; done. Qed.

Lemma vote_reply_self r t : leads_self r → leads_self (vote_reply r t).
Proof. unfold vote_reply, leads_self. by destruct (_ <? _). Qed.

Lemma tally_self r e : leads_self r → leads_self (tally r e).1.
Proof. unfold tally, leads_self. raft_cases; done. Qed.

Lemma do_action_self n act : leads_self (raft n) → leads_self (raft (do_action n act).1).
Proof. by destruct act. Qed.

Lemma leads_self_reachable ps c a n : reachable ps c → nodes c !! a = Some n → leads_self (raft n).
Proof.
  intros Hr. revert a n. induction Hr as [|c c' _ IH _ Hs]; intros a n.
  { intros [-> _]%init_node. done. }
  assert (∀ b nb, (∀ n0, nodes c !! b = Some n0 → leads_self (raft n0) → leads_self (raft nb)) →
    (∃ n0, nodes c !! b = Some n0) → <[b := nb]> (nodes c) !! a = Some n → leads_self (raft n)) as Hupd.
  { intros b nb Hb [n0 Hn0] [[<- <-]|[_ E]]%lookup_insert_Some; [eauto|by eapply IH]. }
  destruct Hs as [b n0 from term r acts Hn Hm Hh|b n0 from term r granted t acts Hn Hm Hh
    |b n0 i act acts n' ms Hn Ht Hdo|b n0 Hn Hpc|b n0 Hn Hpc Hhb|b n0 Hn Hpc|b n0 r e ms Hn Hpc Hc
    |b n0 e from granted t Hn Hpc Hp Hm|b n0 e from Hn Hpc Hp|b n0 from rt granted t Hn Hm
    |b n0 e Hn Hpc Hhb|b n0 e r p Hn Hpc Ht|b n0 Hn Hpc|b n0 Hn Hpc|b n0 term Hn Hpc|b n0 term Hn Hpc Hhb];
    simpl; (apply Hupd; [|by eauto]); intros n1 Hn1 Hself; rewrite Hn in Hn1; injection Hn1 as <-; simpl; try done.
  - pose proof (HandleHeartbeat_self (raft n0) term from Hself) as E. by rewrite Hh in E.
  - pose proof (HandleVoteRequest_self (raft n0) term from Hself) as E. by rewrite Hh in E.
  - pose proof (do_action_self (mkNode (raft n0) (at_ n0) (leading n0) (<[i := acts]> (tasks n0))) act Hself) as E.
    by rewrite Hdo in E.
  - unfold candidate_start in Hc. by simplify_eq.
  - by apply vote_reply_self.
  - by apply vote_reply_self.
  - pose proof (tally_self (raft n0) e Hself) as E. by rewrite Ht in E.
Qed.

(** ** One node at a time *)

Lemma upd_same c a n ms : nodes (upd c a n ms) !! a = Some n.
Proof. apply lookup_insert_eq. Qed.

Lemma terms_le_upd T c a n : terms_le T c → 0 ≤ currentTerm (raft n) ≤ T →
  ∀ ms vs ws, terms_le T (change c a n ms vs ws).
Proof. intros Ht Hn ms vs ws b m. simpl. intros [[<- <-]|[_ ?]]%lookup_insert_Some; eauto. Qed.

(** [c'] is [c] with node [a] changed to one with [Q], and perhaps more messages. *)
Definition changed (c : cluster) (a : addr) (Q : node → Prop) (c' : cluster) : Prop :=
  ∃ n, nodes c' = <[a := n]> (nodes c) ∧ Q n ∧ msgs c ⊆ msgs c'.

Lemma changed_trans c1 c2 c3 a Q R : changed c1 a Q c2 → changed c2 a R c3 → changed c1 a R c3.
Proof.
  intros (n1 & E1 & _ & M1) (n2 & E2 & HR & M2). exists n2. rewrite E2, E1, insert_insert_eq.
  split_and!; [done..|]. by etrans.
Qed.

Lemma changed_terms T c a Q c' : terms_le T c → (∀ n, Q n → 0 ≤ currentTerm (raft n) ≤ T) →
  changed c a Q c' → terms_le T c'.
Proof. intros Ht HQ (n & E & Hn & _) b m. rewrite E. intros [[<- <-]|[_ ?]]%lookup_insert_Some; eauto. Qed.

Lemma changed_upd c a n (Q : node → Prop) ms vs ws : Q n → changed c a Q (change c a n ms vs ws).
Proof. intros HQ. exists n. split_and!; [done..|]. simpl. set_solver. Qed.

Section live.
Context (T : Z) (HT : T < 2 ^ 64 - 1).

(** A step of node [a], and on from there. *)
Lemma can_change c a n (R : node → Prop) ms vs ws :
  terms_le T c → step c (change c a n ms vs ws) → 0 ≤ currentTerm (raft n) ≤ T →
  (∀ c', nodes c' !! a = Some n → terms_le T c' → can c' (changed c' a R)) → can c (changed c a R).
Proof.
  intros Ht Hs Hn Hgo. eapply can_step; [done..|]. eapply can_bind.
  - apply Hgo; [apply lookup_insert_eq|by apply terms_le_upd].
  - intros c' Hc'. apply can_now. eapply changed_trans; [|done]. by apply (changed_upd c a n (λ _, True)).
Qed.

(** The goroutine that handled a message runs to its end. *)
Lemma tasks_run acts : ∀ c a n i, nodes c !! a = Some n → tasks n !! i = Some acts → terms_le T c →
  can c (λ c', changed c a (λ n', currentTerm (raft n') = currentTerm (raft n) ∧ role (raft n') = role (raft n) ∧
                              leaderAddr (raft n') = leaderAddr (raft n)) c' ∧
               ∀ m, Send m ∈ acts → m ∈ msgs c').
Proof.
  induction acts as [|act acts IH]; intros c a n i Hn Hi Ht.
  { apply can_now. split; [|by intros m ?%not_elem_of_nil]. exists n. split_and!; [by rewrite insert_id|done..]. }
  destruct (do_action (mkNode (raft n) (at_ n) (leading n) (<[i := acts]> (tasks n))) act) as [n' ms] eqn:Ed.
  assert (currentTerm (raft n') = currentTerm (raft n) ∧ role (raft n') = role (raft n) ∧
          leaderAddr (raft n') = leaderAddr (raft n) ∧ tasks n' = <[i := acts]> (tasks n)) as (E1 & E2 & E3 & E4)
    by (by destruct act; simplify_eq/=).
  eapply can_step; [done..|by eapply s_task|]. eapply can_bind.
  - apply (IH (upd c a n' ms) a n' i); [apply upd_same| |].
    + rewrite E4. apply list_lookup_insert_eq. by eapply lookup_lt_Some.
    + rewrite change_upd. apply terms_le_upd; [done|]. rewrite E1. by apply (Ht a).
  - intros c' [Hc' Hm]. apply can_now. rewrite E1, E2, E3 in Hc'. split.
    + eapply changed_trans; [|done]. rewrite change_upd. by apply (changed_upd c a n' (λ _, True)).
    + intros m [<-|Hin]%elem_of_cons; [|by apply Hm]. simpl in Ed. simplify_eq.
      destruct Hc' as (_ & _ & _ & Hsub). apply Hsub. simpl. set_solver.
Qed.

(** ** Towards an election *)

(** From the top of the loop to the start of an election. *)
Lemma top_campaigns c a n :
  nodes c !! a = Some n → terms_le T c → at_ n = Top → role (raft n) ≠ RoleLeader →
  can c (changed c a (λ n', at_ n' = CandidateStart ∧ role (raft n') = RoleCandidate ∧
                            currentTerm (raft n') = currentTerm (raft n))).
Proof.
  intros Hn Ht Hpc Hr. pose proof (Ht _ _ Hn) as Hterm.
  assert (∀ c n, nodes c !! a = Some n → terms_le T c → at_ n = Top → role (raft n) = RoleCandidate →
    can c (changed c a (λ n', at_ n' = CandidateStart ∧ role (raft n') = RoleCandidate ∧
                              currentTerm (raft n') = currentTerm (raft n)))) as Hcand.
  { clear - HT. intros c n Hn Ht Hpc Hr. eapply can_step; [done..|by eapply s_dispatch|]. apply can_now.
    rewrite change_upd. apply changed_upd. unfold run_dispatch. rewrite Hr. done. }
  destruct (role (raft n)) eqn:Er; [| |done]; [|by apply Hcand].
  eapply can_change; [done|rewrite <-change_upd; by eapply s_dispatch|done|]. clear c Hn Ht. intros c Hn Ht.
  unfold run_dispatch in Hn. rewrite Er in Hn.
  eapply can_change; [done|rewrite <-change_upd; by eapply s_follower_timeout|done|]. clear c Hn Ht. intros c Hn Ht.
  by apply (Hcand c _ Hn).
Qed.

Definition idle_or_leads (n n' : node) : Prop :=
  currentTerm (raft n) ≤ currentTerm (raft n') ≤ currentTerm (raft n) + 1 ∧
  (role (raft n') = RoleLeader ∨ at_ n' = Top ∧ role (raft n') ≠ RoleLeader).

(** The select of an election ends by its time out. *)
Lemma wait_ends c a n n0 e :
  nodes c !! a = Some n → terms_le T c → at_ n = CandidateWait e → role (raft n) ≠ RoleLeader →
  currentTerm (raft n0) ≤ currentTerm (raft n) ≤ currentTerm (raft n0) + 1 →
  can c (changed c a (idle_or_leads n0)).
Proof.
  intros Hn Ht Hpc Hr Hterm. destruct (tally (raft n) e) as [r p] eqn:E.
  eapply can_step; [done..|by eapply s_tally|]. apply can_now. rewrite change_win. apply changed_upd.
  unfold tally in E. destruct (_ || _); [|destruct (_ <=? _)]; simplify_eq; split; simpl; auto.
Qed.

(** From anywhere back to the top of the loop. *)
Lemma returns_to_top c a n :
  nodes c !! a = Some n → terms_le T c → currentTerm (raft n) + 1 ≤ T → role (raft n) ≠ RoleLeader →
  can c (changed c a (idle_or_leads n)).
Proof.
  intros Hn Ht HtT Hr. pose proof (Ht _ _ Hn) as Hterm.
  assert (∀ c n1, raft n1 = raft n → nodes c !! a = Some n1 → terms_le T c → at_ n1 = LeaderTop →
    can c (changed c a (idle_or_leads n))) as Hlt.
  { clear - HT Hr Hterm. intros c n1 Er Hn Ht Hpc. eapply can_step; [done..|by eapply s_leader_top|]. apply can_now.
    rewrite change_upd. apply changed_upd. unfold is_leader. rewrite Er, bool_decide_false by done.
    split; [simpl; lia|]. by right. }
  destruct (at_ n) as [| | |e| | |t] eqn:Hpc.
  - apply can_now. exists n. split_and!; [by rewrite insert_id| |done]. split; [lia|auto].
  - eapply can_step; [done..|by eapply s_follower_timeout|]. apply can_now. rewrite change_upd. apply changed_upd.
    split; simpl; [lia|auto].
  - destruct (candidate_start (raft n)) as [[r e] ms] eqn:E. pose proof E as E'. unfold candidate_start in E'.
    rewrite u64_small in E' by lia. simplify_eq.
    eapply can_change; [done|rewrite <-change_vote; by eapply s_candidate_start|simpl; lia|].
    clear c Hn Ht. intros c Hn Ht. eapply wait_ends; [done|done|done|done|simpl; lia].
  - eapply wait_ends; [done..|lia].
  - eapply can_step; [done..|by eapply s_on_leader|]. apply can_now. rewrite change_upd. apply changed_upd.
    split; simpl; [lia|auto].
  - by eapply Hlt.
  - eapply can_change; [done|rewrite <-change_upd; by eapply s_leader_tick|done|]. clear c Hn Ht. intros c Hn Ht.
    by eapply Hlt; [|exact Hn|..].
Qed.

Lemma campaigns c a n :
  nodes c !! a = Some n → terms_le T c → currentTerm (raft n) + 1 ≤ T → role (raft n) ≠ RoleLeader →
  can c (changed c a (λ n', currentTerm (raft n) ≤ currentTerm (raft n') ≤ currentTerm (raft n) + 1 ∧
    (role (raft n') = RoleLeader ∨ at_ n' = CandidateStart ∧ role (raft n') = RoleCandidate))).
Proof.
  intros Hn Ht HtT Hr. eapply can_bind; [by eapply returns_to_top|]. intros c1 Hc1.
  pose proof (Ht _ _ Hn) as Hterm.
  assert (terms_le T c1) as Ht1 by (eapply changed_terms; [done| |done]; intros n' [? _]; lia).
  destruct Hc1 as (n1 & E1 & [Hn1 Hcase] & Hm1). destruct Hcase as [Hl|[Hpc Hnl]].
  - apply can_now. exists n1. auto.
  - eapply can_bind; [apply (top_campaigns c1 a n1); [by rewrite E1, lookup_insert_eq|done..]|].
    intros c2 Hc2. apply can_now. apply (changed_trans c c1 c2 a (λ _, True)); [by exists n1|].
    destruct Hc2 as (n2 & E2 & (Hp2 & Hr2 & Ht2) & Hm2). exists n2.
    split; [done|]. split; [split; [lia|auto]|done].
Qed.

(** ** Votes *)

(** A node of an older term grants its vote. *)
Lemma older_grants r t x : currentTerm r < t →
  ∃ acts, HandleVoteRequest r t x =
    (set_term (set_role (set_term r t []) RoleFollower) t x, (true, t), acts).
Proof.
  intros Hlt. unfold HandleVoteRequest. rewrite (proj2 (Z.ltb_ge t (currentTerm r))) by lia.
  rewrite (proj2 (Z.eqb_neq t (currentTerm r))), andb_false_r by lia.
  rewrite (proj2 (Z.ltb_lt (currentTerm r) t)) by lia. simpl. eauto.
Qed.

(** One peer votes, and its answer is on the way. *)
Lemma peer_votes c a p m :
  nodes c !! p = Some m → VoteReq a p T ∈ msgs c → currentTerm (raft m) < T → terms_le T c →
  can c (λ c', changed c p (λ m', currentTerm (raft m') = T) c' ∧ VoteResp p a T true T ∈ msgs c').
Proof.
  intros Hp Hm Hlt Ht. pose proof (Ht _ _ Hp) as Hterm.
  destruct (older_grants (raft m) T a Hlt) as [acts E].
  eapply can_step; [done..|by eapply s_vote_req|]. rewrite change_vote. eapply can_bind.
  - eapply (tasks_run _ _ p _ (length (tasks m))).
    + apply lookup_insert_eq.
    + simpl. by rewrite lookup_app_r, Nat.sub_diag by done.
    + apply terms_le_upd; [done|]. simpl. lia.
  - intros c' [Hc' Hsent]. apply can_now. split.
    + destruct Hc' as (m' & E' & [Ht' _] & Hsub). exists m'. rewrite E'. simpl.
      split_and!; [apply insert_insert_eq|exact Ht'|]. etrans; [|done]. simpl. set_solver.
    + apply Hsent. apply elem_of_app. right. by left.
Qed.

(** The votes of the rest of the peers arrive. *)
Lemma votes_gather (rest : list addr) : ∀ c (a : addr) n v r,
  nodes c !! a = Some n → raft n = r → at_ n = CandidateWait (mkElection T v rest) → currentTerm r = T →
  NoDup rest → a ∉ rest → terms_le T c →
  (∀ p, p ∈ rest → VoteReq a p T ∈ msgs c ∧ ∃ m, nodes c !! p = Some m ∧ currentTerm (raft m) < T) →
  can c (λ c', ∃ n', nodes c' !! a = Some n' ∧ raft n' = r ∧
                     at_ n' = CandidateWait (mkElection T (v + len rest) []) ∧ terms_le T c').
Proof.
  induction rest as [|p rest IH]; intros c a n v r Hn Hr Hpc HrT Hnd Ha Ht Hrest.
  { apply can_now. exists n. split_and!; [done|done| |done]. rewrite Hpc. unfold len. simpl. by rewrite Z.add_0_r. }
  apply NoDup_cons in Hnd as [Hp Hnd]. apply not_elem_of_cons in Ha as [Hap Ha].
  destruct (Hrest p) as (Hreq & m & Hm & Hlt); [by left|].
  eapply can_bind; [by eapply (peer_votes c a p m)|]. intros c1 [Hc1 Hresp].
  assert (terms_le T c1) as Ht1 by (eapply changed_terms; [done| |done]; simpl; intros ? ->; pose proof (Ht _ _ Hn); lia).
  destruct Hc1 as (m1 & E1 & Hm1 & Hsub).
  assert (nodes c1 !! a = Some n) as Hn1 by (by rewrite E1, lookup_insert_ne).
  eapply can_step; [exact Ht1|done|eapply s_vote_reply; [exact Hn1|exact Hpc|by left|exact Hresp]|].
  assert (vote_reply (raft n) T = r) as ->.
  { unfold vote_reply. rewrite Hr, HrT, Z.ltb_irrefl. done. }
  unfold count_vote. cbn [el_term votes pending remove_one]. rewrite bool_decide_true by done.
  eapply can_bind.
  - apply (IH _ a (with_pc n r (CandidateWait (mkElection T (v + 1) rest))) (v + 1) r);
      [apply upd_same|done|done|done|done|done| |].
    + rewrite change_upd. apply terms_le_upd; [done|]. simpl. pose proof (Ht _ _ Hn). rewrite Hr in *. lia.
    + intros q Hq. destruct (Hrest q) as (Hreq' & m' & Hm' & Hlt'); [by right|]. split; [simpl; set_solver|].
      exists m'. simpl. rewrite lookup_insert_ne by congruence. rewrite E1, lookup_insert_ne; [done|]. congruence.
  - intros c2 (n2 & H1 & H2 & H3 & H4). apply can_now. exists n2. split_and!; [done|done| |done].
    rewrite H3. do 2 f_equal. rewrite len_cons. lia.
Qed.

Lemma others_length (ps : list addr) (a : addr) : NoDup ps → a ∈ ps → 1 + len (filter (λ p, p ≠ a) ps) = len ps.
Proof.
  intros Hnd Ha. apply elem_of_Permutation in Ha as [l Hl]. rewrite Hl in Hnd |- *.
  apply NoDup_cons in Hnd as [Ha Hnd]. rewrite filter_cons_False by naive_solver.
  rewrite filter_id_in; [by rewrite len_cons|]. by intros x Hx ->.
Qed.

(** An election in a new term is won. *)
Lemma candidate_wins ps c a n :
  nodes c !! a = Some n → at_ n = CandidateStart → role (raft n) = RoleCandidate →
  nodeAddr (raft n) = a → peers (raft n) = ps → NoDup ps → a ∈ ps → currentTerm (raft n) + 1 = T →
  (∀ b m, nodes c !! b = Some m → 0 ≤ currentTerm (raft m) < T) → (∀ p, p ∈ ps → ∃ m, nodes c !! p = Some m) →
  can c (λ c', terms_le T c' ∧ ∃ n', nodes c' !! a = Some n' ∧ role (raft n') = RoleLeader ∧ currentTerm (raft n') = T).
Proof.
  intros Hn Hpc Hr Ha Hps Hnd Hin HtT Hlt Hdom. pose proof (Hlt _ _ Hn) as Hterm.
  assert (terms_le T c) as Ht by (intros b m ?%Hlt; lia).
  set (r := set_term (raft n) T a). set (others := filter (λ p, p ≠ a) ps).
  assert (candidate_start (raft n) = (r, mkElection T 1 others, (λ p, VoteReq a p T) <$> others)) as E.
  { unfold candidate_start, otherPeers. simpl. rewrite u64_small, HtT, Ha, Hps by lia. done. }
  eapply can_step; [done..|by eapply s_candidate_start|]. rewrite change_vote. eapply can_bind.
  - eapply (votes_gather others _ a _ 1 r); [apply lookup_insert_eq|done..|by apply NoDup_filter| | |].
    + unfold others. rewrite list_elem_of_filter. naive_solver.
    + apply terms_le_upd; [done|]. simpl. lia.
    + intros p Hp. split; [simpl; apply elem_of_app; right; apply list_elem_of_fmap; eauto|].
      apply list_elem_of_filter in Hp as [Hpa Hp]. destruct (Hdom p Hp) as [m Hm]. exists m. simpl.
      rewrite lookup_insert_ne by done. split; [done|]. by eapply Hlt.
  - intros c1 (n1 & Hn1 & Hr1 & Hpc1 & Ht1).
    assert (tally (raft n1) (mkElection T (1 + len others) []) =
            (set_leader (set_role r RoleLeader) (nodeAddr r), CallOnLeader)) as Et.
    { unfold tally. rewrite Hr1, bool_decide_true by done. simpl. rewrite Z.eqb_refl. simpl.
      unfold quorum, others. rewrite others_length by done. simpl. rewrite Hps.
      rewrite (proj2 (Z.leb_le _ _)); [done|]. rewrite Z.quot_div_nonneg by len_lia.
      assert (0 < len ps) by (rewrite <-(others_length ps a) by done; len_lia).
      pose proof (Z.div_mod (len ps) 2). pose proof (Z.mod_pos_bound (len ps) 2). lia. }
    eapply can_step; [done..|by eapply s_tally|]. apply can_now. rewrite change_win. split.
    + apply terms_le_upd; [done|]. simpl. lia.
    + eexists. split; [apply lookup_insert_eq|done].
Qed.

(** ** Heartbeats *)

(** A leader sends a heartbeat of its term to every peer. *)
Lemma leader_beats c a n :
  nodes c !! a = Some n → terms_le T c → role (raft n) = RoleLeader → leader_pc (at_ n) →
  can c (λ c', changed c a (λ n', raft n' = raft n) c' ∧
               ∀ p, p ∈ otherPeers (raft n) → HeartbeatReq a p (currentTerm (raft n)) ∈ msgs c').
Proof.
  intros Hn Ht Hr Hpc. pose proof (Ht _ _ Hn) as Hterm.
  set (Q c' := changed c a (λ n', raft n' = raft n) c' ∧
               ∀ p, p ∈ otherPeers (raft n) → HeartbeatReq a p (currentTerm (raft n)) ∈ msgs c').
  assert (∀ c1 n1, changed c a (λ n', n' = n1) c1 → raft n1 = raft n → at_ n1 = LeaderTop → can c1 Q) as Htop.
  { intros c1 n1 Hc1 Er1 Hpc1.
    assert (terms_le T c1) as Ht1 by (eapply changed_terms; [done| |done]; simpl; intros ? ->; by rewrite Er1).
    destruct Hc1 as (? & E1 & -> & Hm1). assert (nodes c1 !! a = Some n1) as Hn1 by (by rewrite E1, lookup_insert_eq).
    eapply can_step; [exact Ht1|done|by eapply s_leader_top|].
    unfold is_leader. rewrite Er1, bool_decide_true by done.
    eapply can_step; [|done|eapply s_leader_tick; [apply upd_same|done]|].
    { rewrite change_upd. by apply terms_le_upd. }
    apply can_now. split.
    - eexists. simpl. rewrite !insert_insert_eq, E1, insert_insert_eq. split_and!; [done|done|]. set_solver.
    - intros p Hp. simpl. apply elem_of_app. right. apply list_elem_of_fmap. eauto. }
  assert (∀ c1 n1, changed c a (λ n', n' = n1) c1 → raft n1 = raft n → at_ n1 = Top → can c1 Q) as Hdisp.
  { intros c1 n1 Hc1 Er1 Hpc1.
    assert (terms_le T c1) as Ht1 by (eapply changed_terms; [done| |done]; simpl; intros ? ->; by rewrite Er1).
    destruct Hc1 as (? & E1 & -> & Hm1). assert (nodes c1 !! a = Some n1) as Hn1 by (by rewrite E1, lookup_insert_eq).
    eapply can_step; [exact Ht1|done|by eapply s_dispatch|].
    apply (Htop _ (with_pc n1 (raft n1) (run_dispatch (raft n1)))); [|done|simpl; unfold run_dispatch; by rewrite Er1, Hr].
    eexists. simpl. rewrite E1, insert_insert_eq. split_and!; [done|done|]. set_solver. }
  assert (changed c a (λ n', n' = n) c) as Hself by (exists n; split_and!; [by rewrite insert_id|done..]).
  destruct (at_ n) as [| | |e| | |t] eqn:Ep; try done.
  - by eapply Hdisp.
  - eapply can_step; [done..|by eapply s_on_leader|]. apply (Hdisp _ (mkNode (raft n) Top true (tasks n))); [|done|done].
    rewrite change_upd. by apply (changed_upd c a _ (λ n', n' = _)).
  - by eapply Htop.
  - eapply can_step; [done..|by eapply s_leader_tick|]. apply (Htop _ (with_pc n (raft n) LeaderTop)); [|done|done].
    rewrite change_upd. by apply (changed_upd c a _ (λ n', n' = _)).
Qed.

(** [p] follows [a] in term [T]. *)
Definition follows (a : addr) (r : RaftState) : Prop :=
  currentTerm r = T ∧ leaderAddr r = a ∧ role r = RoleFollower.

Lemma heartbeat_follows r a : currentTerm r ≤ T → follows a (HandleHeartbeat r T a).1.
Proof.
  intros Hle. unfold HandleHeartbeat. rewrite (proj2 (Z.ltb_ge T (currentTerm r))) by lia.
  destruct (currentTerm r <? T) eqn:E; split_and!; try done. simpl. lia.
Qed.

Lemma peers_follow (rest : list addr) : ∀ c (a : addr), a ∉ rest → terms_le T c →
  (∀ p, p ∈ rest → HeartbeatReq a p T ∈ msgs c ∧ ∃ m, nodes c !! p = Some m) →
  can c (λ c', ∀ p : addr, if decide (p ∈ rest) then ∃ m, nodes c' !! p = Some m ∧ follows a (raft m)
                    else nodes c' !! p = nodes c !! p).
Proof.
  induction rest as [|q rest IH]; intros c a Ha Ht Hrest.
  { apply can_now. intros p. rewrite decide_False; [done|]. apply not_elem_of_nil. }
  apply not_elem_of_cons in Ha as [Haq Ha].
  destruct (Hrest q) as [Hm [m Hq]]; [by left|]. pose proof (Ht _ _ Hq) as Hterm.
  pose proof (heartbeat_follows (raft m) a ltac:(lia)) as Hf.
  destruct (HandleHeartbeat (raft m) T a) as [r acts] eqn:E. cbn [fst] in Hf.
  eapply can_step; [done..|by eapply s_heartbeat|]. eapply can_bind.
  - apply (IH _ a Ha).
    + rewrite change_upd. apply terms_le_upd; [done|]. destruct Hf as [Hf _]. simpl. lia.
    + intros p Hp. destruct (Hrest p) as [Hm' [m' Hp']]; [by right|]. split; [simpl; set_solver|]. simpl.
      destruct (decide (q = p)) as [->|?]; [rewrite lookup_insert_eq|rewrite lookup_insert_ne by done]; eauto.
  - intros c' Hc'. apply can_now. intros p. specialize (Hc' p).
    destruct (decide (p ∈ rest)) as [Hp|Hp]; [rewrite decide_True by (by right); done|].
    simpl in Hc'. destruct (decide (q = p)) as [->|Hne].
    + rewrite decide_True by (by left). rewrite lookup_insert_eq in Hc'. eauto.
    + rewrite lookup_insert_ne in Hc' by done. rewrite decide_False; [done|].
      rewrite elem_of_cons. naive_solver.
Qed.
End live.

(** ** From anywhere to a settled cluster *)

(** A node whose term is the highest. *)
Lemma newest_node (ns : gmap addr node) : ns ≠ ∅ →
  ∃ a n, ns !! a = Some n ∧ ∀ b m, ns !! b = Some m → currentTerm (raft m) ≤ currentTerm (raft n).
Proof.
  induction ns as [|a n ns Hfresh IH] using map_ind; [done|]. intros _.
  destruct (decide (ns = ∅)) as [->|Hne].
  - exists a, n. rewrite lookup_insert_eq. split; [done|]. intros b m [[_ <-]|[_ Hb]]%lookup_insert_Some; [lia|].
    by rewrite lookup_empty in Hb.
  - destruct (IH Hne) as (a' & n' & Ha' & Hmax).
    destruct (decide (currentTerm (raft n') ≤ currentTerm (raft n))) as [Hle|Hgt].
    + exists a, n. rewrite lookup_insert_eq. split; [done|].
      intros b m [[_ <-]|[_ Hb]]%lookup_insert_Some; [lia|]. apply Hmax in Hb. lia.
    + exists a', n'. rewrite lookup_insert_ne by congruence. split; [done|].
      intros b m [[_ <-]|[_ Hb]]%lookup_insert_Some; [lia|]. by apply Hmax in Hb.
Qed.

(** Somebody comes to lead the newest term. *)
Lemma someone_leads ps c :
  NoDup ps → [] ∉ ps → ps ≠ [] → reachable ps c →
  (∀ a n, nodes c !! a = Some n → 0 ≤ currentTerm (raft n) < 2 ^ 64 - 3) →
  can c (λ c', ∃ a n, nodes c' !! a = Some n ∧ role (raft n) = RoleLeader ∧
                      currentTerm (raft n) < 2 ^ 64 - 1 ∧ terms_le (currentTerm (raft n)) c').
Proof.
  intros Hnd Hne Hps Hr Hsmall.
  destruct (newest_node (nodes c)) as (a & n & Hn & Hmax).
  { destruct ps as [|p ps]; [done|]. destruct (reachable_node _ _ p Hr) as [n Hn]; [by left|].
    intros E. by rewrite E, lookup_empty in Hn. }
  pose proof (Hsmall _ _ Hn) as Hterm. set (t := currentTerm (raft n)) in *.
  assert (∀ T, t ≤ T → terms_le T c) as Hle by (intros T ? b m Hb; pose proof (Hsmall _ _ Hb); apply Hmax in Hb; lia).
  destruct (decide (role (raft n) = RoleLeader)) as [Hl|Hl].
  { apply can_now. exists a, n. split_and!; [done|done|lia|by apply Hle]. }
  destruct (campaigns (t + 1) ltac:(lia) c a n Hn (Hle (t + 1) ltac:(lia)) ltac:(lia) Hl) as (c1 & Hs1 & Hc1).
  pose proof (small_step_reachable _ _ _ Hr Hs1) as Hr1. destruct Hc1 as (n1 & E1 & [Ht1 Hcase] & _).
  assert (nodes c1 !! a = Some n1) as Hn1 by (by rewrite E1, lookup_insert_eq). fold t in Ht1.
  assert (∀ T, currentTerm (raft n1) ≤ T → terms_le T c1) as Hle1.
  { intros T HT b m. rewrite E1. intros [[_ <-]|[_ Hb]]%lookup_insert_Some; [lia|]. apply (Hle T) in Hb; lia. }
  apply (can_bind _ (λ x, x = c1)); [by exists c1|]. intros ? ->. destruct Hcase as [Hl1|[Hpc1 Hr1c]].
  { apply can_now. exists a, n1. split_and!; [done|done|lia|by apply Hle1]. }
  pose proof (i_nodes _ _ (inv_reachable _ _ Hnd Hne Hr1) _ _ Hn1) as Hok.
  eapply can_bind.
  - eapply (candidate_wins (currentTerm (raft n1) + 1) ltac:(lia) ps c1 a n1); try done.
    + apply (n_addr _ _ _ _ _ Hok).
    + apply (n_peers _ _ _ _ _ Hok).
    + apply (n_in _ _ _ _ _ Hok).
    + intros b m Hb. apply (Hle1 _ (Z.le_refl _)) in Hb. lia.
    + intros p. by apply reachable_node.
  - intros c2 (Ht2 & n2 & Hn2 & Hl2 & E2). apply can_now. exists a, n2. rewrite E2. split_and!; [done|done|lia|done].
Qed.

(** One leader, and all others follow it in its term. *)
Definition settled (c : cluster) (a : addr) (t : Z) : Prop :=
  ∀ p n, nodes c !! p = Some n →
    currentTerm (raft n) = t ∧ leaderAddr (raft n) = a ∧
    role (raft n) = if decide (p = a) then RoleLeader else RoleFollower.

Lemma leader_settles ps c a n :
  NoDup ps → [] ∉ ps → reachable ps c → nodes c !! a = Some n → role (raft n) = RoleLeader →
  currentTerm (raft n) < 2 ^ 64 - 1 → terms_le (currentTerm (raft n)) c →
  can c (λ c', settled c' a (currentTerm (raft n))).
Proof.
  intros Hnd Hne Hr Hn Hl HT Ht. pose proof (i_nodes _ _ (inv_reachable _ _ Hnd Hne Hr) _ _ Hn) as Hok.
  set (t := currentTerm (raft n)) in *.
  destruct (leader_beats t HT c a n Hn Ht Hl) as (c1 & Hs1 & Hc1 & Hbeat); [by apply (n_leader _ _ _ _ _ Hok)|].
  pose proof (small_step_reachable _ _ _ Hr Hs1) as Hr1.
  assert (terms_le t c1) as Ht1 by (eapply changed_terms; [done| |done]; simpl; intros ? ->; by apply (Ht a)).
  destruct Hc1 as (n1 & E1 & Er1 & _).
  assert (nodes c1 !! a = Some n1) as Hn1 by (by rewrite E1, lookup_insert_eq).
  apply (can_bind _ (λ x, x = c1)); [by exists c1|]. intros ? ->.
  unfold otherPeers in Hbeat. rewrite (n_peers _ _ _ _ _ Hok), (n_addr _ _ _ _ _ Hok) in Hbeat. fold t in Hbeat.
  destruct (peers_follow t HT (filter (λ p : addr, p ≠ a) ps) c1 a) as (c2 & Hs2 & Hc2).
  - rewrite list_elem_of_filter. naive_solver.
  - done.
  - intros p Hp. split; [by apply Hbeat|]. apply list_elem_of_filter in Hp as [_ Hp]. by eapply reachable_node.
  - exists c2. split; [done|]. pose proof (small_step_reachable _ _ _ Hr1 Hs2) as Hr2. intros p m Hm.
    pose proof (i_nodes _ _ (inv_reachable _ _ Hnd Hne Hr2) _ _ Hm) as Hokm. specialize (Hc2 p).
    destruct (decide (p = a)) as [->|Hpa].
    + rewrite decide_False in Hc2 by (rewrite list_elem_of_filter; naive_solver).
      rewrite Hc2, Hn1 in Hm. simplify_eq. rewrite Er1. split_and!; [done| |done].
      rewrite (leads_self_reachable _ _ _ _ Hr Hn Hl). apply (n_addr _ _ _ _ _ Hok).
    + rewrite decide_True in Hc2 by (apply list_elem_of_filter; split; [done|apply (n_in _ _ _ _ _ Hokm)]).
      destruct Hc2 as (m' & Hm' & Hf). rewrite Hm in Hm'. by simplify_eq.
Qed.

(** C16.  Elections can always come to an end: from every reachable cluster of distinct,
    non-empty addresses (terms at least three below the last [uint64]), whatever stale
    leaders, unfinished elections, pending goroutines and old messages it has, there is
    a continuation after which one node leads and every other node follows it, all in
    the same term. *)
Theorem election_completes ps c :
  NoDup ps → [] ∉ ps → ps ≠ [] → reachable ps c →
  (∀ a n, nodes c !! a = Some n → 0 ≤ currentTerm (raft n) < 2 ^ 64 - 3) →
  ∃ c' a t, rtc step c c' ∧ reachable ps c' ∧ a ∈ ps ∧ settled c' a t.
Proof.
  intros Hnd Hne Hps Hr Hsmall.
  destruct (someone_leads ps c Hnd Hne Hps Hr Hsmall) as (c1 & Hs1 & a & n & Hn & Hl & HT & Ht).
  pose proof (small_step_reachable _ _ _ Hr Hs1) as Hr1.
  destruct (leader_settles ps c1 a n Hnd Hne Hr1 Hn Hl HT Ht) as (c2 & Hs2 & Hset).
  exists c2, a, (currentTerm (raft n)). split_and!.
  - etrans; by apply small_step_rtc.
  - by eapply small_step_reachable.
  - apply (n_in _ _ _ _ _ (i_nodes _ _ (inv_reachable _ _ Hnd Hne Hr1) _ _ Hn)).
  - done.
Qed.

(** From the cluster in which a node that is no leader any more still holds a live
    leader object, and two elections are unfinished. *)
Lemma stale_reachable : reachable three stale.
Proof.
  apply (do_steps_reachable three overtaken (init three)); [apply r_init|]. vm_compute. reflexivity.
Qed.

Lemma election_completes_witness :
  ∃ c' a t, rtc step stale c' ∧ reachable three c' ∧ a ∈ three ∧ settled c' a t.
Proof.
  apply (election_completes three stale).
  - apply three_nodup.
  - apply three_nonempty.
  - discriminate.
  - apply stale_reachable.
  - refine (bool_decide_eq_true_1
      (map_Forall (λ (_ : addr) n, 0 ≤ currentTerm (raft n) < 2 ^ 64 - 3) (nodes stale)) _).
    vm_compute. reflexivity.
Defined.
