(* ===== verification/Replication.v ===== *)
(** * Replication (cluster/leader.go, cluster/follower.go, cluster/node.go)

    The leader's table of follower connections and its broadcasts, the follower's
    receive loop, and the node that joins store, election state and leader.  A
    connection is a number in a table of connections, so that two owners of one
    connection share it. *)

From S2P Require Import Prelude GoLang Protocol ClusterMessages ClientMessages Messages.
From S2P Require Import WalRecord Os WalWriter Shard Eviction Store Recovery StoreSpec Raft.

(** ** Connections

    What has been written to a connection, and whether a write still succeeds. *)
Record conn := mkConn { sent : gobytes; alive : bool }.
Abbreviation net := (gmap nat conn).

Definition net_ErrClosed : error := ErrorString (str "use of closed network connection").

Definition conn_Write (nt : net) (c : nat) (d : gobytes) : go () * net :=
  match nt !! c with
  | Some cn => if alive cn then (Ok (), <[c := mkConn (sent cn ++ d) true]> nt) else (Err net_ErrClosed, nt)
  | None => (Err net_ErrClosed, nt)
  end.

Definition conn_Close (nt : net) (c : nat) : net :=
  match nt !! c with
  | Some cn => <[c := mkConn (sent cn) false]> nt
  | None => nt
  end.

(** ** leader.go *)

Record Leader := mkLeader { followers : gmap addr nat; logIndex : Z }.

Definition newLeader : Leader := mkLeader ∅ 0.

Definition AddFollower (l : Leader) (nodeAddr : addr) (c : nat) : Leader :=
  mkLeader (<[nodeAddr := c]> (followers l)) (logIndex l).

(** The order in which a loop visits the table. *)
Definition table_order := gmap addr nat → list (addr * nat).
Definition table_order_ok (ord : table_order) : Prop := ∀ m, ord m ≡ₚ map_to_list m.

(** The two loops of [broadcast]: write to every follower, then drop the dead. *)
Definition broadcast_write (frame : gobytes) (st : net * list addr) (x : addr * nat) : net * list addr :=
  let '(nt, dead) := st in
  let '(a, c) := x in
  match conn_Write nt c frame with
  | (Ok _, nt) => (nt, dead)
  | (_, nt) => (nt, dead ++ [a])
  end.

Definition broadcast_drop (st : gmap addr nat * net) (a : addr) : gmap addr nat * net :=
  let '(fs, nt) := st in
  (delete a fs, match fs !! a with Some c => conn_Close nt c | None => nt end).

Definition broadcast (ord : table_order) (l : Leader) (nt : net) (msg : Msg) : Leader * net :=
  match EncodeFrame msg with
  | Ok frame =>
      let '(nt, dead) := foldl (broadcast_write frame) (nt, []) (ord (followers l)) in
      let '(fs, nt) := foldl broadcast_drop (followers l, nt) dead in
      (mkLeader fs (logIndex l), nt)
  | _ => (l, nt)
  end.

(** [l.logIndex.Add(1)] *)
Definition next_index (l : Leader) : Leader := mkLeader (followers l) (u64 (logIndex l + 1)).

Definition BroadcastSet (ord : table_order) (l : Leader) (nt : net) (key : key) (value : gobytes)
    (expiredAt : Z) : Leader * net :=
  let l := next_index l in
  broadcast ord l nt (MReplicationSync (mkReplicationSync (logIndex l) wal.OpSet key value (u64 expiredAt))).

Definition BroadcastDelete (ord : table_order) (l : Leader) (nt : net) (key : key) : Leader * net :=
  let l := next_index l in
  broadcast ord l nt (MReplicationSync (mkReplicationSync (logIndex l) wal.OpDelete key [] 0)).

Definition removeFollower (l : Leader) (nt : net) (nodeAddr : addr) : Leader * net :=
  match followers l !! nodeAddr with
  | Some c => (mkLeader (delete nodeAddr (followers l)) (logIndex l), conn_Close nt c)
  | None => (l, nt)
  end.

(** [drainAcks]: read frames until one fails, then remove the follower of that
    address.  [None]: [fuel] turns were not enough; a panic ends the program. *)
Fixpoint drain (fuel : nat) (rd : reader) : option (go ()) :=
  match fuel with
  | O => None
  | S fuel =>
      match ReadFrame registry rd 0 with
      | (Ok _, rd) => drain fuel rd
      | (Err e, _) => Some (Err e)
      | (Panic, _) => Some Panic
      end
  end.

Definition drainAcks (fuel : nat) (l : Leader) (nt : net) (nodeAddr : addr) (rd : reader)
    : option (go (Leader * net)) :=
  res ← drain fuel rd;
  match res with
  | Panic => Some Panic
  | _ => Some (Ok (removeFollower l nt nodeAddr))
  end.

(** ** follower.go *)

Section follower.
Context {P : Type} {PP : Policy P} {W : Type} {LW : Log W}.

(** [now] is the clock when the record is applied; errors are only printed. *)
Definition applySync (ord : order) (db : KVStore P W) (sync : ReplicationSync) (now : Z) : KVStore P W :=
  let key := ReplicationSync_Key sync in
  if ReplicationSync_Op sync =? wal.OpSet then
    let expiredAt := time_Unix0 (i64 (ReplicationSync_ExpiresAt sync)) in
    (SetWithExpiry ord db key (ReplicationSync_Value sync) expiredAt now).2
  else if ReplicationSync_Op sync =? wal.OpDelete then (Delete db key).2
  else db.

(** The loop of [syncWithLeader]: the outcome, the store and the acks written. *)
Fixpoint sync_loop (fuel : nat) (ord : order) (now : Z) (rd : reader) (db : KVStore P W) (acks : gobytes)
    : option (go () * KVStore P W * gobytes) :=
  match fuel with
  | O => None
  | S fuel =>
      match ReadFrame registry rd 0 with
      | (Ok (MReplicationSync sync), rd) =>
          let db := applySync ord db sync now in
          let ack := MReplicationAck (mkReplicationAck (ReplicationSync_LogIndex sync)) in
          let acks := match WriteFrame acks ack with Ok w => w | _ => acks end in
          sync_loop fuel ord now rd db acks
      | (Ok _, rd) => sync_loop fuel ord now rd db acks
      | (Err e, rd) =>
          if errors_Is e ErrMalformedMessage then sync_loop fuel ord now rd db acks
          else Some (Err e, db, acks)
      | (Panic, _) => Some (Panic, db, acks)
      end
  end.

(** [syncWithLeader], given the outcome of [net.Dial] (what will be read) and whether
    the join request could be written. *)
Definition syncWithLeader (ord : order) (dialed : go reader) (joined : go ()) (now : Z) (db : KVStore P W)
    : option (go () * KVStore P W * gobytes) :=
  match dialed with
  | Ok rd =>
      match joined with
      | Ok _ => sync_loop (S (length (rd_data rd))) ord now rd db []
      | Err e => Some (Err e, db, [])
      | Panic => Some (Panic, db, [])
      end
  | Err e => Some (Err e, db, [])
  | Panic => Some (Panic, db, [])
  end.

(** One turn of [RunFollower]: whom to follow now, if anyone. *)
Definition follow_target (r : RaftState) (nodeAddr : addr) : option addr :=
  if is_leader r then None else
  let leaderAddr := GetLeaderAddr r in
  if bool_decide (leaderAddr = []) || bool_decide (leaderAddr = nodeAddr) then None else Some leaderAddr.

(** ** node.go *)

Record Node := mkNode { db : KVStore P W; ndefaultTTL : Z; nraft : RaftState; nleader : option Leader }.

Definition NewNode (store : KVStore P W) (ttl : Z) (self : addr) (ps : list addr) : Node :=
  mkNode store ttl (NewRaftState self ps) None.

Definition ForceLeader (n : Node) : Node := mkNode (db n) (ndefaultTTL n) (nraft n) (Some newLeader).
Definition becomeLeader (n : Node) : Node := mkNode (db n) (ndefaultTTL n) (nraft n) (Some newLeader).
Definition becomeFollower (n : Node) : Node := mkNode (db n) (ndefaultTTL n) (nraft n) None.

Definition with_db (n : Node) (d : KVStore P W) : Node := mkNode d (ndefaultTTL n) (nraft n) (nleader n).
Definition with_leader (n : Node) (l : Leader) : Node := mkNode (db n) (ndefaultTTL n) (nraft n) (Some l).

Definition Node_Set (ord : order) (ford : table_order) (n : Node) (nt : net) (key : key) (value : gobytes)
    (ttl now : Z) : go () * Node * net :=
  let ttl := if ttl <=? 0 then ndefaultTTL n else ttl in
  let expiredAt := now + ttl in
  match SetWithExpiry ord (db n) key value expiredAt now with
  | (Ok _, d) =>
      let n := with_db n d in
      match nleader n with
      | Some l => let '(l, nt) := BroadcastSet ford l nt key value (UnixNano expiredAt) in
                  (Ok (), with_leader n l, nt)
      | None => (Ok (), n, nt)
      end
  | (res, d) => (res, with_db n d, nt)
  end.

Definition Node_Get (n : Node) (key : key) (now : Z) : go gobytes * Node :=
  let '(res, d) := Get (db n) key now in (res, with_db n d).

Definition Node_Delete (ford : table_order) (n : Node) (nt : net) (key : key) : go () * Node * net :=
  match Delete (db n) key with
  | (Ok _, d) =>
      let n := with_db n d in
      match nleader n with
      | Some l => let '(l, nt) := BroadcastDelete ford l nt key in (Ok (), with_leader n l, nt)
      | None => (Ok (), n, nt)
      end
  | (res, d) => (res, with_db n d, nt)
  end.

Definition IsLeader (n : Node) : bool := is_leader (nraft n).

Definition GetTopology (n : Node) : TopologyResponse :=
  let leader := GetLeaderAddr (nraft n) in
  mkTopologyResponse leader
    ((λ a, mkNodeInfo a (if bool_decide (a = leader) then TopologyRoleLeader else TopologyRoleFollower) a)
       <$> GetPeers (nraft n)).

Definition Node_Leader (n : Node) : option Leader := nleader n.
Definition Node_GetTerm (n : Node) : Z := GetTerm (nraft n).
End follower.
Arguments Node : clear implicits.

(** ** Broadcasts *)

(** No two followers share a connection. *)
Definition table_ok (fs : gmap addr nat) : Prop := ∀ a b c, fs !! a = Some c → fs !! b = Some c → a = b.

Lemma conn_Write_other nt c d c' : c' ≠ c → (conn_Write nt c d).2 !! c' = nt !! c'.
Proof.
  intros Hne. unfold conn_Write. destruct (nt !! c) as [cn|]; [|done].
  destruct (alive cn); [|done]. simpl. by rewrite lookup_insert_ne.
Qed.

Lemma conn_Close_other nt c c' : c' ≠ c → conn_Close nt c !! c' = nt !! c'.
Proof. intros Hne. unfold conn_Close. destruct (nt !! c); [|done]. by rewrite lookup_insert_ne. Qed.

(** The write loop, seen from one connection and from one address. *)
Lemma broadcast_write_other frame l : ∀ nt dead c,
  c ∉ l.*2 → (foldl (broadcast_write frame) (nt, dead) l).1 !! c = nt !! c.
Proof.
  induction l as [|[a c0] l IH]; intros nt dead c Hc; [done|].
  rewrite fmap_cons, not_elem_of_cons in Hc. destruct Hc as [Hne Hc]. cbn [foldl broadcast_write].
  pose proof (conn_Write_other nt c0 frame c Hne) as Hw.
  destruct (conn_Write nt c0 frame) as [[]?]; simpl in *; by rewrite IH.
Qed.

Lemma broadcast_write_dead frame l : ∀ nt dead a,
  a ∈ (foldl (broadcast_write frame) (nt, dead) l).2 → a ∈ dead ∨ ∃ c, (a, c) ∈ l.
Proof.
  induction l as [|[b c0] l IH]; intros nt dead a; [by left|]. cbn [foldl broadcast_write].
  destruct (conn_Write nt c0 frame) as [[]?]; intros [Hd|[c Hc]]%IH;
    rewrite ?elem_of_app, ?list_elem_of_singleton in *; try (right; exists c; by right); auto.
  all: destruct Hd as [|Hd]; [by left|]; subst; right; exists c0; by left.
Qed.

Lemma broadcast_write_live frame l : ∀ nt dead a c d,
  NoDup l.*2 → NoDup l.*1 → (a, c) ∈ l → nt !! c = Some (mkConn d true) → a ∉ dead →
  (foldl (broadcast_write frame) (nt, dead) l).1 !! c = Some (mkConn (d ++ frame) true) ∧
  a ∉ (foldl (broadcast_write frame) (nt, dead) l).2.
Proof.
  induction l as [|[b c0] l IH]; intros nt dead a c d Hnd2 Hnd1 Hin Hc Ha; [by apply not_elem_of_nil in Hin|].
  rewrite fmap_cons in Hnd2. rewrite fmap_cons in Hnd1. apply NoDup_cons in Hnd2 as [Hc0 Hnd2], Hnd1 as [Hb Hnd1].
  cbn [fst snd] in *. apply elem_of_cons in Hin as [[= <- <-]|Hin]; cbn [foldl broadcast_write].
  - unfold conn_Write. rewrite Hc. cbn [alive sent]. split.
    + rewrite broadcast_write_other by done. by rewrite lookup_insert_eq.
    + intros [?|[c' Hc']]%broadcast_write_dead; [done|]. apply Hb, list_elem_of_fmap. by exists (a, c').
  - assert (c ≠ c0) as Hne by (intros ->; apply Hc0, list_elem_of_fmap; by exists (a, c0)).
    assert (a ≠ b) as Hab by (intros ->; apply Hb, list_elem_of_fmap; by exists (b, c)).
    pose proof (conn_Write_other nt c0 frame c Hne) as Hw.
    destruct (conn_Write nt c0 frame) as [[]?]; simpl in Hw; apply IH; try done; try (by rewrite Hw);
      rewrite elem_of_app, list_elem_of_singleton; naive_solver.
Qed.

Lemma broadcast_drop_keeps dead : ∀ fs nt a c cn,
  table_ok fs → fs !! a = Some c → nt !! c = Some cn → a ∉ dead →
  let '(fs', nt') := foldl broadcast_drop (fs, nt) dead in
  fs' !! a = Some c ∧ nt' !! c = Some cn ∧ table_ok fs'.
Proof.
  induction dead as [|b dead IH]; intros fs nt a c cn Hok Ha Hc Hd; [done|].
  apply not_elem_of_cons in Hd as [Hne Hd]. cbn [foldl broadcast_drop]. apply IH.
  - intros x y z [_ Hx]%lookup_delete_Some [_ Hy]%lookup_delete_Some. by eapply Hok.
  - by rewrite lookup_delete_ne.
  - destruct (fs !! b) as [cb|] eqn:Eb; [|done]. rewrite conn_Close_other; [done|].
    intros <-. apply Hne. by eapply Hok.
  - done.
Qed.

(** A connected follower gets exactly the frame of the message and stays. *)
Lemma broadcast_spec ord l nt msg a c d :
  table_order_ok ord → table_ok (followers l) →
  followers l !! a = Some c → nt !! c = Some (mkConn d true) →
  let '(l', nt') := broadcast ord l nt msg in
  followers l' !! a = Some c ∧ nt' !! c = Some (mkConn (d ++ frame_bytes msg) true) ∧
  table_ok (followers l') ∧ logIndex l' = logIndex l.
Proof.
  intros Hord Hok Ha Hc. unfold broadcast. rewrite EncodeFrame_bytes.
  assert ((a, c) ∈ ord (followers l)) as Hin by (rewrite (Hord (followers l)); by apply elem_of_map_to_list).
  assert (NoDup (ord (followers l)).*1) as Hnd1 by (rewrite (Hord (followers l)); apply NoDup_fst_map_to_list).
  assert (NoDup (ord (followers l)).*2) as Hnd2.
  { rewrite (Hord (followers l)). apply NoDup_fmap_2_strong; [|apply NoDup_map_to_list].
    intros [x cx] [y cy] Hx%elem_of_map_to_list Hy%elem_of_map_to_list E. simpl in *. subst.
    f_equal. by eapply Hok. }
  pose proof (broadcast_write_live (frame_bytes msg) _ nt [] a c d Hnd2 Hnd1 Hin Hc) as Hw.
  destruct (foldl (broadcast_write _) _ _) as [nt1 dead]. simpl in Hw.
  destruct Hw as [Hc1 Hdead]; [apply not_elem_of_nil|].
  pose proof (broadcast_drop_keeps dead _ nt1 a c _ Hok Ha Hc1 Hdead) as Hd.
  destruct (foldl broadcast_drop _ _) as [fs nt2]. naive_solver.
Qed.

(** ** The receive loop *)

Section follower_facts.
Context {P : Type} {PP : Policy P} {PL : PolicyLaws P} {W : Type} {LW : Log W} {LL : LogLaws W}.

Definition sync_ok (s : ReplicationSync) : Prop :=
  0 ≤ ReplicationSync_LogIndex s < 2 ^ 64 ∧ len (ReplicationSync_Key s) < 65536 ∧
  len (ReplicationSync_Value s) < 2 ^ 31 ∧ 0 ≤ ReplicationSync_ExpiresAt s < 2 ^ 64.

Lemma sync_frame s rest e : sync_ok s →
  ReadFrame registry (Reader (frame_bytes (MReplicationSync s) ++ rest) e) 0 =
  (Ok (MReplicationSync s), Reader rest e).
Proof.
  intros (H1 & H2 & H3 & H4). apply ReadFrame_frame; [apply registry_is_ok|apply registry_complete|..|by left].
  - cbn. split_and!; (done || lia).
  - cbn [wire Msg_Codec Msg_wire ReplicationSync_Codec]. len_lia.
Qed.

(** Applying a stream of records, oldest first. *)
Definition apply_all (ord : order) (d : KVStore P W) (ss : list ReplicationSync) (now : Z) : KVStore P W :=
  foldl (λ d s, applySync ord d s now) d ss.

Lemma sync_loop_stream ord now ss : ∀ d acks fuel,
  Forall sync_ok ss → (length ss < fuel)%nat →
  sync_loop fuel ord now (Reader (concat ((λ s, frame_bytes (MReplicationSync s)) <$> ss)) io_EOF) d acks =
  Some (Err io_EOF, apply_all ord d ss now,
        acks ++ concat ((λ s, frame_bytes (MReplicationAck (mkReplicationAck (ReplicationSync_LogIndex s)))) <$> ss)).
Proof.
  induction ss as [|s ss IH]; intros d acks fuel Hok Hfuel.
  - destruct fuel as [|fuel]; [simpl in Hfuel; lia|]. cbn [fmap list_fmap concat sync_loop].
    unfold ReadFrame, frameHeaderSize. rewrite ReadFull_eof by lia.
    replace (errors_Is io_EOF ErrMalformedMessage) with false by (vm_compute; reflexivity).
    by rewrite app_nil_r.
  - apply Forall_cons in Hok as [Hs Hok]. destruct fuel as [|fuel]; [simpl in Hfuel; lia|].
    cbn [fmap list_fmap concat sync_loop]. rewrite sync_frame by done.
    rewrite WriteFrame_bytes. cbn beta zeta.
    rewrite (IH (applySync ord d s now)) by (done || simpl in Hfuel; lia). by rewrite <-app_assoc.
Qed.

(** A log that accepts every record, as that of mode [interval] does. *)
Definition log_total : Prop := ∀ r (w : W), (log_append r w).1 = Ok ().

Lemma applySync_set ord d m s now :
  orders_ok ord → log_total → simulates m d → ReplicationSync_Op s = wal.OpSet →
  simulates (<[ReplicationSync_Key s := mkRecord (ReplicationSync_Value s) now (i64 (ReplicationSync_ExpiresAt s))]> m)
    (applySync (ord 0%nat) d s now).
Proof.
  intros Hord Hlog Hsim Hop. unfold applySync. rewrite Hop. simpl. unfold time_Unix0.
  destruct (SetWithExpiry _ _ _ _ _ _) as [r d'] eqn:E.
  edestruct (run_op_accepted ord Hord d m (OSet (ReplicationSync_Key s) (ReplicationSync_Value s)
    (i64 (ReplicationSync_ExpiresAt s))) now) as (_ & Hs & _); [done|by apply Forall_singleton, Hlog|simpl; by rewrite E|].
  done.
Qed.

Lemma applySync_delete ord d m s now :
  orders_ok ord → log_total → simulates m d → ReplicationSync_Op s = wal.OpDelete →
  simulates (delete (ReplicationSync_Key s) m) (applySync (ord 0%nat) d s now).
Proof.
  intros Hord Hlog Hsim Hop. unfold applySync. rewrite Hop. simpl.
  destruct (Delete d _) as [r d'] eqn:E.
  edestruct (run_op_accepted ord Hord d m (ODelete (ReplicationSync_Key s)) now) as (_ & Hs & _);
    [done|by apply Forall_singleton, Hlog|simpl; by rewrite E|]. done.
Qed.
End follower_facts.
Arguments log_total W {_}.

(** ** A leader and a follower *)

Inductive request := NSet (k : key) (v : gobytes) (ttl : Z) | NDelete (k : key).

(** What a reader can see of a record. *)
Definition visible (r : Record) : gobytes * Z := (value r, expiredAt r).

(** The keys of the requests that were answered without an error. *)
Definition request_key (r : request) : key := match r with NSet k _ _ | NDelete k => k end.
Definition acked_one (r : request) (res : go ()) : gset key := match res with Ok _ => {[request_key r]} | _ => ∅ end.
Definition acked (rs : list (request * Z)) (ress : list (go ())) : gset key :=
  ⋃ zip_with (λ x res, acked_one x.1 res) rs ress.

(** From [m] to [m'] on the leader and from [m2] to [m2'] on a follower: they agree on the
    keys of [ks] and change nothing else. *)
Definition tracks (ks : gset key) (m m' m2 m2' : gmap key Record) : Prop :=
  ∀ k, (k ∈ ks → visible <$> m' !! k = visible <$> m2' !! k) ∧ (k ∉ ks → m' !! k = m !! k ∧ m2' !! k = m2 !! k).

Lemma tracks_none m m2 : tracks ∅ m m m2 m2.
Proof. intros k. split; [set_solver|done]. Qed.

Lemma tracks_insert m m2 k r1 r2 : visible r1 = visible r2 → tracks {[k]} m (<[k := r1]> m) m2 (<[k := r2]> m2).
Proof.
  intros Hr k'. split.
  - intros ->%elem_of_singleton. rewrite !lookup_insert_eq. cbn. by rewrite Hr.
  - intros ?%not_elem_of_singleton. by rewrite !lookup_insert_ne by done.
Qed.

Lemma tracks_delete m m2 k : tracks {[k]} m (delete k m) m2 (delete k m2).
Proof.
  intros k'. split.
  - intros ->%elem_of_singleton. by rewrite !lookup_delete_eq.
  - intros ?%not_elem_of_singleton. by rewrite !lookup_delete_ne by done.
Qed.

Lemma tracks_trans ks1 ks2 m m1 m2 f f1 f2 : tracks ks1 m m1 f f1 → tracks ks2 m1 m2 f1 f2 → tracks (ks1 ∪ ks2) m m2 f f2.
Proof.
  intros H1 H2 k. destruct (H1 k) as [A1 B1], (H2 k) as [A2 B2]. split.
  - intros Hk. destruct (decide (k ∈ ks2)); [by apply A2|]. destruct B2 as [-> ->]; [done|]. apply A1. set_solver.
  - intros [Hk1 Hk2]%not_elem_of_union. destruct B2 as [-> ->]; [done|]. by apply B1.
Qed.

Section pair.
Context {P : Type} {PP : Policy P} {PL : PolicyLaws P} {W : Type} {LW : Log W} {LL : LogLaws W}.
Context {P2 : Type} {PP2 : Policy P2} {PL2 : PolicyLaws P2} {W2 : Type} {LW2 : Log W2} {LL2 : LogLaws W2}.
Context (ord : nat → order) (Hord : orders_ok ord) (ford : table_order) (Hford : table_order_ok ford).

Definition node_request (n : Node P W) (nt : net) (r : request) (now : Z) : go () * Node P W * net :=
  match r with
  | NSet k v ttl => Node_Set (ord 0%nat) ford n nt k v ttl now
  | NDelete k => Node_Delete ford n nt k
  end.

Fixpoint node_run (n : Node P W) (nt : net) (rs : list (request * Z)) : list (go ()) * Node P W * net :=
  match rs with
  | [] => ([], n, nt)
  | (r, now) :: rs =>
      let '(res, n, nt) := node_request n nt r now in
      let '(ress, n, nt) := node_run n nt rs in (res :: ress, n, nt)
  end.

(** The keys, values and expiries the protocol and the log can carry. *)
Definition request_ok (ttl0 : Z) (x : request * Z) : Prop :=
  match x.1 with
  | NSet k v ttl => len k < 65536 ∧ len v < 2 ^ 31 ∧
      - 2 ^ 63 ≤ x.2 + (if ttl <=? 0 then ttl0 else ttl) < 2 ^ 63
  | NDelete k => len k < 65536
  end.

(** The leader's side: its store is [m], and the follower at [a] has been sent the
    frames of [ss]. *)
Record leading_to (a : addr) (c : nat) (m : gmap key Record) (n : Node P W) (nt : net) (d : gobytes) : Prop := {
  lt_sim : simulates m (db n);
  lt_leader : ∃ l, nleader n = Some l ∧ followers l !! a = Some c ∧ table_ok (followers l);
  lt_conn : nt !! c = Some (mkConn d true);
}.

Definition frames (ss : list ReplicationSync) : gobytes :=
  concat ((λ s, frame_bytes (MReplicationSync s)) <$> ss).

(** A change of the store alone, and with a record for the follower. *)
Lemma leading_stay a c m n nt d d1 m1 :
  leading_to a c m n nt d → simulates m1 d1 → leading_to a c m1 (with_db n d1) nt d.
Proof. intros [_ (l & ?) ?] Hs. split; [done|by exists l|done]. Qed.

Lemma leading_send a c m n nt d l d1 m1 s :
  leading_to a c m n nt d → nleader n = Some l → simulates m1 d1 →
  let '(l', nt1) := broadcast ford (next_index l) nt (MReplicationSync s) in
  leading_to a c m1 (with_leader (with_db n d1) l') nt1 (d ++ frames [s]).
Proof.
  intros [_ (l0 & Hl0 & Ha & Htab) Hc] Hl Hs. rewrite Hl in Hl0. injection Hl0 as <-.
  pose proof (broadcast_spec ford (next_index l) nt (MReplicationSync s) a c d Hford Htab Ha Hc) as Hb.
  destruct (broadcast _ _ _ _) as [l' nt1]. destruct Hb as (H1 & H2 & H3 & _).
  split; [done|by exists l'|]. unfold frames. simpl. by rewrite app_nil_r.
Qed.

(** One request: nothing is sent and nothing changed, or one record is sent that makes
    the same change on a follower. *)
Lemma node_request_replicates a c m n nt d r now n' nt' res :
  leading_to a c m n nt d → request_ok (ndefaultTTL n) (r, now) →
  node_request n nt r now = (res, n', nt') →
  ∃ ss m', Forall sync_ok ss ∧ (length ss ≤ 1)%nat ∧ leading_to a c m' n' nt' (d ++ frames ss) ∧
    ndefaultTTL n' = ndefaultTTL n ∧
    ∀ now2 m2 (fd : KVStore P2 W2), log_total W2 → simulates m2 fd →
      ∃ m2', simulates m2' (apply_all (ord 0%nat) fd ss now2) ∧ tracks (acked_one r res) m m' m2 m2'.
Proof.
  intros Hlead Hok E. pose proof Hlead as [Hsim (l & Hl & _) _].
  pose proof (λ d1 m1, leading_stay a c m n nt d d1 m1 Hlead) as Hstay.
  pose proof (λ d1 m1 s, leading_send a c m n nt d l d1 m1 s Hlead Hl) as Hsend.
  assert (∀ m1, m1 = m → ∀ now2 m2 (fd : KVStore P2 W2), log_total W2 → simulates m2 fd →
      ∃ m2', simulates m2' (apply_all (ord 0%nat) fd [] now2) ∧ tracks ∅ m m1 m2 m2') as Hnone
    by (intros m1 -> now2 m2 fd _ ?; exists m2; by split; [|apply tracks_none]).
  destruct r as [k v ttl|k]; unfold request_ok in Hok; cbn [fst snd node_request] in E, Hok.
  - unfold Node_Set in E. set (exp := now + _) in *.
    destruct (SetWithExpiry (ord 0%nat) (db n) k v exp now) as [r1 d1] eqn:Es.
    destruct (run_op_simulates ord Hord (db n) m (OSet k v exp) now (RUnit r1) d1 Hsim)
      as [(m' & Hspec & Hsim' & _)|(e & _ & He & Hsim')]; [simpl; by rewrite Es|..]; simplify_eq/=.
    + unfold BroadcastSet in E. rewrite Hl in E.
      set (s := mkReplicationSync _ _ _ _ _) in E. specialize (Hsend d1 _ s Hsim').
      destruct (broadcast _ _ _ _) as [l' nt1]. simplify_eq.
      exists [s], (<[k := mkRecord v now exp]> m). split_and!; [|done|done|done|].
      * apply Forall_singleton. unfold sync_ok, s. simpl.
        pose proof (u64_range (logIndex l + 1)). pose proof (u64_range (UnixNano exp)). split_and!; lia.
      * intros now2 m2 fd Hlog Hsim2. eexists. split; [by apply applySync_set|]. simpl.
        apply tracks_insert. unfold visible, UnixNano. simpl. f_equal.
        rewrite (i64_small exp) by lia. by rewrite i64_u64_small by lia.
    + exists [], m. unfold frames. simpl. rewrite app_nil_r. split_and!; try done; [lia|by apply Hstay|by apply Hnone].
  - unfold Node_Delete in E.
    destruct (Delete (db n) k) as [r1 d1] eqn:Es.
    destruct (run_op_simulates ord Hord (db n) m (ODelete k) now (RUnit r1) d1 Hsim)
      as [(m' & Hspec & Hsim' & _)|(e & _ & He & Hsim')]; [simpl; by rewrite Es|..]; simplify_eq/=.
    + destruct (m !! k) as [r0|] eqn:Ek; simplify_eq/=.
      * unfold BroadcastDelete in E. rewrite Hl in E.
        set (s := mkReplicationSync _ _ _ _ _) in E. specialize (Hsend d1 _ s Hsim').
        destruct (broadcast _ _ _ _) as [l' nt1]. simplify_eq.
        exists [s], (delete k m). split_and!; [|done|done|done|].
        -- apply Forall_singleton. unfold sync_ok, s. simpl.
           pose proof (u64_range (logIndex l + 1)). split_and!; try lia; len_lia.
        -- intros now2 m2 fd Hlog Hsim2. eexists. split; [by apply applySync_delete|].
           apply tracks_delete.
      * exists [], (delete k m). unfold frames. simpl. rewrite app_nil_r.
        split_and!; try done; [lia|by apply Hstay|]. apply Hnone. by rewrite delete_id.
    + exists [], m. unfold frames. simpl. rewrite app_nil_r. split_and!; try done; [lia|by apply Hstay|by apply Hnone].
Qed.

Lemma frames_app s1 s2 : frames (s1 ++ s2) = frames s1 ++ frames s2.
Proof. unfold frames. by rewrite fmap_app, concat_app. Qed.

Lemma node_run_replicates a c rs : ∀ m n nt d ress n' nt',
  leading_to a c m n nt d → Forall (request_ok (ndefaultTTL n)) rs → node_run n nt rs = (ress, n', nt') →
  ∃ ss m', Forall sync_ok ss ∧ leading_to a c m' n' nt' (d ++ frames ss) ∧
    ∀ now2 m2 (fd : KVStore P2 W2), log_total W2 → simulates m2 fd →
      ∃ m2', simulates m2' (apply_all (ord 0%nat) fd ss now2) ∧ tracks (acked rs ress) m m' m2 m2'.
Proof.
  induction rs as [|[r now] rs IH]; intros m n nt d ress n' nt' Hlead Hok; simpl.
  { intros [= <- <- <-]. exists [], m. unfold frames. simpl. rewrite app_nil_r. split_and!; [constructor|done|].
    intros now2 m2 fd _ ?. exists m2. by split; [|apply tracks_none]. }
  apply Forall_cons in Hok as [Hr Hok].
  destruct (node_request n nt r now) as [[res n1] nt1] eqn:E1.
  destruct (node_run n1 nt1 rs) as [[ress1 n2] nt2] eqn:E2. intros [= <- <- <-].
  destruct (node_request_replicates _ _ _ _ _ _ _ _ _ _ _ Hlead Hr E1) as (s1 & m1 & Hs1 & _ & Hl1 & Httl & Hf1).
  rewrite <-Httl in Hok. destruct (IH _ _ _ _ _ _ _ Hl1 Hok E2) as (s2 & m2 & Hs2 & Hl2 & Hf2).
  exists (s1 ++ s2), m2. rewrite frames_app, app_assoc. split_and!; [by apply Forall_app|done|].
  intros now2 m0 fd Hlog Hsim. destruct (Hf1 now2 m0 fd Hlog Hsim) as (m1' & Hsim1 & Ht1).
  destruct (Hf2 now2 m1' _ Hlog Hsim1) as (m2' & Hsim2 & Ht2). exists m2'.
  unfold apply_all in *. rewrite foldl_app. split; [done|]. by eapply tracks_trans.
Qed.
End pair.
