(* ===== verification/ReplicationProps.v ===== *)
(** * The properties of replication *)

From S2P Require Import Prelude GoLang Protocol ClusterMessages ClientMessages Messages.
From S2P Require Import WalRecord Os WalWriter Shard Eviction Store Recovery StoreSpec Logs StoreProps Raft Replication.

(** ** Reading frames makes progress *)

Lemma ReadFrame_progress rd maxLen :
  errors_Is (rd_end rd) ErrMalformedMessage = false →
  match ReadFrame registry rd maxLen with
  | (Ok _, rd') => (length (rd_data rd') < length (rd_data rd))%nat ∧ rd_end rd' = rd_end rd
  | (Err e, rd') => errors_Is e ErrMalformedMessage = true →
      (length (rd_data rd') < length (rd_data rd))%nat ∧ rd_end rd' = rd_end rd
  | (Panic, _) => True
  end.
Proof.
  intros Hend. unfold ReadFrame, frameHeaderSize.
  assert (∀ rd n e rd', errors_Is (rd_end rd) ErrMalformedMessage = false →
    ReadFull rd n = (Err e, rd') → errors_Is e ErrMalformedMessage = true → False) as Herr.
  { intros rd0 n e rd' He [->| ->]%ReadFull_err; [by vm_compute|]. by rewrite He. }
  destruct (ReadFull rd 4) as [[header|e|] rd1] eqn:E1; [|intros; by exfalso; eapply Herr|done].
  apply ReadFull_ok in E1 as (-> & -> & Hlen).
  destruct (get_uint_ok 4 (take (Z.to_nat 4) (rd_data rd))) as [msgLen ->];
    [unfold len; rewrite length_take; lia|].
  destruct (_ && _); [by vm_compute|].
  match goal with |- context [ReadFull ?r msgLen] => destruct (ReadFull r msgLen) as [[body|e|] rd2] eqn:E2 end;
    [|intros Hm; exfalso; by eapply (Herr (Reader _ _) _ _ _ Hend E2)|done].
  apply ReadFull_ok in E2 as (_ & -> & _). cbn [rd_data rd_end].
  destruct (DecodeMessage registry body); [|intros _|done]; rewrite !length_drop; (split; [lia|done]).
Qed.

(** ** A follower fed by a leader *)

Lemma length_frames ss : (length ss ≤ length (frames ss))%nat.
Proof.
  induction ss as [|s ss IH]; [done|]. unfold frames in *. cbn [fmap list_fmap concat length].
  rewrite length_app. unfold frame_bytes at 1. rewrite length_app. cbn [length]. lia.
Qed.

Section claims.
Context {W : Type} {LW : Log W} {LL : LogLaws W} {W2 : Type} {LW2 : Log W2} {LL2 : LogLaws W2}.

(** A follower that is connected while a leader runs any sequence of
    sets and deletes, and reads to the end of what the leader wrote to its connection,
    ends with the leader's value and expiry for every key whose write the leader
    acknowledged and for every key on which the two agreed before, and with its own old
    record for every other key, whatever it held when it joined (neither limits memory).
    It acknowledges every record it was sent.  A follower that starts with the leader's
    contents so ends with the leader's contents. *)
Lemma replication_converges ord ford (n : Node AnyPolicy W) nt a c m
    (fd : KVStore AnyPolicy W2) m2 rs now2 ress n' nt' :
  orders_ok ord → table_order_ok ford →
  leading_to a c m n nt [] → Forall (request_ok (ndefaultTTL n)) rs →
  log_total W2 → simulates m2 fd →
  node_run ord ford n nt rs = (ress, n', nt') →
  ∃ d ss fd', nt' !! c = Some (mkConn d true) ∧ d = frames ss ∧
    sync_loop (S (length d)) (ord 0%nat) now2 (Reader d io_EOF) fd [] =
      Some (Err io_EOF, fd',
            concat ((λ s, frame_bytes (MReplicationAck (mkReplicationAck (ReplicationSync_LogIndex s)))) <$> ss)) ∧
    (∀ k, k ∈ acked rs ress ∨ visible <$> m !! k = visible <$> m2 !! k →
       visible <$> view (db n') k = visible <$> view fd' k) ∧
    (∀ k, k ∉ acked rs ress → view (db n') k = m !! k ∧ view fd' k = m2 !! k).
Proof.
  intros Hord Hford Hlead Hrs Hlog Hsim Hrun.
  destruct (node_run_replicates ord Hord ford Hford a c rs m n nt [] ress n' nt' Hlead Hrs Hrun)
    as (ss & m' & Hss & [Hsim' _ Hc] & Hf).
  destruct (Hf now2 m2 fd Hlog Hsim) as (m2' & Hsim2 & Ht). simpl in Hc.
  exists (frames ss), ss, (apply_all (ord 0%nat) fd ss now2). split_and!; [done|done| | |].
  - pose proof (length_frames ss). unfold frames. rewrite sync_loop_stream by (done || unfold frames in *; lia). done.
  - intros k Hk. rewrite (sim_view _ _ Hsim'), (sim_view _ _ Hsim2). destruct (Ht k) as [H1 H2].
    destruct (decide (k ∈ acked rs ress)); [by apply H1|]. destruct H2 as [-> ->]; [done|]. by destruct Hk.
  - intros k Hk. rewrite (sim_view _ _ Hsim'), (sim_view _ _ Hsim2). by apply Ht.
Qed.
End claims.

Definition ex_sys : Sys := start (ex_world []) (ex_wal SyncInterval).
Definition ex_follower : KVStore AnyPolicy Sys :=
  or_else (mkKVStore [] ex_sys 0 0) (NewKVStore any_order wal.Missing (Ok ex_sys) (ex_opts NameRelaxed 0) 0).

Lemma ex_follower_sim : simulates ∅ ex_follower.
Proof.
  destruct (NewKVStore_spec any_order wal.Missing [] ex_sys (ex_opts NameRelaxed 0) 0)
    as (kv & E & Hok & _ & _ & _ & Hview & Hb); [apply any_order_ok|done|apply ByName_inv|by left|].
  unfold ex_follower. rewrite E. split; [exact Hok| |exact Hview]. intros i sp Hi. by apply (Hb i sp).
Qed.

Lemma interval_log_total : log_total Sys.
Proof. intros r w. unfold log_append, Sys_Log, interval_append. by rewrite encode_bytes. Qed.

Definition ex_node : Node AnyPolicy FileLog :=
  with_leader (NewNode (ex_store NameStrict 0) 1000 (str "a:1") [str "a:1"; str "b:1"])
    (AddFollower newLeader (str "b:1") 1).
Definition ex_net : net := {[ 1%nat := mkConn [] true ]}.
Definition ex_requests : list (request * Z) :=
  [(NSet (str "k") [1] 0, 1); (NSet (str "j") [2;3] 50, 2); (NDelete (str "k"), 3); (NDelete (str "x"), 4)].

Lemma ex_leading : leading_to (str "b:1") 1 ∅ ex_node ex_net [].
Proof.
  split; [apply ex_store_sim| |vm_compute; reflexivity].
  eexists. split; [reflexivity|]. split; [vm_compute; reflexivity|].
  intros a b c. cbn [followers AddFollower newLeader].
  intros [[<- _]|[_ ?]]%lookup_insert_Some [[<- _]|[_ ?]]%lookup_insert_Some; done.
Qed.

Definition ex_order : table_order := map_to_list.

Lemma replication_converges_witness :
  ∃ d ss fd', (node_run any_order ex_order ex_node ex_net ex_requests).2 !! 1%nat = Some (mkConn d true) ∧
    d = frames ss ∧
    sync_loop (S (length d)) (any_order 0%nat) 9 (Reader d io_EOF) ex_follower [] =
      Some (Err io_EOF, fd',
            concat ((λ s, frame_bytes (MReplicationAck (mkReplicationAck (ReplicationSync_LogIndex s)))) <$> ss)) ∧
    (∀ k, k ∈ acked ex_requests (node_run any_order ex_order ex_node ex_net ex_requests).1.1 ∨
       visible <$> (∅ : gmap key Record) !! k = visible <$> (∅ : gmap key Record) !! k →
       visible <$> view (db (node_run any_order ex_order ex_node ex_net ex_requests).1.2) k = visible <$> view fd' k) ∧
    (∀ k, k ∉ acked ex_requests (node_run any_order ex_order ex_node ex_net ex_requests).1.1 →
       view (db (node_run any_order ex_order ex_node ex_net ex_requests).1.2) k = (∅ : gmap key Record) !! k ∧ view fd' k = (∅ : gmap key Record) !! k).
Proof.
  apply (replication_converges any_order ex_order ex_node ex_net (str "b:1") 1 ∅ ex_follower ∅ ex_requests 9
    (node_run any_order ex_order ex_node ex_net ex_requests).1.1
    (node_run any_order ex_order ex_node ex_net ex_requests).1.2
    (node_run any_order ex_order ex_node ex_net ex_requests).2).
  - apply any_order_ok.
  - intros m. reflexivity.
  - apply ex_leading.
  - repeat (apply Forall_cons; split; [vm_compute; intuition discriminate|]). apply Forall_nil. exact I.
  - apply interval_log_total.
  - apply ex_follower_sim.
  - destruct (node_run any_order ex_order ex_node ex_net ex_requests) as [[? ?] ?]. reflexivity.
Defined.

Lemma sync_loop_ends {P W} {PP : Policy P} {LW : Log W} ord now fuel : ∀ rd (fd : KVStore P W) acks,
  (length (rd_data rd) < fuel)%nat → errors_Is (rd_end rd) ErrMalformedMessage = false →
  ∃ res fd' acks', sync_loop fuel ord now rd fd acks = Some (res, fd', acks') ∧ (∀ u, res ≠ Ok u).
Proof.
  induction fuel as [|fuel IH]; intros rd fd acks Hf He; [lia|]. cbn [sync_loop].
  pose proof (ReadFrame_progress rd 0 He) as Hp. destruct (ReadFrame registry rd 0) as [[msg|e|] rd'].
  - destruct Hp as [Hlt Hend]. destruct msg; apply IH; rewrite ?Hend; (done || lia).
  - destruct (errors_Is e ErrMalformedMessage); [|by eexists _, _, _].
    destruct (Hp eq_refl) as [Hlt Hend]. apply IH; rewrite ?Hend; (done || lia).
  - by eexists _, _, _.
Qed.

Lemma drain_ends fuel : ∀ rd,
  (length (rd_data rd) < fuel)%nat → errors_Is (rd_end rd) ErrMalformedMessage = false →
  ∃ res, drain fuel rd = Some res ∧ (∀ u, res ≠ Ok u).
Proof.
  induction fuel as [|fuel IH]; intros rd Hf He; [lia|]. cbn [drain].
  pose proof (ReadFrame_progress rd 0 He) as Hp. destruct (ReadFrame registry rd 0) as [[msg|e|] rd'].
  - destruct Hp as [Hlt Hend]. apply IH; rewrite ?Hend; (done || lia).
  - by eexists.
  - by eexists.
Qed.

(** The receive loops end on every byte stream that ends: the follower's within
    one turn per byte (and one more), with the error that closed the stream or with a
    panic of a decoder, malformed frames and other messages being skipped; the leader's
    ack reader likewise, at the first frame it cannot read, and then the follower is
    removed from the table unless a decoder panicked. *)
Lemma receive_loops_terminate {P W} {PP : Policy P} {LW : Log W} ord now d (fd : KVStore P W) acks l nt a :
  (∃ res fd' acks', sync_loop (S (length d)) ord now (Reader d io_EOF) fd acks = Some (res, fd', acks') ∧
     (∀ u, res ≠ Ok u)) ∧
  (∃ res, drainAcks (S (length d)) l nt a (Reader d io_EOF) = Some res ∧
     ∀ l' nt', res = Ok (l', nt') → followers l' !! a = None).
Proof.
  split; [apply sync_loop_ends; [cbn; lia|reflexivity]|]. unfold drainAcks.
  destruct (drain_ends (S (length d)) (Reader d io_EOF)) as (res & -> & _); [cbn; lia|reflexivity|]. cbn.
  destruct res as [u|e|]; eexists; (split; [reflexivity|]); [| |done]; intros l' nt' [= E];
    unfold removeFollower in E; destruct (followers l !! a) eqn:Ea; injection E as <- <-; cbn;
    by rewrite ?lookup_delete_eq.
Qed.

(** A follower that reconnects can lose its place: its new connection replaces
    the old one in the leader's table, and when the goroutine that reads the old one
    sees it end, it removes the follower by address, closing the new connection. *)
Example stale_drain_drops_new_connection :
  let a := str "b:1" in
  let nt : net := {[ 1%nat := mkConn [] false; 2%nat := mkConn [] true ]} in
  let l := AddFollower (AddFollower newLeader a 1) a 2 in
  ∃ l' nt', drainAcks 1 l nt a (Reader [] io_EOF) = Some (Ok (l', nt')) ∧
    followers l !! a = Some 2%nat ∧ followers l' !! a = None ∧ nt' !! 2%nat = Some (mkConn [] false).
Proof.
  intros a nt l.
  exists (removeFollower l nt a).1, (removeFollower l nt a).2. split_and!; vm_compute; reflexivity.
Qed.
