(* ===== verification/ReplicaSessions.v ===== *)
(** * A follower that comes and goes (cluster/leader.go, cluster/follower.go)

    Sessions of one follower with one leader.  While it is connected, the leader's table
    has its connection, it applies what the leader writes to it, and the leader's ack
    reader removes it when the connection ends; while it is away, the leader goes on
    without it.  There is no transfer of what was missed. *)

From S2P Require Import Prelude GoLang Protocol ClusterMessages ClientMessages Messages.
From S2P Require Import WalRecord Os WalWriter Shard Eviction Store Recovery StoreSpec Logs StoreProps Raft.
From S2P Require Import Replication ReplicationProps.

(** The requests the leader runs while the follower is connected (and the time at which
    the follower applies them), or while it is away. *)
Inductive phase := Connected (rs : list (request * Z)) (now : Z) | Away (rs : list (request * Z)).

Definition phase_requests (ph : phase) : list (request * Z) := match ph with Connected rs _ | Away rs => rs end.

Section sessions.
Context {W : Type} {LW : Log W} {LL : LogLaws W} {W2 : Type} {LW2 : Log W2} {LL2 : LogLaws W2}.
Context (ord : nat → order) (Hord : orders_ok ord) (ford : table_order) (Hford : table_order_ok ford).

(** The leader with its connections, and the follower's store. *)
Definition pair_state : Type := Node AnyPolicy W * net * KVStore AnyPolicy W2.

(** [a] joins over the new connection [c]; the leader runs [rs]; the follower reads what
    it was sent until the connection ends; the leader reads its acks and removes it. *)
Definition run_phase (a : addr) (c : nat) (ph : phase) (st : pair_state) : option (list (go ()) * pair_state) :=
  let '(n, nt, fd) := st in
  match ph with
  | Away rs => let '(ress, n, nt) := node_run ord ford n nt rs in Some (ress, (n, nt, fd))
  | Connected rs now =>
      l ← nleader n;
      let n := with_leader n (AddFollower l a c) in
      let '(ress, n, nt) := node_run ord ford n (<[c := mkConn [] true]> nt) rs in
      cn ← nt !! c;
      '(_, fd, acks) ← sync_loop (S (length (sent cn))) (ord 0%nat) now (Reader (sent cn) io_EOF) fd [];
      l ← nleader n;
      drained ← drainAcks (S (length acks)) l nt a (Reader acks io_EOF);
      match drained with
      | Ok (l, nt) => Some (ress, (with_leader n l, nt, fd))
      | _ => None
      end
  end.

Fixpoint run_phases (a : addr) (c : nat) (phs : list phase) (st : pair_state) : option (list (list (go ())) * pair_state) :=
  match phs with
  | [] => Some ([], st)
  | ph :: phs =>
      '(ress, st) ← run_phase a c ph st;
      '(resss, st) ← run_phases a (S c) phs st;
      Some (ress :: resss, st)
  end.

(** The keys on which the follower may differ: those written while it was away, until
    they are written again while it is connected. *)
Fixpoint missed (phs : list phase) (resss : list (list (go ()))) (X : gset key) : gset key :=
  match phs, resss with
  | Connected rs _ :: phs, ress :: resss => missed phs resss (X ∖ acked rs ress)
  | Away rs :: phs, ress :: resss => missed phs resss (X ∪ acked rs ress)
  | _, _ => X
  end.

(** The keys written while it was connected. *)
Fixpoint received (phs : list phase) (resss : list (list (go ()))) : gset key :=
  match phs, resss with
  | Connected rs _ :: phs, ress :: resss => acked rs ress ∪ received phs resss
  | Away _ :: phs, _ :: resss => received phs resss
  | _, _ => ∅
  end.

(** ** The leader's table *)

Lemma broadcast_drop_subset dead : ∀ fs nt, (foldl broadcast_drop (fs, nt) dead).1 ⊆ fs.
Proof.
  induction dead as [|a dead IH]; intros fs nt; [done|]. cbn [foldl broadcast_drop].
  etrans; [apply IH|apply delete_subseteq].
Qed.

Lemma broadcast_subset l nt msg : followers (broadcast ford l nt msg).1 ⊆ followers l.
Proof.
  unfold broadcast. destruct (EncodeFrame msg); [|done..]. destruct (foldl (broadcast_write _) _ _) as [nt1 dead].
  pose proof (broadcast_drop_subset dead (followers l) nt1) as H. by destruct (foldl broadcast_drop _ _).
Qed.

Lemma node_request_table (n : Node AnyPolicy W) nt r now res n' nt' l :
  nleader n = Some l → node_request ord ford n nt r now = (res, n', nt') →
  ndefaultTTL n' = ndefaultTTL n ∧ ∃ l', nleader n' = Some l' ∧ followers l' ⊆ followers l.
Proof.
  intros Hl E. destruct r as [k v ttl|k]; cbn [node_request] in E.
  - unfold Node_Set in E. destruct (SetWithExpiry _ _ _ _ _ _) as [[[]|e|] d]; cbn [nleader with_db] in E;
      [|simplify_eq; eauto..]. rewrite Hl in E. unfold BroadcastSet in E.
    pose proof (broadcast_subset (next_index l) nt (MReplicationSync (mkReplicationSync (logIndex (next_index l)) wal.OpSet k v
      (u64 (UnixNano (now + (if ttl <=? 0 then ndefaultTTL n else ttl))))))) as Hs.
    destruct (broadcast _ _ _ _) as [l' nt1]. injection E as <- <- <-. split; [done|]. by exists l'.
  - unfold Node_Delete in E. destruct (Delete _ _) as [[[]|e|] d]; cbn [nleader with_db] in E; [|simplify_eq; eauto..].
    rewrite Hl in E. unfold BroadcastDelete in E.
    pose proof (broadcast_subset (next_index l) nt (MReplicationSync (mkReplicationSync (logIndex (next_index l)) wal.OpDelete k [] 0))) as Hs.
    destruct (broadcast _ _ _ _) as [l' nt1]. injection E as <- <- <-. split; [done|]. by exists l'.
Qed.

Lemma node_run_table rs : ∀ (n : Node AnyPolicy W) nt ress n' nt' l,
  nleader n = Some l → node_run ord ford n nt rs = (ress, n', nt') →
  ndefaultTTL n' = ndefaultTTL n ∧ length ress = length rs ∧ ∃ l', nleader n' = Some l' ∧ followers l' ⊆ followers l.
Proof.
  induction rs as [|[r now] rs IH]; intros n nt ress n' nt' l Hl E; cbn [node_run] in E; [injection E as <- <- <-; eauto|].
  destruct (node_request ord ford n nt r now) as [[res n1] nt1] eqn:E1.
  destruct (node_run ord ford n1 nt1 rs) as [[ress1 n2] nt2] eqn:E2. injection E as <- <- <-.
  destruct (node_request_table n nt r now res n1 nt1 l Hl E1) as (Et1 & l1 & Hl1 & Hs1).
  destruct (IH n1 nt1 ress1 n2 nt2 l1 Hl1 E2) as (Et2 & Elen & l2 & Hl2 & Hs2).
  split_and!; [congruence|cbn; congruence|]. exists l2. split; [done|]. by etrans.
Qed.

(** ** The leader by itself *)

Lemma node_request_alone (n : Node AnyPolicy W) nt m r now res n' nt' :
  simulates m (db n) → node_request ord ford n nt r now = (res, n', nt') →
  ∃ m', simulates m' (db n') ∧ ∀ k, k ∉ acked_one r res → m' !! k = m !! k.
Proof.
  intros Hsim E. destruct r as [k v ttl|k]; cbn [node_request] in E.
  - unfold Node_Set in E. set (exp := now + _) in *.
    destruct (SetWithExpiry (ord 0%nat) (db n) k v exp now) as [r1 d1] eqn:Es.
    destruct (run_op_simulates ord Hord (db n) m (OSet k v exp) now (RUnit r1) d1 Hsim)
      as [(m' & Hspec & Hsim' & _)|(e & _ & He & Hsim')]; [simpl; by rewrite Es|..]; simplify_eq/=; [|by exists m].
    exists (<[k := mkRecord v now exp]> m). split.
    + destruct (nleader n); [destruct (BroadcastSet _ _ _ _ _ _)|]; by simplify_eq/=.
    + assert (res = Ok ()) as -> by (destruct (nleader n); [destruct (BroadcastSet _ _ _ _ _ _)|]; by simplify_eq/=).
      intros k' Hk'. cbn in Hk'. apply not_elem_of_singleton in Hk'. by rewrite lookup_insert_ne.
  - unfold Node_Delete in E. destruct (Delete (db n) k) as [r1 d1] eqn:Es.
    destruct (run_op_simulates ord Hord (db n) m (ODelete k) now (RUnit r1) d1 Hsim)
      as [(m' & Hspec & Hsim' & _)|(e & _ & He & Hsim')]; [simpl; by rewrite Es|..]; simplify_eq/=; [|by exists m].
    exists (delete k m). destruct (m !! k) as [r0|] eqn:Ek; simplify_eq/=.
    + assert (res = Ok () ∧ db n' = d1) as [-> ->]
        by (destruct (nleader n); [destruct (BroadcastDelete _ _ _ _)|]; by simplify_eq/=).
      split; [done|]. intros k' Hk'. cbn in Hk'. apply not_elem_of_singleton in Hk'. by rewrite lookup_delete_ne.
    + split; [done|]. intros k' _. by rewrite delete_id.
Qed.

Lemma node_run_alone rs : ∀ (n : Node AnyPolicy W) nt m ress n' nt',
  simulates m (db n) → node_run ord ford n nt rs = (ress, n', nt') →
  ∃ m', simulates m' (db n') ∧ ∀ k, k ∉ acked rs ress → m' !! k = m !! k.
Proof.
  induction rs as [|[r now] rs IH]; intros n nt m ress n' nt' Hsim E; cbn [node_run] in E;
    [injection E as <- <- <-; by exists m|].
  destruct (node_request ord ford n nt r now) as [[res n1] nt1] eqn:E1.
  destruct (node_run ord ford n1 nt1 rs) as [[ress1 n2] nt2] eqn:E2. injection E as <- <- <-.
  destruct (node_request_alone n nt m r now res n1 nt1 Hsim E1) as (m1 & Hsim1 & H1).
  destruct (IH n1 nt1 m1 ress1 n2 nt2 Hsim1 E2) as (m2 & Hsim2 & H2). exists m2. split; [done|].
  intros k Hk. change (acked ((r, now) :: rs) (res :: ress1)) with (acked_one r res ∪ acked rs ress1) in Hk.
  apply not_elem_of_union in Hk as [Hk1 Hk2]. by rewrite H2, H1.
Qed.

(** ** The ack reader *)

Definition ack_frames (ss : list ReplicationSync) : gobytes :=
  concat ((λ s, frame_bytes (MReplicationAck (mkReplicationAck (ReplicationSync_LogIndex s)))) <$> ss).

Lemma ack_frame i rest e : 0 ≤ i < 2 ^ 64 →
  ReadFrame registry (Reader (frame_bytes (MReplicationAck (mkReplicationAck i)) ++ rest) e) 0 =
  (Ok (MReplicationAck (mkReplicationAck i)), Reader rest e).
Proof.
  intros Hi. apply ReadFrame_frame; [apply registry_is_ok|apply registry_complete|exact Hi| |by left].
  change (1 + len (be 8 i) < 2 ^ 32). len_lia.
Qed.

Lemma drain_acks ss : Forall sync_ok ss → ∀ fuel, (length ss < fuel)%nat → drain fuel (Reader (ack_frames ss) io_EOF) = Some (Err io_EOF).
Proof.
  induction 1 as [|s ss Hs Hss IH]; intros fuel Hf; (destruct fuel as [|fuel]; [cbn in Hf; lia|]); cbn [drain].
  - unfold ack_frames, ReadFrame, frameHeaderSize. cbn [fmap list_fmap concat]. by rewrite ReadFull_eof by lia.
  - unfold ack_frames in *. cbn [fmap list_fmap concat]. rewrite ack_frame by apply Hs. apply IH. cbn in Hf. lia.
Qed.

Lemma length_ack_frames ss : (length ss ≤ length (ack_frames ss))%nat.
Proof.
  induction ss as [|s ss IH]; [done|]. unfold ack_frames in *. cbn [fmap list_fmap concat length].
  rewrite length_app. unfold frame_bytes at 1. rewrite length_app. cbn [length]. lia.
Qed.

(** ** Phases *)

(** Between phases: the leader holds [m], the follower [m2]; the follower is not in the
    table, and the connections from [c] on are new. *)
Record between (a : addr) (c : nat) (m m2 : gmap key Record) (st : pair_state) : Prop := {
  b_leader : simulates m (db st.1.1);
  b_follower : simulates m2 st.2;
  b_table : ∃ l, nleader st.1.1 = Some l ∧ table_ok (followers l) ∧ followers l !! a = None ∧
    ∀ b c', followers l !! b = Some c' → (c' < c)%nat;
}.

Lemma table_ok_subset fs fs' : fs' ⊆ fs → table_ok fs → table_ok fs'.
Proof. intros Hs Hok a b c Ha Hb. eapply Hok; by eapply lookup_weaken. Qed.

Lemma run_away a c m m2 (n : Node AnyPolicy W) nt (fd : KVStore AnyPolicy W2) rs :
  between a c m m2 (n, nt, fd) →
  ∃ ress n' nt' m', run_phase a c (Away rs) (n, nt, fd) = Some (ress, (n', nt', fd)) ∧
    between a (S c) m' m2 (n', nt', fd) ∧ ndefaultTTL n' = ndefaultTTL n ∧ (∀ k, k ∉ acked rs ress → m' !! k = m !! k).
Proof.
  intros [Hsim Hsim2 (l & Hl & Htab & Ha & Hc)]. cbn [fst snd run_phase] in *.
  destruct (node_run ord ford n nt rs) as [[ress n'] nt'] eqn:E.
  destruct (node_run_table rs n nt ress n' nt' l Hl E) as (Ettl & _ & l' & Hl' & Hs).
  destruct (node_run_alone rs n nt m ress n' nt' Hsim E) as (m' & Hsim' & Hk).
  exists ress, n', nt', m'. split_and!; [done| |done|done]. split; [done|done|]. exists l'.
  split_and!; [done|by eapply table_ok_subset| |].
  - destruct (followers l' !! a) eqn:Ea; [|done]. by eapply lookup_weaken in Ea; [rewrite Ha in Ea|].
  - intros b c' Hb. eapply lookup_weaken in Hb; [|done]. apply Hc in Hb. lia.
Qed.

(** The join puts the leader in touch with the follower. *)
Lemma joined a c m m2 (n : Node AnyPolicy W) nt (fd : KVStore AnyPolicy W2) l :
  between a c m m2 (n, nt, fd) → nleader n = Some l →
  leading_to a c m (with_leader n (AddFollower l a c)) (<[c := mkConn [] true]> nt) [].
Proof.
  intros [Hsim _ (l0 & Hl0 & Htab & _ & Hc)] Hl. cbn [fst snd] in *. rewrite Hl in Hl0. injection Hl0 as <-.
  split; [done| |apply lookup_insert_eq]. exists (AddFollower l a c). cbn. split_and!; [done|apply lookup_insert_eq|].
  intros x y z [[<- <-]|[Hx1 Hx]]%lookup_insert_Some [[<- Hz]|[Hy1 Hy]]%lookup_insert_Some; [done| | |by eapply Htab].
  - apply Hc in Hy. lia.
  - subst. apply Hc in Hx. lia.
Qed.

Lemma run_connected a c m m2 (n : Node AnyPolicy W) nt (fd : KVStore AnyPolicy W2) rs now :
  log_total W2 → between a c m m2 (n, nt, fd) → Forall (request_ok (ndefaultTTL n)) rs →
  ∃ ress n' nt' fd' m' m2', run_phase a c (Connected rs now) (n, nt, fd) = Some (ress, (n', nt', fd')) ∧
    between a (S c) m' m2' (n', nt', fd') ∧ ndefaultTTL n' = ndefaultTTL n ∧ tracks (acked rs ress) m m' m2 m2'.
Proof.
  intros Hlog Hb Hrs. pose proof Hb as [_ Hsim2 (l & Hl & Htab & Ha & Hc)]. cbn [fst snd] in *.
  pose proof (joined a c m m2 n nt fd l Hb Hl) as Hlead. cbn [run_phase]. rewrite Hl. cbn [mbind option_bind].
  destruct (node_run ord ford _ _ rs) as [[ress n1] nt1] eqn:E.
  destruct (node_run_table rs (with_leader n (AddFollower l a c)) _ ress n1 nt1 (AddFollower l a c) eq_refl E) as (Ettl & _ & l1 & Hl1 & Hs).
  destruct (node_run_replicates (P2:=AnyPolicy) (W2:=W2) ord Hord ford Hford a c rs m _ _ [] ress n1 nt1 Hlead Hrs E)
    as (ss & m' & Hss & [Hsim' (l1' & Hl1' & Ha1 & Htab1) Hconn] & Hf).
  rewrite Hl1 in Hl1'. injection Hl1' as <-. destruct (Hf now m2 fd Hlog Hsim2) as (m2' & Hsim2' & Ht).
  rewrite Hconn. cbn [mbind option_bind sent app]. unfold frames at 1 2. pose proof (length_frames ss) as Hlen.
  unfold frames in Hlen. rewrite sync_loop_stream by (done || lia). cbn [mbind option_bind app]. rewrite Hl1. cbn [mbind option_bind].
  fold (ack_frames ss). unfold drainAcks. pose proof (length_ack_frames ss).
  rewrite drain_acks by (done || lia). cbn [mbind option_bind]. unfold removeFollower. rewrite Ha1.
  eexists ress, _, _, _, m', m2'. split; [reflexivity|]. split_and!; [|exact Ettl|done].
  split; [done|done|]. cbn. eexists. split; [reflexivity|]. cbn. split_and!.
  - eapply table_ok_subset; [apply delete_subseteq|done].
  - apply lookup_delete_eq.
  - intros b c' [Hne Hb']%lookup_delete_Some. eapply lookup_weaken in Hb'; [|done]. cbn in Hb'.
    rewrite lookup_insert_ne in Hb' by done. apply Hc in Hb'. lia.
Qed.

(** All phases: from the keys [X] on which the two may differ. *)
Lemma run_phases_spec a phs : log_total W2 → ∀ c m m2 X (n : Node AnyPolicy W) nt (fd : KVStore AnyPolicy W2),
  between a c m m2 (n, nt, fd) → Forall (λ ph, Forall (request_ok (ndefaultTTL n)) (phase_requests ph)) phs →
  (∀ k, k ∉ X → visible <$> m !! k = visible <$> m2 !! k) →
  ∃ resss n' nt' fd' m' m2', run_phases a c phs (n, nt, fd) = Some (resss, (n', nt', fd')) ∧
    simulates m' (db n') ∧ simulates m2' fd' ∧
    (∀ k, k ∉ missed phs resss X → visible <$> m' !! k = visible <$> m2' !! k) ∧
    (∀ k, k ∉ received phs resss → m2' !! k = m2 !! k).
Proof.
  intros Hlog. induction phs as [|ph phs IH]; intros c m m2 X n nt fd Hb Hrs HX; cbn [run_phases].
  { destruct Hb as [??]. by exists [], n, nt, fd, m, m2. }
  apply Forall_cons in Hrs as [Hr Hrs]. destruct ph as [rs now|rs]; cbn [phase_requests] in Hr.
  - destruct (run_connected a c m m2 n nt fd rs now Hlog Hb Hr) as (ress & n1 & nt1 & fd1 & m1 & f1 & -> & Hb1 & Ettl & Ht).
    rewrite <-Ettl in Hrs. destruct (IH (S c) m1 f1 (X ∖ acked rs ress) n1 nt1 fd1 Hb1 Hrs)
      as (resss & n2 & nt2 & fd2 & m2' & f2 & E & Hs1 & Hs2 & Hag & Hre).
    { intros k Hk. destruct (Ht k) as [H1 H2]. destruct (decide (k ∈ acked rs ress)); [by apply H1|].
      destruct H2 as [-> ->]; [done|]. apply HX. set_solver. }
    exists (ress :: resss), n2, nt2, fd2, m2', f2. cbn [mbind option_bind]. rewrite E. split_and!; [done..|].
    cbn [received]. intros k [Hk1 Hk2]%not_elem_of_union. rewrite Hre by done. by apply Ht.
  - destruct (run_away a c m m2 n nt fd rs Hb) as (ress & n1 & nt1 & m1 & -> & Hb1 & Ettl & Hk1).
    rewrite <-Ettl in Hrs. destruct (IH (S c) m1 m2 (X ∪ acked rs ress) n1 nt1 fd Hb1 Hrs)
      as (resss & n2 & nt2 & fd2 & m2' & f2 & E & Hs1 & Hs2 & Hag & Hre).
    { intros k [Hk Hk']%not_elem_of_union. rewrite Hk1 by done. by apply HX. }
    exists (ress :: resss), n2, nt2, fd2, m2', f2. cbn [mbind option_bind]. rewrite E. by split_and!.
Qed.
End sessions.


(** A session, writes while the follower is away, and another session in which one of
    the two keys is written again. *)
Definition ex_leader_node : Node AnyPolicy FileLog := ForceLeader (NewNode (ex_store NameStrict 0) 1000 (str "a:1") [str "a:1"; str "b:1"]).
Definition ex_phases : list phase :=
  [Connected [(NSet (str "k") [1] 0, 1); (NSet (str "j") [2] 0, 2)] 3;
   Away [(NSet (str "k") [3] 0, 4); (NDelete (str "j"), 5); (NDelete (str "x"), 6)];
   Connected [(NSet (str "k") [4] 0, 7)] 8].

Example ex_phases_missed :
  match run_phases any_order ex_order (str "b:1") 1 ex_phases (ex_leader_node, ∅, ex_follower) with
  | Some (resss, (n, _, fd)) =>
      missed ex_phases resss ∅ = {[str "j"]} ∧
      value <$> view fd (str "k") = Some [4] ∧ value <$> view (db n) (str "k") = Some [4] ∧
      value <$> view fd (str "j") = Some [2] ∧ value <$> view (db n) (str "j") = None
  | None => False
  end.
Proof. vm_compute. done. Qed.

