(* ===== verification/FollowerLoop.v ===== *)
(** * Following whoever leads (cluster/follower.go)

    [RunFollower] looks at the election state, follows the leader it names until the
    connection ends, and looks again.  A turn is given by the state it finds, what the
    network answers to the dial and the join, and the clock. *)

From S2P Require Import Prelude GoLang Protocol ClusterMessages ClientMessages Messages.
From S2P Require Import WalRecord Os WalWriter Shard Eviction Store Recovery StoreSpec Logs StoreProps.
From S2P Require Import Raft RaftProps Replication ReplicationProps.

Record turn := mkTurn { t_raft : RaftState; t_dial : addr → go reader; t_joined : go (); t_now : Z }.

Section loop.
Context {P : Type} {PP : Policy P} {W : Type} {LW : Log W} (ord : order) (nodeAddr : addr).

(** One turn; the error [syncWithLeader] ends with is only printed. *)
Definition follower_turn (t : turn) (db : KVStore P W) : option (go (KVStore P W)) :=
  match follow_target (t_raft t) nodeAddr with
  | None => Some (Ok db)
  | Some leader =>
      match syncWithLeader ord (t_dial t leader) (t_joined t) (t_now t) db with
      | Some (Panic, _, _) => Some Panic
      | Some (_, db, _) => Some (Ok db)
      | None => None
      end
  end.

Fixpoint RunFollower (ts : list turn) (db : KVStore P W) : option (go (KVStore P W)) :=
  match ts with
  | [] => Some (Ok db)
  | t :: ts =>
      match follower_turn t db with
      | Some (Ok db) => RunFollower ts db
      | res => res
      end
  end.
End loop.

(** ** What a turn does *)

Section facts.
Context {P : Type} {PP : Policy P} {W : Type} {LW : Log W} (ord : nat → order).

(** A leader, a candidate without a leader and a node that has heard only of itself wait;
    a node that cannot reach its leader waits too. *)
Lemma follower_turn_waits nodeAddr (t : turn) (db : KVStore P W) :
  is_leader (t_raft t) = true ∨ leaderAddr (t_raft t) = [] ∨ leaderAddr (t_raft t) = nodeAddr ∨
  (∃ e, t_dial t (leaderAddr (t_raft t)) = Err e) →
  follower_turn (ord 0%nat) nodeAddr t db = Some (Ok db).
Proof.
  intros Hw. unfold follower_turn, follow_target, GetLeaderAddr. destruct (is_leader (t_raft t)); [done|].
  destruct Hw as [?|[Hw|[Hw|[e He]]]]; [done| | |].
  - by rewrite bool_decide_true.
  - rewrite (bool_decide_true (leaderAddr (t_raft t) = nodeAddr)) by done. by rewrite orb_true_r.
  - destruct (_ || _); [done|]. rewrite He. done.
Qed.

(** A turn connected to a leader that sends the records [ss]. *)
Lemma follower_turn_syncs nodeAddr (t : turn) (db : KVStore P W) ss :
  is_leader (t_raft t) = false → leaderAddr (t_raft t) ≠ [] → leaderAddr (t_raft t) ≠ nodeAddr →
  t_dial t (leaderAddr (t_raft t)) = Ok (Reader (frames ss) io_EOF) → t_joined t = Ok () → Forall sync_ok ss →
  follower_turn (ord 0%nat) nodeAddr t db = Some (Ok (apply_all (ord 0%nat) db ss (t_now t))).
Proof.
  intros Hr H1 H2 Hd Hj Hss. unfold follower_turn, follow_target, GetLeaderAddr. rewrite Hr, !bool_decide_false by done. cbn [orb].
  rewrite Hd, Hj. cbn [syncWithLeader rd_data]. pose proof (length_frames ss).
  unfold frames at 2. rewrite sync_loop_stream; [done|done|lia].
Qed.
End facts.

(** ** A change of leaders *)

Section change.
Context {W : Type} {LW : Log W} {LL : LogLaws W} (Hlog : log_total W).
Context (ord : nat → order) (Hord : orders_ok ord) (ford : table_order) (Hford : table_order_ok ford).
Implicit Types (n : Node AnyPolicy W) (d : KVStore AnyPolicy W).

(** [t] is a turn of a node that follows [leader], reads what [leader] wrote to the
    connection [c] and then loses it. *)
Definition follows (nodeAddr leader : addr) (c : nat) (nt : net) (t : turn) : Prop :=
  is_leader (t_raft t) = false ∧ leaderAddr (t_raft t) = leader ∧ leader ≠ [] ∧ leader ≠ nodeAddr ∧
  t_joined t = Ok () ∧ ∃ data, nt !! c = Some (mkConn data true) ∧ t_dial t leader = Ok (Reader data io_EOF).

(** The node [n] when it has just been elected with the store [d] and [b] has joined it. *)
Definition elected n (d : KVStore AnyPolicy W) (b : addr) (c : nat) : Node AnyPolicy W :=
  with_leader (becomeLeader (with_db n d)) (AddFollower newLeader b c).

Lemma elected_leads n d b c m nt : simulates m d → nt !! c = Some (mkConn [] true) → leading_to b c m (elected n d b c) nt [].
Proof.
  intros Hs Hc. split; [done| |done]. eexists. split; [done|]. cbn. split; [apply lookup_insert_eq|].
  intros x y z [[<- _]|[_ ?]]%lookup_insert_Some [[<- _]|[_ ?]]%lookup_insert_Some; done.
Qed.

(** Two followers of the same leader, at the end of the same stream of requests. *)
Lemma both_follow n nt m rs ress n' nt' a b ca cb nodeA nodeB leader ta tb ma mb (da db_ : KVStore AnyPolicy W) :
  leading_to a ca m n nt [] → leading_to b cb m n nt [] → Forall (request_ok (ndefaultTTL n)) rs →
  node_run ord ford n nt rs = (ress, n', nt') →
  follows nodeA leader ca nt' ta → follows nodeB leader cb nt' tb → simulates ma da → simulates mb db_ →
  ∃ ma' mb' da' db', follower_turn (ord 0%nat) nodeA ta da = Some (Ok da') ∧ follower_turn (ord 0%nat) nodeB tb db_ = Some (Ok db') ∧
    simulates ma' da' ∧ simulates mb' db' ∧
    ∀ k, (k ∈ acked rs ress → visible <$> ma' !! k = visible <$> mb' !! k) ∧
         (k ∉ acked rs ress → ma' !! k = ma !! k ∧ mb' !! k = mb !! k).
Proof.
  intros Ha Hb Hrs Hrun (Ra & La & Na & Oa & Ja & xa & Ca & Da) (Rb & Lb & Nb & Ob & Jb & xb & Cb & Db) Hsa Hsb.
  destruct (node_run_replicates (P2:=AnyPolicy) (W2:=W) ord Hord ford Hford a ca rs m n nt [] ress n' nt' Ha Hrs Hrun)
    as (ssa & m1 & Hssa & [Hs1 _ Hc1] & Hfa).
  destruct (node_run_replicates (P2:=AnyPolicy) (W2:=W) ord Hord ford Hford b cb rs m n nt [] ress n' nt' Hb Hrs Hrun)
    as (ssb & m2 & Hssb & [Hs2 _ Hc2] & Hfb).
  rewrite Ca in Hc1. rewrite Cb in Hc2. injection Hc1 as Exa. injection Hc2 as Exb. cbn in Exa, Exb. subst xa xb.
  destruct (Hfa (t_now ta) ma da Hlog Hsa) as (ma' & Hsa' & Ta). destruct (Hfb (t_now tb) mb db_ Hlog Hsb) as (mb' & Hsb' & Tb).
  exists ma', mb', (apply_all (ord 0%nat) da ssa (t_now ta)), (apply_all (ord 0%nat) db_ ssb (t_now tb)).
  split_and!; [apply (follower_turn_syncs ord nodeA ta da ssa); congruence|apply (follower_turn_syncs ord nodeB tb db_ ssb); congruence|done|done|].
  intros k. destruct (Ta k) as [A1 A2], (Tb k) as [B1 B2].
  assert (m1 !! k = m2 !! k) as E by (by rewrite <-(sim_view _ _ Hs1), <-(sim_view _ _ Hs2)).
  split; [intros Hk; by rewrite <-(A1 Hk), <-(B1 Hk), E|]. intros Hk. by destruct (A2 Hk), (B2 Hk).
Qed.
(** A turn without a leader to follow. *)
Definition waits (nodeAddr : addr) (t : turn) : Prop :=
  is_leader (t_raft t) = true ∨ leaderAddr (t_raft t) = [] ∨ leaderAddr (t_raft t) = nodeAddr ∨
  (∃ e, t_dial t (leaderAddr (t_raft t)) = Err e).

Lemma RunFollower_waits nodeAddr ws ts d : Forall (waits nodeAddr) ws →
  RunFollower (ord 0%nat) nodeAddr (ws ++ ts) d = RunFollower (ord 0%nat) nodeAddr ts d.
Proof. induction 1 as [|t ws Ht _ IH]; [done|]. cbn [app RunFollower]. by rewrite (follower_turn_waits ord nodeAddr t d Ht). Qed.
End change.


(** Three nodes: "a:1" leads "b:1" and "c:1", then "b:1" leads "c:1". *)
Definition addr_of (name : string) : addr := str name.
Definition following_raft (self leader : addr) : RaftState :=
  (HandleHeartbeat (NewRaftState self [addr_of "a:1"; addr_of "b:1"; addr_of "c:1"]) 1 leader).1.

Definition ex_A : Node AnyPolicy Sys :=
  with_leader (NewNode ex_follower 1000 (addr_of "a:1") [addr_of "a:1"; addr_of "b:1"; addr_of "c:1"])
    (AddFollower (AddFollower newLeader (addr_of "b:1") 1) (addr_of "c:1") 2).
Definition ex_B : Node AnyPolicy Sys := NewNode ex_follower 1000 (addr_of "b:1") [addr_of "a:1"; addr_of "b:1"; addr_of "c:1"].
Definition ex_wires : net := {[ 1%nat := mkConn [] true; 2%nat := mkConn [] true; 3%nat := mkConn [] true ]}.
Definition ex_rs1 : list (request * Z) := [(NSet (str "k") [1] 0, 1); (NSet (str "j") [2] 50, 2); (NDelete (str "k"), 3)].
Definition ex_rs2 : list (request * Z) := [(NSet (str "k") [3] 0, 4); (NDelete (str "x"), 5)].
Definition ex_run1 := node_run any_order ex_order ex_A ex_wires ex_rs1.
Definition wire_sent (nt : net) (c : nat) : gobytes := match nt !! c with Some cn => sent cn | None => [] end.
Definition ex_turn (self leader : string) (nt : net) (c : nat) (now : Z) : turn :=
  mkTurn (following_raft (addr_of self) (addr_of leader)) (λ _, Ok (Reader (wire_sent nt c) io_EOF)) (Ok ()) now.
Definition ex_pause : turn := mkTurn (NewRaftState (addr_of "c:1") []) (λ _, Err io_EOF) (Ok ()) 8.

Definition ex_dB : KVStore AnyPolicy Sys :=
  match RunFollower (any_order 0%nat) (addr_of "b:1") [ex_turn "b:1" "a:1" ex_run1.2 1 6] ex_follower with
  | Some (Ok d) => d
  | _ => ex_follower
  end.
Definition ex_run2 := node_run any_order ex_order (elected ex_B ex_dB (addr_of "c:1") 3) ex_wires ex_rs2.

Lemma ex_A_table : table_ok (followers (AddFollower (AddFollower newLeader (addr_of "b:1") 1) (addr_of "c:1") 2)).
Proof.
  intros a b c. cbn [followers AddFollower newLeader].
  intros [[<- <-]|[_ [[<- <-]|[_ ?]]%lookup_insert_Some]]%lookup_insert_Some
         [[<- E]|[_ [[<- E]|[_ ?]]%lookup_insert_Some]]%lookup_insert_Some; done.
Qed.

Lemma ex_A_leads a c : followers (AddFollower (AddFollower newLeader (addr_of "b:1") 1) (addr_of "c:1") 2) !! a = Some c →
  ex_wires !! c = Some (mkConn [] true) → leading_to a c ∅ ex_A ex_wires [].
Proof. intros Ha Hc. split; [apply ex_follower_sim| |done]. eexists. split; [reflexivity|]. split; [done|apply ex_A_table]. Qed.

Lemma ex_turn_follows self leader nt c now : addr_of leader ≠ [] → addr_of leader ≠ addr_of self →
  is_Some (nt !! c) → alive <$> nt !! c = Some true →
  follows (addr_of self) (addr_of leader) c nt (ex_turn self leader nt c now).
Proof.
  intros H1 H2 [[d al] Hc] Ha. rewrite Hc in Ha. cbn in Ha. injection Ha as ->. split_and!; [reflexivity|reflexivity|done|done|done|].
  exists d. split; [done|]. unfold ex_turn, wire_sent. cbn. by rewrite Hc.
Qed.

