(* ===== verification/FrameStream.v ===== *)
(** * Reading a stream of frames, whatever its bytes (protocol/frame.go, cluster/follower.go,
    cluster/leader.go)

    Every byte stream is a sequence of frames and a rest in which a frame is cut off.
    A receiver gets the frames in order: a frame that does not decode costs nothing but
    itself, as the comment on [ReadFrame] says, and the rest decides the error it ends
    with. *)

From S2P Require Import Prelude GoLang Protocol KvMessages ClusterMessages ClientMessages Messages.
From S2P Require Import WalRecord Os WalWriter Shard Eviction Store Recovery StoreSpec Logs StoreProps.
From S2P Require Import Raft Replication ReplicationProps ReplicaSessions.

(** ** Big-endian numbers, the other way round *)

Lemma unbe_inj d1 : ∀ d2, bytes_ok d1 → bytes_ok d2 → length d1 = length d2 → unbe d1 = unbe d2 → d1 = d2.
Proof.
  induction d1 as [|b1 d1 IH]; intros [|b2 d2] H1 H2 Hl E; try done.
  apply Forall_cons in H1 as [Hb1 H1], H2 as [Hb2 H2]. injection Hl as Hl.
  rewrite !unbe_cons in E by done. pose proof (unbe_range d1 H1) as R1. pose proof (unbe_range d2 H2) as R2.
  assert (len d1 = len d2) as Hll by (unfold len; lia). rewrite <-Hll in E, R2.
  assert (b1 = b2 ∧ unbe d1 = unbe d2) as [-> E'].
  { apply (Z.div_mod_unique (256 ^ len d1)); [by left|by left|lia]. }
  f_equal. by apply IH.
Qed.

Lemma be_unbe d : bytes_ok d → be (length d) (unbe d) = d.
Proof.
  intros Hd. pose proof (unbe_range d Hd) as R. apply unbe_inj; [apply be_byte_ok|done|apply length_be|].
  rewrite unbe_be. apply Z.mod_small. exact R.
Qed.

(** ** Frames and where a stream can break off *)

Definition frame_of (body : gobytes) : gobytes := be 4 (len body) ++ body.

Inductive cut_off : gobytes → error → Prop :=
  | cut_clean : cut_off [] io_EOF
  | cut_header t : 0 < len t < 4 → cut_off t io_ErrUnexpectedEOF
  | cut_before n : 0 < n < 2 ^ 32 → cut_off (be 4 n) io_EOF
  | cut_body n t : 0 < len t < n → n < 2 ^ 32 → cut_off (be 4 n ++ t) io_ErrUnexpectedEOF.

(** What follows a header. *)
Lemma frame_first d : bytes_ok d →
  (∃ e, cut_off d e) ∨ ∃ body rest, d = frame_of body ++ rest ∧ len body < 2 ^ 32.
Proof.
  intros Hd. destruct (decide (d = [])) as [->|Hne]; [left; eexists; constructor|].
  assert (0 < len d) as Hpos by (destruct d; [done|unfold len; simpl; lia]).
  destruct (decide (len d < 4)) as [Hs|Hs]; [left; eexists; by apply cut_header|].
  assert (len (take 4 d) = 4) as Hl4 by (unfold len in *; rewrite length_take; lia).
  assert (bytes_ok (take 4 d)) as Hh by (by apply Forall_take).
  pose proof (unbe_range _ Hh) as R. rewrite Hl4 in R. pose proof (be_unbe _ Hh) as E.
  replace (length (take 4 d)) with 4%nat in E by (unfold len in Hl4; lia).
  set (n := unbe (take 4 d)) in *. rewrite <-(take_drop 4 d). rewrite <-E. set (t := drop 4 d).
  destruct (decide (n ≤ len t)) as [Hn|Hn].
  - right. exists (take (Z.to_nat n) t), (drop (Z.to_nat n) t). unfold frame_of.
    assert (len (take (Z.to_nat n) t) = n) as -> by (unfold len in *; rewrite length_take; lia).
    split; [|lia]. by rewrite <-app_assoc, take_drop.
  - left. destruct t as [|b t'] eqn:Et; [rewrite app_nil_r; eexists; apply cut_before; unfold len in Hn; simpl in Hn; lia|].
    eexists. apply cut_body; [unfold len in *; simpl in *; lia|lia].
Qed.

Lemma frames_decompose n : ∀ d, (length d ≤ n)%nat → bytes_ok d →
  ∃ bodies t e, d = concat (frame_of <$> bodies) ++ t ∧ Forall (λ b, len b < 2 ^ 32) bodies ∧ cut_off t e.
Proof.
  induction n as [|n IH]; intros d Hn Hd.
  { destruct d; [|simpl in Hn; lia]. exists [], [], io_EOF. split_and!; [done|constructor|constructor]. }
  destruct (frame_first d Hd) as [[e He]|(body & rest & -> & Hb)].
  { exists [], d, e. split_and!; [done|constructor|done]. }
  apply Forall_app in Hd as [_ Hr]. destruct (IH rest) as (bodies & t & e & -> & Hbs & Ht); [|done|].
  { unfold frame_of in Hn. rewrite !length_app, length_be in Hn. lia. }
  exists (body :: bodies), t, e. split_and!; [|by constructor|done]. cbn [fmap list_fmap concat]. by rewrite app_assoc.
Qed.

(** ** What [ReadFrame] makes of them *)

Definition decode_frame (body : gobytes) : go Msg :=
  match DecodeMessage registry body with
  | Err e => Err (WrapErrors ErrMalformedMessage (str ": ") e)
  | res => res
  end.

Lemma ReadFrame_body body rest e : len body < 2 ^ 32 →
  ReadFrame registry (Reader (frame_of body ++ rest) e) 0 = (decode_frame body, Reader rest e).
Proof.
  intros Hlen. pose proof (len_nonneg body). unfold ReadFrame, frame_of, frameHeaderSize, decode_frame.
  rewrite <-app_assoc, ReadFull_app by len_lia. go_run. by rewrite ReadFull_app by len_lia.
Qed.

Lemma ReadFrame_cut t e : cut_off t e → (ReadFrame registry (Reader t io_EOF) 0).1 = Err e.
Proof.
  intros Ht. unfold ReadFrame, frameHeaderSize. destruct Ht as [|t Ht|n Hn|n t Ht Hn].
  - by rewrite ReadFull_eof.
  - rewrite ReadFull_short; [done|intros ->; unfold len in Ht; simpl in Ht; lia|lia].
  - rewrite <-(app_nil_r (be 4 n)), ReadFull_app by len_lia. go_run. by rewrite ReadFull_eof by lia.
  - rewrite ReadFull_app by len_lia. go_run. rewrite ReadFull_short; [done|intros ->; unfold len in Ht; simpl in Ht; lia|lia].
Qed.

Lemma cut_off_ends t e : cut_off t e → errors_Is e ErrMalformedMessage = false.
Proof. by destruct 1; vm_compute. Qed.

(** ** The follower's loop *)

(** The records among the frames, up to the first that makes a decoder panic. *)
Fixpoint records_in (bodies : list gobytes) : list ReplicationSync * bool :=
  match bodies with
  | [] => ([], false)
  | body :: bodies =>
      match DecodeMessage registry body with
      | Ok (MReplicationSync s) => let '(ss, p) := records_in bodies in (s :: ss, p)
      | Ok _ | Err _ => records_in bodies
      | Panic => ([], true)
      end
  end.

Lemma sync_loop_frames {P W} {PP : Policy P} {LW : Log W} ord now t e bodies : cut_off t e →
  Forall (λ b, len b < 2 ^ 32) bodies → ∀ (fd : KVStore P W) acks fuel, (length bodies < fuel)%nat →
  sync_loop fuel ord now (Reader (concat (frame_of <$> bodies) ++ t) io_EOF) fd acks =
  Some (if (records_in bodies).2 then Panic else Err e, apply_all ord fd (records_in bodies).1 now,
        acks ++ ack_frames (records_in bodies).1).
Proof.
  intros Ht. induction 1 as [|body bodies Hb _ IH]; intros fd acks [|fuel] Hf; simpl length in Hf; try lia.
  - cbn [fmap list_fmap concat sync_loop records_in app fst snd]. pose proof (ReadFrame_cut t e Ht) as Hr.
    destruct (ReadFrame registry (Reader t io_EOF) 0) as [res rd]. simpl in Hr. subst res.
    rewrite (cut_off_ends _ _ Ht). unfold ack_frames. simpl. by rewrite app_nil_r.
  - cbn [fmap list_fmap concat sync_loop records_in]. rewrite <-app_assoc, ReadFrame_body by done. unfold decode_frame.
    destruct (DecodeMessage registry body) as [msg|err|]; [|by rewrite IH by lia|].
    + destruct msg; try (by rewrite IH by lia). rewrite WriteFrame_bytes, IH by lia.
      destruct (records_in bodies) as [ss p]. cbn [fst snd]. unfold apply_all, ack_frames. cbn [foldl fmap list_fmap concat].
      by rewrite <-app_assoc.
    + unfold ack_frames. simpl. by rewrite app_nil_r.
Qed.

(** ** The leader's reader of acknowledgements *)

(** Whether the first frame that does not decode makes its decoder panic. *)
Fixpoint panics_first (bodies : list gobytes) : bool :=
  match bodies with
  | [] => false
  | body :: bodies =>
      match DecodeMessage registry body with Ok _ => panics_first bodies | Err _ => false | Panic => true end
  end.

Lemma drain_frames t e bodies : cut_off t e → Forall (λ b, len b < 2 ^ 32) bodies → ∀ fuel, (length bodies < fuel)%nat →
  ∃ res, drain fuel (Reader (concat (frame_of <$> bodies) ++ t) io_EOF) = Some res ∧
    (res = Panic ↔ panics_first bodies = true).
Proof.
  intros Ht. induction 1 as [|body bodies Hb _ IH]; intros [|fuel] Hf; simpl length in Hf; try lia.
  - cbn [fmap list_fmap concat drain app panics_first]. pose proof (ReadFrame_cut t e Ht) as Hr.
    destruct (ReadFrame registry (Reader t io_EOF) 0) as [res rd]. simpl in Hr. subst res. by eexists.
  - cbn [fmap list_fmap concat drain panics_first]. rewrite <-app_assoc, ReadFrame_body by done. unfold decode_frame.
    destruct (DecodeMessage registry body) as [msg|err|]; [apply IH; lia|by eexists|by eexists].
Qed.

Lemma length_bodies bodies : (length bodies ≤ length (concat (frame_of <$> bodies)))%nat.
Proof.
  induction bodies as [|b bodies IH]; [done|]. cbn [fmap list_fmap concat length]. unfold frame_of at 1.
  rewrite !length_app, length_be. lia.
Qed.

(** C18.  Receivers of any stream of bytes: the stream is a sequence of frames and a rest in
    which a frame is cut off.  The loop of [syncWithLeader] applies exactly the
    replication records among the frames, in order, and acknowledges each; a frame that
    does not decode and a message of another type are skipped; it ends with the error of
    the rest ([io.EOF] at a frame boundary, and also right after a header), or with the
    panic of the first frame whose decoder panics.  The leader's [drainAcks] ends at the
    first frame that does not decode or at the rest, and then removes the follower, unless
    that frame's decoder panics. *)
Theorem follower_reads_stream {P W} {PP : Policy P} {LW : Log W} ord now d (fd : KVStore P W) l nt a : bytes_ok d →
  ∃ bodies t e, d = concat (frame_of <$> bodies) ++ t ∧ cut_off t e ∧
    sync_loop (S (length d)) ord now (Reader d io_EOF) fd [] =
      Some (if (records_in bodies).2 then Panic else Err e, apply_all ord fd (records_in bodies).1 now,
            ack_frames (records_in bodies).1) ∧
    drainAcks (S (length d)) l nt a (Reader d io_EOF) =
      Some (if panics_first bodies then Panic else Ok (removeFollower l nt a)).
Proof.
  intros Hd. destruct (frames_decompose (length d) d) as (bodies & t & e & E & Hb & Ht); [done|done|].
  exists bodies, t, e. pose proof (length_bodies bodies).
  assert (length bodies < S (length d))%nat as Hf by (rewrite E, length_app; lia). split_and!; [done|done| |].
  - rewrite E at 2. by rewrite (sync_loop_frames _ _ t e bodies).
  - unfold drainAcks. destruct (drain_frames t e bodies Ht Hb _ Hf) as (res & Er & Hp). rewrite <-E in Er. rewrite Er.
    cbn [mbind option_bind]. destruct (panics_first bodies); [by rewrite (proj2 Hp)|].
    destruct res; [done|done|]. by destruct Hp as [Hp _]; specialize (Hp eq_refl).
Qed.

(** A stream with a record, a frame that does not decode, an empty frame, a message a
    follower does not expect, another record, and the beginning of a third. *)
Definition ex_sync (i : Z) (k : gostring) : Msg := MReplicationSync (mkReplicationSync i wal.OpSet k [7] 99).
Definition ex_bodies : list gobytes :=
  [drop 4 (frame_bytes (ex_sync 1 (str "a"))); [255; 0]; []; drop 4 (frame_bytes (MReplicationAck (mkReplicationAck 5)));
   drop 4 (frame_bytes (ex_sync 2 (str "b")))].
Definition ex_stream_bytes : gobytes :=
  concat (frame_of <$> ex_bodies) ++ take 9 (frame_bytes (ex_sync 3 (str "c"))).

Example ex_stream_records :
  (records_in ex_bodies = ([mkReplicationSync 1 wal.OpSet (str "a") [7] 99; mkReplicationSync 2 wal.OpSet (str "b") [7] 99], false)) ∧
  (λ x, x.1.1) <$> sync_loop (S (length ex_stream_bytes)) (any_order 0%nat) 0 (Reader ex_stream_bytes io_EOF) ex_follower [] =
    Some (Err io_ErrUnexpectedEOF).
Proof. split; vm_compute; reflexivity. Qed.

Lemma follower_reads_stream_witness :
  ∃ bodies t e, ex_stream_bytes = concat (frame_of <$> bodies) ++ t ∧ cut_off t e ∧
    sync_loop (S (length ex_stream_bytes)) (any_order 0%nat) 0 (Reader ex_stream_bytes io_EOF) ex_follower [] =
      Some (if (records_in bodies).2 then Panic else Err e, apply_all (any_order 0%nat) ex_follower (records_in bodies).1 0,
            ack_frames (records_in bodies).1) ∧
    drainAcks (S (length ex_stream_bytes)) newLeader ∅ (str "b:1") (Reader ex_stream_bytes io_EOF) =
      Some (if panics_first bodies then Panic else Ok (removeFollower newLeader ∅ (str "b:1"))).
Proof.
  apply (follower_reads_stream (any_order 0%nat) 0 ex_stream_bytes ex_follower newLeader ∅ (str "b:1")).
  refine (bool_decide_eq_true_1 _ _). vm_compute. reflexivity.
Defined.
