(* ===== verification/NodeConcurrency.v ===== *)
(** * Requests that run at the same time on a leader (cluster/node.go, cluster/leader.go)

    [Node.Set] and [Node.Delete] change the store first and tell the followers after,
    and no lock is held from one to the other: the steps of two requests may fall
    between them.  Each request is here a goroutine that runs its call on the store
    (step by step, as in Concurrency.v), takes the leader, numbers the record
    ([logIndex.Add]) and broadcasts it under the leader's mutex; elections, followers
    that join and leave and connections that break come in between.  The leaders of a
    node are kept in the order of their creation: a request may still hold an old one. *)

From S2P Require Import Prelude GoLang Protocol ClusterMessages Messages.
From S2P Require Import WalRecord Os WalWriter Shard Eviction Store Recovery StoreSpec.
From S2P Require Import Raft Replication ReplicationProps Logs StoreProps Concurrency ConcurrencyProps.

(** ** Requests and where they stand *)

Inductive nphase :=
  | NCalling (w : call)                             (* in the store *)
  | NTake (w : call)                                (* the store has changed; before [n.mu.Lock] *)
  | NNumber (l : nat) (w : call)                    (* before [logIndex.Add] *)
  | NSend (l : nat) (i : Z) (w : call)              (* before [l.mu.Lock] in [broadcast] *)
  | NDone (r : result).

(** The request as the node gets it; the expiry is computed from the clock. *)
Inductive nrequest := RSet (k : key) (v : gobytes) (ttl : Z) | RGet (k : key) | RDelete (k : key).

Definition call_key (w : call) : option key :=
  match w with CSet k _ _ | CDelete k => Some k | CGet _ => None end.

(** The record that [BroadcastSet] and [BroadcastDelete] build with index [i]. *)
Definition sync_record (i : Z) (w : call) : option ReplicationSync :=
  match w with
  | CSet k v exp => Some (mkReplicationSync i wal.OpSet k v (u64 (UnixNano exp)))
  | CDelete k => Some (mkReplicationSync i wal.OpDelete k [] 0)
  | CGet _ => None
  end.

Section node.
Context {P : Type} {PP : Policy P} {W : Type} {LW : Log W}.
Context (ord : nat → order) (ford : table_order) (defaultTTL : Z).

(** [k_leader] is [n.leader], an index into [k_leaders]. *)
Record nconf := mkNConf {
  k_base : conf P W; k_calls : gmap tid nphase; k_leader : option nat; k_leaders : list Leader; k_net : net }.

Definition with_base (c : nconf) (b : conf P W) : nconf :=
  mkNConf b (k_calls c) (k_leader c) (k_leaders c) (k_net c).
Definition ngoto (t : tid) (p : nphase) (c : nconf) : nconf :=
  mkNConf (k_base c) (<[t := p]> (k_calls c)) (k_leader c) (k_leaders c) (k_net c).
Definition with_leaders (c : nconf) (i : nat) (l : Leader) (nt : net) : nconf :=
  mkNConf (k_base c) (k_calls c) (k_leader c) (<[i := l]> (k_leaders c)) nt.

(** The first lines of [Set]: the lifetime and the expiry. *)
Definition request_call (now : Z) (r : nrequest) : call :=
  match r with
  | RSet k v ttl => CSet k v (now + (if ttl <=? 0 then defaultTTL else ttl))
  | RGet k => CGet k
  | RDelete k => CDelete k
  end.

(** [if err != nil { return err }] after the call on the store. *)
Definition after_store (w : call) (r : result) : nphase :=
  match w, r with
  | (CSet _ _ _ | CDelete _), RUnit (Ok _) => NTake w
  | _, _ => NDone r
  end.

(** One step of a request after its call on the store. *)
Definition run_request (c : nconf) (t : tid) (p : nphase) : option nconf :=
  match p with
  | NTake w =>
      Some (ngoto t (match k_leader c with Some l => NNumber l w | None => NDone (RUnit (Ok ())) end) c)
  | NNumber i w =>
      l ← k_leaders c !! i;
      let l := next_index l in
      Some (ngoto t (NSend i (logIndex l) w) (with_leaders c i l (k_net c)))
  | NSend i idx w =>
      l ← k_leaders c !! i;
      s ← sync_record idx w;
      let '(l, nt) := broadcast ford l (k_net c) (MReplicationSync s) in
      Some (ngoto t (NDone (RUnit (Ok ()))) (with_leaders c i l nt))
  | _ => None
  end.

Inductive naction :=
  | KInvoke (t : tid) (r : nrequest)
  | KStore (a : action)          (* a step in the store, the clock, the sweeper *)
  | KStored (t : tid)            (* the call on the store returns *)
  | KRun (t : tid)
  | KReturn (t : tid)
  | KJoin (a : addr) (c : nat)   (* [AddFollower] on the node's leader *)
  | KLeave (l : nat) (a : addr)  (* [removeFollower], at the end of [drainAcks] *)
  | KBreak (c : nat)             (* a connection breaks *)
  | KElected | KDeposed.         (* [becomeLeader], [becomeFollower] *)

Definition nstep (c : nconf) (a : naction) : option nconf :=
  match a with
  | KInvoke t r =>
      let w := request_call (c_now (k_base c)) r in
      match k_calls c !! t, step ord (k_base c) (Invoke t w) with
      | None, Some (_, b) => Some (ngoto t (NCalling w) (with_base c b))
      | _, _ => None
      end
  | KStore (Invoke _ _) | KStore (Return _) => None
  | KStore a => '(_, b) ← step ord (k_base c) a; Some (with_base c b)
  | KStored t =>
      match k_calls c !! t, c_calls (k_base c) !! t with
      | Some (NCalling w), Some (PDone r) =>
          '(_, b) ← step ord (k_base c) (Return t); Some (ngoto t (after_store w r) (with_base c b))
      | _, _ => None
      end
  | KRun t => p ← k_calls c !! t; run_request c t p
  | KReturn t =>
      match k_calls c !! t with
      | Some (NDone _) => Some (mkNConf (k_base c) (delete t (k_calls c)) (k_leader c) (k_leaders c) (k_net c))
      | _ => None
      end
  | KJoin a cn => i ← k_leader c; l ← k_leaders c !! i; Some (with_leaders c i (AddFollower l a cn) (k_net c))
  | KLeave i a =>
      l ← k_leaders c !! i;
      let '(l, nt) := removeFollower l (k_net c) a in Some (with_leaders c i l nt)
  | KBreak cn => Some (mkNConf (k_base c) (k_calls c) (k_leader c) (k_leaders c) (conn_Close (k_net c) cn))
  | KElected =>
      Some (mkNConf (k_base c) (k_calls c) (Some (length (k_leaders c))) (k_leaders c ++ [newLeader]) (k_net c))
  | KDeposed => Some (mkNConf (k_base c) (k_calls c) None (k_leaders c) (k_net c))
  end.

Fixpoint nrun (c : nconf) (acts : list naction) : option nconf :=
  match acts with
  | [] => Some c
  | a :: acts => c ← nstep c a; nrun c acts
  end.

(** A request runs in the store or is between the store and the followers. *)
Definition writing (p : nphase) : option call :=
  match p with NCalling w | NTake w | NNumber _ w | NSend _ _ w => Some w | NDone _ => None end.

Definition writes_key (p : nphase) : option key := writing p ≫= call_key.

(** Lengths and expiries the messages can hold. *)
Definition sendable (w : call) : Prop :=
  match w with
  | CSet k v exp => len k < 65536 ∧ len v < 2 ^ 31 ∧ - 2 ^ 63 ≤ exp < 2 ^ 63
  | CDelete k => len k < 65536
  | CGet _ => True
  end.

(** No two requests write the same key at the same time. *)
Definition orderly (c : nconf) : Prop :=
  (∀ t1 t2 p1 p2 k, k_calls c !! t1 = Some p1 → k_calls c !! t2 = Some p2 →
     writes_key p1 = Some k → writes_key p2 = Some k → t1 = t2) ∧
  (∀ t p w, k_calls c !! t = Some p → writing p = Some w → sendable w).

Fixpoint nalong (c : nconf) (acts : list naction) : Prop :=
  orderly c ∧ match acts with
              | [] => True
              | a :: acts => match nstep c a with Some c' => nalong c' acts | None => True end
              end.

(** What leaves the connection [cn] of the follower at [a] alone. *)
Definition steady (a : addr) (cn : nat) (c : nconf) (act : naction) : Prop :=
  match act with
  | KJoin a' cn' => a' ≠ a ∧ ∀ l b, k_leaders c !! 0%nat = Some l → followers l !! b ≠ Some cn'
  | KLeave _ a' => a' ≠ a
  | KBreak cn' => cn' ≠ cn
  | KElected | KDeposed => False
  | _ => True
  end.

Fixpoint nsteady (a : addr) (cn : nat) (c : nconf) (acts : list naction) : Prop :=
  match acts with
  | [] => True
  | act :: acts => steady a cn c act ∧ match nstep c act with Some c' => nsteady a cn c' acts | None => True end
  end.

(** A leader with the followers of [l] and no request under way. *)
Definition kstart (kv : KVStore P W) (now : Z) (l : Leader) (nt : net) : nconf :=
  mkNConf (start kv now) ∅ (Some 0%nat) [l] nt.
End node.
Arguments nconf : clear implicits.

(** The two steps of a broadcast, one after the other, are [BroadcastSet] and
    [BroadcastDelete]. *)
Lemma broadcast_two_steps ford l nt w s :
  sync_record (logIndex (next_index l)) w = Some s →
  broadcast ford (next_index l) nt (MReplicationSync s) =
  match w with
  | CSet k v exp => BroadcastSet ford l nt k v (UnixNano exp)
  | CDelete k => BroadcastDelete ford l nt k
  | CGet _ => (l, nt)
  end.
Proof. destruct w; simpl; intros [= <-]; reflexivity. Qed.

Lemma Get_reads {P} {PP : Policy P} {PL : PolicyLaws P} {W} {LW : Log W} {LL : LogLaws W} (kv : KVStore P W) k now :
  store_ok kv → (Get kv k now).1 = read_record now (view kv k).
Proof. intros Hok. destruct (Get kv k now) as [r kv'] eqn:E. by destruct (Get_spec _ _ _ _ _ Hok E) as (_ & _ & _ & _ & _ & ->). Qed.

(** ** What a follower makes of the records *)

Abbreviation replica := (gmap key (gobytes * Z)).

Definition follow (f : replica) (s : ReplicationSync) : replica :=
  if ReplicationSync_Op s =? wal.OpSet
  then <[ReplicationSync_Key s := (ReplicationSync_Value s, i64 (ReplicationSync_ExpiresAt s))]> f
  else delete (ReplicationSync_Key s) f.

Lemma follow_other f s k : ReplicationSync_Key s ≠ k → follow f s !! k = f !! k.
Proof. intros Hne. unfold follow. destruct (_ =? _); [by rewrite lookup_insert_ne|by rewrite lookup_delete_ne]. Qed.

Lemma apply_all_follow {P} {PP : Policy P} {PL : PolicyLaws P} {W} {LW : Log W} {LL : LogLaws W} ord ss now :
  orders_ok ord → log_total W →
  Forall (λ s, ReplicationSync_Op s = wal.OpSet ∨ ReplicationSync_Op s = wal.OpDelete) ss →
  ∀ m (d : KVStore P W), simulates m d →
  ∃ m', simulates m' (apply_all (ord 0%nat) d ss now) ∧ visible <$> m' = foldl follow (visible <$> m) ss.
Proof.
  intros Hord Hlog. induction 1 as [|s ss Hs _ IH]; intros m d Hsim; [by exists m|].
  unfold apply_all in *. cbn [foldl]. unfold follow at 2. destruct Hs as [Hop|Hop]; rewrite Hop; cbn -[u64 i64].
  - eapply applySync_set in Hsim; [|done..]. apply IH in Hsim as (m' & Hsim & E). exists m'.
    split; [exact Hsim|]. by rewrite E, fmap_insert.
  - eapply applySync_delete in Hsim; [|done..]. apply IH in Hsim as (m' & Hsim & E). exists m'.
    split; [exact Hsim|]. by rewrite E, fmap_delete.
Qed.

(** ** The invariant: per key, the store and what the follower has been sent *)

Section invariant.
Context (limited : Prop) (m0 : gmap key Record) (f0 : replica).

(** The effect of [w] on its key, as long as nobody writes it again. *)
Definition after (now : Z) (w : call) (o : option Record) : Prop :=
  match w, o with
  | CSet _ v exp, Some r => visible r = (v, exp)
  | CSet _ _ exp, None => limited ∨ exp < now
  | CDelete _, Some _ => False
  | CDelete _, None | CGet _, _ => True
  end.

(** The follower has the leader's record, or one that has expired or been evicted. *)
Definition agreeing (now : Z) (o : option Record) (f : option (gobytes * Z)) : Prop :=
  match o with
  | Some r => f = Some (visible r)
  | None => f = None ∨ limited ∨ ∃ v exp, f = Some (v, exp) ∧ exp < now
  end.

(** The request of [t] has changed the store, and the followers do not know yet. *)
Definition unsent (calls : gmap tid nphase) (a : astate) (t : tid) (w : call) : Prop :=
  (calls !! t = Some (NCalling w) ∧ a_calls a !! t = Some (Answered (RUnit (Ok ())))) ∨
  calls !! t = Some (NTake w) ∨ (∃ i, calls !! t = Some (NNumber i w)) ∨ (∃ i x, calls !! t = Some (NSend i x w)).

Definition settled (ss : list ReplicationSync) (k : key) : Prop :=
  k ∈ ReplicationSync_Key <$> ss ∨ visible <$> m0 !! k = f0 !! k.

Definition unique (calls : gmap tid nphase) : Prop := ∀ t1 t2 p1 p2 k,
  calls !! t1 = Some p1 → calls !! t2 = Some p2 → writes_key p1 = Some k → writes_key p2 = Some k → t1 = t2.

Definition status_of (w : call) (s : status) : Prop :=
  match s with Called c => c = w | Reading _ => ∃ k, w = CGet k | Answered _ => True end.

Record following (calls : gmap tid nphase) (ss : list ReplicationSync) (a : astate) : Prop := {
  f_status t w : calls !! t = Some (NCalling w) → ∃ s, a_calls a !! t = Some s ∧ status_of w s;
  f_idle t : (∀ w, calls !! t ≠ Some (NCalling w)) → a_calls a !! t = None;
  f_unsent t w k : unsent calls a t w → call_key w = Some k → after (a_now a) w (a_map a !! k);
  f_sent k : (∀ t w, unsent calls a t w → call_key w ≠ Some k) → settled ss k →
    agreeing (a_now a) (a_map a !! k) (foldl follow f0 ss !! k);
}.

Lemma unsent_writes calls a t w k : unsent calls a t w → call_key w = Some k →
  ∃ p, calls !! t = Some p ∧ writes_key p = Some k.
Proof. unfold unsent, writes_key. intros [[H _]|[H|[[i H]|[i [x H]]]]] Hk; eexists; (split; [exact H|]); done. Qed.

Lemma unsent_unique calls a1 a2 t1 t2 w1 w2 k : unique calls → unsent calls a1 t1 w1 → unsent calls a2 t2 w2 →
  call_key w1 = Some k → call_key w2 = Some k → t1 = t2.
Proof.
  intros Hu H1 H2 K1 K2. destruct (unsent_writes _ _ _ _ _ H1 K1) as (p1 & ? & ?).
  destruct (unsent_writes _ _ _ _ _ H2 K2) as (p2 & ? & ?). by eapply Hu.
Qed.

(** The map loses entries, or the clock moves. *)
Lemma following_shrink calls ss a m now :
  following calls ss a → a_now a ≤ now →
  (∀ k, m !! k = a_map a !! k ∨
        m !! k = None ∧ (limited ∨ ∃ r, a_map a !! k = Some r ∧ expiredAt r < now)) →
  following calls ss (mkAState m now (a_calls a)).
Proof.
  intros [H1 H2 H3 H4] Hnow Hm. split; [exact H1|exact H2|..]; simpl.
  - intros t w k Hu Hk. specialize (H3 t w k Hu Hk).
    destruct (Hm k) as [->|[-> Hr]]; destruct w as [k0 v exp| |]; simpl in *; try done.
    + destruct (a_map a !! k); [done|]. destruct H3; [by left|right; lia].
    + destruct Hr as [?|(r & Hr & ?)]; [by left|]. rewrite Hr in H3. unfold visible in H3. simplify_eq. right. lia.
  - intros k Hu Hs. specialize (H4 k Hu Hs). destruct (Hm k) as [->|[-> Hr]]; simpl.
    + destruct (a_map a !! k); simpl in *; [done|]. destruct H4 as [?|[?|(v & e & ? & ?)]]; auto.
      right. right. exists v, e. split; [done|lia].
    + destruct Hr as [?|(r & Hr & ?)]; [auto|]. rewrite Hr in H4. simpl in H4. right. right.
      eexists _, _. split; [exact H4|done].
Qed.

(** [t] answers with an error, or reads: nothing has changed. *)
Lemma following_quiet calls ss a t s0 s :
  following calls ss a → a_calls a !! t = Some s0 → s0 ≠ Answered (RUnit (Ok ())) → s ≠ Answered (RUnit (Ok ())) →
  (∀ w, calls !! t = Some (NCalling w) → status_of w s0 → status_of w s) →
  following calls ss (a_set a t s (a_map a)).
Proof.
  intros [H1 H2 H3 H4] Ht Hs0 Hs Hst.
  assert (∀ t' w, unsent calls a t' w ↔ unsent calls (a_set a t s (a_map a)) t' w) as Hu.
  { intros t' w. unfold unsent. simpl. destruct (decide (t = t')) as [<-|Hne].
    - rewrite lookup_insert_eq, Ht. naive_solver.
    - by rewrite lookup_insert_ne. }
  split; simpl.
  - intros t' w Hc. destruct (H1 _ _ Hc) as (s' & Hs' & Hof). destruct (decide (t = t')) as [<-|Hne].
    + rewrite Ht in Hs'. injection Hs' as <-. rewrite lookup_insert_eq. eauto.
    + rewrite lookup_insert_ne by done. eauto.
  - intros t' Hc. destruct (decide (t = t')) as [<-|Hne]; [by rewrite (H2 t Hc) in Ht|].
    rewrite lookup_insert_ne by done. by apply H2.
  - intros t' w k Hun. apply (H3 t'). by apply Hu.
  - intros k Hun. apply H4. intros t' w Hc. apply (Hun t'). by apply Hu.
Qed.

(** [t] answers without an error: its write has taken effect. *)
Lemma following_effect calls ss a t w k m :
  following calls ss a → unique calls → calls !! t = Some (NCalling w) → a_calls a !! t = Some (Called w) →
  call_key w = Some k → after (a_now a) w (m !! k) → (∀ k', k' ≠ k → m !! k' = a_map a !! k') →
  following calls ss (a_set a t (Answered (RUnit (Ok ()))) m).
Proof.
  intros [H1 H2 H3 H4] Huniq Hc Ht Hk Haft Hoth. set (a' := a_set a t _ m).
  assert (unsent calls a' t w) as Hme by (left; split; [done|apply lookup_insert_eq]).
  assert (∀ t' w', t' ≠ t → (unsent calls a t' w' ↔ unsent calls a' t' w')) as Hu.
  { intros t' w' Hne. unfold unsent, a'. simpl. by rewrite lookup_insert_ne. }
  assert (∀ w', unsent calls a' t w' → w' = w) as Hone by (unfold unsent; rewrite Hc; naive_solver).
  split; simpl.
  - intros t' w' Hc'. destruct (decide (t = t')) as [<-|Hne]; [rewrite lookup_insert_eq; by eexists|].
    rewrite lookup_insert_ne by done. eauto.
  - intros t' Hc'. destruct (decide (t = t')) as [<-|Hne]; [by rewrite Hc in Hc'; specialize (Hc' w)|].
    rewrite lookup_insert_ne by done. by apply H2.
  - intros t' w' k' Hun Hk'. destruct (decide (t' = t)) as [->|Hne].
    { apply Hone in Hun as ->. rewrite Hk in Hk'. by injection Hk' as <-. }
    destruct (decide (k' = k)) as [->|Hnk]; [exfalso; apply Hne; by eapply unsent_unique|].
    rewrite Hoth by done. apply (H3 t'); [by apply Hu|done].
  - intros k' Hun. destruct (decide (k' = k)) as [->|Hnk]; [by specialize (Hun t w Hme)|].
    rewrite Hoth by done. apply H4. intros t' w' Hun'. destruct (decide (t' = t)) as [->|Hne].
    + unfold unsent in Hun'. rewrite Hc, Ht in Hun'. naive_solver.
    + apply (Hun t'). by apply Hu.
Qed.

Lemma following_called calls ss a t s : following calls ss a → a_calls a !! t = Some s →
  ∃ w, calls !! t = Some (NCalling w) ∧ status_of w s.
Proof.
  intros Hf Ht. destruct (calls !! t) as [p|] eqn:E; [destruct p as [w| | | |]|];
    try (rewrite (f_idle _ _ _ Hf t) in Ht; [done|intros ?; rewrite E; discriminate]).
  exists w. split; [done|]. destruct (f_status _ _ _ Hf t w E) as (s' & Hs' & ?). rewrite Ht in Hs'. by injection Hs' as <-.
Qed.

Lemma following_silent calls ss a a' : unique calls →
  following calls ss a → astep limited a [] a' → following calls ss a'.
Proof.
  intros Huniq Hf Hst. inversion Hst as [| | |? t k v exp Ht|? t k v exp ? Ht|? t k Ht|? t r Ht|? t k Ht
    |? t c e Ht Hng|? m ? Hsub|? k r Hr Hexp]; subst.
  all: try (destruct (following_called _ _ _ _ _ Hf Ht) as (w & Hw & Hof)).
  - simpl in Hof. subst w. eapply following_effect; try done; [by rewrite lookup_insert_eq|].
    intros k' Hne. by rewrite lookup_insert_ne.
  - by eapply following_quiet.
  - eapply following_quiet; [done..|]. intros w' _ Hof'. simpl in Hof'. subst w'. simpl. eauto.
  - eapply following_quiet; [done..|]. by destruct r.
  - simpl in Hof. subst w. destruct (a_map a !! k) as [r|] eqn:Ek.
    + eapply following_effect; try done; [by rewrite lookup_delete_eq|].
      intros k' Hne. by rewrite lookup_delete_ne.
    + rewrite delete_id by done. by eapply following_quiet.
  - by eapply following_quiet.
  - apply following_shrink; [done..|]. intros k. destruct (m !! k) as [r|] eqn:E; [left|right; eauto].
    symmetry. by eapply lookup_weaken.
  - eapply following_shrink; [done..|]. intros k'. destruct (decide (k' = k)) as [->|Hne].
    + rewrite lookup_delete_eq. right. eauto.
    + rewrite lookup_delete_ne by done. by left.
Qed.

(** One event among silent steps. *)
Lemma asteps_silent calls ss a a' : unique calls →
  asteps limited a [] a' → following calls ss a → following calls ss a'.
Proof.
  intros Hu. remember [] as es eqn:E. induction 1 as [|a es1 a1 es2 a2 H1 _ IH]; intros Hf; [done|].
  apply app_eq_nil in E as [-> ->]. apply IH; [done|]. by eapply following_silent.
Qed.

Lemma asteps_event a e a' : asteps limited a [e] a' →
  ∃ a1 a2, asteps limited a [] a1 ∧ astep limited a1 [e] a2 ∧ asteps limited a2 [] a'.
Proof.
  remember [e] as es eqn:E. induction 1 as [|a es1 a1 es2 a2 H1 H2 IH]; [done|].
  destruct es1 as [|e1 es1]; simpl in E.
  - subst es2. destruct IH as (b1 & b2 & ? & ? & ?); [done|]. exists b1, b2. split_and!; [|done..].
    by apply (asteps_cons _ _ [] a1 []).
  - injection E as -> [-> ->]%app_eq_nil. exists a, a1. split_and!; [constructor|done|done].
Qed.

(** A new request, and the end of its call on the store. *)
Lemma following_invoke calls ss a t w :
  following calls ss a → calls !! t = None →
  following (<[t := NCalling w]> calls) ss (a_set a t (Called w) (a_map a)).
Proof.
  intros [H1 H2 H3 H4] Ht.
  assert (∀ t' w', unsent calls a t' w' ↔
    unsent (<[t := NCalling w]> calls) (a_set a t (Called w) (a_map a)) t' w') as Hu.
  { intros t' w'. unfold unsent. simpl. destruct (decide (t = t')) as [<-|Hne].
    - rewrite !lookup_insert_eq, Ht. naive_solver.
    - by rewrite !lookup_insert_ne. }
  split; simpl.
  - intros t' w'. destruct (decide (t = t')) as [<-|Hne].
    + rewrite !lookup_insert_eq. intros [= <-]. by eexists.
    + rewrite !lookup_insert_ne by done. apply H1.
  - intros t'. destruct (decide (t = t')) as [<-|Hne].
    + rewrite lookup_insert_eq. intros Hno. by specialize (Hno w).
    + rewrite !lookup_insert_ne by done. apply H2.
  - intros t' w' k Hun. apply (H3 t'). by apply Hu.
  - intros k Hun. apply H4. intros t' w' Hc. apply (Hun t'). by apply Hu.
Qed.

(** The phase of [t] moves on: [t] was in the store, or the store has not moved. *)
Lemma following_move calls ss a calls' t p' :
  following calls ss a → (∀ w, p' ≠ NCalling w) → calls' = <[t := p']> calls →
  (∀ w k, call_key w = Some k → unsent calls a t w ↔ unsent calls' (mkAState (a_map a) (a_now a) (delete t (a_calls a))) t w) →
  following calls' ss (mkAState (a_map a) (a_now a) (delete t (a_calls a))).
Proof.
  intros [H1 H2 H3 H4] Hp -> Hme. set (a' := mkAState _ _ _) in *.
  assert (∀ t' w k, call_key w = Some k → unsent calls a t' w ↔ unsent (<[t := p']> calls) a' t' w) as Hu.
  { intros t' w k Hk. destruct (decide (t' = t)) as [->|Hne]; [by eapply Hme|].
    unfold unsent, a'. simpl. by rewrite lookup_insert_ne, lookup_delete_ne. }
  split; simpl.
  - intros t' w'. destruct (decide (t = t')) as [<-|Hne].
    + rewrite lookup_insert_eq. intros [= E]. by apply Hp in E.
    + rewrite lookup_insert_ne, lookup_delete_ne by done. apply H1.
  - intros t' Hno. destruct (decide (t = t')) as [<-|Hne]; [apply lookup_delete_eq|].
    rewrite lookup_delete_ne by done. apply H2. intros w Hw. apply (Hno w). by rewrite lookup_insert_ne.
  - intros t' w' k Hun Hk. apply (H3 t'); [|done]. by eapply Hu.
  - intros k Hun. apply H4. intros t' w' Hc Hk. apply (Hun t' w'); [|done]. by eapply Hu.
Qed.

Lemma following_idle calls ss a t p' :
  following calls ss a → (∀ w, calls !! t ≠ Some (NCalling w)) → (∀ w, p' ≠ NCalling w) →
  (∀ w k, call_key w = Some k → unsent calls a t w ↔ unsent (<[t := p']> calls) a t w) →
  following (<[t := p']> calls) ss a.
Proof.
  intros Hf Hc Hp Hu. pose proof (f_idle _ _ _ Hf t Hc) as Ha. destruct a as [m now as_]. simpl in Ha.
  pose proof (following_move calls ss _ _ t p' Hf Hp eq_refl) as Hm. simpl in Hm. rewrite delete_id in Hm by done.
  by apply Hm.
Qed.

(** What the record of [w] does to the follower's entry. *)
Lemma follow_after now i w s k o f :
  sync_record i w = Some s → sendable w → call_key w = Some k → after now w o →
  ReplicationSync_Key s = k ∧ agreeing now o (follow f s !! k).
Proof.
  destruct w as [k0 v exp|k0|k0]; simpl; intros [= <-] Hs [= ->] Ha; (split; [done|]); unfold follow; cbn -[u64 i64].
  - rewrite lookup_insert_eq. unfold UnixNano. rewrite (i64_small exp) by lia. rewrite i64_u64_small by lia.
    destruct o as [r|]; simpl in *; [by rewrite Ha|]. destruct Ha; [auto|]. right. right. eauto.
  - rewrite lookup_delete_eq. destruct o; simpl in *; [done|by left].
Qed.

(** A broadcast. *)
Lemma following_send calls ss a t i x w s r :
  following calls ss a → unique calls → calls !! t = Some (NSend i x w) → sync_record x w = Some s → sendable w →
  following (<[t := NDone r]> calls) (ss ++ [s]) a.
Proof.
  intros Hf Huniq Ht Hs Hw. assert (∃ k, call_key w = Some k) as [k Hk] by (destruct w; simpl in *; eauto; done).
  assert (unsent calls a t w) as Hme by (right; right; right; eauto).
  pose proof (f_unsent _ _ _ Hf t w k Hme Hk) as Haft. destruct Hf as [H1 H2 H3 H4].
  pose proof (follow_after (a_now a) x w s k (a_map a !! k) (foldl follow f0 ss) Hs Hw Hk Haft) as [Hkey Hagr].
  assert (∀ t' w', unsent (<[t := NDone r]> calls) a t' w' ↔ t' ≠ t ∧ unsent calls a t' w') as Hu.
  { intros t' w'. unfold unsent. destruct (decide (t = t')) as [<-|Hne].
    - rewrite !lookup_insert_eq. naive_solver.
    - rewrite !lookup_insert_ne by done. naive_solver. }
  split.
  - intros t' w'. rewrite lookup_insert_Some. intros [[_ [=]]|[_ Hc]]. by apply H1.
  - intros t' Hno. destruct (decide (t = t')) as [<-|Hne].
    + apply H2. intros w'. rewrite Ht. discriminate.
    + apply H2. intros w' Hc. apply (Hno w'). by rewrite lookup_insert_ne.
  - intros t' w' k' [_ Hun]%Hu. by apply (H3 t').
  - intros k' Hun Hset. rewrite foldl_app. simpl. destruct (decide (k' = k)) as [->|Hne]; [done|].
    rewrite follow_other by congruence. apply H4.
    + intros t' w' Hun' Hk'. destruct (decide (t' = t)) as [->|Hnt].
      * assert (w' = w) as -> by (unfold unsent in Hun'; rewrite Ht in Hun'; naive_solver). congruence.
      * apply (Hun t' w'); [by apply Hu|done].
    + destruct Hset as [Hset|?]; [left|by right]. rewrite fmap_app, elem_of_app in Hset. destruct Hset as [?|Hset]; [done|].
      apply list_elem_of_singleton in Hset. congruence.
Qed.
End invariant.

(** ** Every step of the node *)

Section linked.
Context {P : Type} {PP : Policy P} {PL : PolicyLaws P} {W : Type} {LW : Log W} {LL : LogLaws W}.
Context (ord : nat → order) (Hord : orders_ok ord) (ford : table_order) (Hford : table_order_ok ford).
Context (defaultTTL : Z) (limited : Prop) (m0 : gmap key Record) (f0 : replica) (a : addr) (cn : nat).
Implicit Types (c : nconf P W) (l : Leader) (ss : list ReplicationSync).

Definition phase_ok (p : nphase) : Prop :=
  match p with
  | NCalling _ | NDone _ => True
  | NTake w => is_Some (call_key w)
  | NNumber i w => i = 0%nat ∧ is_Some (call_key w)
  | NSend i x w => i = 0%nat ∧ is_Some (call_key w) ∧ 0 ≤ x < 2 ^ 64
  end.

Definition shippable (s : ReplicationSync) : Prop :=
  sync_ok s ∧ (ReplicationSync_Op s = wal.OpSet ∨ ReplicationSync_Op s = wal.OpDelete).

(** The node leads, the follower at [a] is connected by [cn] and has been sent [ss]. *)
Record linked c ss (as_ : astate) : Prop := {
  ln_sim : sim limited (k_base c) as_;
  ln_following : following limited m0 f0 (k_calls c) ss as_;
  ln_leading : k_leader c = Some 0%nat;
  ln_leader : ∃ l, k_leaders c = [l] ∧ followers l !! a = Some cn ∧ table_ok (followers l);
  ln_conn : k_net c !! cn = Some (mkConn (frames ss) true);
  ln_phases t p : k_calls c !! t = Some p → phase_ok p;
  ln_records : Forall shippable ss;
}.

Lemma sync_record_ok i w s : sync_record i w = Some s → sendable w → 0 ≤ i < 2 ^ 64 → shippable s.
Proof.
  destruct w as [k v exp|k|k]; simpl; intros [= <-] Hw Hi; (split; [|by auto]); unfold sync_ok; cbn -[u64 i64].
  - pose proof (u64_range (UnixNano exp)). split_and!; lia.
  - split_and!; try lia; len_lia.
Qed.

Lemma phases_insert c t p' : (∀ t p, k_calls c !! t = Some p → phase_ok p) → phase_ok p' →
  ∀ t' p, <[t := p']> (k_calls c) !! t' = Some p → phase_ok p.
Proof. intros H Hp t' p [[_ <-]|[_ Ht]]%lookup_insert_Some; [done|by eapply H]. Qed.

Lemma linked_store c ss as_ act c' :
  linked c ss as_ → orderly c → nstep ord ford defaultTTL c (KStore act) = Some c' → ∃ as', linked c' ss as'.
Proof.
  intros [H1 H2 H3 H4 H5 H6 H7] [Hu _] E.
  assert (∃ es b, step ord (k_base c) act = Some (es, b) ∧ c' = with_base c b ∧ (es = [] ∨ ∃ now, es = [ETick now]))
    as (es & b & Es & -> & Hes).
  { destruct act as [t w|t|t|now| |]; try discriminate E; simpl in E |- *.
    - destruct (c_calls _ !! t) as [p|]; simplify_eq/=. destruct (run_call _ _ _ _); simplify_eq/=. eauto 10.
    - destruct (_ <=? _); simplify_eq/=. eauto 10.
    - destruct (c_sweeper _); simplify_eq/=. eauto 10.
    - destruct (run_sweeper _ _); simplify_eq/=. eauto 10. }
  destruct (sim_step ord Hord limited _ _ _ _ _ H1 Es) as (as' & Has & Hsim). exists as'.
  split; try done. simpl. destruct Hes as [->|[now ->]]; [by eapply asteps_silent|].
  destruct (asteps_event _ _ _ _ Has) as (a1 & a2 & Ha1 & Hst & Ha2).
  eapply asteps_silent; [exact Hu|exact Ha2|]. inversion Hst as [| |a1' now' Hle| | | | | | | |]; subst.
  apply following_shrink; [by eapply asteps_silent|done|]. by left.
Qed.

Lemma linked_invoke c ss as_ t r c' :
  linked c ss as_ → orderly c → orderly c' → nstep ord ford defaultTTL c (KInvoke t r) = Some c' →
  ∃ as', linked c' ss as'.
Proof.
  intros [H1 H2 H3 H4 H5 H6 H7] [Hu _] [Hu' _] E. unfold nstep in E. set (w := request_call _ _ _) in E.
  destruct (k_calls c !! t) eqn:Et; [done|].
  destruct (step ord (k_base c) (Invoke t w)) as [[es b]|] eqn:Es; [|done]. injection E as <-.
  destruct (sim_step ord Hord limited _ _ _ _ _ H1 Es) as (as' & Has & Hsim). exists as'.
  assert (es = [EInvoke t w]) as -> by (simpl in Es; destruct (c_calls _ !! t); simplify_eq/=; done).
  split; try done; simpl in *; [|by apply phases_insert].
  destruct (asteps_event _ _ _ _ Has) as (a1 & a2 & Ha1 & Hst & Ha2).
  eapply asteps_silent; [exact Hu'|exact Ha2|]. inversion Hst; subst.
  apply following_invoke; [|done]. by eapply asteps_silent.
Qed.

(** The call on the store returns. *)
Lemma linked_stored c ss as_ t c' :
  linked c ss as_ → orderly c → orderly c' → nstep ord ford defaultTTL c (KStored t) = Some c' →
  ∃ as', linked c' ss as'.
Proof.
  intros [H1 H2 H3 H4 H5 H6 H7] [Hu _] [Hu' _] E. unfold nstep in E.
  destruct (k_calls c !! t) as [[w| | | |]|] eqn:Et; try done.
  destruct (c_calls (k_base c) !! t) as [[]|] eqn:Ec; try done. rename r into res.
  destruct (step ord (k_base c) (Return t)) as [[es b]|] eqn:Es; [|done]. injection E as <-.
  destruct (sim_step ord Hord limited _ _ _ _ _ H1 Es) as (as' & Has & Hsim). exists as'.
  assert (es = [EReturn t res]) as -> by (simpl in Es; rewrite Ec in Es; simplify_eq/=; done).
  split; try done; simpl in *.
  2: { apply phases_insert; [done|]. destruct w, res as [[[]| |]| |]; simpl; eauto. }
  destruct (asteps_event _ _ _ _ Has) as (a1 & a2 & Ha1 & Hst & Ha2).
  eapply asteps_silent; [exact Hu'|exact Ha2|]. inversion Hst as [|a1' t' r' Hr| | | | | | | | |]; subst.
  eapply (following_move limited m0 f0 (k_calls c)); [by eapply asteps_silent| |done|].
  { intros w'. destruct w, res as [[[]| |]| |]; discriminate. }
  intros w' k Hk. unfold unsent. simpl. rewrite Et, Hr, lookup_insert_eq, lookup_delete_eq.
  destruct w, res as [[[]| |]| |]; simpl; split;
    intros [[? ?]|[?|[[? ?]|[? [? ?]]]]]; simplify_eq/=; auto.
Qed.

Lemma linked_goto c ss as_ t p p' :
  linked c ss as_ → k_calls c !! t = Some p → (∀ w, p ≠ NCalling w) → (∀ w, p' ≠ NCalling w) → phase_ok p' →
  (∀ w k, call_key w = Some k → unsent (k_calls c) as_ t w ↔ unsent (<[t := p']> (k_calls c)) as_ t w) →
  linked (ngoto t p' c) ss as_.
Proof.
  intros [H1 H2 H3 H4 H5 H6 H7] Ht Hp Hp' Hok Hu. split; try done; simpl; [|by apply phases_insert].
  apply following_idle; [done| |done|done]. intros w. rewrite Ht. naive_solver.
Qed.

Lemma linked_run c ss as_ t c' :
  linked c ss as_ → orderly c → nstep ord ford defaultTTL c (KRun t) = Some c' → ∃ ss', linked c' ss' as_.
Proof.
  intros Hl [Hu Hw] E. pose proof Hl as [H1 H2 H3 (l & Hls & Hfl & Htab) H5 H6 H7]. simpl in E.
  destruct (k_calls c !! t) as [p|] eqn:Et; [|done]. simpl in E.
  pose proof (H6 _ _ Et) as Hp. destruct p as [w|w|i w|i x w|r]; try discriminate E; unfold run_request in E.
  - rewrite H3 in E. injection E as <-. exists ss. eapply linked_goto; try done.
    intros w' k _. unfold unsent. rewrite Et, lookup_insert_eq. naive_solver.
  - destruct Hp as [-> Hk]. rewrite Hls in E. simpl in E. injection E as <-. exists ss.
    pose proof (u64_range (logIndex l + 1)).
    eapply (linked_goto (with_leaders c 0 (next_index l) (k_net c))); try done.
    + split; try done. simpl. rewrite Hls. by exists (next_index l).
    + intros w' k _. simpl. unfold unsent. rewrite Et, lookup_insert_eq. naive_solver.
  - destruct Hp as (-> & Hk & Hx). rewrite Hls in E. simpl in E.
    destruct (sync_record x w) as [s|] eqn:Es; [|done]. simpl in E.
    pose proof (broadcast_spec ford l (k_net c) (MReplicationSync s) a cn (frames ss) Hford Htab Hfl H5) as Hb.
    destruct (broadcast ford l (k_net c) (MReplicationSync s)) as [l' nt'].
    destruct Hb as (Hf' & Hc' & Ht' & _). injection E as <-. exists (ss ++ [s]).
    pose proof (Hw t _ w Et eq_refl) as Hsend.
    split; simpl; [done| |done| | |by apply phases_insert|].
    + by eapply following_send.
    + rewrite Hls. by exists l'.
    + rewrite frames_app. unfold frames at 2. simpl. by rewrite app_nil_r.
    + apply Forall_app. split; [done|]. apply Forall_singleton. by eapply sync_record_ok.
Qed.
(** Requests that end, followers that come and go. *)
Lemma linked_return c ss as_ t c' :
  linked c ss as_ → nstep ord ford defaultTTL c (KReturn t) = Some c' → linked c' ss as_.
Proof.
  intros [H1 [F1 F2 F3 F4] H3 H4 H5 H6 H7] E. simpl in E.
  destruct (k_calls c !! t) as [[]|] eqn:Et; try done. injection E as <-.
  assert (∀ t' w', unsent (delete t (k_calls c)) as_ t' w' ↔ unsent (k_calls c) as_ t' w') as Hu.
  { intros t' w'. unfold unsent. destruct (decide (t = t')) as [<-|Hne].
    - rewrite lookup_delete_eq, Et. naive_solver.
    - by rewrite lookup_delete_ne. }
  split; try done; simpl; [split|].
  - intros t' w'. rewrite lookup_delete_Some. intros [_ ?]. by apply F1.
  - intros t' Hno. apply F2. intros w Hw. apply (Hno w). rewrite lookup_delete_ne; [done|].
    intros <-. by rewrite Et in Hw.
  - intros t' w' k Hun. apply (F3 t'). by apply Hu.
  - intros k Hun. apply F4. intros t' w' Hc. apply (Hun t'). by apply Hu.
  - intros t' p. rewrite lookup_delete_Some. intros [_ ?]. by eapply H6.
Qed.

Lemma linked_leaders c ss as_ l l' nt' :
  linked c ss as_ → k_leaders c = [l] → followers l' !! a = Some cn → table_ok (followers l') →
  nt' !! cn = Some (mkConn (frames ss) true) → linked (with_leaders c 0 l' nt') ss as_.
Proof. intros [H1 H2 H3 _ H5 H6 H7] Hl Hf Htab Hc. split; try done. simpl. rewrite Hl. by exists l'. Qed.

Lemma linked_join c ss as_ a' cn' c' :
  linked c ss as_ → steady a cn c (KJoin a' cn') → nstep ord ford defaultTTL c (KJoin a' cn') = Some c' →
  linked c' ss as_.
Proof.
  intros Hl [Hne Hfresh] E. pose proof (ln_leader _ _ _ Hl) as (l & Hls & Hf & Htab). simpl in E.
  rewrite (ln_leading _ _ _ Hl), Hls in E. simpl in E. injection E as <-.
  assert (∀ b, followers l !! b ≠ Some cn') as Hno by (intros b; apply (Hfresh l b); by rewrite Hls).
  eapply linked_leaders; [done|exact Hls|..]; simpl; [by rewrite lookup_insert_ne| |apply Hl].
  intros x y z [[<- <-]|[? Hx]]%lookup_insert_Some [[<- Hy]|[? Hy]]%lookup_insert_Some; try done.
  - by apply Hno in Hy.
  - subst z. by apply Hno in Hx.
  - by eapply Htab.
Qed.

Lemma linked_leave c ss as_ i a' c' :
  linked c ss as_ → steady a cn c (KLeave i a') → nstep ord ford defaultTTL c (KLeave i a') = Some c' →
  linked c' ss as_.
Proof.
  intros Hl Hne E. pose proof (ln_leader _ _ _ Hl) as (l & Hls & Hf & Htab). pose proof (ln_conn _ _ _ Hl) as Hc.
  simpl in Hne, E. rewrite Hls in E. destruct i as [|i]; [|done]. simpl in E. unfold removeFollower in E.
  destruct (followers l !! a') as [cn'|] eqn:Ea; injection E as <-; eapply linked_leaders; try done; simpl.
  - by rewrite lookup_delete_ne.
  - intros x y z [_ Hx]%lookup_delete_Some [_ Hy]%lookup_delete_Some. by eapply Htab.
  - rewrite conn_Close_other; [done|]. intros ->. apply Hne. by eapply Htab.
Qed.

Lemma linked_step c ss as_ act c' :
  linked c ss as_ → orderly c → orderly c' → steady a cn c act → nstep ord ford defaultTTL c act = Some c' →
  ∃ ss' as', linked c' ss' as'.
Proof.
  intros Hl Ho Ho' Hst E. destruct act as [t r|act|t|t|t|a' cn'|i a'|cn'| |]; try done.
  - destruct (linked_invoke _ _ _ _ _ _ Hl Ho Ho' E) as [as' ?]. eauto.
  - destruct (linked_store _ _ _ _ _ Hl Ho E) as [as' ?]. eauto.
  - destruct (linked_stored _ _ _ _ _ Hl Ho Ho' E) as [as' ?]. eauto.
  - destruct (linked_run _ _ _ _ _ Hl Ho E) as [ss' ?]. eauto.
  - eexists _, _. by eapply linked_return.
  - eexists _, _. by eapply linked_join.
  - eexists _, _. by eapply linked_leave.
  - injection E as <-. eexists ss, as_. destruct Hl as [H1 H2 H3 H4 H5 H6 H7]. split; try done. simpl in *.
    by rewrite conn_Close_other.
Qed.

Lemma nalong_first c acts : nalong ord ford defaultTTL c acts → orderly c.
Proof. destruct acts; by intros [? _]. Qed.

Lemma linked_nrun acts : ∀ c ss as_ c',
  linked c ss as_ → nalong ord ford defaultTTL c acts → nsteady ord ford defaultTTL a cn c acts →
  nrun ord ford defaultTTL c acts = Some c' → ∃ ss' as', linked c' ss' as'.
Proof.
  induction acts as [|act acts IH]; intros c ss as_ c' Hl; cbn [nalong nsteady nrun].
  { intros _ _ [= <-]. eauto. }
  intros [Ho Ha] [Hst Hs]. destruct (nstep _ _ _ c act) as [c1|] eqn:E; [|done]. cbn [mbind option_bind].
  intros Hrun. destruct (linked_step _ _ _ _ _ Hl Ho (nalong_first _ _ Ha) Hst E) as (ss1 & as1 & Hl1).
  by eapply IH.
Qed.

(** What the two answer to a reader of [k], when nobody writes it. *)
Lemma linked_reads {P2} {PP2 : Policy P2} {PL2 : PolicyLaws P2} {W2} {LW2 : Log W2} {LL2 : LogLaws W2}
    c ss as_ m2 (fd : KVStore P2 W2) k now :
  linked c ss as_ → simulates m2 fd → visible <$> m2 = foldl follow f0 ss → c_now (k_base c) ≤ now →
  (∀ t p, k_calls c !! t = Some p → writes_key p ≠ Some k) → settled m0 f0 ss k →
  (Get (c_store (k_base c)) k now).1 = (Get fd k now).1 ∨
  limited ∧ (Get (c_store (k_base c)) k now).1 = Err ErrKeyNotFound.
Proof.
  intros [H1 H2 _ _ _ _ _] Hsim Hm2 Hnow Hq Hset.
  assert (∀ t w, unsent (k_calls c) as_ t w → call_key w ≠ Some k) as Hnone.
  { intros t w Hun Hk. destruct (unsent_writes _ _ _ _ _ Hun Hk) as (p & Hp & Hwk). by eapply Hq. }
  pose proof (f_sent _ _ _ _ _ _ H2 k Hnone Hset) as Hagr. rewrite <-Hm2, lookup_fmap in Hagr.
  rewrite (Get_reads (c_store (k_base c))) by apply H1. rewrite (Get_reads fd) by apply Hsim. rewrite (sim_view _ _ Hsim).
  destruct (s_map _ _ _ H1 k) as [(t & v & exp & Ht)|Hv].
  { exfalso. destruct (sim_status _ _ _ _ _ H1 Ht) as (s & Hs & Hmt). simpl in Hmt. subst s.
    destruct (following_called _ _ _ _ _ _ _ _ H2 Hs) as (w & Hw & Hof). simpl in Hof. subst w.
    by eapply (Hq t (NCalling (CSet k v exp))). }
  rewrite Hv. rewrite (s_now _ _ _ H1) in Hagr.
  destruct (a_map as_ !! k) as [r|]; simpl in Hagr.
  - left. destruct (m2 !! k) as [r'|]; [|done]. simpl in Hagr. injection Hagr as E1 E2. simpl. by rewrite E1, E2.
  - destruct Hagr as [Hno|[?|(v & exp & Hf & Hexp)]]; [left|by right|left].
    + by destruct (m2 !! k).
    + destruct (m2 !! k) as [r'|]; [|done]. injection Hf as _ E2. simpl.
      rewrite (proj2 (Z.ltb_lt (expiredAt r') now)) by lia. done.
Qed.
End linked.

(** ** Claims *)

Section claims.
Context {W : Type} {LW : Log W} {LL : LogLaws W} {W2 : Type} {LW2 : Log W2} {LL2 : LogLaws W2}.

End claims.

(** ** A run to evaluate

    Sets of two keys overlap, their records leave in the other order; a third follower
    joins and breaks down, a delete follows, and a sweep takes an expired entry. *)

(** Whether the hypotheses on a run hold can be computed. *)
Section decide.
Context {P : Type} {PP : Policy P} {W : Type} {LW : Log W}.
Implicit Types (c : nconf P W).

Definition sendable_b (w : call) : bool :=
  match w with
  | CSet k v exp => (len k <? 65536) && (len v <? 2 ^ 31) && (- 2 ^ 63 <=? exp) && (exp <? 2 ^ 63)
  | CDelete k => len k <? 65536
  | CGet _ => true
  end.

Definition orderly_b c : bool :=
  bool_decide (map_Forall (λ t1 p1, map_Forall (λ t2 p2,
    writes_key p1 = None ∨ writes_key p1 ≠ writes_key p2 ∨ t1 = t2) (k_calls c)) (k_calls c)) &&
  forallb (λ '(_, p), match writing p with Some w => sendable_b w | None => true end) (map_to_list (k_calls c)).

Lemma orderly_b_spec c : orderly_b c = true → orderly c.
Proof.
  intros [He Ha]%andb_true_iff. apply bool_decide_eq_true_1 in He. split.
  - intros t1 t2 p1 p2 k H1 H2 Hk1 Hk2. destruct (He t1 p1 H1 t2 p2 H2) as [?|[?|?]]; congruence.
  - intros t p w Ht Hw. rewrite forallb_forall in Ha. specialize (Ha (t, p)). simpl in Ha. rewrite Hw in Ha.
    assert (In (t, p) (map_to_list (k_calls c))) as Hin by (by apply list_elem_of_In, elem_of_map_to_list).
    specialize (Ha Hin). destruct w; simpl in *; lia.
Qed.

Fixpoint nalong_b ord ford ttl c (acts : list naction) : bool :=
  orderly_b c && match acts with
                 | [] => true
                 | a :: acts => match nstep ord ford ttl c a with Some c' => nalong_b ord ford ttl c' acts | None => true end
                 end.

Lemma nalong_b_spec ord ford ttl acts : ∀ c, nalong_b ord ford ttl c acts = true → nalong ord ford ttl c acts.
Proof.
  induction acts as [|a acts IH]; intros c; cbn [nalong nalong_b]; intros [Hg Hr]%andb_true_iff;
    (split; [by apply orderly_b_spec|]); [done|].
  destruct (nstep ord ford ttl c a) as [c'|]; [by apply IH|done].
Qed.

Definition steady_b a cn c (act : naction) : bool :=
  match act with
  | KJoin a' cn' => bool_decide (a' ≠ a) &&
      match k_leaders c !! 0%nat with
      | Some l => forallb (λ '(_, x), bool_decide (x ≠ cn')) (map_to_list (followers l))
      | None => true
      end
  | KLeave _ a' => bool_decide (a' ≠ a)
  | KBreak cn' => bool_decide (cn' ≠ cn)
  | KElected | KDeposed => false
  | _ => true
  end.

Lemma steady_b_spec a cn c act : steady_b a cn c act = true → steady a cn c act.
Proof.
  destruct act; simpl; try done; try (by intros ?%bool_decide_eq_true_1).
  intros [H1%bool_decide_eq_true_1 H2]%andb_true_iff. split; [done|]. intros l b Hl Hb. rewrite Hl in H2.
  rewrite forallb_forall in H2. specialize (H2 (b, c0)). simpl in H2.
  assert (In (b, c0) (map_to_list (followers l))) as Hin by (by apply list_elem_of_In, elem_of_map_to_list).
  by apply H2, bool_decide_eq_true_1 in Hin.
Qed.

Fixpoint nsteady_b ord ford ttl a cn c (acts : list naction) : bool :=
  match acts with
  | [] => true
  | act :: acts => steady_b a cn c act &&
      match nstep ord ford ttl c act with Some c' => nsteady_b ord ford ttl a cn c' acts | None => true end
  end.

Lemma nsteady_b_spec ord ford ttl a cn acts : ∀ c,
  nsteady_b ord ford ttl a cn c acts = true → nsteady ord ford ttl a cn c acts.
Proof.
  induction acts as [|act acts IH]; intros c; cbn [nsteady nsteady_b]; [done|].
  intros [Hs Hr]%andb_true_iff. split; [by apply steady_b_spec|].
  destruct (nstep ord ford ttl c act) as [c'|]; [by apply IH|done].
Qed.
End decide.

Definition ex_table : Leader := AddFollower newLeader (str "b:1") 1.
Definition ex_net2 : net := {[ 1%nat := mkConn [] true; 2%nat := mkConn [] true ]}.
Definition ex_kstart : nconf AnyPolicy FileLog := kstart (ex_store NameStrict 0) 0 ex_table ex_net2.
Definition in_store (t : tid) (n : nat) : list naction := replicate n (KStore (Run t)) ++ [KStored t].

Definition ex_nactions : list naction :=
  [KInvoke 1 (RSet (str "k") [1] 100); KInvoke 2 (RSet (str "j") [2] 0); KInvoke 3 (RSet (str "i") [3] 5);
   KJoin (str "c:1") 2] ++ in_store 1 3 ++ in_store 2 3 ++ [KRun 1; KRun 1; KBreak 2] ++ [KRun 2; KRun 2; KRun 2; KRun 1] ++
  in_store 3 3 ++ [KRun 3; KRun 3; KRun 3; KReturn 1; KReturn 2; KReturn 3; KLeave 0 (str "c:1"); KInvoke 1 (RDelete (str "k"))] ++
  in_store 1 2 ++ [KRun 1; KRun 1; KRun 1; KStore (Tick 10); KStore StartSweep] ++ replicate 7 (KStore RunSweeper) ++
  [KInvoke 2 (RGet (str "j"))] ++ in_store 2 4 ++ [KReturn 1; KReturn 2].

Definition ex_nend : nconf AnyPolicy FileLog := default ex_kstart (nrun any_order ex_order 1000 ex_kstart ex_nactions).

Lemma ex_nend_runs : nrun any_order ex_order 1000 ex_kstart ex_nactions = Some ex_nend.
Proof. vm_compute. reflexivity. Qed.

(** The record of the second request left first; the expired entry is gone from the
    leader and not from what was sent. *)
Example ex_nend_state :
  (k_net ex_nend !! 1%nat = Some (mkConn (frames
     [mkReplicationSync 2 wal.OpSet (str "j") [2] 1000; mkReplicationSync 1 wal.OpSet (str "k") [1] 100;
      mkReplicationSync 3 wal.OpSet (str "i") [3] 5; mkReplicationSync 4 wal.OpDelete (str "k") [] 0]) true)) ∧
  view (c_store (k_base ex_nend)) (str "i") = None.
Proof. vm_compute. split; reflexivity. Qed.

Lemma ex_table_ok : table_ok (followers ex_table).
Proof.
  intros a b c. cbn [followers ex_table AddFollower newLeader].
  intros [[<- _]|[_ ?]]%lookup_insert_Some [[<- _]|[_ ?]]%lookup_insert_Some; done.
Qed.


(** Two sets of the same key that overlap: the store takes the one first and the other
    last, the broadcasts leave in the other order.  Both are acknowledged, and the
    follower that has read everything keeps the value the leader has overwritten. *)
Definition ex_overlap : list naction :=
  [KInvoke 1 (RSet (str "k") [1] 100); KInvoke 2 (RSet (str "k") [2] 100)] ++
  in_store 1 3 ++ in_store 2 3 ++ [KRun 2; KRun 2; KRun 2; KRun 1; KRun 1; KRun 1].

(** The phases of the requests, what the leader answers and what the follower does. *)
Definition ex_both_answer (acts : list naction) : option (list nphase * go gobytes * go gobytes) :=
  c ← nrun any_order ex_order 1000 ex_kstart acts;
  cn ← k_net c !! 1%nat;
  '(_, fd, _) ← sync_loop (S (length (sent cn))) (any_order 0%nat) 1 (Reader (sent cn) io_EOF) ex_follower [];
  Some ((map_to_list (k_calls c)).*2, (Get (c_store (k_base c)) (str "k") 50).1, (Get fd (str "k") 50).1).

Example overlapping_writes_diverge :
  ex_both_answer ex_overlap = Some ([NDone (RUnit (Ok ())); NDone (RUnit (Ok ()))], Ok [2], Ok [1]).
Proof. vm_compute. reflexivity. Qed.
