(* ===== verification/Engine.v ===== *)
(** * The command engine (engine/)

    The registry of handlers by opcode, the three handlers and [Dispatch], against
    the [Store] interface of [engine/handler.go]. *)

From S2P Require Import Prelude GoLang Protocol KvMessages Messages WalRecord Shard Store.

(** ** handler.go

    The interface the handlers work on; [now] is the clock of the call. *)
Class EngineStore (D : Type) := {
  es_Set : key → gobytes → Z → Z → D → go () * D;
  es_Get : key → Z → D → go gobytes * D;
  es_Delete : key → Z → D → go () * D;
}.

Section engine.
Context {D : Type} {ES : EngineStore D}.

Definition Handler : Type := Msg → Z → D → go Msg * D.

(** [Register] panics on a second handler for an opcode. *)
Definition engine_Register (opcode : Z) (h : Handler) (handlers : gmap Z Handler) : go (gmap Z Handler) :=
  match handlers !! opcode with
  | Some _ => Panic
  | None => Ok (<[opcode := h]> handlers)
  end.

(** ** get.go, set.go, delete.go: a failed type assertion panics *)

Definition handleGet : Handler := λ msg now db,
  match msg with
  | MGetRequest req =>
      match es_Get (GetRequest_Key req) now db with
      | (Ok val, db) => (Ok (MGetResponse (mkGetResponse true val)), db)
      | (Err err, db) =>
          if bool_decide (err = ErrKeyNotFound) then (Ok (MGetResponse (mkGetResponse false [])), db)
          else (Ok (MErrorMessage (mkErrorMessage ErrCodeInternal (Error err))), db)
      | (Panic, db) => (Panic, db)
      end
  | _ => (Panic, db)
  end.

(** [time.Duration(req.TTL)] reads the [uint64] as an [int64]. *)
Definition handleSet : Handler := λ msg now db,
  match msg with
  | MSetRequest req =>
      let ttl := i64 (SetRequest_TTL req) in
      match es_Set (SetRequest_Key req) (SetRequest_Value req) ttl now db with
      | (Ok _, db) => (Ok (MSetResponse (mkSetResponse true (str "OK"))), db)
      | (Err err, db) => (Ok (MSetResponse (mkSetResponse false (Error err))), db)
      | (Panic, db) => (Panic, db)
      end
  | _ => (Panic, db)
  end.

Definition handleDelete : Handler := λ msg now db,
  match msg with
  | MDeleteRequest req =>
      match es_Delete (DeleteRequest_Key req) now db with
      | (Ok _, db) => (Ok (MDeleteResponse (mkDeleteResponse true (str "OK"))), db)
      | (Err err, db) =>
          if bool_decide (err = ErrKeyNotFound)
          then (Ok (MDeleteResponse (mkDeleteResponse false (str "key not found"))), db)
          else (Ok (MDeleteResponse (mkDeleteResponse false (Error err))), db)
      | (Panic, db) => (Panic, db)
      end
  | _ => (Panic, db)
  end.

(** ** registry_init.go *)

Definition engine_init : go (gmap Z Handler) :=
  h ← engine_Register OpGet handleGet ∅;
  h ← engine_Register OpSet handleSet h;
  engine_Register OpDelete handleDelete h.

Definition handlers : gmap Z Handler := match engine_init with Ok h => h | _ => ∅ end.

Definition no_handler (opcode : Z) : error :=
  ErrorString (str "engine: no handler for opcode 0x" ++ hex2 opcode).

Definition Dispatch (msg : Msg) (now : Z) (db : D) : go Msg * D :=
  match handlers !! OpCode msg with
  | None => (Err (no_handler (OpCode msg)), db)
  | Some h => h msg now db
  end.

(** The three opcodes are distinct, so registration does not panic, and each
    message that has a handler reaches its own: no type assertion fails. *)
Lemma engine_init_ok :
  engine_init = Ok (<[OpDelete := handleDelete]> (<[OpSet := handleSet]> (<[OpGet := handleGet]> ∅))).
Proof.
  unfold engine_init, engine_Register. rewrite lookup_empty. go_bind1.
  rewrite lookup_insert_ne, lookup_empty by done. go_bind1.
  by rewrite !lookup_insert_ne, lookup_empty by done.
Qed.

Lemma Dispatch_spec msg now db :
  Dispatch msg now db =
  match msg with
  | MGetRequest _ => handleGet msg now db
  | MSetRequest _ => handleSet msg now db
  | MDeleteRequest _ => handleDelete msg now db
  | _ => (Err (no_handler (OpCode msg)), db)
  end.
Proof.
  unfold Dispatch, handlers. rewrite engine_init_ok. destruct msg; cbn [OpCode Msg_Message Msg_OpCode];
    repeat (rewrite lookup_insert_eq || rewrite lookup_insert_ne by done); by rewrite ?lookup_empty.
Qed.
End engine.
Arguments Handler : clear implicits.
