(* ===== verification/Server.v ===== *)
(** * The server (server/tcp.go)

    One connection as a function of the bytes that arrive on it: what the server
    reads, does to the node and writes back.  Writes to the client's own connection
    succeed here; an error of a write would only be printed or ignored. *)

From S2P Require Import Prelude GoLang Protocol KvMessages ClusterMessages ClientMessages Messages.
From S2P Require Import WalRecord Os WalWriter Shard Eviction Store Recovery StoreSpec Raft Replication Engine.

Section server.
Context {P : Type} {PP : Policy P} {W : Type} {LW : Log W} (ord : nat → order) (ford : table_order).

(** The node and the connections of its followers. *)
Definition State : Type := Node P W * net.

#[export] Instance Node_EngineStore : EngineStore State := {
  es_Set k v ttl now st :=
    let '(res, n, nt) := Node_Set (ord 0%nat) ford st.1 st.2 k v ttl now in (res, (n, nt));
  es_Get k now st := let '(res, n) := Node_Get st.1 k now in (res, (n, st.2));
  es_Delete k now st := let '(res, n, nt) := Node_Delete ford st.1 st.2 k in (res, (n, nt));
}.

(** [_ = s.writeMessage(conn, msg)] *)
Definition writeMessage (out : gobytes) (msg : Msg) : gobytes :=
  match WriteFrame out msg with Ok w => w | _ => out end.

Definition writeError (out : gobytes) (code : Z) (message : gostring) : gobytes :=
  writeMessage out (MErrorMessage (mkErrorMessage code message)).

Definition readMessage (maxPayloadBytes : Z) (rd : reader) (out : gobytes) : go Msg * reader * gobytes :=
  match ReadFrame registry rd maxPayloadBytes with
  | (Err err, rd) =>
      (Err err, rd,
       if errors_Is err ErrFrameTooLarge then writeError out ErrCodeBadRequest (str "payload too large")
       else if errors_Is err ErrMalformedMessage then writeError out ErrCodeBadRequest (Error err)
       else out)
  | (res, rd) => (res, rd, out)
  end.

(** How the handling of a connection ends: the server closes it, a leader keeps it as
    a follower's, or the process panics. *)
Inductive ending := Closed | Kept | Crashed.

Definition dispatchToEngine (msg : Msg) (now : Z) (st : State) (out : gobytes) : go () * State * gobytes :=
  match Dispatch msg now st with
  | (Ok resp, st) => (Ok (), st, writeMessage out resp)
  | (Err err, st) => (Ok (), st, writeError out ErrCodeInternal (Error err))
  | (Panic, st) => (Panic, st, out)
  end.

Definition dispatchClient (msg : Msg) (now : Z) (st : State) (out : gobytes) : go () * State * gobytes :=
  if OpCode msg =? OpTopologyRequest
  then (Ok (), st, writeMessage out (MTopologyResponse (GetTopology st.1)))
  else dispatchToEngine msg now st out.

(** The client loop, from a message already read; [clock i] is the time of the [i]-th
    turn from the end.  [None]: out of fuel. *)
Fixpoint client_loop (fuel : nat) (maxPayloadBytes : Z) (clock : nat → Z) (msg : Msg) (rd : reader)
    (st : State) (out : gobytes) : option (ending * State * gobytes) :=
  match fuel with
  | O => None
  | S fuel =>
      match dispatchClient msg (clock fuel) st out with
      | (Panic, st, out) => Some (Crashed, st, out)
      | (_, st, out) =>
          match readMessage maxPayloadBytes rd out with
          | (Ok msg, rd, out) => client_loop fuel maxPayloadBytes clock msg rd st out
          | (Err _, _, out) => Some (Closed, st, out)
          | (Panic, _, out) => Some (Crashed, st, out)
          end
      end
  end.

Definition handleReplicationPeer (c : nat) (join : ReplicationJoin) (st : State) (out : gobytes)
    : ending * State * gobytes :=
  let '(n, nt) := st in
  if negb (IsLeader n) then (Closed, st, writeError out ErrCodeNotLeader (str "not the leader"))
  else match Node_Leader n with
       | Some l => (Kept, (with_leader n (AddFollower l (ReplicationJoin_NodeAddr join) c), nt), out)
       | None => (Crashed, st, out)     (* s.node.Leader() is nil *)
       end.

(** The callbacks and the signal of the election state, run at once. *)
Definition run_action (n : Node P W) (a : action) : Node P W :=
  match a with
  | OnFollower => becomeFollower n
  | Signal => mkNode (db n) (ndefaultTTL n) (set_heartbeat (nraft n) true) (nleader n)
  | Send _ => n
  end.

Definition with_nraft (n : Node P W) (r : RaftState) : Node P W := mkNode (db n) (ndefaultTTL n) r (nleader n).

Definition Node_HandleHeartbeat (n : Node P W) (term : Z) (leaderID : addr) : Node P W :=
  let '(r, acts) := HandleHeartbeat (nraft n) term leaderID in
  foldl run_action (with_nraft n r) acts.

Definition Node_HandleVoteRequest (n : Node P W) (req : VoteRequest) : bool * Z * Node P W :=
  let '(r, res, acts) := HandleVoteRequest (nraft n) (VoteRequest_Term req) (VoteRequest_CandidateID req) in
  (res, foldl run_action (with_nraft n r) acts).

(** [c] is the number the connection gets if it is kept. *)
Definition handleConnection (fuel : nat) (maxPayloadBytes : Z) (clock : nat → Z) (c : nat) (rd : reader) (st : State)
    : option (ending * State * gobytes) :=
  match readMessage maxPayloadBytes rd [] with
  | (Err _, _, out) => Some (Closed, st, out)
  | (Panic, _, out) => Some (Crashed, st, out)
  | (Ok firstMsg, rd, out) =>
      let op := OpCode firstMsg in
      if op =? OpReplicationJoin then
        match firstMsg with
        | MReplicationJoin join => Some (handleReplicationPeer c join st out)
        | _ => Some (Crashed, st, out)
        end
      else if op =? OpHeartbeat then
        match firstMsg with
        | MHeartbeat hb =>
            let n := Node_HandleHeartbeat st.1 (Heartbeat_Term hb) (Heartbeat_LeaderID hb) in
            Some (Closed, (n, st.2), writeMessage out (MHeartbeatAck (mkHeartbeatAck (Node_GetTerm n) 0)))
        | _ => Some (Crashed, st, out)
        end
      else if op =? OpVoteRequest then
        match firstMsg with
        | MVoteRequest req =>
            let '(granted, term, n) := Node_HandleVoteRequest st.1 req in
            Some (Closed, (n, st.2), writeMessage out (MVoteResponse (mkVoteResponse term granted)))
        | _ => Some (Crashed, st, out)
        end
      else client_loop fuel maxPayloadBytes clock firstMsg rd st out
  end.

(** ** Start

    What [Accept] gives: an error, which is printed and skipped, or a connection with
    what its client sends.  The connections are served one after the other, as the
    goroutines of [handleConnection] do when they do not overlap; a panic ends the
    process. *)
Record TCPServer := mkTCPServer { snode : State; maxPayloadBytes : Z }.

Definition NewTCPServer (node : State) (maxPayloadBytes : Z) : TCPServer := mkTCPServer node maxPayloadBytes.

Inductive accepted := AcceptError (e : error) | Accepted (rd : reader) (clock : nat → Z).

(** [c] is the number of the next connection.  [None]: out of fuel. *)
Fixpoint accept_loop (conns : list accepted) (c : nat) (s : TCPServer) : option (TCPServer * list (ending * gobytes)) :=
  match conns with
  | [] => Some (s, [])
  | AcceptError _ :: conns => accept_loop conns c s
  | Accepted rd clock :: conns =>
      match handleConnection (S (length (rd_data rd))) (maxPayloadBytes s) clock c rd (snode s) with
      | None => None
      | Some (Crashed, st, out) => Some (mkTCPServer st (maxPayloadBytes s), [(Crashed, out)])
      | Some (en, st, out) =>
          match accept_loop conns (S c) (mkTCPServer st (maxPayloadBytes s)) with
          | None => None
          | Some (s, served) => Some (s, (en, out) :: served)
          end
      end
  end.

(** [listen] is what [net.Listen] gives. *)
Definition TCPServer_Start (listen : go ()) (conns : list accepted) (s : TCPServer)
    : go (option (TCPServer * list (ending * gobytes))) :=
  _ ← listen; Ok (accept_loop conns 0 s).
End server.
