(* ===== verification/ServerProps.v ===== *)
(** * The properties of the server *)

From S2P Require Import Prelude GoLang Protocol KvMessages ClusterMessages ClientMessages Messages.
From S2P Require Import WalRecord Os WalWriter Shard Eviction Store Recovery StoreSpec Logs StoreProps.
From S2P Require Import Raft RaftProps Replication ReplicationProps Engine Server.

(** ** A client session against the abstract store *)

Inductive client_request := CGet (k : key) | CSet (k : key) (v : gobytes) (ttl : Z) | CDelete (k : key).

Definition client_msg (r : client_request) : Msg :=
  match r with
  | CGet k => MGetRequest (mkGetRequest k)
  | CSet k v ttl => MSetRequest (mkSetRequest k v ttl)
  | CDelete k => MDeleteRequest (mkDeleteRequest k)
  end.

(** What the client is to be answered, and what becomes of the map: a TTL of zero (or
    one that is negative as a duration) means the server's default. *)
Definition client_spec (ttl0 : Z) (m : gmap key Record) (r : client_request) (now : Z) : Msg * gmap key Record :=
  match r with
  | CGet k =>
      (MGetResponse (match read_record now (m !! k) with
                     | Ok v => mkGetResponse true v
                     | _ => mkGetResponse false []
                     end), m)
  | CSet k v ttl =>
      let ttl := if i64 ttl <=? 0 then ttl0 else i64 ttl in
      (MSetResponse (mkSetResponse true (str "OK")), <[k := mkRecord v now (now + ttl)]> m)
  | CDelete k =>
      (MDeleteResponse (match m !! k with
                        | Some _ => mkDeleteResponse true (str "OK")
                        | None => mkDeleteResponse false (str "key not found")
                        end), delete k m)
  end.

Fixpoint session_spec (ttl0 : Z) (clock : nat → Z) (m : gmap key Record) (rs : list client_request)
    : list Msg * gmap key Record :=
  match rs with
  | [] => ([], m)
  | r :: rs =>
      let '(resp, m) := client_spec ttl0 m r (clock (length rs)) in
      let '(resps, m) := session_spec ttl0 clock m rs in (resp :: resps, m)
  end.

Section session.
Context {W : Type} {LW : Log W} {LL : LogLaws W} (Hlog : log_total W).
Context (ord : nat → order) (Hord : orders_ok ord) (ford : table_order).

Lemma writeMessage_frame out (msg : Msg) : writeMessage out msg = out ++ frame_bytes msg.
Proof. unfold writeMessage. by rewrite WriteFrame_bytes. Qed.

(** One request. *)
Lemma dispatchClient_spec (st : State) m r now out :
  simulates m (db st.1) →
  ∃ st', dispatchClient (P:=AnyPolicy) ord ford (client_msg r) now st out =
      (Ok (), st', out ++ frame_bytes (client_spec (ndefaultTTL st.1) m r now).1) ∧
    simulates (client_spec (ndefaultTTL st.1) m r now).2 (db st'.1) ∧ ndefaultTTL st'.1 = ndefaultTTL st.1.
Proof.
  destruct st as [n nt]. intros Hsim. cbn [fst] in Hsim. unfold dispatchClient.
  replace (OpCode (client_msg r) =? OpTopologyRequest) with false by (by destruct r).
  unfold dispatchToEngine. rewrite Dispatch_spec. destruct r as [k|k v ttl|k]; cbn [client_msg].
  - unfold handleGet, es_Get, Node_EngineStore, Node_Get. cbn [fst snd GetRequest_Key].
    destruct (Get (db n) k now) as [res d] eqn:E.
    destruct (run_op_accepted ord Hord (db n) m (OGet k) now (RValue res) d Hsim) as (Hr & Hs & _);
      [constructor|simpl; by rewrite E|]. simpl in Hr. injection Hr as ->.
    cbn [client_spec fst snd]. unfold read_record. destruct (m !! k) as [rec|]; [destruct (_ <? _)|];
      rewrite ?bool_decide_true by done; rewrite writeMessage_frame; by eexists.
  - unfold handleSet, es_Set, Node_EngineStore, Node_Set. cbn [fst snd SetRequest_TTL SetRequest_Key SetRequest_Value].
    set (exp := now + _). destruct (SetWithExpiry _ (db n) k v exp now) as [res d] eqn:E.
    destruct (run_op_accepted ord Hord (db n) m (OSet k v exp) now (RUnit res) d Hsim) as (Hr & Hs & _);
      [by apply Forall_singleton, Hlog|simpl; by rewrite E|]. simpl in Hr. injection Hr as ->.
    cbn [nleader with_db]. destruct (nleader n) as [l|]; [destruct (BroadcastSet _ _ _ _ _ _) as [l' nt']|];
      rewrite writeMessage_frame; by eexists.
  - unfold handleDelete, es_Delete, Node_EngineStore, Node_Delete. cbn [fst snd DeleteRequest_Key].
    destruct (Delete (db n) k) as [res d] eqn:E.
    destruct (run_op_accepted ord Hord (db n) m (ODelete k) now (RUnit res) d Hsim) as (Hr & Hs & _);
      [by apply Forall_singleton, Hlog|simpl; by rewrite E|]. simpl in Hr. injection Hr as ->.
    cbn [client_spec fst snd nleader with_db]. destruct (m !! k) as [rec|]; [|rewrite bool_decide_true by done].
    + destruct (nleader n) as [l|]; [destruct (BroadcastDelete _ _ _ _) as [l' nt']|];
        rewrite writeMessage_frame; by eexists.
    + rewrite writeMessage_frame; by eexists.
Qed.

Lemma readMessage_frame (r : client_request) maxLen rest out :
  sendable maxLen (client_msg r) →
  readMessage maxLen (Reader (frame_bytes (client_msg r) ++ rest) io_EOF) out =
  (Ok (client_msg r), Reader rest io_EOF, out).
Proof.
  intros (Hwf & Hlen & Hmax). unfold readMessage.
  rewrite ReadFrame_frame; [done|apply registry_is_ok|apply registry_complete|done..].
Qed.

Lemma readMessage_eof maxLen out : readMessage maxLen (Reader [] io_EOF) out = (Err io_EOF, Reader [] io_EOF, out).
Proof.
  unfold readMessage, ReadFrame, frameHeaderSize. rewrite ReadFull_eof by lia. done.
Qed.

Lemma client_loop_spec maxLen clock rs : ∀ r (st : State) m out,
  simulates m (db st.1) → Forall (λ r, sendable maxLen (client_msg r)) rs →
  ∃ st', client_loop (P:=AnyPolicy) ord ford (S (length rs)) maxLen clock (client_msg r)
      (Reader (concat ((λ r, frame_bytes (client_msg r)) <$> rs)) io_EOF) st out =
      Some (Closed, st', out ++ concat (frame_bytes <$> (session_spec (ndefaultTTL st.1) clock m (r :: rs)).1)) ∧
    simulates (session_spec (ndefaultTTL st.1) clock m (r :: rs)).2 (db st'.1) ∧
    ndefaultTTL st'.1 = ndefaultTTL st.1.
Proof.
  induction rs as [|r' rs IH]; intros r st m out Hsim Hrs.
  - destruct (dispatchClient_spec st m r (clock 0%nat) out Hsim) as (st1 & E & Hsim1 & Ettl).
    cbn [client_loop length session_spec]. rewrite E. cbn [fmap list_fmap concat].
    rewrite readMessage_eof. destruct (client_spec _ _ _ _) as [resp m1]. simpl in *.
    exists st1. by rewrite app_nil_r.
  - apply Forall_cons in Hrs as [Hr' Hrs].
    destruct (dispatchClient_spec st m r (clock (S (length rs))) out Hsim) as (st1 & E & Hsim1 & Ettl).
    remember (r' :: rs) as l eqn:El. cbn [client_loop session_spec]. subst l. cbn [length]. rewrite E.
    cbn [fmap list_fmap concat]. rewrite readMessage_frame by done.
    destruct (client_spec (ndefaultTTL st.1) m r _) as [resp m1]. cbn [fst snd] in *.
    destruct (IH r' st1 m1 (out ++ frame_bytes resp) Hsim1 Hrs) as (st2 & E2 & Hsim2 & Ettl2).
    rewrite Ettl in *. exists st2.
    destruct (session_spec (ndefaultTTL st.1) clock m1 (r' :: rs)) as [resps m2]. cbn [fst snd] in *.
    split_and!; [|done|congruence]. cbn [fmap list_fmap concat]. rewrite app_assoc. exact E2.
Qed.

(** A whole connection: the requests are answered in order, each as the map answers,
    and the server closes when the client is done. *)
Lemma handleConnection_session maxLen clock c (st : State) m rs :
  simulates m (db st.1) → Forall (λ r, sendable maxLen (client_msg r)) rs →
  ∃ st', handleConnection (P:=AnyPolicy) ord ford (length rs) maxLen clock c
      (Reader (concat ((λ r, frame_bytes (client_msg r)) <$> rs)) io_EOF) st =
      Some (Closed, st', concat (frame_bytes <$> (session_spec (ndefaultTTL st.1) clock m rs).1)) ∧
    simulates (session_spec (ndefaultTTL st.1) clock m rs).2 (db st'.1) ∧
    ndefaultTTL st'.1 = ndefaultTTL st.1.
Proof.
  intros Hsim Hrs. unfold handleConnection. destruct rs as [|r rs].
  - cbn [fmap list_fmap concat]. rewrite readMessage_eof. by exists st.
  - apply Forall_cons in Hrs as [Hr Hrs]. cbn [fmap list_fmap concat]. rewrite readMessage_frame by done.
    destruct (client_loop_spec maxLen clock rs r st m [] Hsim Hrs) as (st' & E & Hsim').
    replace (OpCode (client_msg r) =? OpReplicationJoin) with false by (by destruct r).
    replace (OpCode (client_msg r) =? OpHeartbeat) with false by (by destruct r).
    replace (OpCode (client_msg r) =? OpVoteRequest) with false by (by destruct r).
    exists st'. split; [exact E|done].
Qed.
End session.

Definition ex_session : list client_request :=
  [CSet (str "k") [7] 0; CGet (str "k"); CDelete (str "k"); CGet (str "k"); CDelete (str "k")].

Definition ex_server : State (P:=AnyPolicy) (W:=Sys) :=
  (ForceLeader (NewNode ex_follower 1000 [] []), ∅).

(** The responses of the example. *)
Example ex_session_responses :
  (session_spec 1000 (λ i, 50 - Z.of_nat i) ∅ ex_session).1 =
  [MSetResponse (mkSetResponse true (str "OK")); MGetResponse (mkGetResponse true [7]);
   MDeleteResponse (mkDeleteResponse true (str "OK")); MGetResponse (mkGetResponse false []);
   MDeleteResponse (mkDeleteResponse false (str "key not found"))].
Proof. vm_compute. reflexivity. Qed.

(** A join request can crash a new leader: between the moment a node's role
    becomes leader and its call of [onLeader], which every winner goes through, the
    node has no leader object, and a follower that joins then makes the server
    dereference nil. *)
Lemma join_before_callback_crashes {W} {LW : Log W} ord ford (d : KVStore AnyPolicy W) ttl fuel clock c :
  ∃ cl n, reachable three cl ∧ nodes cl !! addr_A = Some n ∧ role (raft n) = RoleLeader ∧ leading n = false ∧
    let st : State := (mkNode d ttl (raft n) None, ∅) in
    handleConnection ord ford fuel 0 clock c
      (Reader (frame_bytes (MReplicationJoin (mkReplicationJoin addr_B))) io_EOF) st = Some (Crashed, st, []).
Proof.
  exists elected. eexists. split; [apply elected_reachable|]. split; [vm_compute; reflexivity|].
  split; [reflexivity|]. split; [reflexivity|]. cbn [raft].
  rewrite <-(app_nil_r (frame_bytes _)). unfold handleConnection, readMessage.
  rewrite ReadFrame_frame; [done|apply registry_is_ok|apply registry_complete|vm_compute; reflexivity..|by left].
Qed.
