(* ===== verification/ServerSafe.v ===== *)
(** * The server on arbitrary input (server/tcp.go)

    Whatever bytes arrive on a connection, the server gets to the end of them, leaves
    the store's invariant intact and writes whole frames only. *)

From S2P Require Import Prelude GoLang Protocol KvMessages ClusterMessages ClientMessages Messages.
From S2P Require Import WalRecord Os WalWriter Shard Eviction Store Recovery StoreSpec Logs StoreProps.
From S2P Require Import Raft Replication ReplicationProps Engine Server ServerProps.

(** ** One frame of arbitrary input *)

(** Somewhere in [data] is a complete frame on which the decoder panics. *)
Definition poisoned (data : gobytes) : Prop :=
  ∃ pre header body post, data = pre ++ header ++ body ++ post ∧ len header = 4 ∧
    Uint32 header = Ok (len body) ∧ decode_overflows body = true.

Lemma poisoned_suffix pre data : poisoned data → poisoned (pre ++ data).
Proof. intros (p & h & b & q & -> & ?). exists (pre ++ p), h, b, q. by rewrite <-app_assoc. Qed.

Lemma ReadFrame_split data e maxLen :
  bytes_ok data →
  match ReadFrame registry (Reader data e) maxLen with
  | (Ok _, rd) => ∃ pre, data = pre ++ rd_data rd ∧ pre ≠ [] ∧ rd_end rd = e
  | (Err _, _) => True
  | (Panic, _) => poisoned data
  end.
Proof.
  intros Hok. unfold ReadFrame, frameHeaderSize.
  destruct (ReadFull (Reader data e) 4) as [[header|err|] rd1] eqn:E1; [|done|by destruct (ReadFull_no_panic (Reader data e) 4); rewrite E1].
  apply ReadFull_ok in E1 as (-> & -> & Hlen). cbn [rd_data rd_end] in *.
  set (header := take (Z.to_nat 4) data). assert (len header = 4) as Hh.
  { subst header. unfold len. rewrite length_take. lia. }
  destruct (get_uint_ok 4 header) as [msgLen Em]; [lia|]. rewrite Em.
  destruct (_ && _); [done|]. set (tl := drop (Z.to_nat 4) data).
  assert (data = header ++ tl) as Hd by (symmetry; apply take_drop).
  destruct (ReadFull (Reader tl e) msgLen) as [[body|err|] rd2] eqn:E2; [|done|by destruct (ReadFull_no_panic (Reader tl e) msgLen); rewrite E2].
  apply ReadFull_ok in E2 as (-> & -> & Hlen2). cbn [rd_data rd_end] in *.
  set (body := take (Z.to_nat msgLen) tl). set (post := drop (Z.to_nat msgLen) tl).
  assert (tl = body ++ post) as Ht by (symmetry; apply take_drop).
  destruct (DecodeMessage registry body) as [m|err|] eqn:Ed; [|done|].
  - exists (header ++ body). split_and!; [by rewrite <-app_assoc, <-Ht|subst header; by destruct data|done].
  - assert (bytes_ok header ∧ bytes_ok body) as [Hhok Hbok].
    { rewrite Hd, Ht in Hok. apply Forall_app in Hok as [? Hok]. by apply Forall_app in Hok as [? _]. }
    exists [], header, body, post. split_and!; [by rewrite <-Ht, <-Hd|done| |by apply DecodeMessage_panic].
    rewrite Em. f_equal. apply get_uint_nonneg in Em; [|done]. subst body. unfold len. rewrite length_take. lia.
Qed.

(** ** What a connection does to the election *)

(** The message starts an exchange of the election. *)
Definition election_msg (m : Msg) : bool := (OpCode m =? OpHeartbeat) || (OpCode m =? OpVoteRequest).

Section election.
Context {P : Type} {PP : Policy P} {W : Type} {LW : Log W}.
Context (ord : nat → order) (ford : table_order) (maxLen : Z).

Definition has_leader (n : Node P W) : bool := match nleader n with Some _ => true | None => false end.

(** Only heartbeats and vote requests touch it. *)
Definition same_election (st st' : State (P:=P) (W:=W)) : Prop :=
  nraft st'.1 = nraft st.1 ∧ has_leader st'.1 = has_leader st.1.

Lemma dispatchClient_election msg now st out :
  same_election st (dispatchClient ord ford msg now st out).1.2.
Proof.
  destruct st as [n nt]. unfold dispatchClient. destruct (_ =? _); [done|].
  unfold dispatchToEngine. rewrite Dispatch_spec. destruct msg; try done.
  - unfold handleGet, es_Get, Node_EngineStore, Node_Get. cbn [fst snd].
    destruct (Get _ _ _) as [[v|err|] d]; [|case_bool_decide|]; done.
  - unfold handleSet, es_Set, Node_EngineStore, Node_Set. cbn [fst snd].
    destruct (SetWithExpiry _ _ _ _ _ _) as [[[]|err|] d]; [|done|done]. unfold same_election, has_leader.
    cbn [nleader with_db]. destruct (nleader n) as [l|] eqn:El; [destruct (BroadcastSet _ _ _ _ _ _)|]; cbn; by rewrite ?El.
  - unfold handleDelete, es_Delete, Node_EngineStore, Node_Delete. cbn [fst snd].
    destruct (Delete _ _) as [[[]|err|] d]; [|case_bool_decide; done|done]. unfold same_election, has_leader.
    cbn [nleader with_db]. destruct (nleader n) as [l|] eqn:El; [destruct (BroadcastDelete _ _ _ _)|]; cbn; by rewrite ?El.
Qed.

Lemma client_loop_election fuel clock : ∀ msg rd st out en st' out',
  client_loop ord ford fuel maxLen clock msg rd st out = Some (en, st', out') → same_election st st'.
Proof.
  induction fuel as [|fuel IH]; intros msg rd st out en st' out' E; [done|]. cbn [client_loop] in E.
  pose proof (dispatchClient_election msg (clock fuel) st out) as H1.
  destruct (dispatchClient _ _ _ _ _ _) as [[res st1] out1]. cbn [fst snd] in H1.
  assert (match readMessage maxLen rd out1 with
          | (Ok msg, rd, out) => client_loop ord ford fuel maxLen clock msg rd st1 out
          | (Err _, _, out) => Some (Closed, st1, out)
          | (Panic, _, out) => Some (Crashed, st1, out)
          end = Some (en, st', out') ∨ st1 = st') as [E'| ->]; [destruct res; [by left..|right; congruence]| |done].
  destruct (readMessage maxLen rd out1) as [[[m|err|] rd2] out2]; [|injection E' as <- <- <-; done..].
  apply IH in E' as [E1 E2]. destruct H1 as [E3 E4]. split; congruence.
Qed.

Lemma traffic_election data e fuel clock c st en st' out :
  (∀ m rd, ReadFrame registry (Reader data e) maxLen = (Ok m, rd) → election_msg m = false) →
  handleConnection ord ford fuel maxLen clock c (Reader data e) st = Some (en, st', out) → same_election st st'.
Proof.
  intros Hm E. unfold handleConnection in E. unfold readMessage in E at 1.
  destruct (ReadFrame _ _ _) as [[m|err|] rd] eqn:Er; [|injection E as <- <- <-; done..].
  specialize (Hm m rd eq_refl). unfold election_msg in Hm. apply orb_false_iff in Hm as [Hm1 Hm2]. rewrite Hm1, Hm2 in E.
  destruct (OpCode m =? OpReplicationJoin); [|by apply client_loop_election in E].
  destruct m; try (injection E as <- <- <-; done). unfold handleReplicationPeer, Node_Leader in E. destruct st as [n nt].
  destruct (negb _); [injection E as <- <- <-; done|].
  destruct (nleader n) eqn:El; injection E as <- <- <-; split; unfold has_leader; cbn; by rewrite ?El.
Qed.

End election.

(** ** Requests *)

Section safe.
Context {P : Type} {PP : Policy P} {PL : PolicyLaws P} {W : Type} {LW : Log W} {LL : LogLaws W}.
Context (ord : nat → order) (Hord : orders_ok ord) (ford : table_order).
Implicit Types (st : State (P:=P) (W:=W)).

(** [out'] is [out] with whole frames added. *)
Definition adds_frames (out out' : gobytes) : Prop := ∃ ms : list Msg, out' = out ++ concat (frame_bytes <$> ms).

Lemma adds_none out : adds_frames out out.
Proof. exists []. simpl. by rewrite app_nil_r. Qed.

Lemma adds_one out (m : Msg) : adds_frames out (writeMessage out m).
Proof. exists [m]. rewrite writeMessage_frame. simpl. by rewrite app_nil_r. Qed.

Lemma adds_trans o1 o2 o3 : adds_frames o1 o2 → adds_frames o2 o3 → adds_frames o1 o3.
Proof.
  intros [ms1 ->] [ms2 ->]. exists (ms1 ++ ms2). by rewrite fmap_app, concat_app, app_assoc.
Qed.

Lemma SetWithExpiry_safe (kv : KVStore P W) k v exp now :
  store_ok kv → returns (SetWithExpiry (ord 0%nat) kv k v exp now).1 ∧
    store_ok (SetWithExpiry (ord 0%nat) kv k v exp now).2.
Proof.
  intros Hok. unfold SetWithExpiry. pose proof (log_append_returns (set_record k v exp) (kwal kv)) as Hr.
  destruct (log_append _ _) as [[[]|e|] w]; [|done|done].
  destruct (set_memory _ _ _ _ _ _) as [res kv'] eqn:E.
  apply set_memory_spec in E as (? & _ & _ & _ & Hres); [|done|done]. split; [by destruct res|done].
Qed.

Lemma Delete_safe (kv : KVStore P W) k : store_ok kv → returns (Delete kv k).1 ∧ store_ok (Delete kv k).2.
Proof.
  intros Hok. unfold Delete. pose proof (log_append_returns (delete_record k) (kwal kv)) as Hr.
  destruct (log_append _ _) as [[[]|e|] w]; [|done|done].
  destruct (on_shard _ _ _) as [res kv'] eqn:E.
  apply delete_memory_spec in E as (? & _ & _ & _ & _ & ->); [|done]. split; [by destruct (view _ _)|done].
Qed.

Lemma Dispatch_safe msg now st :
  store_ok (db st.1) →
  returns (Dispatch (ES:=Node_EngineStore ord ford) msg now st).1 ∧
  store_ok (db (Dispatch (ES:=Node_EngineStore ord ford) msg now st).2.1).
Proof.
  destruct st as [n nt]. cbn [fst]. intros Hok. rewrite Dispatch_spec.
  destruct msg as [req|req|req| | | | | | | | | | | | |]; try done.
  - unfold handleGet, es_Get, Node_EngineStore, Node_Get. cbn [fst snd].
    destruct (Get (db n) (GetRequest_Key req) now) as [res d] eqn:E.
    apply Get_spec in E as (Hok' & _ & _ & _ & _ & ->); [|done].
    destruct (view _ _) as [r|]; [destruct (_ <? _)|]; rewrite ?bool_decide_true by done; done.
  - unfold handleSet, es_Set, Node_EngineStore, Node_Set. cbn [fst snd]. set (exp := now + _).
    pose proof (SetWithExpiry_safe (db n) (SetRequest_Key req) (SetRequest_Value req) exp now Hok) as [Hr Hok'].
    destruct (SetWithExpiry _ _ _ _ _ _) as [[[]|e|] d]; [|done|done]. cbn [nleader with_db].
    destruct (nleader n) as [l|]; [destruct (BroadcastSet _ _ _ _ _ _)|]; done.
  - unfold handleDelete, es_Delete, Node_EngineStore, Node_Delete. cbn [fst snd].
    pose proof (Delete_safe (db n) (DeleteRequest_Key req) Hok) as [Hr Hok'].
    destruct (Delete _ _) as [[[]|e|] d]; [|case_bool_decide; done|done]. cbn [nleader with_db].
    destruct (nleader n) as [l|]; [destruct (BroadcastDelete _ _ _ _)|]; done.
Qed.

Lemma dispatchClient_safe msg now st out :
  store_ok (db st.1) →
  ∃ st' out', dispatchClient ord ford msg now st out = (Ok (), st', out') ∧ store_ok (db st'.1) ∧ adds_frames out out'.
Proof.
  intros Hok. unfold dispatchClient, dispatchToEngine. destruct (_ =? _); [by eauto using adds_one|].
  pose proof (Dispatch_safe msg now st Hok) as [Hr Hok'].
  destruct (Dispatch msg now st) as [[resp|e|] st']; [| |done]; cbn [fst snd] in *; eauto using adds_one.
Qed.

(** ** Connections *)

Lemma readMessage_safe maxLen data e out :
  bytes_ok data →
  match readMessage maxLen (Reader data e) out with
  | (Ok _, rd, out') => out' = out ∧ rd_end rd = e ∧ ∃ pre, data = pre ++ rd_data rd ∧ pre ≠ []
  | (Err _, _, out') => adds_frames out out'
  | (Panic, _, out') => out' = out ∧ poisoned data
  end.
Proof.
  intros Hok. pose proof (ReadFrame_split data e maxLen Hok) as Hs. unfold readMessage.
  destruct (ReadFrame registry (Reader data e) maxLen) as [[m|err|] rd].
  - destruct Hs as (pre & ? & ? & ?). split_and!; [done|done|by exists pre].
  - destruct (errors_Is _ _); [apply adds_one|]. destruct (errors_Is _ _); [apply adds_one|apply adds_none].
  - done.
Qed.

(** How a connection may end: without a crash unless the input has a poisoned frame. *)
Definition ends_well (data : gobytes) (crash : Prop) (out : gobytes)
    (r : option (ending * State (P:=P) (W:=W) * gobytes)) : Prop :=
  match r with
  | Some (ending, st, out') =>
      store_ok (db st.1) ∧ adds_frames out out' ∧ (ending = Crashed → poisoned data ∨ crash)
  | None => False
  end.

Lemma client_loop_safe fuel maxLen clock : ∀ msg data e st out,
  (length data < fuel)%nat → bytes_ok data → store_ok (db st.1) →
  ends_well data False out (client_loop ord ford fuel maxLen clock msg (Reader data e) st out).
Proof.
  induction fuel as [|fuel IH]; intros msg data e st out Hf Hok Hst; [lia|]. cbn [client_loop].
  destruct (dispatchClient_safe msg (clock fuel) st out Hst) as (st1 & out1 & -> & Hst1 & Ho1).
  pose proof (readMessage_safe maxLen data e out1 Hok) as Hr.
  destruct (readMessage maxLen (Reader data e) out1) as [[[m|err|] rd] out2].
  - destruct Hr as (-> & Hend & pre & -> & Hpre). destruct rd as [rest e']. cbn [rd_data rd_end] in *.
    apply Forall_app in Hok as [_ Hok]. assert (length pre ≠ 0%nat) by (by destruct pre).
    rewrite length_app in Hf. specialize (IH m rest e' st1 out1 ltac:(lia) Hok Hst1). unfold ends_well in *.
    destruct (client_loop _ _ _ _ _ _ _ _ _) as [[[ending st2] out2]|]; [|done].
    destruct IH as (? & ? & Hc). split_and!; [done|by eapply adds_trans|]. intros [?|[]]%Hc. left. by apply poisoned_suffix.
  - split_and!; [done|by eapply adds_trans|done].
  - destruct Hr as [-> Hp]. split_and!; [done..|by left].
Qed.

Lemma run_actions_db acts : ∀ n : Node P W, db (foldl run_action n acts) = db n.
Proof.
  induction acts as [|act acts IH]; intros n; [done|]. cbn [foldl]. rewrite IH. by destruct act.
Qed.

Lemma handleConnection_safe maxLen clock c data e st :
  bytes_ok data → store_ok (db st.1) →
  ends_well data (IsLeader st.1 = true ∧ nleader st.1 = None) []
    (handleConnection ord ford (S (length data)) maxLen clock c (Reader data e) st).
Proof.
  intros Hok Hst. unfold handleConnection. pose proof (readMessage_safe maxLen data e [] Hok) as Hr.
  destruct (readMessage maxLen (Reader data e) []) as [[[m|err|] rd] out].
  2: { by split_and!. }
  2: { destruct Hr as [-> Hp]. split_and!; [done|apply adds_none|by left]. }
  destruct Hr as (-> & Hend & pre & -> & Hpre). destruct rd as [rest e']. cbn [rd_data rd_end] in *.
  apply Forall_app in Hok as [_ Hok].
  assert (∀ msg, ends_well (pre ++ rest) (IsLeader st.1 = true ∧ nleader st.1 = None) []
    (client_loop ord ford (S (length (pre ++ rest))) maxLen clock msg (Reader rest e') st [])) as Hclient.
  { intros msg. pose proof (client_loop_safe (S (length (pre ++ rest))) maxLen clock msg rest e' st []) as Hc.
    rewrite length_app in *. specialize (Hc ltac:(lia) Hok Hst). unfold ends_well in *.
    destruct (client_loop _ _ _ _ _ _ _ _ _) as [[[ending st2] out2]|]; [|done].
    destruct Hc as (?&?&Hc). split_and!; [done..|]. intros [?|[]]%Hc. left. by apply poisoned_suffix. }
  destruct m as [m|m|m|m|m|m|m|m|m|m|m|m|m|m|m|m]; try apply Hclient; cbn [Z.eqb].
  - destruct st as [n nt]. unfold handleReplicationPeer, Node_Leader. destruct (IsLeader n) eqn:El; cbn [negb].
    + destruct (nleader n) as [l|] eqn:Enl; (split_and!; [done|apply adds_none|try done]). intros _. by right.
    + split_and!; [done|apply adds_one|done].
  - split_and!; [|apply adds_one|done]. cbn [fst]. unfold Node_HandleHeartbeat.
    destruct (HandleHeartbeat _ _ _) as [r acts]. by rewrite run_actions_db.
  - unfold Node_HandleVoteRequest. destruct (HandleVoteRequest _ _ _) as [[r [granted t]] acts].
    split_and!; [|apply adds_one|done]. cbn [fst]. by rewrite run_actions_db.
Qed.
(** ** A leader has its leader object *)

Definition leader_ready st : Prop := IsLeader st.1 = true → has_leader st.1 = true.

Lemma run_actions_role acts : ∀ n : Node P W, IsLeader (foldl run_action n acts) = IsLeader n.
Proof. induction acts as [|act acts IH]; intros n; [done|]. cbn [foldl]. rewrite IH. by destruct act. Qed.

(** The handlers of the election only ever end a leadership. *)
Lemma Node_HandleHeartbeat_ready (n : Node P W) nt term x :
  leader_ready (n, nt) → leader_ready (Node_HandleHeartbeat n term x, nt).
Proof.
  intros Hr. unfold leader_ready, Node_HandleHeartbeat in *. cbn [fst] in *. unfold HandleHeartbeat.
  destruct (_ <? _); [done|]. rewrite run_actions_role. by destruct (_ <? _).
Qed.

Lemma Node_HandleVoteRequest_ready (n : Node P W) nt req :
  leader_ready (n, nt) → leader_ready ((Node_HandleVoteRequest n req).2, nt).
Proof.
  intros Hr. unfold leader_ready, Node_HandleVoteRequest in *. cbn [fst] in *. unfold HandleVoteRequest.
  destruct (Z.ltb_spec (VoteRequest_Term req) (currentTerm (nraft n))); [done|].
  destruct (is_leader (nraft n) && _) eqn:El; [done|].
  destruct (Z.ltb_spec (currentTerm (nraft n)) (VoteRequest_Term req)).
  - cbn [votedFor set_role set_term]. rewrite bool_decide_true by done. cbn [orb snd]. by rewrite run_actions_role.
  - assert (is_leader (nraft n) = false) as E.
    { apply andb_false_iff in El as [?|El]; [done|]. apply Z.eqb_neq in El. lia. }
    destruct (_ || _); cbn [snd]; rewrite run_actions_role; unfold IsLeader, with_nraft, is_leader in *; cbn; by rewrite E.
Qed.

Lemma same_election_ready st st' : same_election st st' → leader_ready st → leader_ready st'.
Proof. intros [E1 E2] Hr. unfold leader_ready, IsLeader in *. by rewrite E1, E2. Qed.

Lemma handleConnection_ready fuel maxLen clock c rd st en st' out :
  leader_ready st → handleConnection ord ford fuel maxLen clock c rd st = Some (en, st', out) → leader_ready st'.
Proof.
  intros Hr E. destruct rd as [data e].
  destruct (ReadFrame registry (Reader data e) maxLen) as [[m|err|] rd] eqn:Er;
    [destruct (election_msg m) eqn:Em|eapply same_election_ready; [eapply traffic_election; [|exact E]|done];
       rewrite Er; by intros ??..].
  - unfold handleConnection in E. unfold readMessage in E at 1. rewrite Er in E.
    destruct m as [m|m|m|m|m|m|m|m|m|m|m|m|m|m|m|m]; try done; cbn in E; destruct st as [n nt].
    + injection E as <- <- <-. by apply Node_HandleHeartbeat_ready.
    + pose proof (Node_HandleVoteRequest_ready n nt m Hr) as H. cbn [fst snd] in E.
      destruct (Node_HandleVoteRequest n m) as [[granted t] n']. by injection E as <- <- <-.
  - eapply same_election_ready; [eapply traffic_election; [|exact E]|done]. rewrite Er. by intros ?? [= <- <-].
Qed.

(** ** Connection after connection *)

Definition input_of (x : accepted) : gobytes := match x with Accepted rd _ => rd_data rd | AcceptError _ => [] end.
Definition is_accepted (x : accepted) : bool := match x with Accepted _ _ => true | AcceptError _ => false end.

Lemma accept_loop_safe conns : ∀ c (s : TCPServer (P:=P) (W:=W)),
  store_ok (db (snode s).1) → leader_ready (snode s) → Forall (λ x, bytes_ok (input_of x)) conns →
  ∃ s' served, accept_loop ord ford conns c s = Some (s', served) ∧ store_ok (db (snode s').1) ∧
    leader_ready (snode s') ∧ Forall (λ x, ∃ ms : list Msg, x.2 = concat (frame_bytes <$> ms)) served ∧
    (Forall (λ x, ¬ poisoned (input_of x)) conns →
       length served = length (filter (λ x, is_accepted x = true) conns) ∧ Forall (λ x, x.1 ≠ Crashed) served).
Proof.
  induction conns as [|[e|[data e] clock] conns IH]; intros c s Hok Hr Hb; cbn [accept_loop].
  - exists s, []. by split_and!.
  - apply Forall_cons in Hb as [_ Hb]. destruct (IH c s Hok Hr Hb) as (s' & served & E & ? & ? & ? & Hp).
    exists s', served. split_and!; [done..|]. intros [_ Hnp]%Forall_cons. exact (Hp Hnp).
  - apply Forall_cons in Hb as [Hd Hb]. cbn [input_of rd_data] in Hd |- *.
    pose proof (handleConnection_safe (maxPayloadBytes s) clock c data e (snode s) Hd Hok) as H. unfold ends_well in H.
    destruct (handleConnection _ _ _ _ _ _ _ _) as [[[en st] out]|] eqn:E; [|done]. destruct H as (Hok' & [ms ->] & Hc).
    apply handleConnection_ready in E; [|done].
    assert (¬ poisoned data → en ≠ Crashed) as Hen.
    { intros Hp Hx. destruct (Hc Hx) as [?|[Hl Hn]]; [done|]. specialize (Hr Hl). unfold has_leader in Hr. by rewrite Hn in Hr. }
    destruct (IH (S c) (mkTCPServer st (maxPayloadBytes s)) Hok' E Hb) as (s' & served & E' & ? & ? & Hfr & Hp).
    destruct en.
    3: { eexists _, [(Crashed, _)]. split_and!; [done|done|done|by apply Forall_singleton; exists ms|].
         intros [Hnp _]%Forall_cons. by destruct (Hen Hnp). }
    all: rewrite E'; eexists s', ((_, _) :: served); split_and!; [done..|apply Forall_cons; by split; [exists ms|]|];
      intros [H1 H2]%Forall_cons; destruct (Hp H2) as [El Hn]; rewrite filter_cons_True by done; cbn [length];
      split; [by rewrite El|apply Forall_cons; split; [by apply Hen|done]].
Qed.
End safe.


(** A request, a frame that does not decode, and half a header. *)
Definition ex_input : gobytes :=
  frame_bytes (client_msg (CSet (str "k") [7] 0)) ++ [0;0;0;2;99;99] ++ [0;0].

(** That, an accept error, and a heartbeat. *)
Definition ex_conns : list accepted :=
  [Accepted (Reader ex_input io_EOF) (λ _, 5); AcceptError (ErrorString (str "too many open files"));
   Accepted (Reader (frame_bytes (MHeartbeat (mkHeartbeat 3 (str "b:1")))) io_EOF) (λ _, 6)].

Definition ex_tcp : TCPServer (P:=AnyPolicy) (W:=Sys) := NewTCPServer ex_server 1024.

