(* ===== verification/ServerConcurrency.v ===== *)
(** * The server with all its goroutines (server/tcp.go, engine/, cluster/node.go)

    [Start] runs each connection in a goroutine of its own.  Here the goroutines of
    [handleConnection] move one at a time, from one access to shared state to the next:
    a frame is read, a handler's call on the node begins, goes through its steps in the
    store and its broadcast (Concurrency.v, NodeConcurrency.v) and returns, an answer is
    written; the handlers of the election change its state under its lock and make their
    calls outside.  The goroutine of the election itself (Raft.v) may change the state
    and the role of the node at any time.

    All connections are there from the start: one that is accepted later is one whose
    goroutine has not moved yet, and a frame that has not arrived has not been read. *)

From S2P Require Import Prelude GoLang Protocol KvMessages ClusterMessages ClientMessages Messages.
From S2P Require Import WalRecord Os WalWriter Shard Eviction Store Recovery StoreSpec.
From S2P Require Import Raft Replication ReplicationProps Logs StoreProps Engine Server ServerProps.
From S2P Require Import Concurrency ConcurrencyProps NodeConcurrency.

(** ** A handler around its call on the node *)

(** The call that the handler of [msg] makes. *)
Definition request_of (msg : Msg) : option nrequest :=
  match msg with
  | MGetRequest req => Some (RGet (GetRequest_Key req))
  | MSetRequest req => Some (RSet (SetRequest_Key req) (SetRequest_Value req) (i64 (SetRequest_TTL req)))
  | MDeleteRequest req => Some (RDelete (DeleteRequest_Key req))
  | _ => None
  end.

(** A store whose call has returned [r]. *)
Definition Answering (r : result) : EngineStore unit := {|
  es_Set _ _ _ _ _ := (match r with RUnit res => res | _ => Panic end, ());
  es_Get _ _ _ := (match r with RValue res => res | _ => Panic end, ());
  es_Delete _ _ _ := (match r with RUnit res => res | _ => Panic end, ());
|}.

(** What the handler makes of it. *)
Definition reply (msg : Msg) (r : result) : go Msg := (Dispatch (ES:=Answering r) msg 0 ()).1.

(** The call on a store, as a result. *)
Definition engine_call {D} {ES : EngineStore D} (r : nrequest) (now : Z) (db : D) : result * D :=
  match r with
  | RSet k v ttl => let '(res, db) := es_Set k v ttl now db in (RUnit res, db)
  | RGet k => let '(res, db) := es_Get k now db in (RValue res, db)
  | RDelete k => let '(res, db) := es_Delete k now db in (RUnit res, db)
  end.

(** [Dispatch] is this one call and the reply, on any store. *)
Lemma Dispatch_calls {D} {ES : EngineStore D} msg now (db : D) :
  Dispatch msg now db =
  match request_of msg with
  | Some r => let '(res, db) := engine_call r now db in (reply msg res, db)
  | None => (Err (no_handler (OpCode msg)), db)
  end.
Proof.
  rewrite Dispatch_spec. destruct msg; try done; cbn [request_of engine_call handleGet handleSet handleDelete].
  - destruct (es_Get _ _ _) as [res db']. unfold reply. rewrite Dispatch_spec. cbn. destruct res; [done|by case_bool_decide|done].
  - destruct (es_Set _ _ _ _ _) as [res db']. unfold reply. rewrite Dispatch_spec. cbn. by destruct res.
  - destruct (es_Delete _ _ _) as [res db']. unfold reply. rewrite Dispatch_spec. cbn. destruct res; [done|by case_bool_decide|done].
Qed.

(** [GetTopology] from what it has read. *)
Definition topology (leader : addr) (ps : list addr) : TopologyResponse :=
  mkTopologyResponse leader
    ((λ a, mkNodeInfo a (if bool_decide (a = leader) then TopologyRoleLeader else TopologyRoleFollower) a) <$> ps).

Lemma GetTopology_reads {P W} (n : Node P W) : GetTopology n = topology (GetLeaderAddr (nraft n)) (GetPeers (nraft n)).
Proof. done. Qed.

(** ** Goroutines *)

Inductive gphase :=
  | GFirst                                          (* before the first [readMessage] *)
  | GLoop                                           (* before the next one of the client loop *)
  | GDispatch (msg : Msg)                           (* in [dispatchClient] *)
  | GTopology (leader : addr)                       (* after [GetLeaderAddr] *)
  | GCalled (msg : Msg)                             (* in the handler's call on the node *)
  | GJoin (join : ReplicationJoin)                  (* in [handleReplicationPeer], before [IsLeader] *)
  | GJoinLeader (join : ReplicationJoin)            (* before [Leader()] *)
  | GJoinAdd (join : ReplicationJoin) (l : nat)     (* before [l.mu.Lock] in [AddFollower] *)
  | GHeartbeat (hb : Heartbeat)                     (* before [r.mu.Lock] in [HandleHeartbeat] *)
  | GVote (req : VoteRequest)
  | GCallbacks (acts : list Raft.action) (resp : option Msg)   (* outside the lock; an ack is made at the end *)
  | GEnded (e : ending).

Record goroutine := mkG { g_rd : reader; g_out : gobytes; g_at : gphase }.

Section server.
Context {P : Type} {PP : Policy P} {W : Type} {LW : Log W}.
Context (ord : nat → order) (ford : table_order) (defaultTTL maxPayloadBytes : Z).

(** [s_crashed]: a goroutine has panicked, which ends the process. *)
Record sconf := mkSConf { s_node : nconf P W; s_raft : RaftState; s_conns : gmap nat goroutine; s_crashed : bool }.

Definition sgoto (s : sconf) (c : nat) (g : goroutine) : sconf :=
  mkSConf (s_node s) (s_raft s) (<[c := g]> (s_conns s)) (s_crashed s).
Definition with_snode (s : sconf) (n : nconf P W) : sconf := mkSConf n (s_raft s) (s_conns s) (s_crashed s).
Definition with_sraft (s : sconf) (r : RaftState) : sconf := mkSConf (s_node s) r (s_conns s) (s_crashed s).

Definition crash (s : sconf) (c : nat) (g : goroutine) : sconf :=
  mkSConf (s_node s) (s_raft s) (<[c := mkG (g_rd g) (g_out g) (GEnded Crashed)]> (s_conns s)) true.

Definition gmove (g : goroutine) (p : gphase) : goroutine := mkG (g_rd g) (g_out g) p.
Definition gwrite (g : goroutine) (msg : Msg) (p : gphase) : goroutine := mkG (g_rd g) (writeMessage (g_out g) msg) p.

(** [readMessage], and where the message leads. *)
Definition g_read (s : sconf) (c : nat) (g : goroutine) (route : Msg → option gphase) : sconf :=
  match readMessage maxPayloadBytes (g_rd g) (g_out g) with
  | (Ok msg, rd, out) =>
      match route msg with
      | Some p => sgoto s c (mkG rd out p)
      | None => crash s c (mkG rd out (g_at g))
      end
  | (Err _, rd, out) => sgoto s c (mkG rd out (GEnded Closed))
  | (Panic, rd, out) => crash s c (mkG rd out (g_at g))
  end.

(** The switch of [handleConnection]; [None]: a type assertion fails. *)
Definition route_first (msg : Msg) : option gphase :=
  let op := OpCode msg in
  if op =? OpReplicationJoin then match msg with MReplicationJoin join => Some (GJoin join) | _ => None end
  else if op =? OpHeartbeat then match msg with MHeartbeat hb => Some (GHeartbeat hb) | _ => None end
  else if op =? OpVoteRequest then match msg with MVoteRequest req => Some (GVote req) | _ => None end
  else Some (GDispatch msg).

Definition no_handler_msg (msg : Msg) : Msg :=
  MErrorMessage (mkErrorMessage ErrCodeInternal (Error (no_handler (OpCode msg)))).

(** One step of the goroutine of connection [c]; while a call on the node is under way
    the node moves instead. *)
Definition run_conn (s : sconf) (c : nat) (g : goroutine) : option sconf :=
  match g_at g with
  | GFirst => Some (g_read s c g route_first)
  | GLoop => Some (g_read s c g (λ msg, Some (GDispatch msg)))
  | GDispatch msg =>
      if OpCode msg =? OpTopologyRequest then Some (sgoto s c (gmove g (GTopology (GetLeaderAddr (s_raft s)))))
      else match request_of msg with
           | Some r => n ← nstep ord ford defaultTTL (s_node s) (KInvoke c r); Some (sgoto (with_snode s n) c (gmove g (GCalled msg)))
           | None => Some (sgoto s c (gwrite g (no_handler_msg msg) GLoop))
           end
  | GTopology leader => Some (sgoto s c (gwrite g (MTopologyResponse (topology leader (GetPeers (s_raft s)))) GLoop))
  | GCalled msg =>
      match k_calls (s_node s) !! c with
      | Some (NDone r) =>
          n ← nstep ord ford defaultTTL (s_node s) (KReturn c);
          let s := with_snode s n in
          Some (match reply msg r with
                | Ok resp => sgoto s c (gwrite g resp GLoop)
                | Err err => sgoto s c (gwrite g (MErrorMessage (mkErrorMessage ErrCodeInternal (Error err))) GLoop)
                | Panic => crash s c g
                end)
      | _ => None
      end
  | GJoin join =>
      Some (sgoto s c (if is_leader (s_raft s) then gmove g (GJoinLeader join)
                       else gwrite g (MErrorMessage (mkErrorMessage ErrCodeNotLeader (str "not the leader"))) (GEnded Closed)))
  | GJoinLeader join =>
      Some (match k_leader (s_node s) with
            | Some l => sgoto s c (gmove g (GJoinAdd join l))
            | None => crash s c g              (* [Leader()] is nil *)
            end)
  | GJoinAdd join i =>
      l ← k_leaders (s_node s) !! i;
      Some (sgoto (with_snode s (with_leaders (s_node s) i (AddFollower l (ReplicationJoin_NodeAddr join) c) (k_net (s_node s))))
              c (gmove g (GEnded Kept)))
  | GHeartbeat hb =>
      let '(r, acts) := HandleHeartbeat (s_raft s) (Heartbeat_Term hb) (Heartbeat_LeaderID hb) in
      Some (sgoto (with_sraft s r) c (gmove g (GCallbacks acts None)))
  | GVote req =>
      let '(r, (granted, term), acts) := HandleVoteRequest (s_raft s) (VoteRequest_Term req) (VoteRequest_CandidateID req) in
      Some (sgoto (with_sraft s r) c (gmove g (GCallbacks acts (Some (MVoteResponse (mkVoteResponse term granted))))))
  | GCallbacks (act :: acts) resp =>
      let s := sgoto s c (gmove g (GCallbacks acts resp)) in
      match act with
      | OnFollower => n ← nstep ord ford defaultTTL (s_node s) KDeposed; Some (with_snode s n)
      | Signal => Some (with_sraft s (set_heartbeat (s_raft s) true))
      | Send _ => Some s
      end
  | GCallbacks [] resp =>
      Some (sgoto s c (gwrite g (default (MHeartbeatAck (mkHeartbeatAck (GetTerm (s_raft s)) 0)) resp) (GEnded Closed)))
  | GEnded _ => None
  end.

(** What the other goroutines do to the node: the steps of the calls, the sweeper, the
    clock, the flusher, the readers of acks, connections that break, [onLeader] and
    [onFollower]. *)
Definition node_action (a : naction) : bool :=
  match a with KInvoke _ _ | KReturn _ | KJoin _ _ => false | _ => true end.

Inductive saction :=
  | SRun (c : nat)
  | SNode (a : naction)
  | SRaft (r : RaftState).     (* the election's own goroutine *)

Definition sstep (s : sconf) (a : saction) : option sconf :=
  if s_crashed s then None else
  match a with
  | SRun c => g ← s_conns s !! c; run_conn s c g
  | SNode a => if node_action a then n ← nstep ord ford defaultTTL (s_node s) a; Some (with_snode s n) else None
  | SRaft r => Some (with_sraft s r)
  end.

Fixpoint srun (s : sconf) (acts : list saction) : option sconf :=
  match acts with
  | [] => Some s
  | a :: acts => s ← sstep s a; srun s acts
  end.

(** A node that has just started, with a leader object or without, and the
    connections with what their clients will send. *)
Definition sstart (kv : KVStore P W) (now : Z) (leader : option Leader) (r : RaftState) (nt : net) (conns : gmap nat reader) : sconf :=
  mkSConf (mkNConf (start kv now) ∅ (match leader with Some _ => Some 0%nat | None => None end)
             (match leader with Some l => [l] | None => [] end) nt)
    r ((λ rd, mkG rd [] GFirst) <$> conns) false.
End server.
Arguments sconf : clear implicits.

(** ** What a run of the node does to the store *)

Section node_runs.
Context {P : Type} {PP : Policy P} {W : Type} {LW : Log W}.
Context (ord : nat → order) (ford : table_order) (defaultTTL : Z).
Implicit Types (c : nconf P W).

(** A request on its way from the store to its end. *)
Definition moves (p p' : nphase) : Prop :=
  match p with
  | NTake w => p' = NDone (RUnit (Ok ())) ∨ ∃ l, p' = NNumber l w
  | NNumber l w => ∃ i, p' = NSend l i w
  | NSend _ _ _ => p' = NDone (RUnit (Ok ()))
  | _ => False
  end.

(** The events of a step of the node, and what becomes of the requests. *)
Definition node_events (c : nconf P W) (a : naction) (c' : nconf P W) (es : list event) : Prop :=
  match a with
  | KInvoke t r =>
      let w := request_call defaultTTL (c_now (k_base c)) r in
      es = [EInvoke t w] ∧ k_calls c !! t = None ∧ k_calls c' = <[t := NCalling w]> (k_calls c)
  | KStored t =>
      ∃ w res, es = [EReturn t res] ∧ k_calls c !! t = Some (NCalling w) ∧ k_calls c' = <[t := after_store w res]> (k_calls c)
  | KRun t => es = [] ∧ ∃ p p', k_calls c !! t = Some p ∧ moves p p' ∧ k_calls c' = <[t := p']> (k_calls c)
  | KReturn t => es = [] ∧ ∃ r, k_calls c !! t = Some (NDone r) ∧ k_calls c' = delete t (k_calls c)
  | KStore _ => (es = [] ∨ ∃ now, es = [ETick now]) ∧ k_calls c' = k_calls c
  | _ => es = [] ∧ k_calls c' = k_calls c
  end.

Lemma store_step_events b act es b' : (∀ t w, act ≠ Invoke t w) → (∀ t, act ≠ Return t) →
  step (P:=P) (W:=W) ord b act = Some (es, b') → es = [] ∨ ∃ now, es = [ETick now].
Proof.
  intros H1 H2. destruct act as [t w|t|t|now| |]; simpl; try (by edestruct H1); try (by edestruct H2).
  - destruct (c_calls b !! t); [|done]. simpl. destruct (run_call _ _ _ _); [|done]. intros [= <- _]. by left.
  - destruct (_ <=? _); [|done]. intros [= <- _]. eauto.
  - destruct (c_sweeper b); try done. intros [= <- _]. by left.
  - destruct (run_sweeper _ _); [|done]. intros [= <- _]. by left.
Qed.

Lemma nstep_events c a c' : nstep ord ford defaultTTL c a = Some c' →
  ∃ acts es, run ord (k_base c) acts = Some (es, k_base c') ∧ node_events c a c' es.
Proof.
  assert (∀ act es b, step ord (k_base c) act = Some (es, b) → run ord (k_base c) [act] = Some (es, b)) as Hone.
  { intros act es b E. cbn [run]. rewrite E. simpl. by rewrite app_nil_r. }
  assert (∀ x, x = k_base c → ∃ acts, run ord (k_base c) acts = Some ([], x)) as Hnone by (intros x ->; by exists []).
  destruct a as [t r|act|t|t|t|a cn|i a|cn| |]; cbn [nstep node_events].
  - destruct (k_calls c !! t) eqn:Et; [done|]. destruct (step ord (k_base c) _) as [[es b]|] eqn:Es; [|done].
    intros [= <-]. exists [Invoke t (request_call defaultTTL (c_now (k_base c)) r)], es.
    split; [by apply Hone|]. simpl in Es. destruct (c_calls _ !! t); [done|]. injection Es as <- _. done.
  - intros E. assert (∃ es b, step ord (k_base c) act = Some (es, b) ∧ c' = with_base c b ∧
      (∀ t w, act ≠ Invoke t w) ∧ (∀ t, act ≠ Return t)) as (es & b & Es & -> & H1 & H2).
    { destruct act; try done; destruct (step ord (k_base c) _) as [[es b]|] eqn:Es; simpl in E; simplify_eq; eauto 10. }
    exists [act], es. split; [by apply Hone|]. split; [by eapply store_step_events|done].
  - destruct (k_calls c !! t) as [[w| | | |]|] eqn:Et; try done. destruct (c_calls _ !! t) as [[]|] eqn:Ec; try done.
    destruct (step ord (k_base c) (Return t)) as [[es b]|] eqn:Es; [|done]. intros [= <-].
    exists [Return t], es. split; [by apply Hone|]. simpl in Es. rewrite Ec in Es. injection Es as <- _. eauto.
  - destruct (k_calls c !! t) as [p|] eqn:Et; [|done]. simpl. intros E.
    assert (k_base c' = k_base c ∧ ∃ p', moves p p' ∧ k_calls c' = <[t := p']> (k_calls c)) as (Hb & p' & Hm & Hc).
    { destruct p as [w|w|l w|l i w|r]; try done; simpl in E.
      - injection E as <-. split; [done|]. exists (match k_leader c with Some l => NNumber l w | None => NDone (RUnit (Ok ())) end).
        destruct (k_leader c); simpl; eauto.
      - destruct (k_leaders c !! l); [|done]. injection E as <-. simpl; eauto.
      - destruct (k_leaders c !! l); [|done]. simpl in E. destruct (sync_record i w); [|done]. simpl in E.
        destruct (broadcast _ _ _ _). injection E as <-. simpl; eauto. }
    destruct (Hnone _ Hb) as [acts Hacts]. exists acts, []. eauto 10.
  - destruct (k_calls c !! t) as [[]|] eqn:Et; try done. intros [= <-]. destruct (Hnone _ eq_refl) as [acts Hacts].
    exists acts, []. simpl. eauto 10.
  - destruct (k_leader c) as [l|]; [|done]. simpl. destruct (k_leaders c !! l); [|done]. intros [= <-].
    destruct (Hnone _ eq_refl) as [acts Hacts]. exists acts, []. done.
  - destruct (k_leaders c !! i); [|done]. simpl. destruct (removeFollower _ _ _). intros [= <-].
    destruct (Hnone _ eq_refl) as [acts Hacts]. exists acts, []. done.
  - intros [= <-]. destruct (Hnone _ eq_refl) as [acts Hacts]. exists acts, []. done.
  - intros [= <-]. destruct (Hnone _ eq_refl) as [acts Hacts]. exists acts, []. done.
  - intros [= <-]. destruct (Hnone _ eq_refl) as [acts Hacts]. exists acts, []. done.
Qed.
End node_runs.

(** ** Results that fit their call *)

Definition event_tid (e : event) : option tid :=
  match e with EInvoke t _ | EReturn t _ => Some t | ETick _ => None end.

(** The events of goroutine [t]. *)
Definition on (t : tid) (es : list event) : list event := filter (λ e, event_tid e = Some t) es.

Definition result_fits (w : call) (r : result) : Prop :=
  match w with
  | CGet _ => ∃ v, r = RValue v ∧ v ≠ Panic
  | CSet _ _ _ | CDelete _ => ∃ v, r = RUnit v ∧ v ≠ Panic
  end.

Definition status_fits (w : call) (s : status) : Prop :=
  match s with
  | Called c => c = w
  | Reading _ => ∃ k, w = CGet k
  | Answered r => result_fits w r
  end.

Definition fits (t : tid) (w : call) (a : astate) : Prop := ∃ s, a_calls a !! t = Some s ∧ status_fits w s.

Lemma read_record_no_panic now r : read_record now r ≠ Panic.
Proof. unfold read_record. destruct r; [|done]. by destruct (_ <? _). Qed.

Lemma astep_fits limited t w a es a' : fits t w a → astep limited a es a' →
  (on t es = [] ∧ fits t w a') ∨ ∃ r, es = [EReturn t r] ∧ result_fits w r.
Proof.
  intros (s & Hs & Hf) Hstep.
  assert (∀ t' s' m, a_calls a !! t' = Some s' → (t' = t → status_fits w s') →
    ∀ s'', (t' = t → status_fits w s'') → fits t w (a_set a t' s'' m)) as Hset.
  { intros t' s' m _ _ s'' Hs''. unfold fits. simpl. destruct (decide (t' = t)) as [->|Hne].
    - rewrite lookup_insert_eq. eauto.
    - rewrite lookup_insert_ne by done. eauto. }
  assert (∀ t' s', a_calls a !! t' = Some s' → t' = t → status_fits w s') as Hme by (intros t' s' E ->; congruence).
  destruct Hstep as [a t' c0 Hn|a t' r Hr|a now Hnow|a t' k v exp Hc|a t' k v exp Hl Hc|a t' k Hc|a t' r Hc|a t' k Hc|a t' c0 e Hc Hg|a m Hl Hm|a k r Hk He];
    try (left; split; [done|]; eapply Hset; [done|by intros; eapply Hme|]; intros ->; pose proof (Hme _ _ Hc eq_refl) as Hx; simpl in Hx; subst; simpl; eauto).
  - left. assert (t' ≠ t) as Hne by congruence. split; [by unfold on; rewrite filter_cons_False by (simpl; congruence)|].
    exists s. simpl. by rewrite lookup_insert_ne.
  - destruct (decide (t' = t)) as [->|Hne].
    + right. exists r. split; [done|]. rewrite Hs in Hr. injection Hr as ->. done.
    + left. split; [by unfold on; rewrite filter_cons_False by (simpl; congruence)|]. exists s. simpl. by rewrite lookup_delete_ne.
  - left. split; [done|]. by exists s.
  - destruct Hx as [k ->]. exists (read_record (a_now a) r). split; [done|apply read_record_no_panic].
  - eexists. split; [done|]. by destruct (a_map a !! k).
  - destruct w; simpl; eauto. by edestruct Hg.
  - left. split; [done|]. by exists s.
  - left. split; [done|]. by exists s.
Qed.

Lemma asteps_fits limited t w a es a' : fits t w a → asteps limited a es a' →
  (on t es = [] → fits t w a') ∧ (∀ r, es = [EReturn t r] → result_fits w r).
Proof.
  intros Hf Hs. induction Hs as [a|a es1 a1 es2 a2 H1 H2 IH]; [done|].
  destruct (astep_fits _ _ _ _ _ _ Hf H1) as [[Hn Hf1]|(r & -> & Hr)].
  - destruct (IH Hf1) as [IH1 IH2]. unfold on in *. rewrite filter_app, Hn. split; [done|].
    intros r. destruct es1 as [|e [|e' es1]]; [apply IH2| |done].
    intros [= -> ->]. rewrite filter_cons_True in Hn by done. done.
  - unfold on. rewrite filter_app, filter_cons_True by done. split; [done|]. intros r' [= -> _]. done.
Qed.

(** A call that has just begun. *)
Lemma asteps_invoked limited t w a a' : asteps limited a [EInvoke t w] a' → fits t w a'.
Proof.
  intros H. destruct (asteps_event _ _ _ _ H) as (a1 & a2 & _ & Hst & Ha2).
  inversion Hst as [a0 t' c0 Hn| | | | | | | | | |]; subst.
  assert (fits t w (a_set a1 t (Called w) (a_map a1))) as Hf
    by (exists (Called w); split; [apply lookup_insert_eq|done]).
  by apply (asteps_fits _ _ _ _ _ _ Hf Ha2).
Qed.

(** ** The conversation on a connection *)

(** A message of the client, the call it led to with its result, and the answer. *)
Record exchange := mkExchange { x_msg : Msg; x_call : option (call * result); x_resp : Msg }.

Definition x_events (c : nat) (x : exchange) : list event :=
  match x_call x with Some (w, r) => [EInvoke c w; EReturn c r] | None => [] end.

Definition answered (ttl : Z) (x : exchange) : Prop :=
  match request_of (x_msg x), x_call x with
  | Some r, Some (w, res) => (∃ now, w = request_call ttl now r) ∧ reply (x_msg x) res = Ok (x_resp x)
  | None, None =>
      if OpCode (x_msg x) =? OpTopologyRequest then ∃ leader ps, x_resp x = MTopologyResponse (topology leader ps)
      else x_resp x = no_handler_msg (x_msg x)
  | _, _ => False
  end.

(** The messages of a client: they can be sent, and the first is not one that only nodes
    send. *)
Definition client_first (msg : Msg) : bool :=
  negb ((OpCode msg =? OpReplicationJoin) || (OpCode msg =? OpHeartbeat) || (OpCode msg =? OpVoteRequest)).

Definition client_stream (maxLen : Z) (ms : list Msg) : Prop :=
  Forall (Messages.sendable maxLen) ms ∧ match ms with m :: _ => client_first m = true | [] => True end.

Definition stream (ms : list Msg) : reader := Reader (concat (frame_bytes <$> ms)) io_EOF.

(** The call [w] is in the store, or it has returned [res] and its request is on its way. *)
Definition waiting (c : nat) (w : call) (p : option nphase) (pend : list event) : Prop :=
  (p = Some (NCalling w) ∧ pend = [EInvoke c w]) ∨
  ∃ q res, p = Some q ∧ pend = [EInvoke c w; EReturn c res] ∧ result_fits w res ∧
    (q = NDone res ∨ res = RUnit (Ok ()) ∧ (q = NTake w ∨ (∃ l, q = NNumber l w) ∨ ∃ l i, q = NSend l i w)).

(** Where the goroutine stands, with [todo] the messages that are not yet answered. *)
Definition stage (ttl : Z) (c : nat) (xs : list exchange) (todo : list Msg) (g : goroutine) (p : option nphase)
    (pend : list event) : Prop :=
  match g_at g with
  | GFirst => xs = [] ∧ g_rd g = stream todo ∧ p = None ∧ pend = []
  | GLoop => g_rd g = stream todo ∧ p = None ∧ pend = []
  | GDispatch m => ∃ rest, todo = m :: rest ∧ g_rd g = stream rest ∧ p = None ∧ pend = []
  | GTopology _ => ∃ m rest, todo = m :: rest ∧ OpCode m = OpTopologyRequest ∧ g_rd g = stream rest ∧ p = None ∧ pend = []
  | GCalled m => ∃ rest r now, todo = m :: rest ∧ g_rd g = stream rest ∧ request_of m = Some r ∧
                   waiting c (request_call ttl now r) p pend
  | GEnded Closed => todo = [] ∧ p = None ∧ pend = []
  | _ => False
  end.

Definition talk (ttl : Z) (c : nat) (ms : list Msg) (g : goroutine) (p : option nphase) (h : list event) : Prop :=
  ∃ xs todo pend, ms = (x_msg <$> xs) ++ todo ∧ Forall (answered ttl) xs ∧
    g_out g = concat ((λ x, frame_bytes (x_resp x)) <$> xs) ∧ h = concat (x_events c <$> xs) ++ pend ∧
    stage ttl c xs todo g p pend.

Lemma readMessage_stream maxLen ms out : Forall (Messages.sendable maxLen) ms →
  readMessage maxLen (stream ms) out =
  match ms with m :: ms => (Ok m, stream ms, out) | [] => (Err io_EOF, stream [], out) end.
Proof.
  destruct ms as [|m ms]; intros Hms; [apply readMessage_eof|]. apply Forall_cons in Hms as [(Hwf & Hlen & Hmax) _].
  unfold stream, readMessage. cbn [fmap list_fmap concat].
  rewrite ReadFrame_frame; [done|apply registry_is_ok|apply registry_complete|done..].
Qed.

(** An exchange is over. *)
Lemma talk_answer ttl c ms xs m rest g pend x :
  ms = (x_msg <$> xs) ++ m :: rest → Forall (answered ttl) xs →
  g_out g = concat ((λ x, frame_bytes (x_resp x)) <$> xs) → g_rd g = stream rest →
  x_msg x = m → answered ttl x → x_events c x = pend →
  talk ttl c ms (gwrite g (x_resp x) GLoop) None (concat (x_events c <$> xs) ++ pend).
Proof.
  intros -> Hxs Hout Hrd Hm Hx Hp. exists (xs ++ [x]), rest, []. unfold gwrite. cbn [g_out g_rd g_at stage].
  rewrite writeMessage_frame, Hout, !fmap_app, !concat_app, Forall_app, Forall_singleton. cbn [fmap list_fmap concat].
  rewrite !app_nil_r, Hp, Hm, <-app_assoc. done.
Qed.

Lemma reply_fits msg ttl now r res : request_of msg = Some r → result_fits (request_call ttl now r) res →
  ∃ resp, reply msg res = Ok resp.
Proof.
  unfold reply. rewrite Dispatch_spec. destruct msg; try done; intros [= <-] (v & -> & Hv); cbn.
  - destruct v; [eauto| |done]. case_bool_decide; eauto.
  - destruct v; [eauto|eauto|done].
  - destruct v; [eauto| |done]. case_bool_decide; eauto.
Qed.

Lemma talk_waits ttl c ms g q p' h e :
  talk ttl c ms g (Some q) h →
  (∀ w pend, waiting c w (Some q) pend → waiting c w (Some p') (pend ++ e)) →
  talk ttl c ms g (Some p') (h ++ e).
Proof.
  intros (xs & todo & pend & -> & Hxs & Hout & -> & Hst) Hw.
  assert (stage ttl c xs todo g (Some p') (pend ++ e)).
  { unfold stage in *. destruct (g_at g) as [| |m|l|m| | | | | | |[]]; try naive_solver. }
  exists xs, todo, (pend ++ e). by rewrite app_assoc.
Qed.

Lemma on_none t es : (∀ e, e ∈ es → event_tid e ≠ Some t) → on t es = [].
Proof. intros H. unfold on. by apply filter_none_in. Qed.

(** What a step of the node means for one request. *)
Inductive change (t : tid) (es : list event) : option nphase → option nphase → Prop :=
  | ch_same p : on t es = [] → change t es p p
  | ch_invoke w : es = [EInvoke t w] → change t es None (Some (NCalling w))
  | ch_stored w res : es = [EReturn t res] → change t es (Some (NCalling w)) (Some (after_store w res))
  | ch_moves p p' : on t es = [] → moves p p' → change t es (Some p) (Some p')
  | ch_gone r : on t es = [] → change t es (Some (NDone r)) None.

Lemma moves_done p p' w : moves p p' → p ≠ NCalling w ∧ p' ≠ NCalling w.
Proof.
  destruct p as [w'|w'|l w'|l i w'|r]; simpl; try done; [intros [->|[l ->]]|intros [i ->]|intros ->]; done.
Qed.

Lemma node_change {P W} ttl (n : nconf P W) act n' es t :
  node_events ttl n act n' es → change t es (k_calls n !! t) (k_calls n' !! t).
Proof.
  assert (∀ e, event_tid e ≠ Some t → on t [e] = []) as Hother by (intros e He; unfold on; by rewrite filter_cons_False).
  destruct act as [t' r|act|t'|t'|t'|a0 cn|i a0|cn| |]; cbn [node_events].
  - intros (-> & Hk & ->). destruct (decide (t' = t)) as [->|Hne].
    + rewrite lookup_insert_eq, Hk. by constructor.
    + rewrite lookup_insert_ne by done. constructor. apply Hother. simpl. congruence.
  - intros [Hes ->]. constructor. destruct Hes as [->|[now ->]]; [done|by apply Hother].
  - intros (w & res & -> & Hk & ->). destruct (decide (t' = t)) as [->|Hne].
    + rewrite lookup_insert_eq, Hk. by constructor.
    + rewrite lookup_insert_ne by done. constructor. apply Hother. simpl. congruence.
  - intros (-> & p & p' & Hk & Hm & ->). destruct (decide (t' = t)) as [->|Hne].
    + rewrite lookup_insert_eq, Hk. by constructor.
    + rewrite lookup_insert_ne by done. by constructor.
  - intros (-> & r & Hk & ->). destruct (decide (t' = t)) as [->|Hne].
    + rewrite lookup_delete_eq, Hk. by constructor.
    + rewrite lookup_delete_ne by done. by constructor.
  - intros [-> ->]. by constructor.
  - intros [-> ->]. by constructor.
  - intros [-> ->]. by constructor.
  - intros [-> ->]. by constructor.
  - intros [-> ->]. by constructor.
Qed.

Section node_talk.
Context {P : Type} {PP : Policy P} {W : Type} {LW : Log W} (ttl : Z).
Implicit Types (n : nconf P W).

Lemma waiting_stored c w q res pend : waiting c w (Some (NCalling q)) pend → result_fits q res →
  waiting c w (Some (after_store q res)) (pend ++ [EReturn c res]).
Proof.
  intros [[[= ->] ->]|(q' & res' & [= <-] & _ & _ & [?|[_ [?|[[? ?]|(? & ? & ?)]]]])] Hf; try done.
  right. exists (after_store w res), res. split_and!; [done|done|done|].
  destruct w as [k v exp|k|k]; destruct Hf as (r & -> & Hr); simpl; try (by left); destruct r as [[]|e|]; auto.
Qed.

Lemma waiting_moves c w q q' pend : waiting c w (Some q) pend → moves q q' → waiting c w (Some q') (pend ++ []).
Proof.
  rewrite app_nil_r. intros [[[= ->] ->]|(q0 & res & [= <-] & -> & Hf & Hq)] Hm; [done|].
  right. exists q', res. split_and!; [done|done|done|].
  destruct Hq as [->|[-> [->|[[l ->]|(l & i & ->)]]]]; simpl in Hm; [done|..]; destruct_or?; destruct_and?; naive_solver.
Qed.

(** A step of the node that is not one of the goroutine: the conversation goes on. *)
Lemma talk_change limited c ms g p p' es a a' h :
  change c es p p' → (∀ w, es ≠ [EInvoke c w]) → (∀ r, p = Some (NDone r) → p' = p) → asteps limited a es a' →
  (∀ w, p = Some (NCalling w) → fits c w a) → talk ttl c ms g p h → talk ttl c ms g p' (h ++ on c es).
Proof.
  intros Hch Hinv Hdone Has Hfits Ht. destruct Hch as [p Hn|w Hes|w res Hes|p p' Hn Hm|r Hn].
  - by rewrite Hn, app_nil_r.
  - by edestruct Hinv.
  - subst es. pose proof (proj2 (asteps_fits _ _ _ _ _ _ (Hfits _ eq_refl) Has) res eq_refl) as Hf.
    unfold on. rewrite filter_cons_True, filter_nil by done.
    eapply talk_waits; [done|]. intros w' pend Hw. by apply waiting_stored.
  - rewrite Hn. eapply talk_waits; [done|]. intros w' pend Hw. by eapply waiting_moves.
  - by specialize (Hdone r eq_refl).
Qed.
End node_talk.

(** ** The invariant of the server *)

Lemma asteps_idle limited t a es a' : asteps limited a es a' → a_calls a !! t = None → (∀ w, EInvoke t w ∉ es) →
  a_calls a' !! t = None.
Proof.
  induction 1 as [|a es1 a1 es2 a2 H1 _ IH]; intros Hn He; [done|].
  assert (∀ t' s m, is_Some (a_calls a !! t') → a_calls (a_set a t' s m) !! t = None) as Hset.
  { intros t' s m [x Hx]. simpl. rewrite lookup_insert_ne; [done|]. intros ->. by rewrite Hn in Hx. }
  apply IH.
  - destruct H1; try (by apply Hset); simpl; try done.
    + rewrite lookup_insert_ne; [done|]. intros ->. apply (He c). by left.
    + rewrite lookup_delete_None. auto.
  - intros w Hw. apply (He w), elem_of_app. by right.
Qed.

Lemma asteps_returned limited t r a a' : asteps limited a [EReturn t r] a' → a_calls a' !! t = None.
Proof.
  intros H. destruct (asteps_event _ _ _ _ H) as (a1 & a2 & _ & Hst & Ha2).
  inversion Hst as [|a0 t' r0 Hr| | | | | | | | |]; subst. eapply asteps_idle; [exact Ha2|apply lookup_delete_eq|].
  intros w. apply not_elem_of_nil.
Qed.

Section served.
Context {P : Type} {PP : Policy P} {PL : PolicyLaws P} {W : Type} {LW : Log W} {LL : LogLaws W}.
Context (ord : nat → order) (Hord : orders_ok ord) (ford : table_order) (ttl maxLen : Z).
Context (limited : Prop) (a0 : astate) (conns : gmap nat reader).
Implicit Types (s : sconf P W) (n : nconf P W).

Record node_served n (es : list event) (a : astate) : Prop := {
  v_steps : asteps limited a0 es a;
  v_sim : sim limited (k_base n) a;
  v_fits t w : k_calls n !! t = Some (NCalling w) → fits t w a;
  v_idle t : (∀ w, k_calls n !! t ≠ Some (NCalling w)) → a_calls a !! t = None;
}.

Record served s (es : list event) (a : astate) : Prop := {
  v_node : node_served (s_node s) es a;
  v_conns t p : k_calls (s_node s) !! t = Some p → ∃ g m, s_conns s !! t = Some g ∧ g_at g = GCalled m;
  v_talk c ms : conns !! c = Some (stream ms) → client_stream maxLen ms →
    ∃ g, s_conns s !! c = Some g ∧ talk ttl c ms g (k_calls (s_node s) !! c) (on c es);
}.

Lemma node_served_step n es a act n' :
  node_served n es a → nstep ord ford ttl n act = Some n' →
  ∃ es1 a', node_served n' (es ++ es1) a' ∧ node_events ttl n act n' es1 ∧ asteps limited a es1 a'.
Proof.
  intros [H1 H2 H3 H4] E. destruct (nstep_events ord ford ttl n act n' E) as (acts & es1 & Hrun & Hev).
  destruct (sim_run ord Hord _ _ _ _ _ _ H2 Hrun) as (a' & Has & Hsim). exists es1, a'. split_and!; [|done|done].
  split; [by eapply asteps_app|done|..].
  - intros t w Ht. pose proof (node_change _ _ _ _ _ t Hev) as Hch. rewrite Ht in Hch.
    inversion Hch as [p Hn Hp Hp'|w' Hes|w' res Hes Hp Hp'|p p' Hn Hm Hp Hp'|]; subst.
    + by apply (asteps_fits _ _ _ _ _ _ (H3 _ _ Hp') Has).
    + by eapply asteps_invoked.
    + by destruct w', res as [[[]| |]| |].
    + by edestruct (moves_done p (NCalling w) w).
  - intros t Ht. pose proof (node_change _ _ _ _ _ t Hev) as Hch.
    assert ((∀ w, k_calls n !! t ≠ Some (NCalling w)) → on t es1 = [] → a_calls a' !! t = None) as Hidle.
    { intros Hno Hn. eapply asteps_idle; [exact Has|by apply H4|]. intros w Hw.
      assert (EInvoke t w ∈ on t es1) as Hin by (by apply list_elem_of_filter). rewrite Hn in Hin. by apply not_elem_of_nil in Hin. }
    inversion Hch as [p Hn Hp|w' Hes Hp Hp'|w' res Hes Hp Hp'|p p' Hn Hm Hp Hp'|r Hn Hp Hp']; subst.
    + apply Hidle; congruence.
    + by edestruct Ht.
    + by eapply asteps_returned.
    + apply Hidle; [|done]. intros w Hw. rewrite Hw in Hp. injection Hp as ->. by edestruct (moves_done (NCalling w) p' w).
    + apply Hidle; [|done]. intros w. congruence.
Qed.

Lemma node_served_same n n' es a : node_served n es a → k_base n' = k_base n → k_calls n' = k_calls n → node_served n' es a.
Proof. intros [H1 H2 H3 H4] Eb Ec. split; rewrite ?Eb, ?Ec; done. Qed.

(** A step of the node that no goroutine of the server makes. *)
Lemma node_action_keeps n act n' es : node_action act = true → node_events ttl n act n' es →
  (∀ t w, es ≠ [EInvoke t w]) ∧
  ∀ t, (∀ r, k_calls n !! t = Some (NDone r) → k_calls n' !! t = Some (NDone r)) ∧
       (k_calls n !! t = None → k_calls n' !! t = None).
Proof.
  intros Hact Hev. assert (∀ t w, es ≠ [EInvoke t w]) as Hes.
  { intros t w ->. destruct act as [t' r|act|t'|t'|t'|a cn|i a|cn| |]; try done; cbn [node_events] in Hev.
    - destruct Hev as [[?|[? ?]] _]; done.
    - by destruct Hev as (? & ? & ? & _).
    - by destruct Hev.
    - by destruct Hev.
    - by destruct Hev.
    - by destruct Hev.
    - by destruct Hev. }
  split; [done|]. intros t. pose proof (node_change _ _ _ _ _ t Hev) as Hch. split.
  - intros r Ht. rewrite Ht in Hch. inversion Hch as [p Hn Hp Hp'|w' Hw|w' res Hr Hp Hp'|p p' Hn Hm Hp Hp'|r' Hn Hp Hp']; subst; try done.
    destruct act as [t' r'|act|t'|t'|t'|a cn|i a|cn| |]; try done; cbn [node_events] in Hev;
      try (destruct Hev as [_ Hk]; congruence).
    + destruct Hev as (w & res & _ & Hk & Hk'). rewrite Hk' in Hp'. destruct (decide (t' = t)) as [->|Hne];
        [by rewrite lookup_insert_eq in Hp'|rewrite lookup_insert_ne in Hp' by done; congruence].
    + destruct Hev as (_ & p & p' & Hk & _ & Hk'). rewrite Hk' in Hp'. destruct (decide (t' = t)) as [->|Hne];
        [by rewrite lookup_insert_eq in Hp'|rewrite lookup_insert_ne in Hp' by done; congruence].
  - intros Ht. rewrite Ht in Hch. inversion Hch; subst; [done|]. by edestruct Hes.
Qed.

Lemma served_snode s es a act n' :
  served s es a → node_action act = true → nstep ord ford ttl (s_node s) act = Some n' →
  ∃ es1 a', served (with_snode s n') (es ++ es1) a'.
Proof.
  intros [H1 H2 H3] Hact E. destruct (node_served_step _ _ _ _ _ H1 E) as (es1 & a' & Hn & Hev & Has). exists es1, a'.
  destruct (node_action_keeps _ _ _ _ Hact Hev) as [Hes Hkeep]. split; [done|..]; simpl.
  - intros t p Ht. destruct (k_calls (s_node s) !! t) as [q|] eqn:Eq; [by eapply H2|].
    destruct (Hkeep t) as [_ Hnone]. rewrite (Hnone Eq) in Ht. done.
  - intros c ms Hc Hms. destruct (H3 c ms Hc Hms) as (g & Hg & Ht). exists g. split; [done|].
    unfold on. rewrite filter_app. eapply talk_change; [by eapply node_change|apply Hes| |done|by intros; eapply v_fits|done].
    intros r Hr. rewrite Hr. by apply Hkeep.
Qed.

(** A goroutine moves and the requests do not. *)
Lemma served_local s es a c g g' n' r' b' :
  served s es a → s_conns s !! c = Some g → (∀ m, g_at g ≠ GCalled m) →
  k_base n' = k_base (s_node s) → k_calls n' = k_calls (s_node s) →
  (∀ ms, client_stream maxLen ms → talk ttl c ms g None (on c es) → talk ttl c ms g' None (on c es)) →
  served (mkSConf n' r' (<[c := g']> (s_conns s)) b') es a.
Proof.
  intros [H1 H2 H3] Hg Hat Eb Ec Ht. split; simpl; [by eapply node_served_same|..].
  - intros t p Hp. rewrite Ec in Hp. destruct (H2 _ _ Hp) as (g0 & m & Hg0 & Hm). exists g0, m. split; [|done].
    rewrite lookup_insert_ne; [done|]. intros <-. rewrite Hg in Hg0. injection Hg0 as <-. by apply Hat in Hm.
  - intros c' ms Hc Hms. destruct (H3 c' ms Hc Hms) as (g0 & Hg0 & Ht0). rewrite Ec.
    destruct (decide (c = c')) as [<-|Hne]; [|exists g0; by rewrite lookup_insert_ne].
    rewrite Hg in Hg0. injection Hg0 as <-. exists g'. split; [apply lookup_insert_eq|].
    assert (k_calls (s_node s) !! c = None) as Hnone.
    { destruct (k_calls (s_node s) !! c) eqn:E; [|done]. destruct (H2 _ _ E) as (g0 & m & Hg0 & Hm). simplify_eq.
      by apply Hat in Hm. }
    rewrite Hnone in *. by apply Ht.
Qed.

(** Reading the next message of a client. *)
Lemma talk_read c ms g h route rd out res :
  (g_at g = GFirst ∧ route = route_first) ∨ (g_at g = GLoop ∧ route = λ m, Some (GDispatch m)) →
  client_stream maxLen ms → talk ttl c ms g None h → readMessage maxLen (g_rd g) (g_out g) = (res, rd, out) →
  match res with
  | Ok msg => ∃ p, route msg = Some p ∧ talk ttl c ms (mkG rd out p) None h
  | Err _ => talk ttl c ms (mkG rd out (GEnded Closed)) None h
  | Panic => False
  end.
Proof.
  intros Hat [Hsend Hfirst] (xs & todo & pend & Hms & Hxs & Hout & Hh & Hst) Er.
  assert (g_rd g = stream todo ∧ pend = [] ∧ (g_at g = GFirst → xs = [])) as (Hrd & -> & Hx0).
  { unfold stage in Hst. destruct Hat as [[Ha _]|[Ha _]]; rewrite Ha in Hst |- *; naive_solver. }
  rewrite Hms in Hsend. apply Forall_app in Hsend as [_ Hsend]. rewrite Hrd, readMessage_stream in Er by done.
  destruct todo as [|m todo]; injection Er as <- <- <-; [by exists xs, [], []|].
  exists (GDispatch m). split; [|exists xs, (m :: todo), []; split_and!; try done; by exists todo].
  destruct Hat as [[Ha ->]|[_ ->]]; [|done]. rewrite (Hx0 Ha) in Hms. subst ms. simpl in Hfirst.
  unfold client_first in Hfirst. apply negb_true_iff, orb_false_iff in Hfirst as [[H1 H2]%orb_false_iff H3].
  unfold route_first. by rewrite H1, H2, H3.
Qed.

Lemma served_read s es a c g route :
  served s es a → s_conns s !! c = Some g →
  (g_at g = GFirst ∧ route = route_first) ∨ (g_at g = GLoop ∧ route = λ m, Some (GDispatch m)) →
  served (g_read maxLen s c g route) es a.
Proof.
  intros Hs Hg Hat. assert (∀ m, g_at g ≠ GCalled m) as Hno by (intros m; destruct Hat as [[-> _]|[-> _]]; done).
  unfold g_read. destruct (readMessage maxLen (g_rd g) (g_out g)) as [[res rd] out] eqn:Er.
  assert (∀ g' b', (∀ ms, client_stream maxLen ms → talk ttl c ms g None (on c es) → talk ttl c ms g' None (on c es)) →
    served (mkSConf (s_node s) (s_raft s) (<[c := g']> (s_conns s)) b') es a) as Hloc.
  { intros g' b' Ht. by eapply served_local. }
  destruct res as [msg|e|]; [destruct (route msg) as [p|] eqn:Ep|..]; apply Hloc; intros ms Hms Ht;
    pose proof (talk_read _ _ _ _ _ _ _ _ Hat Hms Ht Er) as Hr; simpl in Hr; [|naive_solver|done|done].
  destruct Hr as (p' & Hp' & Hr). congruence.
Qed.

(** The handler's call begins. *)
Lemma served_call s es a c g msg r n' :
  served s es a → s_conns s !! c = Some g → g_at g = GDispatch msg → request_of msg = Some r →
  nstep ord ford ttl (s_node s) (KInvoke c r) = Some n' →
  ∃ es1 a', served (sgoto (with_snode s n') c (gmove g (GCalled msg))) (es ++ es1) a'.
Proof.
  intros [H1 H2 H3] Hg Hat Hr E. destruct (node_served_step _ _ _ _ _ H1 E) as (es1 & a' & Hn & Hev & Has).
  exists es1, a'. pose proof Hev as (-> & Hnone & Hk). set (w := request_call _ _ _) in *. split; [done|..]; simpl.
  - intros t p Ht. destruct (decide (t = c)) as [->|Hne]; [eexists _, msg; split; [apply lookup_insert_eq|done]|].
    rewrite lookup_insert_ne by done. rewrite Hk, lookup_insert_ne in Ht by done. by eapply H2.
  - intros c' ms Hc Hms. destruct (H3 c' ms Hc Hms) as (g0 & Hg0 & Ht0). rewrite Hk. unfold on. rewrite filter_app.
    destruct (decide (c = c')) as [<-|Hne].
    + rewrite Hg in Hg0. injection Hg0 as <-. eexists. split; [apply lookup_insert_eq|]. rewrite lookup_insert_eq.
      rewrite filter_cons_True, filter_nil by done.
      destruct Ht0 as (xs & todo & pend & -> & Hxs & Hout & Hh & Hst). unfold stage in Hst. rewrite Hat in Hst.
      destruct Hst as (rest & -> & Hrd & _ & ->). fold (on c es). rewrite Hh, app_nil_r.
      exists xs, (msg :: rest), [EInvoke c w]. split_and!; try done. exists rest, r, (c_now (k_base (s_node s))).
      split_and!; try done. by left.
    + exists g0. rewrite !lookup_insert_ne by done. rewrite filter_cons_False, filter_nil, app_nil_r by (simpl; congruence). done.
Qed.

(** It has returned and the answer is written. *)
Lemma served_done s es a c g msg res n' :
  served s es a → s_conns s !! c = Some g → g_at g = GCalled msg → k_calls (s_node s) !! c = Some (NDone res) →
  nstep ord ford ttl (s_node s) (KReturn c) = Some n' →
  ∀ g' b', (∀ resp, reply msg res = Ok resp → g' = gwrite g resp GLoop) →
  ∃ es1 a', served (mkSConf n' (s_raft s) (<[c := g']> (s_conns s)) b') (es ++ es1) a'.
Proof.
  intros [H1 H2 H3] Hg Hat Hdone E g' b' Hg'. destruct (node_served_step _ _ _ _ _ H1 E) as (es1 & a' & Hn & Hev & Has).
  exists es1, a'. pose proof Hev as (-> & r0 & _ & Hk). split; [done|..]; simpl.
  - intros t p Ht. rewrite Hk in Ht. apply lookup_delete_Some in Ht as [Hne Ht]. rewrite lookup_insert_ne by done. by eapply H2.
  - intros c' ms Hc Hms. destruct (H3 c' ms Hc Hms) as (g0 & Hg0 & Ht0). rewrite Hk, app_nil_r.
    destruct (decide (c = c')) as [<-|Hne]; [|exists g0; by rewrite lookup_insert_ne, lookup_delete_ne].
    rewrite Hg in Hg0. injection Hg0 as <-. exists g'. split; [apply lookup_insert_eq|]. rewrite lookup_delete_eq.
    destruct Ht0 as (xs & todo & pend & Hmse & Hxs & Hout & Hh & Hst). unfold stage in Hst. rewrite Hat in Hst.
    destruct Hst as (rest & r & now & -> & Hrd & Hr & Hw). rewrite Hdone in Hw.
    assert (pend = [EInvoke c (request_call ttl now r); EReturn c res] ∧ result_fits (request_call ttl now r) res) as [-> Hf].
    { destruct Hw as [[? _]|(q & res' & [= <-] & -> & Hf & [[= ->]|[-> Hq]])]; [done|done|]. naive_solver. }
    destruct (reply_fits msg ttl now r res Hr Hf) as [resp Hresp]. rewrite (Hg' resp Hresp), Hh.
    apply (talk_answer ttl c ms xs msg rest g _ (mkExchange msg (Some (request_call ttl now r, res)) resp)); try done.
    unfold answered. simpl. rewrite Hr. eauto.
Qed.

(** The answers that need no call: the topology, and the error for other messages. *)
Lemma talk_topology c ms g h m leader : g_at g = GDispatch m → OpCode m = OpTopologyRequest →
  talk ttl c ms g None h → talk ttl c ms (gmove g (GTopology leader)) None h.
Proof.
  intros Hat Hm (xs & todo & pend & -> & Hxs & Hout & Hh & Hst). unfold stage in Hst. rewrite Hat in Hst.
  destruct Hst as (rest & -> & Hrd & _ & ->). exists xs, (m :: rest), []. split_and!; try done. by exists m, rest.
Qed.

Lemma talk_topology_answer c ms g h leader leader' ps : g_at g = GTopology leader →
  talk ttl c ms g None h → talk ttl c ms (gwrite g (MTopologyResponse (topology leader' ps)) GLoop) None h.
Proof.
  intros Hat (xs & todo & pend & -> & Hxs & Hout & -> & Hst). unfold stage in Hst. rewrite Hat in Hst.
  destruct Hst as (m & rest & -> & Hm & Hrd & _ & ->).
  apply (talk_answer ttl c _ xs m rest g _ (mkExchange m None (MTopologyResponse (topology leader' ps)))); try done.
  unfold answered. cbn [x_msg x_call x_resp]. destruct m; try done. cbn. eauto.
Qed.

Lemma talk_no_handler c ms g h m : g_at g = GDispatch m → OpCode m ≠ OpTopologyRequest → request_of m = None →
  talk ttl c ms g None h → talk ttl c ms (gwrite g (no_handler_msg m) GLoop) None h.
Proof.
  intros Hat Hm Hr (xs & todo & pend & -> & Hxs & Hout & -> & Hst). unfold stage in Hst. rewrite Hat in Hst.
  destruct Hst as (rest & -> & Hrd & _ & ->).
  apply (talk_answer ttl c _ xs m rest g _ (mkExchange m None (no_handler_msg m))); try done.
  unfold answered. cbn [x_msg x_call x_resp]. by rewrite Hr, (proj2 (Z.eqb_neq _ _) Hm).
Qed.

(** Goroutines that serve other nodes. *)
Definition for_nodes (p : gphase) : bool :=
  match p with
  | GJoin _ | GJoinLeader _ | GJoinAdd _ _ | GHeartbeat _ | GVote _ | GCallbacks _ _ => true
  | _ => false
  end.

Lemma talk_for_nodes c ms g p h : for_nodes (g_at g) = true → talk ttl c ms g p h → False.
Proof. intros Hf (xs & todo & pend & _ & _ & _ & _ & Hst). unfold stage in Hst. by destruct (g_at g). Qed.

Lemma served_for_nodes s es a c g s' :
  served s es a → s_conns s !! c = Some g → for_nodes (g_at g) = true →
  run_conn ord ford ttl maxLen s c g = Some s' → served s' es a.
Proof.
  intros Hs Hg Hf E. unfold run_conn in E.
  assert (∀ g' n' r' b', k_base n' = k_base (s_node s) → k_calls n' = k_calls (s_node s) →
    served (mkSConf n' r' (<[c := g']> (s_conns s)) b') es a) as Hloc.
  { intros g' n' r' b' Eb Ec. eapply served_local; try done; [by intros m Hm; rewrite Hm in Hf|].
    intros ms _ Ht. by apply talk_for_nodes in Ht. }
  destruct (g_at g) as [| |m|leader|m|join|join|join i|hb|req|[|act acts] resp|e]; try done.
  - injection E as <-. by apply Hloc.
  - injection E as <-. destruct (k_leader (s_node s)); by apply Hloc.
  - destruct (k_leaders (s_node s) !! i); [|done]. injection E as <-. by apply Hloc.
  - destruct (HandleHeartbeat _ _ _). injection E as <-. by apply Hloc.
  - destruct (HandleVoteRequest _ _ _) as [[r [granted term]] acts]. injection E as <-. by apply Hloc.
  - injection E as <-. by apply Hloc.
  - destruct act; simplify_eq/=; by apply Hloc.
Qed.

Lemma served_conn s es a c g s' :
  served s es a → s_conns s !! c = Some g → run_conn ord ford ttl maxLen s c g = Some s' →
  ∃ es1 a', served s' (es ++ es1) a'.
Proof.
  intros Hs Hg E. destruct (for_nodes (g_at g)) eqn:Hf.
  { exists [], a. rewrite app_nil_r. by eapply served_for_nodes. }
  assert (∀ s', served s' es a → ∃ es1 a', served s' (es ++ es1) a') as Hquiet
    by (intros s0 H0; exists [], a; by rewrite app_nil_r).
  assert (∀ g' n' r' b', (∀ m, g_at g ≠ GCalled m) → k_base n' = k_base (s_node s) → k_calls n' = k_calls (s_node s) →
    (∀ ms, client_stream maxLen ms → talk ttl c ms g None (on c es) → talk ttl c ms g' None (on c es)) →
    served (mkSConf n' r' (<[c := g']> (s_conns s)) b') es a) as Hloc by (intros; by eapply served_local).
  unfold run_conn in E. destruct (g_at g) as [| |m|leader|m|join|join|join i|hb|req|acts resp|e] eqn:Hat; try done.
  - injection E as <-. apply Hquiet, served_read; eauto.
  - injection E as <-. apply Hquiet, served_read; eauto.
  - destruct (Z.eqb_spec (OpCode m) OpTopologyRequest) as [Ht|Ht].
    { injection E as <-. apply Hquiet, Hloc; try done. intros ms _. by eapply talk_topology. }
    destruct (request_of m) as [r|] eqn:Er.
    + destruct (nstep _ _ _ _ _) as [n'|] eqn:En; [|done]. injection E as <-. by eapply served_call.
    + injection E as <-. apply Hquiet, Hloc; try done. intros ms _. by eapply talk_no_handler.
  - injection E as <-. apply Hquiet, Hloc; try done. intros ms _. by eapply talk_topology_answer.
  - destruct (k_calls (s_node s) !! c) as [[| | | |res]|] eqn:Ek; try done.
    destruct (nstep _ _ _ _ _) as [n'|] eqn:En; [|done]. cbn [mbind option_bind] in E. injection E as <-.
    destruct (reply m res) as [resp|err|] eqn:Er; apply (served_done s es a c g m res n' Hs Hg Hat Ek En); intros resp' Hr; rewrite Er in Hr; by simplify_eq.
Qed.

Lemma served_step s es a act s' :
  served s es a → sstep ord ford ttl maxLen s act = Some s' → ∃ es1 a', served s' (es ++ es1) a'.
Proof.
  intros Hs E. unfold sstep in E. destruct (s_crashed s); [done|]. destruct act as [c|act|r].
  - destruct (s_conns s !! c) as [g|] eqn:Hg; [|done]. by eapply served_conn.
  - destruct (node_action act) eqn:Hact; [|done]. destruct (nstep _ _ _ _ _) as [n'|] eqn:En; [|done].
    injection E as <-. by eapply served_snode.
  - injection E as <-. exists [], a. rewrite app_nil_r. by destruct Hs.
Qed.

(** One history for all moments of a run: each has a prefix of it. *)
Lemma served_trace acts : ∀ s es a s',
  served s es a → srun ord ford ttl maxLen s acts = Some s' →
  ∃ es' a', served s' (es ++ es') a' ∧
    ∀ acts1 acts2 s1, acts = acts1 ++ acts2 → srun ord ford ttl maxLen s acts1 = Some s1 →
      ∃ es1 es2 a1, es' = es1 ++ es2 ∧ served s1 (es ++ es1) a1.
Proof.
  induction acts as [|act acts IH]; intros s es a s' Hs E; cbn [srun] in E.
  { injection E as <-. exists [], a. split; [by rewrite app_nil_r|].
    intros acts1 acts2 s1 Hsplit E1. symmetry in Hsplit. apply app_nil in Hsplit as [-> ->]. injection E1 as <-.
    exists [], [], a. split; [done|by rewrite app_nil_r]. }
  destruct (sstep _ _ _ _ s act) as [s1|] eqn:E1; [|done]. cbn [mbind option_bind] in E.
  destruct (served_step _ _ _ _ _ Hs E1) as (es1 & a1 & H1). destruct (IH _ _ _ _ H1 E) as (es2 & a2 & H2 & Hall).
  exists (es1 ++ es2), a2. split; [by rewrite app_assoc|].
  intros [|act' acts1] acts2 s2 Hsplit E2.
  { injection E2 as <-. exists [], (es1 ++ es2), a. split; [done|by rewrite app_nil_r]. }
  injection Hsplit as <- ->. cbn [srun] in E2. rewrite E1 in E2. cbn [mbind option_bind] in E2.
  destruct (Hall acts1 acts2 s2 eq_refl E2) as (es3 & es4 & a3 & -> & H3).
  exists (es1 ++ es3), es4, a3. split; [by rewrite app_assoc|by rewrite app_assoc].
Qed.

Lemma served_run acts : ∀ s es a s',
  served s es a → srun ord ford ttl maxLen s acts = Some s' → ∃ es' a', served s' (es ++ es') a'.
Proof. intros s es a s' Hs E. destruct (served_trace acts _ _ _ _ Hs E) as (es' & a' & H & _). eauto. Qed.
End served.
