(* ===== verification/ServerLive.v ===== *)
(** * Every client can be answered (server/tcp.go, cluster/node.go, storage/store)

    From any point of any run of the server in which no goroutine has panicked, the
    goroutines that are there can go on so that a client is answered to the end: nothing
    it waits for (a lock of a shard, the mutex of a leader, an answer of the store) can be
    missing for good. *)

From S2P Require Import Prelude GoLang Protocol KvMessages ClusterMessages ClientMessages Messages.
From S2P Require Import WalRecord Os WalWriter Shard Eviction Store Recovery StoreSpec.
From S2P Require Import Raft Replication ReplicationProps Logs StoreProps Engine Server ServerProps.
From S2P Require Import Concurrency ConcurrencyProps NodeConcurrency ServerConcurrency.

(** ** The requests and the leaders they hold *)

Section valid.
Context {P : Type} {PP : Policy P} {W : Type} {LW : Log W}.
Context (ord : nat → order) (ford : table_order) (ttl maxLen : Z).
Implicit Types (n : nconf P W) (s : sconf P W).

Definition phase_valid (count : nat) (p : nphase) : Prop :=
  match p with
  | NTake w => is_Some (call_key w)
  | NNumber l w | NSend l _ w => (l < count)%nat ∧ is_Some (call_key w)
  | _ => True
  end.

Record valid n : Prop := {
  vl_leader l : k_leader n = Some l → (l < length (k_leaders n))%nat;
  vl_phases t p : k_calls n !! t = Some p → phase_valid (length (k_leaders n)) p;
}.

Lemma phase_valid_mono count count' p : (count ≤ count')%nat → phase_valid count p → phase_valid count' p.
Proof. intros Hle. destruct p; simpl; try done; intros [??]; (split; [lia|done]). Qed.

Lemma after_store_valid count w res : phase_valid count (after_store w res).
Proof. destruct w, res as [[[]| |]| |]; simpl; eauto. Qed.

(** Leaders are only added, requests only move on. *)
Lemma valid_leaders n n' : valid n → (length (k_leaders n) ≤ length (k_leaders n'))%nat → k_calls n' = k_calls n →
  (∀ l, k_leader n' = Some l → (l < length (k_leaders n'))%nat) → valid n'.
Proof. intros [H1 H2] Hle Hc Hl. split; [done|]. rewrite Hc. intros t p Ht. eapply phase_valid_mono; [done|by eapply H2]. Qed.

Lemma valid_calls n n' t p : valid n → k_leaders n' = k_leaders n → k_leader n' = k_leader n →
  k_calls n' = <[t := p]> (k_calls n) → phase_valid (length (k_leaders n)) p → valid n'.
Proof.
  intros [H1 H2] Els El Ec Hp. split; rewrite Els, ?El, ?Ec; [done|].
  intros t' p' [[_ <-]|[_ Ht]]%lookup_insert_Some; [done|by eapply H2].
Qed.

Lemma valid_run_request n t p n' : valid n → k_calls n !! t = Some p → run_request ford n t p = Some n' → valid n'.
Proof.
  intros Hv Ht E. pose proof (vl_phases _ Hv _ _ Ht) as Hp. destruct p as [w|w|l w|l i w|r]; simpl in E; try done.
  - injection E as <-. eapply (valid_calls n); try done. destruct (k_leader n) as [l|] eqn:El; [|done].
    split; [by apply (vl_leader _ Hv)|done].
  - destruct (k_leaders n !! l) as [ld|]; [|done]. injection E as <-.
    eapply (valid_calls (with_leaders n l (next_index ld) (k_net n))); try done; simpl.
    + apply (valid_leaders n); simpl; rewrite ?length_insert; [done|done|done|apply Hv].
    + rewrite length_insert. done.
  - destruct (k_leaders n !! l) as [ld|]; [|done]. simpl in E. destruct (sync_record i w); [|done]. simpl in E.
    destruct (broadcast _ _ _ _) as [ld' nt']. injection E as <-.
    eapply (valid_calls (with_leaders n l ld' nt')); try done; simpl.
    apply (valid_leaders n); simpl; rewrite ?length_insert; [done|done|done|apply Hv].
Qed.

Lemma valid_nstep n a n' : valid n → nstep ord ford ttl n a = Some n' → valid n'.
Proof.
  intros Hv. destruct a as [t r|act|t|t|t|a cn|i a|cn| |]; cbn [nstep].
  - destruct (k_calls n !! t); [done|]. destruct (step ord (k_base n) _) as [[es b]|]; [|done]. intros [= <-].
    by eapply (valid_calls n).
  - intros E. assert (∃ b, n' = with_base n b) as [b ->].
    { destruct act; try done; destruct (step ord (k_base n) _) as [[es b]|]; simpl in E; simplify_eq; eauto. }
    by apply (valid_leaders n); [|simpl|simpl|apply Hv].
  - destruct (k_calls n !! t) as [[w| | | |]|]; try done. destruct (c_calls _ !! t) as [[]|]; try done.
    destruct (step ord (k_base n) _) as [[es b]|]; [|done]. intros [= <-]. eapply (valid_calls n); try done. apply after_store_valid.
  - destruct (k_calls n !! t) as [p|] eqn:Ht; [|done]. by apply valid_run_request.
  - destruct (k_calls n !! t) as [[]|]; try done. intros [= <-]. destruct Hv as [H1 H2]. split; simpl; [done|].
    intros t' p [_ Hp]%lookup_delete_Some. by eapply H2.
  - destruct (k_leader n) as [i|] eqn:El; [|done]. simpl. destruct (k_leaders n !! i); [|done]. intros [= <-].
    apply (valid_leaders n); simpl; rewrite ?length_insert; [done|done|done|apply Hv].
  - destruct (k_leaders n !! i); [|done]. simpl. destruct (removeFollower _ _ _). intros [= <-].
    apply (valid_leaders n); simpl; rewrite ?length_insert; [done|done|done|apply Hv].
  - intros [= <-]. by apply (valid_leaders n); [|simpl|simpl|apply Hv].
  - intros [= <-]. apply (valid_leaders n); simpl; rewrite ?length_app; [done|lia|done|]. intros l [= <-]. simpl. lia.
  - intros [= <-]. by apply (valid_leaders n).
Qed.

Lemma valid_conn s c g s' : valid (s_node s) → run_conn ord ford ttl maxLen s c g = Some s' → valid (s_node s').
Proof.
  intros Hv E. unfold run_conn in E.
  destruct (g_at g) as [| |m|leader|m|join|join|join i|hb|req|[|act acts] resp|e]; try done.
  - injection E as <-. unfold g_read. destruct (readMessage _ _ _) as [[[msg|e|] rd] out]; try done. by destruct (route_first msg).
  - injection E as <-. unfold g_read. by destruct (readMessage _ _ _) as [[[msg|e|] rd] out].
  - destruct (_ =? _); [by injection E as <-|]. destruct (request_of m); [|by injection E as <-].
    destruct (nstep _ _ _ _ _) eqn:En; [|done]. injection E as <-. by eapply valid_nstep.
  - by injection E as <-.
  - destruct (k_calls _ !! c) as [[]|]; try done. destruct (nstep _ _ _ _ _) eqn:En; [|done]. cbn [mbind option_bind] in E.
    injection E as <-. apply valid_nstep in En; [|done]. by destruct (reply m r).
  - by injection E as <-.
  - injection E as <-. by destruct (k_leader _).
  - destruct (k_leaders _ !! i); [|done]. injection E as <-. simpl.
    apply (valid_leaders (s_node s)); simpl; rewrite ?length_insert; [done|done|done|apply Hv].
  - destruct (HandleHeartbeat _ _ _). by injection E as <-.
  - destruct (HandleVoteRequest _ _ _) as [[r [granted term]] acts]. by injection E as <-.
  - by injection E as <-.
  - destruct act; simplify_eq/=; try done. by apply (valid_leaders (s_node s)).
Qed.

Lemma valid_srun acts : ∀ s s', valid (s_node s) → srun ord ford ttl maxLen s acts = Some s' → valid (s_node s').
Proof.
  induction acts as [|act acts IH]; intros s s' Hv E; cbn [srun] in E; [by injection E as <-|].
  destruct (sstep _ _ _ _ s act) as [s1|] eqn:E1; [|done]. apply (IH s1); [|done]. unfold sstep in E1.
  destruct (s_crashed s); [done|]. destruct act as [c|act|r].
  - destruct (s_conns s !! c); [|done]. by eapply valid_conn.
  - destruct (node_action act); [|done]. destruct (nstep _ _ _ _ _) eqn:En; [|done]. injection E1 as <-. by eapply valid_nstep.
  - by injection E1 as <-.
Qed.

Lemma valid_sstart kv now leader r nt conns : valid (s_node (P:=P) (W:=W) (sstart kv now leader r nt conns)).
Proof.
  split; simpl; [|intros t p; by rewrite lookup_empty]. destruct leader; [|done]. intros l0 [= <-]. simpl. lia.
Qed.

Lemma srun_app acts1 acts2 s : srun ord ford ttl maxLen s (acts1 ++ acts2) =
  s1 ← srun ord ford ttl maxLen s acts1; srun ord ford ttl maxLen s1 acts2.
Proof.
  revert s. induction acts1 as [|act acts1 IH]; intros s; [done|]. cbn [srun app].
  destruct (sstep _ _ _ _ s act); [|done]. apply IH.
Qed.
End valid.

(** ** A call comes back *)

Section calls.
Context {P : Type} {PP : Policy P} {PL : PolicyLaws P} {W : Type} {LW : Log W} {LL : LogLaws W}.
Context (ord : nat → order) (Hord : orders_ok ord) (ford : table_order) (ttl maxLen : Z).
Implicit Types (n : nconf P W) (s : sconf P W) (b : conf P W).

Definition store_move (act : action) : Prop := match act with Run _ | RunSweeper => True | _ => False end.

(** Up to the return of [t] no other call returns. *)
Lemma run_to_return t r acts : ∀ b b', Forall internal acts → run ord b acts = Some ([EReturn t r], b') →
  ∃ acts1 b1, Forall store_move acts1 ∧ run ord b acts1 = Some ([], b1) ∧ c_calls b1 !! t = Some (PDone r).
Proof.
  induction acts as [|act acts IH]; intros b b' Hi E; [done|]. apply Forall_cons in Hi as [Hact Hi]. cbn [run] in E.
  destruct (step ord b act) as [[es b1]|] eqn:Es; [|done]. cbn [mbind option_bind] in E.
  destruct (run ord b1 acts) as [[es2 b2]|] eqn:Er; [|done]. cbn [mbind option_bind] in E. injection E as Ee <-.
  assert (store_move act → es = [] → ∃ acts1 b1, Forall store_move acts1 ∧ run ord b acts1 = Some ([], b1) ∧ c_calls b1 !! t = Some (PDone r)) as Hgo.
  { intros Hm ->. simpl in Ee. subst es2. destruct (IH _ _ Hi Er) as (acts1 & b3 & H1 & H2 & H3).
    exists (act :: acts1), b3. split_and!; [by constructor| |done]. cbn [run]. rewrite Es. cbn. by rewrite H2. }
  destruct act as [t' w|t'|t'|now| |]; try done.
  - apply Hgo; [done|]. simpl in Es. destruct (c_calls b !! t'); [|done]. simpl in Es. by destruct (run_call _ _ _ _); simplify_eq/=.
  - exists [], b. split_and!; [constructor|done|]. simpl in Es. destruct (c_calls b !! t') as [[]|] eqn:Et; try done.
    injection Es as <- _. simpl in Ee. by injection Ee as -> ->.
  - apply Hgo; [done|]. simpl in Es. by destruct (run_sweeper _ _); simplify_eq/=.
Qed.

Lemma srun_store acts : ∀ s b', s_crashed s = false → Forall store_move acts → run ord (k_base (s_node s)) acts = Some ([], b') →
  srun ord ford ttl maxLen s ((λ act, SNode (KStore act)) <$> acts) = Some (with_snode s (with_base (s_node s) b')).
Proof.
  induction acts as [|act acts IH]; intros s b' Hcr Hm E; cbn [run] in E.
  { injection E as <-. cbn. by destruct s as [[] ? ? ?]. }
  apply Forall_cons in Hm as [Hact Hm]. destruct (step ord (k_base (s_node s)) act) as [[es b1]|] eqn:Es; [|done].
  cbn [mbind option_bind] in E. destruct (run ord b1 acts) as [[es2 b2]|] eqn:Er; [|done]. cbn [mbind option_bind] in E.
  injection E as Ee <-. apply app_eq_nil in Ee as [-> ->].
  assert (sstep ord ford ttl maxLen s (SNode (KStore act)) = Some (with_snode s (with_base (s_node s) b1))) as E1.
  { unfold sstep. rewrite Hcr. cbn [node_action]. destruct act; try done; cbn [nstep]; by rewrite Es. }
  cbn [fmap list_fmap srun]. rewrite E1. cbn [mbind option_bind]. by rewrite (IH _ b2).
Qed.

(** The moves of the goroutine of [c], its request on the node included, and of those that
    are in the store; nothing new begins elsewhere. *)
Definition own_move (c : nat) (act : saction) : Prop :=
  match act with
  | SRun c' | SNode (KStored c') | SNode (KRun c') => c' = c
  | SNode (KStore act) => store_move act
  | _ => False
  end.

(** What the goroutine of [c] waits for in a call comes. *)
Lemma call_returns limited s a c w :
  s_crashed s = false → sim limited (k_base (s_node s)) a → k_calls (s_node s) !! c = Some (NCalling w) → fits c w a →
  ∃ acts s' res, Forall (own_move c) acts ∧ srun ord ford ttl maxLen s acts = Some s' ∧ s_crashed s' = false ∧ s_conns s' = s_conns s ∧
    k_calls (s_node s') !! c = Some (after_store w res).
Proof.
  intros Hcr Hsim Hc (st & Hst & _).
  assert (∃ p, c_calls (k_base (s_node s)) !! c = Some p) as [p Hp].
  { pose proof (s_calls _ _ _ Hsim c) as Hm. rewrite Hst in Hm. inversion Hm; eauto. }
  assert (sim True (k_base (s_node s)) a) as Htrue.
  { destruct Hsim as [? ? ? ? ?]. split; try done. by right. }
  destruct (pending_finishes ord Hord (k_base (s_node s)) c p) as (acts & res & b' & Hi & Hr); [by exists a|done|].
  destruct (run_to_return _ _ _ _ _ Hi Hr) as (acts1 & b1 & Hm & Hr1 & Hd).
  pose proof (srun_store _ _ _ Hcr Hm Hr1) as Hs1.
  eexists (((λ act, SNode (KStore act)) <$> acts1) ++ [SNode (KStored c)]), _, res. rewrite srun_app, Hs1.
  cbn [mbind option_bind srun]. unfold sstep. cbn. rewrite Hcr, Hc, Hd. cbn. split_and!; [|done|done|done|].
  { apply Forall_app. split; [by apply Forall_fmap|by constructor]. }
  cbn. apply lookup_insert_eq.
Qed.

Definition phase_rank (p : nphase) : nat :=
  match p with NTake _ => 3 | NNumber _ _ => 2 | NSend _ _ _ => 1 | NCalling _ | NDone _ => 0 end.

(** A request that has left the store is never stuck. *)
Lemma request_moves s c p :
  s_crashed s = false → valid (s_node s) → k_calls (s_node s) !! c = Some p → phase_rank p ≠ 0%nat →
  ∃ n' p', sstep ord ford ttl maxLen s (SNode (KRun c)) = Some (with_snode s n') ∧ k_calls n' !! c = Some p' ∧
    (phase_rank p' < phase_rank p)%nat ∧ (∀ w, p' ≠ NCalling w) ∧ valid n'.
Proof.
  intros Hcr Hv Hc Hp. unfold sstep. rewrite Hcr. cbn [node_action nstep]. rewrite Hc. cbn [mbind option_bind].
  pose proof (vl_phases _ Hv _ _ Hc) as Hok.
  assert (∃ n' p', run_request ford (s_node s) c p = Some n' ∧ k_calls n' !! c = Some p' ∧
    (phase_rank p' < phase_rank p)%nat ∧ ∀ w, p' ≠ NCalling w) as (n' & p' & E & Hp' & Hr & Hw).
  { destruct p as [w|w|l w|l i w|r]; try done; simpl in Hok |- *.
    - eexists _, _. split; [done|]. split; [apply lookup_insert_eq|]. destruct (k_leader _); (split; [simpl; lia|done]).
    - destruct Hok as [Hl _]. destruct (lookup_lt_is_Some_2 _ _ Hl) as [ld ->]. eexists _, _. split; [done|].
      split; [apply lookup_insert_eq|]. split; [simpl; lia|done].
    - destruct Hok as [Hl [k Hk]]. destruct (lookup_lt_is_Some_2 _ _ Hl) as [ld ->]. simpl.
      assert (∃ sy, sync_record i w = Some sy) as [sy ->] by (destruct w; simpl in *; eauto; done). simpl.
      destruct (broadcast _ _ _ _) as [l' nt']. eexists _, _. split; [done|]. split; [apply lookup_insert_eq|].
      split; [simpl; lia|done]. }
  exists n', p'. rewrite E. split_and!; [done..|]. by eapply valid_run_request.
Qed.

Lemma request_ends k : ∀ s c p, (phase_rank p ≤ k)%nat →
  s_crashed s = false → valid (s_node s) → k_calls (s_node s) !! c = Some p → (∀ w, p ≠ NCalling w) →
  ∃ acts s' res, Forall (own_move c) acts ∧ srun ord ford ttl maxLen s acts = Some s' ∧ s_crashed s' = false ∧ s_conns s' = s_conns s ∧
    k_calls (s_node s') !! c = Some (NDone res).
Proof.
  induction k as [|k IH]; intros s c p Hk Hcr Hv Hc Hp; destruct (decide (phase_rank p = 0%nat)) as [H0|H0]; try lia.
  1, 2: destruct p as [w| | | |r]; try done; [by edestruct Hp|by exists [], s, r].
  destruct (request_moves s c p Hcr Hv Hc H0) as (n' & p' & E & Hp' & Hr & Hw & Hv').
  destruct (IH (with_snode s n') c p') as (acts & s' & res & Ho & E' & Hcr' & Hconns & Hd); [lia|done..|].
  exists (SNode (KRun c) :: acts), s', res. split_and!; [by constructor| |done..]. cbn [srun]. rewrite E. exact E'.
Qed.
End calls.

(** ** A connection comes to its end *)

Section ends.
Context {P : Type} {PP : Policy P} {PL : PolicyLaws P} {W : Type} {LW : Log W} {LL : LogLaws W}.
Context (ord : nat → order) (Hord : orders_ok ord) (ford : table_order) (ttl maxLen : Z).
Context (limited : Prop) (a0 : astate) (conns : gmap nat reader).
Implicit Types (s : sconf P W).

Abbreviation served := (served ttl maxLen limited a0 conns).

Definition rank (g : goroutine) : nat :=
  let left := length (rd_data (g_rd g)) in
  match g_at g with
  | GFirst | GLoop => 3 * left + 1
  | GDispatch _ => 3 * left + 4
  | GTopology _ | GCalled _ => 3 * left + 3
  | _ => 0
  end.

(** The goroutine of [c] gets on. *)
Definition gets_on s (c : nat) (g : goroutine) : Prop :=
  ∃ acts s' g', Forall (own_move c) acts ∧ srun ord ford ttl maxLen s acts = Some s' ∧ s_crashed s' = false ∧
    s_conns s' !! c = Some g' ∧ (rank g' < rank g)%nat.

Lemma gets_on_step s c g s' g' : s_crashed s = false → s_conns s !! c = Some g → run_conn ord ford ttl maxLen s c g = Some s' →
  s_crashed s' = false → s_conns s' !! c = Some g' → (rank g' < rank g)%nat → gets_on s c g.
Proof.
  intros Hcr Hg E Hcr' Hg' Hr. exists [SRun c], s', g'. split_and!; [by constructor| |done..]. cbn [srun]. unfold sstep. rewrite Hcr, Hg. cbn. by rewrite E.
Qed.

Lemma stream_shrinks m ms : (length (rd_data (stream ms)) + 4 ≤ length (rd_data (stream (m :: ms))))%nat.
Proof.
  unfold stream. cbn [rd_data fmap list_fmap concat]. rewrite length_app. unfold frame_bytes. rewrite length_app, length_be. lia.
Qed.

Lemma read_gets_on s es a c g ms : served s es a → s_crashed s = false → conns !! c = Some (stream ms) → client_stream maxLen ms →
  s_conns s !! c = Some g → g_at g = GFirst ∨ g_at g = GLoop → gets_on s c g.
Proof.
  intros Hs Hcr Hc Hms Hg Hat. destruct (v_talk _ _ _ _ _ _ _ _ Hs c ms Hc Hms) as (g0 & Hg0 & Ht).
  rewrite Hg in Hg0. injection Hg0 as <-.
  assert (k_calls (s_node s) !! c = None ∧ ∃ todo, g_rd g = stream todo ∧ Forall (Messages.sendable maxLen) todo) as (Hn & todo & Hrd & Hsend).
  { destruct Ht as (xs & todo & pend & -> & _ & _ & _ & Hst). unfold stage in Hst. destruct Hms as [Hms _].
    apply Forall_app in Hms as [_ Hms]. destruct Hat as [Hat|Hat]; rewrite Hat in Hst; naive_solver. }
  rewrite Hn in Ht.
  assert (∃ route, ((g_at g = GFirst ∧ route = route_first) ∨ (g_at g = GLoop ∧ route = λ m, Some (GDispatch m))) ∧
    run_conn ord ford ttl maxLen s c g = Some (g_read maxLen s c g route)) as (rt & Hrt & Erun).
  { unfold run_conn. destruct Hat as [->| ->]; eauto. }
  pose proof (readMessage_stream maxLen todo (g_out g) Hsend) as Er. rewrite <-Hrd in Er.
  assert (rank g = 3 * length (rd_data (g_rd g)) + 1)%nat as Hrank by (unfold rank; by destruct Hat as [->| ->]).
  destruct todo as [|m rest]; pose proof (talk_read ttl maxLen _ _ _ _ _ _ _ _ Hrt Hms Ht Er) as Hr; simpl in Hr.
  - unfold g_read in Erun. rewrite Er in Erun. eapply gets_on_step; [done..|apply lookup_insert_eq|]. rewrite Hrank.
    unfold rank. cbn [g_at]. lia.
  - destruct Hr as (p & Ep & Htp). unfold g_read in Erun. rewrite Er, Ep in Erun.
    eapply gets_on_step; [done..|apply lookup_insert_eq|].
    rewrite Hrank, Hrd. pose proof (stream_shrinks m rest). destruct Htp as (xs & todo' & pend & _ & _ & _ & _ & Hst).
    unfold stage in Hst. unfold rank. cbn [g_at g_rd] in *. destruct p; lia || done.
Qed.

Lemma call_gets_on s es a c g m ms : served s es a → valid (s_node s) → s_crashed s = false →
  conns !! c = Some (stream ms) → client_stream maxLen ms → s_conns s !! c = Some g → g_at g = GCalled m → gets_on s c g.
Proof.
  intros Hs Hv Hcr Hc Hms Hg Hat. destruct (v_talk _ _ _ _ _ _ _ _ Hs c ms Hc Hms) as (g0 & Hg0 & Ht).
  rewrite Hg in Hg0. injection Hg0 as <-.
  assert (∃ acts s' p, Forall (own_move c) acts ∧ srun ord ford ttl maxLen s acts = Some s' ∧ s_crashed s' = false ∧ s_conns s' = s_conns s ∧
    k_calls (s_node s') !! c = Some p ∧ ∀ w, p ≠ NCalling w) as (acts1 & s1 & p & Ho1 & E1 & Hcr1 & Hcs1 & Hp & Hpw).
  { destruct Ht as (xs & todo & pend & _ & _ & _ & _ & Hst). unfold stage in Hst. rewrite Hat in Hst.
    destruct Hst as (rest & r & now & _ & _ & _ & [[Hk _]|(q & res & Hk & _ & _ & Hq)]).
    - destruct (v_node _ _ _ _ _ _ _ _ Hs) as [_ Hsim Hfit _].
      destruct (call_returns ord Hord ford ttl maxLen limited s a c _ Hcr Hsim Hk (Hfit _ _ Hk)) as (acts & s' & res & Ho & E & H1 & H2 & H3).
      exists acts, s', (after_store (request_call ttl now r) res). split_and!; try done.
      intros w. by destruct (request_call ttl now r), res as [[[]| |]| |].
    - exists [], s, q. split_and!; try done. intros w ->. naive_solver. }
  pose proof (valid_srun ord ford ttl maxLen acts1 s s1 Hv E1) as Hv1.
  destruct (request_ends ord ford ttl maxLen _ s1 c p (le_n _) Hcr1 Hv1 Hp Hpw) as (acts2 & s2 & res & Ho2 & E2 & Hcr2 & Hcs2 & Hd).
  assert (srun ord ford ttl maxLen s (acts1 ++ acts2) = Some s2) as E12 by (rewrite srun_app, E1; exact E2).
  destruct (served_run ord Hord ford ttl maxLen _ _ _ _ _ _ _ _ Hs E12) as (es2 & a2 & Hs2).
  destruct (v_talk _ _ _ _ _ _ _ _ Hs2 c ms Hc Hms) as (g2 & Hg2 & Ht2). rewrite Hcs2, Hcs1, Hg in Hg2. injection Hg2 as <-.
  assert (∃ resp, reply m res = Ok resp) as [resp Hresp].
  { destruct Ht2 as (xs & todo & pend & _ & _ & _ & _ & Hst). unfold stage in Hst. rewrite Hat, Hd in Hst.
    destruct Hst as (rest & r & now & _ & _ & Hr & [[? _]|(q & res' & [= <-] & _ & Hf & [[= ->]|[_ Hq]])]); [done| |naive_solver].
    by eapply reply_fits. }
  eexists (acts1 ++ acts2 ++ [SRun c]), _, _. rewrite app_assoc, srun_app, E12. cbn [mbind option_bind srun].
  unfold sstep. rewrite Hcr2, Hcs2, Hcs1, Hg. cbn [mbind option_bind]. unfold run_conn. rewrite Hat, Hd. cbn [nstep]. rewrite Hd.
  cbn [mbind option_bind]. rewrite Hresp. split_and!; [|done|exact Hcr2|apply lookup_insert_eq|].
  { repeat (apply Forall_app; split); [done..|by constructor]. }
  unfold rank. rewrite Hat. cbn [gwrite g_at g_rd]. lia.
Qed.

Lemma conn_gets_on s es a c g ms : served s es a → valid (s_node s) → s_crashed s = false →
  conns !! c = Some (stream ms) → client_stream maxLen ms → s_conns s !! c = Some g → g_at g ≠ GEnded Closed → gets_on s c g.
Proof.
  intros Hs Hv Hcr Hc Hms Hg Hend. destruct (v_talk _ _ _ _ _ _ _ _ Hs c ms Hc Hms) as (g0 & Hg0 & Ht).
  rewrite Hg in Hg0. injection Hg0 as <-.
  assert (∀ g' s', run_conn ord ford ttl maxLen s c g = Some s' → s_crashed s' = false → s_conns s' !! c = Some g' →
    (rank g' < rank g)%nat → gets_on s c g) as Hstep by (intros; by eapply gets_on_step).
  pose proof Ht as (xs & todo & pend & _ & _ & _ & _ & Hst). unfold stage in Hst.
  destruct (g_at g) as [| |m|leader|m| | | | | | |[]] eqn:Hat; try done.
  - eapply read_gets_on; eauto.
  - eapply read_gets_on; eauto.
  - destruct Hst as (rest & _ & _ & Hn & _). unfold run_conn in Hstep. rewrite Hat in Hstep.
    destruct (_ =? _).
    + eapply Hstep; [done|done|apply lookup_insert_eq|]. unfold rank. rewrite Hat. cbn [gmove g_at g_rd]. lia.
    + destruct (request_of m) as [r|].
      * cbn [nstep] in Hstep. rewrite Hn in Hstep. destruct (v_node _ _ _ _ _ _ _ _ Hs) as [_ Hsim _ Hidle].
        assert (c_calls (k_base (s_node s)) !! c = None) as Hb.
        { pose proof (s_calls _ _ _ Hsim c) as Hm. rewrite (Hidle c) in Hm by (intros w; by rewrite Hn). by inversion Hm. }
        cbn [step] in Hstep. rewrite Hb in Hstep. eapply Hstep; [done|done|apply lookup_insert_eq|].
        unfold rank. rewrite Hat. cbn [gmove g_at g_rd]. lia.
      * eapply Hstep; [done|done|apply lookup_insert_eq|]. unfold rank. rewrite Hat. cbn [gwrite g_at g_rd]. lia.
  - unfold run_conn in Hstep. rewrite Hat in Hstep. eapply Hstep; [done|done|apply lookup_insert_eq|].
    unfold rank. rewrite Hat. cbn [gwrite g_at g_rd]. lia.
  - by eapply call_gets_on.
Qed.

(** From here the client can be answered to the end. *)
Lemma client_finishes k : ∀ s es a c g ms, (rank g ≤ k)%nat → served s es a → valid (s_node s) → s_crashed s = false →
  conns !! c = Some (stream ms) → client_stream maxLen ms → s_conns s !! c = Some g →
  ∃ acts s' g', Forall (own_move c) acts ∧ srun ord ford ttl maxLen s acts = Some s' ∧ s_crashed s' = false ∧
    s_conns s' !! c = Some g' ∧ g_at g' = GEnded Closed.
Proof.
  induction k as [|k IH]; intros s es a c g ms Hk Hs Hv Hcr Hc Hms Hg.
  all: assert (g_at g = GEnded Closed ∨ g_at g ≠ GEnded Closed) as [He|He]
    by (destruct (g_at g) as [| | | | | | | | | | |[]]; auto); [by exists [], s, g|].
  all: destruct (conn_gets_on s es a c g ms) as (acts & s1 & g1 & Ho & E & Hcr1 & Hg1 & Hr); try done; try lia.
  destruct (served_run ord Hord ford ttl maxLen _ _ _ _ _ _ _ _ Hs E) as (es1 & a1 & Hs1).
  pose proof (valid_srun ord ford ttl maxLen acts s s1 Hv E) as Hv1.
  destruct (IH s1 _ _ c g1 ms ltac:(lia) Hs1 Hv1 Hcr1 Hc Hms Hg1) as (acts' & s' & g' & Ho' & E' & Hcr' & Hg' & Hend).
  exists (acts ++ acts'), s', g'. split_and!; [by apply Forall_app| |done..]. rewrite srun_app, E. exact E'.
Qed.
End ends.
