(* ===== verification/MemoryBytes.v ===== *)
(** * Sizes in the configuration (utils/memory_bytes.go)

    Reading "512MB" and printing it; the product of number and unit is an [int64],
    which may wrap. *)

From S2P Require Import Prelude GoLang Strings.

Definition suffixes : list (gostring * Z) :=
  [(str "TB", 2 ^ 40); (str "GB", 2 ^ 30); (str "MB", 2 ^ 20); (str "KB", 2 ^ 10);
   (str "T", 2 ^ 40); (str "G", 2 ^ 30); (str "M", 2 ^ 20); (str "K", 2 ^ 10)].

(** The loop over the table: the first suffix that matches decides. *)
Fixpoint suffix_loop {U : Unicode} (s upper : gostring) (es : list (gostring * Z)) : go Z :=
  match es with
  | [] => ParseInt s
  | (suffix, mult) :: es =>
      if HasSuffix upper suffix then
        t ← s.[0 : len s - len suffix];
        n ← ParseInt (TrimSpace t);
        Ok (i64 (n * mult))
      else suffix_loop s upper es
  end.

Definition ParseMemoryBytes {U : Unicode} (s : gostring) : go Z :=
  let s := TrimSpace s in
  let upper := ToUpper s in
  suffix_loop s upper suffixes.

Definition FormatMemoryBytes (b : Z) : gostring :=
  if b =? 0 then str "unlimited" else
  if 2 ^ 40 <=? b then Itoa (Z.shiftr b 40) ++ str "TB" else
  if 2 ^ 30 <=? b then Itoa (Z.shiftr b 30) ++ str "GB" else
  if 2 ^ 20 <=? b then Itoa (Z.shiftr b 20) ++ str "MB" else
  if 2 ^ 10 <=? b then Itoa (Z.shiftr b 10) ++ str "KB" else
  Itoa b ++ str "B".

(** ** Reading a size *)

Lemma strip_prefix_app p s : strip_prefix p (p ++ s) = Some s.
Proof. induction p as [|c p IH]; [done|]. cbn. by rewrite Z.eqb_refl. Qed.

Lemma HasSuffix_app s suffix : HasSuffix (s ++ suffix) suffix = true.
Proof. unfold HasSuffix. by rewrite reverse_app, strip_prefix_app. Qed.

Lemma is_ascii_app a b : is_ascii (a ++ b) = is_ascii a && is_ascii b.
Proof. apply forallb_app. Qed.

Definition ws (a : gostring) : Prop := Forall (λ c, c ∈ ascii_spaces) a.

Lemma ws_ascii a : ws a → is_ascii a = true.
Proof.
  unfold ws. intros Ha. apply forallb_forall. intros c Hc. apply list_elem_of_In in Hc.
  rewrite Forall_forall in Ha. apply Ha in Hc. unfold ascii_spaces in Hc.
  rewrite !elem_of_cons, elem_of_nil in Hc. naive_solver.
Qed.

Lemma digits_ascii ds : Forall digit ds → is_ascii ds = true.
Proof.
  intros H. apply forallb_forall. intros c Hc. apply list_elem_of_In in Hc.
  rewrite Forall_forall in H. apply H in Hc. unfold digit in Hc. lia.
Qed.

Lemma digits_solid ds : Forall digit ds → ds ≠ [] → solid_ends ds.
Proof.
  assert (∀ c, digit c → solid c = true) as Hs by (unfold digit, solid; intros; lia).
  intros H Hne. split.
  - destruct ds as [|c s]; [done|]. apply Forall_cons in H as [? _]. eauto.
  - destruct (exists_last Hne) as (s & c & ->). apply Forall_app in H as [_ [? _]%Forall_cons]. eauto.
Qed.

(** The spellings of a unit: its letters in either case. *)
Definition unit_of (u : gostring) (mult : Z) : Prop :=
  is_ascii u = true ∧ (upper_byte <$> u, mult) ∈ suffixes.

Lemma unit_solid u mult : unit_of u mult → ∃ c s, u = s ++ [c] ∧ solid c = true.
Proof.
  intros [_ Hu]. destruct (exists_last (l:=u)) as (s & c & ->).
  { intros ->. unfold suffixes in Hu. rewrite !elem_of_cons, elem_of_nil in Hu. naive_solver. }
  exists c, s. split; [done|]. rewrite fmap_app in Hu. cbn [fmap list_fmap] in Hu.
  assert (∀ t m, (t ++ [upper_byte c], m) ∈ suffixes → solid (upper_byte c) = true) as Hs.
  { intros t m Hin. unfold suffixes in Hin. rewrite !elem_of_cons, elem_of_nil in Hin.
    destruct_or?; try done; injection Hin as Ht _;
      apply (f_equal last) in Ht; rewrite last_snoc in Ht; cbn in Ht; injection Ht as ->; done. }
  apply Hs in Hu. revert Hu. unfold solid, upper_byte.
  destruct ((97 <=? c) && (c <=? 122)) eqn:E; [|done]. apply andb_true_iff in E as [?%Z.leb_le ?%Z.leb_le]. lia.
Qed.

Lemma suffix_loop_unit {U : Unicode} s x u mult :
  (u, mult) ∈ suffixes → len s = len x + len u →
  suffix_loop s (x ++ u) suffixes =
  (t ← s.[0 : len x]; n ← ParseInt (TrimSpace t); Ok (i64 (n * mult))).
Proof.
  intros Hu Hlen. unfold suffixes in Hu. rewrite !elem_of_cons, elem_of_nil in Hu.
  destruct_or?; try done; injection Hu as -> ->; unfold suffixes; cbn [suffix_loop];
    unfold HasSuffix; rewrite reverse_app; cbn -[len TrimSpace ParseInt]; do 2 f_equal;
    rewrite Hlen; cbn; unfold len; cbn; lia.
Qed.

(** What [ParseMemoryBytes] reads: a decimal number with any of the units in either
    case, with white space around and between. *)
Lemma ParseMemoryBytes_unit {U : Unicode} a n b u mult c :
  ws a → ws b → ws c → unit_of u mult → 0 ≤ n < 2 ^ 63 →
  ParseMemoryBytes (a ++ Itoa n ++ b ++ u ++ c) = Ok (i64 (n * mult)).
Proof.
  intros Ha Hb Hc Hu Hn. destruct (Itoa_digits n) as (Hne & Hd & _); [lia|].
  destruct (digits_solid _ Hd Hne) as [Hfirst _].
  assert (solid_ends (Itoa n ++ b ++ u)) as Hends.
  { split.
    - destruct Hfirst as (d & s & -> & Hs). eexists d, _. by split.
    - destruct (unit_solid u mult Hu) as (d & s & -> & Hs). exists d, (Itoa n ++ b ++ s). by rewrite !app_assoc. }
  unfold ParseMemoryBytes. replace (Itoa n ++ b ++ u ++ c) with ((Itoa n ++ b ++ u) ++ c) by (by rewrite <-!app_assoc).
  rewrite TrimSpace_solid by done. destruct Hu as [Hua Hu].
  unfold ToUpper. rewrite !is_ascii_app, (digits_ascii _ Hd), (ws_ascii _ Hb), Hua. cbn [andb].
  rewrite app_assoc, fmap_app, (suffix_loop_unit _ _ _ _ Hu).
  2: { unfold len. rewrite !length_fmap, !length_app. lia. }
  rewrite slice_here by (unfold len; rewrite ?length_fmap; lia).
  pose proof (TrimSpace_solid [] (Itoa n) b) as E. cbn [app] in E.
  cbn [mbind go_bind]. rewrite E; [by rewrite ParseInt_Itoa|constructor|done|by apply digits_solid].
Qed.

(** The unit [FormatMemoryBytes] prints a size in. *)
Definition print_unit (b : Z) : Z :=
  if 2 ^ 40 <=? b then 2 ^ 40 else if 2 ^ 30 <=? b then 2 ^ 30 else
  if 2 ^ 20 <=? b then 2 ^ 20 else 2 ^ 10.

Lemma parse_printed {U : Unicode} b k u :
  0 ≤ k → 2 ^ k ≤ b < 2 ^ 63 → unit_of u (2 ^ k) →
  ParseMemoryBytes (Itoa (Z.shiftr b k) ++ u) = Ok (b - b `mod` 2 ^ k).
Proof.
  intros Hk Hb Hu. rewrite Z.shiftr_div_pow2 by done.
  assert (0 < 2 ^ k) by (apply Z.pow_pos_nonneg; lia).
  pose proof (Z.div_mod b (2 ^ k)). pose proof (Z.mod_pos_bound b (2 ^ k)).
  assert (0 ≤ b `div` 2 ^ k ≤ b) by (split; [apply Z.div_pos; lia|apply Z.div_le_upper_bound; nia]).
  pose proof (ParseMemoryBytes_unit [] (b `div` 2 ^ k) [] u (2 ^ k) []) as E.
  rewrite app_nil_r in E. cbn [app] in E. rewrite E; [|by constructor..|done|lia].
  rewrite i64_small by lia. f_equal. lia.
Qed.

Lemma small_sizes_refused {U : Unicode} b :
  0 ≤ b < 2 ^ 10 → ∃ e, ParseMemoryBytes (FormatMemoryBytes b) = Err e.
Proof.
  intros Hb.
  assert (forallb (λ i, match ParseMemoryBytes (FormatMemoryBytes (Z.of_nat i)) with Err _ => true | _ => false end)
            (seq 0 1024) = true) as Hall by (vm_compute; reflexivity).
  rewrite forallb_forall in Hall. specialize (Hall (Z.to_nat b)). rewrite Z2Nat.id in Hall by lia.
  destruct (ParseMemoryBytes _) as [?|e|]; [|by exists e|]; discriminate Hall; apply in_seq; lia.
Qed.

Ltac printed_in :=
  apply parse_printed; [lia|lia|split; [done|refine (bool_decide_eq_true_1 _ _); vm_compute; reflexivity]].

(** C36.  Printing a size and reading it back: from 1 KB on, [ParseMemoryBytes] reads
    what [FormatMemoryBytes] prints, and gives the size rounded down to the printed
    unit; the text for 0 ("unlimited") and those below 1 KB ("512B") are not sizes it
    accepts. *)
Theorem memory_size_roundtrip {U : Unicode} b :
  0 ≤ b < 2 ^ 63 →
  if 2 ^ 10 <=? b
  then ParseMemoryBytes (FormatMemoryBytes b) = Ok (b - b `mod` print_unit b)
  else ∃ e, ParseMemoryBytes (FormatMemoryBytes b) = Err e.
Proof.
  intros Hb. destruct (Z.leb_spec (2 ^ 10) b) as [H0|H0]; [|apply small_sizes_refused; lia].
  unfold FormatMemoryBytes, print_unit. rewrite (proj2 (Z.eqb_neq b 0)) by lia.
  destruct (Z.leb_spec (2 ^ 40) b); [printed_in|].
  destruct (Z.leb_spec (2 ^ 30) b); [printed_in|].
  destruct (Z.leb_spec (2 ^ 20) b); [printed_in|].
  rewrite (proj2 (Z.leb_le (2 ^ 10) b)) by lia. printed_in.
Qed.

Lemma memory_size_roundtrip_witness :
  0 ≤ 3000 < 2 ^ 63 ∧ ParseMemoryBytes (U:=ascii_text) (FormatMemoryBytes 3000) = Ok 2048.
Proof. split; [lia|]. apply (memory_size_roundtrip (U:=ascii_text) 3000). lia. Defined.

(** The product wraps: a size of [2^64] bytes reads as none at all. *)
Example huge_size_is_zero : ParseMemoryBytes (U:=ascii_text) (str "16777216TB") = Ok 0.
Proof. reflexivity. Qed.
