(* ===== verification/Config.v ===== *)
(** * Configuration (config/load_config.go, config/config_types.go)

    The configuration read from environment variables.  An environment is a function
    from names to values, empty for a variable that is not set ([os.Getenv]).
    Durations are read as [time.ParseDuration] reads them (Duration.v). *)

From S2P Require Import Prelude GoLang Strings MemoryBytes Duration.

Module config.

(** ** config_types.go *)

Record ClusterConfig := mkClusterConfig { NodeAddr : gostring; Peers : list gostring }.
Record ServerConfig := mkServerConfig { Port : gostring; MaxPayloadBytes : Z }.
Record StoreConfig := mkStoreConfig {
  ShardCount : Z; DefaultTTL : Z; WALPath : gostring; MaxMemoryBytes : Z; EvictionPolicy : gostring }.
Record WALConfig := mkWALConfig { Mode : gostring; FlushInterval : Z; MaxBatchSize : Z }.
Record Config := mkConfig { Server : ServerConfig; Store : StoreConfig; WAL : WALConfig; Cluster : ClusterConfig }.

(** ** load_config.go *)

Definition Millisecond : Z := 1000000.
Definition Minute : Z := 60 * 1000 * Millisecond.

Definition Default : Config := mkConfig
  (mkServerConfig (str ":6379") (10 * 1024 * 1024))
  (mkStoreConfig 32 (15 * Minute) (str "production.wal") 0 (str "noevict"))
  (mkWALConfig (str "interval") (500 * Millisecond) 1000)
  (mkClusterConfig [] []).

Definition on_server (f : ServerConfig → ServerConfig) (c : Config) : Config :=
  mkConfig (f (Server c)) (Store c) (WAL c) (Cluster c).
Definition on_store (f : StoreConfig → StoreConfig) (c : Config) : Config :=
  mkConfig (Server c) (f (Store c)) (WAL c) (Cluster c).
Definition on_wal (f : WALConfig → WALConfig) (c : Config) : Config :=
  mkConfig (Server c) (Store c) (f (WAL c)) (Cluster c).
Definition on_cluster (f : ClusterConfig → ClusterConfig) (c : Config) : Config :=
  mkConfig (Server c) (Store c) (WAL c) (f (Cluster c)).

(** [if v := os.Getenv(name); v != ""] *)
Definition with_env (env : gostring → gostring) (name : string) (set : gostring → Config → Config) (c : Config)
    : Config :=
  let v := env (str name) in
  if bool_decide (v = []) then c else set v c.

(** [if n, err := parse(v); err == nil && n > 0] *)
Definition if_positive (parsed : go Z) (set : Z → Config → Config) (c : Config) : Config :=
  match parsed with
  | Ok n => if 0 <? n then set n c else c
  | _ => c
  end.

Section load.
Context {U : Unicode}.

Definition set_Port v := on_server (λ s, mkServerConfig v (MaxPayloadBytes s)).
Definition set_MaxPayloadBytes v c :=
  match ParseUint v 32 with
  | Ok n => on_server (λ s, mkServerConfig (Port s) (u32 n)) c
  | _ => c
  end.
Definition set_ShardCount v := if_positive (Atoi v) (λ n,
  on_store (λ s, mkStoreConfig n (DefaultTTL s) (WALPath s) (MaxMemoryBytes s) (EvictionPolicy s))).
Definition set_DefaultTTL v := if_positive (ParseDuration v) (λ d,
  on_store (λ s, mkStoreConfig (ShardCount s) d (WALPath s) (MaxMemoryBytes s) (EvictionPolicy s))).
Definition set_WALPath v :=
  on_store (λ s, mkStoreConfig (ShardCount s) (DefaultTTL s) v (MaxMemoryBytes s) (EvictionPolicy s)).
Definition set_Mode v := on_wal (λ w, mkWALConfig v (FlushInterval w) (MaxBatchSize w)).
Definition set_FlushInterval v := if_positive (ParseDuration v) (λ d,
  on_wal (λ w, mkWALConfig (Mode w) d (MaxBatchSize w))).
Definition set_MaxBatchSize v := if_positive (Atoi v) (λ n,
  on_wal (λ w, mkWALConfig (Mode w) (FlushInterval w) n)).
Definition set_NodeAddr v := on_cluster (λ c, mkClusterConfig v (Peers c)).
Definition set_Peers v := on_cluster (λ c, mkClusterConfig (NodeAddr c) (Split v 44)).
Definition set_MaxMemoryBytes v := if_positive (ParseMemoryBytes v) (λ n,
  on_store (λ s, mkStoreConfig (ShardCount s) (DefaultTTL s) (WALPath s) n (EvictionPolicy s))).
Definition set_EvictionPolicy v :=
  on_store (λ s, mkStoreConfig (ShardCount s) (DefaultTTL s) (WALPath s) (MaxMemoryBytes s) (ToLower (TrimSpace v))).

Definition Load (env : gostring → gostring) : Config :=
  let cfg := Default in
  let cfg := with_env env "KV_PORT" set_Port cfg in
  let cfg := with_env env "KV_MAX_PAYLOAD_BYTES" set_MaxPayloadBytes cfg in
  let cfg := with_env env "KV_SHARD_COUNT" set_ShardCount cfg in
  let cfg := with_env env "KV_DEFAULT_TTL" set_DefaultTTL cfg in
  let cfg := with_env env "KV_WAL_PATH" set_WALPath cfg in
  let cfg := with_env env "KV_WAL_MODE" set_Mode cfg in
  let cfg := with_env env "KV_WAL_FLUSH_INTERVAL" set_FlushInterval cfg in
  let cfg := with_env env "KV_WAL_BATCH_SIZE" set_MaxBatchSize cfg in
  let cfg := with_env env "KV_NODE_ADDR" set_NodeAddr cfg in
  let cfg := with_env env "KV_PEERS" set_Peers cfg in
  let cfg := with_env env "KV_MAX_MEMORY" set_MaxMemoryBytes cfg in
  let cfg := with_env env "KV_EVICTION_POLICY" set_EvictionPolicy cfg in
  cfg.

(** ** Every configuration that [Load] gives is one the program can start with *)

Record valid (c : Config) : Prop := {
  valid_payload : 0 ≤ MaxPayloadBytes (Server c) < 2 ^ 32;
  valid_shards : 0 < ShardCount (Store c);
  valid_ttl : 0 < DefaultTTL (Store c) < 2 ^ 63;
  valid_memory : 0 ≤ MaxMemoryBytes (Store c);
  valid_flush : 0 < FlushInterval (WAL c) < 2 ^ 63;
  valid_batch : 0 < MaxBatchSize (WAL c);
}.

Lemma with_env_valid env name set c :
  (∀ v, valid c → valid (set v c)) → valid c → valid (with_env env name set c).
Proof. intros Hset Hc. unfold with_env. case_bool_decide; auto. Qed.

Lemma if_positive_valid r set c :
  (∀ n, r = Ok n → 0 < n → valid c → valid (set n c)) → valid c → valid (if_positive r set c).
Proof. intros Hset Hc. unfold if_positive. destruct r; [|done..]. destruct (Z.ltb_spec 0 a); auto. Qed.

Lemma Load_valid env : valid (Load env).
Proof.
  unfold Load. repeat (apply with_env_valid; [intros v Hc|]).
  13: split; cbn; unfold Minute, Millisecond; lia.
  all: try (apply if_positive_valid; [intros n En Hn []; split; try apply ParseDuration_range in En; by (done || cbn; lia)|done]).
  all: try (destruct Hc; by split).
  unfold set_MaxPayloadBytes. destruct (ParseUint v 32); [|done..].
  destruct Hc. split; try done. apply u32_range.
Qed.
End load.
End config.
