(* ===== verification/Cli.v ===== *)
(** * The command-line client (cli/cli.go)

    The client's view of the cluster, how it finds the leader and routes and retries
    a command, and the commands a user types.  The network is a parameter: a state,
    and what comes back when a request is sent to an address ([exchange]: dial, write
    the frame, the bytes that can then be read, or the error of the dial or the
    write).  [intn] is [rand.Intn].  [time.Sleep] and progress messages are left
    out. *)

From S2P Require Import Prelude GoLang Protocol KvMessages ClusterMessages ClientMessages Messages.
From S2P Require Import Strings Raft.

Definition defaultAddr : gostring := str "localhost:6379".

Record kvClient := mkClient { knownAddrs : list addr; cli_leaderAddr : addr; cli_followers : list addr }.

Definition newClient (seed : addr) : kvClient := mkClient [seed] [] [].

Definition addKnown (c : kvClient) (a : addr) : kvClient :=
  if bool_decide (a ∈ knownAddrs c) then c
  else mkClient (knownAddrs c ++ [a]) (cli_leaderAddr c) (cli_followers c).

(** The body of [connect] for a topology that was received. *)
Definition learn_node (leader : addr) (c : kvClient) (n : NodeInfo) : kvClient :=
  let c := addKnown c (NodeInfo_Address n) in
  if bool_decide (NodeInfo_Address n = leader) then c
  else mkClient (knownAddrs c) (cli_leaderAddr c) (cli_followers c ++ [NodeInfo_Address n]).

Definition learn (c : kvClient) (topo : TopologyResponse) : kvClient :=
  foldl (learn_node (TopologyResponse_LeaderAddr topo))
    (mkClient (knownAddrs c) (TopologyResponse_LeaderAddr topo) []) (TopologyResponse_Nodes topo).

Definition err_no_topology : error :=
  ErrorString (str "no reachable node returned a topology with a leader").
Definition err_no_leader : error :=
  ErrorString (str "no leader elected after 4.5s — cluster may be down").
Definition err_unavailable : error := ErrorString (str "cluster unavailable after retries").
Definition err_unexpected (opcode : Z) : error :=
  ErrorString (str "unexpected response type 0x" ++ hex2 opcode).

Section client.
Context {N : Type} (exchange : addr → gobytes → N → go reader * N) (intn : Z → N → Z * N).

Definition sendMessage (out : gobytes) (msg : Msg) : go gobytes := WriteFrame out msg.
Definition receiveMessage (rd : reader) : go Msg * reader := ReadFrame registry rd 0.

(** Dial, [sendMessage], [receiveMessage]. *)
Definition sendToNode (a : addr) (msg : Msg) (net : N) : go Msg * N :=
  match sendMessage [] msg with
  | Ok req =>
      match exchange a req net with
      | (Ok rd, net) => ((receiveMessage rd).1, net)
      | (Err e, net) => (Err e, net)
      | (Panic, net) => (Panic, net)
      end
  | Err e => (Err e, net)
  | Panic => (Panic, net)
  end.

Definition topology_request : Msg := MTopologyRequest mkTopologyRequest.

Definition fetchTopology (a : addr) (net : N) : go TopologyResponse * N :=
  let '(res, net) := sendToNode a topology_request net in
  (msg ← res;
   match msg with
   | MTopologyResponse topo => Ok topo
   | _ => Err (err_unexpected (OpCode msg))
   end, net).

(** [connect]: the addresses are those known when the loop starts. *)
Fixpoint connect_loop (addrs : list addr) (c : kvClient) (net : N) : go () * kvClient * N :=
  match addrs with
  | [] => (Err err_no_topology, c, net)
  | a :: addrs =>
      match fetchTopology a net with
      | (Err _, net) => connect_loop addrs c net
      | (Panic, net) => (Panic, c, net)
      | (Ok topo, net) =>
          let c := learn c topo in
          if bool_decide (cli_leaderAddr c = []) then connect_loop addrs c net else (Ok (), c, net)
      end
  end.

Definition connect (c : kvClient) (net : N) : go () * kvClient * N := connect_loop (knownAddrs c) c net.

Fixpoint wait_loop (tries : nat) (c : kvClient) (net : N) : go () * kvClient * N :=
  match tries with
  | O => (Err err_no_leader, c, net)
  | S tries =>
      match connect c net with
      | (Ok _, c, net) =>
          if bool_decide (cli_leaderAddr c = []) then wait_loop tries c net else (Ok (), c, net)
      | (Err _, c, net) => wait_loop tries c net
      | (Panic, c, net) => (Panic, c, net)
      end
  end.
Definition waitForLeader : kvClient → N → go () * kvClient * N := wait_loop 15.

(** [c.followers[i]] panics out of range. *)
Definition pickTarget (c : kvClient) (isWrite : bool) (net : N) : go addr * N :=
  if isWrite then (Ok (cli_leaderAddr c), net) else
  if 0 <? len (cli_followers c) then
    let '(i, net) := intn (len (cli_followers c)) net in
    (match cli_followers c !! Z.to_nat i with Some a => Ok a | None => Panic end, net)
  else (Ok (cli_leaderAddr c), net).

Definition is_write (msg : Msg) : bool := (OpCode msg =? OpSet) || (OpCode msg =? OpDelete).

Fixpoint execute_loop (attempts : nat) (c : kvClient) (msg : Msg) (net : N) : go Msg * kvClient * N :=
  match attempts with
  | O => (Err err_unavailable, c, net)
  | S attempts =>
      match pickTarget c (is_write msg) net with
      | (Ok target, net) =>
          if bool_decide (target = []) then
            match waitForLeader c net with
            | (Ok _, c, net) => execute_loop attempts c msg net
            | (Err e, c, net) => (Err e, c, net)
            | (Panic, c, net) => (Panic, c, net)
            end
          else
            match sendToNode target msg net with
            | (Ok resp, net) => (Ok resp, c, net)
            | (Panic, net) => (Panic, c, net)
            | (Err _, net) =>
                let c := mkClient (knownAddrs c) [] (cli_followers c) in
                match waitForLeader c net with
                | (Panic, c, net) => (Panic, c, net)
                | (_, c, net) => execute_loop attempts c msg net
                end
            end
      | (Err e, net) => (Err e, c, net)
      | (Panic, net) => (Panic, c, net)
      end
  end.
Definition execute : kvClient → Msg → N → go Msg * kvClient * N := execute_loop 8.
End client.

(** ** Commands *)

Section commands.
Context {U : Unicode}.

(** [parts[0]] panics when there are no fields. *)
Definition parseCommand (input : gostring) : go Msg :=
  let parts := Fields input in
  match parts with
  | [] => Panic
  | cmd :: args =>
      let cmd' := ToUpper cmd in
      if bool_decide (cmd' = str "GET") then
        match args with
        | [k] => Ok (MGetRequest (mkGetRequest k))
        | _ => Err (ErrorString (str "usage: GET <key>"))
        end
      else if bool_decide (cmd' = str "SET") then
        match args with
        | k :: v :: vs => Ok (MSetRequest (mkSetRequest k (Join (v :: vs) (str " ")) 0))
        | _ => Err (ErrorString (str "usage: SET <key> <value>"))
        end
      else if bool_decide (cmd' = str "DEL") then
        match args with
        | [k] => Ok (MDeleteRequest (mkDeleteRequest k))
        | _ => Err (ErrorString (str "usage: DEL <key>"))
        end
      else Err (ErrorString (str "unknown command " ++ Quote cmd ++ str " — available: GET, SET, DEL, topology"))
  end.

(** What [main] does with a line before it asks the cluster. *)
Inductive command := CSkip | CExit | CTopology | CInvalid (e : error) | CRequest (msg : Msg) | CPanic.

Definition read_command (input : gostring) : command :=
  let command := TrimSpace input in
  if bool_decide (command = []) then CSkip else
  if bool_decide (ToLower command = str "exit") || bool_decide (ToLower command = str "quit") then CExit else
  if bool_decide (ToLower command = str "topology") then CTopology else
  match parseCommand command with
  | Ok msg => CRequest msg
  | Err e => CInvalid e
  | Panic => CPanic
  end.
End commands.

(** ** What the user sees *)

Definition ColorReset : gostring := 27 :: str "[0m".
Definition ColorRed : gostring := 27 :: str "[31m".
Definition ColorGreen : gostring := 27 :: str "[32m".
Definition ColorYellow : gostring := 27 :: str "[33m".
Definition ColorCyan : gostring := 27 :: str "[36m".
Definition ColorBold : gostring := 27 :: str "[1m".

Definition quoted (s : gostring) : gostring := [34] ++ s ++ [34].

Definition printResponse (msg : Msg) : gostring :=
  match msg with
  | MGetResponse r =>
      if GetResponse_Found r then ColorCyan ++ ColorBold ++ quoted (GetResponse_Value r) ++ ColorReset
      else ColorYellow ++ str "(nil)" ++ ColorReset
  | MSetResponse r =>
      if SetResponse_Success r then ColorGreen ++ SetResponse_Message r ++ ColorReset
      else ColorRed ++ ColorBold ++ SetResponse_Message r ++ ColorReset
  | MDeleteResponse r =>
      if DeleteResponse_Success r then ColorGreen ++ DeleteResponse_Message r ++ ColorReset
      else ColorYellow ++ DeleteResponse_Message r ++ ColorReset
  | MErrorMessage r =>
      ColorRed ++ ColorBold ++ str "ERR [" ++ Itoa (ErrorMessage_Code r) ++ str "]: " ++ ErrorMessage_Message r ++ ColorReset
  | _ => ColorRed ++ str "(unexpected opcode 0x" ++ hex2 (OpCode msg) ++ str ")" ++ ColorReset
  end ++ [10].

Definition printTopology (c : kvClient) : gostring :=
  str "  Leader:    " ++ ColorBold ++ cli_leaderAddr c ++ ColorReset ++ [10] ++
  concat (imap (λ i f, str "  Follower" ++ Itoa (Z.of_nat i + 1) ++ str ": " ++ f ++ [10]) (cli_followers c)).

(** One line of the prompt: what is printed, the client and network after it, and
    whether the loop goes on. *)
Definition repl_line {U : Unicode} {N} (exchange : addr → gobytes → N → go reader * N) (intn : Z → N → Z * N)
    (input : gostring) (c : kvClient) (net : N) : go (gostring * bool) * kvClient * N :=
  match read_command input with
  | CSkip => (Ok ([], true), c, net)
  | CExit => (Ok (str "Goodbye!" ++ [10], false), c, net)
  | CTopology => (Ok (printTopology c, true), c, net)
  | CInvalid e => (Ok (ColorRed ++ Error e ++ ColorReset ++ [10], true), c, net)
  | CPanic => (Panic, c, net)
  | CRequest msg =>
      match execute exchange intn c msg net with
      | (Ok resp, c, net) => (Ok (printResponse resp, true), c, net)
      | (Err e, c, net) => (Ok (ColorRed ++ Error e ++ ColorReset ++ [10], true), c, net)
      | (Panic, c, net) => (Panic, c, net)
      end
  end.
