(* ===== verification/CliProps.v ===== *)
(** * The properties of the command-line client *)

From S2P Require Import Prelude GoLang Protocol KvMessages ClusterMessages ClientMessages Messages.
From S2P Require Import WalRecord Os WalWriter Shard Eviction Store Recovery StoreSpec Logs StoreProps.
From S2P Require Import Raft RaftProps Replication ReplicationProps Engine Server ServerProps Strings Cli.

(** ** What a line of input becomes *)

Lemma strip_prefix_some p s s' : strip_prefix p s = Some s' → s = p ++ s'.
Proof.
  revert s. induction p as [|a p IH]; intros [|b s]; cbn; try congruence.
  destruct (Z.eqb_spec a b) as [->|]; [|done]. intros E. f_equal. by apply IH.
Qed.

Lemma strip_any_some ps s s' : strip_any ps s = Some s' → ∃ p, p ∈ ps ∧ s = p ++ s'.
Proof.
  induction ps as [|p ps IH]; [done|]. cbn. destruct (strip_prefix p s) eqn:E.
  - intros [= <-]. exists p. split; [by left|]. by apply strip_prefix_some.
  - intros (q & Hq & ->)%IH. exists q. split; [by right|done].
Qed.

Lemma strip_prefix_mono p s t s' : strip_prefix p s = Some s' → strip_prefix p (s ++ t) = Some (s' ++ t).
Proof.
  revert s. induction p as [|a p IH]; intros s; cbn [strip_prefix]; [by intros [= <-]|].
  destruct s as [|b s]; [done|]. cbn [app]. destruct (a =? b); [|done]. apply IH.
Qed.

Lemma strip_any_mono ps s t : strip_any ps (s ++ t) = None → strip_any ps s = None.
Proof.
  induction ps as [|p ps IH]; [done|]. cbn. destruct (strip_prefix p s) as [s'|] eqn:E.
  - by rewrite (strip_prefix_mono _ _ _ _ E).
  - destruct (strip_prefix p (s ++ t)); [done|]. apply IH.
Qed.

Definition nonempty_all (ps : list gostring) : bool := forallb (λ p, match p with [] => false | _ => true end) ps.

Lemma strip_all_done ps fuel s :
  nonempty_all ps = true → (length s ≤ fuel)%nat →
  strip_all fuel ps s = [] ∨ strip_any ps (strip_all fuel ps s) = None.
Proof.
  intros Hps. revert s. induction fuel as [|fuel IH]; intros s Hs; [left; by destruct s; cbn in *; [|lia]|].
  cbn [strip_all]. destruct (strip_any ps s) as [s'|] eqn:E; [|by right].
  apply IH. apply strip_any_some in E as (p & Hp & ->). apply list_elem_of_In in Hp.
  unfold nonempty_all in Hps. rewrite forallb_forall in Hps. apply Hps in Hp. destruct p; [done|].
  cbn in Hs. rewrite length_app in Hs. lia.
Qed.

Lemma strip_all_suffix ps fuel s : ∃ t, s = t ++ strip_all fuel ps s.
Proof.
  revert s. induction fuel as [|fuel IH]; intros s; [by exists []|]. cbn [strip_all].
  destruct (strip_any ps s) as [s'|] eqn:E; [|by exists []].
  apply strip_any_some in E as (p & _ & ->). destruct (IH s') as [t Ht]. exists (p ++ t).
  by rewrite <-app_assoc, <-Ht.
Qed.

Lemma TrimSpace_start s : TrimSpace s = [] ∨ strip_any spaces (TrimSpace s) = None.
Proof.
  unfold TrimSpace, TrimRightSpace. set (l := TrimLeftSpace s).
  destruct (strip_all_suffix (reverse <$> spaces) (length l) (reverse l)) as [t Ht].
  apply (f_equal reverse) in Ht. rewrite reverse_involutive, reverse_app in Ht.
  destruct (strip_all_done spaces (length s) s) as [E|E]; [done|done| |];
    fold (TrimLeftSpace s) in E; fold l in E; rewrite Ht in E.
  - left. by apply app_eq_nil in E as [? _].
  - right. by apply strip_any_mono in E.
Qed.

Lemma fields_cur fuel s cur : cur ≠ [] → fields_loop fuel s cur ≠ [].
Proof.
  revert s cur. induction fuel as [|fuel IH]; intros s cur Hc; [by destruct cur|].
  destruct s as [|c s]; [by destruct cur|]. cbn [fields_loop].
  destruct (strip_any spaces (c :: s)); [by destruct cur|]. apply IH. by destruct cur.
Qed.

Lemma read_command_no_panic {U : Unicode} input : read_command input ≠ CPanic.
Proof.
  unfold read_command. case_bool_decide as Hne; [done|]. destruct (_ || _); [done|]. case_bool_decide; [done|].
  assert (Fields (TrimSpace input) ≠ []) as Hf.
  { unfold Fields. destruct (TrimSpace_start input) as [?|E]; [done|].
    destruct (TrimSpace input) as [|c s]; [done|]. cbn [length fields_loop]. rewrite E. by apply fields_cur. }
  unfold parseCommand. destruct (Fields (TrimSpace input)) as [|cmd args]; [done|].
  repeat case_bool_decide; repeat case_match; simplify_eq; done.
Qed.

(** A word: printable ASCII without spaces. *)
Definition word (w : gostring) : Prop := w ≠ [] ∧ forallb solid w = true.

Lemma fields_word fuel w s cur :
  forallb solid w = true → fields_loop (length w + fuel) (w ++ s) cur = fields_loop fuel s (cur ++ w).
Proof.
  revert cur. induction w as [|c w IH]; intros cur Hw; cbn [length app Nat.add]; [by rewrite app_nil_r|].
  apply andb_true_iff in Hw as [Hc Hw]. cbn [fields_loop]. rewrite strip_any_solid by done.
  rewrite IH by done. by rewrite <-app_assoc.
Qed.

Lemma Join_cons x y l sep : Join (x :: y :: l) sep = x ++ sep ++ Join (y :: l) sep.
Proof. done. Qed.

Lemma fields_join ws : Forall word ws → fields_loop (length (Join ws [32])) (Join ws [32]) [] = ws.
Proof.
  induction 1 as [|w ws [Hne Hw] Hws IH]; [done|]. destruct ws as [|w' ws].
  - cbn [Join]. pose proof (fields_word 0 w [] [] Hw) as E. rewrite Nat.add_0_r, app_nil_r in E. rewrite E.
    by destruct w.
  - rewrite Join_cons, !length_app, fields_word by done. cbn [app length Nat.add fields_loop].
    rewrite (strip_space 32) by (unfold ascii_spaces; set_solver). rewrite IH. by destruct w.
Qed.

Lemma Fields_Join ws : Forall word ws → Fields (Join ws [32]) = ws.
Proof. apply fields_join. Qed.

Lemma solid_ascii w : forallb solid w = true → is_ascii w = true.
Proof.
  intros H. apply forallb_forall. intros c Hc. rewrite forallb_forall in H. apply H in Hc.
  unfold solid in Hc. lia.
Qed.

Lemma Join_ascii ws : Forall word ws → is_ascii (Join ws [32]) = true.
Proof.
  induction 1 as [|w ws [_ Hw] Hws IH]; [done|]. destruct ws as [|w' ws]; [by apply solid_ascii|].
  rewrite Join_cons. unfold is_ascii in *. rewrite !forallb_app, IH. by rewrite (solid_ascii w Hw : forallb _ w = true).
Qed.

Lemma Join_ends ws : ws ≠ [] → Forall word ws → solid_ends (Join ws [32]).
Proof.
  intros Hne Hws. split.
  - destruct Hws as [|w ws [Hw1 Hw2] Hws]; [done|]. destruct w as [|c w]; [done|].
    apply andb_true_iff in Hw2 as [Hc _]. exists c. destruct ws; [eauto|]. rewrite Join_cons. cbn [app]. eauto.
  - induction Hws as [|w ws [Hw1 Hw2] Hws IH]; [done|]. destruct ws as [|w' ws].
    + destruct (exists_last Hw1) as (s & c & ->). rewrite forallb_app in Hw2. exists c, s. split; [done|].
      cbn in Hw2. by destruct (solid c), (forallb solid s).
    + destruct IH as (c & s & E & Hc); [done|]. rewrite Join_cons, E. exists c, (w ++ [32] ++ s).
      by rewrite <-!app_assoc.
Qed.

(** Two words or more are none of the one-word commands. *)
Lemma lower_join_space {U : Unicode} x y ws s :
  Forall word (x :: y :: ws) → 32 ∉ s → ToLower (Join (x :: y :: ws) [32]) ≠ s.
Proof.
  intros Hws Hs E. apply Hs. rewrite <-E. unfold ToLower. rewrite Join_ascii by done.
  rewrite Join_cons. apply list_elem_of_fmap. exists 32. split; [done|]. rewrite !elem_of_app. right; left. by left.
Qed.

Lemma read_command_words {U : Unicode} a x y ws b :
  Forall (λ c, c ∈ ascii_spaces) a → Forall (λ c, c ∈ ascii_spaces) b → Forall word (x :: y :: ws) →
  read_command (a ++ Join (x :: y :: ws) [32] ++ b) =
  match parseCommand (Join (x :: y :: ws) [32]) with
  | Ok msg => CRequest msg
  | Err e => CInvalid e
  | Panic => CPanic
  end.
Proof.
  intros Ha Hb Hws. unfold read_command. rewrite TrimSpace_solid by (done || by apply Join_ends).
  assert (∀ s : gostring, bool_decide (32 ∈ s) = false →
    bool_decide (ToLower (Join (x :: y :: ws) [32]) = s) = false) as Hno.
  { intros s Hs%bool_decide_eq_false. apply bool_decide_eq_false. by apply lower_join_space. }
  rewrite !Hno by (vm_compute; reflexivity). cbn [orb].
  rewrite bool_decide_eq_false_2; [done|]. intros E.
  destruct (Join_ends (x :: y :: ws)) as [(c & s & E' & _) _]; [done|done|]. by rewrite E in E'.
Qed.

(** C37.  What the user types: no line makes the client panic, and a command in
    either case, with any spaces around it, becomes the request it names: [GET] and
    [DEL] with one key, [SET] with a key and the remaining words as the value. *)
Theorem typed_commands {U : Unicode} :
  (∀ input, read_command input ≠ CPanic) ∧
  ∀ a b cmd k vs, Forall (λ c, c ∈ ascii_spaces) a → Forall (λ c, c ∈ ascii_spaces) b →
    Forall word (cmd :: k :: vs) →
    read_command (a ++ Join (cmd :: k :: vs) [32] ++ b) =
    let name := upper_byte <$> cmd in
    if bool_decide (name = str "GET") then
      match vs with [] => CRequest (MGetRequest (mkGetRequest k)) | _ => CInvalid (ErrorString (str "usage: GET <key>")) end
    else if bool_decide (name = str "SET") then
      match vs with
      | [] => CInvalid (ErrorString (str "usage: SET <key> <value>"))
      | _ => CRequest (MSetRequest (mkSetRequest k (Join vs [32]) 0))
      end
    else if bool_decide (name = str "DEL") then
      match vs with [] => CRequest (MDeleteRequest (mkDeleteRequest k)) | _ => CInvalid (ErrorString (str "usage: DEL <key>")) end
    else CInvalid (ErrorString (str "unknown command " ++ Quote cmd ++ str " — available: GET, SET, DEL, topology")).
Proof.
  split; [apply read_command_no_panic|]. intros a b cmd k vs Ha Hb Hws.
  rewrite read_command_words by done. unfold parseCommand. rewrite Fields_Join by done.
  apply Forall_cons in Hws as [[_ Hc] _]. unfold ToUpper. rewrite solid_ascii by done.
  change (str " ") with [32]. repeat case_bool_decide; by destruct vs.
Qed.

Lemma typed_commands_witness :
  read_command (U:=ascii_text) (str " set key a b ") =
  CRequest (MSetRequest (mkSetRequest (str "key") (str "a b") 0)).
Proof.
  apply (proj2 (typed_commands (U:=ascii_text)) [32] [32] (str "set") (str "key") [str "a"; str "b"]).
  1-2: apply Forall_singleton; unfold ascii_spaces; set_solver.
  repeat (apply Forall_cons; split; [by split|]). by apply Forall_nil.
Defined.

(** ** What a topology teaches *)

Lemma learn_nodes leader ns : ∀ c,
  let c' := foldl (learn_node leader) c ns in
  cli_leaderAddr c' = cli_leaderAddr c ∧
  cli_followers c' = cli_followers c ++ filter (λ a, a ≠ leader) (NodeInfo_Address <$> ns) ∧
  (NoDup (knownAddrs c) → NoDup (knownAddrs c')) ∧
  ∀ a, a ∈ knownAddrs c' ↔ a ∈ knownAddrs c ∨ a ∈ NodeInfo_Address <$> ns.
Proof.
  induction ns as [|n ns IH]; intros c; cbn [foldl fmap list_fmap].
  { cbn. rewrite app_nil_r. split_and!; [done..|set_solver]. }
  destruct (IH (learn_node leader c n)) as (Hl & Hf & Hd & Hk). rewrite Hl, Hf. clear Hl Hf IH.
  assert (cli_leaderAddr (addKnown c (NodeInfo_Address n)) = cli_leaderAddr c ∧
          cli_followers (addKnown c (NodeInfo_Address n)) = cli_followers c) as [El Ef].
  { unfold addKnown. by case_bool_decide. }
  assert (knownAddrs (learn_node leader c n) = knownAddrs (addKnown c (NodeInfo_Address n))) as Ek.
  { unfold learn_node. by case_bool_decide. }
  rewrite Ek in Hd. setoid_rewrite Ek in Hk. split_and!.
  - unfold learn_node. by case_bool_decide.
  - unfold learn_node. rewrite filter_cons. case_bool_decide; case_decide; try done; cbn [cli_followers]; rewrite Ef;
      [done|by rewrite <-app_assoc].
  - intros Hnd. apply Hd. unfold addKnown. case_bool_decide; [done|]. cbn. apply NoDup_app. split_and!; [done| |].
    + intros x Hx. rewrite list_elem_of_singleton. by intros ->.
    + apply NoDup_singleton.
  - intros a. rewrite Hk. unfold addKnown. case_bool_decide; cbn; [set_solver|].
    rewrite elem_of_app. set_solver.
Qed.

Lemma learn_spec c topo :
  cli_leaderAddr (learn c topo) = TopologyResponse_LeaderAddr topo ∧
  cli_followers (learn c topo) =
    filter (λ a, a ≠ TopologyResponse_LeaderAddr topo) (NodeInfo_Address <$> TopologyResponse_Nodes topo).
Proof.
  unfold learn. destruct (learn_nodes (TopologyResponse_LeaderAddr topo) (TopologyResponse_Nodes topo)
    (mkClient (knownAddrs c) (TopologyResponse_LeaderAddr topo) [])) as (-> & -> & _). done.
Qed.

(** ** Where requests go *)

Section routing.
Context {N : Type} (exchange : addr → gobytes → N → go reader * N) (intn : Z → N → Z * N).

(** The same network, with a record of what was sent to whom. *)
Definition traced_exchange (a : addr) (req : gobytes) (st : N * list (addr * gobytes))
    : go reader * (N * list (addr * gobytes)) :=
  let '(res, net) := exchange a req st.1 in (res, (net, st.2 ++ [(a, req)])).
Definition traced_intn (n : Z) (st : N * list (addr * gobytes)) : Z * (N * list (addr * gobytes)) :=
  let '(i, net) := intn n st.1 in (i, (net, st.2)).

(** [R] holds of the leaders that topologies name. *)
Context (R : addr → Prop).
Context (HR : ∀ a net topo net', fetchTopology exchange a net = (Ok topo, net') → R (TopologyResponse_LeaderAddr topo)).

Definition leader_known (c : kvClient) : Prop := cli_leaderAddr c = [] ∨ R (cli_leaderAddr c).

Definition asks (x : addr * gobytes) : Prop := x.2 = frame_bytes topology_request.
Definition commands (msg : Msg) (x : addr * gobytes) : Prop := x.2 = frame_bytes msg ∧ x.1 ≠ [] ∧ R x.1.

(** From [st] to [st'], only topology requests have been sent. *)
Definition only_asked (st st' : N * list (addr * gobytes)) : Prop := ∃ l, st'.2 = st.2 ++ l ∧ Forall asks l.

Lemma only_asked_refl st : only_asked st st.
Proof. exists []. split; [by rewrite app_nil_r|done]. Qed.

Lemma only_asked_trans st1 st2 st3 : only_asked st1 st2 → only_asked st2 st3 → only_asked st1 st3.
Proof.
  intros (l1 & E1 & H1) (l2 & E2 & H2). exists (l1 ++ l2). split; [by rewrite E2, E1, app_assoc|by apply Forall_app].
Qed.

Lemma traced_send a msg st res st' :
  sendToNode traced_exchange a msg st = (res, st') →
  st'.2 = st.2 ++ [(a, frame_bytes msg)] ∧ sendToNode exchange a msg st.1 = (res, st'.1).
Proof.
  unfold sendToNode, sendMessage, receiveMessage. rewrite !WriteFrame_bytes. cbn [app]. unfold traced_exchange.
  destruct (exchange a (frame_bytes msg) st.1) as [[rd|e|] net]; intros [= <- <-]; done.
Qed.

Lemma traced_fetch a st res st' :
  fetchTopology traced_exchange a st = (res, st') →
  only_asked st st' ∧ fetchTopology exchange a st.1 = (res, st'.1).
Proof.
  unfold fetchTopology. destruct (sendToNode traced_exchange a topology_request st) as [r st1] eqn:E.
  apply traced_send in E as [Et ->]. intros [= <- <-]. split; [|done].
  exists [(a, frame_bytes topology_request)]. split; [done|]. by apply Forall_singleton.
Qed.

Lemma traced_connect addrs : ∀ c st res c' st',
  connect_loop traced_exchange addrs c st = (res, c', st') → leader_known c →
  only_asked st st' ∧ leader_known c' ∧ (res = Ok () → cli_leaderAddr c' ≠ []).
Proof.
  induction addrs as [|a addrs IH]; intros c st res c' st'; cbn [connect_loop].
  { intros [= <- <- <-] Hc. split_and!; [apply only_asked_refl|done|done]. }
  destruct (fetchTopology traced_exchange a st) as [[topo|e|] st1] eqn:E;
    apply traced_fetch in E as [Ha E]; intros Hr Hc.
  - assert (leader_known (learn c topo)) as Hc'.
    { right. rewrite (proj1 (learn_spec c topo)). by eapply HR. }
    case_bool_decide as Hl.
    + destruct (IH _ _ _ _ _ Hr Hc') as (Ha' & ?). split; [by eapply only_asked_trans|done].
    + injection Hr as <- <- <-. by split_and!.
  - destruct (IH _ _ _ _ _ Hr Hc) as (Ha' & ?). split; [by eapply only_asked_trans|done].
  - injection Hr as <- <- <-. by split_and!.
Qed.

Lemma traced_wait tries : ∀ c st res c' st',
  wait_loop traced_exchange tries c st = (res, c', st') → leader_known c →
  only_asked st st' ∧ leader_known c' ∧ (res = Ok () → cli_leaderAddr c' ≠ []).
Proof.
  induction tries as [|tries IH]; intros c st res c' st'; cbn [wait_loop].
  { intros [= <- <- <-] Hc. split_and!; [apply only_asked_refl|done|done]. }
  destruct (connect traced_exchange c st) as [[r c1] st1] eqn:E. intros Hr Hc.
  destruct (traced_connect _ _ _ _ _ _ E Hc) as (Ha & Hc1 & Hok).
  destruct r as [[]|e|].
  - rewrite bool_decide_eq_false_2 in Hr by auto. injection Hr as <- <- <-. by split_and!; auto.
  - destruct (IH _ _ _ _ _ Hr Hc1) as (Ha' & ?). split; [by eapply only_asked_trans|done].
  - injection Hr as <- <- <-. by split_and!.
Qed.

(** The commands sent, among the topology requests: at most [k], to leaders. *)
Definition commanded (msg : Msg) (k : nat) (st st' : N * list (addr * gobytes)) : Prop :=
  ∃ l, st'.2 = st.2 ++ l ∧ Forall (λ x, asks x ∨ commands msg x) l ∧
    (length (filter (λ x, x.2 ≠ frame_bytes topology_request) l) ≤ k)%nat.

Lemma only_asked_commanded msg k st1 st2 st3 :
  only_asked st1 st2 → commanded msg k st2 st3 → commanded msg k st1 st3.
Proof.
  intros (l1 & E1 & H1) (l2 & E2 & H2 & Hk). exists (l1 ++ l2). split_and!.
  - by rewrite E2, E1, app_assoc.
  - apply Forall_app. split; [|done]. eapply Forall_impl; [exact H1|]. by left.
  - rewrite filter_app, filter_none_in; [done|]. intros x Hx Hn. rewrite Forall_forall in H1. by apply Hn, H1.
Qed.

Lemma send_commanded msg k a st1 st2 st3 :
  st2.2 = st1.2 ++ [(a, frame_bytes msg)] → a ≠ [] → R a → commanded msg k st2 st3 → commanded msg (S k) st1 st3.
Proof.
  intros E Ha HRa (l & El & Hl & Hk). exists ((a, frame_bytes msg) :: l). split_and!.
  - rewrite El, E, <-app_assoc. done.
  - apply Forall_cons. split; [by right|done].
  - rewrite filter_cons. case_decide; cbn [length]; lia.
Qed.

Lemma commanded_nil msg k st st' : only_asked st st' → commanded msg k st st'.
Proof.
  intros H. eapply only_asked_commanded; [done|]. exists []. rewrite app_nil_r. split_and!; [done|done|cbn; lia].
Qed.

Lemma traced_execute msg attempts : is_write msg = true → ∀ c st res c' st',
  execute_loop traced_exchange traced_intn attempts c msg st = (res, c', st') → leader_known c →
  commanded msg attempts st st' ∧ (∀ resp, res = Ok resp → ∃ a, last st'.2 = Some (a, frame_bytes msg) ∧ R a).
Proof.
  intros Hw. induction attempts as [|k IH]; intros c st res c' st'; cbn [execute_loop].
  { intros [= <- <- <-] Hc. split; [apply commanded_nil, only_asked_refl|done]. }
  unfold pickTarget. rewrite Hw. case_bool_decide as Hl; intros Hr Hc.
  - destruct (waitForLeader traced_exchange c st) as [[r c1] st1] eqn:E.
    destruct (traced_wait _ _ _ _ _ _ E Hc) as (Ha & Hc1 & _). destruct r as [[]|e|].
    + destruct (IH _ _ _ _ _ Hr Hc1) as [Hs Hres]. split; [|done]. eapply only_asked_commanded; [done|].
      destruct Hs as (l & ? & ? & ?). exists l. split_and!; [done|done|lia].
    + injection Hr as <- <- <-. split; [by apply commanded_nil|done].
    + injection Hr as <- <- <-. split; [by apply commanded_nil|done].
  - destruct Hc as [?|Hlead]; [done|].
    destruct (sendToNode traced_exchange (cli_leaderAddr c) msg st) as [r st1] eqn:E.
    apply traced_send in E as [Et _].
    assert (commanded msg k st1 st1) as Hnil by apply commanded_nil, only_asked_refl.
    destruct r as [resp|e|].
    + injection Hr as <- <- <-. split; [by eapply send_commanded|]. intros _ _. exists (cli_leaderAddr c).
      by rewrite Et, last_snoc.
    + set (c0 := mkClient (knownAddrs c) [] (cli_followers c)) in Hr.
      destruct (waitForLeader traced_exchange c0 st1) as [[r c1] st2] eqn:E2.
      destruct (traced_wait _ _ _ _ _ _ E2 (or_introl eq_refl)) as (Ha & Hc1 & _).
      assert (∀ st3, commanded msg k st2 st3 → commanded msg (S k) st st3) as Hstep.
      { intros st3 H3. eapply send_commanded; [done..|]. by eapply only_asked_commanded. }
      destruct r as [[]|e'|]; [destruct (IH _ _ _ _ _ Hr Hc1); split; auto..|].
      injection Hr as <- <- <-. split; [|done]. apply Hstep, commanded_nil, only_asked_refl.
    + injection Hr as <- <- <-. split; [by eapply send_commanded|done].
Qed.

(** The record does not change what the client does. *)
Lemma same_connect addrs : ∀ c st,
  let '(res, c', st') := connect_loop traced_exchange addrs c st in
  connect_loop exchange addrs c st.1 = (res, c', st'.1).
Proof.
  induction addrs as [|a addrs IH]; intros c st; cbn [connect_loop]; [done|].
  destruct (fetchTopology traced_exchange a st) as [res st1] eqn:E. apply traced_fetch in E as [_ ->].
  destruct res as [topo|e|]; [case_bool_decide|..]; done || apply IH.
Qed.

Lemma same_wait tries : ∀ c st,
  let '(res, c', st') := wait_loop traced_exchange tries c st in
  wait_loop exchange tries c st.1 = (res, c', st'.1).
Proof.
  induction tries as [|tries IH]; intros c st; cbn [wait_loop]; [done|].
  pose proof (same_connect (knownAddrs c) c st) as E. unfold connect.
  destruct (connect_loop traced_exchange (knownAddrs c) c st) as [[res c1] st1]. rewrite E.
  destruct res as [[]|e|]; [case_bool_decide|..]; done || apply IH.
Qed.

Lemma same_execute msg attempts : is_write msg = true → ∀ c st,
  let '(res, c', st') := execute_loop traced_exchange traced_intn attempts c msg st in
  execute_loop exchange intn attempts c msg st.1 = (res, c', st'.1).
Proof.
  intros Hw. induction attempts as [|k IH]; intros c st; cbn [execute_loop]; [done|].
  unfold pickTarget. rewrite Hw. case_bool_decide.
  - pose proof (same_wait 15 c st) as E. unfold waitForLeader.
    destruct (wait_loop traced_exchange 15 c st) as [[[[]|e|] c1] st1]; rewrite E; done || apply IH.
  - destruct (sendToNode traced_exchange (cli_leaderAddr c) msg st) as [res st1] eqn:E. apply traced_send in E as [_ ->].
    destruct res; [done| |done].
    set (c0 := mkClient (knownAddrs c) [] (cli_followers c)).
    pose proof (same_wait 15 c0 st1) as E. unfold waitForLeader.
    destruct (wait_loop traced_exchange 15 c0 st1) as [[[[]|e'|] c1] st2]; rewrite E; done || apply IH.
Qed.
End routing.

(** C28.  Where the client sends writes.  Whatever the network answers, executing a
    SET or DEL sends the command at most eight times, each time to an address that
    some node's topology named as the leader (or that the client already held as
    such); all else it sends are topology requests; and a response it returns answers
    the last thing it sent. *)
Theorem cli_writes_go_to_leaders {N} (exchange : addr → gobytes → N → go reader * N) intn (R : addr → Prop) c msg net :
  is_write msg = true → leader_known R c →
  (∀ a net topo net', fetchTopology exchange a net = (Ok topo, net') → R (TopologyResponse_LeaderAddr topo)) →
  ∃ res c' net' sent,
    execute (traced_exchange exchange) (traced_intn intn) c msg (net, []) = (res, c', (net', sent)) ∧
    execute exchange intn c msg net = (res, c', net') ∧
    Forall (λ x, x.2 = frame_bytes topology_request ∨ x.2 = frame_bytes msg ∧ x.1 ≠ [] ∧ R x.1) sent ∧
    (length (filter (λ x, x.2 ≠ frame_bytes topology_request) sent) ≤ 8)%nat ∧
    ∀ resp, res = Ok resp → ∃ a, last sent = Some (a, frame_bytes msg) ∧ R a.
Proof.
  intros Hw Hc HR. destruct (execute (traced_exchange exchange) (traced_intn intn) c msg (net, []))
    as [[res c'] [net' sent]] eqn:E.
  pose proof (same_execute exchange intn msg 8 Hw c (net, [])) as Es. unfold execute in *. rewrite E in Es.
  destruct (traced_execute exchange intn R HR msg 8 Hw _ _ _ _ _ E Hc) as [(l & El & Hl & Hk) Hres].
  cbn [fst snd app] in *. subst l. by exists res, c', net', sent.
Qed.

(** ** Client and servers together *)

(** The nodes that are up, by address. *)
Abbreviation Nodes W := (gmap addr (State (P:=AnyPolicy) (W:=W))).

Section servers.
Context {W : Type} {LW : Log W} {LL : LogLaws W}.
Context (ord : nat → order) (ford : table_order) (maxLen now : Z).

Definition dial_error : error := ErrorString (str "connect: connection refused").

(** The nodes that are up.  A request is the only thing on its connection; the client
    reads what the server wrote before it closed. *)
Definition node_exchange (a : addr) (req : gobytes) (nodes : Nodes W)
    : go reader * Nodes W :=
  match nodes !! a with
  | None => (Err dial_error, nodes)
  | Some st =>
      match handleConnection ord ford 1 maxLen (λ _, now) 0 (Reader req io_EOF) st with
      | Some (Closed, st', out) => (Ok (Reader out io_EOF), <[a := st']> nodes)
      | _ => (Err io_EOF, nodes)
      end
  end.

Lemma send_request a (st : State (P:=AnyPolicy)) m r nodes :
  orders_ok ord → log_total W → nodes !! a = Some st → simulates m (db st.1) →
  sendable maxLen (client_msg r) → sendable 0 (client_spec (ndefaultTTL st.1) m r now).1 →
  ∃ st', sendToNode node_exchange a (client_msg r) nodes =
      (Ok (client_spec (ndefaultTTL st.1) m r now).1, <[a := st']> nodes) ∧
    simulates (client_spec (ndefaultTTL st.1) m r now).2 (db st'.1) ∧ ndefaultTTL st'.1 = ndefaultTTL st.1.
Proof.
  intros Hord Hlog Ha Hsim Hr Hresp.
  destruct (handleConnection_session Hlog ord Hord ford maxLen (λ _, now) 0 st m [r] Hsim) as (st' & E & Hsim' & Ettl);
    [by apply Forall_singleton|].
  exists st'. unfold sendToNode, sendMessage, receiveMessage. rewrite !WriteFrame_bytes. cbn [app]. unfold node_exchange. rewrite Ha.
  cbn [fmap list_fmap concat length] in E. rewrite app_nil_r in E. rewrite E.
  cbn [session_spec length] in *. destruct (client_spec (ndefaultTTL st.1) m r now) as [resp m']. cbn [fst snd] in *.
  split; [|done]. cbn [fmap list_fmap concat]. destruct Hresp as (Hwf & Hlen & Hmax).
  rewrite ReadFrame_frame; [done|apply registry_is_ok|apply registry_complete|done..].
Qed.

Lemma topology_sendable : sendable maxLen topology_request ↔ maxLen = 0 ∨ 1 ≤ maxLen.
Proof.
  unfold sendable. change (Msg_wf topology_request) with True. change (len (Msg_wire topology_request)) with 0.
  split; [|intros H; split_and!]; [tauto|done|lia|lia].
Qed.

Lemma fetch_topology a (st : State (P:=AnyPolicy)) nodes :
  nodes !! a = Some st → 0 ≤ maxLen → sendable 0 (MTopologyResponse (GetTopology st.1)) →
  fetchTopology node_exchange a nodes = (Ok (GetTopology st.1), nodes).
Proof.
  intros Ha Hm (Hwf & Hlen & Hmax).
  assert (sendable maxLen topology_request) as (Hwf' & Hlen' & Hmax') by (apply topology_sendable; lia).
  assert (handleConnection ord ford 1 maxLen (λ _, now) 0 (Reader (frame_bytes topology_request) io_EOF) st =
    Some (Closed, st, frame_bytes (MTopologyResponse (GetTopology st.1)))) as E.
  { unfold handleConnection, readMessage at 1. rewrite <-(app_nil_r (frame_bytes topology_request)).
    rewrite ReadFrame_frame; [|apply registry_is_ok|apply registry_complete|done..].
    change (OpCode topology_request) with OpTopologyRequest.
    change (OpTopologyRequest =? OpReplicationJoin) with false. change (OpTopologyRequest =? OpHeartbeat) with false.
    change (OpTopologyRequest =? OpVoteRequest) with false. cbn iota. cbn [client_loop].
    replace (dispatchClient ord ford topology_request now st [])
      with (Ok (), st, frame_bytes (MTopologyResponse (GetTopology st.1)))       by (unfold dispatchClient; cbn; by rewrite writeMessage_frame).
    by rewrite readMessage_eof. }
  unfold fetchTopology, sendToNode, sendMessage, receiveMessage. rewrite !WriteFrame_bytes. cbn [app]. unfold node_exchange. rewrite Ha, E.
  rewrite <-(app_nil_r (frame_bytes (MTopologyResponse _))).
  rewrite ReadFrame_frame; [|apply registry_is_ok|apply registry_complete|done..].
  cbn [fst mbind go_bind]. by rewrite insert_id.
Qed.

Lemma connect_finds tries seed (st : State (P:=AnyPolicy)) nodes :
  nodes !! seed = Some st → 0 ≤ maxLen → sendable 0 (MTopologyResponse (GetTopology st.1)) →
  leaderAddr (nraft st.1) ≠ [] →
  wait_loop node_exchange (S tries) (newClient seed) nodes =
    (Ok (), learn (newClient seed) (GetTopology st.1), nodes).
Proof.
  intros Hs Hm Hsend Hl. cbn [wait_loop]. unfold connect. cbn [knownAddrs newClient connect_loop].
  rewrite (fetch_topology _ st) by assumption.
  assert (bool_decide (cli_leaderAddr (learn (newClient seed) (GetTopology st.1)) = []) = false) as E.
  { apply bool_decide_eq_false_2. rewrite (proj1 (learn_spec _ _)). exact Hl. }
  unfold newClient in *. rewrite E, E. reflexivity.
Qed.

(** The target of a command once the leader [l] of the topology of [n] is known. *)
Lemma pick_target (n : Node AnyPolicy W) (c0 : kvClient) (choose : Z → Z) (w : bool) (nodes : Nodes W) :
  (∀ k, 0 < k → 0 ≤ choose k < k) →
  ∃ t, pickTarget (λ k nodes, (choose k, nodes)) (learn c0 (GetTopology n)) w nodes = (Ok t, nodes) ∧
    (w = true → t = leaderAddr (nraft n)) ∧ (t = leaderAddr (nraft n) ∨ t ∈ peers (nraft n)).
Proof.
  intros Hc. unfold pickTarget. rewrite (proj1 (learn_spec _ _)), (proj2 (learn_spec _ _)).
  cbn [GetTopology TopologyResponse_LeaderAddr TopologyResponse_Nodes].
  destruct w; [by eexists; eauto|]. match goal with |- context [0 <? len ?l] => set (fs := l) end.
  destruct (Z.ltb_spec 0 (len fs)) as [Hlen|]; [|by eexists; eauto]. destruct (Hc _ Hlen) as [H1 H2].
  destruct (lookup_lt_is_Some_2 fs (Z.to_nat (choose (len fs)))) as [t Ht]; [unfold len in *; lia|].
  exists t. rewrite Ht. split_and!; [done|done|right].
  apply list_elem_of_lookup_2, list_elem_of_filter in Ht as [_ Ht]. by rewrite <-list_fmap_compose, list_fmap_id in Ht.
Qed.

(** A new client looks for the leader in its first attempt, and sends the command in
    the second. *)
Lemma execute_second choose k seed (st : State (P:=AnyPolicy)) nodes msg t res nodes' :
  nodes !! seed = Some st → 0 ≤ maxLen → sendable 0 (MTopologyResponse (GetTopology st.1)) →
  leaderAddr (nraft st.1) ≠ [] →
  pickTarget (λ k nodes, (choose k, nodes)) (learn (newClient seed) (GetTopology st.1)) (is_write msg) nodes =
    (Ok t, nodes) → t ≠ [] →
  sendToNode node_exchange t msg nodes = (Ok res, nodes') →
  execute_loop node_exchange (λ k nodes, (choose k, nodes)) (S (S k)) (newClient seed) msg nodes =
    (Ok res, learn (newClient seed) (GetTopology st.1), nodes').
Proof.
  intros Hs Hm Htop Hl Ht Hne E. cbn [execute_loop].
  assert (pickTarget (λ k nodes, (choose k, nodes)) (newClient seed) (is_write msg) nodes = (Ok [], nodes)) as ->.
  { unfold pickTarget. by destruct (is_write msg). }
  rewrite bool_decide_eq_true_2 by reflexivity. unfold waitForLeader. rewrite (connect_finds 14 seed st) by assumption.
  rewrite Ht, bool_decide_eq_false_2 by assumption. by rewrite E.
Qed.

(** No node that is up names a leader. *)
Definition leaderless (nodes : Nodes W) : Prop :=
  ∀ a st, nodes !! a = Some st →
    leaderAddr (nraft st.1) = [] ∧ sendable 0 (MTopologyResponse (GetTopology st.1)).

Lemma connect_leaderless nodes addrs : 0 ≤ maxLen → leaderless nodes → ∀ c,
  ∃ c', connect_loop node_exchange addrs c nodes = (Err err_no_topology, c', nodes).
Proof.
  intros Hm Hno. induction addrs as [|a addrs IH]; intros c; cbn [connect_loop]; [by exists c|].
  destruct (nodes !! a) as [st|] eqn:Ha.
  - destruct (Hno a st Ha) as [Hl Hs]. rewrite (fetch_topology a st) by assumption.
    rewrite bool_decide_eq_true_2 by (by rewrite (proj1 (learn_spec _ _))). apply IH.
  - unfold fetchTopology, sendToNode, sendMessage, receiveMessage. rewrite !WriteFrame_bytes. unfold node_exchange. rewrite Ha. apply IH.
Qed.

Lemma wait_leaderless nodes tries : 0 ≤ maxLen → leaderless nodes → ∀ c,
  ∃ c', wait_loop node_exchange tries c nodes = (Err err_no_leader, c', nodes).
Proof.
  intros Hm Hno. induction tries as [|tries IH]; intros c; cbn [wait_loop]; [by exists c|].
  unfold connect. destruct (connect_leaderless nodes (knownAddrs c) Hm Hno c) as [c' ->]. apply IH.
Qed.

Lemma execute_leaderless nodes choose k seed msg : 0 ≤ maxLen → leaderless nodes →
  ∃ c, execute_loop node_exchange (λ k nodes, (choose k, nodes)) (S k) (newClient seed) msg nodes =
    (Err err_no_leader, c, nodes).
Proof.
  intros Hm Hno. cbn [execute_loop].
  assert (pickTarget (λ k nodes, (choose k, nodes)) (newClient seed) (is_write msg) nodes = (Ok [], nodes)) as ->.
  { unfold pickTarget. by destruct (is_write msg). }
  rewrite bool_decide_eq_true_2 by reflexivity. unfold waitForLeader.
  destruct (wait_leaderless nodes 15 Hm Hno (newClient seed)) as [c ->]. by exists c.
Qed.
End servers.

(** A command from the user's client to the cluster and back.  Start a client at
    any node that is up and knows a leader, with the nodes of its topology up: a SET or
    DEL is executed by the leader, a GET by the leader or another node of the topology,
    and the client gets the response that node's map gives; no other node changes. *)
Lemma cli_command_answered {W} {LW : Log W} {LL : LogLaws W} ord ford maxLen now choose (seed : addr)
    (st0 : State (P:=AnyPolicy) (W:=W)) nodes r :
  orders_ok ord → log_total W → 0 ≤ maxLen → (∀ k, 0 < k → 0 ≤ choose k < k) →
  nodes !! seed = Some st0 → leaderAddr (nraft st0.1) ≠ [] → sendable 0 (MTopologyResponse (GetTopology st0.1)) →
  sendable maxLen (client_msg r) →
  (∀ a, a = leaderAddr (nraft st0.1) ∨ a ∈ peers (nraft st0.1) →
     a ≠ [] ∧ ∃ st m, nodes !! a = Some st ∧ simulates m (db st.1) ∧
       sendable 0 (client_spec (ndefaultTTL st.1) m r now).1) →
  ∃ t st m c' st',
    (is_write (client_msg r) = true → t = leaderAddr (nraft st0.1)) ∧
    (t = leaderAddr (nraft st0.1) ∨ t ∈ peers (nraft st0.1)) ∧
    nodes !! t = Some st ∧ simulates m (db st.1) ∧
    execute (node_exchange ord ford maxLen now) (λ k nodes, (choose k, nodes)) (newClient seed) (client_msg r) nodes =
      (Ok (client_spec (ndefaultTTL st.1) m r now).1, c', <[t := st']> nodes) ∧
    simulates (client_spec (ndefaultTTL st.1) m r now).2 (db st'.1).
Proof.
  intros Hord Hlog Hm Hc Hs Hl Htop Hr Hup.
  destruct (pick_target st0.1 (newClient seed) choose (is_write (client_msg r)) nodes Hc) as (t & Et & Hw & Ht).
  destruct (Hup t Ht) as (Hne & st & m & Hst & Hsim & Hresp).
  destruct (send_request ord ford maxLen now t st m r nodes Hord Hlog Hst Hsim Hr Hresp) as (st' & E & Hsim' & _).
  exists t, st, m, (learn (newClient seed) (GetTopology st0.1)), st'.
  split_and!; [assumption..| |assumption]. unfold execute.
  exact (execute_second ord ford maxLen now choose 6 seed st0 nodes (client_msg r) t _ _ Hs Hm Htop Hl Et Hne E).
Qed.

(** An instance: two nodes, the client starts at the follower. *)
Definition ex_member (x : addr) : State (P:=AnyPolicy) (W:=Sys) :=
  (Replication.mkNode ex_follower 1000
     (mkRaft x [addr_A; addr_B] 1 addr_A (if bool_decide (x = addr_A) then RoleLeader else RoleFollower) addr_A false)
     (if bool_decide (x = addr_A) then Some newLeader else None), ∅).

Definition ex_nodes : Nodes Sys := {[ addr_A := ex_member addr_A; addr_B := ex_member addr_B ]}.

Lemma ex_nodes_lookup x : x ∈ [addr_A; addr_B] → ex_nodes !! x = Some (ex_member x).
Proof.
  unfold ex_nodes. rewrite !elem_of_cons, elem_of_nil. intros [->|[->|[]]].
  - apply lookup_insert_eq.
  - rewrite lookup_insert_ne by done. apply lookup_insert_eq.
Qed.

Lemma ex_topology_sendable : sendable 0 (MTopologyResponse (GetTopology (ex_member addr_B).1)).
Proof.
  split; [|split; [vm_compute; reflexivity|by left]]. split; [vm_compute; reflexivity|].
  split; [vm_compute; reflexivity|]. apply Forall_fmap, Forall_forall. intros x Hx.
  change (GetPeers (nraft (ex_member addr_B).1)) with [addr_A; addr_B] in Hx.
  rewrite !elem_of_cons, elem_of_nil in Hx. destruct Hx as [->|[->|[]]]; by vm_compute.
Qed.

Lemma cli_command_answered_witness :
  let r := CSet (str "k") [7] 0 in
  ∃ t st m c' st',
    (is_write (client_msg r) = true → t = addr_A) ∧ (t = addr_A ∨ t ∈ [addr_A; addr_B]) ∧
    ex_nodes !! t = Some st ∧ simulates m (db st.1) ∧
    execute (node_exchange any_order ex_order 10485760 50) (λ k nodes, (0, nodes)) (newClient addr_B) (client_msg r)
      ex_nodes = (Ok (client_spec (ndefaultTTL st.1) m r 50).1, c', <[t := st']> ex_nodes) ∧
    simulates (client_spec (ndefaultTTL st.1) m r 50).2 (db st'.1).
Proof.
  apply (cli_command_answered any_order ex_order 10485760 50 (λ _, 0) addr_B (ex_member addr_B) ex_nodes
           (CSet (str "k") [7] 0)).
  - apply any_order_ok.
  - apply interval_log_total.
  - lia.
  - lia.
  - apply ex_nodes_lookup. set_solver.
  - done.
  - apply ex_topology_sendable.
  - vm_compute. intuition discriminate.
  - intros a Ha. change (leaderAddr (nraft (ex_member addr_B).1)) with addr_A in Ha.
    change (GetPeers (nraft (ex_member addr_B).1)) with [addr_A; addr_B] in Ha.
    assert (a ∈ [addr_A; addr_B]) as Hin by (destruct Ha as [->|]; [left|done]).
    split; [intros ->; rewrite !elem_of_cons, elem_of_nil in Hin; naive_solver|].
    exists (ex_member a), ∅. split; [by apply ex_nodes_lookup|]. split; [apply ex_follower_sim|].
    vm_compute. intuition discriminate.
Defined.

(** A network in which every node names [A]. *)
Definition ex_exchange (a : addr) (req : gobytes) (net : ()) : go reader * () :=
  (Ok (Reader (frame_bytes (MTopologyResponse (mkTopologyResponse addr_A [mkNodeInfo addr_A 1 addr_A]))) io_EOF), net).

Lemma cli_writes_go_to_leaders_witness :
  let msg := client_msg (CDelete (str "k")) in
  ∃ res c' net' sent,
    execute (traced_exchange ex_exchange) (traced_intn (λ k net, (0, net))) (newClient addr_B) msg ((), []) =
      (res, c', (net', sent)) ∧
    execute ex_exchange (λ k net, (0, net)) (newClient addr_B) msg () = (res, c', net') ∧
    Forall (λ x, x.2 = frame_bytes topology_request ∨ x.2 = frame_bytes msg ∧ x.1 ≠ [] ∧ x.1 = addr_A) sent ∧
    (length (filter (λ x : addr * gobytes, x.2 ≠ frame_bytes topology_request) sent) ≤ 8)%nat ∧
    ∀ resp, res = Ok resp → ∃ a, last sent = Some (a, frame_bytes msg) ∧ a = addr_A.
Proof.
  apply (cli_writes_go_to_leaders ex_exchange (λ k net, (0, net)) (λ a, a = addr_A) (newClient addr_B)
           (client_msg (CDelete (str "k"))) ()).
  - reflexivity.
  - by left.
  - intros a [] topo [] E. vm_compute in E. injection E as <-. reflexivity.
Defined.
