(* ===== verification/CliMain.v ===== *)
(** * The command-line client's main (cli/cli.go) and its sessions

    The choice of the seed, the discovery of the cluster, and the loop that reads a line,
    asks the cluster and prints.  What goes to the terminal is one string; the progress
    messages of [execute] are left out, as are the sleeps.  A
    session is then run against servers that are up, with a clock and a random source
    that change from one request to the next. *)

From S2P Require Import Prelude GoLang Protocol KvMessages ClusterMessages ClientMessages Messages.
From S2P Require Import WalRecord Os WalWriter Shard Eviction Store Recovery StoreSpec Logs StoreProps.
From S2P Require Import Raft RaftProps Replication ReplicationProps Engine Server ServerProps Strings Flag Cli CliProps.

(** ** main *)

(** [bufio.Reader.ReadString]: up to and with the delimiter.  What comes before the end
    of the input, without a delimiter, is returned beside the error; [main] drops it. *)
Fixpoint read_until (delim : Z) (s : gobytes) : option (gobytes * gobytes) :=
  match s with
  | [] => None
  | b :: s =>
      if b =? delim then Some ([b], s)
      else match read_until delim s with Some (l, rest) => Some (b :: l, rest) | None => None end
  end.

Definition ReadString (rd : reader) (delim : Z) : go gostring * reader :=
  match read_until delim (rd_data rd) with
  | Some (line, rest) => (Ok line, Reader rest (rd_end rd))
  | None => (Err (rd_end rd), Reader [] (rd_end rd))
  end.

(** The flag, else the environment variable, else the default. *)
Definition cli_seed (url kv_addr : gostring) : addr :=
  if negb (bool_decide (url = [])) then url
  else if negb (bool_decide (kv_addr = [])) then kv_addr
  else defaultAddr.

Definition line_end : gostring := [10].
Definition connecting (seed : addr) : gostring :=
  ColorCyan ++ ColorBold ++ str "Connecting to cluster via " ++ seed ++ str "..." ++ ColorReset ++ line_end.
Definition discover_failed (e : error) : gostring :=
  ColorRed ++ str "Failed to discover cluster: " ++ Error e ++ ColorReset ++ line_end.
(** [%v] of a slice of strings. *)
Definition show_list (l : list gostring) : gostring := str "[" ++ Join l (str " ") ++ str "]".
Definition ready (c : kvClient) : gostring :=
  ColorGreen ++ str "Cluster ready." ++ ColorReset ++ str "  Leader: " ++ ColorBold ++ cli_leaderAddr c ++ ColorReset ++
  str "  Followers: " ++ show_list (cli_followers c) ++ line_end ++ line_end.
Definition prompt : gostring := ColorCyan ++ str "kv-db: " ++ ColorReset.
Definition input_failed (e : error) : gostring :=
  line_end ++ ColorRed ++ str "Error reading input: " ++ Error e ++ ColorReset ++ line_end.

Section main.
Context {U : Unicode} {N : Type} (exchange : addr → gobytes → N → go reader * N) (intn : Z → N → Z * N).

(** The loop; [None]: out of fuel. *)
Fixpoint main_loop (fuel : nat) (rd : reader) (c : kvClient) (net : N) (out : gostring)
    : option (go gostring * kvClient * N) :=
  match fuel with
  | O => None
  | S fuel =>
      let out := out ++ prompt in
      match ReadString rd 10 with
      | (Err e, _) => Some (Ok (out ++ input_failed e), c, net)
      | (Panic, _) => Some (Panic, c, net)
      | (Ok input, rd) =>
          match repl_line exchange intn input c net with
          | (Ok (text, true), c, net) => main_loop fuel rd c net (out ++ text)
          | (Ok (text, false), c, net) => Some (Ok (out ++ text), c, net)
          | (Err e, c, net) => Some (Err e, c, net)
          | (Panic, c, net) => Some (Panic, c, net)
          end
      end
  end.

(** After the flags: the text printed and the exit code.  Every line has a byte, so the
    length of the input is fuel enough. *)
Definition cli_run (url kv_addr : gostring) (stdin : reader) (net : N) : option (go (gostring * Z) * N) :=
  let seed := cli_seed url kv_addr in
  let out := connecting seed in
  match waitForLeader exchange (newClient seed) net with
  | (Err e, _, net) => Some (Ok (out ++ discover_failed e, 1), net)
  | (Panic, _, net) => Some (Panic, net)
  | (Ok _, c, net) =>
      match main_loop (S (length (rd_data stdin))) stdin c net (out ++ ready c) with
      | Some (res, _, net) => Some (mbind (λ out, Ok (out, 0)) res, net)
      | None => None
      end
  end.

(** Both flags set [url]; [usage] is the text of [flag.Usage]. *)
Definition cli_flags : list (gostring * (gostring → gostring → go gostring)) :=
  [(str "url", λ v _, string_Set v); (str "u", λ v _, string_Set v)].

Definition cli_main (usage : gostring) (args : list gostring) (kv_addr : gostring) (stdin : reader) (net : N)
    : option (go (gostring * Z) * N) :=
  match parse cli_flags args [] with
  | Ok (Settings url _) => cli_run url kv_addr stdin net
  | Ok ErrHelp => Some (Ok (usage, 0), net)
  | Ok (Failed msg) => Some (Ok (msg ++ line_end ++ usage, 2), net)
  | _ => Some (Panic, net)
  end.

(** ** It ends *)

Lemma read_until_spec delim s :
  match read_until delim s with
  | Some (l, rest) => ∃ body, l = body ++ [delim] ∧ (delim ∉ body) ∧ s = l ++ rest
  | None => delim ∉ s
  end.
Proof.
  induction s as [|b s IH]; cbn [read_until]; [by intros ?%not_elem_of_nil|].
  destruct (Z.eqb_spec b delim) as [->|Hne].
  - exists []. split_and!; [done|by intros ?%not_elem_of_nil|done].
  - destruct (read_until delim s) as [[l rest]|].
    + destruct IH as (body & -> & Hb & ->). exists (b :: body). split_and!; [done| |done].
      intros [->|?]%elem_of_cons; done.
    + intros [->|?]%elem_of_cons; done.
Qed.

Lemma main_loop_ends fuel : ∀ rd c net out,
  (length (rd_data rd) < fuel)%nat → is_Some (main_loop fuel rd c net out).
Proof.
  induction fuel as [|fuel IH]; intros [data e] c net out Hlen; [lia|]. cbn [main_loop].
  unfold ReadString. cbn [rd_data rd_end] in *. pose proof (read_until_spec 10 data) as Hspec.
  destruct (read_until 10 data) as [[line rest]|]; [|by eexists]. destruct Hspec as (body & -> & _ & ->).
  destruct (repl_line _ _ _ _ _) as [[[[text []]|err|] c'] net']; try by eexists.
  apply IH. cbn [rd_data]. rewrite !length_app in Hlen. cbn in Hlen. lia.
Qed.

Lemma cli_run_ends url kv_addr stdin net : is_Some (cli_run url kv_addr stdin net).
Proof.
  unfold cli_run. destruct (waitForLeader _ _ _) as [[[[]|e|] c] net']; try by eexists.
  destruct (main_loop_ends (S (length (rd_data stdin))) stdin c net' (connecting (cli_seed url kv_addr) ++ ready c))
    as [[[res c'] net''] ->]; [lia|]. by eexists.
Qed.

Lemma cli_main_ends usage args kv_addr stdin net : is_Some (cli_main usage args kv_addr stdin net).
Proof. unfold cli_main. destruct (parse _ _ _) as [[]| |]; try (by eexists). apply cli_run_ends. Qed.

Lemma ReadString_line l rest e : 10 ∉ l → ReadString (Reader (l ++ line_end ++ rest) e) 10 = (Ok (l ++ line_end), Reader rest e).
Proof.
  intros Hl. unfold ReadString. cbn [rd_data rd_end].
  assert (read_until 10 (l ++ line_end ++ rest) = Some (l ++ line_end, rest)) as ->; [|done].
  induction l as [|b l IH]; [done|]. cbn [app read_until]. apply not_elem_of_cons in Hl as [Hb Hl].
  destruct (Z.eqb_spec b 10); [lia|]. by rewrite IH.
Qed.
End main.

(** ** A session against the servers *)

(** The nodes that are up and the number of requests sent so far: the [i]-th request is
    served at [clock i], and a random choice made then is [choose i]. *)
Section session.
Context {W : Type} {LW : Log W} {LL : LogLaws W} (Hlog : log_total W).
Context (ord : nat → order) (Hord : orders_ok ord) (ford : table_order) (maxLen : Z) (Hmax : 0 ≤ maxLen).
Context (clock : nat → Z) (choose : nat → Z → Z) (Hchoose : ∀ i k, 0 < k → 0 ≤ choose i k < k).
Context {U : Unicode}.

Definition world : Type := Nodes W * nat.

Definition world_exchange (a : addr) (req : gobytes) (w : world) : go reader * world :=
  let '(res, nodes) := node_exchange ord ford maxLen (clock w.2) a req w.1 in (res, (nodes, S w.2)).
Definition world_intn (k : Z) (w : world) : Z * world := (choose w.2 k, w).

Lemma send_world (a : addr) (msg : Msg) (nodes : Nodes W) (i : nat) :
  sendToNode world_exchange a msg (nodes, i) =
  let '(res, nodes) := sendToNode (node_exchange ord ford maxLen (clock i)) a msg nodes in (res, (nodes, S i)).
Proof.
  unfold sendToNode, sendMessage, receiveMessage, world_exchange. rewrite WriteFrame_bytes. cbn [fst snd app].
  by destruct (node_exchange _ _ _ _ _ _ _) as [[rd|e|] nodes'].
Qed.

(** *** What the user is to see *)

(** What each node is to hold: its default TTL and its map. *)
Abbreviation views := (gmap addr (Z * gmap key Record)).

Definition target (c : kvClient) (write : bool) (i : nat) : addr :=
  if write then cli_leaderAddr c else
  match cli_followers c with
  | [] => cli_leaderAddr c
  | fs => default [] (fs !! Z.to_nat (choose i (len fs)))
  end.

Definition as_request (msg : Msg) : option client_request :=
  match msg with
  | MGetRequest r => Some (CGet (GetRequest_Key r))
  | MSetRequest r => Some (CSet (SetRequest_Key r) (SetRequest_Value r) (SetRequest_TTL r))
  | MDeleteRequest r => Some (CDelete (DeleteRequest_Key r))
  | _ => None
  end.

(** One line: the text, whether the session goes on, the maps and the requests sent. *)
Definition line_spec (c : kvClient) (vs : views) (i : nat) (input : gostring) : gostring * bool * views * nat :=
  match read_command input with
  | CSkip | CPanic => ([], true, vs, i)
  | CExit => (str "Goodbye!" ++ line_end, false, vs, i)
  | CTopology => (printTopology c, true, vs, i)
  | CInvalid e => (ColorRed ++ Error e ++ ColorReset ++ line_end, true, vs, i)
  | CRequest msg =>
      let t := target c (is_write msg) i in
      match as_request msg, vs !! t with
      | Some r, Some (ttl, m) =>
          let '(resp, m) := client_spec ttl m r (clock i) in
          (printResponse resp, true, <[t := (ttl, m)]> vs, S i)
      | _, _ => ([], true, vs, i)
      end
  end.

Fixpoint lines_spec (c : kvClient) (vs : views) (i : nat) (lines : list gostring) : gostring * views :=
  match lines with
  | [] => (prompt ++ input_failed io_EOF, vs)
  | l :: lines =>
      let '(text, goes_on, vs, i) := line_spec c vs i (l ++ line_end) in
      if goes_on then let '(out, vs) := lines_spec c vs i lines in (prompt ++ text ++ out, vs)
      else (prompt ++ text, vs)
  end.

(** *** The servers hold what the views say *)

Definition value_small (v : gobytes) : Prop := len v < 2 ^ 31.

Record shows (vs : views) (nodes : Nodes W) : Prop := {
  sh_node (a : addr) ttl m : vs !! a = Some (ttl, m) →
    ∃ st : State, nodes !! a = Some st ∧ ndefaultTTL st.1 = ttl ∧ simulates m (db st.1);
  sh_small (a : addr) ttl m k rec : vs !! a = Some (ttl, m) → m !! k = Some rec → value_small (value rec);
}.

(** The client knows a leader, and it and the followers are among the nodes shown. *)
Definition connected (c : kvClient) (vs : views) : Prop :=
  ∀ t : addr, t = cli_leaderAddr c ∨ t ∈ cli_followers c → t ≠ [] ∧ is_Some (vs !! t).

Definition line_ok (l : gostring) : Prop :=
  (10 ∉ l) ∧ match read_command (l ++ line_end) with
           | CRequest msg => sendable maxLen msg ∧ len (Msg_wire msg) < 2 ^ 31
           | _ => True
           end.

Lemma request_of input msg : read_command input = CRequest msg → ∃ r, as_request msg = Some r ∧ client_msg r = msg.
Proof.
  unfold read_command. case_bool_decide; [done|]. destruct (_ || _); [done|]. case_bool_decide; [done|].
  destruct (parseCommand _) as [m|e|] eqn:E; [|done..]. intros [= <-]. unfold parseCommand in E.
  repeat (case_match || case_bool_decide); simplify_eq/=; by eexists.
Qed.

Lemma response_sendable ttl m r now :
  (∀ k rec, m !! k = Some rec → value_small (value rec)) → sendable 0 (client_spec ttl m r now).1.
Proof.
  intros Hm. destruct r as [k|k v t|k]; cbn [client_spec fst].
  - assert (∀ x : GetResponse, value_small (GetResponse_Value x) → sendable 0 (MGetResponse x)) as H.
    { unfold value_small. intros x Hx.
      assert (len (Msg_wire (MGetResponse x)) = 5 + len (GetResponse_Value x)) as E.
      { change (len ([Z.b2z (GetResponse_Found x)] ++ be 4 (u32 (len (GetResponse_Value x))) ++ GetResponse_Value x) =
          5 + len (GetResponse_Value x)). len_lia. }
      split; [change (5 + len (GetResponse_Value x) < 2 ^ 32); lia|]. rewrite E. lia. }
    apply H. unfold read_record. destruct (m !! k) as [rec|] eqn:E; [|done]. destruct (_ <? _); [done|]. by eapply Hm.
  - by split; [vm_compute|split; [vm_compute|left]].
  - destruct (m !! k); (split; [by vm_compute|split; [by vm_compute|by left]]).
Qed.

Lemma client_spec_small ttl m r now :
  (∀ k rec, m !! k = Some rec → value_small (value rec)) → len (Msg_wire (client_msg r)) < 2 ^ 31 →
  ∀ k rec, (client_spec ttl m r now).2 !! k = Some rec → value_small (value rec).
Proof.
  intros Hm Hr k rec. destruct r as [k'|k' v t|k']; cbn [client_spec snd].
  - apply Hm.
  - intros [[<- <-]|[_ ?]]%lookup_insert_Some; [|by eapply Hm]. cbn [value]. unfold value_small.
    change (len (be 2 (u16 (len k')) ++ be 4 (u32 (len v)) ++ be 8 t ++ k' ++ v) < 2 ^ 31) in Hr.
    rewrite !len_app in Hr. pose proof (len_nonneg (be 2 (u16 (len k')))). pose proof (len_nonneg (be 4 (u32 (len v)))).
    pose proof (len_nonneg (be 8 t)). pose proof (len_nonneg k'). lia.
  - intros [_ ?]%lookup_delete_Some. by eapply Hm.
Qed.

Lemma pick_world (vs : views) (nodes : Nodes W) c (write : bool) (i : nat) :
  connected c vs → pickTarget world_intn c write (nodes, i) = (Ok (target c write i), (nodes, i)) ∧
    (target c write i = cli_leaderAddr c ∨ target c write i ∈ cli_followers c).
Proof.
  intros Hc. unfold pickTarget, target, world_intn. destruct write; [auto|].
  destruct (cli_followers c) as [|f fs] eqn:E; [auto|].
  assert (0 < len (f :: fs)) as Hl by (rewrite len_cons; pose proof (len_nonneg fs); lia).
  rewrite (proj2 (Z.ltb_lt _ _) Hl). destruct (Hchoose i _ Hl) as [H1 H2]. cbn [snd].
  destruct (lookup_lt_is_Some_2 (f :: fs) (Z.to_nat (choose i (len (f :: fs))))) as [t Ht]; [unfold len in *; lia|].
  rewrite Ht. cbn [default]. split; [done|]. right. by eapply list_elem_of_lookup_2.
Qed.

(** One request of a connected client. *)
Lemma execute_world (vs : views) (nodes : Nodes W) c (i : nat) r ttl m :
  connected c vs → shows vs nodes → sendable maxLen (client_msg r) → len (Msg_wire (client_msg r)) < 2 ^ 31 →
  let t := target c (is_write (client_msg r)) i in
  vs !! t = Some (ttl, m) →
  let '(resp, m') := client_spec ttl m r (clock i) in
  ∃ nodes', execute world_exchange world_intn c (client_msg r) (nodes, i) = (Ok resp, c, (nodes', S i)) ∧
    shows (<[t := (ttl, m')]> vs) nodes'.
Proof.
  intros Hc Hs Hsend Hlen t Ht. destruct (client_spec ttl m r (clock i)) as [resp m'] eqn:Espec.
  destruct (pick_world vs nodes c (is_write (client_msg r)) i Hc) as [Epick Hin]. fold t in Epick, Hin.
  destruct (sh_node _ _ Hs _ _ _ Ht) as (st & Hst & Ettl & Hsim).
  assert (∀ k rec, m !! k = Some rec → value_small (value rec)) as Hsm by (intros k rec; by eapply (sh_small _ _ Hs)).
  destruct (send_request ord ford maxLen (clock i) t st m r nodes) as (st' & E & Hsim' & Ettl');
    [done..|by apply response_sendable|]. rewrite Ettl, Espec in E, Hsim'. cbn [fst snd] in E, Hsim'.
  exists (<[t := st']> nodes). split.
  - unfold execute. generalize 7%nat as k. intros k. cbn [execute_loop]. rewrite Epick.
    rewrite bool_decide_eq_false_2 by (by apply Hc). by rewrite send_world, E.
  - split.
    + intros a ttl0 m0 [[<- [= <- <-]]|[Hne Ha]]%lookup_insert_Some.
      * exists st'. rewrite lookup_insert_eq. split_and!; [done|congruence|done].
      * rewrite lookup_insert_ne by done. by apply (sh_node _ _ Hs).
    + intros a ttl0 m0 k rec [[<- [= <- <-]]|[Hne Ha]]%lookup_insert_Some; [|by eapply (sh_small _ _ Hs)].
      pose proof (client_spec_small ttl m r (clock i) Hsm Hlen k rec) as H. by rewrite Espec in H.
Qed.

(** One line. *)
Lemma repl_world (vs : views) (nodes : Nodes W) c (i : nat) l :
  line_ok l → connected c vs → shows vs nodes →
  let '(text, goes_on, vs', i') := line_spec c vs i (l ++ line_end) in
  ∃ nodes', repl_line world_exchange world_intn (l ++ line_end) c (nodes, i) = (Ok (text, goes_on), c, (nodes', i')) ∧
    shows vs' nodes' ∧ connected c vs'.
Proof.
  intros [_ Hl] Hc Hs. unfold line_spec, repl_line. pose proof (read_command_no_panic (l ++ line_end)) as Hp.
  destruct (read_command (l ++ line_end)) as [| | |e|msg|] eqn:E; [by exists nodes..| |done].
  destruct (request_of _ _ E) as (r & Er & <-). rewrite Er. destruct Hl as [Hsend Hlen].
  destruct (pick_world vs nodes c (is_write (client_msg r)) i Hc) as [_ Hin]. destruct (Hc _ Hin) as [_ [[ttl m] Hm]].
  rewrite Hm. pose proof (execute_world vs nodes c i r ttl m Hc Hs Hsend Hlen Hm) as H.
  destruct (client_spec ttl m r (clock i)) as [resp m']. destruct H as (nodes' & Ex & Hs').
  rewrite Ex. exists nodes'. split_and!; [done|done|]. intros t Ht. destruct (Hc t Ht) as [Hne Hsome].
  split; [done|]. by apply lookup_insert_is_Some'; right.
Qed.

(** The lines of a session. *)
Lemma main_world lines : ∀ (vs : views) (nodes : Nodes W) c (i fuel : nat) out,
  Forall line_ok lines → connected c vs → shows vs nodes →
  let input := concat ((λ l, l ++ line_end) <$> lines) in
  (length input < fuel)%nat →
  ∃ nodes' i', main_loop world_exchange world_intn fuel (Reader input io_EOF) c (nodes, i) out =
      Some (Ok (out ++ (lines_spec c vs i lines).1), c, (nodes', i')) ∧
    shows (lines_spec c vs i lines).2 nodes'.
Proof.
  induction lines as [|l lines IH]; intros vs nodes c i fuel out Hls Hc Hs input Hfuel;
    (destruct fuel as [|fuel]; [lia|]); cbn [main_loop].
  - exists nodes, i. split; [|done]. unfold ReadString. cbn. by rewrite <-app_assoc.
  - apply Forall_cons in Hls as [Hl Hls]. subst input. cbn [fmap list_fmap concat lines_spec] in *.
    rewrite <-app_assoc, ReadString_line by apply Hl. pose proof (repl_world vs nodes c i l Hl Hc Hs) as H.
    destruct (line_spec c vs i (l ++ line_end)) as [[[text goes_on] vs1] i1]. destruct H as (nodes1 & E & Hs1 & Hc1).
    rewrite E. destruct goes_on.
    + destruct (IH vs1 nodes1 c i1 fuel ((out ++ prompt) ++ text)) as (nodes2 & i2 & E2 & Hs2); [done..| |].
      { rewrite !length_app in Hfuel. cbn in Hfuel. lia. }
      exists nodes2, i2. rewrite E2. destruct (lines_spec c vs1 i1 lines) as [out2 vs2]. cbn [fst snd] in *.
      split; [|done]. by rewrite <-!app_assoc.
    + exists nodes1, i1. split; [|done]. cbn [fst]. by rewrite <-!app_assoc.
Qed.

Lemma discover_world (nodes : Nodes W) seed (st : State) (i : nat) :
  nodes !! seed = Some st → sendable 0 (MTopologyResponse (GetTopology st.1)) → leaderAddr (nraft st.1) ≠ [] →
  waitForLeader world_exchange (newClient seed) (nodes, i) =
    (Ok (), learn (newClient seed) (GetTopology st.1), (nodes, S i)).
Proof.
  intros Hst Htop Hl. unfold waitForLeader. generalize 14%nat as k. intros k. cbn [wait_loop].
  unfold connect. cbn [knownAddrs newClient connect_loop].
  assert (fetchTopology world_exchange seed (nodes, i) = (Ok (GetTopology st.1), (nodes, S i))) as ->.
  { pose proof (fetch_topology ord ford maxLen (clock i) seed st nodes Hst Hmax Htop) as E.
    unfold fetchTopology in *. rewrite send_world. destruct (sendToNode _ _ _ _) as [res nodes'].
    injection E as E ->. f_equal. exact E. }
  assert (bool_decide (cli_leaderAddr (learn (newClient seed) (GetTopology st.1)) = []) = false) as E.
  { apply bool_decide_eq_false_2. by rewrite (proj1 (learn_spec _ _)). }
  unfold newClient in *. by rewrite E, E.
Qed.
End session.


(** A session at the cluster of two: the write goes to the leader, the read to the
    follower, which does not have it. *)
Definition ex_lines : list gostring := [str "set k v"; str ""; str "get k"; str "fetch"; str "exit"].
Definition ex_views : gmap addr (Z * gmap key Record) := {[ addr_A := (1000, ∅); addr_B := (1000, ∅) ]}.

Example ex_lines_text :
  (lines_spec (U:=ascii_text) (λ i, Z.of_nat i) (λ _ _, 0) (mkClient [addr_B; addr_A] addr_A [addr_B]) ex_views 1 ex_lines).1 =
  prompt ++ ColorGreen ++ str "OK" ++ ColorReset ++ line_end ++ prompt ++
  prompt ++ ColorYellow ++ str "(nil)" ++ ColorReset ++ line_end ++
  prompt ++ ColorRed ++ str "unknown command " ++ quoted (str "fetch") ++ str " — available: GET, SET, DEL, topology" ++
    ColorReset ++ line_end ++
  prompt ++ str "Goodbye!" ++ line_end.
Proof. vm_compute. reflexivity. Qed.

Lemma ex_views_lookup (t : addr) : t ∈ [addr_A; addr_B] → ex_views !! t = Some (1000, ∅).
Proof.
  rewrite !elem_of_cons, elem_of_nil. intros [->|[->|[]]]; vm_compute; reflexivity.
Qed.

Lemma ex_views_inv (t : addr) x : ex_views !! t = Some x → t ∈ [addr_A; addr_B] ∧ x = (1000, ∅).
Proof.
  intros H. assert (t ∈ [addr_A; addr_B]) as Ht.
  { unfold ex_views in H. apply lookup_insert_Some in H as [[<- _]|[_ H]]; [by left|].
    apply lookup_singleton_Some in H as [<- _]. by right; left. }
  split; [done|]. rewrite ex_views_lookup in H by done. by injection H.
Qed.

Lemma ex_shows : shows ex_views ex_nodes.
Proof.
  split.
  - intros a ttl m [Ha [= -> ->]]%ex_views_inv. exists (ex_member a). split_and!; [by apply ex_nodes_lookup|done|apply ex_follower_sim].
  - intros a ttl m k rec [_ [= _ ->]]%ex_views_inv. by rewrite lookup_empty.
Qed.

Definition ex_args : list gostring := [str "--url=C"; str "-u"; addr_B].

