(* ===== verification/RaftWire.v ===== *)
(** * Elections over the network (cluster/raft.go, its RPC helpers and timers)

    [Raft] treats a vote request, its reply and a heartbeat as abstract messages.  Here
    they are the frames that [requestVoteRPC] and [sendHeartbeatRPC] write, served by
    [handleConnection] of the node they reach, and the answers are read back from its
    bytes.  A call over the network is the handler called directly, and a cluster of
    servers that exchange bytes refines the cluster of [Raft]. *)

From S2P Require Import Prelude GoLang Protocol KvMessages ClusterMessages ClientMessages Messages.
From S2P Require Import WalRecord Os WalWriter Shard Eviction Store Recovery StoreSpec Logs StoreProps.
From S2P Require Import Raft RaftProps Replication ReplicationProps Engine Server ServerProps ServerSafe Cli CliProps.

(** ** Timers, in nanoseconds *)

Definition Millisecond : Z := 1000000.
Definition electionTimeoutMin : Z := 150 * Millisecond.
Definition electionTimeoutMax : Z := 300 * Millisecond.
Definition heartbeatInterval : Z := 50 * Millisecond.

(** [int63n] is [rand.Int63n]. *)
Definition randomTimeout (int63n : Z → Z) : Z :=
  let d := electionTimeoutMax - electionTimeoutMin in
  electionTimeoutMin + int63n d.

(** Between the bounds, and long enough for two heartbeats at least. *)
Lemma randomTimeout_bounds int63n :
  (∀ n, 0 < n → 0 ≤ int63n n < n) →
  electionTimeoutMin ≤ randomTimeout int63n < electionTimeoutMax ∧ 2 * heartbeatInterval < randomTimeout int63n.
Proof.
  intros H. unfold randomTimeout, heartbeatInterval, electionTimeoutMax, electionTimeoutMin, Millisecond in *.
  specialize (H (300 * 1000000 - 150 * 1000000)). lia.
Qed.

(** ** The calls *)

Definition vote_request (self : addr) (term : Z) : Msg := MVoteRequest (mkVoteRequest term self 0).
Definition heartbeat (self : addr) (term : Z) : Msg := MHeartbeat (mkHeartbeat term self).

(** The end of [requestVoteRPC]: what [ReadFrame] gave, and the state when the lock is
    taken. *)
Definition vote_answer (res : go Msg) (r : RaftState) : go bool * RaftState :=
  match res with
  | Ok (MVoteResponse resp) => (Ok (VoteResponse_Granted resp), vote_reply r (VoteResponse_Term resp))
  | Ok _ | Err _ => (Ok false, r)
  | Panic => (Panic, r)
  end.

Section calls.
Context {N : Type} (exchange : addr → gobytes → N → go reader * N).

(** [meanwhile] is what other goroutines do to the state while the call waits. *)
Definition requestVoteRPC (r : RaftState) (peer : addr) (term : Z) (meanwhile : RaftState → RaftState) (net : N)
    : go bool * RaftState * N :=
  let '(res, net) := sendToNode exchange peer (vote_request (nodeAddr r) term) net in
  let '(granted, r) := vote_answer res (meanwhile r) in
  (granted, r, net).

(** The ack is read and ignored. *)
Definition sendHeartbeatRPC (r : RaftState) (peer : addr) (term : Z) (net : N) : go () * N :=
  match sendToNode exchange peer (heartbeat (nodeAddr r) term) net with
  | (Panic, net) => (Panic, net)
  | (_, net) => (Ok (), net)
  end.
End calls.

(** ** What a server does with them *)

(** The addresses and limits with which the frames of an election fit. *)
Definition frames_fit (maxLen : Z) (a : addr) : Prop := len a < 65536 ∧ (maxLen = 0 ∨ 19 + len a ≤ maxLen).

Lemma vote_request_sendable maxLen x term :
  0 ≤ term < 2 ^ 64 → frames_fit maxLen x → sendable maxLen (vote_request x term).
Proof.
  intros Ht [Ha Hm]. assert (len (Msg_wire (vote_request x term)) = 18 + len x) as E.
  { change (len (be 8 term ++ be 2 (u16 (len x)) ++ x ++ be 8 0) = 18 + len x). len_lia. }
  split; [|rewrite E; lia].
  change (0 ≤ term < 2 ^ 64 ∧ len x < 65536 ∧ 0 ≤ 0 < 2 ^ 64). lia.
Qed.

Lemma heartbeat_sendable maxLen x term :
  0 ≤ term < 2 ^ 64 → frames_fit maxLen x → sendable maxLen (heartbeat x term).
Proof.
  intros Ht [Ha Hm]. assert (len (Msg_wire (heartbeat x term)) = 10 + len x) as E.
  { change (len (be 8 term ++ be 2 (u16 (len x)) ++ x) = 10 + len x). len_lia. }
  split; [|rewrite E; lia]. change (0 ≤ term < 2 ^ 64 ∧ len x < 65536). lia.
Qed.

Lemma vote_response_sendable t granted : 0 ≤ t < 2 ^ 64 → sendable 0 (MVoteResponse (mkVoteResponse t granted)).
Proof.
  intros Ht. assert (len (Msg_wire (MVoteResponse (mkVoteResponse t granted))) = 9) as E.
  { change (len (be 8 t ++ [Z.b2z granted]) = 9). len_lia. }
  split; [exact Ht|]. rewrite E. lia.
Qed.

Lemma heartbeat_ack_sendable t : 0 ≤ t < 2 ^ 64 → sendable 0 (MHeartbeatAck (mkHeartbeatAck t 0)).
Proof.
  intros Ht. assert (len (Msg_wire (MHeartbeatAck (mkHeartbeatAck t 0))) = 16) as E.
  { change (len (be 8 t ++ be 8 0) = 16). len_lia. }
  split; [|rewrite E; lia]. change (0 ≤ t < 2 ^ 64 ∧ 0 ≤ 0 < 2 ^ 64). lia.
Qed.

Lemma read_first (m : Msg) maxLen rest e : sendable maxLen m →
  ReadFrame registry (Reader (frame_bytes m ++ rest) e) maxLen = (Ok m, Reader rest e).
Proof. intros (?&?&?). apply ReadFrame_frame; [apply registry_is_ok|apply registry_complete|done..]. Qed.

Lemma read_only (m : Msg) maxLen e : sendable maxLen m →
  ReadFrame registry (Reader (frame_bytes m) e) maxLen = (Ok m, Reader [] e).
Proof. intros H. rewrite <-(app_nil_r (frame_bytes m)). by apply read_first. Qed.

Section served.
Context {P : Type} {PP : Policy P} {W : Type} {LW : Log W}.
Context (ord : nat → order) (ford : table_order) (maxLen : Z).
Implicit Types (st : State (P:=P) (W:=W)).

Lemma serve_vote fuel clock c e x term st : sendable maxLen (vote_request x term) →
  handleConnection ord ford fuel maxLen clock c (Reader (frame_bytes (vote_request x term)) e) st =
  let '(granted, t, n) := Node_HandleVoteRequest st.1 (mkVoteRequest term x 0) in
  Some (Closed, (n, st.2), frame_bytes (MVoteResponse (mkVoteResponse t granted))).
Proof.
  intros Hs. unfold handleConnection, readMessage. rewrite read_only by done. cbn iota.
  change (OpCode (vote_request x term)) with OpVoteRequest.
  change (OpVoteRequest =? OpReplicationJoin) with false. change (OpVoteRequest =? OpHeartbeat) with false.
  change (OpVoteRequest =? OpVoteRequest) with true. cbn iota. unfold vote_request.
  destruct (Node_HandleVoteRequest _ _) as [[granted t] n]. by rewrite writeMessage_frame.
Qed.

Lemma serve_heartbeat fuel clock c e x term st : sendable maxLen (heartbeat x term) →
  ∃ out, handleConnection ord ford fuel maxLen clock c (Reader (frame_bytes (heartbeat x term)) e) st =
  Some (Closed, (Node_HandleHeartbeat st.1 term x, st.2), out) ∧
  out = frame_bytes (MHeartbeatAck (mkHeartbeatAck (currentTerm (nraft (Node_HandleHeartbeat st.1 term x))) 0)).
Proof.
  intros Hs. unfold handleConnection, readMessage. rewrite read_only by done. cbn iota.
  change (OpCode (heartbeat x term)) with OpHeartbeat.
  change (OpHeartbeat =? OpReplicationJoin) with false. change (OpHeartbeat =? OpHeartbeat) with true.
  cbn iota. unfold heartbeat. rewrite writeMessage_frame. by eexists.
Qed.

(** The callbacks leave the handler's term as it is. *)
Lemma run_actions_raft acts : ∀ n : Node P W,
  currentTerm (nraft (foldl run_action n acts)) = currentTerm (nraft n).
Proof. induction acts as [|act acts IH]; intros n; [done|]. cbn [foldl]. rewrite IH. by destruct act. Qed.

Lemma Node_HandleVoteRequest_term (n n' : Node P W) req granted t :
  Node_HandleVoteRequest n req = (granted, t, n') → t = currentTerm (nraft n') ∧
  t = Z.max (currentTerm (nraft n)) (VoteRequest_Term req).
Proof.
  unfold Node_HandleVoteRequest. destruct (HandleVoteRequest _ _ _) as [[r [g u]] acts] eqn:E. intros [= <- <- <-].
  rewrite run_actions_raft. cbn [nraft with_nraft].
  unfold HandleVoteRequest in E. raft_cases; simplify_eq/=; lia.
Qed.

Lemma Node_HandleHeartbeat_term (n : Node P W) term x :
  currentTerm (nraft (Node_HandleHeartbeat n term x)) = Z.max (currentTerm (nraft n)) term.
Proof.
  unfold Node_HandleHeartbeat. destruct (HandleHeartbeat _ _ _) as [r acts] eqn:E. rewrite run_actions_raft.
  cbn [nraft with_nraft]. unfold HandleHeartbeat in E. raft_cases; simplify_eq/=; lia.
Qed.
End served.

(** ** A call is the handler called directly *)

(** C17.  An election's calls over the network.  Asking a node that is up for its vote
    (encode, dial, serve, decode) gives what its handler decides when it is called
    directly, leaves that node as the handler leaves it and no other node changed, and
    steps the caller down when the answer's term is newer; a heartbeat does to its
    receiver what the handler does; a node that is down refuses its vote and nothing
    changes. *)
Theorem rpc_is_call {W} {LW : Log W} (ord : nat → order) (ford : table_order) (maxLen now : Z)
    (nodes : Nodes W) (r : RaftState) (peer : addr) (term : Z) (meanwhile : RaftState → RaftState) :
  0 ≤ term < 2 ^ 64 → frames_fit maxLen (nodeAddr r) →
  let net := node_exchange ord ford maxLen now in
  (∀ st : State, nodes !! peer = Some st → 0 ≤ currentTerm (nraft st.1) < 2 ^ 64 →
     requestVoteRPC net r peer term meanwhile nodes =
       (let '(granted, t, n) := Node_HandleVoteRequest st.1 (mkVoteRequest term (nodeAddr r) 0) in
        (Ok granted, vote_reply (meanwhile r) t, <[peer := (n, st.2)]> nodes)) ∧
     sendHeartbeatRPC net r peer term nodes =
       (Ok (), <[peer := (Node_HandleHeartbeat st.1 term (nodeAddr r), st.2)]> nodes)) ∧
  (nodes !! peer = None →
     requestVoteRPC net r peer term meanwhile nodes = (Ok false, meanwhile r, nodes) ∧
     sendHeartbeatRPC net r peer term nodes = (Ok (), nodes)).
Proof.
  intros Ht Hfit net. unfold requestVoteRPC, sendHeartbeatRPC, sendToNode, sendMessage, receiveMessage. rewrite !WriteFrame_bytes. cbn [app].
  unfold net, node_exchange. split; [|by intros ->]. intros st -> Hterm.
  rewrite serve_vote by (by apply vote_request_sendable).
  destruct (serve_heartbeat ord ford maxLen 1 (λ _, now) 0 io_EOF (nodeAddr r) term st) as (out & -> & ->);
    [by apply heartbeat_sendable|].
  destruct (Node_HandleVoteRequest _ _) as [[granted t] n] eqn:E.
  apply Node_HandleVoteRequest_term in E as [_ Et]. cbn [VoteRequest_Term] in Et. split.
  - rewrite read_only by (apply vote_response_sendable; lia). done.
  - rewrite read_only; [done|]. apply heartbeat_ack_sendable. rewrite Node_HandleHeartbeat_term. lia.
Qed.

(** ** A cluster of servers *)

(** The moves of the run loop that neither send nor call back: a turn of [run], a
    timeout or a signal in [runFollower], the end of an election or a peer that cannot
    be reached in [runCandidate], a turn or a signal in [runLeader]. *)
Definition loop_moves (r : RaftState) (p : pc) : list (RaftState * pc) :=
  match p with
  | Top => [(r, run_dispatch r)]
  | FollowerWait =>
      (set_role r RoleCandidate, Top) :: if heartbeatCh r then [(set_heartbeat r false, Top)] else []
  | CandidateStart | CallOnLeader => []
  | CandidateWait e =>
      tally r e :: ((λ q, (r, CandidateWait (count_vote e q false))) <$> pending e) ++
      if heartbeatCh r then [(set_role (set_heartbeat r false) RoleFollower, Top)] else []
  | LeaderTop => [(r, if is_leader r then LeaderWait (currentTerm r) else Top)]
  | LeaderWait _ =>
      if heartbeatCh r then [(set_heartbeat r false, if is_leader r then LeaderTop else Top)] else []
  end.

Section system.
Context {P : Type} {PP : Policy P} {W : Type} {LW : Log W}.
Context (ord : nat → order) (ford : table_order) (maxLen : Z).

(** A process: its node with the followers' connections, and where its run loop is. *)
Record host := mkHost { hst : State (P:=P) (W:=W); hpc : pc }.
Definition hraft (h : host) : RaftState := nraft (hst h).1.
Definition set_raft (h : host) (r : RaftState) (p : pc) : host := mkHost (with_nraft (hst h).1 r, (hst h).2) p.

(** The processes, the frames sent (by, to, bytes) and the answers written (by, to, the
    request's bytes, bytes): an answer comes back on the connection of its request. *)
Record sys := mkSys {
  hosts : gmap addr host;
  requests : list (addr * addr * gobytes);
  answers : list (addr * addr * gobytes * gobytes);
}.

Definition put (s : sys) (a : addr) (h : host) (reqs : list (addr * addr * gobytes))
    (anss : list (addr * addr * gobytes * gobytes)) : sys :=
  mkSys (<[a := h]> (hosts s)) (requests s ++ reqs) (answers s ++ anss).

Inductive wstep (s : sys) : sys → Prop :=
  (** a frame of the election reaches its server *)
  | w_serve a h from req fuel clock c st out :
      hosts s !! a = Some h → (from, a, req) ∈ requests s →
      handleConnection ord ford fuel maxLen clock c (Reader req io_EOF) (hst h) = Some (Closed, st, out) →
      wstep s (put s a (mkHost st (hpc h)) [] [(a, from, req, out)])
  (** the answer reaches the candidate: in its select, or later *)
  | w_answer a h e p out granted r :
      hosts s !! a = Some h → hpc h = CandidateWait e → p ∈ pending e →
      (p, a, writeMessage [] (vote_request a (el_term e)), out) ∈ answers s →
      vote_answer (ReadFrame registry (Reader out io_EOF) 0).1 (hraft h) = (Ok granted, r) →
      wstep s (put s a (set_raft h r (CandidateWait (count_vote e p granted))) [] [])
  | w_late a h p term out granted r :
      hosts s !! a = Some h → 0 ≤ term < 2 ^ 64 →
      (p, a, writeMessage [] (vote_request a term), out) ∈ answers s →
      vote_answer (ReadFrame registry (Reader out io_EOF) 0).1 (hraft h) = (Ok granted, r) →
      wstep s (put s a (set_raft h r (hpc h)) [] [])
  (** the run loop *)
  | w_loop a h r p :
      hosts s !! a = Some h → (r, p) ∈ loop_moves (hraft h) (hpc h) →
      wstep s (put s a (set_raft h r p) [] [])
  | w_start a h r e ms :
      hosts s !! a = Some h → hpc h = CandidateStart → candidate_start (hraft h) = (r, e, ms) →
      wstep s (put s a (set_raft h r (CandidateWait e))
        ((λ p, (a, p, writeMessage [] (vote_request a (el_term e)))) <$> pending e) [])
  | w_lead a h :
      hosts s !! a = Some h → hpc h = CallOnLeader →
      wstep s (put s a (mkHost (becomeLeader (hst h).1, (hst h).2) Top) [] [])
  | w_tick a h term :
      hosts s !! a = Some h → hpc h = LeaderWait term →
      wstep s (put s a (set_raft h (hraft h) LeaderTop)
        ((λ p, (a, p, writeMessage [] (heartbeat a term))) <$> otherPeers (hraft h)) [])
  (** any other connection: clients, followers that join, garbage *)
  | w_traffic a h data e fuel clock c en st out :
      hosts s !! a = Some h →
      (∀ m rd, ReadFrame registry (Reader data e) maxLen = (Ok m, rd) → election_msg m = false) →
      handleConnection ord ford fuel maxLen clock c (Reader data e) (hst h) = Some (en, st, out) → en ≠ Crashed →
      wstep s (put s a (mkHost st (hpc h)) [] []).

(** The processes of [ps] have just been created, each with any store. *)
Definition booted (ps : list addr) (s : sys) : Prop :=
  requests s = [] ∧ answers s = [] ∧ (∀ a h, hosts s !! a = Some h → a ∈ ps) ∧
  ∀ a, a ∈ ps → ∃ d ttl nt, hosts s !! a = Some (mkHost (NewNode d ttl a ps, nt) Top).

Definition small (s : sys) : Prop := ∀ a h, hosts s !! a = Some h → 0 ≤ currentTerm (hraft h) < 2 ^ 64 - 1.

Inductive wreach (ps : list addr) : sys → Prop :=
  | w_init s : booted ps s → wreach ps s
  | w_next s s' : wreach ps s → wstep s s' → small s' → wreach ps s'.

(** ** Against the abstract cluster *)

(** Nothing is left of the goroutines of the abstract node. *)
Record host_ok (a : addr) (h : host) (n : node) : Prop := {
  h_raft : hraft h = raft n;
  h_pc : hpc h = at_ n;
  h_leader : leading n = has_leader (hst h).1;
  h_tasks : Forall (λ t, t = []) (tasks n);
  h_addr : nodeAddr (raft n) = a;
  h_wait : match hpc h with CandidateWait e => 0 ≤ el_term e < 2 ^ 64 | LeaderWait t => 0 ≤ t < 2 ^ 64 | _ => True end;
}.

Definition request_sent (c : cluster) (from to : addr) (req : gobytes) : Prop := ∃ term, 0 ≤ term < 2 ^ 64 ∧
  (req = frame_bytes (vote_request from term) ∧ VoteReq from to term ∈ msgs c ∨
   req = frame_bytes (heartbeat from term) ∧ HeartbeatReq from to term ∈ msgs c).

Definition answer_sent (c : cluster) (from to : addr) (req out : gobytes) : Prop := ∃ term, 0 ≤ term < 2 ^ 64 ∧
  ((∃ granted t, 0 ≤ t < 2 ^ 64 ∧ req = frame_bytes (vote_request to term) ∧
      out = frame_bytes (MVoteResponse (mkVoteResponse t granted)) ∧ VoteResp from to term granted t ∈ msgs c) ∨
   req = frame_bytes (heartbeat to term)).

Record matches (ps : list addr) (s : sys) (c : cluster) : Prop := {
  m_dom a : is_Some (hosts s !! a) ↔ is_Some (nodes c !! a);
  m_host a h n : hosts s !! a = Some h → nodes c !! a = Some n → a ∈ ps ∧ host_ok a h n;
  m_request from to req : (from, to, req) ∈ requests s → from ∈ ps ∧ request_sent c from to req;
  m_answer from to req out : (from, to, req, out) ∈ answers s → to ∈ ps ∧ answer_sent c from to req out;
}.

Lemma matches_nodes ps s c a h : matches ps s c → hosts s !! a = Some h →
  ∃ n, nodes c !! a = Some n ∧ a ∈ ps ∧ host_ok a h n.
Proof.
  intros Hm Ha. destruct (proj1 (m_dom _ _ _ Hm a)) as [n Hn]; [eauto|].
  exists n. split; [done|]. by eapply m_host.
Qed.

Lemma matches_small ps s c : matches ps s c → small s → terms_small c.
Proof.
  intros Hm Hs a n Hn. destruct (proj2 (m_dom _ _ _ Hm a)) as [h Hh]; [eauto|].
  destruct (m_host _ _ _ Hm _ _ _ Hh Hn) as [_ Hok]. rewrite <-(h_raft _ _ _ Hok). by eapply Hs.
Qed.

(** A change of one process, matched by one of its node. *)
Lemma matches_put ps s c c' a h n h' n' reqs anss :
  matches ps s c → hosts s !! a = Some h → nodes c !! a = Some n →
  nodes c' = <[a := n']> (nodes c) → msgs c ⊆ msgs c' → host_ok a h' n' →
  (∀ from to req, (from, to, req) ∈ reqs → from ∈ ps ∧ request_sent c' from to req) →
  (∀ from to req out, (from, to, req, out) ∈ anss → to ∈ ps ∧ answer_sent c' from to req out) →
  matches ps (put s a h' reqs anss) c'.
Proof.
  intros Hm Ha Hn En Hsub Hok Hreq Hans. split; cbn [put hosts requests answers].
  - intros b. rewrite En. destruct (decide (a = b)) as [->|Hne]; [by rewrite !lookup_insert_eq|].
    rewrite !lookup_insert_ne by done. apply (m_dom _ _ _ Hm).
  - intros b hb nb. rewrite En. destruct (decide (a = b)) as [->|Hne].
    + rewrite !lookup_insert_eq. intros [= <-] [= <-]. split; [|done]. by eapply (m_host _ _ _ Hm).
    + rewrite !lookup_insert_ne by done. apply (m_host _ _ _ Hm).
  - intros from to req [Hr|Hr]%elem_of_app; [|by apply Hreq].
    destruct (m_request _ _ _ Hm _ _ _ Hr) as (? & term & Ht & H). split; [done|]. exists term. split; [done|].
    destruct H as [[? ?]|[? ?]]; [left|right]; split; set_solver.
  - intros from to req out [Hr|Hr]%elem_of_app; [|by apply Hans].
    destruct (m_answer _ _ _ Hm _ _ _ _ Hr) as (? & term & Ht & H). split; [done|]. exists term. split; [done|].
    destruct H as [(g & t & ? & ? & ? & ?)|?]; [left; exists g, t|by right]. refine (conj _ (conj _ (conj _ _))); [done..|set_solver].
Qed.

(** Where the abstract cluster takes one step and nothing is sent. *)
Lemma matches_step ps s c a h n h' n' c' :
  reachable ps c → matches ps s c → small s → hosts s !! a = Some h → nodes c !! a = Some n →
  step c c' → nodes c' = <[a := n']> (nodes c) → msgs c ⊆ msgs c' → host_ok a h' n' →
  ∃ c', reachable ps c' ∧ matches ps (put s a h' [] []) c'.
Proof.
  intros Hr Hm Hs Ha Hn Hstep En Hsub Hok. exists c'. split.
  - eapply r_step; [done|by eapply matches_small|done].
  - eapply matches_put; [done..| |]; intros *; by intros ?%not_elem_of_nil.
Qed.

(** ** Callbacks and replies at once *)

Definition sends (acts : list action) : list msg := omap (λ act, match act with Send m => Some m | _ => None end) acts.

(** A goroutine of the abstract node runs to its end. *)
Lemma run_task ps ts acts : ∀ c (a : addr) n,
  reachable ps c → terms_small c → nodes c !! a = Some n → tasks n = ts ++ [acts] →
  ∃ c', reachable ps c' ∧ msgs c' = msgs c ++ sends acts ∧
    nodes c' = <[a := foldl (λ n act, (do_action n act).1) (Raft.mkNode (raft n) (at_ n) (leading n) (ts ++ [[]])) acts]> (nodes c).
Proof.
  induction acts as [|act acts IH]; intros c a n Hr Hs Hn Ht.
  - exists c. cbn. rewrite app_nil_r. split_and!; [done..|]. symmetry. apply insert_id. rewrite Hn. f_equal.
    rewrite <-Ht. by destruct n.
  - set (n0 := Raft.mkNode (raft n) (at_ n) (leading n) (ts ++ [acts])).
    destruct (do_action n0 act) as [n1 ms] eqn:Ed.
    assert (step c (upd c a n1 ms)) as Hstep.
    { eapply (s_task c a n (length ts) act acts); [done| |].
      - rewrite Ht, lookup_app_r, Nat.sub_diag by lia. done.
      - rewrite Ht, insert_app_r_alt, Nat.sub_diag by lia. exact Ed. }
    assert (currentTerm (raft n1) = currentTerm (raft n) ∧ tasks n1 = ts ++ [acts] ∧
      Raft.mkNode (raft n1) (at_ n1) (leading n1) (ts ++ [[]]) = (do_action (Raft.mkNode (raft n) (at_ n) (leading n) (ts ++ [[]])) act).1 ∧
      ms = sends [act]) as (Eterm & Etasks & En1 & Ems).
    { destruct act; cbn in Ed; injection Ed as <- <-; done. }
    destruct (IH (upd c a n1 ms) a n1) as (c' & Hr' & Hmsgs & Hnodes).
    + by eapply r_step.
    + intros b nb. cbn [upd nodes]. intros [[<- <-]|[_ Hb]]%lookup_insert_Some; [rewrite Eterm|]; by eapply Hs.
    + cbn. apply lookup_insert_eq.
    + done.
    + exists c'. split; [done|]. rewrite Hmsgs, Hnodes. cbn [upd msgs nodes foldl]. split.
      * rewrite <-app_assoc, Ems. by destruct act.
      * by rewrite insert_insert_eq, En1.
Qed.

(** The same actions, run by the process and by the goroutine of its node. *)
Lemma run_actions_ok acts : ∀ (N : Node P W) (n : node),
  nraft N = raft n → leading n = has_leader N →
  let N' := foldl run_action N acts in let n' := foldl (λ n act, (do_action n act).1) n acts in
  nraft N' = raft n' ∧ leading n' = has_leader N' ∧ at_ n' = at_ n ∧ tasks n' = tasks n ∧
  nodeAddr (raft n') = nodeAddr (raft n).
Proof.
  induction acts as [|act acts IH]; intros N n Hr Hl; [done|]. cbn [foldl].
  destruct (IH (run_action N act) (do_action n act).1) as (?&?&E3&E4&E5).
  - destruct act; cbn; [done|by rewrite Hr|done].
  - destruct act; cbn; done.
  - cbn zeta in *. rewrite E3, E4, E5. by destruct act.
Qed.

(** A handler, then its goroutine: [c1] is the cluster between them. *)
Lemma matches_handled ps s c c1 a h n r acts more anss :
  reachable ps c → matches ps s c → small s → hosts s !! a = Some h → nodes c !! a = Some n →
  let h' := mkHost (foldl run_action (with_nraft (hst h).1 r) acts, (hst h).2) (hpc h) in
  small (put s a h' [] anss) → nodeAddr r = nodeAddr (raft n) → Forall (λ act, is_Some (match act with Send m => Some m | _ => None end)) more →
  step c c1 → nodes c1 = <[a := add_task (with_raft n r) (acts ++ more)]> (nodes c) → msgs c1 = msgs c →
  (∀ c' from to req out, sends more ⊆ msgs c' → (from, to, req, out) ∈ anss → to ∈ ps ∧ answer_sent c' from to req out) →
  ∃ c', reachable ps c' ∧ matches ps (put s a h' [] anss) c'.
Proof.
  intros Hr Hm Hs Ha Hn h' Hs' Haddr Hmore Hstep En1 Em1 Hans. pose proof (matches_small _ _ _ Hm Hs) as Hts.
  destruct (m_host _ _ _ Hm _ _ _ Ha Hn) as [Hin [Hraft Hpc Hlead Htasks Hself Hwait]].
  destruct (run_task ps (tasks n) (acts ++ more) c1 a (add_task (with_raft n r) (acts ++ more)))
    as (c' & Hr' & Hmsgs & Hnodes).
  - by eapply r_step.
  - intros b nb. rewrite En1. intros [[<- <-]|[_ Hb]]%lookup_insert_Some; [|by eapply Hts].
    specialize (Hs' a h'). cbn in Hs'. rewrite lookup_insert_eq in Hs'. specialize (Hs' eq_refl).
    unfold hraft in Hs'. cbn in Hs'. by rewrite run_actions_raft in Hs'.
  - rewrite En1. apply lookup_insert_eq.
  - done.
  - exists c'. split; [done|]. rewrite En1, insert_insert_eq in Hnodes. rewrite Em1 in Hmsgs.
    set (n0 := Raft.mkNode r (at_ n) (leading n) (tasks n ++ [[]])).
    assert (foldl (λ n act, (do_action n act).1) n0 (acts ++ more) = foldl (λ n act, (do_action n act).1) n0 acts) as Efold.
    { rewrite foldl_app. generalize (foldl (λ n act, (do_action n act).1) n0 acts) as n1. clear -Hmore.
      induction Hmore as [|act more Hact _ IH]; intros n1; [done|]. cbn [foldl]. rewrite IH.
      destruct act; by destruct Hact. }
    destruct (run_actions_ok acts (with_nraft (hst h).1 r) n0) as (E1 & E2 & E3 & E4 & E5); [done..|].
    eapply matches_put; [exact Hm|exact Ha|exact Hn|exact Hnodes|rewrite Hmsgs; set_solver| | |].
    + change (host_ok a h' (foldl (λ n act, (do_action n act).1) n0 (acts ++ more))). rewrite Efold.
      split; [done| |done| |by rewrite E5; cbn; rewrite Haddr|done].
      * rewrite E3. cbn. exact Hpc.
      * rewrite E4. cbn. apply Forall_app. split; [done|by apply Forall_singleton].
    + intros *. by intros ?%not_elem_of_nil.
    + intros from to req out. apply Hans. rewrite Hmsgs. unfold sends. rewrite omap_app. set_solver.
Qed.

(** ** Every step of the system *)

Context (ps : list addr) (Hfit : ∀ a, a ∈ ps → frames_fit maxLen a).

Lemma HandleHeartbeat_addr r term x : nodeAddr (HandleHeartbeat r term x).1 = nodeAddr r.
Proof. unfold HandleHeartbeat. by repeat destruct (_ <? _). Qed.

Lemma wire_serve s c a h from req fuel clock cn st out :
  reachable ps c → matches ps s c → small s →
  hosts s !! a = Some h → (from, a, req) ∈ requests s →
  handleConnection ord ford fuel maxLen clock cn (Reader req io_EOF) (hst h) = Some (Closed, st, out) →
  let s' := put s a (mkHost st (hpc h)) [] [(a, from, req, out)] in
  small s' → ∃ c', reachable ps c' ∧ matches ps s' c'.
Proof.
  intros Hr Hm Hs Ha Hreq Hserve s' Hs'. destruct (matches_nodes _ _ _ _ _ Hm Ha) as (n & Hn & Hin & Hok).
  destruct (m_request _ _ _ Hm _ _ _ Hreq) as (Hfrom & term & Ht & [[-> Hmsg]|[-> Hmsg]]).
  - rewrite serve_vote in Hserve by (apply vote_request_sendable; auto).
    unfold Node_HandleVoteRequest in Hserve. cbn [VoteRequest_Term VoteRequest_CandidateID] in Hserve.
    pose proof (h_raft _ _ _ Hok) as Eraft. unfold hraft in Eraft. rewrite Eraft in Hserve.
    destruct (HandleVoteRequest (raft n) term from) as [[r [granted t]] acts] eqn:Eh. injection Hserve as <- <-.
    destruct (HandleVoteRequest_advances _ _ _ _ _ _ _ Eh) as [Hadv Et].
    assert (0 ≤ t < 2 ^ 64) as Htr.
    { specialize (Hs' a). cbn in Hs'. rewrite lookup_insert_eq in Hs'. specialize (Hs' _ eq_refl).
      unfold hraft in Hs'. cbn in Hs'. rewrite run_actions_raft in Hs'. cbn in Hs'. lia. }
    eapply (matches_handled ps s c _ a h n r acts [Send (VoteResp a from term granted t)]);
      [done..|exact Hs'|by apply (adv_addr _ _ _ Hadv)|by apply Forall_singleton|
       by eapply s_vote_req|done|apply app_nil_r|].
    intros c' f to rq o Hsub [= -> -> -> ->]%list_elem_of_singleton. split; [done|]. exists term.
    split; [done|]. left. exists granted, t. refine (conj _ (conj _ (conj _ _))); [done..|]. apply Hsub. by left.
  - destruct (serve_heartbeat ord ford maxLen fuel clock cn io_EOF from term (hst h)) as (o & E & Eo);
      [apply heartbeat_sendable; auto|]. rewrite E in Hserve. injection Hserve as <- <-. subst s'. clear E Eo.
    unfold Node_HandleHeartbeat in *.
    pose proof (h_raft _ _ _ Hok) as Eraft. unfold hraft in Eraft. rewrite Eraft in Hs' |- *.
    destruct (HandleHeartbeat (raft n) term from) as [r acts] eqn:Eh.
    eapply (matches_handled ps s c _ a h n r acts []);
      [done..|exact Hs'| |by constructor|by eapply s_heartbeat|by rewrite app_nil_r|apply app_nil_r|].
    + by rewrite <-(HandleHeartbeat_addr (raft n) term from), Eh.
    + intros c' f to rq o' _ [= -> -> -> ->]%list_elem_of_singleton. split; [done|]. exists term. split; [done|by right].
Qed.

(** What comes back on the connection of a vote request. *)
Lemma answer_read s c a p term out r granted r' :
  matches ps s c → 0 ≤ term < 2 ^ 64 → (p, a, writeMessage [] (vote_request a term), out) ∈ answers s →
  vote_answer (ReadFrame registry (Reader out io_EOF) 0).1 r = (Ok granted, r') →
  ∃ t, VoteResp p a term granted t ∈ msgs c ∧ r' = vote_reply r t.
Proof.
  intros Hm Ht Hans Hread. destruct (m_answer _ _ _ Hm _ _ _ _ Hans) as (Hin & term' & Ht' & H).
  rewrite writeMessage_frame in H. cbn [app] in H.
  assert (∀ m, sendable maxLen m → frame_bytes (vote_request a term) = frame_bytes m → vote_request a term = m) as Hinj.
  { intros m Hsend E. pose proof (read_only m maxLen io_EOF Hsend) as E2. rewrite <-E, read_only in E2; [by injection E2|].
    apply vote_request_sendable; auto. }
  destruct H as [(g & t & Htt & Ereq & -> & Hmsg)|Ereq].
  - apply Hinj in Ereq; [|apply vote_request_sendable; auto]. injection Ereq as <-.
    rewrite read_only in Hread by (by apply vote_response_sendable). cbn in Hread. injection Hread as <- <-. eauto.
  - apply Hinj in Ereq; [done|apply heartbeat_sendable; auto].
Qed.

Definition wait_ok (p : pc) : Prop :=
  match p with CandidateWait e => 0 ≤ el_term e < 2 ^ 64 | LeaderWait t => 0 ≤ t < 2 ^ 64 | _ => True end.

Lemma host_ok_pc a h n r p :
  host_ok a h n → nodeAddr r = a → wait_ok p → host_ok a (set_raft h r p) (with_pc n r p).
Proof. intros [??????] ??. by split. Qed.

(** The run loop, where nothing is sent: the abstract loop makes the same move. *)
Lemma wire_loop s c a h r p :
  reachable ps c → matches ps s c → small s → hosts s !! a = Some h → (r, p) ∈ loop_moves (hraft h) (hpc h) →
  ∃ c', reachable ps c' ∧ matches ps (put s a (set_raft h r p) [] []) c'.
Proof.
  intros Hr Hm Hs Ha Hmove. destruct (matches_nodes _ _ _ _ _ Hm Ha) as (n & Hn & Hin & Hok).
  pose proof Hok as [Eraft Epc _ _ Eaddr Hwait]. rewrite Eraft in Hmove. rewrite Epc in Hmove, Hwait.
  assert (∀ c', step c c' → nodes c' = <[a := with_pc n r p]> (nodes c) → msgs c ⊆ msgs c' →
    nodeAddr r = a → wait_ok p → ∃ c', reachable ps c' ∧ matches ps (put s a (set_raft h r p) [] []) c') as Hdone.
  { intros c' ?????. eapply (matches_step ps s c a h n); eauto using host_ok_pc. }
  unfold loop_moves in Hmove. destruct (at_ n) as [| | |e| | |t] eqn:Ep; rewrite ?elem_of_cons, ?elem_of_nil in Hmove.
  - destruct Hmove as [[= -> ->]|[]]. eapply Hdone; [by apply s_dispatch|done|set_solver|done|].
    unfold run_dispatch. by destruct (role _).
  - destruct Hmove as [[= -> ->]|Hmove]; [eapply Hdone; [by apply s_follower_timeout|done|set_solver|done|done]|].
    destruct (heartbeatCh (raft n)) eqn:Eh; [|by apply not_elem_of_nil in Hmove].
    apply list_elem_of_singleton in Hmove as [= -> ->].
    eapply Hdone; [by apply s_follower_heartbeat|done|set_solver|done|done].
  - done.
  - destruct Hmove as [Hmove|[Hmove|Hmove]%elem_of_app].
    + assert (nodeAddr r = a ∧ wait_ok p) as [? ?].
      { unfold tally in Hmove. raft_cases; injection Hmove as -> ->; done. }
      eapply Hdone; [by apply (s_tally c a n e r p)|done|set_solver|done|done].
    + apply list_elem_of_fmap in Hmove as (q & [= -> ->] & Hq).
      eapply Hdone; [by apply (s_vote_failed c a n e q)|done|set_solver|done|done].
    + destruct (heartbeatCh (raft n)) eqn:Eh; [|by apply not_elem_of_nil in Hmove].
      apply list_elem_of_singleton in Hmove as [= -> ->].
      eapply Hdone; [by apply (s_candidate_heartbeat c a n e)|done|set_solver|done|done].
  - done.
  - destruct Hmove as [[= -> ->]|[]]. eapply Hdone; [by apply s_leader_top|done|set_solver|done|].
    specialize (Hs a h Ha). rewrite Eraft in Hs. destruct (is_leader _); cbn [wait_ok]; [lia|done].
  - destruct (heartbeatCh (raft n)) eqn:Eh; [|by apply not_elem_of_nil in Hmove].
    apply list_elem_of_singleton in Hmove as [= -> ->].
    eapply Hdone; [by apply (s_leader_heartbeat c a n t)|done|set_solver|done|by destruct (is_leader _)].
Qed.

Lemma wire_answer s c a h e p out granted r :
  reachable ps c → matches ps s c → small s → hosts s !! a = Some h → hpc h = CandidateWait e → p ∈ pending e →
  (p, a, writeMessage [] (vote_request a (el_term e)), out) ∈ answers s →
  vote_answer (ReadFrame registry (Reader out io_EOF) 0).1 (hraft h) = (Ok granted, r) →
  ∃ c', reachable ps c' ∧ matches ps (put s a (set_raft h r (CandidateWait (count_vote e p granted))) [] []) c'.
Proof.
  intros Hr Hm Hs Ha Hpc Hp Hans Hread. destruct (matches_nodes _ _ _ _ _ Hm Ha) as (n & Hn & Hin & Hok).
  pose proof Hok as [Eraft Epc _ _ Eaddr Hwait]. rewrite Hpc in Hwait, Epc.
  eapply answer_read in Hread as (t & Hmsg & ->); [|done..]. rewrite Eraft.
  eapply (matches_step ps s c a h n _ _ _ Hr Hm Hs Ha Hn); [by apply (s_vote_reply c a n e p granted t)|done| |].
  - cbn. set_solver.
  - apply host_ok_pc; [done| |done]. unfold vote_reply. by destruct (_ <? _).
Qed.

Lemma wire_late s c a h p term out granted r :
  reachable ps c → matches ps s c → small s → hosts s !! a = Some h → 0 ≤ term < 2 ^ 64 →
  (p, a, writeMessage [] (vote_request a term), out) ∈ answers s →
  vote_answer (ReadFrame registry (Reader out io_EOF) 0).1 (hraft h) = (Ok granted, r) →
  ∃ c', reachable ps c' ∧ matches ps (put s a (set_raft h r (hpc h)) [] []) c'.
Proof.
  intros Hr Hm Hs Ha Ht Hans Hread. destruct (matches_nodes _ _ _ _ _ Hm Ha) as (n & Hn & Hin & Hok).
  pose proof Hok as [Eraft Epc _ _ Eaddr Hwait].
  eapply answer_read in Hread as (t & Hmsg & ->); [|done..]. rewrite Eraft.
  eapply (matches_step ps s c a h n _ _ _ Hr Hm Hs Ha Hn); [by apply (s_late_reply c a n p term granted t)|done| |].
  - cbn. set_solver.
  - change (with_raft n (vote_reply (raft n) t)) with (with_pc n (vote_reply (raft n) t) (at_ n)).
    rewrite Epc. apply host_ok_pc; [done| |by rewrite <-Epc]. unfold vote_reply. by destruct (_ <? _).
Qed.

(** The moves that send a frame to each peer. *)
Lemma wire_sends s c c' a h n h' n' (qs : list addr) (m : Msg) :
  reachable ps c → matches ps s c → small s → hosts s !! a = Some h → nodes c !! a = Some n →
  step c c' → nodes c' = <[a := n']> (nodes c) → msgs c ⊆ msgs c' → host_ok a h' n' →
  (∀ q, q ∈ qs → request_sent c' a q (frame_bytes m)) →
  ∃ c', reachable ps c' ∧ matches ps (put s a h' ((λ q, (a, q, writeMessage [] m)) <$> qs) []) c'.
Proof.
  intros Hr Hm Hs Ha Hn Hstep En Hsub Hok Hq. exists c'. split.
  - eapply r_step; [done|by eapply matches_small|done].
  - eapply (matches_put ps s c c' a h n h' n'); [done..| |].
    + intros from to req (q & [= -> -> ->] & Hin)%list_elem_of_fmap. rewrite writeMessage_frame.
      split; [by eapply (m_host _ _ _ Hm)|by apply Hq].
    + intros *. by intros ?%not_elem_of_nil.
Qed.

Lemma wire_start s c a h r e ms :
  reachable ps c → matches ps s c → small s → hosts s !! a = Some h → hpc h = CandidateStart →
  candidate_start (hraft h) = (r, e, ms) →
  ∃ c', reachable ps c' ∧ matches ps (put s a (set_raft h r (CandidateWait e))
    ((λ p, (a, p, writeMessage [] (vote_request a (el_term e)))) <$> pending e) []) c'.
Proof.
  intros Hr Hm Hs Ha Hpc Hstart. destruct (matches_nodes _ _ _ _ _ Hm Ha) as (n & Hn & Hin & Hok).
  pose proof Hok as [Eraft Epc _ _ Eaddr Hwait]. rewrite Hpc in Epc. rewrite Eraft in Hstart.
  assert (0 ≤ el_term e < 2 ^ 64 ∧ nodeAddr r = a ∧ ms = (λ p, VoteReq a p (el_term e)) <$> pending e) as (Ht & Er & Ems).
  { unfold candidate_start in Hstart. injection Hstart as <- <- <-. cbn. rewrite Eaddr. split_and!; [..|done|done].
    - apply Z.mod_pos_bound; lia.
    - apply Z.mod_pos_bound; lia. }
  eapply (wire_sends s c _ a h n _ (with_pc n r (CandidateWait e)) (pending e) (vote_request a (el_term e)) Hr Hm Hs Ha Hn);
    [by apply (s_candidate_start c a n r e ms)|done| | |].
  - cbn. set_solver.
  - by apply host_ok_pc.
  - intros q Hq. exists (el_term e). split; [done|]. left. split; [done|]. cbn. apply elem_of_app. right.
    rewrite Ems. apply list_elem_of_fmap. eauto.
Qed.

Lemma wire_tick s c a h term :
  reachable ps c → matches ps s c → small s → hosts s !! a = Some h → hpc h = LeaderWait term →
  ∃ c', reachable ps c' ∧ matches ps (put s a (set_raft h (hraft h) LeaderTop)
    ((λ p, (a, p, writeMessage [] (heartbeat a term))) <$> otherPeers (hraft h)) []) c'.
Proof.
  intros Hr Hm Hs Ha Hpc. destruct (matches_nodes _ _ _ _ _ Hm Ha) as (n & Hn & Hin & Hok).
  pose proof Hok as [Eraft Epc _ _ Eaddr Hwait]. rewrite Hpc in Epc, Hwait. rewrite Eraft.
  eapply (wire_sends s c _ a h n _ (with_pc n (raft n) LeaderTop) (otherPeers (raft n)) (heartbeat a term) Hr Hm Hs Ha Hn);
    [by apply (s_leader_tick c a n term)|done| | |].
  - cbn. set_solver.
  - by apply host_ok_pc.
  - intros q Hq. exists term. split; [done|]. right. split; [done|]. cbn. apply elem_of_app. right.
    apply list_elem_of_fmap. eauto.
Qed.

Lemma wire_lead s c a h :
  reachable ps c → matches ps s c → small s → hosts s !! a = Some h → hpc h = CallOnLeader →
  ∃ c', reachable ps c' ∧ matches ps (put s a (mkHost (becomeLeader (hst h).1, (hst h).2) Top) [] []) c'.
Proof.
  intros Hr Hm Hs Ha Hpc. destruct (matches_nodes _ _ _ _ _ Hm Ha) as (n & Hn & Hin & Hok).
  pose proof Hok as [Eraft Epc _ Htasks Eaddr Hwait]. rewrite Hpc in Epc.
  eapply (matches_step ps s c a h n _ _ _ Hr Hm Hs Ha Hn); [by apply (s_on_leader c a n)|done| |].
  - cbn. set_solver.
  - by split.
Qed.

Lemma wire_traffic s c a h st :
  reachable ps c → matches ps s c → hosts s !! a = Some h → same_election (hst h) st →
  ∃ c', reachable ps c' ∧ matches ps (put s a (mkHost st (hpc h)) [] []) c'.
Proof.
  intros Hr Hm Ha [E1 E2]. destruct (matches_nodes _ _ _ _ _ Hm Ha) as (n & Hn & Hin & Hok).
  exists c. split; [done|]. eapply (matches_put ps s c c a h n _ n _ _ Hm Ha Hn);
    [by rewrite insert_id|done| |intros *; by intros ?%not_elem_of_nil..].
  destruct Hok as [H1 H2 H3 H4 H5 H6]. unfold hraft in *. split; unfold hraft; cbn; congruence.
Qed.

Lemma wire_step s s' c : reachable ps c → matches ps s c → small s → wstep s s' → small s' →
  ∃ c', reachable ps c' ∧ matches ps s' c'.
Proof.
  intros Hr Hm Hs Hstep Hs'.
  destruct Hstep; eauto using wire_serve, wire_answer, wire_late, wire_loop, wire_start, wire_lead, wire_tick, wire_traffic, traffic_election.
Qed.

Lemma wire_init s : booted ps s → matches ps s (init ps) ∧ small s.
Proof.
  intros (Ereq & Eans & Hdom & Hboot). split; [split|].
  - intros a. split.
    + intros [h Hh]. apply Hdom in Hh. cbn. apply elem_of_dom. rewrite dom_list_to_map_L.
      rewrite <-list_fmap_compose. cbn. rewrite list_fmap_id. by apply elem_of_list_to_set.
    + intros [n Hn]. apply init_node in Hn as [_ Hin]. destruct (Hboot a Hin) as (d & ttl & nt & ->). eauto.
  - intros a h n Hh Hn. apply init_node in Hn as [-> Hin]. split; [done|].
    destruct (Hboot a Hin) as (d & ttl & nt & E). rewrite E in Hh. injection Hh as <-. by split.
  - intros *. rewrite Ereq. by intros ?%not_elem_of_nil.
  - intros *. rewrite Eans. by intros ?%not_elem_of_nil.
  - intros a h Hh. pose proof Hh as Hin%Hdom. destruct (Hboot a Hin) as (d & ttl & nt & E). rewrite E in Hh.
    injection Hh as <-. cbn. lia.
Qed.

Lemma wire_reach s : wreach ps s → small s ∧ ∃ c, reachable ps c ∧ matches ps s c.
Proof.
  induction 1 as [s Hs|s s' _ (Hs & c & Hr & Hm) Hstep Hs'].
  - destruct (wire_init s Hs) as [Hm Hsm]. split; [done|]. exists (init ps). split; [apply r_init|done].
  - split; [done|]. by eapply wire_step.
Qed.

(** Two heartbeat frames of one term come from one process. *)
Lemma heartbeat_frames_unique s c x y a b t :
  NoDup ps → [] ∉ ps → reachable ps c → matches ps s c → 0 ≤ t < 2 ^ 64 →
  (x, a, frame_bytes (heartbeat x t)) ∈ requests s → (y, b, frame_bytes (heartbeat y t)) ∈ requests s → x = y.
Proof.
  intros Hps Hne Hr Hm Ht Hx Hy. pose proof (inv_reachable _ _ Hps Hne Hr) as Hi.
  assert (∀ x a, (x, a, frame_bytes (heartbeat x t)) ∈ requests s → HeartbeatReq x a t ∈ msgs c) as H.
  { clear -Hm Ht Hfit. intros x a Hx. destruct (m_request _ _ _ Hm _ _ _ Hx) as (Hin & t' & Ht' & H).
    pose proof (read_only (heartbeat x t) maxLen io_EOF) as E. specialize (E ltac:(apply heartbeat_sendable; auto)).
    destruct H as [[Ef Hmsg]|[Ef Hmsg]]; rewrite Ef, read_only in E; [done|apply vote_request_sendable; auto| |apply heartbeat_sendable; auto].
    by injection E as <-. }
  apply H in Hx, Hy. apply (i_msgs _ _ Hi) in Hx, Hy. by eapply won_unique.
Qed.
End system.

(** ** Running the system *)

Section runs.
Context {P : Type} {PP : Policy P} {W : Type} {LW : Log W}.
Context (ord : nat → order) (ford : table_order) (maxLen : Z).
Abbreviation sys := (sys (P:=P) (W:=W)).

(** A move: the [i]-th frame is served, the [i]-th answer is read, the loop of [a] makes
    its [i]-th move, starts an election, leads, sends heartbeats. *)
Inductive move := WServe (i : nat) | WAnswer (i : nat) | WLoop (a : addr) (i : nat) | WStart (a : addr) | WLead (a : addr) | WTick (a : addr).

Definition do_move (mv : move) (s : sys) : option sys :=
  match mv with
  | WServe i =>
      '(from, a, req) ← requests s !! i; h ← hosts s !! a;
      match handleConnection ord ford 1 maxLen (λ _, 0) 0 (Reader req io_EOF) (hst h) with
      | Some (Closed, st, out) => Some (put s a (mkHost st (hpc h)) [] [(a, from, req, out)])
      | _ => None
      end
  | WAnswer i =>
      '(p, a, req, out) ← answers s !! i; h ← hosts s !! a;
      match hpc h with
      | CandidateWait e =>
          guard (p ∈ pending e);; guard (req = writeMessage [] (vote_request a (el_term e)));;
          match vote_answer (ReadFrame registry (Reader out io_EOF) 0).1 (hraft h) with
          | (Ok granted, r) => Some (put s a (set_raft h r (CandidateWait (count_vote e p granted))) [] [])
          | _ => None
          end
      | _ => None
      end
  | WLoop a i => h ← hosts s !! a; '(r, p) ← loop_moves (hraft h) (hpc h) !! i; Some (put s a (set_raft h r p) [] [])
  | WStart a =>
      h ← hosts s !! a; guard (hpc h = CandidateStart);;
      let '(r, e, _) := candidate_start (hraft h) in
      Some (put s a (set_raft h r (CandidateWait e))
        ((λ p, (a, p, writeMessage [] (vote_request a (el_term e)))) <$> pending e) [])
  | WLead a =>
      h ← hosts s !! a; guard (hpc h = CallOnLeader);;
      Some (put s a (mkHost (becomeLeader (hst h).1, (hst h).2) Top) [] [])
  | WTick a =>
      h ← hosts s !! a;
      match hpc h with
      | LeaderWait term =>
          Some (put s a (set_raft h (hraft h) LeaderTop)
            ((λ p, (a, p, writeMessage [] (heartbeat a term))) <$> otherPeers (hraft h)) [])
      | _ => None
      end
  end.

Lemma do_move_step mv (s s' : sys) : do_move mv s = Some s' → wstep ord ford maxLen s s'.
Proof.
  destruct mv as [i|i|a i|a|a|a]; cbn [do_move]; intros E.
  - apply bind_Some in E as ([[from a] req] & Hreq & (h & Hh & E)%bind_Some).
    destruct (handleConnection _ _ _ _ _ _ _ _) as [[[[] st] out]|] eqn:Es; try done. injection E as <-.
    eapply w_serve; [done|by eapply list_elem_of_lookup_2|done].
  - apply bind_Some in E as ([[[p a] req] out] & Hans & (h & Hh & E)%bind_Some).
    destruct (hpc h) as [| | |e| | |] eqn:Epc; try done.
    apply bind_Some in E as (Hp & _ & (Ereq & _ & E)%bind_Some).
    destruct (vote_answer _ _) as [[granted| |] r] eqn:Ev; try done. injection E as <-.
    eapply w_answer; [done|done|done| |done]. rewrite <-Ereq. by eapply list_elem_of_lookup_2.
  - apply bind_Some in E as (h & Hh & ([r p] & Hm & E)%bind_Some). injection E as <-.
    eapply w_loop; [done|by eapply list_elem_of_lookup_2].
  - apply bind_Some in E as (h & Hh & (Hpc & _ & E)%bind_Some).
    destruct (candidate_start (hraft h)) as [[r e] ms] eqn:Ec. injection E as <-. by eapply w_start.
  - apply bind_Some in E as (h & Hh & (Hpc & _ & E)%bind_Some). injection E as <-. by eapply w_lead.
  - apply bind_Some in E as (h & Hh & E). destruct (hpc h) as [| | |e| | |t] eqn:Epc; try done. injection E as <-.
    by eapply w_tick.
Qed.

Definition small_b (s : sys) : bool :=
  bool_decide (map_Forall (λ _ h, 0 ≤ currentTerm (hraft h) < 2 ^ 64 - 1) (hosts s)).

Fixpoint do_moves (mvs : list move) (s : sys) : option sys :=
  match mvs with
  | [] => Some s
  | mv :: mvs => s ← do_move mv s; guard (small_b s = true);; do_moves mvs s
  end.

Lemma do_moves_reach ps mvs : ∀ s s' : sys,
  wreach ord ford maxLen ps s → do_moves mvs s = Some s' → wreach ord ford maxLen ps s'.
Proof.
  induction mvs as [|mv mvs IH]; intros s s' Hs E; cbn [do_moves] in E; [by injection E as <-|].
  apply bind_Some in E as (s1 & Hmv & (Hsm & _ & E)%bind_Some). eapply IH; [|done].
  eapply w_next; [done|by eapply do_move_step|]. exact (bool_decide_eq_true_1 _ Hsm).
Qed.
End runs.

(** [A] is elected over the wire with the vote of [B] and sends heartbeats. *)
Definition wire_boot : sys (P:=AnyPolicy) (W:=Sys) :=
  mkSys (list_to_map ((λ a, (a, mkHost (NewNode ex_follower 1000 a three, ∅) Top)) <$> three)) [] [].

Definition wire_moves : list move :=
  [WLoop addr_A 0; WLoop addr_A 0; WLoop addr_A 0; WStart addr_A; WServe 0; WAnswer 0; WLoop addr_A 0; WLead addr_A;
   WLoop addr_A 0; WLoop addr_A 0; WTick addr_A].

Definition wire_run : sys (P:=AnyPolicy) (W:=Sys) :=
  default wire_boot (do_moves any_order ex_order 10485760 wire_moves wire_boot).

Example wire_run_leader :
  (λ h, (role (hraft h), currentTerm (hraft h), has_leader (hst h).1)) <$> hosts wire_run !! addr_A = Some (RoleLeader, 1, true) ∧
  length (requests wire_run) = 4%nat ∧ length (answers wire_run) = 1%nat.
Proof. vm_compute. done. Qed.

Lemma wire_boot_booted : booted three wire_boot.
Proof.
  split_and!; [done..| |].
  - intros a h H%elem_of_list_to_map_2. by apply list_elem_of_fmap in H as (b & [= -> ->] & Hb).
  - intros a Ha. exists ex_follower, 1000, ∅. apply elem_of_list_to_map_1.
    + exact three_nodup.
    + apply list_elem_of_fmap. eauto.
Qed.

Lemma wire_run_reach : wreach any_order ex_order 10485760 three wire_run.
Proof.
  apply (do_moves_reach any_order ex_order 10485760 three wire_moves wire_boot); [by apply w_init, wire_boot_booted|].
  vm_compute. reflexivity.
Qed.

Lemma three_fit a : a ∈ three → frames_fit 10485760 a.
Proof.
  unfold three. rewrite !elem_of_cons, elem_of_nil. intros [->|[->|[->|[]]]];
    (split; [vm_compute; reflexivity|right; vm_compute; discriminate]).
Qed.

(** C5.  Elections over the network: processes that exchange frames (every vote request
    and heartbeat written by [WriteFrame], served by [handleConnection] and answered with
    bytes the caller decodes), whatever frames and answers are lost, delayed, reordered or
    served twice and whatever clients and followers do on other connections, refine the
    cluster of the election model; so two processes that lead in the same term are the
    same, and all heartbeat frames of a term come from one process. *)
Theorem wire_elections_safe {P} {PP : Policy P} {W} {LW : Log W} (ord : nat → order) (ford : table_order) (maxLen : Z)
    (ps : list addr) (s : sys (P:=P) (W:=W)) :
  NoDup ps → [] ∉ ps → (∀ a, a ∈ ps → frames_fit maxLen a) → wreach ord ford maxLen ps s →
  (∃ c, reachable ps c ∧ matches ps s c) ∧
  (∀ a b h k, hosts s !! a = Some h → hosts s !! b = Some k → role (hraft h) = RoleLeader →
     role (hraft k) = RoleLeader → currentTerm (hraft h) = currentTerm (hraft k) → a = b) ∧
  (∀ x y a b t, 0 ≤ t < 2 ^ 64 → (x, a, frame_bytes (heartbeat x t)) ∈ requests s →
     (y, b, frame_bytes (heartbeat y t)) ∈ requests s → x = y).
Proof.
  intros Hps Hne Hfit Hs. destruct (wire_reach ord ford maxLen ps Hfit s Hs) as (Hsm & c & Hr & Hm).
  split_and!; [by exists c| |].
  - intros a b h k Ha Hb Hla Hlb Et.
    destruct (matches_nodes _ _ _ _ _ Hm Ha) as (n & Hn & _ & Hokn), (matches_nodes _ _ _ _ _ Hm Hb) as (m & Hm' & _ & Hokm).
    rewrite (h_raft _ _ _ Hokn) in *. rewrite (h_raft _ _ _ Hokm) in *.
    by eapply (leader_unique ps c a b n m); [apply inv_reachable|..].
  - intros x y a b t. by eapply heartbeat_frames_unique.
Qed.

Lemma wire_elections_safe_witness :
  (∃ c, reachable three c ∧ matches three wire_run c) ∧
  (∀ a b h k, hosts wire_run !! a = Some h → hosts wire_run !! b = Some k → role (hraft h) = RoleLeader →
     role (hraft k) = RoleLeader → currentTerm (hraft h) = currentTerm (hraft k) → a = b) ∧
  (∀ x y a b t, 0 ≤ t < 2 ^ 64 → (x, a, frame_bytes (heartbeat x t)) ∈ requests wire_run →
     (y, b, frame_bytes (heartbeat y t)) ∈ requests wire_run → x = y).
Proof.
  apply (wire_elections_safe any_order ex_order 10485760 three wire_run).
  - apply three_nodup.
  - apply three_nonempty.
  - apply three_fit.
  - apply wire_run_reach.
Defined.

Lemma rpc_is_call_witness :
  requestVoteRPC (node_exchange any_order ex_order 10485760 50) (NewRaftState addr_C three) addr_B 2 id ex_nodes =
    (let '(granted, t, n) := Node_HandleVoteRequest (ex_member addr_B).1 (mkVoteRequest 2 addr_C 0) in
     (Ok granted, vote_reply (NewRaftState addr_C three) t, <[addr_B := (n, ∅)]> ex_nodes)) ∧
  sendHeartbeatRPC (node_exchange any_order ex_order 10485760 50) (NewRaftState addr_C three) addr_B 2 ex_nodes =
    (Ok (), <[addr_B := (Node_HandleHeartbeat (ex_member addr_B).1 2 addr_C, ∅)]> ex_nodes).
Proof.
  apply (rpc_is_call any_order ex_order 10485760 50 ex_nodes (NewRaftState addr_C three) addr_B 2 id).
  - done.
  - exact (three_fit addr_C ltac:(by do 2 right; left)).
  - apply ex_nodes_lookup. by right; left.
  - done.
Defined.
