(* ===== verification/Bench.v ===== *)
(** * The benchmark's client (bench/client/client.go)

    A connection that stays open, and the discovery of the leader over a list of seeds.
    The network is a class: what a dial, a write and a close do, what can be read on a
    connection before a deadline and what is left after a read. *)

From S2P Require Import Prelude GoLang Protocol KvMessages ClusterMessages ClientMessages Messages.
From S2P Require Import Strings Raft Cli.

Class Network (N : Type) := {
  net_dial : addr → N → go nat * N;
  net_write : nat → gobytes → N → go () * N;
  net_reader : nat → Z → N → reader;
  net_rest : nat → reader → N → N;
  net_close : nat → N → N;
}.

Definition Second : Z := 1000000000.

Definition err_not_topology (opcode : Z) : error :=
  ErrorString (str "expected TopologyResponse, got 0x" ++ hex2 opcode).
Definition err_wait (maxWait : gostring) : error := ErrorString (str "no leader found within " ++ maxWait).
Definition err_no_seed : error := ErrorString (str "no seed returned a topology with a leader").

Section client.
Context {N : Type} {NW : Network N}.

(** [Conn] wraps the number of the connection. *)
Definition Conn : Type := nat.

Definition Dial (a : addr) (net : N) : go Conn * N := net_dial a net.

Definition Send (c : Conn) (msg : Msg) (net : N) : go () * N :=
  match WriteFrame [] msg with
  | Ok data => net_write c data net
  | Err e => (Err e, net)
  | Panic => (Panic, net)
  end.

Definition Recv (c : Conn) (timeout : Z) (net : N) : go Msg * N :=
  let '(res, rd) := ReadFrame registry (net_reader c timeout net) 0 in
  (res, net_rest c rd net).

Definition op_timeout (opTimeout : Z) : Z := if opTimeout <=? 0 then 5 * Second else opTimeout.

Definition Do (c : Conn) (req : Msg) (opTimeout : Z) (net : N) : go Msg * N :=
  let d := op_timeout opTimeout in
  match Send c req net with
  | (Ok _, net) => Recv c d net
  | (Err e, net) => (Err e, net)
  | (Panic, net) => (Panic, net)
  end.

Definition Close (c : Conn) (net : N) : N := net_close c net.

Definition FetchTopology (a : addr) (net : N) : go TopologyResponse * N :=
  match Dial a net with
  | (Err e, net) => (Err e, net)
  | (Panic, net) => (Panic, net)
  | (Ok c, net) =>
      let '(res, net) :=
        match Send c topology_request net with
        | (Ok _, net) => Recv c (3 * Second) net
        | (Err e, net) => (Err e, net)
        | (Panic, net) => (Panic, net)
        end in
      (msg ← res;
       match msg with
       | MTopologyResponse topo => Ok topo
       | _ => Err (err_not_topology (OpCode msg))
       end, Close c net)
  end.

Fixpoint DiscoverLeader (seeds : list addr) (net : N) : go (addr * list addr) * N :=
  match seeds with
  | [] => (Err err_no_seed, net)
  | seed :: seeds =>
      match FetchTopology seed net with
      | (Panic, net) => (Panic, net)
      | (Err _, net) => DiscoverLeader seeds net
      | (Ok topo, net) =>
          if bool_decide (TopologyResponse_LeaderAddr topo = []) then DiscoverLeader seeds net
          else (Ok (TopologyResponse_LeaderAddr topo, NodeInfo_Address <$> TopologyResponse_Nodes topo), net)
      end
  end.

(** [WaitForLeader] makes a turn while its clock is before the deadline: [clock] are
    the times at which it looks; [maxWait] is the text of the duration. *)
Fixpoint WaitForLeader (clock : list Z) (deadline : Z) (maxWait : gostring) (seeds : list addr) (net : N)
    : go (addr * list addr) * N :=
  match clock with
  | [] => (Err (err_wait maxWait), net)
  | t :: clock =>
      if t <? deadline then
        match DiscoverLeader seeds net with
        | (Err _, net) => WaitForLeader clock deadline maxWait seeds net
        | found => found
        end
      else (Err (err_wait maxWait), net)
  end.

(** A leader that is found has an address that some seed's topology named. *)
Lemma DiscoverLeader_found seeds : ∀ net l peers net',
  DiscoverLeader seeds net = (Ok (l, peers), net') →
  l ≠ [] ∧ ∃ seed net0 topo, seed ∈ seeds ∧ FetchTopology seed net0 = (Ok topo, net') ∧
    TopologyResponse_LeaderAddr topo = l.
Proof.
  induction seeds as [|seed seeds IH]; intros net l peers net'; cbn [DiscoverLeader]; [done|].
  destruct (FetchTopology seed net) as [[topo|e|] net1] eqn:E; [case_bool_decide| |done]; intros H1.
  2: { injection H1 as <- <- <-. split; [done|]. exists seed, net, topo. split_and!; [by left|done|done]. }
  all: apply IH in H1 as (Hl & s & n0 & t & Hs & ?); split; [done|]; exists s, n0, t; split; [by right|done].
Qed.

(** A request is written whole, and its answer is the next frame on the connection. *)
Lemma Do_spec c (req : Msg) timeout net :
  Do c req timeout net =
  match net_write c (frame_bytes req) net with
  | (Ok _, net) => Recv c (op_timeout timeout) net
  | (Err e, net) => (Err e, net)
  | (Panic, net) => (Panic, net)
  end.
Proof. unfold Do, Send. rewrite WriteFrame_bytes. cbn [app]. by destruct (net_write _ _ _) as [[]]. Qed.
End client.
