(* ===== verification/Csv.v ===== *)
(** * The load generator's CSV report (bench/loadgen/main.go)

    One row per run, appended to a file that gets a header when it is new: [toRecord],
    [appendCSV], and the parts of [fmt] and [encoding/csv] they use.  What is in the
    file can be read back: the header and the rows, field by field. *)

From S2P Require Import Prelude GoLang Strings Float.

(** ** encoding/csv: the writer *)

Definition comma : Z := 44.
Definition quote : Z := 34.
Definition newline : Z := 10.

Definition fieldNeedsQuotes (field : gostring) : bool :=
  if bool_decide (field = []) then false else
  if bool_decide (field = [92; 46]) then true else
  existsb (λ c, (c =? newline) || (c =? 13) || (c =? quote) || (c =? comma)) field ||
  match strip_any spaces field with Some _ => true | None => false end.

Definition escape (field : gostring) : gostring :=
  concat ((λ c, if c =? quote then [quote; quote] else [c]) <$> field).

Definition csv_field (field : gostring) : gostring :=
  if fieldNeedsQuotes field then [quote] ++ escape field ++ [quote] else field.

(** [Writer.Write] *)
Definition csv_Write (record : list gostring) : gostring := Join (csv_field <$> record) [comma] ++ [newline].

(** ** The report *)

Definition csvHeader : list gostring :=
  str <$> ["label"; "timestamp"; "target_rate"; "actual_rate"; "duration_s"; "workers"; "read_ratio_pct"; "value_bytes";
           "key_count"; "hot_keys"; "hot_ratio_pct"; "write_ops"; "read_ops"; "errors"; "dropped_tokens";
           "wp50_us"; "wp95_us"; "wp99_us"; "wp999_us"; "wmax_us"; "rp50_us"; "rp95_us"; "rp99_us"; "rp999_us"; "rmax_us"]%string.

Record csvRow := mkCsvRow {
  Label : gostring; Timestamp : gostring; TargetRate : Z; ActualRate : Z; DurationSec : float64; Workers : Z;
  ReadRatioPct : float64; HotRatioPct : float64; ValueBytes : Z; KeyCount : Z; HotKeys : Z;
  WriteOps : Z; ReadOps : Z; Errors : Z; Dropped : Z;
  Wp50 : Z; Wp95 : Z; Wp99 : Z; Wp999 : Z; Wmax : Z; Rp50 : Z; Rp95 : Z; Rp99 : Z; Rp999 : Z; Rmax : Z;
}.

Definition toRecord (row : csvRow) : list gostring :=
  [Label row; Timestamp row; Itoa (TargetRate row); Itoa (ActualRate row); Fixed 1 (DurationSec row); Itoa (Workers row);
   Fixed 1 (ReadRatioPct row); Itoa (ValueBytes row); Itoa (KeyCount row); Itoa (HotKeys row); Fixed 1 (HotRatioPct row);
   Itoa (WriteOps row); Itoa (ReadOps row); Itoa (Errors row); Itoa (Dropped row);
   Itoa (Wp50 row); Itoa (Wp95 row); Itoa (Wp99 row); Itoa (Wp999 row); Itoa (Wmax row);
   Itoa (Rp50 row); Itoa (Rp95 row); Itoa (Rp99 row); Itoa (Rp999 row); Itoa (Rmax row)].

(** What the operating system does with one call: [os.MkdirAll], [os.OpenFile], and how
    many of the bytes that are flushed reach the file, with the writer's error. *)
Record attempt := mkAttempt { at_mkdir : go (); at_open : go (); at_flush : gobytes → nat * go () }.

(** [file] is the contents, [None] when it does not exist.  Opening creates it. *)
Definition appendCSV (os : attempt) (file : option gobytes) (row : csvRow) : go () * option gobytes :=
  let needHeader := bool_decide (file = None) in
  match at_mkdir os with
  | Ok _ =>
      match at_open os with
      | Ok _ =>
          let data := (if needHeader then csv_Write csvHeader else []) ++ csv_Write (toRecord row) in
          let '(n, res) := at_flush os data in
          (res, Some (default [] file ++ take n data))
      | res => (res, file)
      end
  | res => (res, file)
  end.

(** Every call goes well. *)
Definition good_attempt : attempt := mkAttempt (Ok ()) (Ok ()) (λ d, (length d, Ok ())).

(** ** Reading it back

    Rows as RFC 4180 has them: fields between commas, quoted ones with doubled quotes. *)
Inductive csv_mode := FieldStart | Plain | Quoted | QuoteSeen.

Fixpoint csv_parse (s : gobytes) (mode : csv_mode) (cur : gobytes) (fields : list gobytes) (rows : list (list gobytes))
    : option (list (list gobytes)) :=
  match s with
  | [] => match mode, fields with FieldStart, [] => Some rows | _, _ => None end
  | c :: s =>
      match mode with
      | FieldStart | Plain =>
          if c =? comma then csv_parse s FieldStart [] (fields ++ [cur]) rows
          else if c =? newline then csv_parse s FieldStart [] [] (rows ++ [fields ++ [cur]])
          else if c =? quote then match mode with FieldStart => csv_parse s Quoted [] fields rows | _ => None end
          else csv_parse s Plain (cur ++ [c]) fields rows
      | Quoted =>
          if c =? quote then csv_parse s QuoteSeen cur fields rows
          else csv_parse s Quoted (cur ++ [c]) fields rows
      | QuoteSeen =>
          if c =? quote then csv_parse s Quoted (cur ++ [quote]) fields rows
          else if c =? comma then csv_parse s FieldStart [] (fields ++ [cur]) rows
          else if c =? newline then csv_parse s FieldStart [] [] (rows ++ [fields ++ [cur]])
          else None
      end
  end.

Definition read_csv (s : gobytes) : option (list (list gobytes)) := csv_parse s FieldStart [] [] [].

(** [after] is what follows a field: a comma or the end of the row. *)
Definition field_end (sep : Z) (rest : gobytes) (f : gobytes) (fields : list gobytes) (rows : list (list gobytes)) :=
  if sep =? comma then csv_parse rest FieldStart [] (fields ++ [f]) rows
  else csv_parse rest FieldStart [] [] (rows ++ [fields ++ [f]]).

Lemma parse_plain f sep rest fields rows : sep = comma ∨ sep = newline →
  existsb (λ c, (c =? newline) || (c =? 13) || (c =? quote) || (c =? comma)) f = false →
  ∀ mode cur, (mode = FieldStart ∧ cur = [] ∨ mode = Plain) →
  csv_parse (f ++ sep :: rest) mode cur fields rows = field_end sep rest (cur ++ f) fields rows.
Proof.
  intros Hsep. induction f as [|c f IH]; intros Hf mode cur Hmode.
  - rewrite app_nil_r. cbn [app csv_parse]. unfold field_end.
    destruct Hsep as [-> | ->]; destruct Hmode as [[-> _]| ->]; done.
  - cbn [existsb] in Hf. apply orb_false_iff in Hf as [Hc Hf]. rewrite !orb_false_iff in Hc.
    destruct Hc as [[[Hn Hr] Hq] Hcm]. cbn [app csv_parse]. rewrite Hn, Hq, Hcm.
    assert (csv_parse (f ++ sep :: rest) Plain (cur ++ [c]) fields rows = field_end sep rest (cur ++ c :: f) fields rows) as E.
    { rewrite IH; [by rewrite <-app_assoc|done|by right]. }
    destruct Hmode as [[-> _]| ->]; exact E.
Qed.

Lemma parse_quoted f sep rest fields rows : sep = comma ∨ sep = newline → ∀ cur,
  csv_parse (escape f ++ quote :: sep :: rest) Quoted cur fields rows = field_end sep rest (cur ++ f) fields rows.
Proof.
  intros Hsep. unfold escape. induction f as [|c f IH]; intros cur.
  - rewrite app_nil_r. cbn. unfold field_end. destruct Hsep as [-> | ->]; done.
  - cbn [fmap list_fmap concat]. destruct (Z.eqb_spec c quote) as [->|Hne].
    + cbn [app csv_parse]. rewrite IH, <-app_assoc. done.
    + cbn [app csv_parse]. rewrite (proj2 (Z.eqb_neq c quote)) by done. by rewrite IH, <-app_assoc.
Qed.

Lemma parse_field f sep rest fields rows : sep = comma ∨ sep = newline →
  csv_parse (csv_field f ++ sep :: rest) FieldStart [] fields rows = field_end sep rest f fields rows.
Proof.
  intros Hsep. unfold csv_field. destruct (fieldNeedsQuotes f) eqn:E.
  - rewrite <-!app_assoc. cbn [app csv_parse]. cbn. by apply (parse_quoted f sep rest fields rows Hsep []).
  - apply (parse_plain f sep rest fields rows Hsep); [|by left]. unfold fieldNeedsQuotes in E.
    case_bool_decide; [by subst|]. case_bool_decide; [done|]. by apply orb_false_iff in E as [? _].
Qed.

Lemma parse_row r rest rows : r ≠ [] →
  csv_parse (csv_Write r ++ rest) FieldStart [] [] rows = csv_parse rest FieldStart [] [] (rows ++ [r]).
Proof.
  intros Hr. unfold csv_Write. rewrite <-app_assoc. cbn [app].
  enough (∀ fields, csv_parse (Join (csv_field <$> r) [comma] ++ newline :: rest) FieldStart [] fields rows =
    csv_parse rest FieldStart [] [] (rows ++ [fields ++ r])) as H by apply (H []).
  induction r as [|f r IH]; intros fields; [done|]. destruct r as [|g r].
  - cbn [fmap list_fmap Join]. rewrite parse_field by (by right). done.
  - change (Join (csv_field <$> f :: g :: r) [comma]) with (csv_field f ++ [comma] ++ Join (csv_field <$> g :: r) [comma]).
    rewrite <-!app_assoc. cbn [app]. rewrite parse_field by (by left). unfold field_end. cbn [Z.eqb].
    change (comma =? comma) with true. cbn iota. rewrite IH by done. by rewrite <-app_assoc.
Qed.

Lemma read_rows rs : Forall (λ r, r ≠ []) rs → ∀ rows,
  csv_parse (concat (csv_Write <$> rs)) FieldStart [] [] rows = Some (rows ++ rs).
Proof.
  induction 1 as [|r rs Hr _ IH]; intros rows; [by rewrite app_nil_r|]. cbn [fmap list_fmap concat].
  rewrite parse_row, IH by done. by rewrite <-app_assoc.
Qed.

(** A file that can be read can be read with one more row. *)
Lemma csv_parse_app s s' : ∀ mode cur fields rows0 rows, (mode = FieldStart → cur = []) →
  csv_parse s mode cur fields rows0 = Some rows →
  csv_parse (s ++ s') mode cur fields rows0 = csv_parse s' FieldStart [] [] rows.
Proof.
  induction s as [|c s IH]; intros mode cur fields rows0 rows Hc E; cbn [csv_parse app] in *.
  - destruct mode; [|done..]. destruct fields; [|done]. rewrite Hc by done. by injection E as ->.
  - destruct mode; repeat (destruct (_ =? _)); try done; by apply IH.
Qed.

Lemma read_csv_row data rows r : read_csv data = Some rows → r ≠ [] → read_csv (data ++ csv_Write r) = Some (rows ++ [r]).
Proof.
  intros E Hr. unfold read_csv in *. erewrite csv_parse_app; [|done|exact E].
  rewrite <-(app_nil_r (csv_Write r)), parse_row by done. done.
Qed.

(** The rows of a file, which has the header even when it does not exist yet. *)
Definition file_rows (file : option gobytes) : option (list (list gobytes)) :=
  match file with Some data => read_csv data | None => Some [csvHeader] end.

Lemma appendCSV_rows file row rows : file_rows file = Some rows →
  ∃ data, appendCSV good_attempt file row = (Ok (), Some data) ∧ read_csv data = Some (rows ++ [toRecord row]).
Proof.
  intros E. unfold appendCSV, good_attempt. cbn [at_mkdir at_open at_flush]. eexists. split; [reflexivity|].
  rewrite firstn_all. destruct file as [data|]; cbn [file_rows default] in *.
  - rewrite bool_decide_false by done. by apply read_csv_row.
  - rewrite bool_decide_true by done. injection E as <-. cbn [app]. apply (read_csv_row _ [csvHeader]); [|done].
    unfold read_csv. rewrite <-(app_nil_r (csv_Write csvHeader)), parse_row by done. done.
Qed.

(** The file after some runs. *)
Definition append_all (file : option gobytes) (rows : list csvRow) : go () * option gobytes :=
  foldl (λ st row, match st with (Ok _, file) => appendCSV good_attempt file row | _ => st end) (Ok (), file) rows.

Lemma append_all_existing rows : ∀ data,
  append_all (Some data) rows = (Ok (), Some (data ++ concat (csv_Write ∘ toRecord <$> rows))).
Proof.
  induction rows as [|row rows IH]; intros data; [by cbn; rewrite app_nil_r|].
  change (append_all (Some data) (row :: rows)) with (append_all (appendCSV good_attempt (Some data) row).2 rows).
  cbn [appendCSV good_attempt at_mkdir at_open at_flush snd]. rewrite bool_decide_false by done. cbn [app default].
  rewrite firstn_all, IH. cbn. by rewrite <-app_assoc.
Qed.

(** The report reads back: the file that any number of runs leaves, from none,
    is one header and the rows of the runs in order, whatever the labels contain
    (commas, quotes, line ends); every row has a field for each column.  A call that
    cannot create the directory or open the file returns the error and changes
    nothing. *)
Lemma report_reads_back (row : csvRow) (rows : list csvRow) :
  (∃ data, append_all None (row :: rows) = (Ok (), Some data) ∧
     read_csv data = Some (csvHeader :: (toRecord <$> row :: rows))) ∧
  Forall (λ r, length (toRecord r) = length csvHeader) (row :: rows) ∧
  ∀ os file e, at_mkdir os = Err e ∨ (at_mkdir os = Ok () ∧ at_open os = Err e) → appendCSV os file row = (Err e, file).
Proof.
  split_and!.
  - change (append_all None (row :: rows)) with (append_all (appendCSV good_attempt None row).2 rows).
    cbn [appendCSV good_attempt at_mkdir at_open at_flush snd]. rewrite bool_decide_true by done. cbn [app default].
    rewrite firstn_all, append_all_existing. eexists. split; [reflexivity|].
    rewrite <-app_assoc. unfold read_csv. rewrite parse_row by done. rewrite parse_row by done.
    rewrite list_fmap_compose, read_rows; [done|]. by apply Forall_fmap, Forall_true.
  - by apply Forall_true.
  - intros os file e H. unfold appendCSV. destruct H as [->|[-> ->]]; done.
Qed.

(** A run whose label has a comma and quotes. *)
Definition ex_row : csvRow :=
  mkCsvRow (str "a,b " ++ [quote] ++ str "c" ++ [quote]) (str "2024-01-01 00:00:00") 5000 4990 (of_decimal 605 1) 64
    (of_int 50) (of_int 80) 64 5000 0 100 101 0 3 1 2 3 4 5 6 7 8 9 10.

Lemma report_reads_back_witness :
  (∃ data, append_all None [ex_row; ex_row] = (Ok (), Some data) ∧
     read_csv data = Some [csvHeader; toRecord ex_row; toRecord ex_row]) ∧
  appendCSV (mkAttempt (Err io_EOF) (Ok ()) (λ d, (length d, Ok ()))) None ex_row = (Err io_EOF, None).
Proof.
  pose proof (report_reads_back ex_row [ex_row]) as (H1 & _ & H3). split; [exact H1|]. apply H3. by left.
Defined.
