(* ===== verification/LoadGen.v ===== *)
(** * The load generator (bench/loadgen/main.go)

    The seed list, keys and values, the open-loop coordinator with its channel of tokens,
    the workers and the totals.  Random choices and
    latencies are given as their outcomes, histograms as a class.  The coordinator and
    the workers run at the same time: a run is a sequence of ticks, connections and
    turns. *)

From S2P Require Import Prelude GoLang Protocol KvMessages ClusterMessages ClientMessages Messages.
From S2P Require Import Strings Raft Cli Bench Float.

(** ** Seeds, keys, values *)

Definition mergeSeeds (a b : list addr) : list addr :=
  (foldl (λ '(seen, out) s, if bool_decide (s ∈ seen) then (seen, out) else ({[s]} ∪ seen, out ++ [s]))
     ((∅ : gset addr), []) (a ++ b)).2.

Definition dirOf (path : gostring) : gostring :=
  match list_find (λ c, c = 47) (reverse path) with
  | None => str "."
  | Some (i, _) => take (length path - i - 1) path
  end.

Definition orDash (s : gostring) : gostring := if bool_decide (s = []) then str "—" else s.

Definition max_int (a b : Z) : Z := if b <? a then a else b.

(** The verb [%07d] of a number that is not negative. *)
Definition pad7 (s : gostring) : gostring := replicate (7 - length s) 48 ++ s.
Definition bench_key (i : nat) : gobytes := str "bench:k:" ++ pad7 (Itoa (Z.of_nat i)).

(** [make] panics on a negative length. *)
Definition bench_keys (numKeys : Z) : go (list gobytes) :=
  if numKeys <? 0 then Panic else Ok (bench_key <$> seq 0 (Z.to_nat numKeys)).
Definition bench_value (valSize : Z) : go gobytes :=
  if valSize <? 0 then Panic else Ok (replicate (Z.to_nat valSize) 120).

(** [hk]: the hot pool is given up when it is the whole key space. *)
Definition hot_keys (hotKeys nkeys : Z) : Z := if nkeys <=? hotKeys then 0 else hotKeys.

(** [pickKey], given the outcome of [rng.Float64() < hotRatio] and [rng.Intn]: the index
    of the key; [rng.Intn] panics on zero. *)
Definition Intn (r n : Z) : go Z := if n <=? 0 then Panic else Ok (r `mod` n).
Definition pickKey (hotKeys nkeys : Z) (hot : bool) (r : Z) : go Z :=
  if (0 <? hotKeys) && hot then Intn r hotKeys else
  if (0 <? hotKeys) && (hotKeys <? nkeys) then i ← Intn r (nkeys - hotKeys); Ok (hotKeys + i)
  else Intn r nkeys.

(** ** The coordinator *)

Definition batchSize (rate : Z) : Z := max_int 1 (Z.quot rate 1000).

(** The division panics on zero, [time.NewTicker] on an interval that is not positive. *)
Definition tickInterval (rate : Z) : go Z :=
  if rate =? 0 then Panic else Ok (Z.quot (i64 (Second * batchSize rate)) rate).
Definition new_ticker (rate : Z) : go Z :=
  d ← tickInterval rate; if d <=? 0 then Panic else Ok d.

(** [workCh] and [droppedTokens]; a token is whether to write. *)
Record coordinator := mkCoordinator { capacity : Z; workCh : list bool; droppedTokens : Z }.

(** The number of workers is not negative: [make] would panic. *)
Definition new_coordinator (workers : Z) : coordinator := mkCoordinator (workers * 8) [] 0.

Definition offer (co : coordinator) (token : bool) : coordinator :=
  if len (workCh co) <? capacity co
  then mkCoordinator (capacity co) (workCh co ++ [token]) (droppedTokens co)
  else mkCoordinator (capacity co) (workCh co) (droppedTokens co + 1).

(** A tick offers a batch; a worker that is free takes the oldest token. *)
Inductive coord_event := Tick (tokens : list bool) | Take.

Definition coord_step (st : coordinator * list bool) (ev : coord_event) : coordinator * list bool :=
  let '(co, taken) := st in
  match ev with
  | Tick tokens => (foldl offer co tokens, taken)
  | Take =>
      match workCh co with
      | [] => (co, taken)
      | t :: q => (mkCoordinator (capacity co) q (droppedTokens co), taken ++ [t])
      end
  end.

(** ** Histograms

    [hdrhistogram] is another project's package: a histogram is made for a range and a
    number of significant figures; [RecordValue] fails on a value out of the range (the
    error is not looked at) and [Merge] adds another's values. *)
Class Histogram (H : Type) := {
  hist_New : Z → Z → Z → H;
  RecordValue : Z → H → H;
  Merge : H → H → H;
  ValueAtQuantile : H → float64 → Z;
  hist_Max : H → Z;
}.

Definition maxLatencyMicros : Z := 30000000.
Definition histSigFigs : Z := 3.

Section worker.
Context {H : Type} {HH : Histogram H} {N : Type} {NW : Network N}.

Definition new_hist : H := hist_New 1 maxLatencyMicros histSigFigs.

(** ** The workers *)

Record workerResult := mkWorkerResult {
  writeHist : H; readHist : H; writeOps : Z; readOps : Z; worker_errors : Z }.
Definition new_result : workerResult := mkWorkerResult new_hist new_hist 0 0 0.

(** The end of a turn: what [conn.Do] gave for a write or a read after [latUs]. *)
Definition account (r : workerResult) (isWrite : bool) (latUs : Z) (res : Msg + error) : workerResult :=
  let '(mkWorkerResult wh rh w d e) := r in
  match res with
  | inr _ | inl (MErrorMessage _) => mkWorkerResult wh rh w d (e + 1)
  | inl _ => if isWrite then mkWorkerResult (RecordValue latUs wh) rh (w + 1) d e
             else mkWorkerResult wh (RecordValue latUs rh) w (d + 1) e
  end.

Definition worker_request (isWrite : bool) (key value : gobytes) : Msg :=
  if isWrite then MSetRequest (mkSetRequest key value 0) else MGetRequest (mkGetRequest key).

(** [reconnect] tries until it is connected to a leader.  [None]: out of fuel. *)
Fixpoint reconnect_loop (fuel : nat) (seeds : list addr) (net : N) : option (go Conn * N) :=
  match fuel with
  | O => None
  | S fuel =>
      match DiscoverLeader seeds net with
      | (Panic, net) => Some (Panic, net)
      | (Err _, net) => reconnect_loop fuel seeds net
      | (Ok (la, _), net) =>
          match Dial la net with
          | (Err _, net) => reconnect_loop fuel seeds net
          | res => Some res
          end
      end
  end.

Definition reconnect (fuel : nat) (seeds : list addr) (conn : option Conn) (net : N) : option (go Conn * N) :=
  let net := match conn with Some c => Close c net | None => net end in
  reconnect_loop fuel seeds net.

(** The outcomes of a turn's random choices, and the latency measured. *)
Record choice := mkChoice { hot : bool; rand : Z; latUs : Z }.

(** [keys[i]] panics out of range. *)
Definition key_of (keys : list gobytes) (hotKeys : Z) (ch : choice) : go gobytes :=
  i ← pickKey hotKeys (len keys) (hot ch) (rand ch);
  match keys !! Z.to_nat i with Some k => Ok k | None => Panic end.

(** A worker that is connected.  [w_first] is the connection it began with:
    [defer conn.Close()] evaluates [conn] when it is deferred, so that is the one closed
    at the end. *)
Record worker := mkWorker { w_first : Conn; w_conn : Conn; w_result : workerResult }.

(** What [main] passes to every worker. *)
Context (fuel : nat) (seeds : list addr) (keys : list gobytes) (hotKeys : Z) (value : gobytes).

(** [runWorker] up to its loop. *)
Definition worker_start (net : N) : option (go worker * N) :=
  match reconnect fuel seeds None net with
  | Some (Ok conn, net) => Some (Ok (mkWorker conn conn new_result), net)
  | Some (Err e, net) => Some (Err e, net)
  | Some (Panic, net) => Some (Panic, net)
  | None => None
  end.

(** One turn of its loop, with a token of the channel. *)
Definition worker_turn (isWrite : bool) (ch : choice) (w : worker) (net : N) : option (go worker * N) :=
  match key_of keys hotKeys ch with
  | Ok key =>
      match Do (w_conn w) (worker_request isWrite key value) (5 * Second) net with
      | (Panic, net) => Some (Panic, net)
      | (Err e, net) =>
          let r := account (w_result w) isWrite (latUs ch) (inr e) in
          match reconnect fuel seeds (Some (w_conn w)) net with
          | Some (Ok conn, net) => Some (Ok (mkWorker (w_first w) conn r), net)
          | Some (Err e, net) => Some (Err e, net)
          | Some (Panic, net) => Some (Panic, net)
          | None => None
          end
      | (Ok resp, net) =>
          Some (Ok (mkWorker (w_first w) (w_conn w) (account (w_result w) isWrite (latUs ch) (inl resp))), net)
      end
  | Err e => Some (Err e, net)
  | Panic => Some (Panic, net)
  end.

(** ** Coordinator and workers together

    [l_closed]: the deadline has passed or a signal has come, and [workCh] is closed; a
    worker is [None] until it is connected. *)
Record load := mkLoad { l_co : coordinator; l_closed : bool; l_workers : list (option worker); l_net : N }.

Definition load_start (workers : Z) (net : N) : load :=
  mkLoad (new_coordinator workers) false (replicate (Z.to_nat workers) None) net.

Inductive load_event := LTick (tokens : list bool) | LConnect (i : nat) | LTurn (i : nat) (ch : choice) | LDone.

(** The end of a worker's step. *)
Definition put_worker (st : load) (co : coordinator) (i : nat) (res : option (go worker * N)) : option (go load) :=
  match res with
  | Some (Ok w, net) => Some (Ok (mkLoad co (l_closed st) (<[i := Some w]> (l_workers st)) net))
  | Some (Err e, _) => Some (Err e)
  | Some (Panic, _) => Some Panic
  | None => None
  end.

(** [None]: not possible now (or out of fuel).  A closed channel is still drained. *)
Definition load_step (batch : Z) (st : load) (ev : load_event) : option (go load) :=
  match ev with
  | LTick tokens =>
      if l_closed st || negb (len tokens =? batch) then None
      else Some (Ok (mkLoad (foldl offer (l_co st) tokens) false (l_workers st) (l_net st)))
  | LDone => if l_closed st then None else Some (Ok (mkLoad (l_co st) true (l_workers st) (l_net st)))
  | LConnect i =>
      match l_workers st !! i with
      | Some None => put_worker st (l_co st) i (worker_start (l_net st))
      | _ => None
      end
  | LTurn i ch =>
      match l_workers st !! i, workCh (l_co st) with
      | Some (Some w), t :: q =>
          put_worker st (mkCoordinator (capacity (l_co st)) q (droppedTokens (l_co st))) i (worker_turn t ch w (l_net st))
      | _, _ => None
      end
  end.

Fixpoint load_run (batch : Z) (st : load) (evs : list load_event) : option (go load) :=
  match evs with
  | [] => Some (Ok st)
  | ev :: evs =>
      match load_step batch st ev with
      | Some (Ok st) => load_run batch st evs
      | res => res
      end
  end.

(** [wg.Wait()] returns: every worker has seen the channel closed and empty. *)
Definition load_ended (st : load) : bool :=
  l_closed st && bool_decide (workCh (l_co st) = []) &&
  forallb (λ w, match w with Some _ => true | None => false end) (l_workers st).

(** [wResults] *)
Definition results (st : load) : list workerResult :=
  (λ w, match w with Some w => w_result w | None => new_result end) <$> l_workers st.

(** The sums over the workers, and the merged histograms. *)
Definition totals (rs : list workerResult) : workerResult :=
  foldl (λ t r, mkWorkerResult (Merge (writeHist t) (writeHist r)) (Merge (readHist t) (readHist r))
                  (writeOps t + writeOps r) (readOps t + readOps r) (worker_errors t + worker_errors r))
    new_result rs.
End worker.
Arguments workerResult : clear implicits.
Arguments worker : clear implicits.
Arguments load : clear implicits.

(** ** What they do *)

(** Every seed once, in order of first appearance. *)
Lemma mergeSeeds_spec a b : NoDup (mergeSeeds a b) ∧ ∀ x, x ∈ mergeSeeds a b ↔ x ∈ a ∨ x ∈ b.
Proof.
  unfold mergeSeeds. setoid_rewrite <-elem_of_app. generalize (a ++ b) as l. intros l.
  enough (∀ (seen : gset addr) out, NoDup out → (∀ x, x ∈ seen ↔ x ∈ out) →
    let r := foldl (λ '(seen, out) s, if bool_decide (s ∈ seen) then (seen, out) else ({[s]} ∪ seen, out ++ [s]))
               (seen, out) l in
    NoDup r.2 ∧ ∀ x, x ∈ r.2 ↔ x ∈ out ∨ x ∈ l) as H.
  { destruct (H ∅ [] (NoDup_nil_2)) as [H1 H2]; [set_solver|]. split; [exact H1|]. intros x. rewrite H2. set_solver. }
  induction l as [|s l IH]; intros seen out Hnd Hseen; cbn [foldl]; [split; [done|set_solver]|].
  case_bool_decide as Hs.
  - destruct (IH seen out Hnd Hseen) as [H1 H2]. split; [exact H1|]. intros x. rewrite H2. set_solver.
  - destruct (IH ({[s]} ∪ seen) (out ++ [s])) as [H1 H2].
    + apply NoDup_app. split_and!; [done|set_solver|apply NoDup_singleton].
    + set_solver.
    + split; [exact H1|]. intros x. rewrite H2. set_solver.
Qed.

(** Keys are picked within the key space, which must not be empty. *)
Lemma pickKey_range hotKeys nkeys hot r :
  0 < nkeys → ∃ i, pickKey (hot_keys hotKeys nkeys) nkeys hot r = Ok i ∧ 0 ≤ i < nkeys.
Proof.
  intros Hn. unfold pickKey, hot_keys, Intn.
  assert (∀ n, 0 < n → 0 ≤ r `mod` n < n) as Hm by (intros; by apply Z.mod_pos_bound).
  destruct (Z.leb_spec nkeys hotKeys); cbn [Z.ltb Z.compare andb].
  - rewrite (proj2 (Z.leb_gt nkeys 0)) by lia. eauto.
  - destruct (Z.ltb_spec 0 hotKeys); cbn [andb].
    + destruct hot; [rewrite (proj2 (Z.leb_gt hotKeys 0)) by lia; specialize (Hm hotKeys); eexists; split; [done|lia]|].
      rewrite (proj2 (Z.ltb_lt hotKeys nkeys)) by lia. rewrite (proj2 (Z.leb_gt (nkeys - hotKeys) 0)) by lia.
      specialize (Hm (nkeys - hotKeys)). eexists. split; [done|lia].
    + rewrite (proj2 (Z.leb_gt nkeys 0)) by lia. eauto.
Qed.

(** The ticker offers tokens at the target rate or a little above: an interval of [d]
    for each batch, the largest that is not too slow. *)
Lemma new_ticker_rate rate : 0 < rate < 2 ^ 40 →
  ∃ d, new_ticker rate = Ok d ∧ 0 < d ∧ d * rate ≤ batchSize rate * Second < (d + 1) * rate.
Proof.
  intros Hr. assert (batchSize rate = Z.max 1 (rate `div` 1000)) as Eb.
  { unfold batchSize, max_int. rewrite Z.quot_div_nonneg by lia. destruct (Z.ltb_spec (rate `div` 1000) 1); lia. }
  pose proof (Z.div_mod rate 1000 ltac:(lia)). pose proof (Z.mod_pos_bound rate 1000 ltac:(lia)).
  unfold new_ticker, tickInterval. rewrite (proj2 (Z.eqb_neq rate 0)) by lia. unfold Second.
  rewrite i64_small by (rewrite Eb; nia). rewrite Z.quot_div_nonneg by lia. set (n := 1000000000 * batchSize rate).
  assert (rate ≤ n) as Hn by (subst n; rewrite Eb; nia). cbn [mbind go_bind].
  pose proof (Z.div_mod n rate ltac:(lia)). pose proof (Z.mod_pos_bound n rate ltac:(lia)).
  assert (0 < n `div` rate) by (apply Z.div_str_pos; lia).
  rewrite (proj2 (Z.leb_gt _ _)) by lia. exists (n `div` rate). split_and!; [done|lia|nia|nia].
Qed.

(** *** Tokens *)

Definition offered (evs : list coord_event) : list bool :=
  concat ((λ ev, match ev with Tick ts => ts | Take => [] end) <$> evs).

(** What has been offered: taken, waiting or dropped, in order. *)
Definition tokens_ok (cap : Z) (all : list bool) (st : coordinator * list bool) : Prop :=
  let '(co, taken) := st in
  capacity co = cap ∧ len (workCh co) ≤ cap ∧ len taken + len (workCh co) + droppedTokens co = len all ∧
  taken ++ workCh co `sublist_of` all.

Lemma offer_ok cap taken ts : ∀ all co,
  tokens_ok cap all (co, taken) → tokens_ok cap (all ++ ts) (foldl offer co ts, taken).
Proof.
  induction ts as [|t ts IH]; intros all co Hok; cbn [foldl]; [by rewrite app_nil_r|].
  replace (all ++ t :: ts) with ((all ++ [t]) ++ ts) by (by rewrite <-app_assoc). apply IH.
  destruct Hok as (E & Hlen & Hsum & Hsub). unfold offer. destruct (Z.ltb_spec (len (workCh co)) (capacity co)) as [Hlt|Hge];
    split_and!; cbn [capacity workCh droppedTokens]; rewrite ?len_app, ?len_cons, ?len_nil in *; try lia.
  - rewrite app_assoc. by apply sublist_app.
  - by apply sublist_inserts_r.
Qed.

Lemma coord_ok cap evs : ∀ all st,
  tokens_ok cap all st → tokens_ok cap (all ++ offered evs) (foldl coord_step st evs).
Proof.
  induction evs as [|ev evs IH]; intros all st Hok; cbn [foldl]; [by rewrite app_nil_r|].
  change (offered (ev :: evs)) with (match ev with Tick ts => ts | Take => [] end ++ offered evs).
  rewrite app_assoc. apply IH. destruct st as [co taken], ev as [ts|]; cbn [coord_step]; [by apply offer_ok|].
  rewrite app_nil_r. destruct (workCh co) as [|t q] eqn:Eq; [done|]. destruct Hok as (E & Hlen & Hsum & Hsub).
  rewrite Eq in *. split_and!; cbn [capacity workCh droppedTokens]; rewrite ?len_app, ?len_cons, ?len_nil in *; try lia.
  by rewrite <-app_assoc.
Qed.

(** *** Workers *)

(** The turns a result stands for. *)
Definition turns {H} (r : workerResult H) : Z := writeOps r + readOps r + worker_errors r.

Section counts.
Context {H : Type} {HH : Histogram H} {N : Type} {NW : Network N}.
Context (fuel : nat) (seeds : list addr) (keys : list gobytes) (hotKeys : Z) (value : gobytes) (batch : Z).
Implicit Types (st : load H N) (r : workerResult H).

Lemma account_turns r w lat res : turns (account r w lat res) = turns r + 1.
Proof. destruct r. unfold account, turns. destruct res as [[]|]; try destruct w; cbn; lia. Qed.

Lemma worker_turn_turns w ch (x : worker H) (net : N) x' net' :
  worker_turn fuel seeds keys hotKeys value w ch x net = Some (Ok x', net') → turns (w_result x') = turns (w_result x) + 1.
Proof.
  unfold worker_turn. destruct (key_of keys hotKeys ch) as [key|e|]; [|done..].
  destruct (Do _ _ _ _) as [[resp|e|] net1]; [..|done].
  - intros [= <- <-]. apply account_turns.
  - destruct (reconnect _ _ _ _) as [[[conn'|e'|] net2]|]; [|done..]. intros [= <- <-]. apply account_turns.
Qed.

Definition sum_of (f : workerResult H → Z) (rs : list (workerResult H)) : Z := foldr (λ r n, f r + n) 0 rs.

(** The totals are sums. *)
Lemma totals_sums rs :
  writeOps (totals rs) = sum_of writeOps rs ∧ readOps (totals rs) = sum_of readOps rs ∧
  worker_errors (totals rs) = sum_of worker_errors rs.
Proof.
  unfold totals, sum_of.
  enough (∀ t0, let t := foldl (λ t r, mkWorkerResult (Merge (writeHist t) (writeHist r)) (Merge (readHist t) (readHist r))
      (writeOps t + writeOps r) (readOps t + readOps r) (worker_errors t + worker_errors r)) t0 rs in
    writeOps t = writeOps t0 + foldr (λ r n, writeOps r + n) 0 rs ∧ readOps t = readOps t0 + foldr (λ r n, readOps r + n) 0 rs ∧
    worker_errors t = worker_errors t0 + foldr (λ r n, worker_errors r + n) 0 rs) as E by apply (E new_result).
  induction rs as [|r rs IH]; intros t0; cbn [foldl foldr]; cbn zeta; [lia|].
  destruct (IH (mkWorkerResult (Merge (writeHist t0) (writeHist r)) (Merge (readHist t0) (readHist r))
      (writeOps t0 + writeOps r) (readOps t0 + readOps r) (worker_errors t0 + worker_errors r))) as (-> & -> & ->). cbn. lia.
Qed.

Lemma sum_of_turns rs : sum_of turns rs = sum_of writeOps rs + sum_of readOps rs + sum_of worker_errors rs.
Proof. unfold sum_of. induction rs as [|r rs IH]; [done|]. cbn [foldr]. rewrite IH. unfold turns. lia. Qed.

Lemma totals_turns rs : turns (totals rs) = sum_of turns rs.
Proof. rewrite sum_of_turns. unfold turns. by destruct (totals_sums rs) as (-> & -> & ->). Qed.

Definition result_of (w : option (worker H)) : workerResult H := match w with Some w => w_result w | None => new_result end.

Lemma results_eq st : results st = result_of <$> l_workers st.
Proof. done. Qed.

Lemma sum_of_insert f (l : list (option (worker H))) i x : l !! i = Some x → ∀ w,
  sum_of f (result_of <$> <[i := Some w]> l) = sum_of f (result_of <$> l) - f (result_of x) + f (w_result w).
Proof.
  revert i. unfold sum_of. induction l as [|y l IH]; intros [|i] E w; simplify_eq/=; [lia|].
  specialize (IH i E w). cbn in IH. rewrite IH. lia.
Qed.

Lemma sum_of_new f n : f new_result = 0 → sum_of f (result_of <$> replicate n None) = 0.
Proof. intros Hf. unfold sum_of in *. induction n as [|n IH]; [done|]. cbn [replicate fmap list_fmap foldr result_of]. rewrite IH, Hf. done. Qed.

(** The coordinator's part of an event. *)
Definition coord_of (ev : load_event) : list coord_event :=
  match ev with LTick ts => [Tick ts] | LTurn _ _ => [Take] | LConnect _ | LDone => [] end.

(** Each event moves the coordinator as [coord_step] says, and the workers have made a
    turn for each token taken. *)
Lemma load_step_coord st ev st' taken :
  load_step fuel seeds keys hotKeys value batch st ev = Some (Ok st') → sum_of turns (results st) = len taken →
  l_co st' = (foldl coord_step (l_co st, taken) (coord_of ev)).1 ∧
  sum_of turns (results st') = len (foldl coord_step (l_co st, taken) (coord_of ev)).2.
Proof.
  intros E Hsum. destruct ev as [ts|i|i ch|]; cbn [load_step coord_of foldl coord_step fst snd] in *.
  - destruct (_ || _); [done|]. injection E as <-. done.
  - destruct (l_workers st !! i) as [[w|]|] eqn:Ew; [done| |done]. unfold put_worker in E.
    destruct (worker_start _ _ _) as [[[w|e|] net]|] eqn:Es; [|done..]. injection E as <-. split; [done|].
    rewrite results_eq in *. cbn [l_workers]. rewrite (sum_of_insert _ _ i None Ew). unfold worker_start in Es.
    destruct (reconnect _ _ _ _) as [[[conn|e|] net1]|]; [|done..]. injection Es as <- <-.
    cbn -[new_result]. lia.
  - destruct (l_workers st !! i) as [[w|]|] eqn:Ew; [|done..].
    destruct (workCh (l_co st)) as [|t q]; [done|]. unfold put_worker in E.
    destruct (worker_turn _ _ _ _ _ _ _ _ _) as [[[w'|e|] net]|] eqn:Es; [|done..]. injection E as <-. split; [done|].
    rewrite results_eq in *. cbn [l_workers snd]. rewrite (sum_of_insert _ _ i (Some w) Ew).
    apply worker_turn_turns in Es. cbn [result_of]. rewrite Es, len_app, len_cons, len_nil. lia.
  - destruct (l_closed st); [done|]. injection E as <-. done.
Qed.

Lemma load_run_coord evs : ∀ st st' taken,
  load_run fuel seeds keys hotKeys value batch st evs = Some (Ok st') → sum_of turns (results st) = len taken →
  l_co st' = (foldl coord_step (l_co st, taken) (evs ≫= coord_of)).1 ∧
  sum_of turns (results st') = len (foldl coord_step (l_co st, taken) (evs ≫= coord_of)).2.
Proof.
  induction evs as [|ev evs IH]; intros st st' taken E Hsum; cbn [load_run] in E.
  { injection E as <-. done. }
  destruct (load_step _ _ _ _ _ _ st ev) as [[st1|e|]|] eqn:Es; [|done..].
  destruct (load_step_coord _ _ _ taken Es Hsum) as [Hco Hs]. cbn [mbind list_bind]. rewrite foldl_app.
  destruct (foldl coord_step (l_co st, taken) (coord_of ev)) as [co1 taken1]. cbn [fst snd] in *. subst co1.
  by apply IH.
Qed.

(** The tokens of the ticks. *)
Definition offered_in (evs : list load_event) : list bool := offered (evs ≫= coord_of).

(** Every token offered is a turn of a worker, waiting or dropped. *)
Lemma load_accounts workers (net : N) evs st : 0 ≤ workers →
  load_run fuel seeds keys hotKeys value batch (load_start workers net) evs = Some (Ok st) →
  turns (totals (results st)) + len (workCh (l_co st)) + droppedTokens (l_co st) = len (offered_in evs) ∧
  len (workCh (l_co st)) ≤ workers * 8.
Proof.
  intros Hw E. destruct (load_run_coord evs _ _ [] E) as [Hco Hs].
  { rewrite results_eq. by apply sum_of_new. }
  rewrite totals_turns, Hs, Hco.
  assert (tokens_ok (workers * 8) [] (new_coordinator workers, [])) as H0 by (split_and!; cbn; rewrite ?len_nil; (lia || done)).
  pose proof (coord_ok (workers * 8) (evs ≫= coord_of) [] _ H0) as Htok. unfold load_start in *. cbn [l_co] in *.
  destruct (foldl coord_step _ _) as [co taken]. destruct Htok as (_ & ? & ? & _). cbn [fst snd]. by split.
Qed.
End counts.
