(* ===== verification/LoadRun.v ===== *)
(** * The load generator against a cluster

    Nodes that are up, served over connections that stay open: each frame a client
    writes is handled as [handleConnection]'s client loop handles it, and the answer can
    be read on the same connection.  The load generator's workers against them. *)

From S2P Require Import Prelude GoLang Protocol KvMessages ClusterMessages ClientMessages Messages.
From S2P Require Import WalRecord Os WalWriter Shard Eviction Store Recovery StoreSpec Logs StoreProps.
From S2P Require Import Raft RaftProps Replication ReplicationProps Engine Server ServerProps ServerSafe Strings Cli CliProps CliMain.
From S2P Require Import Bench Float LoadGen.

Section live.
Context {W : Type} {LW : Log W} {LL : LogLaws W} (Hlog : log_total W).
Context (ord : nat → order) (Hord : orders_ok ord) (ford : table_order) (maxLen : Z) (Hmax : 0 ≤ maxLen).
Context (clock : nat → Z).

(** The nodes, the open connections with the bytes not yet read, the number of the next
    connection and of the next request. *)
Record live := mkLive { up : Nodes W; links : gmap nat (addr * gobytes); next_link : nat; served : nat }.

Definition i_o_timeout : error := ErrorString (str "i/o timeout").

(** One turn of the client loop on a frame. *)
Definition serve_frame (data : gobytes) (now : Z) (st : State (P:=AnyPolicy) (W:=W)) : go () * State * gobytes :=
  match readMessage maxLen (Reader data io_EOF) [] with
  | (Ok msg, _, out) => dispatchClient ord ford msg now st out
  | (Err e, _, out) => (Err e, st, out)
  | (Panic, _, out) => (Panic, st, out)
  end.

#[export] Instance live_Network : Network live := {
  net_dial a net :=
    match up net !! a with
    | Some _ => (Ok (next_link net), mkLive (up net) (<[next_link net := (a, [])]> (links net)) (S (next_link net)) (served net))
    | None => (Err dial_error, net)
    end;
  net_write c data net :=
    match links net !! c with
    | Some (a, unread) =>
        match up net !! a with
        | Some st =>
            match serve_frame data (clock (served net)) st with
            | (Ok _, st, out) =>
                (Ok (), mkLive (<[a := st]> (up net)) (<[c := (a, unread ++ out)]> (links net)) (next_link net) (S (served net)))
            | (_, st, out) => (Err net_ErrClosed, net)
            end
        | None => (Err net_ErrClosed, net)
        end
    | None => (Err net_ErrClosed, net)
    end;
  net_reader c timeout net :=
    match links net !! c with Some (_, unread) => Reader unread i_o_timeout | None => Reader [] net_ErrClosed end;
  net_rest c rd net :=
    match links net !! c with
    | Some (a, _) => mkLive (up net) (<[c := (a, rd_data rd)]> (links net)) (next_link net) (served net)
    | None => net
    end;
  net_close c net := mkLive (up net) (delete c (links net)) (next_link net) (served net);
}.

(** A healthy connection to [a]: nothing unread; and connections are numbered in order. *)
Definition linked (c : nat) (a : addr) (net : live) : Prop := links net !! c = Some (a, []).
Definition fresh_links (net : live) : Prop := ∀ c, (next_link net ≤ c)%nat → links net !! c = None.

Lemma Do_live c a (st st' : State) req resp timeout net :
  linked c a net → up net !! a = Some st → sendable maxLen req → sendable 0 resp →
  dispatchClient ord ford req (clock (served net)) st [] = (Ok (), st', frame_bytes resp) →
  ∃ net', Do c req timeout net = (Ok resp, net') ∧ links net' = links net ∧ next_link net' = next_link net ∧
    up net' = <[a := st']> (up net).
Proof.
  intros Hc Ha Hreq Hresp Hd. rewrite Do_spec. cbn [net_write live_Network]. rewrite Hc, Ha.
  assert (serve_frame (frame_bytes req) (clock (served net)) st = (Ok (), st', frame_bytes resp)) as ->.
  { unfold serve_frame, readMessage. rewrite <-(app_nil_r (frame_bytes req)). destruct Hreq as (?&?&?).
    rewrite ReadFrame_frame; [done|apply registry_is_ok|apply registry_complete|done..]. }
  unfold Recv. cbn [net_reader net_rest live_Network links]. rewrite lookup_insert_eq. cbn [app].
  destruct Hresp as (?&?&?). rewrite <-(app_nil_r (frame_bytes resp)).
  rewrite ReadFrame_frame; [|apply registry_is_ok|apply registry_complete|done..].
  eexists. split; [reflexivity|]. cbn. rewrite insert_insert_eq. split_and!; [by apply insert_id|done|done].
Qed.

(** Dialling a node that is up. *)
Lemma Dial_live (a : addr) net : is_Some (up net !! a) →
  Dial a net = (Ok (next_link net), mkLive (up net) (<[next_link net := (a, [])]> (links net)) (S (next_link net)) (served net)).
Proof. intros [st Ha]. unfold Dial. cbn [net_dial live_Network]. by rewrite Ha. Qed.

Lemma FetchTopology_live (a : addr) (st : State) net :
  up net !! a = Some st → sendable 0 (MTopologyResponse (GetTopology st.1)) → fresh_links net →
  ∃ net', FetchTopology a net = (Ok (GetTopology st.1), net') ∧ up net' = up net ∧ links net' = links net ∧ fresh_links net'.
Proof.
  intros Ha Htop Hf. unfold FetchTopology. rewrite Dial_live by eauto. set (c := next_link net). set (net1 := mkLive _ _ _ _).
  destruct (Do_live c a st st topology_request (MTopologyResponse (GetTopology st.1)) (3 * Second) net1)
    as (net2 & E & El & En & Eup2); [by apply lookup_insert_eq|done|by apply topology_sendable; lia|done| |].
  { unfold dispatchClient. change (OpCode topology_request =? OpTopologyRequest) with true. cbn iota.
    by rewrite writeMessage_frame. }
  unfold Do in E. change (op_timeout (3 * Second)) with (3 * Second) in E. rewrite E. cbn [mbind go_bind].
  eexists. split; [reflexivity|]. cbn. rewrite Eup2, El. cbn. rewrite delete_insert_id by (by apply Hf).
  split_and!; [by apply insert_id|done|]. intros c'. cbn. rewrite En. cbn. intros Hc'. apply Hf. lia.
Qed.

(** [l] is up and holds [m], whose values are small; the seed is up and names [l]. *)
Definition holds (l : addr) (m : gmap key Record) (net : live) : Prop :=
  (∃ st : State, up net !! l = Some st ∧ simulates m (db st.1)) ∧ ∀ k rec, m !! k = Some rec → value_small (value rec).

Definition knows (seed : addr) (r : RaftState) (net : live) : Prop :=
  ∃ st : State, up net !! seed = Some st ∧ nraft st.1 = r.

Lemma GetTopology_nraft (n n' : Node AnyPolicy W) : nraft n = nraft n' → GetTopology n = GetTopology n'.
Proof. intros E. unfold GetTopology, GetLeaderAddr, GetPeers. by rewrite E. Qed.

Lemma turn_live c l m seed r0 r timeout net :
  linked c l net → holds l m net → knows seed r0 net → sendable maxLen (client_msg r) → len (Msg_wire (client_msg r)) < 2 ^ 31 →
  ∃ resp m' net', Do c (client_msg r) timeout net = (Ok resp, net') ∧ links net' = links net ∧ next_link net' = next_link net ∧
    holds l m' net' ∧ knows seed r0 net' ∧ (∀ e, resp ≠ MErrorMessage e).
Proof.
  intros Hc [(st & Hst & Hsim) Hsm] (sd & Hsd & Hr0) Hsend Hlen.
  destruct (dispatchClient_spec Hlog ord Hord ford st m r (clock (served net)) [] Hsim) as (st' & Ed & Hsim' & _).
  pose proof (dispatchClient_election ord ford (client_msg r) (clock (served net)) st []) as [Hnr _]. rewrite Ed in Hnr. cbn in Hnr.
  destruct (Do_live c l st st' (client_msg r) (client_spec (ndefaultTTL st.1) m r (clock (served net))).1 timeout net)
    as (net' & E & El & En & Eup); [done..|by apply response_sendable|done|].
  eexists _, _, net'. split_and!; [exact E|done|done| | |].
  - split; [exists st'; rewrite Eup, lookup_insert_eq; by split|]. by apply client_spec_small.
  - unfold knows. rewrite Eup. destruct (decide (seed = l)) as [->|Hne].
    + exists st'. rewrite lookup_insert_eq. split; [done|]. rewrite Hnr. congruence.
    + exists sd. by rewrite lookup_insert_ne.
  - intros e. destruct r; cbn [client_spec fst]; [|done|]; by repeat case_match.
Qed.

Definition key_fits (value key : gobytes) : Prop :=
  ∀ w, sendable maxLen (worker_request w key value) ∧ len (Msg_wire (worker_request w key value)) < 2 ^ 31.

Lemma key_of_ok keys hotKeys ch : keys ≠ [] → ∃ k, key_of keys (hot_keys hotKeys (len keys)) ch = Ok k ∧ k ∈ keys.
Proof.
  intros Hne. unfold key_of. destruct (pickKey_range hotKeys (len keys) (hot ch) (rand ch)) as (i & -> & Hi).
  { destruct keys; [done|]. rewrite len_cons. pose proof (len_nonneg keys). lia. }
  cbn [mbind go_bind]. destruct (lookup_lt_is_Some_2 keys (Z.to_nat i)) as [k Hk]; [unfold len in *; lia|].
  rewrite Hk. exists k. split; [done|]. by eapply list_elem_of_lookup_2.
Qed.

Definition worker_client (w : bool) (key value : gobytes) : client_request := if w then CSet key value 0 else CGet key.

Lemma worker_client_msg w key value : client_msg (worker_client w key value) = worker_request w key value.
Proof. by destruct w. Qed.
End live.

Definition count_tokens (w : bool) (ts : list bool) : Z := len (filter (λ b, b = w) ts).

Lemma count_tokens_app w ts t : count_tokens w (ts ++ [t]) = count_tokens w ts + if eqb t w then 1 else 0.
Proof. unfold count_tokens. rewrite filter_app, len_app, filter_cons. by destruct t, w. Qed.

Lemma count_tokens_total ts : count_tokens true ts + count_tokens false ts = len ts.
Proof.
  induction ts as [|t ts IH] using rev_ind; [done|]. rewrite (count_tokens_app true), (count_tokens_app false), len_app, len_cons.
  change (len (@nil bool)) with 0.
  destruct t; cbn [eqb]; lia.
Qed.

Section run.
Context {W : Type} {LW : Log W} {LL : LogLaws W} (Hlog : log_total W) {H : Type} {HH : Histogram H}.
Context (ord : nat → order) (Hord : orders_ok ord) (ford : table_order) (maxLen : Z) (Hmax : 0 ≤ maxLen).
Context (clock : nat → Z) (fuel : nat) (seed : addr) (seeds : list addr) (keys : list gobytes) (hotKeys : Z) (value : gobytes).
Context (n0 : Node AnyPolicy W) (Hl : leaderAddr (nraft n0) ≠ []) (Htop : sendable 0 (MTopologyResponse (GetTopology n0))).
Context (batch : Z) (Hkeys : keys ≠ []) (Hfit : Forall (key_fits maxLen value) keys).
#[local] Existing Instance live_Network.
Local Abbreviation net_of := (live_Network ord ford maxLen clock).
Local Abbreviation l := (leaderAddr (nraft n0)).
Local Abbreviation hk := (hot_keys hotKeys (len keys)).

(** Every connected worker talks to the leader and has had no error; the writes and reads
    are those of the tokens taken. *)
Record healthy (taken : list bool) (st : load H (live (W:=W))) : Prop := {
  hl_holds : ∃ m, holds l m (l_net st);
  hl_knows : knows seed (nraft n0) (l_net st);
  hl_fresh : fresh_links (l_net st);
  hl_conns i w : l_workers st !! i = Some (Some w) → linked (w_conn w) l (l_net st);
  hl_writes : sum_of writeOps (results st) = count_tokens true taken;
  hl_reads : sum_of readOps (results st) = count_tokens false taken;
  hl_errors : sum_of worker_errors (results st) = 0;
}.

Lemma start_live net : knows seed (nraft n0) net → fresh_links net → is_Some (up net !! l) →
  ∃ c net', worker_start (NW:=net_of) (S fuel) (seed :: seeds) net = Some (Ok (mkWorker c c (new_result (HH:=HH))), net') ∧
    links net' = <[c := (l, [])]> (links net) ∧ links net !! c = None ∧ up net' = up net ∧ fresh_links net'.
Proof.
  intros (sd & Hsd & Er) Hf Hup. unfold worker_start, reconnect. cbn [reconnect_loop DiscoverLeader].
  assert (GetTopology sd.1 = GetTopology n0) as Et by (by apply GetTopology_nraft).
  destruct (FetchTopology_live ord ford maxLen Hmax clock seed sd net Hsd) as (net1 & -> & Eup & El & Hf1); [by rewrite Et|done|].
  rewrite Et. cbn [GetTopology TopologyResponse_LeaderAddr]. rewrite bool_decide_eq_false_2 by exact Hl.
  rewrite Dial_live by (by rewrite Eup). eexists _, _. split; [reflexivity|]. cbn. rewrite <-El. split_and!; [done|by apply Hf1|done|].
  intros c. cbn. intros Hc. rewrite lookup_insert_ne by lia. apply Hf1. lia.
Qed.

Lemma worker_turn_live w ch (x : worker H) m net :
  linked (w_conn x) l net → holds l m net → knows seed (nraft n0) net →
  ∃ x' m' net', worker_turn (NW:=net_of) (S fuel) (seed :: seeds) keys hk value w ch x net = Some (Ok x', net') ∧
    w_conn x' = w_conn x ∧ links net' = links net ∧ next_link net' = next_link net ∧ holds l m' net' ∧ knows seed (nraft n0) net' ∧
    writeOps (w_result x') = writeOps (w_result x) + (if w then 1 else 0) ∧
    readOps (w_result x') = readOps (w_result x) + (if w then 0 else 1) ∧
    worker_errors (w_result x') = worker_errors (w_result x).
Proof.
  intros Hc Hh Hk. unfold worker_turn. destruct (key_of_ok keys hotKeys ch Hkeys) as (k & -> & Hin).
  rewrite Forall_forall in Hfit. destruct (Hfit k Hin w) as [Hs Hlen]. rewrite <-worker_client_msg in Hs, Hlen |- *.
  destruct (turn_live Hlog ord Hord ford maxLen clock (w_conn x) l m seed (nraft n0) _ (5 * Second) net Hc Hh Hk Hs Hlen)
    as (resp & m' & net' & -> & El & En & Hh' & Hk' & Hresp).
  eexists _, m', net'. split; [reflexivity|]. split_and!; try done; cbn [w_result w_conn]; [|..]; destruct x as [fc cc []];
    unfold account; cbn [w_result]; destruct resp; try (destruct w; cbn; lia); by edestruct Hresp.
Qed.

Lemma healthy_turn taken (st : load H live) i ch w t q :
  healthy taken st → l_workers st !! i = Some (Some w) → workCh (l_co st) = t :: q →
  ∃ st', load_step (NW:=net_of) (S fuel) (seed :: seeds) keys hk value batch st (LTurn i ch) = Some (Ok st') ∧
    healthy (taken ++ [t]) st'.
Proof.
  intros [[m H1] H2 H3 H4 H5 H6 H7] Hw Hq. cbn [load_step]. rewrite Hw, Hq.
  destruct (worker_turn_live t ch w m (l_net st) (H4 i w Hw) H1 H2) as (x' & m' & net' & -> & Ec & El & En & Hh & Hk & E1 & E2 & E3).
  eexists. split; [reflexivity|]. split; cbn [l_net l_workers].
  - eauto.
  - done.
  - intros c. rewrite El, En. apply H3.
  - unfold linked. rewrite El. intros j w'. rewrite list_lookup_insert_Some. intros [(<- & E & _)|[_ Hj]]; [|by eapply H4].
    injection E as E. rewrite <-E, Ec. by eapply H4.
  - rewrite results_eq in *. cbn [l_workers]. rewrite (sum_of_insert _ _ i (Some w) Hw), H5, count_tokens_app. cbn. destruct t; cbn in *; lia.
  - rewrite results_eq in *. cbn [l_workers]. rewrite (sum_of_insert _ _ i (Some w) Hw), H6, count_tokens_app. cbn. destruct t; cbn in *; lia.
  - rewrite results_eq in *. cbn [l_workers]. rewrite (sum_of_insert _ _ i (Some w) Hw), H7. cbn. lia.
Qed.

Lemma healthy_connect taken (st : load H live) i :
  healthy taken st → l_workers st !! i = Some None →
  ∃ st', load_step (NW:=net_of) (S fuel) (seed :: seeds) keys hk value batch st (LConnect i) = Some (Ok st') ∧ healthy taken st'.
Proof.
  intros [(m & (sl & Hsl & Hsim) & Hsm) H2 H3 H4 H5 H6 H7] Hw. cbn [load_step]. rewrite Hw.
  destruct (start_live (l_net st) H2 H3) as (c & net' & -> & El & Hc & Eup & Hf); [eauto|].
  eexists. split; [reflexivity|]. split; cbn [l_net l_workers].
  - exists m. split; [exists sl; by rewrite Eup|done].
  - destruct H2 as (sd & Hsd & Er). exists sd. by rewrite Eup.
  - done.
  - unfold linked. rewrite El. intros j w. rewrite list_lookup_insert_Some. intros [(<- & [= <-] & _)|[_ Hj]]; [apply lookup_insert_eq|].
    apply H4 in Hj. unfold linked in Hj. rewrite lookup_insert_ne; [done|].
    intros Heq. assert (@None (addr * gobytes) = Some (l, [])) as X; [|done].
    etrans; [|exact Hj]. rewrite <-Heq. symmetry. exact Hc.
  - rewrite results_eq in *. cbn [l_workers]. rewrite (sum_of_insert _ _ i None Hw), H5. cbn -[new_result]. cbn. lia.
  - rewrite results_eq in *. cbn [l_workers]. rewrite (sum_of_insert _ _ i None Hw), H6. cbn -[new_result]. cbn. lia.
  - rewrite results_eq in *. cbn [l_workers]. rewrite (sum_of_insert _ _ i None Hw), H7. cbn -[new_result]. cbn. lia.
Qed.
Lemma healthy_load_step cap all taken (st st' : load H live) ev :
  healthy taken st → tokens_ok cap all (l_co st, taken) →
  load_step (NW:=net_of) (S fuel) (seed :: seeds) keys hk value batch st ev = Some (Ok st') →
  ∃ taken', healthy taken' st' ∧ tokens_ok cap (all ++ offered (coord_of ev)) (l_co st', taken').
Proof.
  intros Hh Htok E. pose proof (coord_ok cap (coord_of ev) all _ Htok) as Htok'.
  destruct ev as [ts|i|i ch|]; cbn [coord_of foldl coord_step] in Htok'.
  - cbn [load_step] in E. destruct (_ || _); [done|]. injection E as <-. exists taken. split; [|done]. by destruct Hh.
  - assert (l_workers st !! i = Some None) as Hw by (cbn [load_step] in E; destruct (l_workers st !! i) as [[]|]; done).
    destruct (healthy_connect taken st i Hh Hw) as (st1 & E1 & Hh1). rewrite E1 in E. injection E as <-.
    exists taken. split; [done|]. cbn [load_step] in E1. rewrite Hw in E1. unfold put_worker in E1.
    destruct (worker_start _ _ _) as [[[]?]|]; [|done..]. by injection E1 as <-.
  - assert (∃ w t q, l_workers st !! i = Some (Some w) ∧ workCh (l_co st) = t :: q) as (w & t & q & Hw & Hq).
    { cbn [load_step] in E. destruct (l_workers st !! i) as [[w|]|]; [|done..]. destruct (workCh (l_co st)); [done|]. eauto. }
    destruct (healthy_turn taken st i ch w t q Hh Hw Hq) as (st1 & E1 & Hh1). rewrite E1 in E. injection E as <-.
    exists (taken ++ [t]). split; [done|]. cbn [load_step] in E1. rewrite Hw, Hq in E1. unfold put_worker in E1.
    destruct (worker_turn _ _ _ _ _ _ _ _ _) as [[[]?]|]; [|done..]. injection E1 as <-. by rewrite Hq in Htok'.
  - cbn [load_step] in E. destruct (l_closed st); [done|]. injection E as <-. exists taken. split; [|done]. by destruct Hh.
Qed.

Lemma healthy_load_run cap evs : ∀ all taken (st st' : load H live),
  healthy taken st → tokens_ok cap all (l_co st, taken) →
  load_run (NW:=net_of) (S fuel) (seed :: seeds) keys hk value batch st evs = Some (Ok st') →
  ∃ taken', healthy taken' st' ∧ tokens_ok cap (all ++ offered_in evs) (l_co st', taken').
Proof.
  induction evs as [|ev evs IH]; intros all taken st st' Hh Htok E; cbn [load_run] in E.
  { injection E as <-. exists taken. unfold offered_in. cbn. by rewrite app_nil_r. }
  destruct (load_step _ _ _ _ _ _ st ev) as [[st1|e|]|] eqn:Es; [|done..].
  destruct (healthy_load_step cap all taken st st1 ev Hh Htok Es) as (taken1 & Hh1 & Htok1).
  destruct (IH _ _ _ _ Hh1 Htok1 E) as (taken2 & Hh2 & Htok2). exists taken2. split; [done|].
  unfold offered_in, offered in *. cbn [mbind list_bind]. by rewrite fmap_app, concat_app, app_assoc.
Qed.

Lemma healthy_start m workers net :
  holds l m net → knows seed (nraft n0) net → fresh_links net → healthy [] (load_start workers net).
Proof.
  intros Hm Hk Hf. split; [by exists m|done|done| | | |]; try (rewrite results_eq; by apply sum_of_new).
  intros i w. cbn. rewrite lookup_replicate. by intros [[=] _].
Qed.
End run.

(** A run of the load generator against a cluster, its coordinator and workers at
    work at the same time, in whatever order ticks, connections and turns come: every
    token offered is taken (in the order of the offers), still waiting, or counted as
    dropped; when a seed is up and knows a leader that is up, no worker ever fails: each
    finds the leader, each token taken is one SET or GET of a key of the key space that
    succeeds and is counted once, and no error is counted.  Nobody gets stuck: a worker
    that is not connected can connect, one that is can take the next token. *)
Lemma load_accounted {W} {LW : Log W} {LL : LogLaws W} {H} {HH : Histogram H} (ord : nat → order) (ford : table_order) (maxLen : Z)
    (clock : nat → Z) (fuel : nat) (seed : addr) (seeds : list addr) (keys : list gobytes) (hotKeys workers batch : Z)
    (value : gobytes) (st0 : State (P:=AnyPolicy) (W:=W)) (m : gmap key Record) (net : live) (evs : list load_event)
    (st : load H live) :
  let NW := live_Network ord ford maxLen clock in
  let step := load_step (NW:=NW) (S fuel) (seed :: seeds) keys (hot_keys hotKeys (len keys)) value batch in
  orders_ok ord → log_total W → 0 ≤ maxLen → 0 ≤ workers →
  up net !! seed = Some st0 → leaderAddr (nraft st0.1) ≠ [] → sendable 0 (MTopologyResponse (GetTopology st0.1)) →
  holds (leaderAddr (nraft st0.1)) m net → fresh_links net → keys ≠ [] → Forall (key_fits maxLen value) keys →
  load_run (NW:=NW) (S fuel) (seed :: seeds) keys (hot_keys hotKeys (len keys)) value batch (load_start workers net) evs =
    Some (Ok st) →
  (∃ taken, taken ++ workCh (l_co st) `sublist_of` offered_in evs ∧
     len taken + len (workCh (l_co st)) + droppedTokens (l_co st) = len (offered_in evs) ∧
     writeOps (totals (results st)) = count_tokens true taken ∧ readOps (totals (results st)) = count_tokens false taken) ∧
  worker_errors (totals (results st)) = 0 ∧ len (workCh (l_co st)) ≤ workers * 8 ∧
  (∀ i, l_workers st !! i = Some None → ∃ st', step st (LConnect i) = Some (Ok st')) ∧
  (∀ i w ch, l_workers st !! i = Some (Some w) → workCh (l_co st) ≠ [] → ∃ st', step st (LTurn i ch) = Some (Ok st')).
Proof.
  intros NW step Hord Hlog Hmax Hw Hseed Hl Htop Hm Hf Hkeys Hfit Erun.
  assert (knows seed (nraft st0.1) net) as Hk by (by exists st0).
  assert (tokens_ok (workers * 8) [] (new_coordinator workers, [])) as H0
    by (split_and!; cbn; unfold len; simpl; (lia || done)).
  destruct (healthy_load_run Hlog ord Hord ford maxLen Hmax clock fuel seed seeds keys hotKeys value st0.1 Hl Htop batch Hkeys Hfit
    (workers * 8) evs [] [] (load_start workers net) st) as (taken & Hh & Htok); [by eapply healthy_start|exact H0|exact Erun|].
  destruct Htok as (_ & Hcap & Hsum & Hsub). destruct (totals_sums (results st)) as (E1 & E2 & E3).
  split_and!.
  - exists taken. rewrite E1, E2, (hl_writes _ _ _ _ Hh), (hl_reads _ _ _ _ Hh). split_and!; [done|exact Hsum|done|done].
  - rewrite E3. apply (hl_errors _ _ _ _ Hh).
  - done.
  - intros i Hi. destruct (healthy_connect ord ford maxLen Hmax clock fuel seed seeds keys hotKeys value st0.1 Hl Htop batch
      taken st i Hh Hi) as (st' & E & _). by exists st'.
  - intros i w ch Hi Hq. destruct (workCh (l_co st)) as [|t q] eqn:Eq; [done|].
    destruct (healthy_turn Hlog ord Hord ford maxLen clock fuel seed seeds keys hotKeys value st0.1 batch Hkeys Hfit
      taken st i ch w t q Hh Hi Eq) as (st' & E & _). by exists st'.
Qed.

(** Two workers and ten tokens: one connects and takes two before the other is there. *)
Definition ex_load_events : list load_event :=
  [LConnect 0; LTick [true; false; true; true; false]; LTurn 0 (mkChoice false 5 120); LTurn 0 (mkChoice true 7 90);
   LConnect 1; LTick [true; true; true; false; true]; LTurn 1 (mkChoice false 1 200); LDone; LTurn 0 (mkChoice false 2 80)].
Definition ex_live : live (W:=Sys) := mkLive ex_nodes ∅ 0 0.
Definition ex_keys : list gobytes := bench_key <$> seq 0 5.

(** A histogram that keeps its values, for the examples: [ValueAtQuantile] is the value
    at that rank, [Max] the largest. *)
Fixpoint insert_value (v : Z) (h : list Z) : list Z :=
  match h with [] => [v] | x :: h => if v <=? x then v :: x :: h else x :: insert_value v h end.

#[export] Instance list_Histogram : Histogram (list Z) := {
  hist_New _ _ _ := [];
  RecordValue v h := if (0 <=? v) && (v <=? maxLatencyMicros) then insert_value v h else h;
  Merge h h' := foldr insert_value h h';
  ValueAtQuantile h q := default 0 (h !! Z.to_nat (Z.min (len h - 1) (to_int 0 (fdiv (fmul q (of_int (len h))) (of_int 100)))));
  hist_Max h := default 0 (last h);
}.

Definition ex_load_end : load (list Z) live :=
  match load_run (NW:=live_Network any_order ex_order 10485760 (λ i, Z.of_nat i)) 1 [addr_B] ex_keys
    (hot_keys 2 (len ex_keys)) (str "xxxx") 5 (load_start 2 ex_live) ex_load_events with
  | Some (Ok st) => st
  | _ => load_start 2 ex_live
  end.

Lemma ex_load_runs :
  load_run (NW:=live_Network any_order ex_order 10485760 (λ i, Z.of_nat i)) 1 [addr_B] ex_keys
    (hot_keys 2 (len ex_keys)) (str "xxxx") 5 (load_start 2 ex_live) ex_load_events = Some (Ok ex_load_end).
Proof. vm_compute. reflexivity. Qed.

Example ex_load_totals :
  totals (results ex_load_end) = mkWorkerResult [80; 120; 200] [90] 3 1 0 ∧
  len (workCh (l_co ex_load_end)) = 6 ∧ droppedTokens (l_co ex_load_end) = 0.
Proof. vm_compute. auto. Qed.

Lemma load_accounted_witness :
  (∃ taken, taken ++ workCh (l_co ex_load_end) `sublist_of` offered_in ex_load_events ∧
     len taken + len (workCh (l_co ex_load_end)) + droppedTokens (l_co ex_load_end) = len (offered_in ex_load_events) ∧
     writeOps (totals (results ex_load_end)) = count_tokens true taken ∧
     readOps (totals (results ex_load_end)) = count_tokens false taken) ∧
  worker_errors (totals (results ex_load_end)) = 0.
Proof.
  destruct (load_accounted any_order ex_order 10485760 (λ i, Z.of_nat i) 0 addr_B [] ex_keys 2 2 5 (str "xxxx")
           (ex_member addr_B) ∅ ex_live ex_load_events ex_load_end) as (Ha & Hb & _).
  - apply any_order_ok.
  - apply interval_log_total.
  - lia.
  - lia.
  - apply ex_nodes_lookup. by right; left.
  - done.
  - apply ex_topology_sendable.
  - split; [|by intros k rec; rewrite lookup_empty].
    exists (ex_member addr_A). split; [apply ex_nodes_lookup; by left|apply ex_follower_sim].
  - intros c _. apply lookup_empty.
  - done.
  - unfold ex_keys. apply Forall_fmap, Forall_forall. intros i Hi.
    assert (i < 5)%nat as Hi5 by (apply elem_of_seq in Hi; lia).
    intros w. destruct w; do 5 (destruct i as [|i]; [vm_compute; intuition discriminate|]); lia.
  - apply ex_load_runs.
  - split; [exact Ha|exact Hb].
Defined.
