(* ===== verification/LoadMain.v ===== *)
(** * The load generator's main program (bench/loadgen/main.go)

    From the arguments to the printed summary and the row of the report: discovery of the
    leader, the plan of the run, the run itself (LoadGen.v), the totals, the summary and
    the CSV file (Csv.v).  What the program reads of its surroundings is given: the
    network, the clock, the schedule of ticks and turns, what the file system answers. *)

From S2P Require Import Prelude GoLang Protocol KvMessages ClusterMessages ClientMessages Messages.
From S2P Require Import Strings Float Duration Numbers Flag Os WalWriter Store Logs StoreProps Raft RaftProps Replication ReplicationProps Cli CliProps Bench Float Csv LoadGen LoadRun.

(** ** Flags *)

Record flags := mkFlags {
  f_addr : gostring; f_label : gostring; f_csv : gostring; f_rate : Z; f_duration : Z; f_workers : Z;
  f_readRatio : float64; f_keys : Z; f_valueSize : Z; f_hotKeys : Z; f_hotRatio : float64 }.

Definition default_flags : flags :=
  mkFlags (str "localhost:6379") [] [] 5000 (60 * Second) 64 (of_decimal 5 1) 5000 64 0 (of_decimal 8 1).

(** The flags of [main], by name. *)
Definition load_flags : list (gostring * (gostring → flags → go flags)) := [
  (str "addr", λ v '(mkFlags _ label csv rate dur w rr k vs hk hr), x ← string_Set v; Ok (mkFlags x label csv rate dur w rr k vs hk hr));
  (str "label", λ v '(mkFlags a _ csv rate dur w rr k vs hk hr), x ← string_Set v; Ok (mkFlags a x csv rate dur w rr k vs hk hr));
  (str "csv", λ v '(mkFlags a label _ rate dur w rr k vs hk hr), x ← string_Set v; Ok (mkFlags a label x rate dur w rr k vs hk hr));
  (str "rate", λ v '(mkFlags a label csv _ dur w rr k vs hk hr), x ← int_Set v; Ok (mkFlags a label csv x dur w rr k vs hk hr));
  (str "duration", λ v '(mkFlags a label csv rate _ w rr k vs hk hr), x ← duration_Set v; Ok (mkFlags a label csv rate x w rr k vs hk hr));
  (str "workers", λ v '(mkFlags a label csv rate dur _ rr k vs hk hr), x ← int_Set v; Ok (mkFlags a label csv rate dur x rr k vs hk hr));
  (str "read-ratio", λ v '(mkFlags a label csv rate dur w _ k vs hk hr), x ← float64_Set v; Ok (mkFlags a label csv rate dur w x k vs hk hr));
  (str "keys", λ v '(mkFlags a label csv rate dur w rr _ vs hk hr), x ← int_Set v; Ok (mkFlags a label csv rate dur w rr x vs hk hr));
  (str "value-size", λ v '(mkFlags a label csv rate dur w rr k _ hk hr), x ← int_Set v; Ok (mkFlags a label csv rate dur w rr k x hk hr));
  (str "hot-keys", λ v '(mkFlags a label csv rate dur w rr k vs _ hr), x ← int_Set v; Ok (mkFlags a label csv rate dur w rr k vs x hr));
  (str "hot-ratio", λ v '(mkFlags a label csv rate dur w rr k vs hk _), x ← float64_Set v; Ok (mkFlags a label csv rate dur w rr k vs hk x))
].

(** ** Text *)

Definition line_end : gostring := [10].

(** The verbs [%-24s] and [%7d]. *)
Definition left_aligned (n : nat) (s : gostring) : gostring := s ++ replicate (n - length s) 32.
Definition right_aligned (n : nat) (s : gostring) : gostring := replicate (n - length s) 32 ++ s.

Definition summary_line (name : string) (text : gostring) : gostring :=
  left_aligned 24 (str name) ++ str " " ++ text ++ line_end.

Definition pct (num den : Z) : float64 := if den =? 0 then of_int 0 else fdiv (of_int num) (of_int den).

Section report.
Context {H : Type} {HH : Histogram H}.

Definition printHist (label : gostring) (h : H) (ops : Z) : gostring :=
  if ops =? 0 then label ++ str ": no operations" ++ line_end else
  label ++ str "  [" ++ Itoa ops ++ str " ops]" ++ line_end ++
  str "  p50=" ++ right_aligned 7 (Itoa (ValueAtQuantile h (of_int 50))) ++
  str "  p95=" ++ right_aligned 7 (Itoa (ValueAtQuantile h (of_int 95))) ++
  str "  p99=" ++ right_aligned 7 (Itoa (ValueAtQuantile h (of_int 99))) ++
  str "  p999=" ++ right_aligned 7 (Itoa (ValueAtQuantile h (of_decimal 999 1))) ++
  str "  max=" ++ right_aligned 7 (Itoa (hist_Max h)) ++ line_end.

Definition heading (label : gostring) : gostring :=
  str "Load Generator Results" ++ (if bool_decide (label = []) then [] else str " — " ++ label).

Definition total_ops (t : workerResult H) : Z := writeOps t + readOps t.
Definition actual_rate (t : workerResult H) (elapsed : Z) : float64 := fdiv (of_int (total_ops t)) (Seconds elapsed).

(** The summary, from the totals and the tokens dropped. *)
Definition summary (fl : flags) (leader : addr) (elapsed : Z) (t : workerResult H) (dropped : Z) : gostring :=
  line_end ++ str "=== " ++ heading (f_label fl) ++ str " ===" ++ line_end ++
  summary_line "Scenario:" (orDash (f_label fl)) ++
  summary_line "Target node:" leader ++
  summary_line "Duration:" (Fixed 1 (Seconds elapsed) ++ str "s") ++
  summary_line "Workers:" (Itoa (f_workers fl)) ++
  summary_line "Target rate:" (Itoa (f_rate fl) ++ str " ops/s") ++
  summary_line "Actual rate:" (Fixed 0 (actual_rate t elapsed) ++ str " ops/s  (" ++ Itoa (total_ops t) ++ str " total)") ++
  summary_line "Errors:" (Itoa (worker_errors t) ++ str " (" ++
    Fixed 3 (fmul (of_int 100) (pct (worker_errors t) (total_ops t + worker_errors t))) ++ str "%)") ++
  summary_line "Dropped tokens:" (Itoa dropped) ++
  summary_line "Read ratio:" (Fixed 1 (fmul (f_readRatio fl) (of_int 100)) ++ str "%") ++
  summary_line "Value size:" (Itoa (f_valueSize fl) ++ str " bytes") ++ line_end ++
  printHist (str "Write latency (µs)") (writeHist t) (writeOps t) ++
  printHist (str "Read  latency (µs)") (readHist t) (readOps t).

(** The row of the report; [other] is what [int] makes of a rate that is not a number. *)
Definition report_row (other : Z) (fl : flags) (timestamp : gostring) (hk elapsed : Z) (t : workerResult H) (dropped : Z)
    : csvRow :=
  mkCsvRow (f_label fl) timestamp (f_rate fl) (to_int other (actual_rate t elapsed)) (Seconds elapsed) (f_workers fl)
    (fmul (f_readRatio fl) (of_int 100)) (fmul (f_hotRatio fl) (of_int 100)) (f_valueSize fl) (f_keys fl) hk
    (writeOps t) (readOps t) (worker_errors t) dropped
    (ValueAtQuantile (writeHist t) (of_int 50)) (ValueAtQuantile (writeHist t) (of_int 95))
    (ValueAtQuantile (writeHist t) (of_int 99)) (ValueAtQuantile (writeHist t) (of_decimal 999 1)) (hist_Max (writeHist t))
    (ValueAtQuantile (readHist t) (of_int 50)) (ValueAtQuantile (readHist t) (of_int 95))
    (ValueAtQuantile (readHist t) (of_int 99)) (ValueAtQuantile (readHist t) (of_decimal 999 1)) (hist_Max (readHist t)).

(** ** main *)

Context {N : Type} {NW : Network N}.

Record surroundings := mkSurroundings {
  e_net : N; e_clock : list Z; e_started : Z; e_fuel : nat; e_events : list load_event; e_elapsed : Z;
  e_timestamp : gostring; e_os : attempt; e_file : option gobytes; e_other : Z }.

Record outcome := mkOutcome { stdout : gostring; stderr : gostring; exit_code : Z; csv_file : option gobytes; o_net : N }.

(** What [main] makes before it starts the workers and the ticker, or a panic. *)
Definition plan (fl : flags) : go (gobytes * list gobytes) :=
  value ← bench_value (f_valueSize fl);
  keys ← bench_keys (f_keys fl);
  if f_workers fl <? 0 then Panic else
  _ ← new_ticker (f_rate fl);
  Ok (value, keys).

(** The end of [main]: summary and report. *)
Definition conclude (fl : flags) (e : surroundings) (out : gostring) (leader : addr) (hk : Z) (t : workerResult H) (dropped : Z) (net : N)
    : go outcome :=
  let out := out ++ summary fl leader (e_elapsed e) t dropped in
  if bool_decide (f_csv fl = []) then Ok (mkOutcome out [] 0 (e_file e) net) else
  match appendCSV (e_os e) (e_file e) (report_row (e_other e) fl (e_timestamp e) hk (e_elapsed e) t dropped) with
  | (Ok _, file) => Ok (mkOutcome (out ++ line_end ++ str "CSV row appended → " ++ f_csv fl ++ line_end) [] 0 file net)
  | (Err err, file) => Ok (mkOutcome out (str "csv write error: " ++ Error err ++ line_end) 0 file net)
  | (Panic, _) => Panic
  end.

(** After the flags.  [None]: the schedule is not one of a run that ends. *)
Definition load_with (fl : flags) (e : surroundings) : option (go outcome) :=
  let seeds := Split (f_addr fl) 44 in
  let out := str "discovering cluster via [" ++ Join seeds (str " ") ++ str "] ..." ++ line_end in
  match WaitForLeader (e_clock e) (e_started e + 10 * Second) (str "10s") seeds (e_net e) with
  | (Panic, _) => Some Panic
  | (Err err, net) => Some (Ok (mkOutcome out (str "error: " ++ Error err ++ line_end) 1 (e_file e) net))
  | (Ok (leader, peers), net) =>
      let allSeeds := mergeSeeds seeds peers in
      let out := out ++ str "leader : " ++ leader ++ line_end in
      match plan fl with
      | Ok (value, keys) =>
          let hk := hot_keys (f_hotKeys fl) (len keys) in
          match load_run (e_fuel e) allSeeds keys hk value (batchSize (f_rate fl)) (load_start (f_workers fl) net) (e_events e) with
          | Some (Ok st) =>
              if load_ended st then
                let net := foldl (λ net w, match w with Some w => Close (w_first w) net | None => net end) (l_net st) (l_workers st) in
                Some (conclude fl e out leader hk (totals (results st)) (droppedTokens (l_co st)) net)
              else None
          | Some _ => Some Panic
          | None => None
          end
      | _ => Some Panic
      end
  end.

(** [usage] is the text of [flag.Usage]. *)
Definition load_main {U : Unicode} (usage : gostring) (args : list gostring) (e : surroundings) : option (go outcome) :=
  match parse load_flags args default_flags with
  | Ok (Settings fl _) => load_with fl e
  | Ok ErrHelp => Some (Ok (mkOutcome [] usage 0 (e_file e) (e_net e)))
  | Ok (Failed msg) => Some (Ok (mkOutcome [] (msg ++ line_end ++ usage) 2 (e_file e) (e_net e)))
  | _ => Some Panic
  end.
End report.
Arguments surroundings : clear implicits.
Arguments outcome : clear implicits.

(** ** What it reports *)

Section reports.
Context {H : Type} {HH : Histogram H} {N : Type} {NW : Network N}.

(** The ticks of a schedule: each offers a batch. *)
Definition ticks (evs : list load_event) : Z := foldr (λ ev n, (match ev with LTick _ => 1 | _ => 0 end) + n) 0 evs.

Lemma offered_ticks fuel seeds keys hk value batch evs : ∀ (st st' : load H N),
  load_run fuel seeds keys hk value batch st evs = Some (Ok st') → len (offered_in evs) = batch * ticks evs.
Proof.
  induction evs as [|ev evs IH]; intros st st' E; cbn [load_run] in E; [unfold ticks, offered_in; cbn; unfold len; simpl; lia|].
  destruct (load_step _ _ _ _ _ _ st ev) as [[st1|e|]|] eqn:Es; [|done..]. apply IH in E.
  unfold ticks, offered_in, offered in *. cbn [foldr mbind list_bind]. rewrite fmap_app, concat_app, len_app, E.
  destruct ev as [ts| | |]; cbn [coord_of fmap list_fmap concat]; try (unfold len; simpl; lia).
  cbn [load_step] in Es. destruct (l_closed st); [done|]. destruct (Z.eqb_spec (len ts) batch) as [Hb|]; [|done].
  rewrite app_nil_r, Hb. lia.
Qed.

(** What is reported once the flags are read. *)
Definition reported (fl : flags) (e : surroundings N) (o : outcome N) : Prop :=
  (exit_code o = 1 ∧ stderr o ≠ [] ∧ csv_file o = e_file e) ∨
  ∃ leader hk (t : workerResult H) dropped,
    exit_code o = 0 ∧
    writeOps t + readOps t + worker_errors t + dropped = batchSize (f_rate fl) * ticks (e_events e) ∧
    (∃ before after, stdout o = before ++ summary fl leader (e_elapsed e) t dropped ++ after) ∧
    (f_csv fl = [] → csv_file o = e_file e) ∧
    (f_csv fl ≠ [] → e_os e = good_attempt → ∀ rows, file_rows (e_file e) = Some rows →
     ∃ data, csv_file o = Some data ∧
       read_csv data = Some (rows ++ [toRecord (report_row (e_other e) fl (e_timestamp e) hk (e_elapsed e) t dropped)])).

Lemma load_with_reports (fl : flags) (e : surroundings N) (o : outcome N) :
  load_with fl e = Some (Ok o) → reported fl e o.
Proof.
  unfold load_with. destruct (WaitForLeader _ _ _ _ _) as [[[leader peers]|err|] net]; [|intros [= <-]; left; by split_and!|done].
  destruct (plan fl) as [[value keys]|err|] eqn:Ep; [|done..]. set (hk := hot_keys _ _).
  destruct (load_run _ _ _ _ _ _ _ _) as [[st|err|]|] eqn:Er; [|done..].
  destruct (load_ended st) eqn:Ee; [|done]. intros [= Ec]. right. exists leader, hk, (totals (results st)), (droppedTokens (l_co st)).
  assert (0 ≤ f_workers fl) as Hw.
  { unfold plan in Ep. destruct (bench_value _); [|done..]. cbn in Ep. destruct (bench_keys _); [|done..]. cbn in Ep.
    destruct (Z.ltb_spec (f_workers fl) 0); done. }
  pose proof (load_accounts _ _ _ _ _ _ _ _ _ _ Hw Er) as [Hsum _]. rewrite (offered_ticks _ _ _ _ _ _ _ _ _ Er) in Hsum.
  unfold load_ended in Ee. apply andb_true_iff in Ee as [[_ Hq%bool_decide_eq_true_1]%andb_true_iff _].
  rewrite Hq in Hsum. change (len (@nil bool)) with 0 in Hsum. unfold turns in Hsum.
  revert Ec. unfold conclude. case_bool_decide as Hcsv.
  - intros [= <-]. cbn [exit_code stdout csv_file]. split_and!; [done|lia| |done|done]. eexists _, []. by rewrite app_nil_r.
  - destruct (appendCSV _ _ _) as [[[]|err|] file] eqn:Ea; intros [= <-]; cbn [exit_code stdout csv_file]; (split_and!; [done|lia| |done|]);
      try (eexists _, _; rewrite <-app_assoc; reflexivity); try (eexists _, []; by rewrite app_nil_r);
      intros _ Hos rows Hrows; destruct (appendCSV_rows _ (report_row (e_other e) fl (e_timestamp e) hk (e_elapsed e)
        (totals (results st)) (droppedTokens (l_co st))) _ Hrows) as (data & E & Hd); rewrite Hos in Ea;
      rewrite Ea in E; simplify_eq. eauto.
Qed.

End reports.

(** ** A run to evaluate

    Two workers, two ticks of three tokens and a drain, against two nodes. *)
Definition ex_flags : flags :=
  mkFlags addr_B (str "a,1") (str "out/r.csv") 3000 (60 * Second) 2 (of_decimal 5 1) 5 4 2 (of_decimal 8 1).

Definition ex_main_events : list load_event :=
  [LConnect 0; LTick [true; false; true]; LTurn 0 (mkChoice false 5 120); LConnect 1; LTick [true; true; false];
   LTurn 1 (mkChoice true 7 90); LTurn 1 (mkChoice true 1 200); LDone; LTurn 0 (mkChoice false 2 80);
   LTurn 1 (mkChoice false 3 70); LTurn 0 (mkChoice false 4 65)].

Definition ex_surroundings : surroundings (live (W:=Sys)) :=
  mkSurroundings ex_live [5] 0 1 ex_main_events 2500000000 (str "2024-01-01 00:00:00") good_attempt None 0.

Definition ex_net_instance : Network (live (W:=Sys)) := live_Network any_order ex_order 10485760 (λ i, Z.of_nat i).

Definition ex_args : list gostring :=
  [str "-addr"; addr_B; str "--label=a,1"; str "-csv=out/r.csv"; str "-rate"; str "3_000"; str "-duration=1m0.0s";
   str "-workers=2"; str "--read-ratio"; str "5e-1"; str "-keys=0x5"; str "-value-size=4"; str "-hot-keys"; str "2"].

(** The arguments say what [ex_flags] says. *)
Example ex_args_flags : parse (U:=ascii_text) load_flags ex_args default_flags = Ok (Settings ex_flags []).
Proof. vm_compute. reflexivity. Qed.

Example ex_args_wrong :
  parse (U:=ascii_text) load_flags [str "-rate=5k"] default_flags =
    Ok (Failed (str "invalid value " ++ [34] ++ str "5k" ++ [34] ++ str " for flag -rate: parse error")) ∧
  parse (U:=ascii_text) load_flags [str "-rates=5"] default_flags = Ok (Failed (str "flag provided but not defined: -rates")) ∧
  parse (U:=ascii_text) load_flags [str "-keys"] default_flags = Ok (Failed (str "flag needs an argument: -keys")) ∧
  parse (U:=ascii_text) load_flags [str "--h"] default_flags = Ok ErrHelp.
Proof. vm_compute. auto. Qed.

Definition ex_outcome : outcome (live (W:=Sys)) :=
  match load_main (U:=ascii_text) (NW:=ex_net_instance) [] ex_args ex_surroundings with
  | Some (Ok o) => o
  | _ => mkOutcome [] [] 2 None ex_live
  end.

Lemma ex_main_runs : load_main (U:=ascii_text) (NW:=ex_net_instance) [] ex_args ex_surroundings = Some (Ok ex_outcome).
Proof. vm_compute. reflexivity. Qed.

(** The numbers of the row: four writes and two reads in two and a half seconds, no error. *)
Example ex_main_row :
  (exit_code ex_outcome = 0) ∧
  (csv_file ex_outcome ≫= read_csv) =
  Some [csvHeader;
        str <$> ["a,1"; "2024-01-01 00:00:00"; "3000"; "2"; "2.5"; "2"; "50.0"; "4"; "5"; "2"; "80.0"; "4"; "2"; "0"; "0";
                 "120"; "200"; "200"; "200"; "200"; "90"; "90"; "90"; "90"; "90"]%string].
Proof. vm_compute. auto. Qed.

