(* ===== verification/Program.v ===== *)
(** * The program (main.go)

    From the environment and the log file to a node that serves connections: the
    configuration, the store it starts, the node in standalone or cluster mode, and
    what clients then get.  [log.Fatalf] on an error of [NewKVStore] is the error
    outcome; the [log.Printf] lines are left out. *)

From S2P Require Import Prelude GoLang Protocol KvMessages ClusterMessages ClientMessages Messages.
From S2P Require Import WalRecord Os WalWriter Shard Eviction Store Recovery StoreSpec Logs StoreProps.
From S2P Require Import Raft Replication ReplicationProps Engine Server ServerProps Strings MemoryBytes Config Cli CliProps.

Definition wal_options (cfg : config.Config) : Options :=
  mkOptions (config.Mode (config.WAL cfg)) (config.FlushInterval (config.WAL cfg))
    (config.MaxBatchSize (config.WAL cfg)).

Definition store_options (cfg : config.Config) : StoreOptions AnyPolicy :=
  mkStoreOptions (config.ShardCount (config.Store cfg)) (config.DefaultTTL (config.Store cfg))
    (config.MaxMemoryBytes (config.Store cfg)) (new_policy (Some (ByName (config.EvictionPolicy (config.Store cfg))))).

Definition standalone (cfg : config.Config) : bool :=
  bool_decide (config.NodeAddr (config.Cluster cfg) = []) || (len (config.Peers (config.Cluster cfg)) =? 0).

Section program.
Context {U : Unicode}.
Context {W : Type} {LW : Log W}.

(** [main] up to [tcpServer.Start]: [file] is what is at the log's path, [open] the
    outcome of [wal.Open] there. *)
Definition start_program (ord : nat → order) (env : gostring → gostring) (file : wal.file_at)
    (open : gostring → Options → go W) (now : Z) : go (Node AnyPolicy W) :=
  let cfg := config.Load env in
  db ← NewKVStore ord file (open (config.WALPath (config.Store cfg)) (wal_options cfg)) (store_options cfg) now;
  let ttl := config.DefaultTTL (config.Store cfg) in
  Ok (if standalone cfg then ForceLeader (NewNode db ttl [] [])
      else NewNode db ttl (config.NodeAddr (config.Cluster cfg)) (config.Peers (config.Cluster cfg))).

(** Connections served one after the other; each comes with the fuel of its loop, the
    clock, and the bytes its client sends. *)
Fixpoint serve (ord : nat → order) (ford : table_order) (maxPayloadBytes : Z)
    (conns : list (nat * (nat → Z) * reader)) (st : State (P:=AnyPolicy) (W:=W))
    : option (list gobytes * State (P:=AnyPolicy) (W:=W)) :=
  match conns with
  | [] => Some ([], st)
  | (fuel, clock, rd) :: conns =>
      match handleConnection ord ford fuel maxPayloadBytes clock 0 rd st with
      | Some (Closed, st, out) => '(outs, st) ← serve ord ford maxPayloadBytes conns st; Some (out :: outs, st)
      | _ => None
      end
  end.
End program.

(** ** Sessions against the map *)

Abbreviation session := ((nat → Z) * list client_request)%type.

Definition session_conn (s : session) : nat * (nat → Z) * reader :=
  (length s.2, s.1, Reader (concat ((λ r, frame_bytes (client_msg r)) <$> s.2)) io_EOF).

Fixpoint sessions_spec (ttl0 : Z) (m : gmap key Record) (ss : list session) : list (list Msg) * gmap key Record :=
  match ss with
  | [] => ([], m)
  | (clock, rs) :: ss =>
      let '(resps, m) := session_spec ttl0 clock m rs in
      let '(outs, m) := sessions_spec ttl0 m ss in (resps :: outs, m)
  end.

Lemma serve_sessions {W} {LW : Log W} {LL : LogLaws W} ord ford maxLen ss : ∀ (st : State (P:=AnyPolicy) (W:=W)) m,
  orders_ok ord → log_total W → simulates m (db st.1) →
  Forall (λ s : session, Forall (λ r, sendable maxLen (client_msg r)) s.2) ss →
  ∃ st', serve ord ford maxLen (session_conn <$> ss) st =
      Some ((λ resps, concat (frame_bytes <$> resps)) <$> (sessions_spec (ndefaultTTL st.1) m ss).1, st') ∧
    simulates (sessions_spec (ndefaultTTL st.1) m ss).2 (db st'.1).
Proof.
  induction ss as [|[clock rs] ss IH]; intros st m Hord Hlog Hsim Hss; [by exists st|].
  apply Forall_cons in Hss as [Hrs Hss].
  destruct (handleConnection_session Hlog ord Hord ford maxLen clock 0 st m rs Hsim Hrs) as (st1 & E & Hsim1 & Et).
  rewrite fmap_cons. unfold session_conn at 1. cbn [serve sessions_spec fst snd]. rewrite E.
  destruct (session_spec (ndefaultTTL st.1) clock m rs) as [resps m1]. cbn [fst snd] in *.
  destruct (IH st1 m1 Hord Hlog Hsim1 Hss) as (st2 & E2 & Hsim2). rewrite Et in *.
  destruct (sessions_spec (ndefaultTTL st.1) m1 ss) as [outs m2]. cbn [fst snd] in *.
  exists st2. split; [|done]. by rewrite E2.
Qed.

(** ** The properties of the program *)

Lemma empty_topology_sendable : sendable 0 (MTopologyResponse (mkTopologyResponse [] [])).
Proof.
  split; [|split; [vm_compute; reflexivity|by left]].
  split; [vm_compute; reflexivity|]. split; [vm_compute; reflexivity|apply Forall_nil_2].
Qed.

Section claims.
Context {U : Unicode}.
Context {W : Type} {LW : Log W} {LL : LogLaws W}.

Lemma start_program_spec ord env file rs open (w : W) now :
  let cfg := config.Load env in
  orders_ok ord → config.ShardCount (config.Store cfg) < 2 ^ 32 → holds file rs →
  open (config.WALPath (config.Store cfg)) (wal_options cfg) = Ok w →
  ∃ n, start_program ord env file open now = Ok n ∧ store_ok (db n) ∧
    (∀ k, view (db n) k = replayed now (stored <$> rs) !! k) ∧
    (∀ i sp, shards (db n) !! i = Some sp →
       budget sp.1 = Z.quot (config.MaxMemoryBytes (config.Store cfg)) (config.ShardCount (config.Store cfg))) ∧
    ndefaultTTL n = config.DefaultTTL (config.Store cfg) ∧
    (standalone cfg = true → nleader n = Some newLeader ∧ GetTopology n = mkTopologyResponse [] []).
Proof.
  intros cfg Hord Hsh Hf Hopen. destruct (config.Load_valid env) as [_ Hs _ Hm _ _]. fold cfg in Hs, Hm.
  destruct (NewKVStore_spec ord file rs w (store_options cfg) now) as (kv & E & Hok & _ & _ & _ & Hview & Hb);
    [done|cbn; lia|apply ByName_inv|done|].
  unfold start_program. fold cfg. rewrite Hopen, E. go_bind1. eexists. split; [done|].
  destruct (standalone cfg); cbn; (split_and!; [done|done| |done|done]); intros i sp Hi; rewrite (Hb i sp Hi); cbn;
    destruct (Z.ltb_spec 0 (config.MaxMemoryBytes (config.Store cfg))); try done;
    by replace (config.MaxMemoryBytes (config.Store cfg)) with 0 by lia.
Qed.

(** C2.  The program, from environment and log file to the bytes clients read.  For
    every environment with fewer than [2^32] shards, every complete log and a log
    writer that accepts records, [main] starts a node (standalone or clustered); if
    memory is not limited, clients that connect one after the other get, request by
    request, the responses of a plain map that started as the log's contents (later
    records over earlier ones, expired ones gone, the configured default TTL for
    requests without one), and the node's store ends as that map. *)
Theorem program_serves_sessions ord ford env file rs open (w : W) now (ss : list session) :
  let cfg := config.Load env in
  let maxLen := config.MaxPayloadBytes (config.Server cfg) in
  let ttl := config.DefaultTTL (config.Store cfg) in
  orders_ok ord → log_total W → holds file rs →
  open (config.WALPath (config.Store cfg)) (wal_options cfg) = Ok w →
  config.ShardCount (config.Store cfg) < 2 ^ 32 → config.MaxMemoryBytes (config.Store cfg) = 0 →
  Forall (λ s : session, Forall (λ r, sendable maxLen (client_msg r)) s.2) ss →
  ∃ n st, start_program ord env file open now = Ok n ∧
    serve ord ford maxLen (session_conn <$> ss) (n, ∅) =
      Some ((λ resps, concat (frame_bytes <$> resps)) <$> (sessions_spec ttl (replayed now (stored <$> rs)) ss).1, st) ∧
    ∀ k, view (db st.1) k = (sessions_spec ttl (replayed now (stored <$> rs)) ss).2 !! k.
Proof.
  intros cfg maxLen ttl Hord Hlog Hf Hopen Hsh Hmem Hss.
  destruct (start_program_spec ord env file rs open w now) as (n & E & Hok & Hview & Hb & Ettl & _); [done..|].
  destruct (serve_sessions ord ford maxLen ss (n, ∅) (replayed now (stored <$> rs))) as (st & Eserve & Hsim);
    [done|done| |done|].
  { split; [done| |done]. intros i sp Hi. rewrite (Hb i sp Hi). unfold cfg in Hmem. by rewrite Hmem. }
  cbn [fst] in *. rewrite Ettl in *. exists n, st. split_and!; [done|done|]. apply Hsim.
Qed.


(** The client against a server in standalone mode: whatever address the server
    has and whichever the client starts from, a command ends with the error that no
    leader was elected, after topology requests only, and changes nothing: such a
    server names no leader. *)
Lemma standalone_cli_fails ord ford env file rs open (w : W) now choose (a seed : addr) msg :
  let cfg := config.Load env in
  let maxLen := config.MaxPayloadBytes (config.Server cfg) in
  orders_ok ord → holds file rs → open (config.WALPath (config.Store cfg)) (wal_options cfg) = Ok w →
  config.ShardCount (config.Store cfg) < 2 ^ 32 → standalone cfg = true →
  ∃ n c, start_program ord env file open now = Ok n ∧
    let nodes : Nodes W := {[ a := (n, ∅) ]} in
    execute (node_exchange ord ford maxLen now) (λ k nodes, (choose k, nodes)) (newClient seed) msg nodes =
      (Err err_no_leader, c, nodes).
Proof.
  intros cfg maxLen Hord Hf Hopen Hsh Hst.
  destruct (start_program_spec ord env file rs open w now) as (n & E & _ & _ & _ & _ & Hlead); [done..|].
  destruct (Hlead Hst) as [_ Htop].
  destruct (execute_leaderless ord ford maxLen now {[ a := (n, ∅) ]} choose 7 seed msg) as [c Ec].
  - exact (proj1 (config.valid_payload _ (config.Load_valid env))).
  - intros x st [_ <-]%lookup_singleton_Some. cbn [fst]. rewrite Htop. split; [by injection Htop|].
    apply empty_topology_sendable.
  - exists n, c. split; [exact E|exact Ec].
Qed.
End claims.

(** ** An instance *)

Definition ex_env (name : gostring) : gostring :=
  if bool_decide (name = str "KV_SHARD_COUNT") then str "4"
  else if bool_decide (name = str "KV_DEFAULT_TTL") then str "7m30s"
  else if bool_decide (name = str "KV_WAL_BATCH_SIZE") then str "-3"
  else if bool_decide (name = str "KV_EVICTION_POLICY") then str " Strict "
  else [].

Definition ex_sessions : list session :=
  [(λ i, 50 - Z.of_nat i, [CGet [1]; CSet (str "k") [7] 0]); (λ i, 70 - Z.of_nat i, [CGet (str "k"); CDelete (str "k")])].

Lemma ex_config :
  let cfg := config.Load (U:=ascii_text) ex_env in
  config.ShardCount (config.Store cfg) = 4 ∧ config.MaxBatchSize (config.WAL cfg) = 1000 ∧ config.DefaultTTL (config.Store cfg) = 450000 * config.Millisecond ∧
  config.EvictionPolicy (config.Store cfg) = NameStrict ∧ standalone cfg = true.
Proof. vm_compute. auto. Qed.

Lemma ex_holds : holds (wal.Contents (log_bytes [ex_r1])) [ex_r1].
Proof. right. split; [done|]. apply Forall_singleton. by apply (Forall_inv ex_records_ok). Qed.

Lemma program_serves_sessions_witness :
  ∃ n st, start_program (U:=ascii_text) any_order ex_env (wal.Contents (log_bytes [ex_r1]))
      (λ _ _, Ok ex_sys) 20 = Ok n ∧
    serve any_order ex_order 10485760 (session_conn <$> ex_sessions) (n, ∅) =
      Some ((λ resps, concat (frame_bytes <$> resps)) <$>
              (sessions_spec (450000 * config.Millisecond) (replayed 20 (stored <$> [ex_r1])) ex_sessions).1, st) ∧
    ∀ k, view (db st.1) k = (sessions_spec (450000 * config.Millisecond) (replayed 20 (stored <$> [ex_r1])) ex_sessions).2 !! k.
Proof.
  apply (program_serves_sessions (U:=ascii_text) any_order ex_order ex_env
           (wal.Contents (log_bytes [ex_r1])) [ex_r1] (λ _ _, Ok ex_sys) ex_sys 20 ex_sessions).
  - apply any_order_ok.
  - apply interval_log_total.
  - apply ex_holds.
  - reflexivity.
  - vm_compute; reflexivity.
  - vm_compute; reflexivity.
  - repeat (apply Forall_cons; split); try apply Forall_nil; try exact I; vm_compute; intuition discriminate.
Defined.

Example ex_responses :
  (sessions_spec (450000 * config.Millisecond) (replayed 20 (stored <$> [ex_r1])) ex_sessions).1 =
  [[MGetResponse (mkGetResponse true [10]); MSetResponse (mkSetResponse true (str "OK"))];
   [MGetResponse (mkGetResponse true [7]); MDeleteResponse (mkDeleteResponse true (str "OK"))]].
Proof. vm_compute. reflexivity. Qed.


Lemma standalone_cli_fails_witness :
  ∃ n c, start_program (U:=ascii_text) any_order ex_env (wal.Contents (log_bytes [ex_r1]))
      (λ _ _, Ok ex_sys) 20 = Ok n ∧
    let nodes : Nodes Sys := {[ defaultAddr := (n, ∅) ]} in
    execute (node_exchange any_order ex_order 10485760 20) (λ k nodes, (0, nodes)) (newClient defaultAddr)
      (client_msg (CGet (str "k"))) nodes = (Err err_no_leader, c, nodes).
Proof.
  apply (standalone_cli_fails (U:=ascii_text) any_order ex_order ex_env (wal.Contents (log_bytes [ex_r1]))
           [ex_r1] (λ _ _, Ok ex_sys) ex_sys 20 (λ _, 0) defaultAddr defaultAddr (client_msg (CGet (str "k")))).
  - apply any_order_ok.
  - apply ex_holds.
  - reflexivity.
  - vm_compute; reflexivity.
  - vm_compute; reflexivity.
Defined.
