(* ===== verification/ProgramConcurrent.v ===== *)
(** * The program under concurrent clients

    The program that [main] starts (Program.v), with a goroutine per connection
    (ServerConcurrency.v): what clients that are served at the same time see. *)

From S2P Require Import Prelude GoLang Protocol KvMessages ClusterMessages ClientMessages Messages.
From S2P Require Import WalRecord Os WalWriter Shard Eviction Store Recovery StoreSpec Logs StoreProps.
From S2P Require Import Strings MemoryBytes Config Raft Replication ReplicationProps Engine Server ServerProps Program.
From S2P Require Import Concurrency ConcurrencyProps NodeConcurrency ServerConcurrency ServerLive.

(** The call on the store that belongs to the message that has been read and is not yet
    answered. *)
Definition pending_call (c : nat) (todo : list Msg) (g : goroutine) (pend : list event) : Prop :=
  pend = [] ∨ ∃ m rest w, todo = m :: rest ∧ g_at g = GCalled m ∧
    (pend = [EInvoke c w] ∨ ∃ res, pend = [EInvoke c w; EReturn c res]).

(** What a client has got: answers to the first of its messages, each from a call of its
    own; at the end, to all. *)
Definition conversation (ttl : Z) (c : nat) (ms : list Msg) (g : goroutine) (h : list event) : Prop :=
  ∃ xs todo pend, ms = (x_msg <$> xs) ++ todo ∧ Forall (answered ttl) xs ∧
    g_out g = concat ((λ x, frame_bytes (x_resp x)) <$> xs) ∧ h = concat (x_events c <$> xs) ++ pend ∧
    pending_call c todo g pend ∧ g_at g ≠ GEnded Crashed ∧ (∀ e, g_at g = GEnded e → todo = [] ∧ pend = []).

Lemma talk_conversation ttl c ms g p h : talk ttl c ms g p h → conversation ttl c ms g h.
Proof.
  intros (xs & todo & pend & Hms & Hxs & Hout & Hh & Hst). exists xs, todo, pend. split_and!; try done.
  - unfold stage in Hst. unfold pending_call. destruct (g_at g) as [| |m|l|m| | | | | | |[]]; try done; try (left; naive_solver).
    destruct Hst as (rest & r & now & -> & _ & Hr & [[_ ->]|(q & res & _ & -> & _)]);
      right; exists m, rest; eauto 10.
  - intros E. unfold stage in Hst. by rewrite E in Hst.
  - intros e E. unfold stage in Hst. rewrite E in Hst. destruct e; naive_solver.
Qed.

Section claims.
Context {U : Unicode} {W : Type} {LW : Log W} {LL : LogLaws W}.

Lemma served_start ord env file rs open (w : W) now n nt conns :
  let cfg := config.Load env in
  orders_ok ord → config.ShardCount (config.Store cfg) < 2 ^ 32 → holds file rs →
  open (config.WALPath (config.Store cfg)) (wal_options cfg) = Ok w → start_program ord env file open now = Ok n →
  served (config.DefaultTTL (config.Store cfg)) (config.MaxPayloadBytes (config.Server cfg))
    (0 < config.MaxMemoryBytes (config.Store cfg)) (mkAState (replayed now (stored <$> rs)) now ∅) conns
    (sstart (db n) now (nleader n) (nraft n) nt conns) [] (mkAState (replayed now (stored <$> rs)) now ∅).
Proof.
  intros cfg Hord Hsh Hf Hopen E.
  destruct (start_program_spec ord env file rs open w now Hord Hsh Hf Hopen) as (n' & E' & Hok & Hview & Hb & _ & _).
  rewrite E in E'. injection E' as <-. fold cfg in Hb. pose proof (config.Load_valid env) as [_ Hs _ Hm _ _]. fold cfg in Hs, Hm.
  split; simpl.
  - split; simpl; [constructor| |by intros t w'; rewrite lookup_empty|by intros; apply lookup_empty].
    apply sim_start; [done| |done]. destruct (decide (0 < config.MaxMemoryBytes (config.Store cfg))); [by right|left].
    intros i sp Hi. rewrite (Hb i sp Hi). replace (config.MaxMemoryBytes (config.Store cfg)) with 0 by lia. done.
  - intros t p. by rewrite lookup_empty.
  - intros c ms Hc Hms. exists (mkG (stream ms) [] GFirst). rewrite lookup_fmap, Hc. split; [done|].
    rewrite lookup_empty. exists [], ms, []. done.
Qed.

Lemma served_conversations ttl maxLen limited m0 conns (s : sconf AnyPolicy W) es a :
  served ttl maxLen limited m0 conns s es a → ∀ c ms, conns !! c = Some (stream ms) → client_stream maxLen ms →
  ∃ g, s_conns s !! c = Some g ∧ conversation ttl c ms g (on c es).
Proof.
  intros [_ _ Ht] c ms Hc Hms. destruct (Ht c ms Hc Hms) as (g & Hg & Htalk). exists g. split; [done|].
  by eapply talk_conversation.
Qed.


End claims.

(** ** A run to evaluate

    Two clients write and read the same key while a third connection sends a frame that
    does not decode, a fourth a heartbeat of a newer term, and the sweeper runs. *)

Definition ex_set (v : Z) : Msg := MSetRequest (mkSetRequest (str "k") [v] 0).
Definition ex_get : Msg := MGetRequest (mkGetRequest (str "k")).

Definition ex_talk1 : list Msg := [ex_set 7; ex_get].
Definition ex_talk2 : list Msg := [ex_get; MTopologyRequest mkTopologyRequest; ex_set 8; MDeleteRequest (mkDeleteRequest (str "x"))].

Definition ex_conns : gmap nat reader :=
  {[ 1%nat := stream ex_talk1; 2%nat := stream ex_talk2;
     3%nat := Reader [0; 0; 0; 1; 255; 9] io_EOF;
     4%nat := stream [MHeartbeat (mkHeartbeat 5 (str "B"))] ]}.

Definition ex_run (c n : nat) : list saction := replicate n (SNode (KStore (Run c))).

Definition ex_schedule : list saction :=
  [SRun 1; SRun 1; SRun 2; SRun 2] ++ ex_run 1 2 ++ ex_run 2 1 ++ ex_run 1 1 ++ ex_run 2 1 ++
  [SRun 3; SNode (KStored 1); SNode (KStore (Tick 30)); SNode (KRun 1)] ++ ex_run 2 2 ++
  [SRun 4; SRun 4; SNode (KRun 1); SNode (KRun 1); SRun 4; SRun 1; SNode (KStored 2); SRun 2; SRun 4] ++
  [SRun 1; SRun 2; SRun 2; SRun 1; SRun 2; SRun 2; SRun 2] ++ ex_run 2 1 ++ ex_run 1 1 ++ ex_run 2 2 ++ ex_run 1 3 ++
  [SNode (KStore StartSweep); SNode (KStore RunSweeper); SNode (KStored 1); SNode (KStored 2); SNode (KRun 2); SNode (KRun 2); SNode (KRun 2);
   SRun 1; SRun 1; SRun 2; SRun 2; SRun 2] ++ ex_run 2 2 ++ [SNode (KStored 2); SRun 2; SRun 2].

Definition ex_node : Node AnyPolicy Sys :=
  match start_program (U:=ascii_text) any_order ex_env (wal.Contents (log_bytes [ex_r1])) (λ _ _, Ok ex_sys) 20 with
  | Ok n => n
  | _ => NewNode ex_follower 0 [] []
  end.

Definition ex_ttl : Z := 450000 * config.Millisecond.

Definition ex_begin : sconf AnyPolicy Sys := sstart (db ex_node) 20 (nleader ex_node) (nraft ex_node) ∅ ex_conns.
Definition ex_finish : sconf AnyPolicy Sys :=
  match srun any_order ex_order ex_ttl 10485760 ex_begin ex_schedule with Some s => s | None => ex_begin end.

Lemma ex_node_starts :
  start_program (U:=ascii_text) any_order ex_env (wal.Contents (log_bytes [ex_r1])) (λ _ _, Ok ex_sys) 20 = Ok ex_node.
Proof. vm_compute. reflexivity. Qed.

Lemma ex_schedule_runs : srun any_order ex_order ex_ttl 10485760 ex_begin ex_schedule = Some ex_finish.
Proof. vm_compute. reflexivity. Qed.

(** What the two clients have read: the first sees the value of the second. *)
Example ex_finish_answers :
  (g_out <$> s_conns ex_finish !! 1%nat) =
    Some (frame_bytes (MSetResponse (mkSetResponse true (str "OK"))) ++ frame_bytes (MGetResponse (mkGetResponse true [8]))) ∧
  (g_out <$> s_conns ex_finish !! 2%nat) =
    Some (frame_bytes (MGetResponse (mkGetResponse true [7])) ++
          frame_bytes (MTopologyResponse (mkTopologyResponse (str "B") [])) ++
          frame_bytes (MSetResponse (mkSetResponse true (str "OK"))) ++
          frame_bytes (MDeleteResponse (mkDeleteResponse false (str "key not found")))).
Proof. vm_compute. auto. Qed.

(** In the middle of the run, with calls of both clients in the store. *)
Definition ex_middle : sconf AnyPolicy Sys :=
  match srun any_order ex_order ex_ttl 10485760 ex_begin (take 8 ex_schedule) with Some s => s | None => ex_begin end.

Lemma ex_client_streams : client_stream 10485760 ex_talk1 ∧ client_stream 10485760 ex_talk2.
Proof.
  split; (split; [|reflexivity]); repeat (apply Forall_cons; split); try apply Forall_nil; try exact I; vm_compute; intuition discriminate.
Qed.


